(* ===== verification/_CoqProject ===== *)
-Q . S2P
Prelude.v
Wire.v
JsString.v
Categories.v
JsNumber.v
Utf8.v
Json.v
Messages.v
RelayClient.v
JsObject.v
Prefs.v
Display.v
Platform.v
JsOrder.v
WebAudio.v
Graph.v
Scheduler.v
OpusLane.v
Mixer.v
Playback.v
Content.v
Session.v
Viewer.v
Uri.v
Publisher.v
Subscriber.v
MixerView.v
EndToEnd.v
Hearing.v
Page.v
Listening.v
