(* ===== verification/Prelude.v ===== *)
(** * Streammix: the TypeScript side, modelled and verified

    Streammix lets a viewer mix a stream's audio tracks: a publisher sends the
    tracks as Opus packets over a relay, a browser extension plays them into
    the page and subtracts them from the broadcast.  This development models
    the TypeScript of the repository: the shared codec (shared/ts), the
    extension (extension/src) and the two command-line tools (tools).  Paths
    below are under src/.

    ** Layers

    Language and platform.
    - Prelude.v (this file): results with exceptions ([result], the bind
      notations), bytes, big-endian integers, generic list lemmas.
    - JsString.v: strings as UTF-16 units, regular expressions by derivatives.
    - JsNumber.v, JsOrder.v: binary64 numbers ([spec_float]), their printing,
      order and error bounds.  JsObject.v: property access with
      [Object.prototype] behind it.  Utf8.v: TextEncoder and TextDecoder.
      Json.v: JSON.stringify and JSON.parse.  WebAudio.v: an AudioContext's
      nodes, connections and parameters, and the laws of the sound they carry.

    The codec, shared/ts/src.
    - Wire.v: constants.ts, errors.ts, header.ts ([encodeFrame],
      [decodeFrame], DataView writes included).
    - Categories.v: categories.ts.  Messages.v: messages.ts, one encoder and
      one decoder per message type.

    The extension, extension/src.
    - RelayClient.v: relay/client.ts.  The handlers are functions on [World];
      the browser is the step relation [step].
    - Prefs.v: store/prefs.ts and popup/popup.ts, with their asynchronous
      reads and writes as tasks.  Platform.v: platform/detect.ts and
      platform/player.ts.  Display.v: ui/categoryDisplay.ts.
    - Graph.v: audio/graph.ts.  Scheduler.v: audio/scheduler.ts.  OpusLane.v:
      audio/decoder.ts.
    - Mixer.v: the class [Mixer], by which the controller uses its graph and
      the schedulers of its lanes, with laws over the abstract desk of gains.
    - Playback.v: the schedulers of a page over its one graph, composed as
      content/index.ts composes them: the instance of [Mixer].
    - Content.v: the closures of [mount] in content/index.ts, proved against
      [Mixer].  Session.v: the relay client driving them.  Page.v: [mount]
      across its awaits, [unmount], navigation, [destroy], over [Playback].
    - Viewer.v: the controller over [Playback], and what its viewer hears.
    - MixerView.v: ui/Mixer.svelte, what it shows and what its controls call.

    The tools.
    - Uri.v: the relay's URLs.  Publisher.v: tools/mock-publisher/src/main.ts.
      Subscriber.v: tools/mock-subscriber/src/main.ts.
    - EndToEnd.v: the publisher's bytes arriving in a viewer's session.
    - Hearing.v: decoder, codec and scheduler of each lane joined in a session;
      Listening.v: the same for every mixer of a page.

    ** State and effects

    A function that may throw returns [result]; a handler that may throw
    after changing state returns the state and an [option Exn].  Closures over
    mutable variables are records ([World], [Content], [MixerGraph],
    [ScheduledLane], [OpusDecoderLane], [Page]), handlers take and return them.
    What the environment decides (socket events, messages, timers, resolved
    promises, gestures, the clock, random values) is an argument of a step;
    reachability is the closure of the steps, and invariants are proved by
    induction on it.  A [number] is a binary64 value; sequence numbers, track
    ids and timestamps, which the code keeps below 2^53 or in bigints, are
    integers with their bounds proved or checked by [encodeFrame].

    ** What the theorems show

    - The wire: [decodeFrame] accepts exactly the outputs of [encodeFrame]; the
      encoder writes the documented layout or throws the code of the violated
      bound; each payload decoder inverts its encoder, accepts only legal
      payloads and throws only protocol errors (reading a property of null or
      undefined is a [TypeError] that the guards prevent).
    - The connection: one socket or one pending reconnection at a time, the
      reconnection schedule after every open socket, [close] is final, malformed
      messages change nothing, encoded payloads reach the callback they are
      meant for.
    - The sound: on every reachable graph the output is the broadcast at its
      gain, plus the tracks at theirs, minus the delayed tracks, for every
      engine with the laws [web_audio]; the calls implement the abstract desk
      of gains; gains and offset stay in range; scheduled buffers are spaced.
    - The playback: the same sound with the started buffers of every lane as the
      tracks; each lane is a scheduler undisturbed by the others, which on
      every reachable page has started the decoded packets of its track once
      each, in order and apart; dropped tracks
      and destroyed pages keep nothing connected.
    - The viewer: on every reachable page each mixer is a session, and its sound
      is at every moment the broadcast, the lanes and the cancellation at the
      gains its panel shows.
    - The controller: in every reachable state, whatever bytes arrive, panel,
      sliders, mute flags, gains of the settings, gains of the graph and lanes
      agree; the mute flags of the settings agree too, except those a solo
      changed since they were last toggled, reset or loaded (histories carry
      that set of tracks).  What a track list, solo, reset and save do; what the
      panel shows after each gesture.  A track called "constructor", whose
      setting is a builtin, is included: [heard_of] is its gain.
    - The page: at most one mixer if the viewer does not navigate during a
      mount, destroyed instances hold nothing and sound nothing, and the two
      ways in which the code misses this (an overtaken mount, a player element
      that is kept).
    - The tools: their command lines and URLs, and their processes until the
      socket closes: the publisher's stream, the subscriber's report; the whole
      path from the publisher's timers to the viewer's started buffers.

    ** Bounds

    [Json.parse] has twice the input's length plus two as fuel, proved enough
    for every input ([parse_fuel_irrelevant]); the decimal printer has 400
    digits (proved enough below 2^53; a binary64 has at most 309); the search
    for the shortest decimal stops at 17 digits, which tell all binary64 apart.
    Finite tables (101 slider positions, 3001 offsets) are checked by
    evaluation.

    ** Not modelled

    Console output other than the subscriber's, DOM styling and Svelte's
    rendering machinery; the Opus codec and the audio engine (parameters with
    the laws relied on); sockets and timers, which are steps of the
    environment; URL parsing, lower-casing and NFKD (parameters); the background
    worker, which only logs; the relay, the desktop publisher and the OBS
    plugin, which are written in Go and C++.  A settings object handed to
    [chrome.storage.local.set] is taken by value, as the API copies its argument
    in the call. *)
From Stdlib Require Export ZArith Lia ZifyBool ZifyNat Bool.
From stdpp Require Export base list strings gmap pretty.
#[global] Set Default Goal Selector "!".
#[global] Open Scope Z_scope.

(** ** Exceptions and the result monad *)

(** The six codes of the TypeScript class [ProtocolError] (errors.ts). *)
Inductive ProtocolCode :=
  | BAD_MAGIC | BAD_LENGTH | BAD_TRACK | BAD_TYPE | BAD_PAYLOAD | TOO_LARGE.

#[export] Instance ProtocolCode_eq_dec : EqDecision ProtocolCode.
Proof. solve_decision. Defined.

(** What a JavaScript call can throw in the modelled code: the repository's own
    [ProtocolError] (message and code), a plain [Error], or one of the engine's
    errors. *)
Inductive Exn :=
  | ProtocolError (message : string) (code : ProtocolCode)
  | JsError (message : string)
  | RangeError
  | TypeError
  | SyntaxError
  | InvalidStateError.

#[export] Instance Exn_eq_dec : EqDecision Exn.
Proof. solve_decision. Defined.

(** A call returns a value or throws. *)
Inductive result (A : Type) :=
  | Ok (a : A)
  | Throw (e : Exn).
Arguments Ok {A} a.
Arguments Throw {A} e.

#[export] Instance result_eq_dec `{EqDecision A} : EqDecision (result A).
Proof. solve_decision. Defined.

#[export] Instance result_ret : MRet result := fun A a => Ok a.
#[export] Instance result_bind : MBind result := fun A B k m =>
  match m with Ok a => k a | Throw e => Throw e end.
#[export] Instance result_fmap : FMap result := fun A B f m =>
  match m with Ok a => Ok (f a) | Throw e => Throw e end.

(** [try { m } catch { h }] with a handler that ignores the exception. *)
Definition try_catch {A} (m : result A) (h : result A) : result A :=
  match m with Ok a => Ok a | Throw _ => h end.

Lemma bind_Ok_inv {A B} (m : result A) (k : A -> result B) b :
  m ≫= k = Ok b -> exists a, m = Ok a /\ k a = Ok b.
Proof. destruct m as [a|e]; cbn; [eauto | discriminate]. Qed.

Lemma bind_Throw_inv {A B} (m : result A) (k : A -> result B) e :
  m ≫= k = Throw e ->
  m = Throw e \/ exists a, m = Ok a /\ k a = Throw e.
Proof. destruct m as [a|e']; cbn; [eauto|]. intros [= ->]. by left. Qed.

(** [break_results] takes apart every hypothesis of the form
    [m ≫= k = Ok b] and every [if]/[match] it is stuck on. *)
Ltac break_result :=
  match goal with
  | H : mbind _ _ = Ok _ |- _ =>
      let a := fresh "a" in let H1 := fresh "Hm" in let H2 := fresh "Hk" in
      apply bind_Ok_inv in H as (a & H1 & H2); cbn beta in H2
  | H : Throw _ = Ok _ |- _ => discriminate H
  | H : Ok _ = Throw _ |- _ => discriminate H
  | H : Ok ?a = Ok ?b |- _ => injection H; clear H; intros
  end.
Ltac break_results := repeat break_result.

(** ** Bytes and big-endian integers *)

Definition is_byte (b : Z) : Prop := 0 <= b < 256.

#[export] Instance is_byte_dec b : Decision (is_byte b).
Proof. unfold is_byte. apply _. Defined.

Definition bytes_ok (l : list Z) : Prop := Forall is_byte l.

#[export] Instance bytes_ok_dec l : Decision (bytes_ok l).
Proof. unfold bytes_ok. apply _. Defined.

(** [ToUint8]: the value a typed array stores for an integer. *)
Definition to_uint8 (v : Z) : Z := v mod 256.

(** The [n] bytes [DataView.prototype.setUint]{8n} writes, most significant
    first; the value is taken modulo 256^n. *)
Fixpoint be_bytes (n : nat) (v : Z) : list Z :=
  match n with
  | O => []
  | S k => be_bytes k (v / 256) ++ [v mod 256]
  end.

(** The value [DataView.prototype.getUint]{8n} reads from [n] bytes. *)
Definition be_value (l : list Z) : Z := foldl (fun acc b => acc * 256 + b) 0 l.

(** ** Typed arrays *)

(** [Uint8Array.prototype.set(src, off)] and the [DataView] writers: a
    [RangeError] when the source does not fit. *)
Definition blit (off : nat) (src buf : list Z) : result (list Z) :=
  if decide (off + length src <= length buf)%nat
  then Ok (take off buf ++ src ++ drop (off + length src) buf)
  else Throw RangeError.

(** [buf.slice(i, j)] for in-range indices; the engine clamps both. *)
Definition slice (i j : nat) (l : list Z) : list Z := take (j - i) (drop i l).

(** [new Uint8Array(n)] *)
Definition zeros (n : nat) : list Z := replicate n 0.

Lemma be_bytes_length n v : length (be_bytes n v) = n.
Proof.
  revert v. induction n as [|n IH]; intros v; cbn; [done|].
  rewrite length_app, IH. cbn. lia.
Qed.

Lemma be_bytes_ok n v : bytes_ok (be_bytes n v).
Proof.
  revert v. induction n as [|n IH]; intros v; cbn; [constructor|].
  apply Forall_app; split; [apply IH|].
  constructor; [|constructor]. unfold is_byte.
  pose proof (Z.mod_pos_bound v 256). lia.
Qed.

Lemma be_value_snoc l b : be_value (l ++ [b]) = be_value l * 256 + b.
Proof. unfold be_value. by rewrite foldl_app. Qed.

Lemma pow256_S (n : nat) : 256 ^ Z.of_nat (S n) = 256 * 256 ^ Z.of_nat n.
Proof. rewrite Nat2Z.inj_succ, Z.pow_succ_r; lia. Qed.

Lemma pow256_pos (n : nat) : 0 < 256 ^ Z.of_nat n.
Proof. apply Z.pow_pos_nonneg; lia. Qed.

Lemma be_value_be_bytes n v : be_value (be_bytes n v) = v mod 256 ^ Z.of_nat n.
Proof.
  revert v. induction n as [|n IH]; intros v; cbn [be_bytes].
  { cbn. by rewrite Z.mod_1_r. }
  rewrite be_value_snoc, IH, pow256_S.
  pose proof (pow256_pos n). rewrite Z.rem_mul_r by lia. lia.
Qed.

Lemma be_value_bound l :
  bytes_ok l -> 0 <= be_value l < 256 ^ Z.of_nat (length l).
Proof.
  induction l as [|b l IH] using rev_ind; intros Hok; [by cbn|].
  apply Forall_app in Hok as [Hl Hb]. rewrite Forall_singleton in Hb.
  specialize (IH Hl). unfold is_byte in Hb.
  rewrite be_value_snoc, length_app, Nat.add_comm. cbn [length Nat.add].
  rewrite pow256_S. lia.
Qed.

Lemma be_bytes_be_value l :
  bytes_ok l -> be_bytes (length l) (be_value l) = l.
Proof.
  induction l as [|b l IH] using rev_ind; intros Hok; [done|].
  apply Forall_app in Hok as [Hl Hb]. rewrite Forall_singleton in Hb.
  unfold is_byte in Hb.
  rewrite length_app, Nat.add_comm, be_value_snoc. cbn [length Nat.add be_bytes].
  rewrite Z.div_add_l, (Z.div_small b), Z.add_0_r, IH by (done || lia).
  rewrite (Z.add_comm _ b), Z.mod_add, Z.mod_small by lia. done.
Qed.

Lemma slice_length i j l :
  (i <= j <= length l)%nat -> length (slice i j l) = (j - i)%nat.
Proof. intros H. unfold slice. rewrite length_take, length_drop. lia. Qed.

Lemma slice_to_end i j (l : list Z) : j = length l -> slice i j l = drop i l.
Proof.
  intros ->. unfold slice. apply take_ge. rewrite length_drop. lia.
Qed.

Lemma slice_ok i j l : bytes_ok l -> bytes_ok (slice i j l).
Proof. intros H. by apply Forall_take, Forall_drop. Qed.

Lemma blit_at a src b c :
  length b = length src -> blit (length a) src (a ++ b ++ c) = Ok (a ++ src ++ c).
Proof.
  intros Hlen. unfold blit. rewrite decide_True.
  2:{ rewrite !length_app. lia. }
  rewrite take_app_length. do 3 f_equal. rewrite <- Hlen.
  rewrite <- drop_drop, !drop_app_length. done.
Qed.

Lemma slice_app_mid a b c :
  slice (length a) (length a + length b) (a ++ b ++ c) = b.
Proof.
  unfold slice. rewrite drop_app_length.
  replace (length a + length b - length a)%nat with (length b) by lia.
  by rewrite take_app_length.
Qed.

Lemma filter_all {A} (P : A -> Prop) `{!forall x, Decision (P x)} (l : list A) :
  Forall P l -> filter P l = l.
Proof. induction 1; [done|]. by rewrite filter_cons_True, IHForall. Qed.

Lemma Forall_mp {A} (P Q : A -> Prop) l :
  Forall (fun x => P x -> Q x) l -> Forall P l -> Forall Q l.
Proof. induction 1; inversion 1; constructor; auto. Qed.

(** ** Hint databases *)

Create HintDb smx.
Create Rewrite HintDb smx.
#[export] Hint Resolve be_bytes_ok slice_ok : smx.
#[export] Hint Rewrite be_bytes_length @length_app @length_take @length_drop
  @length_replicate be_value_be_bytes : smx.
