(* ===== verification/Wire.v ===== *)
(** * Wire format: constants and the frame header

    Models shared/ts/src/constants.ts, errors.ts (the exception class is
    [Exn] of Prelude.v) and header.ts: the frame record, [encodeFrame] (which
    writes in place into a zeroed buffer, as the code does) and
    [decodeFrame].  The abstract specification [frame_layout] is the byte
    string docs/AUDIO_PROTOCOL.md draws. *)
From S2P Require Import Prelude.

(** ** constants.ts *)

Definition MAGIC : list Z := [0x53; 0x4d; 0x58; 0x31].
Definition SUBPROTOCOL : string := "streammix.v1".
Definition HEADER_BYTES : nat := 21.
Definition MAX_PAYLOAD_BYTES : nat := 4096.
Definition MAX_TRACK_SLOT : Z := 0x08.
Definition MAX_TRACKS : Z := 8.
Definition CONTROL_TRACK : Z := 0x00.

Inductive MessageType :=
  | Hello | TrackList | AudioOpus | Fingerprint | TrackMeta | Stats
  | SubTracks | Error.

#[export] Instance MessageType_eq_dec : EqDecision MessageType.
Proof. solve_decision. Defined.

(** The numeric value of an enum member. *)
Definition MessageType_value (t : MessageType) : Z :=
  match t with
  | Hello => 0x01
  | TrackList => 0x02
  | AudioOpus => 0x03
  | Fingerprint => 0x04
  | TrackMeta => 0x05
  | Stats => 0x10
  | SubTracks => 0x20
  | Error => 0xff
  end.

Definition all_message_types : list MessageType :=
  [Hello; TrackList; AudioOpus; Fingerprint; TrackMeta; Stats; SubTracks; Error].

(** ** header.ts *)

(** The set [KNOWN_TYPES] of the enum's numeric values. *)
Definition KNOWN_TYPES : gset Z :=
  list_to_set (MessageType_value <$> all_message_types).

(** The cast [type as MessageType]: the member with that value. *)
Definition as_MessageType (v : Z) : option MessageType :=
  list_find (fun t => MessageType_value t = v) all_message_types
    ≫= fun '(_, t) => Some t.

Record Frame := mkFrame {
  f_type : MessageType;
  f_track : Z;
  f_flags : Z;
  f_seq : Z;
  f_timestampMs : Z;
  f_payload : list Z;
}.

#[export] Instance Frame_eq_dec : EqDecision Frame.
Proof. solve_decision. Defined.

Definition u32_max : Z := 0xffffffff.
Definition u64_max : Z := 0xffffffffffffffff.

Definition pr (n : Z) : string := pretty n.
Definition prn (n : nat) : string := pretty n.

(** The buffer [encodeFrame] fills once its guards have passed. *)
Definition write_frame (frame : Frame) : result (list Z) :=
  let len := length (f_payload frame) in
  buf ← blit 0 MAGIC (zeros (HEADER_BYTES + len));
  let buf := <[4%nat := to_uint8 (MessageType_value (f_type frame))]> buf in
  let buf := <[5%nat := to_uint8 (f_track frame)]> buf in
  let buf := <[6%nat := to_uint8 (f_flags frame)]> buf in
  buf ← blit 7 (be_bytes 2 (Z.of_nat len)) buf;
  buf ← blit 9 (be_bytes 4 (f_seq frame)) buf;
  buf ← blit 13 (be_bytes 8 (f_timestampMs frame)) buf;
  blit HEADER_BYTES (f_payload frame) buf.

Definition encodeFrame (frame : Frame) : result (list Z) :=
  let len := length (f_payload frame) in
  if (MAX_PAYLOAD_BYTES <? len)%nat then
    Throw (ProtocolError ("payload too large: " +:+ prn len +:+ " > "
                            +:+ prn MAX_PAYLOAD_BYTES) TOO_LARGE)
  else if (f_track frame <? 0) || (MAX_TRACK_SLOT <? f_track frame) then
    Throw (ProtocolError ("invalid track slot: " +:+ pr (f_track frame)) BAD_TRACK)
  else if (f_flags frame <? 0) || (0xff <? f_flags frame) then
    Throw (ProtocolError ("flags out of range: " +:+ pr (f_flags frame)) BAD_PAYLOAD)
  else if (f_seq frame <? 0) || (u32_max <? f_seq frame) then
    Throw (ProtocolError ("seq out of uint32 range: " +:+ pr (f_seq frame)) BAD_PAYLOAD)
  else if (f_timestampMs frame <? 0) || (u64_max <? f_timestampMs frame) then
    Throw (ProtocolError "timestamp out of uint64 range" BAD_PAYLOAD)
  else write_frame frame.

(** [input[i] !== MAGIC[i]] for some [i] below [MAGIC.length]. *)
Definition magic_mismatch (input : list Z) : bool :=
  existsb (fun i => negb (input !!! i =? MAGIC !!! i)) (seq 0 (length MAGIC)).

(** [type.toString(16)] for a byte. *)
Definition hex_digit (d : Z) : string :=
  String.substring (Z.to_nat d) 1 "0123456789abcdef".
Definition to_hex (b : Z) : string :=
  if b <? 16 then hex_digit b else hex_digit (b / 16) +:+ hex_digit (b mod 16).

Definition decodeFrame (input : list Z) : result Frame :=
  if (length input <? HEADER_BYTES)%nat then
    Throw (ProtocolError ("frame shorter than header: " +:+ prn (length input)
                            +:+ " < " +:+ prn HEADER_BYTES) BAD_LENGTH)
  else if magic_mismatch input then
    Throw (ProtocolError "magic mismatch" BAD_MAGIC)
  else
    let type := input !!! 4%nat in
    let track := input !!! 5%nat in
    let flags := input !!! 6%nat in
    let payloadLen := Z.to_nat (be_value (slice 7 9 input)) in
    let seq := be_value (slice 9 13 input) in
    let timestampMs := be_value (slice 13 21 input) in
    if (MAX_PAYLOAD_BYTES <? payloadLen)%nat then
      Throw (ProtocolError ("payload too large: " +:+ prn payloadLen) TOO_LARGE)
    else if negb (HEADER_BYTES + payloadLen =? length input)%nat then
      Throw (ProtocolError ("length mismatch: declared " +:+ prn payloadLen +:+ ", got "
                              +:+ prn (length input - HEADER_BYTES)) BAD_LENGTH)
    else if MAX_TRACK_SLOT <? track then
      Throw (ProtocolError ("invalid track slot: " +:+ pr track) BAD_TRACK)
    else if negb (bool_decide (type ∈ KNOWN_TYPES)) then
      Throw (ProtocolError ("unknown message type: 0x" +:+ to_hex type) BAD_TYPE)
    else
      match as_MessageType type with
      | Some t =>
          Ok (mkFrame t track flags seq timestampMs
                (slice HEADER_BYTES (HEADER_BYTES + payloadLen) input))
      | None => Throw TypeError
      end.

(** ** Specification *)

(** The message layout of docs/AUDIO_PROTOCOL.md. *)
Definition frame_layout (f : Frame) : list Z :=
  MAGIC ++ [MessageType_value (f_type f)] ++ [f_track f] ++ [f_flags f]
    ++ be_bytes 2 (Z.of_nat (length (f_payload f)))
    ++ be_bytes 4 (f_seq f) ++ be_bytes 8 (f_timestampMs f) ++ f_payload f.

(** A frame whose fields are in the ranges the encoder checks. *)
Definition frame_in_range (f : Frame) : Prop :=
  (length (f_payload f) <= MAX_PAYLOAD_BYTES)%nat
  /\ 0 <= f_track f <= MAX_TRACK_SLOT
  /\ 0 <= f_flags f <= 0xff
  /\ 0 <= f_seq f <= u32_max
  /\ 0 <= f_timestampMs f <= u64_max.

#[export] Instance frame_in_range_dec f : Decision (frame_in_range f).
Proof. unfold frame_in_range. apply _. Defined.

(** ** Lemmas *)

Lemma as_MessageType_value t : as_MessageType (MessageType_value t) = Some t.
Proof. by destruct t. Qed.

Lemma as_MessageType_Some v t : as_MessageType v = Some t -> MessageType_value t = v.
Proof.
  unfold as_MessageType. intros ([i t'] & Hf & [= ->])%bind_Some.
  apply list_find_Some in Hf. tauto.
Qed.

Lemma elem_of_KNOWN_TYPES v : v ∈ KNOWN_TYPES <-> exists t, MessageType_value t = v.
Proof.
  unfold KNOWN_TYPES. rewrite elem_of_list_to_set, list_elem_of_fmap. split.
  - intros (t & -> & _). by exists t.
  - intros (t & <-). exists t. split; [done|]. destruct t; cbn; set_solver.
Qed.

Lemma MessageType_value_byte t : is_byte (MessageType_value t).
Proof. by destruct t. Qed.

Lemma known_type_cast v :
  v ∈ KNOWN_TYPES -> exists t, as_MessageType v = Some t /\ MessageType_value t = v.
Proof.
  intros (t & <-)%elem_of_KNOWN_TYPES. exists t.
  by rewrite as_MessageType_value.
Qed.

Lemma to_uint8_id v : 0 <= v <= 255 -> to_uint8 v = v.
Proof. intros. unfold to_uint8. apply Z.mod_small. lia. Qed.

(** The in-place writes produce the layout, and never leave the buffer. *)
Lemma write_frame_layout f : frame_in_range f -> write_frame f = Ok (frame_layout f).
Proof.
  intros (Hlen & Htr & Hfl & Hseq & Hts).
  destruct f as [t tr fl sq ts pl]; unfold write_frame; cbn [f_type f_track f_flags f_seq f_timestampMs f_payload] in *.
  assert (H1 : blit 0 MAGIC (zeros (HEADER_BYTES + length pl))
               = Ok (MAGIC ++ zeros 17 ++ zeros (length pl))).
  { exact (blit_at [] MAGIC (zeros 4) (zeros 17 ++ zeros (length pl)) eq_refl). }
  rewrite H1; cbn [mbind result_bind].
  rewrite !to_uint8_id by (unfold MAX_TRACK_SLOT in *; pose proof (MessageType_value_byte t) as Hb; unfold is_byte in Hb; lia).
  set (hd := MAGIC ++ [MessageType_value t; tr; fl]).
  set (len := be_bytes 2 (Z.of_nat (length pl))).
  set (s := be_bytes 4 sq). set (tm := be_bytes 8 ts).
  change (<[6%nat:=fl]> _) with (hd ++ zeros 2 ++ (zeros 12 ++ zeros (length pl))).
  rewrite (blit_at hd len (zeros 2) _ eq_refl : blit 7 len _ = _).
  cbn [mbind result_bind].
  replace (hd ++ len ++ zeros 12 ++ zeros (length pl))
    with ((hd ++ len) ++ zeros 4 ++ (zeros 8 ++ zeros (length pl)))
    by (rewrite <- !app_assoc; done).
  rewrite (blit_at (hd ++ len) s (zeros 4) _ eq_refl : blit 9 s _ = _).
  cbn [mbind result_bind].
  replace ((hd ++ len) ++ s ++ zeros 8 ++ zeros (length pl))
    with (((hd ++ len) ++ s) ++ zeros 8 ++ zeros (length pl))
    by (rewrite <- !app_assoc; done).
  rewrite (blit_at ((hd ++ len) ++ s) tm (zeros 8) _ eq_refl : blit 13 tm _ = _).
  cbn [mbind result_bind].
  replace (((hd ++ len) ++ s) ++ tm ++ zeros (length pl))
    with ((((hd ++ len) ++ s) ++ tm) ++ zeros (length pl) ++ [])
    by (rewrite app_nil_r, <- !app_assoc; done).
  assert (Hz : length (zeros (length pl)) = length pl) by apply length_replicate.
  rewrite (blit_at (((hd ++ len) ++ s) ++ tm) pl _ [] Hz : blit HEADER_BYTES pl _ = _).
  unfold frame_layout; cbn [f_type f_track f_flags f_seq f_timestampMs f_payload].
  rewrite app_nil_r, <- !app_assoc. done.
Qed.

Lemma frame_layout_length f :
  length (frame_layout f) = (HEADER_BYTES + length (f_payload f))%nat.
Proof. unfold frame_layout. rewrite !length_app, !be_bytes_length. done. Qed.

(** The guards of [encodeFrame] are exactly [frame_in_range]. *)
Lemma encodeFrame_in_range f :
  frame_in_range f -> encodeFrame f = Ok (frame_layout f).
Proof.
  intros Hr. pose proof Hr as (Hlen & Htr & Hfl & Hseq & Hts).
  unfold encodeFrame. repeat (case_match; [lia|]). by apply write_frame_layout.
Qed.

(** The code of the exception [encodeFrame] throws on a frame out of range. *)
Definition encode_error_code (f : Frame) : ProtocolCode :=
  if (MAX_PAYLOAD_BYTES <? length (f_payload f))%nat then TOO_LARGE
  else if decide (0 <= f_track f <= MAX_TRACK_SLOT) then BAD_PAYLOAD
  else BAD_TRACK.

Lemma encodeFrame_out_of_range f :
  ~ frame_in_range f ->
  exists msg, encodeFrame f = Throw (ProtocolError msg (encode_error_code f)).
Proof.
  intros Hn. unfold encodeFrame, encode_error_code.
  destruct (Nat.ltb_spec MAX_PAYLOAD_BYTES (length (f_payload f))); [by eexists|].
  destruct ((f_track f <? 0) || (MAX_TRACK_SLOT <? f_track f)) eqn:Ht.
  { rewrite decide_False by lia. by eexists. }
  rewrite decide_True by lia.
  repeat (case_match; [by eexists|]).
  destruct Hn. unfold frame_in_range. lia.
Qed.

Lemma encodeFrame_Ok_inv f buf :
  encodeFrame f = Ok buf -> frame_in_range f /\ buf = frame_layout f.
Proof.
  destruct (decide (frame_in_range f)) as [Hr|Hr].
  - rewrite encodeFrame_in_range by done. naive_solver.
  - destruct (encodeFrame_out_of_range f Hr) as [msg ->]. done.
Qed.

(** *** Reading a buffer that starts with a full header *)

(** The payload length the header declares. *)
Definition declared_length (buf : list Z) : Z := be_value (slice 7 9 buf).

Lemma magic_mismatch_spec buf :
  (4 <= length buf)%nat -> magic_mismatch buf = false <-> take 4 buf = MAGIC.
Proof.
  intros Hl. do 4 (destruct buf as [|? buf]; [cbn in Hl; lia|]).
  unfold magic_mismatch, MAGIC. cbn. rewrite !orb_false_iff, !negb_false_iff, !Z.eqb_eq.
  rewrite take_0. split; [intros (-> & -> & -> & -> & _); done|].
  intros [= -> -> -> ->]. done.
Qed.

(** A buffer of at least [HEADER_BYTES] bytes is its ten header fields and
    the rest. *)
Lemma header_split buf :
  (HEADER_BYTES <= length buf)%nat ->
  buf = take 4 buf ++ [buf !!! 4%nat] ++ [buf !!! 5%nat] ++ [buf !!! 6%nat]
          ++ slice 7 9 buf ++ slice 9 13 buf ++ slice 13 21 buf ++ drop 21 buf.
Proof.
  unfold HEADER_BYTES. intros Hl.
  do 21 (destruct buf as [|? buf]; [cbn in Hl; lia|]). done.
Qed.

Lemma lookup_total_byte buf i :
  bytes_ok buf -> (i < length buf)%nat -> is_byte (buf !!! i).
Proof. intros Hb Hi. eapply Forall_lookup_total_1; done. Qed.

Lemma be_bytes_slice i j n buf :
  bytes_ok buf -> (i + n = j)%nat -> (j <= length buf)%nat ->
  be_bytes n (be_value (slice i j buf)) = slice i j buf.
Proof.
  intros Hb Hj Hl.
  assert (Hn : length (slice i j buf) = n) by (rewrite slice_length; lia).
  rewrite <- Hn at 1. apply be_bytes_be_value; auto with smx.
Qed.

Lemma be_value_slice_bound i j n buf :
  bytes_ok buf -> (i + n = j)%nat -> (j <= length buf)%nat ->
  0 <= be_value (slice i j buf) < 256 ^ Z.of_nat n.
Proof.
  intros Hb Hj Hl.
  assert (Hn : length (slice i j buf) = n) by (rewrite slice_length; lia).
  rewrite <- Hn. apply be_value_bound; auto with smx.
Qed.

(** What an accepted buffer is. *)
Lemma decodeFrame_Ok_inv buf f :
  bytes_ok buf -> decodeFrame buf = Ok f ->
  frame_in_range f /\ buf = frame_layout f.
Proof.
  intros Hb. unfold decodeFrame.
  destruct (Nat.ltb_spec (length buf) HEADER_BYTES) as [|Hlen]; [done|].
  destruct (magic_mismatch buf) eqn:Hm; [done|].
  apply magic_mismatch_spec in Hm; [|unfold HEADER_BYTES in Hlen; lia].
  destruct (Nat.ltb_spec MAX_PAYLOAD_BYTES (Z.to_nat (be_value (slice 7 9 buf)))) as [|Hmax]; [done|].
  destruct (Nat.eqb_spec (HEADER_BYTES + Z.to_nat (be_value (slice 7 9 buf))) (length buf)) as [Heq|]; [|done].
  destruct (Z.ltb_spec MAX_TRACK_SLOT (buf !!! 5%nat)) as [|Htr]; [done|].
  case_bool_decide as Hk; [|done]. cbn [negb].
  apply known_type_cast in Hk as (t & -> & Ht). intros [= <-].
  set (pl := slice HEADER_BYTES _ buf). unfold HEADER_BYTES in *.
  pose proof (lookup_total_byte buf 5 Hb ltac:(lia)) as H5.
  pose proof (lookup_total_byte buf 6 Hb ltac:(lia)) as H6.
  assert (H7 : 0 <= be_value (slice 7 9 buf) < 65536)
    by (apply (be_value_slice_bound 7 9 2); [done|done|lia]).
  assert (H9 : 0 <= be_value (slice 9 13 buf) < 4294967296)
    by (apply (be_value_slice_bound 9 13 4); [done|done|lia]).
  assert (H13 : 0 <= be_value (slice 13 21 buf) < 18446744073709551616)
    by (apply (be_value_slice_bound 13 21 8); [done|done|lia]).
  assert (Hpl : length pl = Z.to_nat (be_value (slice 7 9 buf))).
  { unfold pl. rewrite slice_length; lia. }
  assert (Hdrop : pl = drop 21 buf).
  { by apply slice_to_end. }
  clearbody pl.
  unfold is_byte in *. split.
  { unfold frame_in_range; cbn [f_track f_flags f_seq f_timestampMs f_payload].
    unfold u32_max, u64_max. lia. }
  unfold frame_layout; cbn [f_type f_track f_flags f_seq f_timestampMs f_payload].
  rewrite Hpl, Ht, Z2Nat.id by lia.
  rewrite (be_bytes_slice 7 9 2 buf), (be_bytes_slice 9 13 4 buf), (be_bytes_slice 13 21 8 buf), Hdrop by (done || lia).
  rewrite <- Hm. by apply header_split.
Qed.

(** The payload of a laid-out frame is what the header's offsets select. *)
Lemma layout_fields f :
  let buf := frame_layout f in
  take 4 buf = MAGIC
  /\ buf !!! 4%nat = MessageType_value (f_type f)
  /\ buf !!! 5%nat = f_track f
  /\ buf !!! 6%nat = f_flags f
  /\ slice 7 9 buf = be_bytes 2 (Z.of_nat (length (f_payload f)))
  /\ slice 9 13 buf = be_bytes 4 (f_seq f)
  /\ slice 13 21 buf = be_bytes 8 (f_timestampMs f)
  /\ drop 21 buf = f_payload f.
Proof.
  destruct f as [t tr fl sq ts pl]. cbn zeta. unfold frame_layout.
  cbn [f_type f_track f_flags f_seq f_timestampMs f_payload].
  pose proof (be_bytes_length 2 (Z.of_nat (length pl))) as H2.
  pose proof (be_bytes_length 4 sq) as H4.
  pose proof (be_bytes_length 8 ts) as H8.
  generalize dependent (be_bytes 2 (Z.of_nat (length pl))).
  generalize dependent (be_bytes 4 sq). generalize dependent (be_bytes 8 ts).
  intros l8 H8 l4 H4 l2 H2.
  do 2 (destruct l2 as [|? l2]; [done|]). destruct l2; [|done].
  do 4 (destruct l4 as [|? l4]; [done|]). destruct l4; [|done].
  do 8 (destruct l8 as [|? l8]; [done|]). destruct l8; [|done].
  repeat split.
Qed.

Lemma be_value_be_bytes_small n v :
  0 <= v < 256 ^ Z.of_nat n -> be_value (be_bytes n v) = v.
Proof. intros. rewrite be_value_be_bytes. by apply Z.mod_small. Qed.

Lemma be16_small v : 0 <= v < 65536 -> be_value (be_bytes 2 v) = v.
Proof. intros. by apply be_value_be_bytes_small. Qed.
Lemma be32_small v : 0 <= v <= u32_max -> be_value (be_bytes 4 v) = v.
Proof. intros. apply be_value_be_bytes_small. unfold u32_max in *. lia. Qed.
Lemma be64_small v : 0 <= v <= u64_max -> be_value (be_bytes 8 v) = v.
Proof. intros. apply be_value_be_bytes_small. unfold u64_max in *. lia. Qed.

Lemma decodeFrame_layout f :
  frame_in_range f -> decodeFrame (frame_layout f) = Ok f.
Proof.
  intros (Hlen & Htr & Hfl & Hseq & Hts).
  pose proof (frame_layout_length f) as Hl.
  destruct (layout_fields f) as (E0 & E4 & E5 & E6 & E7 & E9 & E13 & E21).
  unfold decodeFrame. rewrite E4, E5, E6, E7, E9, E13.
  assert (Hw : be_value (be_bytes 2 (Z.of_nat (length (f_payload f))))
               = Z.of_nat (length (f_payload f))).
  { apply be16_small. unfold MAX_PAYLOAD_BYTES in Hlen. lia. }
  rewrite Hw, Nat2Z.id, be32_small, be64_small by done.
  unfold HEADER_BYTES in *.
  destruct (Nat.ltb_spec (length (frame_layout f)) 21); [lia|].
  rewrite (proj2 (magic_mismatch_spec (frame_layout f) ltac:(lia)) E0).
  destruct (Nat.ltb_spec MAX_PAYLOAD_BYTES (length (f_payload f))); [lia|].
  rewrite Hl, Nat.eqb_refl. cbn [negb].
  destruct (Z.ltb_spec MAX_TRACK_SLOT (f_track f)); [lia|].
  rewrite bool_decide_true by (apply elem_of_KNOWN_TYPES; by eexists).
  cbn [negb]. rewrite as_MessageType_value.
  rewrite slice_to_end by lia. rewrite E21. by destruct f.
Qed.

(** ** Properties of the codec *)

(** C1: on byte strings, [decodeFrame] accepts exactly the outputs of
    [encodeFrame], and returns the frame that was encoded: the two are inverse
    to each other, and every frame has one accepted encoding. *)
Theorem decodeFrame_iff_encodeFrame (buf : list Z) (f : Frame) :
  bytes_ok buf -> decodeFrame buf = Ok f <-> encodeFrame f = Ok buf.
Proof.
  intros Hb. split.
  - intros [Hr ->]%decodeFrame_Ok_inv; [|done]. by apply encodeFrame_in_range.
  - intros [Hr ->]%encodeFrame_Ok_inv. by apply decodeFrame_layout.
Qed.

Definition sample_frame : Frame :=
  mkFrame AudioOpus 3 0 0x01020304 0x1122334455667788 [0xaa; 1; 2].

Definition sample_bytes : list Z :=
  [0x53; 0x4d; 0x58; 0x31; 3; 3; 0; 0; 3; 1; 2; 3; 4;
   0x11; 0x22; 0x33; 0x44; 0x55; 0x66; 0x77; 0x88; 0xaa; 1; 2].

Lemma decodeFrame_iff_encodeFrame_witness :
  bytes_ok sample_bytes /\
  (decodeFrame sample_bytes = Ok sample_frame
   <-> encodeFrame sample_frame = Ok sample_bytes).
Proof.
  split.
  - by apply (bool_decide_unpack _); vm_compute.
  - apply (decodeFrame_iff_encodeFrame sample_bytes sample_frame).
    by apply (bool_decide_unpack _); vm_compute.
Defined.

(** C12: [encodeFrame] is total and never writes outside its buffer: an
    in-range frame is laid out as the protocol document draws it (header, then
    payload, big-endian), any other frame throws a [ProtocolError] with the
    code of the first bound it violates. *)
Theorem encodeFrame_spec (f : Frame) :
  if decide (frame_in_range f)
  then encodeFrame f = Ok (frame_layout f)
       /\ length (frame_layout f) = (HEADER_BYTES + length (f_payload f))%nat
  else exists msg, encodeFrame f = Throw (ProtocolError msg (encode_error_code f)).
Proof.
  case_decide as Hr.
  - split; [by apply encodeFrame_in_range | apply frame_layout_length].
  - by apply encodeFrame_out_of_range.
Qed.

(** What a decoder's exception says of the buffer. *)
Definition decode_error_reason (buf : list Z) (c : ProtocolCode) : Prop :=
  match c with
  | BAD_LENGTH =>
      (length buf < HEADER_BYTES)%nat
      \/ Z.of_nat HEADER_BYTES + declared_length buf <> Z.of_nat (length buf)
  | BAD_MAGIC => (HEADER_BYTES <= length buf)%nat /\ take 4 buf <> MAGIC
  | TOO_LARGE => Z.of_nat MAX_PAYLOAD_BYTES < declared_length buf
  | BAD_TRACK => MAX_TRACK_SLOT < buf !!! 5%nat
  | BAD_TYPE => forall t, MessageType_value t <> buf !!! 4%nat
  | BAD_PAYLOAD => False
  end.

(** Whatever bytes arrive, [decodeFrame] returns a frame or throws a
    [ProtocolError] whose code names a defect the buffer really has; it never
    throws [BAD_PAYLOAD] or an engine error. *)
Theorem decodeFrame_throws (buf : list Z) (e : Exn) :
  bytes_ok buf -> decodeFrame buf = Throw e ->
  exists msg c, e = ProtocolError msg c /\ decode_error_reason buf c.
Proof.
  intros Hb. unfold decodeFrame.
  destruct (Nat.ltb_spec (length buf) HEADER_BYTES) as [|Hlen].
  { intros [= <-]. do 2 eexists. split; [done|]. by left. }
  assert (H4 : (4 <= length buf)%nat) by (unfold HEADER_BYTES in Hlen; lia).
  destruct (magic_mismatch buf) eqn:Hm.
  { intros [= <-]. do 2 eexists. split; [done|]. split; [done|].
    rewrite <- magic_mismatch_spec by done. by rewrite Hm. }
  unfold HEADER_BYTES in Hlen.
  pose proof (be_value_slice_bound 7 9 2 buf Hb eq_refl ltac:(lia)) as H7.
  fold (declared_length buf) in *.
  destruct (Nat.ltb_spec MAX_PAYLOAD_BYTES (Z.to_nat (declared_length buf))).
  { intros [= <-]. do 2 eexists. split; [done|]. unfold decode_error_reason. lia. }
  destruct (Nat.eqb_spec (HEADER_BYTES + Z.to_nat (declared_length buf)) (length buf)).
  2:{ intros [= <-]. do 2 eexists. split; [done|]. right. lia. }
  destruct (Z.ltb_spec MAX_TRACK_SLOT (buf !!! 5%nat)).
  { intros [= <-]. by do 2 eexists. }
  case_bool_decide as Hk; cbn [negb].
  - apply known_type_cast in Hk as (t & -> & _). discriminate.
  - intros [= <-]. do 2 eexists. split; [done|]. intros t Ht.
    apply Hk, elem_of_KNOWN_TYPES. by exists t.
Qed.

Lemma decodeFrame_throws_witness :
  let buf := <[4%nat := 0x77]> (zeros 21) in
  decodeFrame buf = Throw (ProtocolError "magic mismatch" BAD_MAGIC)
  /\ exists msg c, ProtocolError "magic mismatch" BAD_MAGIC = ProtocolError msg c
                   /\ decode_error_reason buf c.
Proof.
  assert (H : decodeFrame (<[4%nat := 0x77]> (zeros 21))
              = Throw (ProtocolError "magic mismatch" BAD_MAGIC)) by reflexivity.
  split; [exact H|]. apply (decodeFrame_throws _ _); [|exact H].
  by apply (bool_decide_unpack _); vm_compute.
Defined.
