(* ===== verification/JsString.v ===== *)
(** * JavaScript strings and regular expressions

    A JavaScript string is the list of its UTF-16 code units.  The file holds
    the string operations the sources call ([includes], [startsWith], [split],
    [trim], character classes) and a regular-expression matcher by derivatives
    with its correctness proof, so that the sources' patterns are modelled as
    the expressions they are. *)
From S2P Require Import Prelude.

(** ** Strings *)

Abbreviation jstr := (list Z).

(** A string literal of the source (ASCII). *)
Definition js (s : string) : jstr :=
  (fun a => Z.of_N (Ascii.N_of_ascii a)) <$> String.list_ascii_of_string s.

#[global] Arguments js : simpl never.

Definition unit_ok (u : Z) : Prop := 0 <= u < 65536.
Definition jstr_ok (s : jstr) : Prop := Forall unit_ok s.

#[export] Instance unit_ok_dec u : Decision (unit_ok u).
Proof. unfold unit_ok. apply _. Defined.
#[export] Instance jstr_ok_dec s : Decision (jstr_ok s).
Proof. unfold jstr_ok. apply _. Defined.

(** [list.includes(v)] on an array of strings. *)
Definition includes (l : list jstr) (v : jstr) : bool := bool_decide (v ∈ l).

(** [s.startsWith(p)] *)
Definition startsWith (s p : jstr) : bool := bool_decide (take (length p) s = p).

(** [s.split(sep)] for a one-unit separator: never empty. *)
Fixpoint split (sep : Z) (s : jstr) : list jstr :=
  match s with
  | [] => [[]]
  | c :: r =>
      if c =? sep then [] :: split sep r
      else match split sep r with
           | w :: ws => (c :: w) :: ws
           | [] => [[c]]
           end
  end.

(** ** Character classes *)

Definition in_range (lo hi c : Z) : bool := (lo <=? c) && (c <=? hi).
Definition is_az (c : Z) : bool := in_range 97 122 c.
Definition is_09 (c : Z) : bool := in_range 48 57 c.
Definition is_az09 (c : Z) : bool := is_az c || is_09 c.
Definition dash : Z := 45.

(** The class [\s], which is also the set [trim] removes: white space and line
    terminators. *)
Definition is_space (c : Z) : bool :=
  bool_decide (c ∈ [9; 10; 11; 12; 13; 32; 0xA0; 0x1680; 0x2028; 0x2029;
                    0x202F; 0x205F; 0x3000; 0xFEFF])
  || in_range 0x2000 0x200A c.

(** Drop the longest prefix of units in a class. *)
Fixpoint drop_class (p : Z -> bool) (s : jstr) : jstr :=
  match s with
  | c :: r => if p c then drop_class p r else s
  | [] => []
  end.

(** Drop the longest prefix and the longest suffix in a class. *)
Definition strip_class (p : Z -> bool) (s : jstr) : jstr :=
  reverse (drop_class p (reverse (drop_class p s))).

Definition trim (s : jstr) : jstr := strip_class is_space s.

(** ** Regular expressions *)

Inductive re :=
  | Void
  | Eps
  | Cls (p : Z -> bool)
  | Cat (r1 r2 : re)
  | Alt (r1 r2 : re)
  | Star (r : re).

Definition Plus (r : re) : re := Cat r (Star r).
Definition Opt (r : re) : re := Alt Eps r.

(** [r{n,m}] with [m = n + k] *)
Fixpoint Rep_upto (k : nat) (r : re) : re :=
  match k with S k => Opt (Cat r (Rep_upto k r)) | O => Eps end.
Fixpoint Rep (n k : nat) (r : re) : re :=
  match n with S n => Cat r (Rep n k r) | O => Rep_upto k r end.

(** A literal string. *)
Definition Lit (s : jstr) : re := foldr (fun c r => Cat (Cls (Z.eqb c)) r) Eps s.

Inductive re_matches : re -> jstr -> Prop :=
  | MEps : re_matches Eps []
  | MCls p c : p c = true -> re_matches (Cls p) [c]
  | MCat r1 r2 s1 s2 :
      re_matches r1 s1 -> re_matches r2 s2 -> re_matches (Cat r1 r2) (s1 ++ s2)
  | MAltL r1 r2 s : re_matches r1 s -> re_matches (Alt r1 r2) s
  | MAltR r1 r2 s : re_matches r2 s -> re_matches (Alt r1 r2) s
  | MStarNil r : re_matches (Star r) []
  | MStarCons r s1 s2 :
      re_matches r s1 -> re_matches (Star r) s2 -> re_matches (Star r) (s1 ++ s2).

Fixpoint nullable (r : re) : bool :=
  match r with
  | Void | Cls _ => false
  | Eps | Star _ => true
  | Cat r1 r2 => nullable r1 && nullable r2
  | Alt r1 r2 => nullable r1 || nullable r2
  end.

(** The derivative of an expression by one unit. *)
Fixpoint deriv (c : Z) (r : re) : re :=
  match r with
  | Void | Eps => Void
  | Cls p => if p c then Eps else Void
  | Cat r1 r2 =>
      if nullable r1 then Alt (Cat (deriv c r1) r2) (deriv c r2)
      else Cat (deriv c r1) r2
  | Alt r1 r2 => Alt (deriv c r1) (deriv c r2)
  | Star r => Cat (deriv c r) (Star r)
  end.

(** [/^r$/.test(s)] *)
Definition re_test (r : re) (s : jstr) : bool :=
  nullable (foldl (fun r c => deriv c r) r s).

Lemma nullable_spec r : nullable r = true <-> re_matches r [].
Proof.
  split.
  - induction r; cbn; intros H; try done; try (by constructor).
    + apply andb_true_iff in H as [??]. apply (MCat _ _ [] []); auto.
    + apply orb_true_iff in H as [?|?]; [apply MAltL | apply MAltR]; auto.
  - remember [] as s eqn:Es. induction 1; cbn; try done.
    + destruct s1, s2; try done. rewrite IHre_matches1, IHre_matches2; done.
    + rewrite IHre_matches by done. done.
    + rewrite IHre_matches by done. by rewrite orb_true_r.
Qed.

Lemma deriv_sound c r s : re_matches (deriv c r) s -> re_matches r (c :: s).
Proof.
  revert s. induction r as [| |p|r1 IH1 r2 IH2|r1 IH1 r2 IH2|r IH]; cbn; intros s H.
  - inversion H.
  - inversion H.
  - destruct (p c) eqn:Hp; inversion H; subst. by constructor.
  - destruct (nullable r1) eqn:Hn.
    + inversion H as [| | |? ? ? H1|? ? ? H1| |]; subst.
      * inversion H1; subst. apply (MCat _ _ (c :: _)); auto.
      * apply (MCat _ _ []); [by apply nullable_spec | auto].
    + inversion H; subst. apply (MCat _ _ (c :: _)); auto.
  - inversion H; subst; [apply MAltL | apply MAltR]; auto.
  - inversion H; subst. apply (MStarCons _ (c :: _)); auto.
Qed.

Lemma deriv_complete c r s : re_matches r (c :: s) -> re_matches (deriv c r) s.
Proof.
  intros H. remember (c :: s) as t eqn:Et. revert s Et.
  induction H as [|p c' Hp|r1 r2 s1 s2 H1 IH1 H2 IH2|r1 r2 t H IH|r1 r2 t H IH
                 |r|r s1 s2 H1 IH1 H2 IH2]; cbn; intros s Et.
  - done.
  - injection Et as -> <-. rewrite Hp. constructor.
  - destruct s1 as [|c1 s1].
    + apply nullable_spec in H1. rewrite H1. apply MAltR. auto.
    + injection Et as -> <-. specialize (IH1 s1 eq_refl).
      case_match; [apply MAltL|]; by constructor.
  - apply MAltL. auto.
  - apply MAltR. auto.
  - done.
  - destruct s1 as [|c1 s1]; [auto|].
    injection Et as -> <-. constructor; auto.
Qed.

(** The executable test decides the matching relation. *)
Lemma re_test_spec r s : re_test r s = true <-> re_matches r s.
Proof.
  unfold re_test. revert r. induction s as [|c s IH]; intros r; cbn.
  - apply nullable_spec.
  - rewrite IH. split; [apply deriv_sound | apply deriv_complete].
Qed.

(** *** Inversion lemmas for the shapes the sources use *)

Lemma matches_Cls p s : re_matches (Cls p) s <-> exists c, p c = true /\ s = [c].
Proof.
  split; [inversion 1; subst; eauto|]. intros (c & ? & ->). by constructor.
Qed.

Lemma matches_Cat r1 r2 s :
  re_matches (Cat r1 r2) s
  <-> exists s1 s2, s = s1 ++ s2 /\ re_matches r1 s1 /\ re_matches r2 s2.
Proof.
  split; [inversion 1; subst; eauto 6|].
  intros (s1 & s2 & -> & ? & ?). by constructor.
Qed.

(** Induction over the repetitions of a starred expression. *)
Lemma matches_Star_ind r (P : jstr -> Prop) :
  P [] ->
  (forall s1 s2, re_matches r s1 -> re_matches (Star r) s2 -> P s2 -> P (s1 ++ s2)) ->
  forall s, re_matches (Star r) s -> P s.
Proof.
  intros Hnil Hcons s H. remember (Star r) as r' eqn:Er.
  induction H as [| | | | | |r'' s1 s2 H1 _ H2 IH]; try discriminate Er; [done|].
  injection Er as ->. apply Hcons; auto.
Qed.

Lemma matches_Star_Cls p s :
  re_matches (Star (Cls p)) s <-> Forall (fun c => p c = true) s.
Proof.
  split.
  - revert s. apply matches_Star_ind; [constructor|].
    intros s1 s2 (c & ? & ->)%matches_Cls _ ?. by constructor.
  - induction 1 as [|c s Hc _ IH]; [constructor|].
    apply (MStarCons _ [c]); [by constructor | done].
Qed.

Lemma matches_Plus_Cls p s :
  re_matches (Plus (Cls p)) s <-> s <> [] /\ Forall (fun c => p c = true) s.
Proof.
  unfold Plus. rewrite matches_Cat. split.
  - intros (s1 & s2 & -> & (c & Hc & ->)%matches_Cls & H2%matches_Star_Cls).
    split; [done|]. by constructor.
  - intros [Hne Hall]. destruct Hall as [|c s Hc Hs]; [done|].
    exists [c], s. rewrite matches_Cls, matches_Star_Cls. eauto.
Qed.

Lemma matches_Eps s : re_matches Eps s <-> s = [].
Proof. split; [by inversion 1 | intros ->; constructor]. Qed.

Lemma matches_Alt r1 r2 s :
  re_matches (Alt r1 r2) s <-> re_matches r1 s \/ re_matches r2 s.
Proof.
  split; [inversion 1; subst; auto|].
  intros [?|?]; [by apply MAltL | by apply MAltR].
Qed.

Lemma matches_Rep_Cls n k p s :
  re_matches (Rep n k (Cls p)) s
  <-> (n <= length s <= n + k)%nat /\ Forall (fun c => p c = true) s.
Proof.
  revert s. induction n as [|n IHn]; cbn [Rep Nat.add].
  - induction k as [|k IHk]; intros s; cbn [Rep_upto].
    + rewrite matches_Eps. split.
      * intros ->. split; [cbn; lia | constructor].
      * intros [? _]. destruct s; [done | cbn in *; lia].
    + unfold Opt. rewrite matches_Alt, matches_Eps, matches_Cat. split.
      * intros [->|(s1 & s2 & -> & (c & Hc & ->)%matches_Cls & [? ?]%IHk)].
        { split; [cbn; lia | constructor]. }
        split; [cbn; lia | by constructor].
      * intros [Hl Hall]. destruct Hall as [|c s Hc Hs]; [by left|].
        right. exists [c], s. rewrite matches_Cls, IHk. cbn in Hl.
        split; [done|]. split; [eauto|]. split; [lia | done].
  - intros s. rewrite matches_Cat. split.
    + intros (s1 & s2 & -> & (c & Hc & ->)%matches_Cls & [? ?]%IHn).
      split; [cbn; lia | by constructor].
    + intros [Hl Hall]. destruct Hall as [|c s Hc Hs]; [cbn in Hl; lia|].
      exists [c], s. rewrite matches_Cls, IHn. cbn in Hl.
      split; [done|]. split; [eauto|]. split; [lia | done].
Qed.

Lemma matches_Lit l s : re_matches (Lit l) s <-> s = l.
Proof.
  revert s. induction l as [|c l IH]; intros s; cbn.
  - apply matches_Eps.
  - rewrite matches_Cat. split.
    + intros (s1 & s2 & -> & (c' & ->%Z.eqb_eq & ->)%matches_Cls & ->%IH). done.
    + intros ->. exists [c], l. rewrite matches_Cls, IH.
      split; [done|]. split; [|done]. exists c. by rewrite Z.eqb_refl.
Qed.
