(* ===== verification/Categories.v ===== *)
(** * Channel categories and slugs

    Models shared/ts/src/categories.ts.  [toLowerCase] and [normalize("NFKD")]
    are the engine's Unicode tables and are arguments of [sluggify]; what a
    theorem needs of them is a hypothesis of that theorem. *)
From S2P Require Import Prelude JsString.

(** ** Definitions *)

Definition CUSTOM_CATEGORY : jstr := js "custom".

Definition PRESET_CATEGORIES : list jstr :=
  js <$> ["mic"; "game"; "music"; "voicechat"; "notifications"; "browser";
          "alerts"; "tts"]%string.

Definition isPresetCategory (value : jstr) : bool := includes PRESET_CATEGORIES value.

(** The type [Category]: a preset or ["custom"]. *)
Definition is_category (c : jstr) : Prop :=
  c = CUSTOM_CATEGORY \/ isPresetCategory c = true.

#[export] Instance is_category_dec c : Decision (is_category c).
Proof. unfold is_category. apply _. Defined.

Definition is_combining_mark (c : Z) : bool := in_range 0x300 0x36f c.

(** [s.replace(/[p]+/g, rep)]: every maximal run of units in the class becomes
    one [rep]; [in_run] says the previous unit was in the run. *)
Fixpoint replace_runs (p : Z -> bool) (rep : jstr) (in_run : bool) (s : jstr) : jstr :=
  match s with
  | [] => []
  | c :: r =>
      if p c then (if in_run then [] else rep) ++ replace_runs p rep true r
      else c :: replace_runs p rep false r
  end.

Section Sluggify.
Context (toLowerCase normalize_NFKD : jstr -> jstr).

Definition sluggify (label : jstr) : jstr :=
  let s := normalize_NFKD (toLowerCase label) in
  let s := filter (fun c => is_combining_mark c = false) s in
  let s := replace_runs (fun c => negb (is_az09 c)) [dash] false s in
  strip_class (Z.eqb dash) s.
End Sluggify.

Definition SLUG_RE : re :=
  Cat (Plus (Cls is_az09)) (Star (Cat (Lit [dash]) (Plus (Cls is_az09)))).

Definition isValidSlug (slug : jstr) : bool :=
  (1 <=? length slug)%nat && (length slug <=? 64)%nat && re_test SLUG_RE slug.

(** ** Specification: the rule stated in the source's comment *)

Definition is_slug_char (c : Z) : bool := is_az09 c || (c =? dash).

Definition no_double_dash (s : jstr) : Prop :=
  forall l r, s <> l ++ dash :: dash :: r.

Definition slug_shape (s : jstr) : Prop :=
  Forall (fun c => is_slug_char c = true) s
  /\ head s <> Some dash /\ last s <> Some dash /\ no_double_dash s.

Definition slug_rule (s : jstr) : Prop :=
  (1 <= length s <= 64)%nat /\ slug_shape s.

(** ** Lemmas *)

Lemma az09_not_dash c : is_az09 c = true -> c <> dash.
Proof. intros H ->. discriminate. Qed.

Lemma no_double_dash_nil : no_double_dash [].
Proof. intros [] r; discriminate. Qed.

Lemma no_double_dash_cons c s :
  no_double_dash (c :: s)
  <-> ~ (c = dash /\ head s = Some dash) /\ no_double_dash s.
Proof.
  split.
  - intros H. split.
    + intros [-> Hh]. destruct s as [|d s]; [done|]. injection Hh as ->.
      by apply (H [] s).
    + intros l r ->. by apply (H (c :: l) r).
  - intros [Hc Hs] [|d l] r; cbn; intros [= -> ->]; [by apply Hc | by eapply Hs].
Qed.

Lemma no_double_dash_infix a u b : no_double_dash (a ++ u ++ b) -> no_double_dash u.
Proof.
  intros H l r ->. apply (H (a ++ l) (r ++ b)). by rewrite <- !app_assoc.
Qed.

(** A one-pass reading of the rule: [b] says the previous unit was a dash (or
    there was none). *)
Fixpoint kebab (b : bool) (s : jstr) : bool :=
  match s with
  | [] => negb b
  | c :: r =>
      if c =? dash then negb b && kebab true r
      else is_az09 c && kebab false r
  end.

Lemma kebab_false_cons c r : is_az09 c = true -> kebab false (c :: r) = kebab false r.
Proof. intros H. cbn. pose proof (az09_not_dash c H). by case_match; [lia|rewrite H]. Qed.

Lemma kebab_app a g :
  Forall (fun c => is_az09 c = true) a -> kebab false (a ++ g) = kebab false g.
Proof. induction 1; [done|]. cbn [app]. by rewrite kebab_false_cons. Qed.

Lemma kebab_app_ne a g :
  a <> [] -> Forall (fun c => is_az09 c = true) a -> kebab true (a ++ g) = kebab false g.
Proof.
  intros Hne Ha. destruct Ha as [|c a Hc Ha]; [done|]. cbn.
  pose proof (az09_not_dash c Hc). case_match; [lia|]. rewrite Hc. by apply kebab_app.
Qed.

Abbreviation dashed := (Cat (Lit [dash]) (Plus (Cls is_az09))).

Lemma star_dashed_kebab g : re_matches (Star dashed) g -> kebab false g = true.
Proof.
  revert g. apply matches_Star_ind; [done|].
  intros s1 s2 (d & p & -> & ->%matches_Lit & [??]%matches_Plus_Cls)%matches_Cat _ IH.
  cbn. by rewrite kebab_app_ne.
Qed.

Lemma kebab_matches s :
  (kebab false s = true -> exists a g, s = a ++ g
     /\ Forall (fun c => is_az09 c = true) a /\ re_matches (Star dashed) g)
  /\ (kebab true s = true -> re_matches SLUG_RE s).
Proof.
  induction s as [|c s [IH1 IH2]]; cbn.
  { split; [|done]. intros _. exists [], []. repeat constructor. }
  split; intros H.
  - destruct (Z.eqb_spec c dash) as [->|Hc]; cbn in H.
    + apply IH2, matches_Cat in H as (p & g & -> & Hp & Hg).
      exists [], (dash :: p ++ g). split; [done|]. split; [done|].
      apply (MStarCons _ (dash :: p) g); [|done].
      apply (MCat _ _ [dash] p); [by apply (matches_Lit [dash]) | done].
    + apply andb_true_iff in H as [Ha (a & g & -> & ? & ?)%IH1].
      exists (c :: a), g. eauto.
  - destruct (Z.eqb_spec c dash) as [->|Hc]; cbn in H; [done|].
    apply andb_true_iff in H as [Ha (a & g & -> & ? & ?)%IH1].
    apply matches_Cat. exists (c :: a), g. split; [done|]. split; [|done].
    apply matches_Plus_Cls. auto.
Qed.

Lemma SLUG_RE_kebab s : re_matches SLUG_RE s <-> kebab true s = true.
Proof.
  split; [|apply kebab_matches].
  intros (p & g & -> & [Hne Hp]%matches_Plus_Cls & Hg%star_dashed_kebab)%matches_Cat.
  by rewrite kebab_app_ne.
Qed.

Lemma kebab_shape b s :
  kebab b s = true
  <-> Forall (fun c => is_slug_char c = true) s
      /\ (b = true -> s <> [] /\ head s <> Some dash)
      /\ last s <> Some dash /\ no_double_dash s.
Proof.
  revert b. induction s as [|c s IH]; intros b; cbn [kebab].
  { pose proof no_double_dash_nil. destruct b; cbn; naive_solver. }
  rewrite Forall_cons, no_double_dash_cons, last_cons. unfold is_slug_char at 1.
  destruct (Z.eqb_spec c dash) as [->|Hc].
  - rewrite andb_true_iff, IH, orb_true_r. destruct s as [|d s].
    + cbn. naive_solver.
    + destruct (last (d :: s)) eqn:Hl; [|by apply last_None in Hl].
      destruct b; cbn; naive_solver.
  - rewrite andb_true_iff, IH, orb_false_r. destruct (last s); naive_solver.
Qed.

Lemma isValidSlug_rule s : isValidSlug s = true <-> slug_rule s.
Proof.
  unfold isValidSlug, slug_rule, slug_shape.
  rewrite !andb_true_iff, re_test_spec, SLUG_RE_kebab, kebab_shape.
  destruct s; cbn [length]; [naive_solver lia|]. split.
  - intros ([??] & ? & Hb & ?). destruct (Hb eq_refl). split; [lia|tauto].
  - intros (? & ? & ? & ?). split; [lia|]. split; [done|].
    split; [|done]. by intros _.
Qed.

#[export] Instance slug_rule_dec s : Decision (slug_rule s).
Proof.
  refine (cast_if (decide (isValidSlug s = true))); by rewrite <- isValidSlug_rule.
Defined.

(** *** [sluggify] *)

Lemma drop_class_spec p s :
  exists a, s = a ++ drop_class p s
            /\ (forall c, head (drop_class p s) = Some c -> p c = false).
Proof.
  induction s as [|c s (a & Ha & Hh)]; cbn; [by exists []|].
  destruct (p c) eqn:Hc.
  - exists (c :: a). split; [by rewrite Ha at 1 | done].
  - exists []. split; [done|]. cbn. by intros ? [= <-].
Qed.

Lemma drop_class_none p s : (forall c, head s = Some c -> p c = false) -> drop_class p s = s.
Proof. destruct s as [|c s]; cbn; [done|]. intros H. by rewrite H. Qed.

Lemma strip_class_spec p s :
  exists a b, s = a ++ strip_class p s ++ b
    /\ (forall c, head (strip_class p s) = Some c -> p c = false)
    /\ (forall c, last (strip_class p s) = Some c -> p c = false).
Proof.
  unfold strip_class. destruct (drop_class_spec p s) as (a & Ha & Hh).
  destruct (drop_class_spec p (reverse (drop_class p s))) as (b & Hb & Hl).
  set (t := drop_class p s) in *. set (u := drop_class p (reverse t)) in *.
  assert (Ht : t = reverse u ++ reverse b).
  { by rewrite <- reverse_app, <- Hb, reverse_involutive. }
  exists a, (reverse b). split; [by rewrite <- Ht|]. split.
  - intros c Hc. apply Hh. rewrite Ht, head_app. by rewrite Hc.
  - intros c. rewrite last_reverse. apply Hl.
Qed.

Lemma strip_class_none p s :
  (forall c, head s = Some c -> p c = false) ->
  (forall c, last s = Some c -> p c = false) -> strip_class p s = s.
Proof.
  intros Hh Hl. unfold strip_class. rewrite (drop_class_none p s) by done.
  rewrite drop_class_none, reverse_involutive; [done|].
  intros c. rewrite head_reverse. apply Hl.
Qed.

Abbreviation not_az09 := (fun c => negb (is_az09 c)).

Lemma replace_runs_shape b s :
  let t := replace_runs not_az09 [dash] b s in
  Forall (fun c => is_slug_char c = true) t /\ no_double_dash t
  /\ (b = true -> head t <> Some dash).
Proof.
  revert b. induction s as [|c s IH]; intros b; cbn.
  { split; [constructor|]. split; [apply no_double_dash_nil | done]. }
  destruct (is_az09 c) eqn:Hc; cbn.
  - destruct (IH false) as (H1 & H2 & _). pose proof (az09_not_dash c Hc).
    rewrite Forall_cons, no_double_dash_cons. unfold is_slug_char at 1.
    rewrite Hc. naive_solver.
  - destruct (IH true) as (H1 & H2 & H3). destruct b; cbn; [done|].
    rewrite Forall_cons, no_double_dash_cons. naive_solver.
Qed.

Lemma replace_runs_id b s :
  Forall (fun c => is_slug_char c = true) s -> no_double_dash s ->
  (b = true -> head s <> Some dash) ->
  replace_runs not_az09 [dash] b s = s.
Proof.
  intros Hs. revert b. induction Hs as [|c s Hc Hs IH]; intros b; cbn; [done|].
  intros [Hcs Hnd]%no_double_dash_cons Hb.
  unfold is_slug_char in Hc. destruct (is_az09 c) eqn:Haz; cbn in Hc |- *.
  - by rewrite IH.
  - apply Z.eqb_eq in Hc as ->. destruct b; [naive_solver|]. cbn.
    rewrite IH; naive_solver.
Qed.

Lemma Forall_infix {A} (P : A -> Prop) a u b : Forall P (a ++ u ++ b) -> Forall P u.
Proof. rewrite !Forall_app. tauto. Qed.

Lemma sluggify_slug_shape lower nfkd label : slug_shape (sluggify lower nfkd label).
Proof.
  unfold sluggify. set (s := filter _ _).
  destruct (replace_runs_shape false s) as (Hall & Hnd & _).
  set (t := replace_runs _ _ false s) in *.
  destruct (strip_class_spec (Z.eqb dash) t) as (a & b & Ht & Hh & Hl).
  rewrite Ht in Hall, Hnd. split; [by eapply Forall_infix|].
  split; [|split; [|by eapply no_double_dash_infix]].
  - intros H. apply Hh in H. by rewrite Z.eqb_refl in H.
  - intros H. apply Hl in H. by rewrite Z.eqb_refl in H.
Qed.

(** ** Properties *)

(** C37: [isValidSlug] decides the rule its comment states: 1 to 64 characters
    of [a-z0-9-], no leading or trailing dash and no double dash. *)
Theorem isValidSlug_iff_rule (s : jstr) : isValidSlug s = true <-> slug_rule s.
Proof. apply isValidSlug_rule. Qed.

(** [sluggify] is total, and whatever the Unicode tables do, its result has
    the slug shape; it is therefore a valid slug exactly when it is neither
    empty nor longer than 64 characters. *)
Theorem sluggify_shape (toLowerCase normalize_NFKD : jstr -> jstr) (label : jstr) :
  let slug := sluggify toLowerCase normalize_NFKD label in
  slug_shape slug
  /\ (isValidSlug slug = true <-> (1 <= length slug <= 64)%nat).
Proof.
  cbn zeta. pose proof (sluggify_slug_shape toLowerCase normalize_NFKD label) as H.
  split; [done|]. rewrite isValidSlug_rule. unfold slug_rule. tauto.
Qed.

(** [sluggify] is idempotent, provided the engine's [toLowerCase] and NFKD
    normalisation leave strings of lower-case ASCII letters, digits and dashes
    as they are (which Unicode specifies). *)
Theorem sluggify_idempotent (toLowerCase normalize_NFKD : jstr -> jstr)
    (Hlower : forall s, Forall (fun c => is_slug_char c = true) s -> toLowerCase s = s)
    (Hnfkd : forall s, Forall (fun c => is_slug_char c = true) s -> normalize_NFKD s = s)
    (label : jstr) :
  let slug := sluggify toLowerCase normalize_NFKD label in
  sluggify toLowerCase normalize_NFKD slug = slug.
Proof.
  cbn zeta. destruct (sluggify_slug_shape toLowerCase normalize_NFKD label) as (Hall & Hh & Hl & Hnd).
  set (s := sluggify _ _ label) in *. unfold sluggify.
  rewrite Hlower, Hnfkd by done.
  rewrite filter_all.
  - rewrite replace_runs_id by done.
    apply strip_class_none; intros c Hc; apply Z.eqb_neq; congruence.
  - eapply Forall_impl; [exact Hall|].
    intros c Hc. unfold is_slug_char, is_az09, is_az, is_09, is_combining_mark, in_range, dash in *. lia.
Qed.

(** ASCII lower-casing, as an instance of the engine's table. *)
Definition ascii_lower (s : jstr) : jstr :=
  (fun c => if in_range 65 90 c then c + 32 else c) <$> s.

Lemma ascii_lower_id s : Forall (fun c => is_slug_char c = true) s -> ascii_lower s = s.
Proof.
  induction 1 as [|c s Hc _ IH]; [done|]. unfold ascii_lower in *. cbn. rewrite IH.
  replace (in_range 65 90 c) with false; [done|].
  unfold is_slug_char, is_az09, is_az, is_09, in_range, dash in *. lia.
Qed.

Lemma sluggify_idempotent_witness :
  sluggify ascii_lower id (js "  Co-host   MIC! ") = js "co-host-mic"
  /\ sluggify ascii_lower id (sluggify ascii_lower id (js "  Co-host   MIC! "))
     = sluggify ascii_lower id (js "  Co-host   MIC! ").
Proof.
  split; [by vm_compute|].
  apply (sluggify_idempotent ascii_lower id); [exact ascii_lower_id | done].
Defined.

Example isValidSlug_tests :
  (isValidSlug <$> [js "mic"; js "co-host-mic"; js "a"; js ""; js "MIC";
                    js "-leading"; js "trailing-"; js "double--dash"])
  = [true; true; true; false; false; false; false; false].
Proof. by vm_compute. Qed.
