(* ===== verification/JsNumber.v ===== *)
(** * JavaScript numbers

    A [number] is an IEEE 754 binary64 value, represented by the Standard
    Library's [spec_float] (precision 53, [emax] 1024), whose operations round
    to nearest even as ECMAScript requires.  The file gives the operations the
    sources use, the conversion of decimal literals, [Number::toString], and
    the exactness of integers below 2^53. *)
From Stdlib Require Import SpecFloat.
From S2P Require Import Prelude JsString.

Abbreviation num := spec_float.

#[export] Instance num_eq_dec : EqDecision num.
Proof. solve_decision. Defined.

(** ** Operations *)

Definition jadd : num -> num -> num := SFadd 53 1024.
Definition jsub : num -> num -> num := SFsub 53 1024.
Definition jmul : num -> num -> num := SFmul 53 1024.
Definition jdiv : num -> num -> num := SFdiv 53 1024.

(** [x < y], [x <= y], [x === y]: false when either is NaN. *)
Definition jlt (x y : num) : bool := SFltb x y.
Definition jle (x y : num) : bool := SFleb x y.
Definition jeq (x y : num) : bool := SFeqb x y.

Definition isFinite (x : num) : bool :=
  match x with S754_zero _ | S754_finite _ _ _ => true | _ => false end.

Definition NaN : num := S754_nan.
Definition Infinity : num := S754_infinity false.
Definition num0 : num := S754_zero false.

(** [Math.min] and [Math.max] of two numbers. *)
Definition jmin (x y : num) : num :=
  match x, y with
  | S754_nan, _ | _, S754_nan => S754_nan
  | S754_zero sx, S754_zero sy => S754_zero (sx || sy)
  | _, _ => if jlt y x then y else x
  end.
Definition jmax (x y : num) : num :=
  match x, y with
  | S754_nan, _ | _, S754_nan => S754_nan
  | S754_zero sx, S754_zero sy => S754_zero (sx && sy)
  | _, _ => if jlt x y then y else x
  end.

(** The number an integer denotes (rounded when it has no exact form). *)
Definition of_Z (z : Z) : num := binary_normalize 53 1024 z 0 false.

(** The number the decimal [(-1)^neg * m * 10^e] denotes.  The two guards give
    the result directly where the exponent is far outside the range, so that
    the definition evaluates: 10^e is at least 2^(3e) for e >= 0 and at most
    2^(3e) for e <= 0. *)
Definition of_dec (neg : bool) (m e : Z) : num :=
  match m with
  | Zpos p =>
      if 1100 <? Z.log2 m + 3 * e then
        if 0 <=? e then S754_infinity neg else
        jdiv (S754_finite neg p 0) (S754_finite false (Z.to_pos (10 ^ (- e))) 0)
      else if Z.log2 m + 1 + 3 * e <? -1100 then S754_zero neg
      else if 0 <=? e then binary_round 53 1024 neg (Z.to_pos (m * 10 ^ e)) 0
      else jdiv (S754_finite neg p 0) (S754_finite false (Z.to_pos (10 ^ (- e))) 0)
  | _ => S754_zero neg
  end.

(** The integer a number is, when it is one ([Number.isInteger] is
    [is_Some (to_Z x)]). *)
Definition to_Z (x : num) : option Z :=
  match x with
  | S754_zero _ => Some 0
  | S754_finite s m e =>
      let a :=
        if 0 <=? e then Some (Zpos m * 2 ^ e)
        else if Zpos m mod 2 ^ (- e) =? 0 then Some (Zpos m / 2 ^ (- e))
        else None in
      if s then Z.opp <$> a else a
  | _ => None
  end.

Definition isInteger (x : num) : bool := bool_decide (is_Some (to_Z x)).

(** Numbers built by the engine are in canonical form. *)
Definition num_ok (x : num) : bool := valid_binary 53 1024 x.

(** ** Number::toString *)

(** The decimal digits of [n], at most [fuel] of them. *)
Fixpoint dec_digits (fuel : nat) (n : Z) : jstr :=
  match fuel with
  | O => []
  | S f => if n <? 10 then [48 + n] else dec_digits f (n / 10) ++ [48 + n mod 10]
  end.

(** 400 digits are enough for every integer a number can be below 10^309. *)
Definition dec_string (z : Z) : jstr :=
  if z <? 0 then 45 :: dec_digits 400 (- z) else dec_digits 400 z.

(** The value of a positive number as a fraction. *)
Definition frac_of (m : positive) (e : Z) : Z * Z :=
  if 0 <=? e then (Zpos m * 2 ^ e, 1) else (Zpos m, 2 ^ (- e)).

(** [floor (v / 10^d)] for the fraction [v]. *)
Definition floor_dec (v : Z * Z) (d : Z) : Z :=
  let '(n, q) := v in
  if 0 <=? d then n / (q * 10 ^ d) else n * 10 ^ (- d) / q.

(** The exponent [n] with 10^(n-1) <= v < 10^n, searched upwards from [n0]. *)
Fixpoint dec_exponent (fuel : nat) (v : Z * Z) (n0 : Z) : Z :=
  match fuel with
  | O => n0
  | S f => if floor_dec v n0 =? 0 then n0 else dec_exponent f v (n0 + 1)
  end.

(** The shortest digit string [s] (with [k] digits) such that [s * 10^(n-k)]
    rounds to [x]: for each length the two candidates around [x] are tried,
    the nearer first. *)
Fixpoint shortest (fuel : nat) (x : num) (v : Z * Z) (n k : Z) : Z * Z :=
  let lo := floor_dec v (n - k) in
  let '(q1, q2) := if floor_dec (2 * fst v, snd v) (n - k) =? 2 * lo
                   then (lo, lo + 1) else (lo + 1, lo) in
  match fuel with
  | O => (q1, k)
  | S f =>
      if decide (of_dec false q1 (n - k) = x) then (q1, k)
      else if decide (of_dec false q2 (n - k) = x) then (q2, k)
      else shortest f x v n (k + 1)
  end.

Definition zeros_str (n : Z) : jstr := replicate (Z.to_nat n) 48.

Definition positive_string (m : positive) (e : Z) : jstr :=
  let v := frac_of m e in
  let b := Z.log2 (Zpos m) + e in
  let n := dec_exponent 4 v (b * 30103 / 100000) in
  let '(s, k) := shortest 16 (S754_finite false m e) v n 1 in
  let '(s, n) := if s =? 10 ^ k then (s / 10, n + 1) else (s, n) in
  let ds := dec_digits 400 s in
  if (k <=? n) && (n <=? 21) then ds ++ zeros_str (n - k)
  else if (0 <? n) && (n <=? 21) then
    take (Z.to_nat n) ds ++ [46] ++ drop (Z.to_nat n) ds
  else if (-6 <? n) && (n <=? 0) then [48; 46] ++ zeros_str (- n) ++ ds
  else
    let ex := n - 1 in
    let sgn := if ex <? 0 then 45 else 43 in
    take 1 ds ++ (if k =? 1 then [] else 46 :: drop 1 ds)
      ++ [101; sgn] ++ dec_digits 400 (Z.abs ex).

Definition num_toString (x : num) : jstr :=
  match x with
  | S754_nan => js "NaN"
  | S754_infinity false => js "Infinity"
  | S754_infinity true => js "-Infinity"
  | S754_zero _ => js "0"
  | S754_finite s m e =>
      let body :=
        match to_Z (S754_finite false m e) with
        | Some z => if z <? 2 ^ 53 then dec_string z else positive_string m e
        | None => positive_string m e
        end in
      if s then 45 :: body else body
  end.

Example toString_examples :
  (num_toString <$> [of_dec false 1 (-1); of_dec false 2 (-2); of_dec false 125 (-1);
     of_dec true 5 (-324); of_dec false 1 21; of_Z 123456789012345680000;
     of_Z 9007199254740993; of_dec false 1 (-7); of_dec false 123456 (-11);
     of_Z 48000; of_dec false 17976931348623157 292])
  = js <$> ["0.1"; "0.02"; "12.5"; "-5e-324"; "1e+21"; "123456789012345680000";
     "9007199254740992"; "1e-7"; "0.00000123456"; "48000"; "1.7976931348623157e+308"]%string.
Proof. by vm_compute. Qed.

(** ** Integers below 2^53 are exact *)

Definition safe (z : Z) : Prop := - 2 ^ 53 < z < 2 ^ 53.

Lemma digits2_pos_log2 p : Zpos (digits2_pos p) = Z.log2 (Zpos p) + 1.
Proof.
  induction p as [p IH|p IH|]; cbn [digits2_pos]; [| |done].
  - rewrite Pos2Z.inj_succ, IH, Pos2Z.inj_xI, Z.log2_succ_double; lia.
  - rewrite Pos2Z.inj_succ, IH, Pos2Z.inj_xO, Z.log2_double; lia.
Qed.

Lemma iter_xO p d : Zpos (Pos.iter xO p d) = Zpos p * 2 ^ Zpos d.
Proof.
  induction d as [|d IH] using Pos.peano_ind; [cbn; lia|].
  rewrite Pos.iter_succ, Pos2Z.inj_xO, IH, Pos2Z.inj_succ, Z.pow_succ_r by lia. lia.
Qed.

(** A 53-bit mantissa needs no rounding. *)
Lemma round_aux_full s m e :
  Z.log2 (Zpos m) = 52 -> -1074 <= e <= 971 ->
  binary_round_aux 53 1024 s (Zpos m) e loc_Exact = S754_finite s m e.
Proof.
  intros Hm He. unfold binary_round_aux, shr_fexp. cbn [shr_record_of_loc Zdigits2].
  assert (Hf : fexp 53 1024 (Zpos (digits2_pos m) + e) - e = 0).
  { rewrite digits2_pos_log2, Hm. unfold fexp, emin. lia. }
  rewrite Hf. cbn [shr shr_m loc_of_shr_record round_nearest_even Zdigits2].
  rewrite Hf. cbn [shr shr_m shr_record_of_loc].
  by rewrite (proj2 (Z.leb_le e (1024 - 53))) by lia.
Qed.

Lemma binary_round_int s p :
  Zpos p < 2 ^ 53 ->
  exists m e, binary_round 53 1024 s p 0 = S754_finite s m e
              /\ to_Z (S754_finite false m e) = Some (Zpos p).
Proof.
  intros Hp. assert (Hlog : 0 <= Z.log2 (Zpos p) < 53).
  { split; [apply Z.log2_nonneg|]. apply Z.log2_lt_pow2; lia. }
  unfold binary_round, shl_align. rewrite digits2_pos_log2.
  set (l := Z.log2 (Zpos p)) in *.
  assert (Hf : fexp 53 1024 (l + 1 + 0) - 0 = l - 52) by (unfold fexp, emin; lia).
  rewrite Hf. destruct (l - 52) as [|d|d] eqn:Hd; [|lia|].
  - exists p, 0. rewrite round_aux_full by lia. split; [done|]. cbn. f_equal. lia.
  - assert (Hx : fexp 53 1024 (l + 1 + 0) = Zneg d) by lia. rewrite Hx.
    assert (Hm : Z.log2 (Zpos (Pos.iter xO p d)) = 52).
    { rewrite iter_xO, Z.log2_mul_pow2 by lia. fold l. lia. }
    exists (Pos.iter xO p d), (Zneg d). rewrite round_aux_full by lia.
    split; [done|]. unfold to_Z. rewrite iter_xO.
    cbn [Z.leb Z.compare Z.opp]. rewrite Z_mod_mult, Z.eqb_refl.
    f_equal. apply Z.div_mul. lia.
Qed.

(** The canonical form of a safe integer. *)
Lemma of_Z_form z :
  safe z -> z <> 0 ->
  exists m e, of_Z z = S754_finite (z <? 0) m e
              /\ to_Z (S754_finite false m e) = Some (Z.abs z).
Proof.
  intros Hz Hne. unfold safe in Hz. unfold of_Z, binary_normalize.
  destruct z as [|p|p]; [done| |]; cbn [Z.ltb Z.compare Z.abs]; apply binary_round_int; lia.
Qed.

Lemma to_Z_of_Z z : safe z -> to_Z (of_Z z) = Some z.
Proof.
  intros Hz. destruct (Z.eq_dec z 0) as [->|Hne]; [done|].
  destruct (of_Z_form z Hz Hne) as (m & e & -> & He).
  destruct (Z.ltb_spec z 0).
  - unfold to_Z in *. rewrite He. cbn. f_equal. lia.
  - rewrite He. f_equal. lia.
Qed.

Lemma of_Z_inj a b : safe a -> safe b -> of_Z a = of_Z b -> a = b.
Proof. intros Ha Hb H%(f_equal to_Z). rewrite !to_Z_of_Z in H by done. congruence. Qed.

Lemma isFinite_of_Z z : safe z -> isFinite (of_Z z) = true.
Proof.
  intros Hz. destruct (Z.eq_dec z 0) as [->|Hne]; [done|].
  by destruct (of_Z_form z Hz Hne) as (m & e & -> & _).
Qed.

Lemma isInteger_of_Z z : safe z -> isInteger (of_Z z) = true.
Proof. intros Hz. unfold isInteger. by rewrite to_Z_of_Z. Qed.

Lemma of_Z_nonneg z : safe z -> 0 <= z -> jlt (of_Z z) num0 = false.
Proof.
  intros Hz Hpos. destruct (Z.eq_dec z 0) as [->|Hne]; [done|].
  destruct (of_Z_form z Hz Hne) as (m & e & -> & _).
  by rewrite (proj2 (Z.ltb_ge z 0)).
Qed.

Lemma of_dec_int z : 0 <= z < 2 ^ 53 -> of_dec false z 0 = of_Z z.
Proof.
  intros Hz. destruct z as [|p|p]; [done| |lia].
  assert (Z.log2 (Zpos p) < 53) by (apply Z.log2_lt_pow2; lia).
  pose proof (Z.log2_nonneg (Zpos p)).
  unfold of_dec. rewrite (proj2 (Z.ltb_ge 1100 _)), (proj2 (Z.ltb_ge _ (-1100))) by lia.
  cbn [Z.leb Z.compare]. by rewrite Z.mul_1_r.
Qed.

(** *** Decimal digits *)

Definition is_digit (c : Z) : bool := is_09 c.
Definition digit_value (ds : jstr) : Z := foldl (fun acc c => acc * 10 + (c - 48)) 0 ds.

Lemma dec_digits_spec f n :
  0 <= n < 10 ^ Z.of_nat f ->
  digit_value (dec_digits f n) = n
  /\ Forall (fun c => is_digit c = true) (dec_digits f n)
  /\ (f <> 0%nat -> dec_digits f n <> [])
  /\ (n <> 0 -> head (dec_digits f n) <> Some 48).
Proof.
  revert n. induction f as [|f IH]; intros n Hn.
  { cbn in Hn. assert (n = 0) as -> by lia. by repeat split. }
  rewrite Nat2Z.inj_succ, Z.pow_succ_r in Hn by lia. cbn [dec_digits].
  destruct (Z.ltb_spec n 10).
  - split; [cbn; lia|]. split; [|split; [done|]].
    + constructor; [|constructor]. unfold is_digit, is_09, in_range. lia.
    + cbn. intros ? [= ?]. lia.
  - pose proof (Z.mod_pos_bound n 10 ltac:(lia)).
    pose proof (Z.div_mod n 10 ltac:(lia)).
    destruct (IH (n / 10)) as (Hv & Hd & Hne & Hh).
    { split; [apply Z.div_pos; lia | apply Z.div_lt_upper_bound; lia]. }
    assert (1 <= n / 10) by (apply Z.div_le_lower_bound; lia).
    unfold digit_value in *. rewrite foldl_app, Hv. cbn [foldl].
    split; [lia|]. split; [|split].
    + apply Forall_app; split; [done|]. constructor; [|constructor].
      unfold is_digit, is_09, in_range. lia.
    + intros _ [_ Hx]%app_eq_nil. done.
    + intros _. rewrite head_app.
      destruct (head (dec_digits f (n / 10))) eqn:E; [apply Hh; lia|].
      destruct f; [cbn in Hn; lia|].
      destruct (dec_digits (S f) (n / 10)); [|done]. by destruct Hne.
Qed.

Lemma dec_bound n : n < 2 ^ 53 -> n < 10 ^ Z.of_nat 400.
Proof.
  intros H. eapply Z.lt_le_trans; [exact H|].
  transitivity (10 ^ 16); [vm_compute; discriminate|].
  apply Z.pow_le_mono_r; lia.
Qed.

Lemma toString_of_Z z : safe z -> num_toString (of_Z z) = dec_string z.
Proof.
  intros Hz. destruct (Z.eq_dec z 0) as [->|Hne]; [done|].
  destruct (of_Z_form z Hz Hne) as (m & e & -> & He).
  unfold num_toString. rewrite He. unfold safe in Hz.
  rewrite (proj2 (Z.ltb_lt (Z.abs z) (2 ^ 53))) by lia. unfold dec_string.
  rewrite (proj2 (Z.ltb_ge (Z.abs z) 0)) by lia.
  destruct (Z.ltb_spec z 0); repeat f_equal; lia.
Qed.
