(* ===== verification/Utf8.v ===== *)
(** * TextEncoder and TextDecoder

    The two encoding objects messages.ts creates: [new TextEncoder()] and
    [new TextDecoder("utf-8", { fatal: true })], as the Encoding Standard
    defines them on UTF-16 strings and byte sequences. *)
From S2P Require Import Prelude JsString.

(** ** UTF-16 *)

Definition is_high (u : Z) : bool := in_range 0xD800 0xDBFF u.
Definition is_low (u : Z) : bool := in_range 0xDC00 0xDFFF u.
Definition is_surrogate (u : Z) : bool := is_high u || is_low u.

Definition pair_value (h l : Z) : Z := 0x10000 + (h - 0xD800) * 0x400 + (l - 0xDC00).

(** The scalar values of a string; a lone surrogate becomes U+FFFD. *)
Fixpoint code_points (s : jstr) : list Z :=
  match s with
  | [] => []
  | c :: r =>
      if is_high c then
        match r with
        | d :: r' => if is_low d then pair_value c d :: code_points r'
                     else 0xFFFD :: code_points r
        | [] => [0xFFFD]
        end
      else (if is_low c then 0xFFFD else c) :: code_points r
  end.

(** The code units of a scalar value. *)
Definition units_of (c : Z) : jstr :=
  if c <? 0x10000 then [c]
  else [0xD800 + (c - 0x10000) / 0x400; 0xDC00 + (c - 0x10000) mod 0x400].

(** A string without lone surrogates. *)
Fixpoint well_formed (s : jstr) : bool :=
  match s with
  | [] => true
  | c :: r =>
      if is_high c then
        match r with d :: r' => is_low d && well_formed r' | [] => false end
      else negb (is_low c) && well_formed r
  end.

(** ** UTF-8 *)

Definition utf8_bytes (c : Z) : list Z :=
  if c <? 0x80 then [c]
  else if c <? 0x800 then [0xC0 + c / 64; 0x80 + c mod 64]
  else if c <? 0x10000 then
    [0xE0 + c / 4096; 0x80 + c / 64 mod 64; 0x80 + c mod 64]
  else
    [0xF0 + c / 262144; 0x80 + c / 4096 mod 64; 0x80 + c / 64 mod 64; 0x80 + c mod 64].

Definition utf8_encode (s : jstr) : list Z := code_points s ≫= utf8_bytes.

Definition is_cont (b : Z) : bool := in_range 0x80 0xBF b.

(** The strict decoder: over-long forms, surrogates, values above U+10FFFF and
    truncated sequences are errors. *)
Fixpoint utf8_decode (l : list Z) : option (list Z) :=
  match l with
  | [] => Some []
  | b0 :: r =>
      if b0 <? 0x80 then cons b0 <$> utf8_decode r
      else if in_range 0xC2 0xDF b0 then
        match r with
        | b1 :: r1 =>
            if is_cont b1
            then cons ((b0 - 0xC0) * 64 + (b1 - 0x80)) <$> utf8_decode r1
            else None
        | _ => None
        end
      else if in_range 0xE0 0xEF b0 then
        match r with
        | b1 :: b2 :: r2 =>
            if in_range (if b0 =? 0xE0 then 0xA0 else 0x80)
                        (if b0 =? 0xED then 0x9F else 0xBF) b1 && is_cont b2
            then cons ((b0 - 0xE0) * 4096 + (b1 - 0x80) * 64 + (b2 - 0x80))
                   <$> utf8_decode r2
            else None
        | _ => None
        end
      else if in_range 0xF0 0xF4 b0 then
        match r with
        | b1 :: b2 :: b3 :: r3 =>
            if in_range (if b0 =? 0xF0 then 0x90 else 0x80)
                        (if b0 =? 0xF4 then 0x8F else 0xBF) b1 && is_cont b2 && is_cont b3
            then cons ((b0 - 0xF0) * 262144 + (b1 - 0x80) * 4096
                       + (b2 - 0x80) * 64 + (b3 - 0x80)) <$> utf8_decode r3
            else None
        | _ => None
        end
      else None
  end.

(** The decoder object drops one leading byte-order mark. *)
Definition strip_bom (l : list Z) : list Z :=
  if bool_decide (take 3 l = [0xEF; 0xBB; 0xBF]) then drop 3 l else l.

(** [decoder.decode(buf)]: a [TypeError] on malformed input. *)
Definition text_decode (l : list Z) : result jstr :=
  match utf8_decode (strip_bom l) with
  | Some cs => Ok (cs ≫= units_of)
  | None => Throw TypeError
  end.

(** ** Lemmas *)

Definition scalar (c : Z) : Prop := 0 <= c <= 0x10FFFF /\ is_surrogate c = false.

Ltac unfold_ranges :=
  unfold scalar, is_surrogate, is_high, is_low, is_cont, in_range, pair_value, unit_ok in *.

Ltac divmod :=
  repeat match goal with
  | |- context [?a / ?b] => lazymatch goal with
      | _ : a = b * (a / b) + a mod b |- _ => fail
      | _ => pose proof (Z.div_mod a b ltac:(lia));
             pose proof (Z.mod_pos_bound a b ltac:(lia)) end
  | |- context [?a mod ?b] => lazymatch goal with
      | _ : a = b * (a / b) + a mod b |- _ => fail
      | _ => pose proof (Z.div_mod a b ltac:(lia));
             pose proof (Z.mod_pos_bound a b ltac:(lia)) end
  end.

Lemma div_4096 c : c / 4096 = c / 64 / 64.
Proof. rewrite Z.div_div by lia. done. Qed.
Lemma div_262144 c : c / 262144 = c / 64 / 64 / 64.
Proof. rewrite !Z.div_div by lia. done. Qed.

Lemma utf8_decode_bytes c rest :
  scalar c -> utf8_decode (utf8_bytes c ++ rest) = cons c <$> utf8_decode rest.
Proof.
  intros Hc. unfold utf8_bytes. rewrite div_262144, div_4096.
  pose proof (Z.div_mod c 64 ltac:(lia)). pose proof (Z.mod_pos_bound c 64 ltac:(lia)).
  pose proof (Z.div_mod (c / 64) 64 ltac:(lia)). pose proof (Z.mod_pos_bound (c / 64) 64 ltac:(lia)).
  pose proof (Z.div_mod (c / 64 / 64) 64 ltac:(lia)). pose proof (Z.mod_pos_bound (c / 64 / 64) 64 ltac:(lia)).
  set (q1 := c / 64) in *. set (q2 := q1 / 64) in *. set (q3 := q2 / 64) in *.
  set (r0 := c mod 64) in *. set (r1 := q1 mod 64) in *. set (r2 := q2 mod 64) in *.
  clearbody q1 q2 q3 r0 r1 r2. unfold_ranges.
  repeat (case_match; try lia); cbn [app utf8_decode]; unfold is_cont, in_range;
    repeat (case_match; try lia); f_equal; f_equal; lia.
Qed.

(** Induction along the scan of [code_points]. *)
Lemma utf16_ind (P : jstr -> Prop) :
  P [] ->
  (forall c s, is_high c = false -> P s -> P (c :: s)) ->
  (forall c d s, is_high c = true -> is_low d = true -> P s -> P (c :: d :: s)) ->
  (forall c s, is_high c = true -> (forall d, head s = Some d -> is_low d = false) ->
     P s -> P (c :: s)) ->
  forall s, P s.
Proof.
  intros Hnil Hone Hpair Hlone.
  assert (H : forall n s, (length s <= n)%nat -> P s).
  { induction n as [|n IH]; intros [|c s] Hl; cbn in Hl; try done; try lia.
    destruct (is_high c) eqn:Hc; [|apply Hone; [done|apply IH; lia]].
    destruct s as [|d s]; [by apply Hlone|].
    destruct (is_low d) eqn:Hd.
    - apply Hpair; [done|done|]. apply IH. cbn in Hl. lia.
    - apply Hlone; [done| |apply IH; lia]. by intros ? [= <-]. }
  intros s. by apply (H (length s)).
Qed.

Lemma code_points_pair c d s :
  is_high c = true -> is_low d = true ->
  code_points (c :: d :: s) = pair_value c d :: code_points s.
Proof. intros Hc Hd. cbn. by rewrite Hc, Hd. Qed.

Lemma code_points_lone c s :
  is_high c = true -> (forall d, head s = Some d -> is_low d = false) ->
  code_points (c :: s) = 0xFFFD :: code_points s.
Proof.
  intros Hc Hs. cbn [code_points]. rewrite Hc. destruct s as [|d s]; [done|].
  by rewrite (Hs d eq_refl).
Qed.

Lemma code_points_scalar s : jstr_ok s -> Forall scalar (code_points s).
Proof.
  induction s as [|c s Hc IH|c d s Hc Hd IH|c s Hc Hs IH] using utf16_ind.
  - constructor.
  - intros [Hu Hall]%Forall_cons. cbn. rewrite Hc. constructor; [|by apply IH].
    destruct (is_low c) eqn:Hl; unfold_ranges; lia.
  - intros [Hu [Hv Hall]%Forall_cons]%Forall_cons. rewrite code_points_pair by done.
    constructor; [|by apply IH]. unfold_ranges. lia.
  - intros [Hu Hall]%Forall_cons. rewrite code_points_lone by done.
    constructor; [|by apply IH]. unfold_ranges. lia.
Qed.

Lemma utf8_decode_encode s :
  jstr_ok s -> utf8_decode (utf8_encode s) = Some (code_points s).
Proof.
  intros Hs%code_points_scalar. unfold utf8_encode.
  induction Hs as [|c cs Hc _ IH]; [done|]. cbn.
  by rewrite utf8_decode_bytes, IH.
Qed.

Lemma units_of_pair c d :
  is_high c = true -> is_low d = true -> units_of (pair_value c d) = [c; d].
Proof.
  intros Hc Hd. unfold units_of. unfold_ranges. rewrite (proj2 (Z.ltb_ge _ _)) by lia.
  replace (0x10000 + (c - 0xD800) * 0x400 + (d - 0xDC00) - 0x10000)
    with ((d - 0xDC00) + (c - 0xD800) * 0x400) by lia.
  rewrite Z.div_add, Z.mod_add, Z.div_small, Z.mod_small by lia.
  repeat f_equal; lia.
Qed.

Lemma well_formed_pair c d s :
  is_high c = true -> is_low d = true -> well_formed (c :: d :: s) = well_formed s.
Proof. intros Hc Hd. cbn. by rewrite Hc, Hd. Qed.

Lemma well_formed_lone c s :
  is_high c = true -> (forall d, head s = Some d -> is_low d = false) ->
  well_formed (c :: s) = false.
Proof.
  intros Hc Hs. cbn [well_formed]. rewrite Hc. destruct s as [|d s]; [done|].
  by rewrite (Hs d eq_refl).
Qed.

Lemma units_of_code_points s :
  jstr_ok s -> well_formed s = true -> code_points s ≫= units_of = s.
Proof.
  induction s as [|c s Hc IH|c d s Hc Hd IH|c s Hc Hs IH] using utf16_ind; [done| | |].
  - intros [Hu Hall]%Forall_cons. cbn. rewrite Hc. intros [Hl Hw]%andb_true_iff.
    destruct (is_low c) eqn:Hlc; [done|]. cbn. rewrite IH by done.
    unfold units_of. by rewrite (proj2 (Z.ltb_lt c 0x10000)) by (unfold_ranges; lia).
  - intros [Hu [Hv Hall]%Forall_cons]%Forall_cons.
    rewrite well_formed_pair, code_points_pair by done. intros Hw. cbn.
    rewrite units_of_pair, IH by done. done.
  - intros _. by rewrite well_formed_lone.
Qed.

Lemma utf8_bytes_ok c : scalar c -> bytes_ok (utf8_bytes c).
Proof.
  intros Hc. unfold utf8_bytes. rewrite div_262144, div_4096.
  pose proof (Z.div_mod c 64 ltac:(lia)). pose proof (Z.mod_pos_bound c 64 ltac:(lia)).
  pose proof (Z.div_mod (c / 64) 64 ltac:(lia)). pose proof (Z.mod_pos_bound (c / 64) 64 ltac:(lia)).
  pose proof (Z.div_mod (c / 64 / 64) 64 ltac:(lia)). pose proof (Z.mod_pos_bound (c / 64 / 64) 64 ltac:(lia)).
  unfold bytes_ok, is_byte. unfold_ranges.
  repeat case_match; repeat constructor; lia.
Qed.

Lemma utf8_encode_ok s : jstr_ok s -> bytes_ok (utf8_encode s).
Proof.
  intros Hs%code_points_scalar. unfold utf8_encode.
  induction Hs as [|c cs Hc _ IH]; cbn; [constructor|].
  apply Forall_app; split; [by apply utf8_bytes_ok | done].
Qed.

(** The decoder object inverts the encoder object on well-formed strings that
    start with an ASCII character (every JSON text the encoders produce). *)
Lemma text_decode_encode c s :
  0 <= c < 128 -> jstr_ok s -> well_formed s = true ->
  text_decode (utf8_encode (c :: s)) = Ok (c :: s).
Proof.
  intros Hc Hs Hw. unfold text_decode.
  assert (Hnh : is_high c = false /\ is_low c = false) by (unfold_ranges; lia).
  destruct Hnh as [Hh Hl].
  assert (Hok : jstr_ok (c :: s)) by (constructor; [unfold unit_ok; lia | done]).
  assert (He : utf8_encode (c :: s) = c :: utf8_encode s).
  { unfold utf8_encode. cbn. rewrite Hh, Hl. cbn. unfold utf8_bytes at 1.
    by rewrite (proj2 (Z.ltb_lt c 0x80)) by lia. }
  assert (Hb : strip_bom (utf8_encode (c :: s)) = utf8_encode (c :: s)).
  { unfold strip_bom. rewrite He, bool_decide_false; [done|]. intros [= ->]; lia. }
  rewrite Hb, utf8_decode_encode by done.
  rewrite units_of_code_points; [done|done|]. cbn. by rewrite Hh, Hl, Hw.
Qed.
