(* ===== verification/Json.v ===== *)
(** * JSON.stringify and JSON.parse

    The two engine functions messages.ts composes with the UTF-8 objects, as
    ECMAScript defines them on plain data (null, booleans, numbers, strings,
    arrays and objects with string keys).  The main results are the round trip
    [parse_stringify] and that the parser's fuel never runs out. *)
From Stdlib Require Import SpecFloat.
From S2P Require Import Prelude JsString JsNumber Utf8.

(** ** Values *)

Unset Elimination Schemes.
Inductive json :=
  | JNull
  | JBool (b : bool)
  | JNum (n : num)
  | JStr (s : jstr)
  | JArr (l : list json)
  | JObj (o : list (jstr * json)).
Set Elimination Schemes.

Lemma json_ind (P : json -> Prop) :
  P JNull -> (forall b, P (JBool b)) -> (forall n, P (JNum n)) -> (forall s, P (JStr s)) ->
  (forall l, Forall P l -> P (JArr l)) ->
  (forall o, Forall (fun kv => P kv.2) o -> P (JObj o)) ->
  forall v, P v.
Proof.
  intros Hnull Hbool Hnum Hstr Harr Hobj.
  fix IH 1. intros [| | | |l|o]; [done|done|done|done| |].
  - apply Harr. induction l; constructor; [apply IH | done].
  - apply Hobj. induction o; constructor; [apply IH | done].
Qed.

(** [obj[key]] on a parsed object: the last property set under that key. *)
Definition obj_get (key : jstr) (o : list (jstr * json)) : option json :=
  list_find (fun kv => kv.1 = key) o ≫= fun '(_, (_, v)) => Some v.

(** [CreateDataProperty]: a repeated key keeps its place and takes the new
    value. *)
Fixpoint obj_set (key : jstr) (v : json) (o : list (jstr * json)) : list (jstr * json) :=
  match o with
  | [] => [(key, v)]
  | (k, w) :: r => if decide (k = key) then (k, v) :: r else (k, w) :: obj_set key v r
  end.

Definition obj_of_members (ms : list (jstr * json)) : list (jstr * json) :=
  foldl (fun o '(k, v) => obj_set k v o) [] ms.

(** ** stringify *)

Definition hex_unit (d : Z) : Z := if d <? 10 then 48 + d else 87 + d.
Definition unicode_escape (c : Z) : jstr :=
  [92; 117; hex_unit (c / 4096); hex_unit (c / 256 mod 16);
   hex_unit (c / 16 mod 16); hex_unit (c mod 16)].

(** The escape of a unit that cannot stand for itself (surrogates apart). *)
Definition escape (c : Z) : option jstr :=
  if c =? 8 then Some [92; 98]
  else if c =? 9 then Some [92; 116]
  else if c =? 10 then Some [92; 110]
  else if c =? 12 then Some [92; 102]
  else if c =? 13 then Some [92; 114]
  else if c =? 34 then Some [92; 34]
  else if c =? 92 then Some [92; 92]
  else if c <? 32 then Some (unicode_escape c)
  else None.

Fixpoint quote_body (s : jstr) : jstr :=
  match s with
  | [] => []
  | c :: r =>
      match escape c with
      | Some e => e ++ quote_body r
      | None =>
          if is_high c then
            match r with
            | d :: r' => if is_low d then c :: d :: quote_body r'
                         else unicode_escape c ++ quote_body r
            | [] => unicode_escape c
            end
          else if is_low c then unicode_escape c ++ quote_body r
          else c :: quote_body r
      end
  end.

Definition quote (s : jstr) : jstr := 34 :: quote_body s ++ [34].

Fixpoint join (sep : jstr) (ws : list jstr) : jstr :=
  match ws with
  | [] => []
  | [w] => w
  | w :: ws => w ++ sep ++ join sep ws
  end.

Fixpoint stringify (v : json) : jstr :=
  match v with
  | JNull => js "null"
  | JBool b => if b then js "true" else js "false"
  | JNum n => if isFinite n then num_toString n else js "null"
  | JStr s => quote s
  | JArr l => [91] ++ join [44] (map stringify l) ++ [93]
  | JObj o => [123] ++ join [44] (map (fun kv => quote kv.1 ++ [58] ++ stringify kv.2) o) ++ [125]
  end.

(** ** parse *)

Definition is_ws (c : Z) : bool := bool_decide (c ∈ [9; 10; 13; 32]).
Definition skip_ws : jstr -> jstr := drop_class is_ws.

Definition hex_value (c : Z) : option Z :=
  if in_range 48 57 c then Some (c - 48)
  else if in_range 97 102 c then Some (c - 87)
  else if in_range 65 70 c then Some (c - 55)
  else None.

Definition hex4 (a b c d : Z) : option Z :=
  a ← hex_value a; b ← hex_value b; c ← hex_value c; d ← hex_value d;
  Some (a * 4096 + b * 256 + c * 16 + d).

Definition unescape (e : Z) : option Z :=
  if e =? 34 then Some 34 else if e =? 92 then Some 92 else if e =? 47 then Some 47
  else if e =? 98 then Some 8 else if e =? 102 then Some 12 else if e =? 110 then Some 10
  else if e =? 114 then Some 13 else if e =? 116 then Some 9 else None.

Definition cons_fst {A B} (x : A) (p : list A * B) : list A * B := (x :: p.1, p.2).

(** The rest of a string literal after its opening quote. *)
Fixpoint parse_string (s : jstr) : option (jstr * jstr) :=
  match s with
  | [] => None
  | c :: r =>
      if c =? 34 then Some ([], r)
      else if c =? 92 then
        match r with
        | [] => None
        | e :: r1 =>
            if e =? 117 then
              match r1 with
              | h1 :: h2 :: h3 :: h4 :: r4 =>
                  match hex4 h1 h2 h3 h4 with
                  | Some u => cons_fst u <$> parse_string r4
                  | None => None
                  end
              | _ => None
              end
            else match unescape e with
                 | Some u => cons_fst u <$> parse_string r1
                 | None => None
                 end
        end
      else if c <? 32 then None
      else cons_fst c <$> parse_string r
  end.

Fixpoint span (p : Z -> bool) (s : jstr) : jstr * jstr :=
  match s with
  | c :: r => if p c then let '(a, b) := span p r in (c :: a, b) else ([], s)
  | [] => ([], [])
  end.

Definition parse_fraction (s : jstr) : option (jstr * jstr) :=
  match s with
  | c :: r =>
      if c =? 46 then
        let '(fs, t) := span is_digit r in
        match fs with [] => None | _ => Some (fs, t) end
      else Some ([], s)
  | [] => Some ([], [])
  end.

Definition parse_exponent (s : jstr) : option (Z * jstr) :=
  match s with
  | c :: r =>
      if (c =? 101) || (c =? 69) then
        let '(neg, r) := match r with
                         | d :: r' => if d =? 45 then (true, r')
                                      else if d =? 43 then (false, r') else (false, r)
                         | [] => (false, [])
                         end in
        let '(es, t) := span is_digit r in
        match es with
        | [] => None
        | _ => Some (if neg then - digit_value es else digit_value es, t)
        end
      else Some (0, s)
  | [] => Some (0, [])
  end.

Definition parse_unsigned (neg : bool) (s : jstr) : option (num * jstr) :=
  let '(ds, s) := span is_digit s in
  match ds with
  | [] => None
  | d :: ds' =>
      if (d =? 48) && negb (bool_decide (ds' = [])) then None
      else
        '(fs, s) ← parse_fraction s;
        '(ex, s) ← parse_exponent s;
        Some (of_dec neg (digit_value (ds ++ fs)) (ex - Z.of_nat (length fs)), s)
  end.

Definition parse_number (s : jstr) : option (num * jstr) :=
  match s with
  | c :: r => if c =? 45 then parse_unsigned true r else parse_unsigned false s
  | [] => None
  end.

Definition parse_literal (s : jstr) : option (json * jstr) :=
  if startsWith s (js "null") then Some (JNull, drop 4 s)
  else if startsWith s (js "true") then Some (JBool true, drop 4 s)
  else if startsWith s (js "false") then Some (JBool false, drop 5 s)
  else None.

Fixpoint parse_value (fuel : nat) (s : jstr) : option (json * jstr) :=
  match fuel with
  | O => None
  | S f =>
      match skip_ws s with
      | [] => None
      | c :: r =>
          if c =? 34 then '(t, r) ← parse_string r; Some (JStr t, r)
          else if c =? 91 then
            match skip_ws r with
            | d :: r' => if d =? 93 then Some (JArr [], r')
                         else '(l, r) ← parse_elements f r; Some (JArr l, r)
            | [] => None
            end
          else if c =? 123 then
            match skip_ws r with
            | d :: r' => if d =? 125 then Some (JObj [], r')
                         else '(ms, r) ← parse_members f r; Some (JObj (obj_of_members ms), r)
            | [] => None
            end
          else if (c =? 45) || is_digit c then
            '(n, r) ← parse_number (c :: r); Some (JNum n, r)
          else parse_literal (c :: r)
      end
  end
with parse_elements (fuel : nat) (s : jstr) : option (list json * jstr) :=
  match fuel with
  | O => None
  | S f =>
      '(v, r) ← parse_value f s;
      match skip_ws r with
      | d :: r' =>
          if d =? 93 then Some ([v], r')
          else if d =? 44 then cons_fst v <$> parse_elements f r'
          else None
      | [] => None
      end
  end
with parse_members (fuel : nat) (s : jstr) : option (list (jstr * json) * jstr) :=
  match fuel with
  | O => None
  | S f =>
      match skip_ws s with
      | q :: r =>
          if q =? 34 then
            '(k, r) ← parse_string r;
            match skip_ws r with
            | co :: r =>
                if co =? 58 then
                  '(v, r) ← parse_value f r;
                  match skip_ws r with
                  | d :: r' =>
                      if d =? 125 then Some ([(k, v)], r')
                      else if d =? 44 then cons_fst (k, v) <$> parse_members f r'
                      else None
                  | [] => None
                  end
                else None
            | [] => None
            end
          else None
      | [] => None
      end
  end.

Definition parse_fuel (s : jstr) : nat := 2 * length s + 2.

(** [JSON.parse(text)]: a [SyntaxError] unless the whole text is one value. *)
Definition parse (s : jstr) : result json :=
  match parse_value (parse_fuel s) s with
  | Some (v, r) => match skip_ws r with [] => Ok v | _ => Throw SyntaxError end
  | None => Throw SyntaxError
  end.

(** ** Strings: the parser inverts [quote] *)

Lemma hex_value_unit d : 0 <= d < 16 -> hex_value (hex_unit d) = Some d.
Proof.
  intros Hd. unfold hex_value, hex_unit, in_range.
  repeat (case_match; try lia); f_equal; lia.
Qed.

Lemma hex4_unicode c :
  unit_ok c ->
  hex4 (hex_unit (c / 4096)) (hex_unit (c / 256 mod 16)) (hex_unit (c / 16 mod 16))
       (hex_unit (c mod 16)) = Some c.
Proof.
  intros Hc. unfold unit_ok in Hc.
  replace (c / 4096) with (c / 16 / 16 / 16) by (rewrite !Z.div_div by lia; done).
  replace (c / 256) with (c / 16 / 16) by (rewrite !Z.div_div by lia; done).
  pose proof (Z.div_mod c 16 ltac:(lia)). pose proof (Z.mod_pos_bound c 16 ltac:(lia)).
  pose proof (Z.div_mod (c / 16) 16 ltac:(lia)). pose proof (Z.mod_pos_bound (c / 16) 16 ltac:(lia)).
  pose proof (Z.div_mod (c / 16 / 16) 16 ltac:(lia)). pose proof (Z.mod_pos_bound (c / 16 / 16) 16 ltac:(lia)).
  unfold hex4. rewrite !hex_value_unit by lia. cbn. f_equal. lia.
Qed.

Lemma parse_string_unicode c t :
  unit_ok c -> parse_string (unicode_escape c ++ t) = cons_fst c <$> parse_string t.
Proof. intros Hc. cbn. by rewrite hex4_unicode. Qed.

Lemma parse_string_escape c e t :
  unit_ok c -> escape c = Some e -> parse_string (e ++ t) = cons_fst c <$> parse_string t.
Proof.
  intros Hc. unfold escape.
  repeat match goal with
  | |- context [if ?b then _ else _] => destruct b eqn:?;
      [intros [= <-]; first [by apply parse_string_unicode
        | match goal with H : (c =? _) = true |- _ => apply Z.eqb_eq in H as -> end; done] |]
  end.
  done.
Qed.

Lemma parse_string_raw c t :
  escape c = None -> parse_string (c :: t) = cons_fst c <$> parse_string t.
Proof.
  unfold escape. repeat (case_match; [discriminate|]). intros _. cbn.
  by repeat (case_match; [lia|]).
Qed.

Lemma escape_high c : is_high c = true -> escape c = None.
Proof. intros H. unfold_ranges. unfold escape. by repeat (case_match; [lia|]). Qed.

Lemma escape_low c : is_low c = true -> escape c = None.
Proof. intros H. unfold_ranges. unfold escape. by repeat (case_match; [lia|]). Qed.

Lemma quote_body_pair c d s :
  is_high c = true -> is_low d = true -> quote_body (c :: d :: s) = c :: d :: quote_body s.
Proof. intros Hc Hd. cbn. by rewrite (escape_high c), Hc, Hd. Qed.

Lemma quote_body_lone c s :
  is_high c = true -> (forall d, head s = Some d -> is_low d = false) ->
  quote_body (c :: s) = unicode_escape c ++ quote_body s.
Proof.
  intros Hc Hs. cbn [quote_body]. rewrite (escape_high c), Hc by done.
  destruct s as [|d s]; [done|]. by rewrite (Hs d eq_refl).
Qed.

(** One step of [quote_body] on a unit that starts no surrogate pair. *)
Lemma quote_body_one c s :
  is_high c = false ->
  quote_body (c :: s)
  = match escape c with
    | Some e => e ++ quote_body s
    | None => if is_low c then unicode_escape c ++ quote_body s else c :: quote_body s
    end.
Proof. intros Hc. cbn. by rewrite Hc. Qed.

Lemma parse_quote_body s t :
  jstr_ok s -> parse_string (quote_body s ++ 34 :: t) = Some (s, t).
Proof.
  induction s as [|c s Hc IH|c d s Hc Hd IH|c s Hc Hs IH] using utf16_ind; [done| | |].
  - intros [Hu Hall]%Forall_cons. rewrite quote_body_one by done.
    destruct (escape c) as [e|] eqn:He; [|destruct (is_low c)].
    + rewrite <- app_assoc, (parse_string_escape c), IH by done. done.
    + rewrite <- app_assoc, parse_string_unicode, IH by done. done.
    + cbn [app]. rewrite parse_string_raw, IH by done. done.
  - intros [Hu [Hv Hall]%Forall_cons]%Forall_cons. rewrite quote_body_pair by done.
    cbn [app]. rewrite !parse_string_raw, IH by auto using escape_high, escape_low. done.
  - intros [Hu Hall]%Forall_cons. rewrite quote_body_lone by done.
    rewrite <- app_assoc, parse_string_unicode, IH by done. done.
Qed.

(** ** Numbers *)

(** What may follow a value in the texts [stringify] produces. *)
Definition delimited (t : jstr) : Prop :=
  match t with [] => True | c :: _ => c = 44 \/ c = 93 \/ c = 125 end.

Lemma span_app p a t :
  Forall (fun c => p c = true) a -> (forall c, head t = Some c -> p c = false) ->
  span p (a ++ t) = (a, t).
Proof.
  intros Ha Ht. induction Ha as [|c a Hc _ IH]; cbn.
  - destruct t as [|c t]; [done|]. cbn. by rewrite (Ht c eq_refl).
  - by rewrite Hc, IH.
Qed.

Lemma delimited_not_digit t c : delimited t -> head t = Some c -> is_digit c = false.
Proof. destruct t; cbn; [done|]. intros H [= ->]. destruct H as [->|[->| ->]]; done. Qed.

Lemma parse_fraction_delimited t : delimited t -> parse_fraction t = Some ([], t).
Proof. destruct t; cbn; [done|]. intros [->|[->| ->]]; done. Qed.

Lemma parse_exponent_delimited t : delimited t -> parse_exponent t = Some (0, t).
Proof. destruct t; cbn; [done|]. intros [->|[->| ->]]; done. Qed.

Lemma parse_digits neg n t :
  0 <= n < 2 ^ 53 -> delimited t ->
  parse_unsigned neg (dec_digits 400 n ++ t) = Some (of_dec neg n 0, t).
Proof.
  intros Hn Ht.
  destruct (dec_digits_spec 400 n (conj (proj1 Hn) (dec_bound n (proj2 Hn))))
    as (Hv & Hd & Hne & Hh).
  unfold parse_unsigned.
  rewrite (span_app is_digit _ t Hd (fun c => delimited_not_digit t c Ht)).
  destruct (Z.eq_dec n 0) as [->|Hn0].
  { cbn. rewrite parse_fraction_delimited by done. cbn.
    by rewrite parse_exponent_delimited. }
  specialize (Hh Hn0). specialize (Hne ltac:(done)).
  destruct (dec_digits 400 n) as [|d ds]; [done|]. cbn in Hh.
  rewrite (proj2 (Z.eqb_neq d 48)) by congruence. cbn [andb].
  rewrite parse_fraction_delimited by done. cbn [mbind option_bind].
  rewrite parse_exponent_delimited by done. cbn [mbind option_bind].
  by rewrite app_nil_r, Hv.
Qed.

Lemma dec_digits_head n :
  0 <= n < 2 ^ 53 -> exists d ds, dec_digits 400 n = d :: ds /\ is_digit d = true.
Proof.
  intros Hn. destruct (dec_digits_spec 400 n (conj (proj1 Hn) (dec_bound n (proj2 Hn))))
    as (_ & Hd & Hne & _).
  specialize (Hne ltac:(done)). destruct Hd as [|d ds]; [done|]. eauto.
Qed.

Lemma of_dec_int_neg z : - 2 ^ 53 < z < 0 -> of_dec true (- z) 0 = of_Z z.
Proof.
  intros Hz. destruct z as [|p|p]; [lia|lia|]. change (- Zneg p) with (Zpos p).
  assert (Z.log2 (Zpos p) < 53) by (apply Z.log2_lt_pow2; lia).
  pose proof (Z.log2_nonneg (Zpos p)).
  unfold of_dec. rewrite (proj2 (Z.ltb_ge 1100 _)), (proj2 (Z.ltb_ge _ (-1100))) by lia.
  cbn [Z.leb Z.compare]. by rewrite Z.mul_1_r.
Qed.

Lemma parse_safe_number z t :
  safe z -> delimited t -> parse_number (dec_string z ++ t) = Some (of_Z z, t).
Proof.
  intros Hz Ht. unfold safe in Hz. unfold dec_string.
  destruct (Z.ltb_spec z 0).
  - cbn [app parse_number]. rewrite Z.eqb_refl, parse_digits by (done || lia).
    by rewrite of_dec_int_neg by lia.
  - destruct (dec_digits_head z ltac:(lia)) as (d & ds & Hd & Hdig).
    unfold parse_number. rewrite Hd. cbn [app].
    unfold is_digit, is_09, in_range in Hdig.
    rewrite (proj2 (Z.eqb_neq d 45)) by lia.
    change (d :: ds ++ t) with ((d :: ds) ++ t). rewrite <- Hd.
    by rewrite parse_digits, of_dec_int by (done || lia).
Qed.

(** ** Values *)

(** The values whose printed form determines them: strings of code units,
    integers below 2^53 in magnitude, objects without repeated keys. *)
Fixpoint printable (v : json) : Prop :=
  match v with
  | JNull | JBool _ => True
  | JNum n => exists z, safe z /\ n = of_Z z
  | JStr s => jstr_ok s
  | JArr l => foldr (fun v P => printable v /\ P) True l
  | JObj o => NoDup o.*1 /\ foldr (fun kv P => (jstr_ok kv.1 /\ printable kv.2) /\ P) True o
  end.

Lemma printable_arr l : printable (JArr l) <-> Forall printable l.
Proof. cbn. induction l as [|v l IH]; cbn; [done|]. by rewrite Forall_cons, IH. Qed.

Lemma printable_obj o :
  printable (JObj o) <-> NoDup o.*1 /\ Forall (fun kv => jstr_ok kv.1 /\ printable kv.2) o.
Proof.
  cbn. f_equiv. induction o as [|v l IH]; cbn; [done|]. by rewrite Forall_cons, IH.
Qed.

Lemma obj_set_fresh k v o : k ∉ o.*1 -> obj_set k v o = o ++ [(k, v)].
Proof.
  induction o as [|[k' w] o IH]; cbn; [done|].
  intros [Hne Hk]%not_elem_of_cons. by rewrite decide_False, IH.
Qed.

Lemma obj_of_members_id ms : NoDup ms.*1 -> obj_of_members ms = ms.
Proof.
  intros Hnd. unfold obj_of_members.
  enough (H : forall acc, NoDup (acc ++ ms).*1 ->
    foldl (fun o '(k, v) => obj_set k v o) acc ms = acc ++ ms) by apply (H [] Hnd).
  clear Hnd. induction ms as [|[k v] ms IH]; intros acc Hnd; cbn; [by rewrite app_nil_r|].
  rewrite fmap_app in Hnd. cbn in Hnd. pose proof Hnd as (_ & Hk & _)%NoDup_app.
  rewrite obj_set_fresh.
  - rewrite IH, <- app_assoc; [done|]. by rewrite <- app_assoc, fmap_app.
  - intros Hin. by apply (Hk k Hin), elem_of_cons; left.
Qed.

Lemma obj_get_cons k k' v o :
  obj_get k ((k', v) :: o) = if decide (k' = k) then Some v else obj_get k o.
Proof.
  unfold obj_get. cbn. case_decide; [done|].
  destruct (list_find _ o) as [[i [? ?]]|]; done.
Qed.

(** The first unit of a printed value is no white space and no closing
    bracket. *)
Definition opens (s : jstr) : Prop :=
  exists c r, s = c :: r /\ is_ws c = false /\ c <> 93 /\ c <> 125.

Lemma opens_app s t : opens s -> opens (s ++ t).
Proof. intros (c & r & -> & H). exists c, (r ++ t). done. Qed.

Lemma is_ws_false c : c <> 9 -> c <> 10 -> c <> 13 -> c <> 32 -> is_ws c = false.
Proof. intros. unfold is_ws. apply bool_decide_false. rewrite !elem_of_cons, elem_of_nil. naive_solver. Qed.

Lemma skip_ws_opens s : opens s -> skip_ws s = s.
Proof. intros (c & r & -> & H & _). unfold skip_ws. cbn. by rewrite H. Qed.

Lemma stringify_opens v : printable v -> opens (stringify v).
Proof.
  destruct v as [|b|n|s|l|o]; cbn [stringify printable].
  - intros _. by exists 110, (js "ull").
  - intros _. destruct b; [by exists 116, (js "rue") | by exists 102, (js "alse")].
  - intros (z & Hz & ->). rewrite isFinite_of_Z, toString_of_Z by done.
    unfold dec_string, safe in *. destruct (Z.ltb_spec z 0).
    + by exists 45, (dec_digits 400 (- z)).
    + destruct (dec_digits_head z ltac:(lia)) as (d & ds & -> & Hd).
      unfold is_digit, is_09, in_range in Hd. exists d, ds.
      split; [done|]. split; [apply is_ws_false; lia | lia].
  - intros _. by eexists 34, _.
  - intros _. by eexists 91, _.
  - intros _. by eexists 123, _.
Qed.

Definition roundtrips (v : json) : Prop :=
  exists f0, forall f t, (f0 <= f)%nat -> delimited t ->
    parse_value f (stringify v ++ t) = Some (v, t).

Lemma join_cons sep w ws :
  ws <> [] -> join sep (w :: ws) = w ++ sep ++ join sep ws.
Proof. by destruct ws. Qed.

Lemma skip_ws_at c t : is_ws c = false -> skip_ws (c :: t) = c :: t.
Proof. intros H. unfold skip_ws. cbn. by rewrite H. Qed.

Lemma parse_elements_join l :
  Forall roundtrips l -> l <> [] ->
  exists f0, forall f t, (f0 <= f)%nat ->
    parse_elements f (join [44] (map stringify l) ++ 93 :: t) = Some (l, t).
Proof.
  induction 1 as [|v l [fv Hv] Hl IH]; [done|]. intros _.
  destruct (decide (l = [])) as [->|Hne].
  - exists (S fv). intros [|f] t Hf; [lia|]. cbn [parse_elements map join].
    rewrite Hv by (cbn; lia || tauto). done.
  - destruct (IH Hne) as [fl Hfl]. exists (S (fv + fl)).
    intros [|f] t Hf; [lia|]. cbn [parse_elements map].
    rewrite join_cons by (by destruct l). rewrite <- !app_assoc.
    rewrite Hv by (cbn; lia || tauto). cbn [mbind option_bind app].
    rewrite skip_ws_at by done. cbn.
    by rewrite Hfl by lia.
Qed.

Definition member_text (kv : jstr * json) : jstr := quote kv.1 ++ [58] ++ stringify kv.2.

Lemma parse_members_join o :
  Forall (fun kv => jstr_ok kv.1 /\ printable kv.2) o ->
  Forall (fun kv => roundtrips kv.2) o -> o <> [] ->
  exists f0, forall f t, (f0 <= f)%nat ->
    parse_members f (join [44] (map member_text o) ++ 125 :: t) = Some (o, t).
Proof.
  induction 1 as [|[k v] o [Hk Hp] Ho IH]; [done|].
  intros [[fv Hv] Hr]%Forall_cons _. cbn [fst snd] in *.
  pose proof (skip_ws_opens _ (opens_app _ [] (stringify_opens v Hp))) as _.
  assert (Hstep : forall f s, parse_members (S f) (member_text (k, v) ++ s)
    = '(v, r) ← parse_value f (stringify v ++ s);
      match skip_ws r with
      | d :: r' => if d =? 125 then Some ([(k, v)], r')
                   else if d =? 44 then cons_fst (k, v) <$> parse_members f r' else None
      | [] => None
      end).
  { intros f s. unfold member_text, quote. cbn [fst snd parse_members app].
    rewrite skip_ws_at by done. cbn [Z.eqb].
    change (34 =? 34) with true. cbn iota beta.
    rewrite <- !app_assoc. cbn [app]. rewrite parse_quote_body by done.
    cbn [mbind option_bind]. rewrite skip_ws_at by done. done. }
  destruct (decide (o = [])) as [->|Hne].
  - exists (S fv). intros [|f] t Hf; [lia|]. cbn [map join].
    rewrite Hstep, Hv by (cbn; lia || tauto). done.
  - destruct (IH Hr Hne) as [fl Hfl]. exists (S (fv + fl)).
    intros [|f] t Hf; [lia|]. cbn [map].
    rewrite join_cons by (by destruct o). rewrite <- !app_assoc.
    rewrite Hstep, Hv by (cbn; lia || tauto). cbn [mbind option_bind app].
    rewrite skip_ws_at by done. cbn.
    by rewrite Hfl by lia.
Qed.

Lemma join_opens sep w ws : opens w -> opens (join sep (w :: ws)).
Proof. destruct ws; [done|]. rewrite join_cons by done. apply opens_app. Qed.

Lemma parse_value_number f z t :
  safe z -> delimited t -> parse_value (S f) (dec_string z ++ t) = Some (JNum (of_Z z), t).
Proof.
  intros Hz Ht. pose proof (parse_safe_number z t Hz Ht) as Hp.
  assert (Hop : opens (dec_string z)).
  { pose proof (stringify_opens (JNum (of_Z z))) as H. cbn in H.
    rewrite isFinite_of_Z, toString_of_Z in H by done. apply H. eauto. }
  cbn [parse_value]. rewrite skip_ws_opens by by apply opens_app.
  assert (Hd : exists c r, dec_string z = c :: r /\ (c =? 45) || is_digit c = true).
  { unfold dec_string, safe in *. destruct (Z.ltb_spec z 0); [by do 2 eexists|].
    destruct (dec_digits_head z ltac:(lia)) as (d & ds & -> & Hd).
    exists d, ds. by rewrite Hd, orb_true_r. }
  destruct Hd as (c & r & Hc & Hd). rewrite Hc in *. cbn [app] in *.
  assert (Hcr : c = 45 \/ 48 <= c <= 57).
  { unfold is_digit, is_09, in_range in Hd. lia. }
  repeat (case_match; [lia|]).
  by rewrite Hd, Hp.
Qed.

Lemma parse_value_bracket f c r s :
  c = 91 \/ c = 123 -> opens r ->
  parse_value (S f) (c :: r ++ s)
  = (if c =? 91 then '(l, r) ← parse_elements f (r ++ s); Some (JArr l, r)
     else '(ms, r) ← parse_members f (r ++ s); Some (JObj (obj_of_members ms), r)).
Proof.
  intros Hc (d & r' & -> & Hw & H93 & H125). cbn [parse_value app].
  rewrite skip_ws_at by (by destruct Hc as [-> | ->]).
  rewrite skip_ws_at by done.
  rewrite (proj2 (Z.eqb_neq d 93)), (proj2 (Z.eqb_neq d 125)) by done.
  by destruct Hc as [-> | ->].
Qed.

Lemma printable_roundtrips v : printable v -> roundtrips v.
Proof.
  induction v as [|b|n|s|l IH|o IH] using json_ind; intros Hp.
  - exists 1%nat. intros [|f] t Hf Ht; [lia|]. done.
  - exists 1%nat. intros [|f] t Hf Ht; [lia|]. by destruct b.
  - destruct Hp as (z & Hz & ->). exists 1%nat. intros [|f] t Hf Ht; [lia|].
    cbn [stringify]. rewrite isFinite_of_Z, toString_of_Z by done.
    by apply parse_value_number.
  - exists 1%nat. intros [|f] t Hf Ht; [lia|]. cbn [stringify parse_value]. unfold quote.
    cbn [app]. rewrite skip_ws_at by done. cbn [Z.eqb]. change (34 =? 34) with true.
    cbn iota beta. rewrite <- app_assoc. cbn [app]. by rewrite parse_quote_body.
  - apply printable_arr in Hp. destruct (decide (l = [])) as [->|Hne].
    { exists 1%nat. intros [|f] t Hf Ht; [lia|]. done. }
    assert (Hr : Forall roundtrips l).
    { by apply (Forall_mp _ _ _ IH). }
    destruct (parse_elements_join l Hr Hne) as [f0 H0].
    exists (S f0). intros [|f] t Hf Ht; [lia|]. cbn [stringify app]. rewrite <- app_assoc.
    rewrite parse_value_bracket; [|by left|].
    + cbn [app]. rewrite H0 by lia. done.
    + destruct l as [|v l]; [done|]. apply Forall_cons in Hp as [Hp _].
      by apply join_opens, stringify_opens.
  - apply printable_obj in Hp as [Hnd Hp]. destruct (decide (o = [])) as [->|Hne].
    { exists 1%nat. intros [|f] t Hf Ht; [lia|]. done. }
    assert (Hr : Forall (fun kv => roundtrips kv.2) o).
    { apply (Forall_mp _ _ _ IH). eapply Forall_impl; [exact Hp|]. by intros ? []. }
    destruct (parse_members_join o Hp Hr Hne) as [f0 H0].
    exists (S f0). intros [|f] t Hf Ht; [lia|]. cbn [stringify app]. rewrite <- app_assoc.
    rewrite parse_value_bracket; [|by right|].
    + cbn [app]. change (map _ o) with (map member_text o).
      rewrite H0 by lia. cbn. by rewrite obj_of_members_id.
    + destruct o as [|kv o]; [done|]. apply join_opens. by eexists 34, _.
Qed.

(** ** The fuel is enough *)

Lemma drop_class_length p s : (length (drop_class p s) <= length s)%nat.
Proof. induction s as [|c s IH]; cbn; [lia|]. case_match; cbn; lia. Qed.

Lemma skip_ws_length s c r : skip_ws s = c :: r -> (length r < length s)%nat.
Proof. intros H. pose proof (drop_class_length is_ws s) as Hl. unfold skip_ws in H. rewrite H in Hl. cbn in Hl. lia. Qed.

Lemma span_length p s a b : span p s = (a, b) -> length s = (length a + length b)%nat.
Proof.
  revert a b. induction s as [|c s IH]; cbn; intros a b; [by intros [= <- <-]|].
  destruct (p c); [|by intros [= <- <-]].
  destruct (span p s) as [a' b']. intros [= <- <-]. cbn. by rewrite (IH a' b').
Qed.

Lemma cons_fst_Some {A B} (x : A) (o : option (list A * B)) l r :
  cons_fst x <$> o = Some (l, r) -> exists l', o = Some (l', r) /\ l = x :: l'.
Proof. destruct o as [[l' r']|]; cbn; [|done]. intros [= <- <-]. eauto. Qed.

Lemma parse_string_length s a r : parse_string s = Some (a, r) -> (length r < length s)%nat.
Proof.
  revert a. induction s as [s IH] using (induction_ltof1 _ (@length Z)). unfold ltof in IH.
  intros a. destruct s as [|c s]; [done|]. cbn [parse_string].
  destruct (c =? 34); [intros [= <- <-]; cbn; lia|].
  destruct (c =? 92).
  - destruct s as [|e s]; [done|]. destruct (e =? 117).
    + destruct s as [|h1 [|h2 [|h3 [|h4 s]]]]; try done. case_match; [|done].
      intros (a' & Hr & _)%cons_fst_Some. apply IH in Hr; cbn in *; lia.
    + case_match; [|done]. intros (a' & Hr & _)%cons_fst_Some. apply IH in Hr; cbn in *; lia.
  - destruct (c <? 32); [done|].
    intros (a' & Hr & _)%cons_fst_Some. apply IH in Hr; cbn in *; lia.
Qed.

Lemma parse_fraction_length s a r : parse_fraction s = Some (a, r) -> (length r <= length s)%nat.
Proof.
  unfold parse_fraction. destruct s as [|c s]; [by intros [= <- <-]|].
  case_match; [|by intros [= <- <-]].
  destruct (span is_digit s) as [fs t] eqn:E. apply span_length in E.
  destruct fs; [done|]. intros [= <- <-]. cbn in *. lia.
Qed.

Lemma parse_exponent_length s a r : parse_exponent s = Some (a, r) -> (length r <= length s)%nat.
Proof.
  unfold parse_exponent. destruct s as [|c s]; [by intros [= <- <-]|].
  case_match; [|by intros [= <- <-]].
  match goal with |- (let '(_, _) := ?m in _) = _ -> _ => destruct m as [neg s'] eqn:Es end.
  assert (length s' <= length s)%nat.
  { destruct s as [|d s]; [by injection Es as _ <-|].
    repeat case_match; injection Es as _ <-; cbn; lia. }
  destruct (span is_digit s') as [es t] eqn:E. apply span_length in E.
  destruct es; [done|]. intros [= <- <-]. cbn in *. lia.
Qed.

Lemma parse_unsigned_length neg s v r : parse_unsigned neg s = Some (v, r) -> (length r < length s)%nat.
Proof.
  unfold parse_unsigned. destruct (span is_digit s) as [ds t] eqn:E. apply span_length in E.
  destruct ds as [|d ds]; [done|]. case_match; [done|].
  destruct (parse_fraction t) as [[fs t1]|] eqn:Ef; [|done]. cbn.
  destruct (parse_exponent t1) as [[ex t2]|] eqn:Ee; [|done]. cbn.
  intros [= <- <-]. apply parse_fraction_length in Ef. apply parse_exponent_length in Ee.
  cbn in E. lia.
Qed.

Lemma parse_number_length s v r : parse_number s = Some (v, r) -> (length r < length s)%nat.
Proof.
  unfold parse_number. destruct s as [|c s]; [done|].
  case_match; intros Hr%parse_unsigned_length; cbn in *; lia.
Qed.

Lemma parse_literal_length s v r : s <> [] -> parse_literal s = Some (v, r) -> (length r < length s)%nat.
Proof.
  unfold parse_literal. intros Hs.
  assert (0 < length s)%nat by (destruct s; [done | cbn; lia]).
  repeat case_match; intros H'; simplify_eq; rewrite length_drop; lia.
Qed.

(** What each parser returns is shorter than what it was given. *)
Lemma parse_shorter f :
  (forall s v r, parse_value f s = Some (v, r) -> (length r < length s)%nat)
  /\ (forall s l r, parse_elements f s = Some (l, r) -> (length r < length s)%nat)
  /\ (forall s l r, parse_members f s = Some (l, r) -> (length r < length s)%nat).
Proof.
  induction f as [|f (IHv & IHe & IHm)]; [done|].
  split; [|split]; intros s v r; cbn [parse_value parse_elements parse_members].
  - destruct (skip_ws s) as [|c s1] eqn:E; [done|]. apply skip_ws_length in E.
    destruct (c =? 34).
    { intros ([a t] & H%parse_string_length & [= <- <-])%bind_Some. lia. }
    destruct (c =? 91).
    { destruct (skip_ws s1) as [|d s2] eqn:E2; [done|]. apply skip_ws_length in E2.
      case_match; [intros [= <- <-]; lia|].
      intros ([a t] & Hr%IHe & [= <- <-])%bind_Some. lia. }
    destruct (c =? 123).
    { destruct (skip_ws s1) as [|d s2] eqn:E2; [done|]. apply skip_ws_length in E2.
      case_match; [intros [= <- <-]; lia|].
      intros ([a t] & Hr%IHm & [= <- <-])%bind_Some. lia. }
    case_match.
    + intros ([a t] & Hr%parse_number_length & [= <- <-])%bind_Some. cbn in Hr. lia.
    + intros Hr%parse_literal_length; [|done]. cbn in Hr. lia.
  - intros ([a t] & H%IHv & Hk)%bind_Some.
    destruct (skip_ws t) as [|d s2] eqn:E2; [done|]. apply skip_ws_length in E2.
    destruct (d =? 93); [injection Hk as _ <-; lia|]. destruct (d =? 44); [|done].
    apply cons_fst_Some in Hk as (l' & H2%IHe & _). lia.
  - destruct (skip_ws s) as [|q s1] eqn:E; [done|]. apply skip_ws_length in E.
    destruct (q =? 34); [|done].
    intros ([k t] & H%parse_string_length & Hk)%bind_Some.
    destruct (skip_ws t) as [|co s2] eqn:E2; [done|]. apply skip_ws_length in E2.
    destruct (co =? 58); [|done].
    apply bind_Some in Hk as ([a t2] & H2%IHv & Hk).
    destruct (skip_ws t2) as [|d s3] eqn:E3; [done|]. apply skip_ws_length in E3.
    destruct (d =? 125); [injection Hk as _ <-; lia|]. destruct (d =? 44); [|done].
    apply cons_fst_Some in Hk as (l' & H4%IHm & _). lia.
Qed.

Lemma bind_cong {A B} (o : option A) (k1 k2 : A -> option B) :
  (forall a, o = Some a -> k1 a = k2 a) -> o ≫= k1 = o ≫= k2.
Proof. destruct o; cbn; auto. Qed.

(** Any two fuels above the bound give the same result. *)
Lemma fuel_irrelevant n s f1 f2 :
  (length s <= n)%nat ->
  ((2 * n + 2 <= f1)%nat -> (2 * n + 2 <= f2)%nat -> parse_value f1 s = parse_value f2 s)
  /\ ((2 * n + 3 <= f1)%nat -> (2 * n + 3 <= f2)%nat ->
      parse_elements f1 s = parse_elements f2 s /\ parse_members f1 s = parse_members f2 s).
Proof.
  revert s f1 f2. induction n as [|n IH]; intros s f1 f2 Hs.
  { destruct s; [|cbn in Hs; lia].
    split; intros H1 H2; destruct f1 as [|[|f1]], f2 as [|[|f2]]; try lia; done. }
  assert (Hval : forall f1 f2, (2 * S n + 2 <= f1)%nat -> (2 * S n + 2 <= f2)%nat ->
            parse_value f1 s = parse_value f2 s).
  { clear f1 f2. intros [|f1] [|f2] H1 H2; try lia. cbn [parse_value].
    destruct (skip_ws s) as [|c s1] eqn:E; [done|]. apply skip_ws_length in E.
    destruct (IH s1 f1 f2 ltac:(lia)) as [_ [He Hm]]; [lia|lia|]. by rewrite He, Hm. }
  split; [auto|]. intros H1 H2. destruct f1 as [|f1], f2 as [|f2]; try lia.
  cbn [parse_elements parse_members]. split.
  - rewrite (Hval f1 f2) by lia. apply bind_cong. intros [v r] Hv.
    apply (proj1 (parse_shorter f2)) in Hv.
    destruct (skip_ws r) as [|d s2] eqn:E2; [done|]. apply skip_ws_length in E2.
    destruct (IH s2 f1 f2 ltac:(lia)) as [_ [He Hm]]; [lia|lia|]. by rewrite He.
  - destruct (skip_ws s) as [|q s1] eqn:E; [done|]. apply skip_ws_length in E.
    destruct (q =? 34); [|done]. apply bind_cong. intros [k t] Hk%parse_string_length.
    destruct (skip_ws t) as [|co s2] eqn:E2; [done|]. apply skip_ws_length in E2.
    destruct (co =? 58); [|done].
    destruct (IH s2 f1 f2 ltac:(lia)) as [Hv _]. rewrite Hv by lia.
    apply bind_cong. intros [v r] Hr%(proj1 (parse_shorter f2)).
    destruct (skip_ws r) as [|d s3] eqn:E3; [done|]. apply skip_ws_length in E3.
    destruct (IH s3 f1 f2 ltac:(lia)) as [_ [_ Hm]]; [lia|lia|]. by rewrite Hm.
Qed.

Lemma parse_fuel_enough s f :
  (parse_fuel s <= f)%nat -> parse_value f s = parse_value (parse_fuel s) s.
Proof. intros Hf. unfold parse_fuel in *. apply (fuel_irrelevant (length s)); lia. Qed.

Lemma parse_stringify v : printable v -> parse (stringify v) = Ok v.
Proof.
  intros Hp. destruct (printable_roundtrips v Hp) as [f0 H].
  unfold parse. rewrite <- (parse_fuel_enough _ (f0 + parse_fuel (stringify v))) by lia.
  rewrite <- (app_nil_r (stringify v)) at 2. rewrite H by (lia || done). done.
Qed.

(** ** Printed texts are well-formed UTF-16 *)

Definition text_ok (s : jstr) : Prop := jstr_ok s /\ well_formed s = true.

Lemma well_formed_app a b :
  well_formed a = true -> well_formed b = true -> well_formed (a ++ b) = true.
Proof.
  induction a as [|c a Hc IH|c d a Hc Hd IH|c a Hc Ha IH] using utf16_ind; intros Hwa Hwb;
    [done| | |].
  - cbn in *. rewrite Hc in *. apply andb_true_iff in Hwa as [-> Hwa]. by apply IH.
  - cbn [app]. rewrite well_formed_pair in * by done. by apply IH.
  - by rewrite well_formed_lone in Hwa.
Qed.

Lemma text_ok_app a b : text_ok a -> text_ok b -> text_ok (a ++ b).
Proof.
  intros [??] [??]. split; [by apply Forall_app | by apply well_formed_app].
Qed.

Lemma text_ok_ascii s : Forall (fun c => 0 <= c < 128) s -> text_ok s.
Proof.
  intros H. split.
  - eapply Forall_impl; [exact H|]. unfold unit_ok. cbn. lia.
  - induction H as [|c s Hc _ IH]; [done|]. cbn.
    assert (Hs : is_high c = false /\ is_low c = false) by (unfold_ranges; lia).
    by destruct Hs as [-> ->].
Qed.

#[export] Hint Resolve text_ok_app : smx.

Lemma text_ok_js s : forallb (fun c => c <? 128) (js s) = true -> text_ok (js s).
Proof.
  intros H. apply text_ok_ascii. unfold js in *.
  induction (String.list_ascii_of_string s) as [|a l IH]; cbn in *; [constructor|].
  apply andb_true_iff in H as [H1 H2]. constructor; [lia | auto].
Qed.

Lemma hex_unit_ascii d : 0 <= d < 16 -> 0 <= hex_unit d < 128.
Proof. unfold hex_unit. case_match; lia. Qed.

Lemma text_ok_unicode c : unit_ok c -> text_ok (unicode_escape c).
Proof.
  intros Hc. unfold unit_ok in Hc. apply text_ok_ascii. unfold unicode_escape.
  assert (0 <= c / 4096 < 16).
  { split; [apply Z.div_pos; lia | apply Z.div_lt_upper_bound; lia]. }
  repeat constructor; try apply hex_unit_ascii; try lia; apply Z.mod_pos_bound; lia.
Qed.

Lemma text_ok_escape c e : unit_ok c -> escape c = Some e -> text_ok e.
Proof.
  intros Hc. unfold escape.
  repeat (case_match; [intros [= <-]; first [by apply text_ok_unicode
    | apply text_ok_ascii; repeat constructor; lia]|]).
  done.
Qed.

Lemma text_ok_quote_body s : jstr_ok s -> text_ok (quote_body s).
Proof.
  induction s as [|c s Hc IH|c d s Hc Hd IH|c s Hc Hs IH] using utf16_ind.
  - intros _. split; [constructor | done].
  - intros [Hu Hall]%Forall_cons. rewrite quote_body_one by done.
    destruct (escape c) as [e|] eqn:He; [|destruct (is_low c) eqn:Hl].
    + apply text_ok_app; [by eapply text_ok_escape | auto].
    + apply text_ok_app; [by apply text_ok_unicode | auto].
    + destruct (IH Hall) as [Hok Hw]. split; [by constructor|]. cbn. by rewrite Hc, Hl.
  - intros [Hu [Hv Hall]%Forall_cons]%Forall_cons. rewrite quote_body_pair by done.
    destruct (IH Hall) as [Hok Hw].
    split; [by do 2 (constructor; [done|])|]. by rewrite well_formed_pair.
  - intros [Hu Hall]%Forall_cons. rewrite quote_body_lone by done.
    apply text_ok_app; [by apply text_ok_unicode | auto].
Qed.

Lemma text_ok_one c : 0 <= c < 128 -> text_ok [c].
Proof. intros. apply text_ok_ascii. constructor; [done | constructor]. Qed.

Lemma text_ok_quote s : jstr_ok s -> text_ok (quote s).
Proof.
  intros Hs. apply (text_ok_app [34]); [by apply text_ok_one|].
  apply text_ok_app; [by apply text_ok_quote_body | by apply text_ok_one].
Qed.

Lemma text_ok_join ws : Forall text_ok ws -> text_ok (join [44] ws).
Proof.
  induction 1 as [|w ws Hw Hws IH]; [by split; [constructor|]|].
  destruct (decide (ws = [])) as [->|Hne]; [done|].
  rewrite join_cons by done. apply text_ok_app; [done|].
  apply text_ok_app; [by apply text_ok_one | done].
Qed.

Lemma text_ok_dec_string z : safe z -> text_ok (dec_string z).
Proof.
  intros Hz. unfold dec_string, safe in *.
  assert (Hd : forall n, 0 <= n < 2 ^ 53 -> text_ok (dec_digits 400 n)).
  { intros n Hn. apply text_ok_ascii.
    destruct (dec_digits_spec 400 n (conj (proj1 Hn) (dec_bound n (proj2 Hn)))) as (_ & Hd & _).
    eapply Forall_impl; [exact Hd|]. unfold is_digit, is_09, in_range. cbn. lia. }
  destruct (Z.ltb_spec z 0); [|apply Hd; lia].
  apply (text_ok_app [45]); [by apply text_ok_one | apply Hd; lia].
Qed.

Lemma text_ok_stringify v : printable v -> text_ok (stringify v).
Proof.
  induction v as [|b|n|s|l IH|o IH] using json_ind; intros Hp; cbn [stringify].
  - apply text_ok_js. by vm_compute.
  - destruct b; apply text_ok_js; by vm_compute.
  - destruct Hp as (z & Hz & ->). rewrite isFinite_of_Z, toString_of_Z by done.
    by apply text_ok_dec_string.
  - by apply text_ok_quote.
  - apply printable_arr in Hp. apply text_ok_app; [by apply text_ok_one|].
    apply text_ok_app; [|by apply text_ok_one]. apply text_ok_join, Forall_map.
    by apply (Forall_mp _ _ _ IH).
  - apply printable_obj in Hp as [_ Hp]. apply text_ok_app; [by apply text_ok_one|].
    apply text_ok_app; [|by apply text_ok_one]. apply text_ok_join, Forall_map.
    eapply Forall_mp; [|exact Hp]. eapply Forall_impl; [exact IH|].
    intros [k v] Hv [Hk Hpv]. cbn [fst snd] in *.
    apply text_ok_app; [by apply text_ok_quote|].
    apply text_ok_app; [by apply text_ok_one | auto].
Qed.

(** Encoding a printable object to UTF-8 and back is the identity. *)
Lemma json_bytes_roundtrip o :
  printable (JObj o) ->
  (s ← text_decode (utf8_encode (stringify (JObj o))); parse s) = Ok (JObj o)
  /\ bytes_ok (utf8_encode (stringify (JObj o))).
Proof.
  intros Hp. pose proof (text_ok_stringify _ Hp) as [Hok Hw].
  split; [|by apply utf8_encode_ok].
  assert (Ht : text_decode (utf8_encode (stringify (JObj o))) = Ok (stringify (JObj o))).
  { cbn [stringify app] in *. apply Forall_cons in Hok as [_ Hok]. cbn in Hw.
    by apply text_decode_encode. }
  rewrite Ht. cbn [mbind result_bind]. by apply parse_stringify.
Qed.

(** The fuel [parse] takes is enough for every text: more gives the same
    answer. *)
Lemma parse_fuel_irrelevant (text : jstr) (fuel : nat) :
  (parse_fuel text <= fuel)%nat ->
  parse text
  = match parse_value fuel text with
    | Some (v, rest) => match skip_ws rest with [] => Ok v | _ => Throw SyntaxError end
    | None => Throw SyntaxError
    end.
Proof. intros Hf. unfold parse. by rewrite (parse_fuel_enough text fuel Hf). Qed.
