(* ===== verification/Messages.v ===== *)
(** * Message payloads

    Models shared/ts/src/messages.ts (and [ERROR_CODES]/[isErrorCode] of
    errors.ts): one encoder and one decoder per message type, over the JSON
    and UTF-8 functions of Json.v and Utf8.v. *)
From Stdlib Require Import SpecFloat.
From S2P Require Import Prelude Wire JsString Categories JsNumber Utf8 Json.

(** ** errors.ts *)

Definition ERROR_CODES : list jstr :=
  js <$> ["AUTH_FAILED"; "CHANNEL_TAKEN"; "VERSION_MISMATCH"; "RATE_LIMIT";
          "TRACK_LIMIT"; "MALFORMED"]%string.

Definition isErrorCode (value : jstr) : bool := includes ERROR_CODES value.

(** ** Helpers *)

Definition MAX_JSON_BYTES : nat := 4096.

Definition bad (detail : string) : Exn :=
  ProtocolError ("malformed payload: " +:+ detail) BAD_PAYLOAD.

Definition encodeJson (value : json) : result (list Z) :=
  let out := utf8_encode (stringify value) in
  if (MAX_JSON_BYTES <? length out)%nat
  then Throw (ProtocolError ("json payload too large: " +:+ prn (length out)) TOO_LARGE)
  else Ok out.

(** [!!v], where [None] is [undefined]. *)
Definition js_truthy (v : option json) : bool :=
  match v with
  | None | Some JNull => false
  | Some (JBool b) => b
  | Some (JNum x) => jeq x x && negb (jeq x num0)
  | Some (JStr s) => negb (bool_decide (s = []))
  | Some (JArr _) | Some (JObj _) => true
  end.

(** [typeof v === "object"], which [null] satisfies, and [Array.isArray(v)]. *)
Definition typeof_object (v : option json) : bool :=
  match v with Some JNull | Some (JArr _) | Some (JObj _) => true | _ => false end.
Definition is_array (v : option json) : bool :=
  match v with Some (JArr _) => true | _ => false end.

(** [JSON.parse(decoder.decode(buf))] under its [try]. *)
Definition decodeJson (buf : list Z) : result json :=
  if (MAX_JSON_BYTES <? length buf)%nat
  then Throw (ProtocolError ("json payload too large: " +:+ prn (length buf)) TOO_LARGE)
  else
    parsed ← try_catch (text ← text_decode buf; parse text)
               (Throw (ProtocolError "invalid json or utf-8" BAD_PAYLOAD));
    if negb (js_truthy (Some parsed)) || negb (typeof_object (Some parsed)) || is_array (Some parsed)
    then Throw (ProtocolError "payload must be a json object" BAD_PAYLOAD)
    else Ok parsed.

(** [v[key]]: a [TypeError] on [undefined] and [null].  For the keys the
    decoders read no array, string or prototype has a property of that name, so
    only an object's own properties count. *)
Definition prop (key : string) (v : option json) : result (option json) :=
  match v with
  | None | Some JNull => Throw TypeError
  | Some (JObj o) => Ok (obj_get (js key) o)
  | Some _ => Ok None
  end.

#[global] Arguments prop : simpl never.

(** [v === n] and [v === s] against a literal. *)
Definition is_num (v : option json) (n : Z) : bool :=
  match v with Some (JNum x) => jeq x (of_Z n) | _ => false end.
Definition is_str (v : option json) (s : jstr) : bool :=
  match v with Some (JStr t) => bool_decide (t = s) | _ => false end.

Definition strField (obj : json) (key : string) (maxLen : nat) : result jstr :=
  v ← prop key (Some obj);
  match v with
  | Some (JStr v) =>
      if (maxLen <? length v)%nat then Throw (bad ("field " +:+ key +:+ " too long")) else Ok v
  | _ => Throw (bad ("field " +:+ key +:+ " must be string"))
  end.

Definition numField (obj : json) (key : string) : result num :=
  v ← prop key (Some obj);
  match v with
  | Some (JNum v) =>
      if negb (isFinite v) || jlt v num0
      then Throw (bad ("field " +:+ key +:+ " must be non-negative finite number"))
      else Ok v
  | _ => Throw (bad ("field " +:+ key +:+ " must be non-negative finite number"))
  end.

(** The value [id] when [Number.isInteger(id) && id >= 1 && id <= MAX_TRACK_SLOT]. *)
Definition track_id (v : option json) : option Z :=
  match v with
  | Some (JNum x) =>
      match to_Z x with
      | Some id => if (id <? 1) || (MAX_TRACK_SLOT <? id) then None else Some id
      | None => None
      end
  | _ => None
  end.

(** ** HELLO *)

Record AudioFormat := mkAudio {
  codec : jstr;
  sampleRate : Z;
  channels : Z;
  frameMs : Z;
}.
Record HelloPayload := mkHello {
  version : Z;
  client : jstr;
  audio : AudioFormat;
}.

Definition encodeHello (p : HelloPayload) : result (list Z) :=
  encodeJson (JObj [
    (js "version", JNum (of_Z (version p)));
    (js "client", JStr (client p));
    (js "audio", JObj [
      (js "codec", JStr (codec (audio p)));
      (js "sample_rate", JNum (of_Z (sampleRate (audio p))));
      (js "channels", JNum (of_Z (channels (audio p))));
      (js "frame_ms", JNum (of_Z (frameMs (audio p))))])]).

Definition decodeHello (buf : list Z) : result HelloPayload :=
  obj ← decodeJson buf;
  v ← prop "version" (Some obj);
  if negb (is_num v 1) then Throw (bad "hello.version") else
  client ← strField obj "client" 128;
  audio ← prop "audio" (Some obj);
  if negb (js_truthy audio) || negb (typeof_object audio) then Throw (bad "hello.audio") else
  codec ← prop "codec" audio;
  if negb (is_str codec (js "opus")) then Throw (bad "hello.audio.codec") else
  rate ← prop "sample_rate" audio;
  if negb (is_num rate 48000) then Throw (bad "hello.audio.sample_rate") else
  ch ← prop "channels" audio;
  if negb (is_num ch 1) && negb (is_num ch 2) then Throw (bad "hello.audio.channels") else
  ms ← prop "frame_ms" audio;
  if negb (is_num ms 20) then Throw (bad "hello.audio.frame_ms") else
  Ok (mkHello 1 client (mkAudio (js "opus") 48000 (if is_num ch 1 then 1 else 2) 20)).

(** ** TRACK_LIST *)

Record TrackInfo := mkTrack {
  t_id : Z;
  t_slug : jstr;
  t_category : jstr;
  t_label : jstr;
}.

#[export] Instance TrackInfo_eq_dec : EqDecision TrackInfo.
Proof. solve_decision. Defined.

Definition track_json (t : TrackInfo) : json :=
  JObj [(js "id", JNum (of_Z (t_id t))); (js "slug", JStr (t_slug t));
        (js "category", JStr (t_category t)); (js "label", JStr (t_label t))].

Definition encodeTrackList (tracks : list TrackInfo) : result (list Z) :=
  encodeJson (JObj [(js "tracks", JArr (track_json <$> tracks))]).

(** The body of the loop over [obj.tracks]. *)
Definition decode_track (seen : gset Z) (raw : json) : result TrackInfo :=
  if negb (js_truthy (Some raw)) || negb (typeof_object (Some raw)) then Throw (bad "track entry") else
  id ← prop "id" (Some raw);
  match track_id id with
  | None => Throw (bad "track.id")
  | Some id =>
      if bool_decide (id ∈ seen) then Throw (bad "track.id duplicate") else
      slug ← strField raw "slug" 64;
      if negb (isValidSlug slug) then Throw (bad "track.slug format") else
      category ← strField raw "category" 32;
      if negb (bool_decide (category = CUSTOM_CATEGORY)) && negb (isPresetCategory category)
      then Throw (bad "track.category") else
      label ← strField raw "label" 64;
      Ok (mkTrack id slug category label)
  end.

#[global] Arguments decode_track : simpl never.
#[global] Arguments track_json : simpl never.

Fixpoint decode_tracks (seen : gset Z) (raws : list json) : result (list TrackInfo) :=
  match raws with
  | [] => Ok []
  | raw :: raws =>
      t ← decode_track seen raw;
      ts ← decode_tracks ({[t_id t]} ∪ seen) raws;
      Ok (t :: ts)
  end.

Definition decodeTrackList (buf : list Z) : result (list TrackInfo) :=
  obj ← decodeJson buf;
  tracks ← prop "tracks" (Some obj);
  match tracks with
  | Some (JArr raws) =>
      if MAX_TRACK_SLOT <? Z.of_nat (length raws) then Throw (bad "track_list too many tracks")
      else decode_tracks ∅ raws
  | _ => Throw (bad "track_list.tracks")
  end.

(** ** FINGERPRINT *)

Record FingerprintPayload := mkFingerprint { fp_hash : Z; fp_windowMs : Z }.

Definition encodeFingerprint (p : FingerprintPayload) : result (list Z) :=
  let buf := zeros 10 in
  buf ← blit 0 (be_bytes 8 (fp_hash p)) buf;
  blit 8 (be_bytes 2 (fp_windowMs p)) buf.

Definition decodeFingerprint (buf : list Z) : result FingerprintPayload :=
  if negb (length buf =? 10)%nat then Throw (bad "fingerprint length")
  else Ok (mkFingerprint (be_value (slice 0 8 buf)) (be_value (slice 8 10 buf))).

(** ** TRACK_META *)

Record TrackMetaPayload := mkMeta {
  m_title : option jstr;
  m_artist : option jstr;
  m_albumArtUrl : option jstr;
}.

(** [if (v !== undefined) out.key = v] *)
Definition opt_member (key : string) (v : option jstr) : list (jstr * json) :=
  match v with Some s => [(js key, JStr s)] | None => [] end.

Definition encodeTrackMeta (p : TrackMetaPayload) : result (list Z) :=
  encodeJson (JObj (opt_member "title" (m_title p) ++ opt_member "artist" (m_artist p)
                      ++ opt_member "album_art_url" (m_albumArtUrl p))).

(** [if (obj.key !== undefined) out = strField(obj, key, max)] *)
Definition optField (obj : json) (key : string) (maxLen : nat) : result (option jstr) :=
  v ← prop key (Some obj);
  match v with
  | None => Ok None
  | Some _ => Some <$> strField obj key maxLen
  end.

Definition decodeTrackMeta (buf : list Z) : result TrackMetaPayload :=
  obj ← decodeJson buf;
  title ← optField obj "title" 256;
  artist ← optField obj "artist" 256;
  u ← optField obj "album_art_url" 1024;
  match u with
  | Some s => if negb (startsWith s (js "https://"))
              then Throw (bad "album_art_url must be https")
              else Ok (mkMeta title artist (Some s))
  | None => Ok (mkMeta title artist None)
  end.

(** ** STATS *)

Record StatsPayload := mkStats {
  uptimeS : num;
  packetsSent : num;
  subscribers : num;
  tracksActive : num;
}.

Definition encodeStats (p : StatsPayload) : result (list Z) :=
  encodeJson (JObj [
    (js "uptime_s", JNum (uptimeS p));
    (js "packets_sent", JNum (packetsSent p));
    (js "subscribers", JNum (subscribers p));
    (js "tracks_active", JNum (tracksActive p))]).

Definition decodeStats (buf : list Z) : result StatsPayload :=
  obj ← decodeJson buf;
  uptimeS ← numField obj "uptime_s";
  packetsSent ← numField obj "packets_sent";
  subscribers ← numField obj "subscribers";
  tracksActive ← numField obj "tracks_active";
  Ok (mkStats uptimeS packetsSent subscribers tracksActive).

(** ** SUB_TRACKS *)

Definition encodeSubTracks (tracks : list Z) : result (list Z) :=
  encodeJson (JObj [(js "tracks", JArr ((fun id => JNum (of_Z id)) <$> tracks))]).

Fixpoint decode_ids (seen : gset Z) (raws : list json) : result (list Z) :=
  match raws with
  | [] => Ok []
  | raw :: raws =>
      match track_id (Some raw) with
      | None => Throw (bad "sub_tracks.id")
      | Some id =>
          if bool_decide (id ∈ seen) then Throw (bad "sub_tracks.id duplicate") else
          ids ← decode_ids ({[id]} ∪ seen) raws;
          Ok (id :: ids)
      end
  end.

Definition decodeSubTracks (buf : list Z) : result (list Z) :=
  obj ← decodeJson buf;
  tracks ← prop "tracks" (Some obj);
  match tracks with
  | Some (JArr raws) =>
      if MAX_TRACK_SLOT <? Z.of_nat (length raws) then Throw (bad "sub_tracks too many")
      else decode_ids ∅ raws
  | _ => Throw (bad "sub_tracks")
  end.

(** ** ERROR *)

Record ErrorPayload := mkError { e_code : jstr; e_message : jstr }.

Definition encodeError (p : ErrorPayload) : result (list Z) :=
  encodeJson (JObj [(js "code", JStr (e_code p)); (js "message", JStr (e_message p))]).

Definition decodeError (buf : list Z) : result ErrorPayload :=
  obj ← decodeJson buf;
  code ← strField obj "code" 32;
  if negb (isErrorCode code) then Throw (bad "error.code") else
  message ← strField obj "message" 512;
  Ok (mkError code message).

(** ** Specification: payloads by message type *)

Inductive Payload :=
  | PHello (p : HelloPayload)
  | PTrackList (ts : list TrackInfo)
  | PFingerprint (p : FingerprintPayload)
  | PTrackMeta (p : TrackMetaPayload)
  | PStats (p : StatsPayload)
  | PSubTracks (ids : list Z)
  | PError (p : ErrorPayload).

Definition payload_type (p : Payload) : MessageType :=
  match p with
  | PHello _ => Hello
  | PTrackList _ => TrackList
  | PFingerprint _ => Fingerprint
  | PTrackMeta _ => TrackMeta
  | PStats _ => Stats
  | PSubTracks _ => SubTracks
  | PError _ => Error
  end.

Definition encode_payload (p : Payload) : result (list Z) :=
  match p with
  | PHello p => encodeHello p
  | PTrackList ts => encodeTrackList ts
  | PFingerprint p => encodeFingerprint p
  | PTrackMeta p => encodeTrackMeta p
  | PStats p => encodeStats p
  | PSubTracks ids => encodeSubTracks ids
  | PError p => encodeError p
  end.

(** The decoder of a message type; AUDIO_OPUS payloads are raw. *)
Definition decode_payload (t : MessageType) (buf : list Z) : option (result Payload) :=
  match t with
  | Hello => Some (PHello <$> decodeHello buf)
  | TrackList => Some (PTrackList <$> decodeTrackList buf)
  | AudioOpus => None
  | Fingerprint => Some (PFingerprint <$> decodeFingerprint buf)
  | TrackMeta => Some (PTrackMeta <$> decodeTrackMeta buf)
  | Stats => Some (PStats <$> decodeStats buf)
  | SubTracks => Some (PSubTracks <$> decodeSubTracks buf)
  | Error => Some (PError <$> decodeError buf)
  end.

Definition track_ok (t : TrackInfo) : Prop :=
  1 <= t_id t <= MAX_TRACK_SLOT /\ slug_rule (t_slug t) /\ is_category (t_category t)
  /\ (length (t_label t) <= 64)%nat.

Definition track_list_ok (ts : list TrackInfo) : Prop :=
  (length ts <= 8)%nat /\ NoDup (t_id <$> ts) /\ Forall track_ok ts.

#[export] Instance track_ok_dec t : Decision (track_ok t).
Proof. unfold track_ok. apply _. Defined.
#[export] Instance track_list_ok_dec ts : Decision (track_list_ok ts).
Proof. unfold track_list_ok. apply _. Defined.

Definition sub_tracks_ok (ids : list Z) : Prop :=
  (length ids <= 8)%nat /\ NoDup ids /\ Forall (fun id => 1 <= id <= MAX_TRACK_SLOT) ids.

Definition opt_shorter (max : nat) (s : option jstr) : Prop :=
  match s with Some s => (length s <= max)%nat | None => True end.

Definition https (u : option jstr) : Prop :=
  match u with Some u => startsWith u (js "https://") = true | None => True end.

Definition stat_ok (x : num) : Prop := isFinite x = true /\ jlt x num0 = false.

(** What the protocol promises of each payload. *)
Definition legal (p : Payload) : Prop :=
  match p with
  | PHello p =>
      version p = 1 /\ (length (client p) <= 128)%nat /\ codec (audio p) = js "opus"
      /\ sampleRate (audio p) = 48000 /\ (channels (audio p) = 1 \/ channels (audio p) = 2)
      /\ frameMs (audio p) = 20
  | PTrackList ts => track_list_ok ts
  | PFingerprint p => 0 <= fp_hash p <= u64_max /\ 0 <= fp_windowMs p < 65536
  | PTrackMeta p =>
      opt_shorter 256 (m_title p) /\ opt_shorter 256 (m_artist p)
      /\ opt_shorter 1024 (m_albumArtUrl p) /\ https (m_albumArtUrl p)
  | PStats p =>
      stat_ok (uptimeS p) /\ stat_ok (packetsSent p) /\ stat_ok (subscribers p)
      /\ stat_ok (tracksActive p)
  | PSubTracks ids => sub_tracks_ok ids
  | PError p => isErrorCode (e_code p) = true /\ (length (e_message p) <= 512)%nat
  end.

Definition opt_jstr_ok (s : option jstr) : Prop :=
  match s with Some s => jstr_ok s | None => True end.

(** Counters: the integers a [number] holds exactly. *)
Definition counter (x : num) : Prop := exists n, 0 <= n < 2 ^ 53 /\ x = of_Z n.

(** The free text of a payload is a string of code units, and its statistics
    are counters. *)
Definition encodable (p : Payload) : Prop :=
  match p with
  | PHello p => jstr_ok (client p)
  | PTrackList ts => Forall (fun t => jstr_ok (t_label t)) ts
  | PTrackMeta p =>
      opt_jstr_ok (m_title p) /\ opt_jstr_ok (m_artist p) /\ opt_jstr_ok (m_albumArtUrl p)
  | PStats p =>
      counter (uptimeS p) /\ counter (packetsSent p) /\ counter (subscribers p)
      /\ counter (tracksActive p)
  | PError p => jstr_ok (e_message p)
  | PFingerprint _ | PSubTracks _ => True
  end.

Definition str_ok (max : nat) (s : jstr) : Prop := jstr_ok s /\ (length s <= max)%nat.

(** What a payload decoder may throw. *)
Definition payload_error (e : Exn) : Prop :=
  exists msg c, e = ProtocolError msg c /\ (c = BAD_PAYLOAD \/ c = TOO_LARGE).

(** ** Lemmas *)

Lemma encodeJson_Ok_inv o buf :
  encodeJson (JObj o) = Ok buf -> printable (JObj o) ->
  decodeJson buf = Ok (JObj o) /\ bytes_ok buf.
Proof.
  unfold encodeJson, decodeJson.
  destruct (Nat.ltb_spec MAX_JSON_BYTES (length (utf8_encode (stringify (JObj o))))) as [|Hl]; [done|].
  intros Heq Hp. assert (buf = utf8_encode (stringify (JObj o))) as -> by congruence.
  destruct (json_bytes_roundtrip o Hp) as [Hrt Hb]. split; [|done].
  destruct (Nat.ltb_spec MAX_JSON_BYTES (length (utf8_encode (stringify (JObj o))))); [lia|].
  by rewrite Hrt.
Qed.

(** *** Property accesses *)

(** What a property can be read from. *)
Definition readable (v : option json) : Prop :=
  match v with None | Some JNull => False | _ => True end.

Lemma prop_total key v : readable v -> exists r, prop key v = Ok r.
Proof. destruct v as [[]|]; cbn; intros H; first [done | by eexists]. Qed.

Lemma guarded_readable v (b : bool) : negb (js_truthy v) || b = false -> readable v.
Proof. by destruct v as [[]|]. Qed.

Lemma decodeJson_readable buf obj : decodeJson buf = Ok obj -> readable (Some obj).
Proof.
  unfold decodeJson. case_match; [done|]. intros (v & _ & Hv)%bind_Ok_inv.
  destruct (_ || is_array (Some v)) eqn:E; [done|]. injection Hv as ->.
  apply orb_false_iff in E as [E _]. by eapply guarded_readable.
Qed.

Lemma strField_str obj key max s :
  prop key (Some obj) = Ok (Some (JStr s)) -> (length s <= max)%nat -> strField obj key max = Ok s.
Proof.
  intros Hp Hl. unfold strField. rewrite Hp. cbn [mbind result_bind].
  destruct (Nat.ltb_spec max (length s)); [lia | done].
Qed.

Lemma strField_Ok_inv obj key max s :
  strField obj key max = Ok s -> prop key (Some obj) = Ok (Some (JStr s)) /\ (length s <= max)%nat.
Proof.
  unfold strField. destruct (prop key (Some obj)) as [[[]|]|]; cbn [mbind result_bind]; try done.
  destruct (Nat.ltb_spec max (length s0)); [done|]. by intros [= ->].
Qed.

Lemma track_id_of_Z id : 1 <= id <= MAX_TRACK_SLOT -> track_id (Some (JNum (of_Z id))) = Some id.
Proof.
  intros Hid. unfold MAX_TRACK_SLOT in *. unfold track_id.
  rewrite to_Z_of_Z by (unfold safe; lia). unfold MAX_TRACK_SLOT.
  case_match; [lia | done].
Qed.

Lemma track_id_Some v id : track_id v = Some id -> 1 <= id <= MAX_TRACK_SLOT.
Proof.
  unfold track_id. destruct v as [[]|]; try done. case_match; [|done].
  case_match; [done|]. intros [= ->]. lia.
Qed.

Lemma category_str_ok c : is_category c -> str_ok 32 c.
Proof.
  intros Hc. assert (Hin : c ∈ CUSTOM_CATEGORY :: PRESET_CATEGORIES).
  { apply elem_of_cons. destruct Hc as [->|Hc]; [by left | right].
    by apply bool_decide_eq_true in Hc. }
  assert (Hall : Forall (str_ok 32) (CUSTOM_CATEGORY :: PRESET_CATEGORIES)).
  { repeat constructor; vm_compute; congruence || lia. }
  by apply (proj1 (Forall_forall _ _) Hall).
Qed.

Lemma slug_str_ok s : slug_rule s -> str_ok 64 s.
Proof.
  intros [Hl [Hc _]]. split; [|lia]. eapply Forall_impl; [exact Hc|].
  intros c H. unfold is_slug_char, is_az09, is_az, is_09, in_range, dash, unit_ok in *. lia.
Qed.

Lemma is_category_test c :
  negb (bool_decide (c = CUSTOM_CATEGORY)) && negb (isPresetCategory c) = false
  <-> is_category c.
Proof.
  unfold is_category. destruct (isPresetCategory c); [rewrite andb_false_r; naive_solver|].
  rewrite andb_true_r, negb_false_iff, bool_decide_eq_true. naive_solver.
Qed.

(** *** Printable documents *)

Lemma safe_small z : 0 <= z < 2 ^ 53 -> safe z.
Proof. unfold safe. lia. Qed.

Lemma printable_int z : 0 <= z < 2 ^ 53 -> printable (JNum (of_Z z)).
Proof. intros. exists z. split; [by apply safe_small | done]. Qed.

Lemma printable_counter x : counter x -> printable (JNum x).
Proof. intros (n & Hn & ->). by apply printable_int. Qed.

Lemma js_ok s : forallb (fun c => c <? 128) (js s) = true -> jstr_ok (js s).
Proof. intros H. by apply text_ok_js. Qed.

(** One goal per member of an object literal. *)
Ltac members :=
  lazymatch goal with
  | |- Forall _ ((_, _) :: _) => apply Forall_cons_2; [cbn [fst snd] | members]
  | |- Forall _ [] => constructor
  end.

(** An object literal of the source with printable members. *)
Lemma printable_literal (ms : list (string * json)) :
  bool_decide (NoDup (js <$> ms.*1)) = true ->
  forallb (fun k => forallb (fun c => c <? 128) (js k)) ms.*1 = true ->
  Forall (fun m => printable m.2) ms ->
  printable (JObj ((fun m => (js m.1, m.2)) <$> ms)).
Proof.
  intros Hnd%bool_decide_eq_true Hk Hv. apply printable_obj. split.
  - replace (((fun m => (js m.1, m.2)) <$> ms).*1) with (js <$> ms.*1); [done|].
    clear. induction ms as [|m ms IH]; cbn; congruence.
  - clear Hnd. induction Hv as [|[k v] ms Hp Hv IH]; cbn in *; [constructor|].
    apply andb_true_iff in Hk as [Hk Hks]. constructor; [|auto].
    split; [by apply js_ok | done].
Qed.

Lemma track_json_printable t : track_ok t -> jstr_ok (t_label t) -> printable (track_json t).
Proof.
  intros (Hid & Hs & Hc & _) Hl. unfold track_json, MAX_TRACK_SLOT in *.
  apply (printable_literal [("id", _); ("slug", _); ("category", _); ("label", _)]%string);
    [by vm_compute | by vm_compute |].
  members.
  - apply printable_int. lia.
  - by apply slug_str_ok.
  - by apply category_str_ok.
  - done.
Qed.

Lemma decode_track_json seen t :
  track_ok t -> t_id t ∉ seen -> decode_track seen (track_json t) = Ok t.
Proof.
  intros (Hid & Hs & Hc & Hl) Hseen. destruct t as [id slug cat lab]. cbn [t_id t_slug t_category t_label] in *.
  unfold decode_track, track_json. cbn [js_truthy typeof_object negb orb t_id t_slug t_category t_label].
  set (obj := JObj _).
  change (prop "id" (Some obj)) with (Ok (Some (JNum (of_Z id)))). cbn [mbind result_bind].
  rewrite track_id_of_Z by done.
  rewrite bool_decide_false by done.
  rewrite (strField_str obj "slug" 64 slug eq_refl) by apply Hs. cbn [mbind result_bind].
  rewrite (proj2 (isValidSlug_rule slug) Hs). cbn [negb].
  rewrite (strField_str obj "category" 32 cat eq_refl) by by apply category_str_ok.
  cbn [mbind result_bind]. rewrite (proj2 (is_category_test cat) Hc).
  by rewrite (strField_str obj "label" 64 lab eq_refl) by done.
Qed.

Lemma decode_tracks_json seen ts :
  Forall track_ok ts -> NoDup (t_id <$> ts) -> Forall (fun t => t_id t ∉ seen) ts ->
  decode_tracks seen (track_json <$> ts) = Ok ts.
Proof.
  intros Hok. revert seen. induction Hok as [|t ts Ht Hok IH]; intros seen; [done|].
  cbn. intros [Hnin Hnd]%NoDup_cons [Hs Hss]%Forall_cons.
  rewrite decode_track_json by done. cbn [mbind result_bind].
  rewrite IH; [done|done|]. apply Forall_forall. intros t' Ht'.
  rewrite Forall_forall in Hss. specialize (Hss t' Ht').
  rewrite elem_of_union, elem_of_singleton. intros [He|]; [|done].
  apply Hnin. rewrite <- He. by apply list_elem_of_fmap_2.
Qed.

Lemma decode_track_Ok_inv seen raw t :
  decode_track seen raw = Ok t -> track_ok t /\ t_id t ∉ seen.
Proof.
  unfold decode_track. case_match; [done|]. intros (i & _ & H1)%bind_Ok_inv. revert H1.
  destruct (track_id i) as [id|] eqn:Hid; [|done].
  apply track_id_Some in Hid. case_bool_decide as Hseen; [done|].
  intros (slug & [Hps Hls]%strField_Ok_inv & H1)%bind_Ok_inv.
  destruct (isValidSlug slug) eqn:Hv; [|done]. cbn [negb] in H1.
  apply bind_Ok_inv in H1 as (cat & _ & H2).
  destruct (negb (bool_decide (cat = CUSTOM_CATEGORY)) && negb (isPresetCategory cat)) eqn:Hc; [done|].
  apply bind_Ok_inv in H2 as (lab & [_ Hl]%strField_Ok_inv & [= <-]).
  split; [|done]. split; [done|]. split; [by apply isValidSlug_rule|].
  split; [by apply is_category_test | done].
Qed.

Lemma decode_tracks_Ok_inv seen raws ts :
  decode_tracks seen raws = Ok ts ->
  length ts = length raws /\ Forall track_ok ts /\ NoDup (t_id <$> ts)
  /\ Forall (fun t => t_id t ∉ seen) ts.
Proof.
  revert seen ts. induction raws as [|raw raws IH]; intros seen ts; cbn.
  { intros [= <-]. repeat constructor. }
  intros (t & [Ht Hs]%decode_track_Ok_inv & (ts' & Hts & [= <-])%bind_Ok_inv)%bind_Ok_inv.
  apply IH in Hts as (Hl & Hok & Hnd & Hseen). cbn. rewrite Hl.
  split; [done|]. split; [by constructor|]. split.
  - constructor; [|done]. intros (t' & He & Ht')%list_elem_of_fmap.
    rewrite Forall_forall in Hseen. apply (Hseen t' Ht'). rewrite <- He. set_solver.
  - constructor; [done|]. eapply Forall_impl; [exact Hseen|]. set_solver.
Qed.

(** *** Round trips, one message at a time *)

Lemma encodeHello_roundtrip p buf :
  legal (PHello p) -> encodable (PHello p) -> encodeHello p = Ok buf ->
  decodeHello buf = Ok p.
Proof.
  destruct p as [v cl [co sr ch fm]]. cbn. intros (-> & Hcl & -> & -> & Hch & ->) Hok He.
  apply encodeJson_Ok_inv in He as [Hd _].
  - unfold decodeHello. rewrite Hd. cbn [mbind result_bind]. set (obj := JObj _).
    change (prop "version" (Some obj)) with (Ok (Some (JNum (of_Z 1)))). cbn [mbind result_bind].
    change (is_num (Some (JNum (of_Z 1))) 1) with true. cbn [negb].
    rewrite (strField_str obj "client" 128 cl eq_refl) by done. cbn [mbind result_bind].
    by destruct Hch as [-> | ->].
  - apply (printable_literal [("version", _); ("client", _); ("audio", _)]%string);
      [by vm_compute | by vm_compute |].
    members; [by apply printable_int | done |].
    apply (printable_literal [("codec", _); ("sample_rate", _); ("channels", _); ("frame_ms", _)]%string);
      [by vm_compute | by vm_compute |].
    members.
    + by apply (js_ok "opus").
    + by apply printable_int.
    + apply printable_int. cbn [channels audio]. lia.
    + by apply printable_int.
Qed.

Lemma encodeTrackList_roundtrip ts buf :
  legal (PTrackList ts) -> encodable (PTrackList ts) -> encodeTrackList ts = Ok buf ->
  decodeTrackList buf = Ok ts.
Proof.
  intros (Hl & Hnd & Hok) Hlab He. apply encodeJson_Ok_inv in He as [Hd _].
  - unfold decodeTrackList. rewrite Hd. cbn [mbind result_bind]. set (obj := JObj _).
    change (prop "tracks" (Some obj)) with (Ok (Some (JArr (track_json <$> ts)))). cbn [mbind result_bind].
    rewrite length_fmap. rewrite (proj2 (Z.ltb_ge _ _)) by (unfold MAX_TRACK_SLOT; lia).
    apply decode_tracks_json; [done|done|]. apply Forall_forall. set_solver.
  - apply (printable_literal [("tracks", _)]%string); [by vm_compute | by vm_compute |].
    members.
    apply printable_arr, Forall_fmap. cbn in Hlab.
    apply Forall_forall. intros t Ht. rewrite Forall_forall in Hok, Hlab.
    apply track_json_printable; auto.
Qed.

Lemma encodeFingerprint_bytes p :
  encodeFingerprint p = Ok (be_bytes 8 (fp_hash p) ++ be_bytes 2 (fp_windowMs p)).
Proof.
  unfold encodeFingerprint. set (h := be_bytes 8 (fp_hash p)). set (w := be_bytes 2 (fp_windowMs p)).
  rewrite (blit_at [] h (zeros 8) (zeros 2) eq_refl : blit 0 h (zeros 10) = _).
  cbn [mbind result_bind].
  rewrite (blit_at h w (zeros 2) [] eq_refl : blit 8 w ([] ++ h ++ zeros 2) = _).
  by rewrite app_nil_r.
Qed.

Lemma encodeFingerprint_roundtrip p buf :
  legal (PFingerprint p) -> encodeFingerprint p = Ok buf -> decodeFingerprint buf = Ok p.
Proof.
  intros [Hh Hw]. rewrite encodeFingerprint_bytes. intros He.
  set (h := be_bytes 8 (fp_hash p)) in *. set (w := be_bytes 2 (fp_windowMs p)) in *.
  assert (buf = h ++ w) as -> by congruence.
  assert (Hlh : length h = 8%nat) by apply be_bytes_length.
  assert (Hlw : length w = 2%nat) by apply be_bytes_length.
  unfold decodeFingerprint. rewrite length_app, Hlh, Hlw. cbn [Nat.add Nat.eqb negb].
  rewrite (slice_app_mid [] h w : slice 0 8 (h ++ w) = h).
  rewrite <- (app_nil_r w), (slice_app_mid h w [] : slice 8 10 (h ++ w ++ []) = w).
  unfold h, w. rewrite be64_small, be16_small by done. by destruct p.
Qed.

Lemma optField_opt obj key max v :
  prop key (Some obj) = Ok (JStr <$> v) -> opt_shorter max v -> optField obj key max = Ok v.
Proof.
  intros Hp Hl. unfold optField. rewrite Hp. destruct v as [s|]; [|done].
  cbn [mbind result_bind fmap option_fmap option_map]. by rewrite (strField_str _ _ _ s).
Qed.

Lemma opt_member_printable key v :
  jstr_ok (js key) -> opt_jstr_ok v ->
  Forall (fun kv => jstr_ok kv.1 /\ printable kv.2) (opt_member key v).
Proof. destruct v; cbn; intros; [|constructor]. by constructor; [|constructor]. Qed.

Lemma encodeTrackMeta_roundtrip p buf :
  legal (PTrackMeta p) -> encodable (PTrackMeta p) -> encodeTrackMeta p = Ok buf ->
  decodeTrackMeta buf = Ok p.
Proof.
  destruct p as [t a u]. cbn [legal encodable m_title m_artist m_albumArtUrl].
  intros (Ht & Ha & Hu & Hs) (Hto & Hao & Huo) He. apply encodeJson_Ok_inv in He as [Hd _].
  - unfold decodeTrackMeta. rewrite Hd. cbn [mbind result_bind].
    cbn [m_title m_artist m_albumArtUrl]. set (obj := JObj _).
    rewrite (optField_opt obj "title" 256 t) by (done || by destruct t, a, u).
    rewrite (optField_opt obj "artist" 256 a) by (done || by destruct t, a, u).
    rewrite (optField_opt obj "album_art_url" 1024 u) by (done || by destruct t, a, u).
    cbn [mbind result_bind]. destruct u as [u|]; [|done]. cbn in Hs. by rewrite Hs.
  - apply printable_obj. cbn [m_title m_artist m_albumArtUrl]. split.
    + destruct t, a, u; by apply (bool_decide_unpack _); vm_compute.
    + rewrite !Forall_app. repeat split; apply opt_member_printable; try done; by apply js_ok.
Qed.

Lemma numField_counter obj key x :
  prop key (Some obj) = Ok (Some (JNum x)) -> counter x -> numField obj key = Ok x.
Proof.
  intros Hp (n & Hn & ->). unfold numField. rewrite Hp. cbn [mbind result_bind].
  rewrite isFinite_of_Z, of_Z_nonneg by (unfold safe; lia). done.
Qed.

Lemma encodeStats_roundtrip p buf :
  encodable (PStats p) -> encodeStats p = Ok buf -> decodeStats buf = Ok p.
Proof.
  destruct p as [a b c d]. cbn [encodable uptimeS packetsSent subscribers tracksActive].
  intros (Ha & Hb & Hc & Hd) He. apply encodeJson_Ok_inv in He as [Hdec _].
  - unfold decodeStats. rewrite Hdec. cbn [mbind result_bind].
    cbn [uptimeS packetsSent subscribers tracksActive]. set (obj := JObj _).
    rewrite (numField_counter obj "uptime_s" a eq_refl Ha). cbn [mbind result_bind].
    rewrite (numField_counter obj "packets_sent" b eq_refl Hb). cbn [mbind result_bind].
    rewrite (numField_counter obj "subscribers" c eq_refl Hc). cbn [mbind result_bind].
    by rewrite (numField_counter obj "tracks_active" d eq_refl Hd).
  - apply (printable_literal [("uptime_s", _); ("packets_sent", _); ("subscribers", _);
                              ("tracks_active", _)]%string); [by vm_compute | by vm_compute |].
    members; by apply printable_counter.
Qed.

Lemma decode_ids_nums seen ids :
  Forall (fun id => 1 <= id <= MAX_TRACK_SLOT) ids -> NoDup ids ->
  Forall (fun id => id ∉ seen) ids ->
  decode_ids seen ((fun id => JNum (of_Z id)) <$> ids) = Ok ids.
Proof.
  intros Hr. revert seen. induction Hr as [|id ids Hid Hr IH]; intros seen; [done|].
  intros [Hnin Hnd]%NoDup_cons [Hs Hss]%Forall_cons.
  cbn [fmap list_fmap decode_ids]. rewrite track_id_of_Z, bool_decide_false by done.
  rewrite IH; [done|done|]. apply Forall_forall. intros id' Hid'.
  rewrite Forall_forall in Hss. specialize (Hss id' Hid'). set_solver.
Qed.

Lemma encodeSubTracks_roundtrip ids buf :
  legal (PSubTracks ids) -> encodeSubTracks ids = Ok buf -> decodeSubTracks buf = Ok ids.
Proof.
  intros (Hl & Hnd & Hr) He. apply encodeJson_Ok_inv in He as [Hd _].
  - unfold decodeSubTracks. rewrite Hd. cbn [mbind result_bind]. set (obj := JObj _).
    change (prop "tracks" (Some obj)) with (Ok (Some (JArr ((fun id => JNum (of_Z id)) <$> ids)))).
    cbn [mbind result_bind]. rewrite length_fmap.
    rewrite (proj2 (Z.ltb_ge _ _)) by (unfold MAX_TRACK_SLOT; lia).
    apply decode_ids_nums; [done|done|]. apply Forall_forall. set_solver.
  - apply (printable_literal [("tracks", _)]%string); [by vm_compute | by vm_compute |].
    members. apply printable_arr, Forall_fmap. eapply Forall_impl; [exact Hr|].
    intros id Hid. unfold MAX_TRACK_SLOT in Hid. apply printable_int. lia.
Qed.

Lemma error_code_ok c : isErrorCode c = true -> str_ok 32 c.
Proof.
  intros Hc%bool_decide_eq_true.
  assert (Hall : Forall (str_ok 32) ERROR_CODES).
  { repeat constructor; vm_compute; congruence || lia. }
  by apply (proj1 (Forall_forall _ _) Hall).
Qed.

Lemma encodeError_roundtrip p buf :
  legal (PError p) -> encodable (PError p) -> encodeError p = Ok buf -> decodeError buf = Ok p.
Proof.
  destruct p as [c m]. cbn [legal encodable e_code e_message]. intros [Hc Hl] Hok He.
  apply encodeJson_Ok_inv in He as [Hd _].
  - unfold decodeError. rewrite Hd. cbn [mbind result_bind e_code e_message]. set (obj := JObj _).
    rewrite (strField_str obj "code" 32 c eq_refl) by by apply error_code_ok.
    cbn [mbind result_bind]. rewrite Hc. cbn [negb].
    by rewrite (strField_str obj "message" 512 m eq_refl).
  - apply (printable_literal [("code", _); ("message", _)]%string); [by vm_compute | by vm_compute |].
    members; [|done]. by apply error_code_ok.
Qed.

(** *** Decoder soundness *)

Lemma decodeHello_legal buf p : decodeHello buf = Ok p -> legal (PHello p).
Proof.
  unfold decodeHello. intros (obj & _ & H)%bind_Ok_inv.
  apply bind_Ok_inv in H as (v & _ & H). case_match; [done|].
  apply bind_Ok_inv in H as (cl & [_ Hl]%strField_Ok_inv & H).
  apply bind_Ok_inv in H as (au & _ & H). case_match; [done|].
  apply bind_Ok_inv in H as (co & _ & H). case_match; [done|].
  apply bind_Ok_inv in H as (sr & _ & H). case_match; [done|].
  apply bind_Ok_inv in H as (ch & _ & H). case_match; [done|].
  apply bind_Ok_inv in H as (ms & _ & H). case_match; [done|].
  injection H as <-. cbn. destruct (is_num ch 1); auto 10.
Qed.

Lemma decode_ids_Ok_inv seen raws ids :
  decode_ids seen raws = Ok ids ->
  length ids = length raws /\ NoDup ids
  /\ Forall (fun id => 1 <= id <= MAX_TRACK_SLOT) ids /\ Forall (fun id => id ∉ seen) ids.
Proof.
  revert seen ids. induction raws as [|raw raws IH]; intros seen ids; cbn [decode_ids].
  { intros [= <-]. repeat constructor. }
  destruct (track_id (Some raw)) as [id|] eqn:Hid; [|done].
  case_bool_decide as Hs; [done|].
  intros (ids' & (Hl & Hnd & Hr & Hseen)%IH & [= <-])%bind_Ok_inv. cbn [length].
  split; [by rewrite Hl|]. split.
  - constructor; [|done]. intros Hin. rewrite Forall_forall in Hseen.
    apply (Hseen id Hin). set_solver.
  - split; constructor; try done; [by apply track_id_Some in Hid|].
    eapply Forall_impl; [exact Hseen|]. set_solver.
Qed.

Lemma too_many {A} (l : list A) :
  (MAX_TRACK_SLOT <? Z.of_nat (length l)) = false -> (length l <= 8)%nat.
Proof. unfold MAX_TRACK_SLOT. lia. Qed.

Lemma decodeSubTracks_legal buf ids : decodeSubTracks buf = Ok ids -> legal (PSubTracks ids).
Proof.
  unfold decodeSubTracks. intros (obj & _ & H)%bind_Ok_inv. apply bind_Ok_inv in H as (v & _ & H).
  repeat case_match; try done. apply decode_ids_Ok_inv in H as (Hl & Hnd & Hr & _).
  split; [|done]. rewrite Hl. by apply too_many.
Qed.

Lemma decodeTrackList_legal buf ts : decodeTrackList buf = Ok ts -> track_list_ok ts.
Proof.
  unfold decodeTrackList. intros (obj & _ & H)%bind_Ok_inv. apply bind_Ok_inv in H as (v & _ & H).
  repeat case_match; try done. apply decode_tracks_Ok_inv in H as (Hl & Hok & Hnd & _).
  split; [|done]. rewrite Hl. by apply too_many.
Qed.

Lemma optField_Ok_inv obj key max v : optField obj key max = Ok v -> opt_shorter max v.
Proof.
  unfold optField. intros (r & _ & H)%bind_Ok_inv. revert H. case_match; [|by intros [= <-]].
  destruct (strField obj key max) as [s|] eqn:E; [|done].
  apply strField_Ok_inv in E as [_ Hl]. by intros [= <-].
Qed.

Lemma decodeTrackMeta_legal buf p : decodeTrackMeta buf = Ok p -> legal (PTrackMeta p).
Proof.
  unfold decodeTrackMeta. intros (obj & _ & H)%bind_Ok_inv.
  apply bind_Ok_inv in H as (t & Ht%optField_Ok_inv & H).
  apply bind_Ok_inv in H as (a & Ha%optField_Ok_inv & H).
  apply bind_Ok_inv in H as (u & Hu%optField_Ok_inv & H).
  destruct u as [u|]; [|by injection H as <-].
  destruct (startsWith u (js "https://")) eqn:Hs; [|done]. by injection H as <-.
Qed.

Lemma numField_Ok_inv obj key x : numField obj key = Ok x -> stat_ok x.
Proof.
  unfold numField, stat_ok. intros (r & _ & H)%bind_Ok_inv. revert H.
  repeat case_match; try done. intros [= <-].
  match goal with H : _ || _ = false |- _ => apply orb_false_iff in H as [H1 H2] end.
  by apply negb_false_iff in H1.
Qed.

Lemma decodeStats_legal buf p : decodeStats buf = Ok p -> legal (PStats p).
Proof.
  unfold decodeStats. intros (obj & _ & H)%bind_Ok_inv.
  apply bind_Ok_inv in H as (a & Ha%numField_Ok_inv & H).
  apply bind_Ok_inv in H as (b & Hb%numField_Ok_inv & H).
  apply bind_Ok_inv in H as (c & Hc%numField_Ok_inv & H).
  apply bind_Ok_inv in H as (d & Hd%numField_Ok_inv & [= <-]). cbn. auto.
Qed.

Lemma decodeError_legal buf p : decodeError buf = Ok p -> legal (PError p).
Proof.
  unfold decodeError. intros (obj & _ & H)%bind_Ok_inv.
  apply bind_Ok_inv in H as (c & _ & H).
  destruct (isErrorCode c) eqn:Hc; [|done]. cbn [negb] in H.
  apply bind_Ok_inv in H as (m & [_ Hl]%strField_Ok_inv & [= <-]). done.
Qed.

Lemma decodeFingerprint_legal buf p :
  bytes_ok buf -> decodeFingerprint buf = Ok p -> legal (PFingerprint p).
Proof.
  unfold decodeFingerprint. intros Hb.
  destruct (Nat.eqb_spec (length buf) 10) as [Hl|]; [|done]. intros [= <-].
  pose proof (be_value_slice_bound 0 8 8 buf Hb eq_refl ltac:(lia)) as H1.
  pose proof (be_value_slice_bound 8 10 2 buf Hb eq_refl ltac:(lia)) as H2.
  cbn [legal fp_hash fp_windowMs]. unfold u64_max.
  change (256 ^ Z.of_nat 8) with 18446744073709551616 in H1.
  change (256 ^ Z.of_nat 2) with 65536 in H2. lia.
Qed.

(** *** Errors *)

Lemma bad_payload_error d : payload_error (bad d).
Proof. unfold payload_error, bad. eauto. Qed.

Lemma decodeJson_Throw buf e : decodeJson buf = Throw e -> payload_error e.
Proof.
  unfold decodeJson, payload_error. case_match; [intros [= <-]; eauto|].
  intros [Ht|(v & _ & Ht)]%bind_Throw_inv.
  - destruct (text ← text_decode buf; parse text); [done|]. injection Ht as <-. eauto.
  - repeat case_match; simplify_eq; eauto.
Qed.

(** No property is read from [undefined] or [null]. *)
Lemma prop_Throw key v e : readable v -> prop key v = Throw e -> payload_error e.
Proof. intros (r & ->)%(prop_total key). done. Qed.

#[export] Hint Resolve bad_payload_error decodeJson_Throw decodeJson_readable guarded_readable
  prop_Throw : smx.

(** Follow a decoder to the throw it ends in; the guards on the way are kept. *)
Ltac throw_inv :=
  repeat match goal with
  | H : mbind _ _ = Throw _ |- _ => apply bind_Throw_inv in H as [H|(? & ? & H)]
  | H : Throw _ = Throw _ |- _ => injection H as <-
  | H : Ok _ = Throw _ |- _ => discriminate H
  | H : (if ?b then _ else _) = Throw _ |- _ => destruct b eqn:?
  | H : (match ?m with _ => _ end) = Throw _ |- _ => destruct m
  end; eauto with smx.

Lemma strField_Throw obj key max e :
  readable (Some obj) -> strField obj key max = Throw e -> payload_error e.
Proof. unfold strField. intros Hr H. throw_inv. Qed.

Lemma numField_Throw obj key e :
  readable (Some obj) -> numField obj key = Throw e -> payload_error e.
Proof. unfold numField. intros Hr H. throw_inv. Qed.

#[export] Hint Resolve strField_Throw numField_Throw : smx.

Lemma optField_Throw obj key max e :
  readable (Some obj) -> optField obj key max = Throw e -> payload_error e.
Proof.
  unfold optField. intros Hr H. apply bind_Throw_inv in H as [H|(v & _ & H)]; [eauto with smx|].
  destruct v; [|done]. destruct (strField obj key max) as [|e'] eqn:E; [done|].
  injection H as ->. eauto with smx.
Qed.

#[export] Hint Resolve optField_Throw : smx.

Lemma decode_track_Throw seen raw e : decode_track seen raw = Throw e -> payload_error e.
Proof. unfold decode_track. intros H. throw_inv. Qed.

Lemma decode_tracks_Throw seen raws e : decode_tracks seen raws = Throw e -> payload_error e.
Proof.
  revert seen. induction raws as [|raw raws IH]; intros seen H; cbn in H; [done|].
  apply bind_Throw_inv in H as [H|(t & _ & H)]; [by apply decode_track_Throw in H|].
  apply bind_Throw_inv in H as [H|(ts & _ & H)]; [by apply IH in H | done].
Qed.

Lemma decode_ids_Throw seen raws e : decode_ids seen raws = Throw e -> payload_error e.
Proof.
  revert seen. induction raws as [|raw raws IH]; intros seen H; cbn [decode_ids] in H; [done|].
  throw_inv.
Qed.

#[export] Hint Resolve decode_tracks_Throw decode_ids_Throw : smx.

(** An unknown category makes the whole list fail. *)
Lemma decode_tracks_unknown_category seen pre t post :
  Forall track_ok pre -> NoDup (t_id <$> pre ++ [t]) ->
  Forall (fun t => t_id t ∉ seen) (pre ++ [t]) ->
  1 <= t_id t <= MAX_TRACK_SLOT -> slug_rule (t_slug t) ->
  ~ is_category (t_category t) -> (length (t_category t) <= 32)%nat ->
  decode_tracks seen (track_json <$> pre ++ t :: post) = Throw (bad "track.category").
Proof.
  intros Hpre. revert seen. induction Hpre as [|u pre Hu Hpre IH]; intros seen Hnd Hs Hid Hsl Hc Hcl.
  - cbn. apply Forall_cons in Hs as [Hs _]. unfold decode_track, track_json.
    cbn [js_truthy typeof_object negb orb]. set (obj := JObj _).
    change (prop "id" (Some obj)) with (Ok (Some (JNum (of_Z (t_id t))))). cbn [mbind result_bind].
    rewrite track_id_of_Z, bool_decide_false by done.
    rewrite (strField_str obj "slug" 64 (t_slug t) eq_refl) by apply Hsl.
    cbn [mbind result_bind]. rewrite (proj2 (isValidSlug_rule _) Hsl). cbn [negb].
    rewrite (strField_str obj "category" 32 (t_category t) eq_refl) by done.
    cbn [mbind result_bind].
    destruct (negb (bool_decide (t_category t = CUSTOM_CATEGORY)) && negb (isPresetCategory (t_category t))) eqn:E; [done|].
    by apply is_category_test in E.
  - cbn in *. apply NoDup_cons in Hnd as [Hnin Hnd]. apply Forall_cons in Hs as [Hsu Hs].
    rewrite decode_track_json by done. cbn [mbind result_bind].
    rewrite IH; try done. apply Forall_forall. intros t' Ht'.
    rewrite Forall_forall in Hs. specialize (Hs t' Ht').
    rewrite elem_of_union, elem_of_singleton. intros [He|]; [|done].
    apply Hnin. rewrite <- He. by apply list_elem_of_fmap_2.
Qed.

(** ** Properties *)

(** C7: for every message type, decoding the encoder's output returns the
    payload that was encoded, for every legal payload whose text is made of
    UTF-16 code units (lone surrogates included) and whose statistics are
    counters below 2^53. *)
Theorem payload_roundtrip (p : Payload) (buf : list Z) :
  legal p -> encodable p -> encode_payload p = Ok buf ->
  decode_payload (payload_type p) buf = Some (Ok p).
Proof.
  intros Hl He Hb. destruct p; cbn [payload_type decode_payload encode_payload] in *.
  - by erewrite encodeHello_roundtrip.
  - by erewrite encodeTrackList_roundtrip.
  - by erewrite encodeFingerprint_roundtrip.
  - by erewrite encodeTrackMeta_roundtrip.
  - by erewrite encodeStats_roundtrip.
  - by erewrite encodeSubTracks_roundtrip.
  - by erewrite encodeError_roundtrip.
Qed.

Definition sample_tracks : list TrackInfo :=
  [mkTrack 1 (js "mic") (js "mic") (js "Microphone");
   mkTrack 4 (js "co-host-mic") CUSTOM_CATEGORY [0x43; 0x6f; 0xD83C; 0xDFA4; 10; 0xD800]].

Definition sample_track_bytes : list Z :=
  match encodeTrackList sample_tracks with Ok b => b | Throw _ => [] end.

Lemma sample_tracks_legal : legal (PTrackList sample_tracks) /\ encodable (PTrackList sample_tracks).
Proof.
  split.
  - by apply (bool_decide_unpack (track_list_ok sample_tracks)); vm_compute.
  - unfold sample_tracks, encodable.
    constructor; [|constructor; [|constructor]]; by apply (bool_decide_unpack _); vm_compute.
Qed.

Lemma payload_roundtrip_witness :
  decode_payload TrackList sample_track_bytes = Some (Ok (PTrackList sample_tracks)).
Proof.
  apply (payload_roundtrip (PTrackList sample_tracks) sample_track_bytes);
    [apply sample_tracks_legal | apply sample_tracks_legal | by vm_compute].
Defined.

(** C27: whatever bytes a peer sends, a payload that a decoder accepts is legal:
    a decoded track list has at most 8 tracks with distinct ids in 1..8, valid
    slugs, known categories and bounded labels; the other payloads satisfy the
    bounds of the protocol document. *)
Theorem decoders_sound (t : MessageType) (buf : list Z) (p : Payload) :
  bytes_ok buf -> decode_payload t buf = Some (Ok p) -> payload_type p = t /\ legal p.
Proof.
  intros Hb. destruct t; cbn; [| |done|..]; intros [= H].
  all: match type of H with _ <$> ?m = _ => destruct m as [q|] eqn:E; [|done] end;
    injection H as <-; split; [done|].
  - by eapply decodeHello_legal.
  - by eapply decodeTrackList_legal.
  - by eapply decodeFingerprint_legal.
  - by eapply decodeTrackMeta_legal.
  - by eapply decodeStats_legal.
  - by eapply decodeSubTracks_legal.
  - by eapply decodeError_legal.
Qed.

Lemma decoders_sound_witness :
  payload_type (PTrackList sample_tracks) = TrackList /\ legal (PTrackList sample_tracks).
Proof.
  apply (decoders_sound TrackList sample_track_bytes (PTrackList sample_tracks));
    [by apply (bool_decide_unpack _); vm_compute | by vm_compute].
Defined.

(** C28: a payload decoder returns or throws a [ProtocolError] with code
    [BAD_PAYLOAD] or [TOO_LARGE]; no engine error (invalid UTF-8, JSON syntax,
    missing fields, wrong types) escapes it. *)
Theorem decoders_throw_protocol_errors (t : MessageType) (buf : list Z) (e : Exn) :
  decode_payload t buf = Some (Throw e) -> payload_error e.
Proof.
  destruct t; cbn; [| |done|..]; intros [= H];
    match type of H with _ <$> ?m = _ => destruct m as [q|e'] eqn:E; [done|] end;
    injection H as ->.
  - unfold decodeHello in E. throw_inv.
  - unfold decodeTrackList in E. throw_inv.
  - unfold decodeFingerprint in E. throw_inv.
  - unfold decodeTrackMeta in E. throw_inv.
  - unfold decodeStats in E. throw_inv.
  - unfold decodeSubTracks in E. throw_inv.
  - unfold decodeError in E. throw_inv.
Qed.

Lemma decoders_throw_protocol_errors_witness :
  payload_error (ProtocolError "invalid json or utf-8" BAD_PAYLOAD).
Proof.
  apply (decoders_throw_protocol_errors Stats [0xff; 0xfe; 0xfd]). by vm_compute.
Defined.

(** A track list with one category the receiver does not know is rejected
    as a whole, although the protocol document says that older receivers
    display such a track as custom. *)
Theorem unknown_category_rejects_list (pre post : list TrackInfo) (t : TrackInfo) (buf : list Z) :
  Forall track_ok pre -> NoDup (t_id <$> pre ++ [t]) -> (length (pre ++ t :: post) <= 8)%nat ->
  1 <= t_id t <= MAX_TRACK_SLOT -> slug_rule (t_slug t) ->
  ~ is_category (t_category t) -> (length (t_category t) <= 32)%nat ->
  printable (JObj [(js "tracks", JArr (track_json <$> pre ++ t :: post))]) ->
  encodeTrackList (pre ++ t :: post) = Ok buf ->
  decodeTrackList buf = Throw (bad "track.category").
Proof.
  intros Hpre Hnd Hlen Hid Hs Hc Hcl Hp He. apply encodeJson_Ok_inv in He as [Hd _]; [|done].
  unfold decodeTrackList. rewrite Hd. cbn [mbind result_bind]. set (obj := JObj _).
  change (prop "tracks" (Some obj)) with (Ok (Some (JArr (track_json <$> pre ++ t :: post)))). cbn [mbind result_bind].
  rewrite length_fmap. rewrite (proj2 (Z.ltb_ge _ _)) by (unfold MAX_TRACK_SLOT; lia).
  apply decode_tracks_unknown_category; try done. apply Forall_forall. set_solver.
Qed.

Lemma unknown_category_rejects_list_witness :
  decodeTrackList (match encodeTrackList [mkTrack 1 (js "mic") (js "mic") (js "Mic");
                                          mkTrack 2 (js "synth") (js "synthwave") (js "S")]
                   with Ok b => b | Throw _ => [] end)
  = Throw (bad "track.category").
Proof.
  apply (unknown_category_rejects_list [mkTrack 1 (js "mic") (js "mic") (js "Mic")] []
           (mkTrack 2 (js "synth") (js "synthwave") (js "S"))).
  - by apply (bool_decide_unpack _); vm_compute.
  - by apply (bool_decide_unpack _); vm_compute.
  - by apply (bool_decide_unpack _); vm_compute.
  - vm_compute. split; congruence.
  - by apply (bool_decide_unpack _); vm_compute.
  - by apply (bool_decide_unpack _); vm_compute.
  - by apply (bool_decide_unpack _); vm_compute.
  - apply (printable_literal [("tracks", _)]%string); [by vm_compute | by vm_compute |].
    members. apply printable_arr. apply Forall_cons_2; [|apply Forall_cons_2; [|constructor]].
    + apply (printable_literal [("id", _); ("slug", _); ("category", _); ("label", _)]%string);
        [by vm_compute | by vm_compute |]. members; [by apply printable_int | by apply js_ok..].
    + apply (printable_literal [("id", _); ("slug", _); ("category", _); ("label", _)]%string);
        [by vm_compute | by vm_compute |]. members; [by apply printable_int | by apply js_ok..].
  - by vm_compute.
Defined.

(** The JSON layer is faithful and total: a printable object survives
    [encodeJson] and [decodeJson], [encodeJson] fails only above
    [MAX_JSON_BYTES], and its output is a byte string. *)
Theorem encodeJson_decodeJson (o : list (jstr * json)) :
  printable (JObj o) ->
  match encodeJson (JObj o) with
  | Ok buf => decodeJson buf = Ok (JObj o) /\ bytes_ok buf /\ (length buf <= MAX_JSON_BYTES)%nat
  | Throw e => (MAX_JSON_BYTES < length (utf8_encode (stringify (JObj o))))%nat
               /\ exists msg, e = ProtocolError msg TOO_LARGE
  end.
Proof.
  intros Hp. destruct (encodeJson (JObj o)) as [buf|e] eqn:E.
  - pose proof (encodeJson_Ok_inv o buf E Hp) as [Hd Hb]. split; [done|]. split; [done|].
    unfold encodeJson in E. destruct (Nat.ltb_spec MAX_JSON_BYTES (length (utf8_encode (stringify (JObj o))))); [done|].
    by assert (utf8_encode (stringify (JObj o)) = buf) as <- by congruence.
  - unfold encodeJson in E. destruct (Nat.ltb_spec MAX_JSON_BYTES (length (utf8_encode (stringify (JObj o))))); [|done].
    split; [done|]. injection E as <-. eauto.
Qed.

Lemma encodeJson_decodeJson_witness :
  match encodeJson (JObj [(js "a", JArr [JNum (of_Z (-7)); JStr [0xD800; 34; 10]])]) with
  | Ok buf => decodeJson buf = Ok (JObj [(js "a", JArr [JNum (of_Z (-7)); JStr [0xD800; 34; 10]])])
              /\ bytes_ok buf /\ (length buf <= MAX_JSON_BYTES)%nat
  | Throw _ => False
  end.
Proof.
  assert (Hp : printable (JObj [(js "a", JArr [JNum (of_Z (-7)); JStr [0xD800; 34; 10]])])).
  { apply (printable_literal [("a", _)]%string); [by vm_compute | by vm_compute |].
    members. apply printable_arr. apply Forall_cons_2; [|apply Forall_cons_2; [|constructor]].
    - exists (-7). split; [by vm_compute | done].
    - by apply (bool_decide_unpack _); vm_compute. }
  exact (encodeJson_decodeJson _ Hp).
Defined.
