(* ===== verification/RelayClient.v ===== *)
(** * The subscriber's WebSocket client

    Models extension/src/relay/client.ts.  The handlers of [connect]'s closure
    are functions on the state [World]; the browser (socket life cycle, timers)
    is the step relation [step] around them.  The callbacks the caller passes
    are the record [RelayEvents] over an arbitrary caller state [St]; a
    callback may throw, which is an [option Exn] beside the new state. *)
From stdpp Require Import relations.
From S2P Require Import Prelude JsString Wire Messages.

Inductive ReadyState := CONNECTING | OPEN | CLOSING | CLOSED.

#[export] Instance ReadyState_eq_dec : EqDecision ReadyState.
Proof. solve_decision. Defined.

Section Client.
Context {St : Type}.

(** ** Callbacks *)

Record RelayEvents := mkEvents {
  onTrackList : option (list TrackInfo -> St -> St * option Exn);
  onAudio : option (Z -> Frame -> St -> St * option Exn);
  onFingerprint : option (Z -> Z -> Z -> St -> St * option Exn);
  onTrackMeta : option (Z -> TrackMetaPayload -> St -> St * option Exn);
  onError : option (jstr -> jstr -> St -> St * option Exn);
  onConnect : option (St -> St * option Exn);
  onDisconnect : option (bool -> St -> St * option Exn);
}.

(** [events.h?.(...)] *)
Definition fire (h : option (St -> St * option Exn)) (s : St) : St * option Exn :=
  match h with Some f => f s | None => (s, None) end.

(** [try { body } catch { }]: the state changes made before the throw stay. *)
Definition swallow (r : St * option Exn) : St * option Exn := (r.1, None).

(** A decode under the same [try] as the callback that uses its result. *)
Definition try_payload {A} (r : result A) (h : option (A -> St -> St * option Exn))
    (s : St) : St * option Exn :=
  match r with
  | Ok a => swallow (fire ((fun f => f a) <$> h) s)
  | Throw _ => (s, None)
  end.

(** ** handleMessage *)

Definition handleMessage (data : list Z) (events : RelayEvents) (s : St) : St * option Exn :=
  match decodeFrame data with
  | Throw _ => (s, None)
  | Ok frame =>
      match f_type frame with
      | TrackList => try_payload (decodeTrackList (f_payload frame)) (onTrackList events) s
      | AudioOpus => fire ((fun f => f (f_track frame) frame) <$> onAudio events) s
      | Fingerprint =>
          try_payload (decodeFingerprint (f_payload frame))
            ((fun f fp => f (f_track frame) (fp_hash fp) (fp_windowMs fp)) <$> onFingerprint events) s
      | TrackMeta =>
          try_payload (decodeTrackMeta (f_payload frame))
            ((fun f => f (f_track frame)) <$> onTrackMeta events) s
      | Error =>
          try_payload (decodeError (f_payload frame))
            ((fun f err => f (e_code err) (e_message err)) <$> onError events) s
      | _ => (s, None)
      end
  end.

(** ** The closure of [connect] *)

Definition RECONNECT_BACKOFF_MS : list Z := [500; 1000; 2000; 5000; 15000].


Record World := mkWorld {
  closed : bool;
  attempt : nat;
  ws : option nat;
  sockets : list ReadyState;
  timers : list Z;
  client : St;
}.

Context (events : RelayEvents).

Definition set_client (s : St) (w : World) : World :=
  mkWorld (closed w) (attempt w) (ws w) (sockets w) (timers w) s.
Definition set_socket (n : nat) (st : ReadyState) (w : World) : World :=
  mkWorld (closed w) (attempt w) (ws w) (<[n := st]> (sockets w)) (timers w) (client w).
Definition set_timers (l : list Z) (w : World) : World :=
  mkWorld (closed w) (attempt w) (ws w) (sockets w) l (client w).

(** [open()]: the sockets are numbered in the order they are created. *)
Definition open_ (w : World) : World :=
  if closed w then w
  else mkWorld (closed w) (attempt w) (Some (length (sockets w)))
         (sockets w ++ [CONNECTING]) (timers w) (client w).

Definition backoff (attempt : nat) : Z :=
  RECONNECT_BACKOFF_MS !!! Nat.min attempt (length RECONNECT_BACKOFF_MS - 1).

Definition scheduleReconnect (w : World) : World :=
  if closed w then w
  else mkWorld (closed w) (S (attempt w)) (ws w) (sockets w)
         (timers w ++ [backoff (attempt w)]) (client w).

(** [ws.onopen] *)
Definition handle_open (w : World) : World * option Exn :=
  let w := mkWorld (closed w) 0 (ws w) (sockets w) (timers w) (client w) in
  let '(s, e) := fire (onConnect events) (client w) in (set_client s w, e).

(** [ws.onmessage]; [None] is a text message. *)
Definition handle_data (data : option (list Z)) (w : World) : World * option Exn :=
  match data with
  | None => (w, None)
  | Some d => let '(s, e) := handleMessage d events (client w) in (set_client s w, e)
  end.

(** [ws.onclose]: a throwing callback leaves the rest undone. *)
Definition handle_close (wasClean : bool) (w : World) : World * option Exn :=
  let '(s, e) := fire ((fun f => f wasClean) <$> onDisconnect events) (client w) in
  let w := set_client s w in
  match e with
  | Some e => (w, Some e)
  | None =>
      let w := mkWorld (closed w) (attempt w) None (sockets w) (timers w) (client w) in
      (if closed w then w else scheduleReconnect w, None)
  end.

(** [RelayClient.close()]; closing a socket that is closing or closed does
    nothing. *)
Definition close_ (w : World) : World :=
  let w := mkWorld true (attempt w) (ws w) (sockets w) (timers w) (client w) in
  match ws w with
  | Some n =>
      match sockets w !! n with
      | Some CONNECTING | Some OPEN => set_socket n CLOSING w
      | _ => w
      end
  | None => w
  end.

(** [RelayClient.isOpen()] *)
Definition isOpen (w : World) : bool :=
  match ws w with
  | Some n => match sockets w !! n with Some OPEN => true | _ => false end
  | None => false
  end.

(** [connect(...)] up to its return. *)
Definition connect (s : St) : World := open_ (mkWorld false 0 None [] [] s).

(** What the browser and the caller may do next: a connecting socket opens; an
    open one delivers a message; any unclosed one closes, once; a pending timer
    fires; the caller closes the client. *)
Inductive step : World -> World -> Prop :=
  | step_open w n :
      sockets w !! n = Some CONNECTING ->
      step w (handle_open (set_socket n OPEN w)).1
  | step_message w n data :
      sockets w !! n = Some OPEN -> step w (handle_data data w).1
  | step_close w n st clean :
      sockets w !! n = Some st -> st <> CLOSED ->
      step w (handle_close clean (set_socket n CLOSED w)).1
  | step_timer w i ms :
      timers w !! i = Some ms -> step w (open_ (set_timers (delete i (timers w)) w))
  | step_user_close w : step w (close_ w).

Definition reachable (s : St) (w : World) : Prop := rtc step (connect s) w.

(** ** Invariant *)

Definition live (w : World) : nat := length (filter (fun st => st <> CLOSED) (sockets w)).

Definition quiet_disconnect : Prop :=
  forall f clean s, onDisconnect events = Some f -> (f clean s).2 = None.

(** What the callbacks can do to the caller's state after [close()]: only
    [onDisconnect] is left. *)
Definition disconnect_only (s s' : St) : Prop :=
  exists clean, s' = (fire ((fun f => f clean) <$> onDisconnect events) s).1.

(** An outage: the current socket closes and the pending reconnection fires, once
    per element, and no new socket opens; the waits that were asked for. *)
Fixpoint outage (cleans : list bool) (w : World) : list Z :=
  match cleans, ws w with
  | clean :: rest, Some n =>
      let w1 := (handle_close clean (set_socket n CLOSED w)).1 in
      timers w1 ++ outage rest (open_ (set_timers [] w1))
  | _, _ => []
  end.

(** The callback a payload is meant for, and what it is given. *)
Definition deliver (track : Z) (p : Payload) (s : St) : St * option Exn :=
  match p with
  | PTrackList ts => swallow (fire ((fun f => f ts) <$> onTrackList events) s)
  | PFingerprint p =>
      swallow (fire ((fun f => f track (fp_hash p) (fp_windowMs p)) <$> onFingerprint events) s)
  | PTrackMeta p => swallow (fire ((fun f => f track p) <$> onTrackMeta events) s)
  | PError p => swallow (fire ((fun f => f (e_code p) (e_message p)) <$> onError events) s)
  | PHello _ | PStats _ | PSubTracks _ => (s, None)
  end.

Record conn_inv (w : World) : Prop := {
  inv_count : (live w + length (timers w) <= 1)%nat;
  inv_trying : closed w = false -> (live w + length (timers w) = 1)%nat;
  inv_closed : closed w = true -> Forall (fun st => st = CLOSING \/ st = CLOSED) (sockets w);
  inv_ws : forall n st, sockets w !! n = Some st -> st <> CLOSED -> ws w = Some n;
  inv_backoff : Forall (fun ms => ms = backoff (attempt w - 1)) (timers w);
}.
End Client.
Arguments RelayEvents : clear implicits.
Arguments World : clear implicits.

(** ** Lemmas *)

Section Lemmas.
Context {St : Type} (events : RelayEvents St).
Implicit Types (w : World St).

Lemma live_zero w n st : live w = 0%nat -> sockets w !! n = Some st -> st = CLOSED.
Proof.
  unfold live. intros Hl Hn. destruct (decide (st = CLOSED)); [done|].
  apply length_zero_iff_nil in Hl. exfalso.
  apply (filter_nil_not_elem_of _ _ st Hl); [done|]. by apply list_elem_of_lookup_2 in Hn.
Qed.

Definition weight (st : ReadyState) : nat := if decide (st = CLOSED) then 0 else 1.

Lemma live_insert w n st st' :
  sockets w !! n = Some st ->
  (live (set_socket n st' w) + weight st = live w + weight st')%nat.
Proof.
  unfold live, set_socket, weight. cbn [sockets]. intros Hn.
  rewrite <- (take_drop_middle (sockets w) n st Hn) at 2.
  rewrite insert_take_drop by by eapply lookup_lt_Some.
  rewrite !filter_app, !length_app, !filter_cons.
  repeat case_decide; cbn [length]; subst; try done; lia.
Qed.

Lemma live_pos w n st :
  sockets w !! n = Some st -> st <> CLOSED -> (1 <= live w)%nat.
Proof.
  intros Hn Hst. pose proof (live_insert w n st CLOSED Hn) as H.
  unfold weight in H. rewrite decide_False, decide_True in H by done. lia.
Qed.

Lemma fire_None (h : option (St -> St * option Exn)) s :
  (forall f, h = Some f -> (f s).2 = None) -> exists s', fire h s = (s', None).
Proof.
  intros Hq. destruct h as [f|]; cbn; [|by eexists].
  specialize (Hq f eq_refl). destruct (f s) as [s' e]. cbn in Hq. subst. by eexists.
Qed.

(** The shape of [handle_close] when the callback returns. *)
Lemma handle_close_quiet clean w :
  quiet_disconnect events ->
  exists s', handle_close events clean w
    = (let w' := mkWorld (closed w) (attempt w) None (sockets w) (timers w) s' in
       if closed w then w' else scheduleReconnect w', None).
Proof.
  intros Hq. unfold handle_close.
  destruct (fire_None ((fun f => f clean) <$> onDisconnect events) (client w)) as [s' ->].
  - intros f Hf. destruct (onDisconnect events) as [g|] eqn:E; [|done].
    injection Hf as <-. by apply Hq.
  - by exists s'.
Qed.

Lemma handle_open_shape w :
  exists s', (handle_open events w).1 = mkWorld (closed w) 0 (ws w) (sockets w) (timers w) s'.
Proof. unfold handle_open. cbn. destruct (fire _ _) as [s' e]. by exists s'. Qed.

Lemma handle_data_shape data w :
  exists s', (handle_data events data w).1
             = mkWorld (closed w) (attempt w) (ws w) (sockets w) (timers w) s'.
Proof.
  unfold handle_data. destruct data as [d|]; [|by exists (client w); destruct w].
  destruct (handleMessage d events (client w)) as [s' e]. by exists s'.
Qed.

Lemma connect_inv (s : St) : conn_inv (connect s).
Proof.
  unfold connect, open_. cbn. constructor; unfold live; cbn; try done; try lia.
  by intros [|n] st; [|destruct n].
Qed.

Lemma open_inv w n :
  conn_inv w -> sockets w !! n = Some CONNECTING ->
  conn_inv (handle_open events (set_socket n OPEN w)).1.
Proof.
  intros [Hc Ht Hcl Hws Hb] Hn.
  destruct (handle_open_shape (set_socket n OPEN w)) as [s' ->].
  pose proof (live_insert w n CONNECTING OPEN Hn) as Hl. unfold weight in Hl.
  rewrite !decide_False in Hl by done.
  assert (Hopen : closed w = false).
  { destruct (closed w); [|done]. specialize (Hcl eq_refl).
    rewrite Forall_lookup in Hcl. by destruct (Hcl _ _ Hn). }
  assert (Hz : timers w = []).
  { pose proof (live_pos w n CONNECTING Hn ltac:(done)). apply length_zero_iff_nil. lia. }
  constructor; unfold live in *; cbn in *; try (rewrite Hopen in *; done).
  - lia.
  - intros _. specialize (Ht Hopen). lia.
  - intros m st. destruct (decide (m = n)) as [->|Hne].
    + intros _ _. by apply (Hws n CONNECTING).
    + rewrite list_lookup_insert_ne by done. apply Hws.
  - by rewrite Hz.
Qed.

Lemma close_inv w n st clean :
  quiet_disconnect events ->
  conn_inv w -> sockets w !! n = Some st -> st <> CLOSED ->
  conn_inv (handle_close events clean (set_socket n CLOSED w)).1.
Proof.
  intros Hq [Hc Ht Hcl Hws Hb] Hn Hst.
  destruct (handle_close_quiet clean (set_socket n CLOSED w) Hq) as [s' ->]. cbn [fst].
  pose proof (live_insert w n st CLOSED Hn) as Hl. pose proof (live_pos w n st Hn Hst) as Hp.
  unfold weight in Hl. rewrite (decide_False (P := st = CLOSED)), decide_True in Hl by done.
  assert (Hz : timers w = []) by (apply length_zero_iff_nil; lia).
  assert (Hall : forall m st', <[n:=CLOSED]> (sockets w) !! m = Some st' -> st' = CLOSED).
  { intros m st'. apply (live_zero (set_socket n CLOSED w)). lia. }
  unfold live, set_socket in *. cbn in *.
  destruct (closed w) eqn:Ecl; unfold scheduleReconnect; cbn; try rewrite Ecl; rewrite ?Hz in *; cbn in *.
  - constructor; unfold live; cbn; try done; [lia| |naive_solver].
    intros _. apply Forall_insert; [by apply Hcl | by right].
  - constructor; unfold live; cbn; try done; try lia; [naive_solver|].
    rewrite Nat.sub_0_r. by constructor.
Qed.

Lemma timer_inv w i ms :
  conn_inv w -> timers w !! i = Some ms ->
  conn_inv (open_ (set_timers (delete i (timers w)) w)).
Proof.
  intros [Hc Ht Hcl Hws Hb] Hi.
  pose proof (lookup_lt_Some _ _ _ Hi) as Hlt.
  assert (Hz : delete i (timers w) = []).
  { apply length_zero_iff_nil. rewrite length_delete by by eexists. lia. }
  assert (Hlive : live w = 0%nat) by lia.
  rewrite Hz. unfold open_, set_timers. cbn. destruct (closed w) eqn:Ecl.
  - constructor; unfold live in *; cbn in *; try rewrite Ecl; try done; lia.
  - assert (Hcnt : length (filter (fun st => st <> CLOSED) (sockets w ++ [CONNECTING])) = 1%nat).
    { unfold live in Hlive. rewrite filter_app, length_app, Hlive. done. }
    constructor; unfold live in *; cbn in *; try done; try lia.
    intros m st. rewrite lookup_app. destruct (sockets w !! m) as [st'|] eqn:Em.
    + intros [= <-] Hne. by apply (live_zero w m st' Hlive) in Em.
    + intros Hm _. apply list_lookup_singleton_Some in Hm as [Hm _].
      apply lookup_ge_None in Em. f_equal. lia.
Qed.

Lemma user_close_inv w : conn_inv w -> conn_inv (close_ w).
Proof.
  intros [Hc Ht Hcl Hws Hb]. unfold close_. cbn.
  assert (Hstay : forall sk, sk = sockets w -> (forall m st, sk !! m = Some st -> st = CLOSING \/ st = CLOSED) ->
            conn_inv (mkWorld true (attempt w) (ws w) (sockets w) (timers w) (client w))).
  { intros sk -> Hsk. constructor; unfold live in *; cbn; try done.
    intros _. by apply Forall_lookup. }
  destruct (ws w) as [n|] eqn:Ews.
  2:{ apply (Hstay _ eq_refl). intros m st Hm. destruct (decide (st = CLOSED)); [by right|].
      by specialize (Hws m st Hm ltac:(done)). }
  destruct (sockets w !! n) as [st|] eqn:En.
  2:{ apply (Hstay _ eq_refl). intros m st Hm. destruct (decide (st = CLOSED)); [by right|].
      specialize (Hws m st Hm ltac:(done)). congruence. }
  assert (Hset : st = CONNECTING \/ st = OPEN ->
            conn_inv (set_socket n CLOSING (mkWorld true (attempt w) (Some n) (sockets w) (timers w) (client w)))).
  { intros Hst. pose proof (live_insert w n st CLOSING En) as Hl. unfold weight in Hl.
    rewrite !decide_False in Hl by (by destruct Hst as [-> | ->]).
    unfold live, set_socket in *; cbn in *. constructor; unfold live; cbn; try done; [lia| |].
    - intros _. apply Forall_lookup. intros m st'.
      destruct (decide (m = n)) as [->|Hne].
      + rewrite list_lookup_insert_eq by by eapply lookup_lt_Some. intros [= <-]. by left.
      + rewrite list_lookup_insert_ne by done. intros Hm.
        destruct (decide (st' = CLOSED)); [by right|].
        specialize (Hws m st' Hm ltac:(done)). congruence.
    - intros m st' Hm Hne. destruct (decide (m = n)) as [->|Hmn]; [done|].
      rewrite list_lookup_insert_ne in Hm by done. by eapply Hws. }
  destruct st; auto; apply (Hstay _ eq_refl); intros m st' Hm;
    (destruct (decide (m = n)) as [->|Hmn]; [rewrite En in Hm; injection Hm as <-; auto|]);
    (destruct (decide (st' = CLOSED)); [by right|]); specialize (Hws m st' Hm ltac:(done)); congruence.
Qed.

Lemma client_step_inv w w' :
  quiet_disconnect events -> conn_inv w -> step events w w' -> conn_inv w'.
Proof.
  intros Hq Hw Hs. destruct Hs as [w n Hn|w n data Hn|w n st clean Hn Hst|w i ms Hi|w].
  - by apply open_inv.
  - destruct (handle_data_shape data w) as [s' ->]. by destruct Hw.
  - by eapply close_inv.
  - by eapply timer_inv.
  - by apply user_close_inv.
Qed.

Lemma client_reachable_inv s w :
  quiet_disconnect events -> reachable events s w -> conn_inv w.
Proof.
  intros Hq Hr. unfold reachable in Hr. revert Hr.
  apply (rtc_ind_r (conn_inv (St := St))); [apply connect_inv|]. intros; by eapply client_step_inv.
Qed.

(** *** An open socket has reset the schedule *)

Definition open_reset w : Prop := forall n, sockets w !! n = Some OPEN -> attempt w = 0%nat.

Lemma open_reset_step w w' :
  quiet_disconnect events -> conn_inv w -> step events w w' -> open_reset w -> open_reset w'.
Proof.
  intros Hq Hw Hs Hr. destruct Hs as [w n Hn|w n data Hn|w n st clean Hn Hst|w i ms Hi|w].
  - destruct (handle_open_shape (set_socket n OPEN w)) as [s' ->]. done.
  - destruct (handle_data_shape data w) as [s' ->]. exact Hr.
  - destruct (handle_close_quiet clean (set_socket n CLOSED w) Hq) as [s' ->].
    assert (Hnone : forall m, <[n := CLOSED]> (sockets w) !! m <> Some OPEN).
    { intros m Hm. destruct (decide (m = n)) as [->|Hne].
      - rewrite list_lookup_insert_eq in Hm by by eapply lookup_lt_Some. done.
      - rewrite list_lookup_insert_ne in Hm by done.
        pose proof (inv_ws _ Hw n st Hn Hst). pose proof (inv_ws _ Hw m OPEN Hm ltac:(done)). congruence. }
    intros m Hm. exfalso. apply (Hnone m). revert Hm. unfold scheduleReconnect. cbn. by destruct (closed w).
  - intros m. unfold open_, set_timers. cbn. destruct (closed w); cbn; [apply Hr|].
    rewrite lookup_app. destruct (sockets w !! m) eqn:E; [intros [= ->]; by eapply Hr|].
    by intros [_ ?]%list_lookup_singleton_Some.
  - intros m Hm. assert (Hs : attempt (close_ w) = attempt w
        /\ (sockets (close_ w) !! m = Some OPEN -> sockets w !! m = Some OPEN)).
    { unfold close_. cbn. destruct (ws w) as [n|]; [|done]. destruct (sockets w !! n) as [[]|] eqn:En; try done.
      all: split; [done|]; cbn; intros Ho; destruct (decide (m = n)) as [->|Hne];
        [by rewrite list_lookup_insert_eq in Ho by by eapply lookup_lt_Some
        |by rewrite list_lookup_insert_ne in Ho]. }
    destruct Hs as [-> Hs]. by eapply Hr, Hs.
Qed.

Lemma reachable_open_reset s w : quiet_disconnect events -> reachable events s w -> open_reset w.
Proof.
  intros Hq Hr. enough (conn_inv w /\ open_reset w) by tauto. revert Hr. unfold reachable.
  apply (rtc_ind_r (fun w => conn_inv w /\ open_reset w)).
  - split; [apply connect_inv|]. unfold connect, open_, open_reset. cbn. by intros [|[]].
  - intros y z _ Hs [Hy Ho]. split; [by eapply client_step_inv|by eapply open_reset_step].
Qed.

(** *** After [close()] *)

Lemma closed_step w w' :
  conn_inv w -> closed w = true -> step events w w' ->
  closed w' = true /\ length (sockets w') = length (sockets w)
  /\ rtc (disconnect_only events) (client w) (client w').
Proof.
  intros [_ _ Hcl _ _] Ec Hs. specialize (Hcl Ec). rewrite Forall_lookup in Hcl.
  destruct Hs as [w n Hn|w n data Hn|w n st clean Hn Hst|w i ms Hi|w].
  - by destruct (Hcl _ _ Hn).
  - by destruct (Hcl _ _ Hn).
  - assert (Hd : disconnect_only events (client w)
        (fire ((fun f => f clean) <$> onDisconnect events) (client w)).1) by by exists clean.
    unfold handle_close, set_socket. cbn.
    destruct (fire _ (client w)) as [s' [e|]]; cbn in *; rewrite ?Ec; cbn;
      rewrite length_insert; eauto using rtc_once.
  - unfold open_, set_timers. cbn. by rewrite Ec.
  - unfold close_. cbn. repeat case_match; cbn; rewrite ?length_insert; by split.
Qed.

(** *** The outage *)

Lemma outage_backoff cleans w :
  quiet_disconnect events -> closed w = false -> timers w = [] ->
  is_Some (ws w) ->
  outage events cleans w = backoff <$> seq (attempt w) (length cleans).
Proof.
  intros Hq. revert w. induction cleans as [|clean rest IH]; intros w Hc Ht [n Hn]; [done|].
  cbn [outage length seq]. rewrite Hn.
  destruct (handle_close_quiet clean (set_socket n CLOSED w) Hq) as [s' ->].
  cbn [fst closed set_socket attempt sockets timers].
  unfold scheduleReconnect. cbn. rewrite Hc. cbn. rewrite Ht. cbn [app]. f_equal.
  rewrite IH; [done|done|done|by eexists].
Qed.

Lemma backoff_schedule n :
  backoff <$> seq 0 n = take n ([500; 1000; 2000; 5000] ++ replicate n 15000).
Proof.
  apply list_eq. intros i. rewrite list_lookup_fmap.
  destruct (Nat.lt_ge_cases i n) as [Hi|Hi].
  - rewrite lookup_seq_lt, lookup_take_lt by done. cbn [fmap option_fmap option_map Nat.add].
    destruct (Nat.lt_ge_cases i 4) as [H4|H4].
    + by do 4 (destruct i as [|i]; [done|]); lia.
    + rewrite lookup_app_r by done. rewrite lookup_replicate_2 by (cbn; lia).
      unfold backoff. cbn [length RECONNECT_BACKOFF_MS]. by rewrite Nat.min_r by lia.
  - rewrite lookup_seq_ge, lookup_take_ge by done. done.
Qed.
End Lemmas.

(** A client that logs what it is told and whose [onDisconnect] returns. *)
Inductive Note :=
  | NTracks (ts : list TrackInfo) | NAudio (track : Z) (f : Frame)
  | NPrint (track hash windowMs : Z) | NMeta (track : Z) (m : TrackMetaPayload)
  | NError (code message : jstr) | NUp | NDown (clean : bool).

Definition log_events : RelayEvents (list Note) := {|
  onTrackList := Some (fun ts s => (s ++ [NTracks ts], None));
  onAudio := Some (fun t f s => (s ++ [NAudio t f], None));
  onFingerprint := Some (fun t h w s => (s ++ [NPrint t h w], None));
  onTrackMeta := Some (fun t m s => (s ++ [NMeta t m], None));
  onError := Some (fun c m s => (s ++ [NError c m], None));
  onConnect := Some (fun s => (s ++ [NUp], None));
  onDisconnect := Some (fun c s => (s ++ [NDown c], None)) |}.

Lemma log_quiet : quiet_disconnect log_events.
Proof. intros f clean s Hf. cbn in Hf. injection Hf as <-. done. Qed.

(** ** Properties *)

(** C10: the connection is supervised.  Whatever the browser does, a client that
    was not closed has exactly one unclosed socket or one pending reconnection,
    never both and never two; the unclosed socket is the one [isOpen] looks at,
    and a pending reconnection waits for an entry of the schedule. *)
Theorem connection_supervised {St} (events : RelayEvents St) (s : St) (w : World St) :
  quiet_disconnect events -> reachable events s w ->
  (live w + length (timers w) <= 1)%nat
  /\ (closed w = false -> (live w + length (timers w) = 1)%nat)
  /\ (forall n st, sockets w !! n = Some st -> st <> CLOSED -> ws w = Some n)
  /\ Forall (fun ms => ms ∈ RECONNECT_BACKOFF_MS) (timers w).
Proof.
  intros Hq Hr. destruct (client_reachable_inv _ _ _ Hq Hr) as [Hc Ht _ Hws Hb].
  split; [done|]. split; [done|]. split; [done|].
  eapply Forall_impl; [exact Hb|]. intros ms ->. apply list_elem_of_lookup_total_2.
  unfold RECONNECT_BACKOFF_MS. cbn [length]. lia.
Qed.

Lemma connection_supervised_witness :
  let w := (handle_close log_events false
              (set_socket 0 CLOSED (connect (St := list Note) []))).1 in
  (closed w = false -> (live w + length (timers w) = 1)%nat) /\ timers w = [500].
Proof.
  intros w. split; [|by vm_compute].
  eapply (connection_supervised log_events []); [apply log_quiet|].
  apply rtc_once. by eapply (step_close log_events (connect []) 0 CONNECTING false).
Defined.

(** C25: [close()] is final.  From then on no socket is created and none is
    open, and of all the callbacks only [onDisconnect] can still run. *)
Theorem close_is_final {St} (events : RelayEvents St) (s : St) (w w' : World St) :
  quiet_disconnect events -> reachable events s w -> rtc (step events) (close_ w) w' ->
  closed w' = true /\ isOpen w' = false
  /\ length (sockets w') = length (sockets w)
  /\ rtc (disconnect_only events) (client w) (client w').
Proof.
  intros Hq Hr Hs.
  assert (Hc : closed (close_ w) = true) by (unfold close_; cbn; repeat case_match; done).
  assert (Hn : length (sockets (close_ w)) = length (sockets w) /\ client (close_ w) = client w).
  { unfold close_. cbn. repeat case_match; cbn; rewrite ?length_insert; done. }
  destruct Hn as [Hn Hcl]. rewrite <- Hn, <- Hcl.
  assert (Hi : conn_inv (close_ w)) by (apply user_close_inv; by eapply client_reachable_inv).
  clear Hn Hcl. induction Hs as [w0|w0 w1 w2 H01 H12 IH].
  - split; [done|]. split; [|split; [done|apply rtc_refl]].
    destruct Hi as [_ _ Hall _ _]. specialize (Hall Hc). rewrite Forall_lookup in Hall.
    unfold isOpen. destruct (ws w0) as [n|]; [|done].
    destruct (sockets w0 !! n) as [st|] eqn:E; [|done]. by destruct (Hall _ _ E) as [-> | ->].
  - destruct (closed_step events _ _ Hi Hc H01) as (Hc1 & Hl & Hr1).
    destruct (IH Hc1 (client_step_inv events _ _ Hq Hi H01)) as (? & ? & Hl2 & Hr2).
    rewrite Hl2. split; [done|]; split; [done|]; split; [done|]; by etrans.
Qed.

Lemma close_is_final_witness :
  let w := connect (St := list Note) [] in
  let w' := (handle_close log_events true (set_socket 0 CLOSED (close_ w))).1 in
  isOpen w' = false /\ length (sockets w') = 1%nat /\ client w' = [NDown true].
Proof.
  intros w w'. destruct (close_is_final log_events [] w w') as (_ & Ho & Hl & _).
  - apply log_quiet.
  - apply rtc_refl.
  - apply rtc_once. by eapply (step_close log_events (close_ w) 0 CLOSING true).
  - by split.
Defined.

(** C23: the schedule.  Whatever happened before, and whatever messages arrived
    since the socket opened, the waits before the reconnections after an open
    socket is lost are 500, 1000, 2000 and 5000 ms and then 15 s each time, for
    as long as no new socket opens; a client whose first socket never opens
    waits the same. *)
Theorem outage_schedule {St} (events : RelayEvents St) (s : St) (w : World St) (cleans : list bool) :
  quiet_disconnect events -> reachable events s w -> isOpen w = true \/ w = connect s ->
  outage events cleans w
  = take (length cleans) ([500; 1000; 2000; 5000] ++ replicate (length cleans) 15000).
Proof.
  intros Hq Hr Ho. rewrite <- backoff_schedule.
  destruct Ho as [Ho| ->]; [|apply outage_backoff; try done; by eexists].
  pose proof (client_reachable_inv _ _ _ Hq Hr) as [Hcnt _ Hcl _ _].
  unfold isOpen in Ho. destruct (ws w) as [n|] eqn:Hw; [|done].
  destruct (sockets w !! n) as [[]|] eqn:Hn; try done.
  pose proof (live_pos w n OPEN Hn ltac:(done)).
  rewrite <- (reachable_open_reset events s w Hq Hr n Hn). apply outage_backoff; [done| | |by eexists].
  - destruct (closed w); [|done]. specialize (Hcl eq_refl). rewrite Forall_lookup in Hcl.
    by destruct (Hcl _ _ Hn).
  - apply length_zero_iff_nil. lia.
Qed.

(** A second socket opens after a failed first one and receives a text message. *)
Definition reopened : World (list Note) :=
  let w := (handle_close log_events false (set_socket 0 CLOSED (connect []))).1 in
  let w := open_ (set_timers [] w) in
  (handle_data log_events None (handle_open log_events (set_socket 1 OPEN w)).1).1.

Lemma outage_schedule_witness :
  outage log_events [true; false; false; true; true; true] reopened
  = [500; 1000; 2000; 5000; 15000; 15000].
Proof.
  apply (outage_schedule log_events []); [apply log_quiet | | by left].
  eapply rtc_l; [by apply (step_close log_events (connect []) 0 CONNECTING false)|].
  eapply rtc_l; [by apply (step_timer log_events _ 0 500)|].
  eapply rtc_l; [by apply (step_open log_events _ 1)|].
  apply rtc_once. by apply (step_message log_events _ 1 None).
Defined.

(** C29: a message cannot break the client.  The only exception that leaves
    [handleMessage] is one the caller's own [onAudio] throws, on a well-formed
    audio frame; anything that is not a well-formed frame, and any frame whose
    payload does not decode, changes nothing. *)
Theorem handleMessage_robust {St} (events : RelayEvents St) (data : list Z) (s : St) :
  match decodeFrame data with
  | Throw _ => handleMessage data events s = (s, None)
  | Ok frame =>
      (forall e, (handleMessage data events s).2 = Some e ->
        f_type frame = AudioOpus
        /\ exists f, onAudio events = Some f /\ f (f_track frame) frame s = handleMessage data events s)
      /\ (forall e, decode_payload (f_type frame) (f_payload frame) = Some (Throw e) ->
           handleMessage data events s = (s, None))
  end.
Proof.
  unfold handleMessage. destruct (decodeFrame data) as [frame|]; [|done].
  destruct (f_type frame) eqn:Et; cbn [decode_payload]; (split; intros e He; [|]); try done;
    unfold try_payload in *.
  all: try (match goal with H : context [match ?m with Ok _ => _ | Throw _ => _ end] |- _ =>
              destruct m; done end).
  all: try (match goal with H : Some (_ <$> ?m) = _ |- _ => destruct m; done end).
  split; [done|]. unfold fire in *. destruct (onAudio events) as [f|]; [|done].
  by exists f.
Qed.

(** C24: delivery, end to end.  When a peer encodes a legal payload into a frame
    with the shared codec, the client that receives the bytes calls the one
    callback the payload is meant for, once, with the payload and its track;
    the publisher's messages (HELLO, STATS, SUB_TRACKS) are ignored. *)
Theorem frame_delivered {St} (events : RelayEvents St) (p : Payload) (track flags seq ts : Z)
    (payload data : list Z) (s : St) :
  legal p -> encodable p -> encode_payload p = Ok payload ->
  encodeFrame (mkFrame (payload_type p) track flags seq ts payload) = Ok data ->
  handleMessage data events s = deliver events track p s.
Proof.
  intros Hl He Hp [Hr ->]%encodeFrame_Ok_inv.
  unfold handleMessage. rewrite decodeFrame_layout by done.
  destruct p; cbn [f_type f_track f_payload payload_type encode_payload] in *; try done;
    unfold try_payload, deliver.
  - by rewrite (encodeTrackList_roundtrip _ _ Hl He Hp).
  - rewrite (encodeFingerprint_roundtrip _ _ Hl Hp). by destruct (onFingerprint events).
  - rewrite (encodeTrackMeta_roundtrip _ _ Hl He Hp). by destruct (onTrackMeta events).
  - rewrite (encodeError_roundtrip _ _ Hl He Hp). by destruct (onError events).
Qed.

Lemma frame_delivered_witness :
  handleMessage
    (match encodeFrame (mkFrame TrackList 0 0 7 99 sample_track_bytes) with Ok b => b | Throw _ => [] end)
    log_events [] = ([NTracks sample_tracks], None).
Proof.
  apply (frame_delivered log_events (PTrackList sample_tracks) 0 0 7 99 sample_track_bytes);
    [apply sample_tracks_legal | apply sample_tracks_legal | by vm_compute | by vm_compute].
Defined.
