(* ===== verification/JsObject.v ===== *)
(** * JavaScript objects used as maps

    A plain object with string keys is a [gmap] of its own properties; reading
    a property that is not its own falls through to [Object.prototype].  Key
    order is not observed by the modelled code that uses these objects. *)
From S2P Require Import Prelude JsString Categories.

(** The properties of [Object.prototype], all truthy except that [__proto__]
    is the prototype itself (an object, so truthy too). *)
Definition Object_prototype : list jstr :=
  js <$> ["constructor"; "__defineGetter__"; "__defineSetter__"; "hasOwnProperty";
          "__lookupGetter__"; "__lookupSetter__"; "isPrototypeOf"; "propertyIsEnumerable";
          "toString"; "valueOf"; "__proto__"; "toLocaleString"]%string.

(** What [o[k]] evaluates to. *)
Inductive property (A : Type) :=
  | Undefined
  | Own (a : A)
  | Builtin (name : jstr).
Arguments Undefined {A}.
Arguments Own {A} a.
Arguments Builtin {A} name.

#[export] Instance property_eq_dec `{EqDecision A} : EqDecision (property A).
Proof. solve_decision. Defined.

Definition get_prop {A} (o : gmap jstr A) (k : jstr) : property A :=
  match o !! k with
  | Some a => Own a
  | None => if includes Object_prototype k then Builtin k else Undefined
  end.

(** Of the names of [Object.prototype] only one has the shape of a slug. *)
Lemma slug_prototype k :
  isValidSlug k = true -> k <> js "constructor" -> includes Object_prototype k = false.
Proof.
  intros Hs Hk. unfold includes. apply bool_decide_eq_false. intros Hin.
  assert (Hall : Forall (fun k => k = js "constructor" \/ isValidSlug k = false) Object_prototype)
    by by apply (bool_decide_unpack _); vm_compute.
  rewrite Forall_forall in Hall. destruct (Hall k Hin); congruence.
Qed.

Lemma get_prop_slug {A} (o : gmap jstr A) k :
  isValidSlug k = true -> k <> js "constructor" ->
  get_prop o k = match o !! k with Some a => Own a | None => Undefined end.
Proof. intros Hs Hk. unfold get_prop. by rewrite slug_prototype. Qed.

Lemma get_prop_own {A} (o : gmap jstr A) k a : o !! k = Some a -> get_prop o k = Own a.
Proof. unfold get_prop. by intros ->. Qed.

Lemma preset_slug c :
  isPresetCategory c = true -> isValidSlug c = true /\ c <> js "constructor".
Proof.
  intros Hc. assert (Hall : Forall (fun c => isValidSlug c = true /\ c <> js "constructor")
                              PRESET_CATEGORIES) by by apply (bool_decide_unpack _); vm_compute.
  rewrite Forall_forall in Hall. apply Hall.
  unfold isPresetCategory, includes in Hc. by apply bool_decide_eq_true in Hc.
Qed.
