(* ===== verification/Prefs.v ===== *)
(** * Preferences

    Models extension/src/store/prefs.ts over chrome.storage.local, together
    with the popup's setting (popup/popup.ts), which lives in the same store.
    A load or a save is asynchronous, so [saveGlobalCategory] is two storage
    operations with an interleaving point between them: [step]. *)
From stdpp Require Import relations.
From S2P Require Import Prelude JsString JsNumber Categories JsObject.

(** A field a stored object lacks is [None] ([undefined]). *)
Record ChannelSetting := mkSetting {
  gain : option num;
  muted : option bool;
  permanentlyOff : option bool;
}.

#[export] Instance ChannelSetting_eq_dec : EqDecision ChannelSetting.
Proof. solve_decision. Defined.

Definition GLOBAL_KEY : jstr := js "prefs.global".
Definition STREAMER_KEY_PREFIX : jstr := js "prefs.streamer.".
Definition RELAY_KEY : jstr := js "settings.relayURL".

Definition half : num := of_dec false 5 (-1).

Definition DEFAULT : ChannelSetting := mkSetting (Some half) (Some false) (Some false).

Abbreviation Prefs := (gmap jstr ChannelSetting).
Abbreviation StreamerPrefs := Prefs (only parsing).
Abbreviation GlobalPrefs := Prefs (only parsing).

(** ** Storage *)

(** The two kinds of value the extension stores. *)
Inductive stored :=
  | Settings (p : Prefs)
  | Text (s : jstr).

Abbreviation Store := (gmap jstr stored).

(** [chrome?.storage?.local]: absent outside the extension. *)
Abbreviation Chrome := (option Store).

(** [get(key, fallback)] at the type of preferences: the cast [as T] of a text
    is not a preference object; [store_typed] below rules it out. *)
Definition get (chrome : Chrome) (key : jstr) (fallback : Prefs) : Prefs :=
  match chrome with
  | None => fallback
  | Some st => match st !! key with Some (Settings p) => p | _ => fallback end
  end.

Definition set (chrome : Chrome) (key : jstr) (value : stored) : Chrome :=
  match chrome with None => None | Some st => Some (<[key := value]> st) end.

Definition streamer_key (channelID : jstr) : jstr := STREAMER_KEY_PREFIX ++ channelID.

Definition loadGlobal (chrome : Chrome) : GlobalPrefs := get chrome GLOBAL_KEY ∅.
Definition loadStreamer (chrome : Chrome) (channelID : jstr) : StreamerPrefs :=
  get chrome (streamer_key channelID) ∅.
Definition saveStreamer (chrome : Chrome) (channelID : jstr) (prefs : StreamerPrefs) : Chrome :=
  set chrome (streamer_key channelID) (Settings prefs).

(** [saveGlobalCategory] is the two halves around its [await]. *)
Definition saveGlobal_modify (category : jstr) (setting : ChannelSetting) (all : GlobalPrefs) :
    GlobalPrefs := <[category := setting]> all.

Definition saveGlobalCategory (chrome : Chrome) (category : jstr) (setting : ChannelSetting) :
    Chrome :=
  if negb (isPresetCategory category) then chrome
  else set chrome GLOBAL_KEY (Settings (saveGlobal_modify category setting (loadGlobal chrome))).

(** ** popup.ts *)

(** [/^wss:\/\/[^\s]+$/] *)
Definition RELAY_URL_RE : re :=
  Cat (Lit (js "wss://")) (Plus (Cls (fun c => negb (is_space c)))).

(** The popup's [change] handler on the input's value. *)
Definition popup_change (chrome : Chrome) (value : jstr) : Chrome :=
  let v := trim value in
  if bool_decide (v = []) || re_test RELAY_URL_RE v then set chrome RELAY_KEY (Text v)
  else chrome.

(** The text the popup shows when it opens: [None] leaves the input as it is. *)
Definition popup_load (chrome : Chrome) : option jstr :=
  match chrome with
  | None => None
  | Some st => match st !! RELAY_KEY with Some (Text url) => Some url | _ => None end
  end.

(** ** effectiveSetting *)

(** [if (x) return x]: every setting and every builtin is truthy. *)
Definition effectiveSetting (trackSlug category : jstr) (streamer : StreamerPrefs)
    (global : GlobalPrefs) : property ChannelSetting :=
  match get_prop streamer trackSlug with
  | Undefined =>
      if bool_decide (category = CUSTOM_CATEGORY) then Own DEFAULT
      else
        match get_prop global category with
        | Undefined => Own DEFAULT
        | fromGlobal => fromGlobal
        end
  | fromStreamer => fromStreamer
  end.

(** Field accesses on the result, and the copy [{ ...eff }]: a builtin has
    neither the fields nor enumerable properties of its own. *)
Definition setting_of (eff : property ChannelSetting) : ChannelSetting :=
  match eff with Own s => s | _ => mkSetting None None None end.

(** ** Interleaving *)

(** A call in progress: what it does when it is next scheduled. *)
Inductive task :=
  | TLoadGlobal (category : jstr) (setting : ChannelSetting)
  | TWrite (key : jstr) (value : stored).

(** Calls the pages make; each runs to its first [await]. *)
Inductive call :=
  | CSaveGlobal (category : jstr) (setting : ChannelSetting)
  | CSaveStreamer (channelID : jstr) (prefs : StreamerPrefs)
  | CPopup (value : jstr).

Definition start (c : call) : list task :=
  match c with
  | CSaveGlobal category setting =>
      if negb (isPresetCategory category) then [] else [TLoadGlobal category setting]
  | CSaveStreamer channelID prefs => [TWrite (streamer_key channelID) (Settings prefs)]
  | CPopup value =>
      let v := trim value in
      if bool_decide (v = []) || re_test RELAY_URL_RE v then [TWrite RELAY_KEY (Text v)] else []
  end.

Definition resume (t : task) (chrome : Chrome) : Chrome * list task :=
  match t with
  | TLoadGlobal category setting =>
      (chrome, [TWrite GLOBAL_KEY (Settings (saveGlobal_modify category setting (loadGlobal chrome)))])
  | TWrite key value => (set chrome key value, [])
  end.

Definition State : Type := Chrome * list task.

(** Any page may make a call, and any pending task may be the next to run. *)
Inductive step : State -> State -> Prop :=
  | step_call chrome ts c : step (chrome, ts) (chrome, ts ++ start c)
  | step_resume chrome ts i t :
      ts !! i = Some t ->
      step (chrome, ts) ((resume t chrome).1, delete i ts ++ (resume t chrome).2).

(** ** Invariant *)

Definition presets_only (p : Prefs) : Prop :=
  forall c s, p !! c = Some s -> isPresetCategory c = true.

(** What the extension may keep under a key. *)
Definition typed_entry (key : jstr) (v : stored) : Prop :=
  match v with
  | Settings p => (key = GLOBAL_KEY /\ presets_only p) \/ exists id, key = streamer_key id
  | Text s => key = RELAY_KEY /\ trim s = s /\ (s = [] \/ re_test RELAY_URL_RE s = true)
  end.

Definition store_typed (chrome : Chrome) : Prop :=
  forall st k v, chrome = Some st -> st !! k = Some v -> typed_entry k v.

Definition task_typed (t : task) : Prop :=
  match t with
  | TLoadGlobal c _ => isPresetCategory c = true
  | TWrite k v => typed_entry k v
  end.

(** ** Lemmas *)

Lemma streamer_key_inj a b : streamer_key a = streamer_key b -> a = b.
Proof. unfold streamer_key. apply app_inv_head. Qed.

Lemma streamer_key_not_global id : streamer_key id <> GLOBAL_KEY.
Proof. by vm_compute. Qed.

Lemma streamer_key_not_relay id : streamer_key id <> RELAY_KEY.
Proof. by vm_compute. Qed.

Lemma relay_not_global : RELAY_KEY <> GLOBAL_KEY.
Proof. by vm_compute. Qed.

#[export] Hint Resolve streamer_key_not_global streamer_key_not_relay relay_not_global : smx.

Lemma trim_idem s : trim (trim s) = trim s.
Proof.
  unfold trim. destruct (strip_class_spec is_space s) as (a & b & _ & Hh & Hl).
  by apply strip_class_none.
Qed.

Lemma get_set chrome k k' v fallback :
  get (set chrome k v) k' fallback
  = if decide (k = k' /\ is_Some chrome) then match v with Settings p => p | Text _ => fallback end
    else get chrome k' fallback.
Proof.
  destruct chrome as [st|]; cbn; [|by rewrite decide_False by by intros [_ [? ?]]].
  destruct (decide (k = k')) as [->|Hne].
  - by rewrite lookup_insert_eq, decide_True.
  - by rewrite lookup_insert_ne, decide_False by (done || by intros [? _]).
Qed.

Lemma get_set_ne chrome k k' v fallback :
  k <> k' -> get (set chrome k v) k' fallback = get chrome k' fallback.
Proof. intros. rewrite get_set, decide_False; [done|]. by intros [? _]. Qed.

Lemma loadGlobal_presets chrome : store_typed chrome -> presets_only (loadGlobal chrome).
Proof.
  intros Ht c s. unfold loadGlobal, get. destruct chrome as [st|]; [|done].
  destruct (st !! GLOBAL_KEY) as [[p|]|] eqn:E; try done.
  destruct (Ht st _ _ eq_refl E) as [[_ Hp]|[id Hk]]; [apply Hp|].
  by apply eq_sym, streamer_key_not_global in Hk.
Qed.

Lemma presets_only_insert p c s :
  presets_only p -> isPresetCategory c = true -> presets_only (<[c := s]> p).
Proof.
  intros Hp Hc c' s'. destruct (decide (c = c')) as [<-|Hne]; [done|].
  rewrite lookup_insert_ne by done. apply Hp.
Qed.

Lemma start_typed c : Forall task_typed (start c).
Proof.
  destruct c as [cat s|id p|v]; cbn.
  - destruct (isPresetCategory cat) eqn:E; cbn; by repeat constructor.
  - constructor; [|constructor]. right. by exists id.
  - destruct (_ || _) eqn:E; [|constructor]. constructor; [|constructor].
    split; [done|]. split; [apply trim_idem|].
    apply orb_true_iff in E as [E%bool_decide_eq_true|E]; auto.
Qed.

Lemma set_typed chrome k v :
  store_typed chrome -> typed_entry k v -> store_typed (set chrome k v).
Proof.
  intros Hc Hv st k' v'. destruct chrome as [st0|]; cbn; [|done]. intros [= <-].
  destruct (decide (k = k')) as [<-|Hne].
  - rewrite lookup_insert_eq. by intros [= <-].
  - rewrite lookup_insert_ne by done. by apply Hc.
Qed.

Lemma resume_typed chrome t :
  store_typed chrome -> task_typed t ->
  store_typed (resume t chrome).1 /\ Forall task_typed (resume t chrome).2.
Proof.
  intros Hc Ht. destruct t as [c s|k v]; cbn in *.
  - split; [done|]. constructor; [|constructor]. left. split; [done|].
    apply presets_only_insert; [by apply loadGlobal_presets | done].
  - split; [by apply set_typed | constructor].
Qed.

Lemma step_typed s s' :
  store_typed s.1 /\ Forall task_typed s.2 -> step s s' ->
  store_typed s'.1 /\ Forall task_typed s'.2.
Proof.
  intros Hinv Hs. destruct Hs as [chrome ts c|chrome ts i t Hi]; destruct Hinv as [Hc Ht]; cbn in *.
  - split; [done|]. apply Forall_app. by split; [|apply start_typed].
  - destruct (resume_typed chrome t Hc) as [Hc' Ht'].
    { rewrite Forall_lookup in Ht. by eapply Ht. }
    split; [done|]. apply Forall_app. split; [|done].
    rewrite delete_take_drop. apply Forall_app. split; [by apply Forall_take | by apply Forall_drop].
Qed.

Lemma reachable_typed s s' :
  rtc step s s' -> store_typed s.1 -> Forall task_typed s.2 ->
  store_typed s'.1 /\ Forall task_typed s'.2.
Proof.
  induction 1 as [s|s1 s2 s3 H12 _ IH]; intros Hc Ht; [done|].
  destruct (step_typed s1 s2 (conj Hc Ht) H12). by apply IH.
Qed.

Lemma effectiveSetting_own (trackSlug category : jstr) (streamer global : Prefs) :
  isValidSlug trackSlug = true -> trackSlug <> js "constructor" -> is_category category ->
  effectiveSetting trackSlug category streamer global
  = Own (match streamer !! trackSlug with
         | Some s => s
         | None => if isPresetCategory category
                   then match global !! category with Some s => s | None => DEFAULT end
                   else DEFAULT
         end).
Proof.
  intros Hs Hn Hc. unfold effectiveSetting. rewrite get_prop_slug by done.
  destruct (streamer !! trackSlug); [done|].
  destruct Hc as [-> | Hp]; [by rewrite bool_decide_true|].
  destruct (preset_slug _ Hp). rewrite Hp, get_prop_slug by done.
  rewrite bool_decide_false by by intros ->.
  by destruct (global !! category).
Qed.

(** ** Properties *)

(** C22: the priorities.  For a valid slug and a known category the setting of a
    track is the streamer's own one if there is one, else the global one of its
    category when that is a preset, else the default; the two sources are
    never mixed field by field.  The slug ["constructor"] is excluded. *)
Theorem effectiveSetting_priority (trackSlug category : jstr) (streamer : StreamerPrefs)
    (global : GlobalPrefs) :
  isValidSlug trackSlug = true -> trackSlug <> js "constructor" -> is_category category ->
  effectiveSetting trackSlug category streamer global
  = Own (match streamer !! trackSlug with
         | Some s => s
         | None => if isPresetCategory category
                   then match global !! category with Some s => s | None => DEFAULT end
                   else DEFAULT
         end).
Proof. apply effectiveSetting_own. Qed.

Definition quiet : ChannelSetting := mkSetting (Some num0) (Some true) (Some false).

Lemma effectiveSetting_priority_witness :
  effectiveSetting (js "co-host") (js "mic") (<[js "game" := DEFAULT]> ∅) (<[js "mic" := quiet]> ∅)
  = Own quiet.
Proof.
  rewrite effectiveSetting_priority; [by vm_compute | by vm_compute | by vm_compute |].
  by right; vm_compute.
Defined.

(** C40: the excluded slug.  A track whose slug is ["constructor"] is legal on
    the wire, and without a saved override its "setting" is the builtin
    [Object]: it has no gain and no mute flag, and the default is not used. *)
Theorem effectiveSetting_constructor (category : jstr) (streamer : StreamerPrefs)
    (global : GlobalPrefs) :
  streamer !! js "constructor" = None ->
  isValidSlug (js "constructor") = true
  /\ effectiveSetting (js "constructor") category streamer global = Builtin (js "constructor")
  /\ setting_of (effectiveSetting (js "constructor") category streamer global)
     = mkSetting None None None.
Proof.
  intros Hn. split; [by vm_compute|].
  assert (H : get_prop streamer (js "constructor") = Builtin (js "constructor")).
  { unfold get_prop. by rewrite Hn. }
  unfold effectiveSetting. by rewrite H.
Qed.

Lemma effectiveSetting_constructor_witness :
  setting_of (effectiveSetting (js "constructor") (js "mic") ∅ ∅) <> DEFAULT.
Proof.
  destruct (effectiveSetting_constructor (js "mic") ∅ ∅) as (_ & _ & ->); [done|]. done.
Defined.

(** What is saved is what is loaded, and the scopes are separate: saving a
    streamer's preferences changes that streamer's only; saving a category
    changes that category of the global preferences only, and nothing when it
    is not a preset. *)
Theorem save_load (st : Store) (id id' category : jstr) (prefs : Prefs) (setting : ChannelSetting) :
  let chrome := Some st in
  loadStreamer (saveStreamer chrome id prefs) id'
    = (if decide (id = id') then prefs else loadStreamer chrome id')
  /\ loadGlobal (saveStreamer chrome id prefs) = loadGlobal chrome
  /\ popup_load (saveStreamer chrome id prefs) = popup_load chrome
  /\ loadGlobal (saveGlobalCategory chrome category setting)
    = (if isPresetCategory category then <[category := setting]> (loadGlobal chrome)
       else loadGlobal chrome)
  /\ loadStreamer (saveGlobalCategory chrome category setting) id = loadStreamer chrome id
  /\ popup_load (saveGlobalCategory chrome category setting) = popup_load chrome.
Proof.
  unfold loadStreamer, saveStreamer, loadGlobal, saveGlobalCategory, popup_load. cbn [set].
  split.
  { change (Some (<[?k := ?v]> st)) with (set (Some st) k v). rewrite get_set.
    destruct (decide (id = id')) as [->|Hne]; [by rewrite decide_True by eauto|].
    rewrite decide_False; [done|]. by intros [?%streamer_key_inj _]. }
  split; [by apply (get_set_ne (Some st)); auto with smx|].
  split; [by rewrite lookup_insert_ne by auto with smx|].
  destruct (isPresetCategory category); cbn [negb]; [|done].
  split; [by change (Some (<[?k := ?v]> st)) with (set (Some st) k v); rewrite get_set, decide_True by eauto|].
  split; [by apply (get_set_ne (Some st)); apply not_eq_sym; auto with smx|].
  by rewrite lookup_insert_ne by (apply not_eq_sym; auto with smx).
Qed.

(** C26: the store keeps its types under every interleaving of calls from every
    page: the global preferences only ever have preset categories, and the
    relay URL is empty or a trimmed wss:// URL without white space. *)
Theorem store_stays_typed (s : State) :
  rtc step (Some ∅, []) s ->
  presets_only (loadGlobal s.1)
  /\ forall url, popup_load s.1 = Some url -> trim url = url /\ (url = [] \/ re_test RELAY_URL_RE url = true).
Proof.
  intros Hr. destruct (reachable_typed _ _ Hr) as [Ht _]; [|constructor|].
  { intros st k v. cbn. intros [= <-]. by rewrite lookup_empty. }
  split; [by apply loadGlobal_presets|]. intros url. unfold popup_load.
  destruct s.1 as [st|] eqn:E; [|done]. destruct (st !! RELAY_KEY) as [[p|t]|] eqn:Ek; try done.
  intros [= <-]. by destruct (Ht st _ _ eq_refl Ek).
Qed.

Lemma store_stays_typed_witness :
  exists s, rtc step (Some ∅, []) s /\ loadGlobal s.1 !! js "mic" = Some quiet
            /\ popup_load s.1 = Some (js "wss://relay.example") /\ presets_only (loadGlobal s.1).
Proof.
  set (final := set (saveGlobalCategory (Some ∅) (js "mic") quiet) RELAY_KEY
                  (Text (js "wss://relay.example"))).
  assert (Hr : rtc step (Some ∅, []) (final, [])).
  { eapply rtc_l; [apply (step_call _ _ (CSaveGlobal (js "mic") quiet))|].
    eapply rtc_l; [apply (step_call _ _ (CPopup (js " wss://relay.example ")))|].
    eapply rtc_l; [apply (step_resume _ _ 0 (TLoadGlobal (js "mic") quiet)); by vm_compute|].
    eapply rtc_l; [apply (step_resume _ _ 1 (TWrite GLOBAL_KEY
        (Settings (saveGlobal_modify (js "mic") quiet ∅)))); by vm_compute|].
    eapply rtc_l; [apply (step_resume _ _ 0 (TWrite RELAY_KEY (Text (js "wss://relay.example"))));
                   by vm_compute|].
    apply rtc_refl. }
  exists (final, []). split; [done|]. split; [by vm_compute|]. split; [by vm_compute|].
  apply (store_stays_typed _ Hr).
Defined.

(** Saving a category is not atomic.  Two saves of different categories
    that overlap can leave the store with the second one only. *)
Theorem overlapping_saves_lose_one (st : Store) (c1 c2 : jstr) (s1 s2 : ChannelSetting) :
  isPresetCategory c1 = true -> isPresetCategory c2 = true ->
  exists st', rtc step (Some st, start (CSaveGlobal c1 s1) ++ start (CSaveGlobal c2 s2)) (Some st', [])
              /\ loadGlobal (Some st') = <[c2 := s2]> (loadGlobal (Some st)).
Proof.
  intros H1 H2. set (w c s := TWrite GLOBAL_KEY (Settings (saveGlobal_modify c s (loadGlobal (Some st))))).
  unfold start. rewrite H1, H2. cbn [negb app].
  exists (<[GLOBAL_KEY := Settings (<[c2 := s2]> (loadGlobal (Some st)))]>
           (<[GLOBAL_KEY := Settings (<[c1 := s1]> (loadGlobal (Some st)))]> st)). split.
  - eapply rtc_l; [apply (step_resume _ _ 0 (TLoadGlobal c1 s1)); done|].
    eapply rtc_l; [apply (step_resume _ _ 0 (TLoadGlobal c2 s2)); done|].
    eapply rtc_l; [apply (step_resume _ _ 0 (w c1 s1)); done|].
    eapply rtc_l; [apply (step_resume _ _ 0 (w c2 s2)); done|]. apply rtc_refl.
  - unfold loadGlobal at 1, get. by rewrite lookup_insert_eq.
Qed.

Lemma overlapping_saves_lose_one_witness :
  exists st', rtc step (Some ∅, [TLoadGlobal (js "mic") quiet; TLoadGlobal (js "game") quiet]) (Some st', [])
              /\ loadGlobal (Some st') !! js "mic" = None /\ loadGlobal (Some st') !! js "game" = Some quiet.
Proof.
  destruct (overlapping_saves_lose_one ∅ (js "mic") (js "game") quiet quiet) as (st' & Hr & Hl);
    [by vm_compute | by vm_compute |].
  exists st'. split; [exact Hr|]. rewrite Hl. by split; vm_compute.
Defined.
