(* ===== verification/Display.v ===== *)
(** * Icons and labels of the categories

    Models extension/src/ui/categoryDisplay.ts.  The tables are plain objects,
    so a lookup can reach [Object.prototype] (JsObject.v). *)
From S2P Require Import Prelude JsString Categories JsObject.

(** The emoji are written as their UTF-16 code units. *)
Definition ICONS : gmap jstr jstr := list_to_map
  [(js "mic", [0xD83C; 0xDFA4]); (js "game", [0xD83C; 0xDFAE]); (js "music", [0xD83C; 0xDFB5]);
   (js "voicechat", [0xD83D; 0xDCAC]); (js "notifications", [0xD83D; 0xDD14]);
   (js "browser", [0xD83C; 0xDF10]); (js "alerts", [0xD83D; 0xDCE3]); (js "tts", [0xD83D; 0xDDE3])].

Definition LABELS : gmap jstr jstr := list_to_map
  [(js "mic", js "Microphone"); (js "game", js "Game"); (js "music", js "Music");
   (js "voicechat", js "Voice Chat"); (js "notifications", js "Notifications");
   (js "browser", js "Browser"); (js "alerts", js "Stream Alerts");
   (js "tts", js "TTS / Donations")].

(** [p ?? d] *)
Definition or_default (p : property jstr) (d : jstr) : property jstr :=
  match p with Undefined => Own d | _ => p end.

Definition categoryIcon (c : jstr) : property jstr :=
  or_default (get_prop ICONS c) [0xD83D; 0xDD0A].
Definition categoryLabel (c : jstr) : property jstr :=
  or_default (get_prop LABELS c) (js "Channel").

(** Every category of the wire format has an icon and a label, both
    strings; the tables cover exactly the presets and tell them apart, and
    ["custom"] gets the fallback. *)
Theorem display_total (c : jstr) :
  is_category c ->
  exists icon label,
    categoryIcon c = Own icon /\ categoryLabel c = Own label /\ label <> []
    /\ (label = js "Channel" <-> c = CUSTOM_CATEGORY)
    /\ forall c', is_category c' -> categoryIcon c' = Own icon -> c' = c.
Proof.
  set (all := CUSTOM_CATEGORY :: PRESET_CATEGORIES).
  assert (Hin : forall c, is_category c -> c ∈ all).
  { intros d [->|Hd]; [by left|]. right. by apply bool_decide_eq_true in Hd. }
  assert (Hall : Forall (fun c => Exists (fun icon => Exists (fun label =>
      categoryIcon c = Own icon /\ categoryLabel c = Own label /\ label <> []
      /\ (label = js "Channel" <-> c = CUSTOM_CATEGORY)
      /\ Forall (fun c' => categoryIcon c' = Own icon -> c' = c) all)
      (js "Channel" :: (map_to_list LABELS).*2)) ([0xD83D; 0xDD0A] :: (map_to_list ICONS).*2)) all).
  { by apply (bool_decide_unpack _); vm_compute. }
  intros Hc. rewrite Forall_forall in Hall. specialize (Hall c (Hin c Hc)).
  rewrite Exists_exists in Hall. destruct Hall as (icon & _ & Hl).
  rewrite Exists_exists in Hl. destruct Hl as (label & _ & Hi & Hlab & Hne & Hiff & Huniq).
  exists icon, label. repeat split; try done; try apply Hiff.
  rewrite Forall_forall in Huniq. auto.
Qed.

Lemma display_total_witness :
  exists icon label, categoryIcon (js "tts") = Own icon /\ categoryLabel (js "tts") = Own label
                     /\ label = js "TTS / Donations".
Proof.
  destruct (display_total (js "tts")) as (icon & label & Hi & Hl & _); [by right; vm_compute|].
  exists icon, label. split; [done|]. split; [done|]. vm_compute in Hl. by injection Hl as <-.
Defined.
