(* ===== verification/Platform.v ===== *)
(** * Which stream the page shows

    Models extension/src/platform/detect.ts and player.ts.  The URL parser and
    Unicode lower-casing belong to the engine and are parameters. *)
From S2P Require Import Prelude JsString.

Inductive Platform := twitch | kick.

#[export] Instance Platform_eq_dec : EqDecision Platform.
Proof. solve_decision. Defined.

Definition Platform_string (p : Platform) : jstr :=
  match p with twitch => js "twitch" | kick => js "kick" end.

Record ChannelLocation := mkLocation {
  platform : Platform;
  channelName : jstr;
  channelID : jstr;
}.

Definition TWITCH_RESERVED : list jstr :=
  js <$> ["directory"; "settings"; "videos"; "subscriptions"; "drops"; "wallet"; "search"; "p";
          "downloads"; "store"; "broadcast"; "turbo"; "friends"; "inventory"]%string.

Definition KICK_RESERVED : list jstr :=
  js <$> ["browse"; "categories"; "search"; "dashboard"; "settings"; "subscriptions";
          "following"; "messages"; "vods"]%string.

(** [/^[a-z0-9_]{1,64}$/] *)
Definition is_name_char (c : Z) : bool := is_az09 c || (c =? 95).
Definition CHANNEL_NAME_RE : re := Rep 1 63 (Cls is_name_char).

(** [host.replace(/^www\./, "")] *)
Definition strip_www (host : jstr) : jstr :=
  if startsWith host (js "www.") then drop 4 host else host.

(** [pathname.split("/").filter(Boolean)] *)
Definition path_segments (pathname : jstr) : list jstr :=
  filter (fun s => s <> []) (split 47 pathname).

Section Detect.
(** [new URL(href)]: its hostname and pathname, [None] when it throws. *)
Context (parse_url : jstr -> option (jstr * jstr)).
Context (toLowerCase : jstr -> jstr).

Definition detectChannel (href : jstr) : option ChannelLocation :=
  match parse_url href with
  | None => None
  | Some (hostname, pathname) =>
      let host := strip_www hostname in
      match path_segments pathname with
      | [] => None
      | s0 :: _ =>
          let first := toLowerCase s0 in
          if bool_decide (host = js "twitch.tv") then
            if includes TWITCH_RESERVED first then None
            else if negb (re_test CHANNEL_NAME_RE first) then None
            else Some (mkLocation twitch first (js "twitch:" ++ first))
          else if bool_decide (host = js "kick.com") then
            if includes KICK_RESERVED first then None
            else if negb (re_test CHANNEL_NAME_RE first) then None
            else Some (mkLocation kick first (js "kick:" ++ first))
          else None
      end
  end.
End Detect.

(** ** player.ts *)

(** The document as [querySelector] sees it: the elements, by selector. *)
Record PlayerHooks := mkHooks { video : Z; controlBar : Z }.
Abbreviation Document := (jstr -> option Z).

Record Selectors := mkSelectors { sel_video : jstr; sel_controlBar : jstr }.
Definition TWITCH_SELECTORS : Selectors :=
  mkSelectors (js "video[playsinline]") (js "[data-a-target='player-controls']").
Definition KICK_SELECTORS : Selectors := mkSelectors (js "video") (js ".vjs-control-bar").

Definition findPlayer (querySelector : Document) (p : Platform) : option PlayerHooks :=
  let sel := match p with twitch => TWITCH_SELECTORS | kick => KICK_SELECTORS end in
  match querySelector (sel_video sel), querySelector (sel_controlBar sel) with
  | Some v, Some c => Some (mkHooks v c)
  | _, _ => None
  end.

Definition DEFAULT_TIMEOUT_MS : Z := 15000.

(** The promise [waitForPlayer] returns: settled, or watching mutations since
    [start]. *)
Inductive Waiting :=
  | Resolved (hooks : option PlayerHooks)
  | Observing (start : Z).

(** The call itself, at time [now]. *)
Definition waitForPlayer (d : Document) (p : Platform) (now : Z) : Waiting :=
  match findPlayer d p with
  | Some found => Resolved (Some found)
  | None => Observing now
  end.

(** The observer's callback: the document after a batch of mutations, and the
    time.  A settled promise has disconnected its observer. *)
Definition on_mutation (p : Platform) (timeoutMs : Z) (w : Waiting) (ev : Z * Document) : Waiting :=
  match w with
  | Resolved _ => w
  | Observing start =>
      match findPlayer (ev.2) p with
      | Some hooks => Resolved (Some hooks)
      | None => if timeoutMs <? (ev.1) - start then Resolved None else w
      end
  end.

Definition wait_run (p : Platform) (timeoutMs : Z) (d0 : Document) (now : Z)
    (evs : list (Z * Document)) : Waiting :=
  foldl (on_mutation p timeoutMs) (waitForPlayer d0 p now) evs.

(** ** Lemmas *)

(** The specification of a channel name. *)
Definition name_ok (s : jstr) : Prop :=
  (1 <= length s <= 64)%nat /\ Forall (fun c => is_name_char c = true) s.

Lemma CHANNEL_NAME_RE_spec s : re_test CHANNEL_NAME_RE s = true <-> name_ok s.
Proof. unfold CHANNEL_NAME_RE. rewrite re_test_spec, matches_Rep_Cls. done. Qed.

Definition domain (p : Platform) : jstr :=
  match p with twitch => js "twitch.tv" | kick => js "kick.com" end.
Definition reserved (p : Platform) : list jstr :=
  match p with twitch => TWITCH_RESERVED | kick => KICK_RESERVED end.

Lemma strip_www_domain host p :
  strip_www host = domain p <-> host = domain p \/ host = js "www." ++ domain p.
Proof.
  unfold strip_www, startsWith. split.
  - case_bool_decide as H; [|by left]. intros <-. right. by rewrite <- H, take_drop.
  - intros [-> | ->]; by destruct p.
Qed.

Lemma includes_false l v : includes l v = false <-> v ∉ l.
Proof. unfold includes. by rewrite bool_decide_eq_false. Qed.

Lemma domain_inj p p' : domain p = domain p' -> p = p'.
Proof. by destruct p, p'. Qed.

(** The two arms of [detectChannel] are one. *)
Lemma detectChannel_unfold parse lower href :
  detectChannel parse lower href
  = match parse href with
    | None => None
    | Some (hostname, pathname) =>
        match path_segments pathname, list_find (fun p => strip_www hostname = domain p) [twitch; kick] with
        | s0 :: _, Some (_, p) =>
            if decide (~ (lower s0 ∈ reserved p) /\ name_ok (lower s0))
            then Some (mkLocation p (lower s0) (Platform_string p ++ [58] ++ lower s0)) else None
        | _, _ => None
        end
    end.
Proof.
  unfold detectChannel. destruct (parse href) as [[hostname pathname]|]; [|done].
  destruct (path_segments pathname) as [|s0 rest]; [done|].
  assert (Harm : forall p, (if includes (reserved p) (lower s0) then None
      else if negb (re_test CHANNEL_NAME_RE (lower s0)) then None
      else Some (mkLocation p (lower s0) (Platform_string p ++ [58] ++ lower s0)))
      = if decide (~ (lower s0 ∈ reserved p) /\ name_ok (lower s0))
        then Some (mkLocation p (lower s0) (Platform_string p ++ [58] ++ lower s0)) else None).
  { intros p. destruct (includes (reserved p) (lower s0)) eqn:Ei.
    - rewrite decide_False; [done|]. intros [Hn%includes_false _]. congruence.
    - apply includes_false in Ei. destruct (re_test CHANNEL_NAME_RE (lower s0)) eqn:Et; cbn [negb].
      + apply CHANNEL_NAME_RE_spec in Et. by rewrite decide_True.
      + rewrite decide_False; [done|]. intros [_ Hn%CHANNEL_NAME_RE_spec]. congruence. }
  cbn [list_find]. destruct (decide (strip_www hostname = domain twitch)) as [Ht|Ht].
  { rewrite bool_decide_true by done. apply (Harm twitch). }
  rewrite bool_decide_false by done.
  destruct (decide (strip_www hostname = domain kick)) as [Hk|Hk].
  { rewrite bool_decide_true by done. apply (Harm kick). }
  by rewrite bool_decide_false by done.
Qed.

Lemma find_platform host p :
  strip_www host = domain p ->
  exists i, list_find (fun p => strip_www host = domain p) [twitch; kick] = Some (i, p).
Proof.
  intros H. cbn [list_find]. destruct p.
  - rewrite decide_True by done. by eexists.
  - rewrite decide_False, decide_True by (done || rewrite H; done). by eexists.
Qed.

Lemma first_decisive p timeoutMs start evs :
  foldl (on_mutation p timeoutMs) (Observing start) evs
  = match list_find (fun ev : Z * Document => is_Some (findPlayer (ev.2) p) \/ timeoutMs < (ev.1) - start) evs with
    | Some (_, ev) => Resolved (findPlayer (ev.2) p)
    | None => Observing start
    end.
Proof.
  induction evs as [|ev evs IH]; [done|]. cbn [foldl list_find on_mutation].
  assert (Hr : forall h evs, foldl (on_mutation p timeoutMs) (Resolved h) evs = Resolved h)
    by (intros h; by induction evs0).
  destruct (findPlayer (ev.2) p) as [h|] eqn:E.
  - rewrite decide_True by by left; eexists. by rewrite Hr, E.
  - destruct (Z.ltb_spec timeoutMs (ev.1 - start)).
    + rewrite decide_True by by right. by rewrite Hr, E.
    + rewrite decide_False by by intros [[? ?]|?]; [|lia]. rewrite IH.
      by destruct (list_find _ evs) as [[? ?]|].
Qed.

(** ** Properties *)

(** C38: [detectChannel] accepts exactly the URLs of channel pages: the host is
    the platform's domain with or without www, the first path segment in lower
    case is a name of 1 to 64 units of [a-z0-9_] that is not reserved on that
    platform, and the channel id is "platform:name". *)
Theorem detectChannel_spec (parse_url : jstr -> option (jstr * jstr)) (toLowerCase : jstr -> jstr)
    (href : jstr) (loc : ChannelLocation) :
  detectChannel parse_url toLowerCase href = Some loc
  <-> exists hostname pathname segment rest,
        parse_url href = Some (hostname, pathname)
        /\ (hostname = domain (platform loc) \/ hostname = js "www." ++ domain (platform loc))
        /\ path_segments pathname = segment :: rest
        /\ channelName loc = toLowerCase segment
        /\ name_ok (channelName loc) /\ ~ (channelName loc ∈ reserved (platform loc))
        /\ channelID loc = Platform_string (platform loc) ++ [58] ++ channelName loc.
Proof.
  rewrite detectChannel_unfold. split.
  - destruct (parse_url href) as [[hostname pathname]|]; [|done].
    destruct (path_segments pathname) as [|s0 rest] eqn:Es; [done|].
    destruct (list_find _ _) as [[i p]|] eqn:Ef; [|done].
    destruct (decide _) as [[Hr Hn]|]; [|done]. intros [= <-].
    apply list_find_Some in Ef as (_ & Hd%strip_www_domain & _).
    exists hostname, pathname, s0, rest. done.
  - intros (hostname & pathname & s0 & rest & -> & Hd%strip_www_domain & -> & Hn & Hok & Hr & Hid).
    destruct loc as [p name id]. cbn [platform channelName channelID] in *. subst name id.
    destruct (find_platform _ _ Hd) as [i ->]. by rewrite decide_True.
Qed.

(** The wire form of a channel determines it: two pages with the same
    channel id show the same channel of the same platform. *)
Theorem channelID_identifies (parse_url : jstr -> option (jstr * jstr)) (toLowerCase : jstr -> jstr)
    (href1 href2 : jstr) (loc1 loc2 : ChannelLocation) :
  detectChannel parse_url toLowerCase href1 = Some loc1 ->
  detectChannel parse_url toLowerCase href2 = Some loc2 ->
  channelID loc1 = channelID loc2 -> loc1 = loc2.
Proof.
  assert (Hid : forall href loc, detectChannel parse_url toLowerCase href = Some loc ->
            channelID loc = Platform_string (platform loc) ++ [58] ++ channelName loc).
  { intros href loc. rewrite detectChannel_unfold. intros. repeat case_match; by simplify_eq. }
  intros E1%Hid E2%Hid. destruct loc1 as [p1 n1 i1], loc2 as [p2 n2 i2]. cbn in *.
  intros ->. rewrite E1 in E2. destruct p1, p2; try done; cbn in E2; by simplify_eq.
Qed.

(** A parser for the URLs of the witnesses: "https://host/path". *)
Definition simple_url (href : jstr) : option (jstr * jstr) :=
  if startsWith href (js "https://") then
    match split 47 (drop 8 href) with
    | host :: rest => Some (host, foldr (fun s acc => [47] ++ s ++ acc) [] rest)
    | [] => None
    end
  else None.

Definition lower_ascii (s : jstr) : jstr := (fun c => if in_range 65 90 c then c + 32 else c) <$> s.

Lemma channelID_identifies_witness :
  mkLocation twitch (js "foo_1") (js "twitch:foo_1") = mkLocation twitch (js "foo_1") (js "twitch:foo_1").
Proof.
  apply (channelID_identifies simple_url lower_ascii (js "https://www.twitch.tv/Foo_1/clips")
           (js "https://twitch.tv//FOO_1")); by vm_compute.
Defined.

(** C39: when the player is found, and when it is not.  The promise settles
    with the player as soon as it exists, at the call or at the first batch of
    mutations that shows it; it settles with null only at a batch of mutations
    later than the timeout.  Without such a batch it stays pending for good. *)
Theorem waitForPlayer_outcome (p : Platform) (timeoutMs now : Z) (d0 : Document)
    (evs : list (Z * Document)) :
  wait_run p timeoutMs d0 now evs
  = match findPlayer d0 p with
    | Some hooks => Resolved (Some hooks)
    | None =>
        match list_find (fun ev : Z * Document => is_Some (findPlayer (ev.2) p) \/ timeoutMs < (ev.1) - now) evs with
        | Some (_, ev) => Resolved (findPlayer (ev.2) p)
        | None => Observing now
        end
    end.
Proof.
  unfold wait_run, waitForPlayer. destruct (findPlayer d0 p).
  - by induction evs.
  - apply first_decisive.
Qed.
