(* ===== verification/JsOrder.v ===== *)
(** * Order and exact values of numbers

    The comparison of binary64 numbers is total away from NaN; [fround] is the
    rounding to binary32 that Web Audio parameters store; [val] is the exact
    rational value of a finite number. *)
From Stdlib Require Import SpecFloat QArith.QArith QArith.Qcanon.
From S2P Require Import Prelude JsNumber.
Open Scope Z_scope.

(** ** Definitions *)

Definition isNaN (x : num) : bool := match x with S754_nan => true | _ => false end.

(** [Math.fround]: to binary32 and, exactly, back. *)
Definition fround (x : num) : num :=
  match x with
  | S754_finite s m e =>
      match binary_round 24 128 s m e with
      | S754_finite s m e => binary_round 53 1024 s m e
      | y => y
      end
  | _ => x
  end.

Example fround_examples :
  (fround <$> [of_Z 1; of_Z 16777217; of_dec false 5 (-1); of_dec false 1 39; of_dec true 1 (-50)])
  = [of_Z 1; of_Z 16777216; of_dec false 5 (-1); S754_infinity false; S754_zero true]
  /\ num_toString (fround (of_dec false 2 (-1))) = JsString.js "0.20000000298023224".
Proof. by vm_compute. Qed.

Definition qc (z : Z) : Qc := Q2Qc (inject_Z z).

Definition val (x : num) : Qc :=
  match x with
  | S754_finite s m e =>
      let z := if s then Zneg m else Zpos m in
      if 0 <=? e then qc (z * 2 ^ e)
      else Q2Qc (Qmake z (Z.to_pos (2 ^ (- e))))
  | _ => 0%Qc
  end.

(** ** Lemmas *)

Lemma SFcompare_antisym x y :
  SFcompare y x = match SFcompare x y with Some c => Some (CompOpp c) | None => None end.
Proof.
  destruct x as [sx|sx| |sx mx ex], y as [sy|sy| |sy my ey]; try done;
    try (by destruct sx); try (by destruct sy); try (by destruct sx, sy).
  pose proof (Pos.compare_cont_antisym mx my Eq) as Hm. cbn in Hm.
  cbn [SFcompare]. destruct sx, sy; try done; rewrite (Z.compare_antisym ex ey);
    destruct (Z.compare ex ey); cbn [CompOpp]; try done;
    rewrite <- Hm; by destruct (Pos.compare_cont Eq mx my).
Qed.

Lemma SFcompare_Some x y : isNaN x = false -> isNaN y = false -> SFcompare x y <> None.
Proof.
  destruct x as [sx|sx| |sx mx ex], y as [sy|sy| |sy my ey]; cbn; try done;
    repeat case_match; done.
Qed.

Lemma jlt_false_jle x y :
  isNaN x = false -> isNaN y = false -> jlt x y = false -> jle y x = true.
Proof.
  intros Hx Hy. unfold jlt, jle, SFltb, SFleb. rewrite (SFcompare_antisym x y).
  pose proof (SFcompare_Some x y Hx Hy). by destruct (SFcompare x y) as [[]|].
Qed.

Lemma jlt_jle x y : jlt x y = true -> jle x y = true.
Proof. unfold jlt, jle, SFltb, SFleb. by destruct (SFcompare x y) as [[]|]. Qed.

Lemma jle_refl x : isNaN x = false -> jle x x = true.
Proof.
  intros Hx. apply jlt_false_jle; [done..|]. unfold jlt, SFltb.
  pose proof (SFcompare_antisym x x) as H. by destruct (SFcompare x x) as [[]|].
Qed.

Lemma isFinite_not_NaN x : isFinite x = true -> isNaN x = false.
Proof. by destruct x. Qed.

(** ** Magnitudes

    [below D x]: [x] is finite and its absolute value is less than 2^D.  The
    operations keep finite numbers finite while D stays under the format's
    bound, whatever they round. *)
Definition below (D : Z) (x : num) : Prop :=
  match x with
  | S754_zero _ => True
  | S754_finite _ m e => Zpos (digits2_pos m) + e <= D
  | _ => False
  end.

Lemma below_finite D x : below D x -> isFinite x = true.
Proof. by destruct x. Qed.

Lemma below_weaken D D' x : below D x -> D <= D' -> below D' x.
Proof. destruct x; cbn; lia. Qed.

Lemma Zdigits2_lt m : 0 <= m -> m < 2 ^ Zdigits2 m.
Proof.
  intros Hm. destruct m as [|p|p]; [done| |lia]. cbn [Zdigits2].
  rewrite digits2_pos_log2. apply (Z.log2_spec (Zpos p)). lia.
Qed.

Lemma Zdigits2_le m k : 0 <= m -> 0 <= k -> m < 2 ^ k -> Zdigits2 m <= k.
Proof.
  intros Hm Hk Hlt. destruct m as [|p|p]; [done| |lia]. cbn [Zdigits2].
  rewrite digits2_pos_log2. assert (Z.log2 (Zpos p) < k) by (apply Z.log2_lt_pow2; lia). lia.
Qed.

Lemma Zdigits2_nonneg m : 0 <= Zdigits2 m.
Proof. by destruct m. Qed.

Lemma shr_1_m r : 0 <= shr_m r -> shr_m (shr_1 r) = shr_m r / 2.
Proof.
  destruct r as [[|[p|p|]|p] r s]; cbn; try done; intros _.
  - rewrite (Pos2Z.inj_xI p). apply (Z.div_unique _ 2 _ 1); lia.
  - rewrite (Pos2Z.inj_xO p). apply (Z.div_unique _ 2 _ 0); lia.
Qed.

Lemma iter_shr_1_m p r : 0 <= shr_m r -> shr_m (SpecFloat.iter_pos shr_1 p r) = shr_m r / 2 ^ Zpos p.
Proof.
  revert r. induction p as [p IH|p IH|]; intros r Hr; cbn [SpecFloat.iter_pos].
  - assert (H1 : 0 <= shr_m (shr_1 r)) by (rewrite shr_1_m by done; apply Z.div_pos; lia).
    assert (H2 : 0 <= shr_m (SpecFloat.iter_pos shr_1 p (shr_1 r)))
      by (rewrite IH by done; apply Z.div_pos; lia).
    rewrite IH, IH, shr_1_m by done. rewrite !Z.div_div by lia. f_equal.
    rewrite Pos2Z.inj_xI, Z.pow_add_r, Z.mul_comm by lia.
    replace (2 * Zpos p) with (Zpos p + Zpos p) by lia. rewrite Z.pow_add_r by lia. lia.
  - assert (H1 : 0 <= shr_m (SpecFloat.iter_pos shr_1 p r)) by (rewrite IH by done; apply Z.div_pos; lia).
    rewrite IH, IH by done. rewrite Z.div_div by lia. f_equal.
    replace (Zpos p~0) with (Zpos p + Zpos p) by lia. rewrite Z.pow_add_r by lia. done.
  - rewrite shr_1_m by done. done.
Qed.

Lemma shr_fexp_spec prec emax m e l :
  0 <= m ->
  let '(r, e') := shr_fexp prec emax m e l in
  e' = Z.max e (fexp prec emax (Zdigits2 m + e))
  /\ shr_m r = m / 2 ^ (e' - e) /\ 0 <= shr_m r
  /\ Zdigits2 (shr_m r) + e' <= Z.max (Zdigits2 m + e) e'.
Proof.
  intros Hm. unfold shr_fexp.
  assert (Hr : shr_m (shr_record_of_loc m l) = m) by by destruct l as [|[]].
  set (f := fexp prec emax (Zdigits2 m + e)). unfold shr.
  destruct (f - e) as [|p|p] eqn:E.
  - rewrite Hr. replace (Z.max e f) with e by lia. rewrite Z.sub_diag, Z.div_1_r. lia.
  - assert (Hf : f = e + Zpos p) by lia. rewrite iter_shr_1_m, Hr by (rewrite Hr; done).
    replace (e + Zpos p - e) with (Zpos p) by lia.
    assert (0 <= m / 2 ^ Zpos p) by (apply Z.div_pos; lia).
    split; [lia|]. split; [done|]. split; [done|].
    pose proof (Zdigits2_lt m Hm) as Hlt.
    destruct (Z.le_gt_cases (Zpos p) (Zdigits2 m)) as [Hle|Hgt].
    + assert (Zdigits2 (m / 2 ^ Zpos p) <= Zdigits2 m - Zpos p); [|lia].
      apply Zdigits2_le; [done|lia|]. apply Z.div_lt_upper_bound; [lia|].
      rewrite <- Z.pow_add_r by lia. by replace (Zpos p + (Zdigits2 m - Zpos p)) with (Zdigits2 m) by lia.
    + assert (m / 2 ^ Zpos p = 0) as ->; [|cbn; lia].
      apply Z.div_small. split; [done|]. eapply Z.lt_le_trans; [exact Hlt|].
      apply Z.pow_le_mono_r; lia.
  - rewrite Hr. replace (Z.max e f) with e by lia. rewrite Z.sub_diag, Z.div_1_r. lia.
Qed.

Lemma round_nearest_even_bound m l : 0 <= m -> m <= round_nearest_even m l <= m + 1.
Proof. intros Hm. destruct l as [|[]]; cbn; try case_match; lia. Qed.

Lemma fexp_le prec emax x D : 3 - emax < D -> x <= D -> fexp prec emax x <= D - prec.
Proof. intros HD Hx. unfold fexp, emin. lia. Qed.

Lemma shr_fexp_below prec emax m e l D :
  0 <= m -> 0 < prec -> 3 - emax < D -> Zdigits2 m + e <= D -> e <= D - prec + 1 ->
  let '(r, e') := shr_fexp prec emax m e l in
  0 <= shr_m r /\ (e' <= e \/ e' <= D - prec) /\ Zdigits2 (shr_m r) + e' <= D.
Proof.
  intros Hm Hp HD Hd He. pose proof (shr_fexp_spec prec emax m e l Hm) as H.
  pose proof (fexp_le prec emax _ D HD Hd) as Hf.
  destruct (shr_fexp prec emax m e l) as [r e']. destruct H as (He' & _ & Hr & Hd').
  split; [exact Hr|]. clear Hm Hr HD. revert He' Hd' Hf. generalize (fexp prec emax (Zdigits2 m + e)).
  generalize (Zdigits2 (shr_m r)). generalize dependent (Zdigits2 m). intros. lia.
Qed.

(** The rounding of a number below 2^D is below 2^(D+1). *)
Lemma round_aux_below prec emax s m e l D :
  0 <= m -> 0 < prec -> 3 - emax < D < emax -> Zdigits2 m + e <= D -> e <= D - prec + 1 ->
  below (D + 1) (binary_round_aux prec emax s m e l).
Proof.
  intros Hm Hp [HD HD'] Hd He. unfold binary_round_aux.
  pose proof (shr_fexp_below prec emax m e l D Hm Hp HD Hd He) as H1.
  destruct (shr_fexp prec emax m e l) as [r1 e1]. destruct H1 as (Hr1 & He1 & Hd1).
  set (m2 := round_nearest_even (shr_m r1) (loc_of_shr_record r1)).
  pose proof (round_nearest_even_bound (shr_m r1) (loc_of_shr_record r1) Hr1) as Hm2. fold m2 in Hm2.
  assert (Hdm2 : Zdigits2 m2 <= Zdigits2 (shr_m r1) + 1).
  { pose proof (Zdigits2_lt (shr_m r1) Hr1). pose proof (Zdigits2_nonneg (shr_m r1)).
    apply Zdigits2_le; [lia|lia|]. rewrite Z.pow_add_r by lia. lia. }
  assert (He1' : e1 <= D - prec + 1) by (clear - He He1; lia).
  pose proof (shr_fexp_below prec emax m2 e1 loc_Exact (D + 1) ltac:(lia) Hp ltac:(lia) ltac:(lia) ltac:(lia)) as H2.
  destruct (shr_fexp prec emax m2 e1 loc_Exact) as [r2 e2]. destruct H2 as (Hr2 & He2 & Hd2).
  assert (Hfin : e2 <= emax - prec) by (clear - He1' He2 HD'; lia).
  destruct (shr_m r2) as [|p|p] eqn:Er2; [done| |lia].
  rewrite (proj2 (Z.leb_le e2 (emax - prec)) Hfin). exact Hd2.
Qed.

Lemma shl_align_spec m e e' :
  let '(m', e1) := shl_align m e e' in
  Zpos (digits2_pos m') + e1 = Zpos (digits2_pos m) + e /\ e1 = Z.min e e'.
Proof.
  unfold shl_align. destruct (e' - e) as [|p|p] eqn:E; [lia|lia|].
  rewrite !digits2_pos_log2, iter_xO, Z.log2_mul_pow2 by lia. lia.
Qed.

Lemma binary_round_below prec emax s m e D :
  0 < prec -> 3 - emax < D < emax -> Zpos (digits2_pos m) + e <= D ->
  below (D + 1) (binary_round prec emax s m e).
Proof.
  intros Hp HD Hd. unfold binary_round.
  set (f := fexp prec emax (Zpos (digits2_pos m) + e)).
  assert (Hf : f <= D - prec) by (subst f; unfold fexp, emin; lia).
  pose proof (shl_align_spec m e f) as H. destruct (shl_align m e f) as [mz ez]. destruct H as [H1 H2].
  apply round_aux_below; cbn [Zdigits2]; lia.
Qed.

Lemma fround_below D x : -125 < D < 126 -> below D x -> below (D + 2) (fround x).
Proof.
  intros HD Hx. destruct x as [s|s| |s m e]; try done. cbn [below fround] in *.
  pose proof (binary_round_below 24 128 s m e D ltac:(lia) ltac:(lia) Hx) as H.
  destruct (binary_round 24 128 s m e) as [s'|s'| |s' m' e']; try done. cbn [below] in H.
  replace (D + 2) with (D + 1 + 1) by lia. apply binary_round_below; lia.
Qed.

Lemma jadd_below D x y :
  -1020 < D < 1022 -> below D x -> below D y -> below (D + 2) (jadd x y).
Proof.
  intros HD Hx Hy. unfold jadd.
  destruct x as [sx|sx| |sx mx ex], y as [sy|sy| |sy my ey]; cbn [below] in Hx, Hy; try done;
    try (cbn; repeat case_match; cbn; lia).
  cbn [SFadd]. set (ez := Z.min ex ey).
  pose proof (shl_align_spec mx ex ez) as H1. destruct (shl_align mx ex ez) as [mx' ex'].
  pose proof (shl_align_spec my ey ez) as H2. destruct (shl_align my ey ez) as [my' ey'].
  cbn [fst].
  assert (Hbx : Zpos mx' < 2 ^ (D - ez)).
  { eapply Z.lt_le_trans; [apply (Zdigits2_lt (Zpos mx')); lia|].
    apply Z.pow_le_mono_r; cbn [Zdigits2]; lia. }
  assert (Hby : Zpos my' < 2 ^ (D - ez)).
  { eapply Z.lt_le_trans; [apply (Zdigits2_lt (Zpos my')); lia|].
    apply Z.pow_le_mono_r; cbn [Zdigits2]; lia. }
  assert (Hpos : 0 <= D - ez) by lia.
  set (z := cond_Zopp sx (Zpos mx') + cond_Zopp sy (Zpos my')).
  assert (Hz : Z.abs z < 2 ^ (D - ez + 1)).
  { rewrite Z.pow_add_r by lia. subst z. destruct sx, sy; cbn [cond_Zopp]; lia. }
  unfold binary_normalize. destruct z as [|p|p] eqn:Ez; [done| |];
    (replace (D + 2) with (D + 1 + 1) by lia; apply binary_round_below; [lia|lia|];
     pose proof (Zdigits2_le (Zpos p) (D - ez + 1) ltac:(lia) ltac:(lia) ltac:(lia)); cbn [Zdigits2] in *; lia).
Qed.

Lemma jdiv_below D x sy my ey :
  let d := Zpos (digits2_pos my) + ey in
  -1020 < D - d < 1020 -> below D x -> below (D - d + 2) (jdiv x (S754_finite sy my ey)).
Proof.
  intros d HD Hx. unfold jdiv.
  destruct x as [sx|sx| |sx mx ex]; cbn [below] in Hx; try done.
  cbn [SFdiv]. unfold SFdiv_core_binary. cbn [Zdigits2].
  set (dx := Zpos (digits2_pos mx)) in *. set (f := fexp 53 1024 _).
  assert (Hf : f <= D - d - 53 \/ f <= -1074) by (subst f; unfold fexp, emin; lia).
  set (e' := Z.min f (ex - ey)). set (s := ex - ey - e'). assert (Hs : 0 <= s) by lia.
  set (m' := match s with Zpos _ => Z.shiftl (Zpos mx) s | Z0 => Zpos mx | Zneg _ => 0 end).
  assert (Hm' : m' = Zpos mx * 2 ^ s).
  { subst m'. destruct s; [cbn; lia| |lia]. by rewrite Z.shiftl_mul_pow2. }
  pose proof (Z.div_mod m' (Zpos my) ltac:(lia)) as Hdm.
  unfold Z.div, Z.modulo in Hdm. 
  assert (Hq : fst (Z.div_eucl m' (Zpos my)) = m' / Zpos my) by done.
  destruct (Z.div_eucl m' (Zpos my)) as [q r]. cbn [fst] in Hq. subst q.
  replace (D - d + 2) with (D - d + 1 + 1) by lia.
  assert (0 <= m' / Zpos my) by (apply Z.div_pos; lia).
  pose proof (Zdigits2_lt (Zpos mx) ltac:(lia)) as Hlx. cbn [Zdigits2] in Hlx. fold dx in Hlx.
  assert (Hly : 2 ^ (Zpos (digits2_pos my) - 1) <= Zpos my).
  { rewrite digits2_pos_log2. replace (Z.log2 (Zpos my) + 1 - 1) with (Z.log2 (Zpos my)) by lia.
    apply Z.log2_spec. lia. }
  assert (Hdig : 0 <= dx + s - Zpos (digits2_pos my) + 1 -> Zdigits2 (m' / Zpos my) <= dx + s - Zpos (digits2_pos my) + 1).
  { intros Hn. apply Zdigits2_le; [done|done|]. apply Z.div_lt_upper_bound; [lia|].
    rewrite Hm'. eapply Z.lt_le_trans with (m := 2 ^ dx * 2 ^ s); [apply Zmult_lt_compat_r; lia|].
    rewrite <- Z.pow_add_r by lia.
    transitivity (2 ^ (Zpos (digits2_pos my) - 1) * 2 ^ (dx + s - Zpos (digits2_pos my) + 1));
      [rewrite <- Z.pow_add_r by lia; apply Z.pow_le_mono_r; lia | apply Z.mul_le_mono_nonneg_r; lia]. }
  apply round_aux_below; [done|lia|lia| |lia].
  destruct (Z.le_gt_cases 0 (dx + s - Zpos (digits2_pos my) + 1)) as [Hn|Hn]; [specialize (Hdig Hn); lia|].
  assert (m' / Zpos my = 0) as ->; [|cbn; lia].
  apply Z.div_small. split; [lia|]. rewrite Hm'.
  eapply Z.lt_le_trans with (m := 2 ^ dx * 2 ^ s); [apply Zmult_lt_compat_r; lia|].
  rewrite <- Z.pow_add_r by lia. transitivity (2 ^ (Zpos (digits2_pos my) - 1)); [|done].
  apply Z.pow_le_mono_r; lia.
Qed.

(** A non-negative canonical number that is at most a full-width one is below
    the same power of two. *)
Lemma jle_below x m e :
  num_ok x = true -> jlt x num0 = false -> digits2_pos m = 53%positive -> -1074 <= e ->
  jle x (S754_finite false m e) = true -> below (53 + e) x.
Proof.
  intros Hok Hpos Hm He Hle. unfold jle, SFleb in Hle.
  destruct x as [s|s| |s mx ex]; [done|by destruct s|done|].
  destruct s; [done|]. cbn [SFcompare below] in *.
  unfold num_ok, valid_binary, bounded, canonical_mantissa in Hok.
  apply andb_true_iff in Hok as [Hc%Z.eqb_eq _]. unfold fexp, emin in Hc.
  destruct (Z.compare_spec ex e) as [->|Hlt|Hgt]; [|lia|done].
  pose proof (Pos.compare_cont_spec mx m Eq) as Hcc. rewrite Hcc in Hle. clear Hcc.
  destruct (Pos.compare_spec mx m) as [->|Hlt|Hgt]; cbn in Hle; [lia| |done].
  assert (Zdigits2 (Zpos mx) <= 53); [|cbn [Zdigits2] in *; lia].
  apply Zdigits2_le; [lia..|]. pose proof (Zdigits2_lt (Zpos m) ltac:(lia)) as H.
  cbn [Zdigits2] in H. rewrite Hm in H. lia.
Qed.

(** ** Order *)

Definition rank (x : num) : Z * Z * Z :=
  match x with
  | S754_nan => (3, 0, 0)
  | S754_infinity true => (-2, 0, 0)
  | S754_finite true m e => (-1, - e, Zneg m)
  | S754_zero _ => (0, 0, 0)
  | S754_finite false m e => (1, e, Zpos m)
  | S754_infinity false => (2, 0, 0)
  end.

Definition lex_le (a b : Z * Z * Z) : Prop :=
  let '(a1, a2, a3) := a in
  let '(b1, b2, b3) := b in
  a1 < b1 \/ (a1 = b1 /\ (a2 < b2 \/ (a2 = b2 /\ a3 <= b3))).

Lemma jle_rank x y :
  isNaN x = false -> isNaN y = false -> jle x y = true <-> lex_le (rank x) (rank y).
Proof.
  unfold jle, SFleb, lex_le, rank.
  destruct x as [sx|[]| |[] mx ex], y as [sy|[]| |[] my ey]; cbn; intros Hx Hy; try done; try lia.
  - destruct (Z.compare_spec ex ey) as [->|H|H]; try lia.
    pose proof (Pos.compare_cont_spec mx my Eq) as ->. destruct (Pos.compare_spec mx my); cbn; lia.
  - destruct (Z.compare_spec ex ey) as [->|H|H]; try lia.
    pose proof (Pos.compare_cont_spec mx my Eq) as ->. destruct (Pos.compare_spec mx my); cbn; lia.
Qed.

Lemma jle_not_NaN x y : jle x y = true -> isNaN x = false /\ isNaN y = false.
Proof. by destruct x, y. Qed.

Lemma jle_trans x y z : jle x y = true -> jle y z = true -> jle x z = true.
Proof.
  intros Hxy Hyz. destruct (jle_not_NaN _ _ Hxy) as [Hx Hy], (jle_not_NaN _ _ Hyz) as [_ Hz].
  apply jle_rank in Hxy; [|done..]. apply jle_rank in Hyz; [|done..]. apply jle_rank; [done..|].
  unfold lex_le in *. destruct (rank x) as [[??]?], (rank y) as [[??]?], (rank z) as [[??]?]. lia.
Qed.

(** *** Addition and NaN *)

Lemma round_aux_not_NaN prec emax s m e l :
  0 <= m -> isNaN (binary_round_aux prec emax s m e l) = false.
Proof.
  intros Hm. unfold binary_round_aux.
  pose proof (shr_fexp_spec prec emax m e l Hm) as H1.
  destruct (shr_fexp prec emax m e l) as [r1 e1]. destruct H1 as (_ & _ & Hr1p & _).
  set (m2 := round_nearest_even (shr_m r1) (loc_of_shr_record r1)).
  pose proof (round_nearest_even_bound (shr_m r1) (loc_of_shr_record r1) Hr1p) as Hm2. fold m2 in Hm2.
  pose proof (shr_fexp_spec prec emax m2 e1 loc_Exact ltac:(lia)) as H2.
  destruct (shr_fexp prec emax m2 e1 loc_Exact) as [r2 e2]. destruct H2 as (_ & _ & Hr2p & _).
  destruct (shr_m r2); [done| |lia]. by case_match.
Qed.

Lemma jadd_not_NaN x y : isNaN x = false -> isFinite y = true -> isNaN (jadd x y) = false.
Proof.
  intros Hx Hy. unfold jadd.
  destruct x as [sx|sx| |sx mx ex], y as [sy|sy| |sy my ey]; try done; cbn [SFadd]; try by destruct sx, sy.
  unfold binary_normalize, binary_round.
  destruct (_ + _); [done| |]; destruct (shl_align _ _ _); by apply round_aux_not_NaN.
Qed.

Lemma round_aux_nonneg prec emax m e l :
  0 <= m -> jle num0 (binary_round_aux prec emax false m e l) = true.
Proof.
  intros Hm. pose proof (round_aux_not_NaN prec emax false m e l Hm) as H. revert H.
  unfold binary_round_aux. destruct (shr_fexp _ _ _ _ _) as [r1 e1].
  destruct (shr_fexp _ _ _ _ _) as [r2 e2]. destruct (shr_m r2); [done| |done]. by case_match.
Qed.

Lemma jadd_nonneg x y :
  jle num0 x = true -> jle num0 y = true -> jle num0 (jadd x y) = true.
Proof.
  unfold jadd. destruct x as [sx|[]| |[] mx ex], y as [sy|[]| |[] my ey]; try done;
    cbn [SFadd]; try by destruct sx, sy.
  intros _ _. destruct (shl_align mx ex _) as [p e1], (shl_align my ey _) as [q e2].
  cbn [fst cond_Zopp]. change (Zpos p + Zpos q) with (Zpos (p + q)). cbn [binary_normalize].
  unfold binary_round. destruct (shl_align _ _ _). by apply round_aux_nonneg.
Qed.

(** ** Clock readings

    A number of seconds from 0 to 2^60, on the grid of the binary64 numbers.
    Rounding stays on the grid and does not pass its top. *)
Definition reading (x : num) : bool :=
  match x with
  | S754_zero _ => true
  | S754_finite false m e =>
      (Zpos m <? 2 ^ 53) && (e <=? 7) || (Zpos m =? 2 ^ 52) && (e =? 8)
  | _ => false
  end.

Lemma reading_finite x : reading x = true -> isFinite x = true.
Proof. by destruct x. Qed.

Lemma reading_not_negative x : reading x = true -> jlt x num0 = false.
Proof. by destruct x as [s|s| |[] m e]. Qed.

Lemma round_reading m e :
  Zpos (digits2_pos m) + e <= 60 -> e <= 7 -> reading (binary_round 53 1024 false m e) = true.
Proof.
  intros Hd He. unfold binary_round.
  set (f := fexp 53 1024 (Zpos (digits2_pos m) + e)).
  assert (Hf : Zpos (digits2_pos m) + e - 53 <= f /\ -1074 <= f <= 7) by (subst f; unfold fexp, emin; lia).
  pose proof (shl_align_spec m e f) as Ha. destruct (shl_align m e f) as [mz ez]. destruct Ha as [Ha1 Ha2].
  unfold binary_round_aux.
  pose proof (shr_fexp_spec 53 1024 (Zpos mz) ez loc_Exact ltac:(lia)) as H1. cbn [Zdigits2] in H1.
  rewrite Ha1 in H1. fold f in H1. destruct (shr_fexp 53 1024 (Zpos mz) ez loc_Exact) as [r1 e1].
  destruct H1 as (He1 & _ & Hr1 & Hd1). assert (e1 = f) as -> by lia.
  pose proof (Zdigits2_lt (shr_m r1) Hr1) as Hlt.
  assert (H53 : shr_m r1 < 2 ^ 53)
    by (eapply Z.lt_le_trans; [exact Hlt|]; apply Z.pow_le_mono_r; lia).
  pose proof (round_nearest_even_bound (shr_m r1) (loc_of_shr_record r1) Hr1) as Hm2.
  set (m2 := round_nearest_even _ _) in *.
  pose proof (shr_fexp_spec 53 1024 m2 f loc_Exact ltac:(lia)) as H2.
  destruct (shr_fexp 53 1024 m2 f loc_Exact) as [r2 e2]. destruct H2 as (He2 & Hm3 & Hr2 & _).
  destruct (Z.lt_ge_cases m2 (2 ^ 53)) as [Hsmall|Hbig].
  - assert (Hdig : Zdigits2 m2 <= 53) by (apply Zdigits2_le; lia).
    assert (e2 = f) as -> by (rewrite He2; unfold fexp, emin; lia).
    rewrite Z.sub_diag, Z.div_1_r in Hm3. rewrite Hm3 in *. destruct m2 as [|p|p] eqn:Ep; [done| |lia].
    rewrite (proj2 (Z.leb_le f _)) by lia. cbn [reading]. lia.
  - assert (Hm : m2 = 2 ^ 53) by lia. rewrite Hm in *. change (Zdigits2 (2 ^ 53)) with 54 in He2.
    assert (e2 = f + 1) as -> by (rewrite He2; unfold fexp, emin; lia).
    replace (f + 1 - f) with 1 in Hm3 by lia. change (2 ^ 53 / 2 ^ 1) with (2 ^ 52) in Hm3. rewrite Hm3.
    change (2 ^ 52) with (Zpos 4503599627370496). rewrite (proj2 (Z.leb_le (f + 1) _)) by lia.
    cbn [reading]. lia.
Qed.

Lemma shl_align_value m e e' : Zpos (fst (shl_align m e e')) = Zpos m * 2 ^ Z.max 0 (e - e').
Proof.
  unfold shl_align. destruct (e' - e) as [|p|p] eqn:E; cbn [fst].
  - replace (e - e') with 0 by lia. by rewrite Z.mul_1_r.
  - rewrite Z.max_l by lia. by rewrite Z.mul_1_r.
  - rewrite iter_xO. rewrite Z.max_r by lia. by replace (e - e') with (Zpos p) by lia.
Qed.

(** Adding less than a thirty-second of a second; the top is a case of its own. *)
Lemma jadd_reading x my :
  reading x = true -> Zpos my < 2 ^ 53 ->
  reading (jadd (S754_finite false 4503599627370496 8) (S754_finite false my (-58))) = true ->
  reading (jadd x (S754_finite false my (-58))) = true.
Proof.
  intros Hx Hy Htop. destruct x as [s|s| |[] mx ex]; try done.
  { cbn. lia. }
  cbn [reading] in Hx. apply orb_prop in Hx as [Hx|Hx].
  2:{ apply andb_prop in Hx as [Hm%Z.eqb_eq ->%Z.eqb_eq]. change (2 ^ 52) with 4503599627370496 in Hm.
      injection Hm as ->. exact Htop. }
  clear Htop. apply andb_prop in Hx as [Hmx%Z.ltb_lt Hex%Z.leb_le].
  unfold jadd. cbn [SFadd]. set (ez := Z.min ex (-58)).
  pose proof (shl_align_value mx ex ez) as Vx. pose proof (shl_align_value my (-58) ez) as Vy.
  set (a := fst (shl_align mx ex ez)) in *. set (b := fst (shl_align my (-58) ez)) in *.
  assert (Hez : ez <= -58) by lia. assert (Hsum : Zpos (a + b) < 2 ^ (60 - ez)).
  { rewrite Pos2Z.inj_add, Vx, Vy. clear Vx Vy a b. destruct (Z.le_gt_cases (-58) ex) as [H|H].
    - replace ez with (-58) by lia. rewrite Z.max_r by lia. change (Z.max 0 (-58 - -58)) with 0.
      assert (2 ^ (ex - -58) <= 2 ^ 65) by (apply Z.pow_le_mono_r; lia).
      assert (0 < 2 ^ (ex - -58)) by (apply Z.pow_pos_nonneg; lia).
      change (2 ^ (60 - -58)) with (2 ^ 53 * 2 ^ 65). generalize dependent (2 ^ (ex - -58)).
      clear - Hmx Hy. intros A H1 H2.
      assert (Zpos mx * A <= (2 ^ 53 - 1) * A) by (apply Z.mul_le_mono_nonneg_r; lia). lia.
    - replace ez with ex by lia. rewrite Z.sub_diag. change (Z.max 0 0) with 0. rewrite Z.max_r by lia.
      assert (Hp : 0 < 2 ^ (-58 - ex)) by (apply Z.pow_pos_nonneg; lia).
      replace (60 - ex) with (118 + (-58 - ex)) by lia. rewrite Z.pow_add_r by lia.
      generalize dependent (2 ^ (-58 - ex)). clear - Hmx Hy. intros A H1.
      assert (Zpos my * A <= 2 ^ 53 * A) by (apply Z.mul_le_mono_nonneg_r; lia). lia. }
  cbn [cond_Zopp]. change (Zpos a + Zpos b) with (Zpos (a + b)). cbn [binary_normalize].
  apply round_reading; [|lia].
  pose proof (Zdigits2_le (Zpos (a + b)) (60 - ez) ltac:(lia) ltac:(lia) Hsum) as Hd. cbn [Zdigits2] in Hd. lia.
Qed.
