(* ===== verification/WebAudio.v ===== *)
(** * The part of Web Audio the extension uses

    An AudioContext as the sources drive it: nodes, connections and parameter
    values.  The engine that turns the graph into sound is not in the sources:
    it is a function [out] from nodes to signals of which the clients assume
    the laws [web_audio] (what the specification says of gain and delay nodes
    while the parameters stand still).  [render] is a function with these laws
    on every acyclic graph. *)
From Stdlib Require Import SpecFloat QArith.Qcanon.
From stdpp Require Import sorting.
From S2P Require Import Prelude JsNumber JsOrder.
Open Scope Z_scope.

Inductive Node :=
  | Destination
  | MediaElementSource
  | BufferSource
  | Gain (gain : num)
  | Delay (maxDelayTime delayTime : num).

#[export] Instance Node_eq_dec : EqDecision Node.
Proof. solve_decision. Defined.

(** Nodes are numbered in the order of their creation; a connection is a pair
    (from, to). *)
Record Ctx := mkCtx {
  next : nat;
  nodes : gmap nat Node;
  edges : list (nat * nat);
  ctx_closed : bool;
}.

Definition num1 : num := of_Z 1.

(** [new AudioContext()]: node 0 is [ctx.destination]. *)
Definition newContext : Ctx := mkCtx 1 {[ 0%nat := Destination ]} [] false.
Definition destination : nat := 0.

Definition create (n : Node) (c : Ctx) : nat * Ctx :=
  (next c, mkCtx (S (next c)) (<[next c := n]> (nodes c)) (edges c) (ctx_closed c)).

(** [createGain()]: gain 1. [createDelay(max)]: delay 0. *)
Definition createGain (c : Ctx) : nat * Ctx := create (Gain num1) c.
Definition createDelay (maxDelayTime : num) (c : Ctx) : nat * Ctx :=
  create (Delay maxDelayTime num0) c.

(** [a.connect(b)]: connecting twice is connecting once. *)
Definition connect (a b : nat) (c : Ctx) : Ctx :=
  if decide ((a, b) ∈ edges c) then c
  else mkCtx (next c) (nodes c) (edges c ++ [(a, b)]) (ctx_closed c).

(** [a.disconnect()]: all outgoing connections; none is no error. *)
Definition disconnect (a : nat) (c : Ctx) : Ctx :=
  mkCtx (next c) (nodes c) (filter (fun e => e.1 <> a) (edges c)) (ctx_closed c).

Definition set_node (a : nat) (n : Node) (c : Ctx) : Ctx :=
  mkCtx (next c) (<[a := n]> (nodes c)) (edges c) (ctx_closed c).

(** [node.gain.value = v]: the attribute is a binary32 and a value that is not
    finite there is a [TypeError]. *)
Definition set_gain (a : nat) (v : num) (c : Ctx) : result Ctx :=
  if isFinite (fround v) then Ok (set_node a (Gain (fround v)) c) else Throw TypeError.

(** [node.delayTime.value = v] *)
Definition set_delay (a : nat) (v : num) (c : Ctx) : result Ctx :=
  if isFinite (fround v) then
    match nodes c !! a with
    | Some (Delay m _) => Ok (set_node a (Delay m (fround v)) c)
    | _ => Throw TypeError
    end
  else Throw TypeError.

(** [ctx.close()] *)
Definition close_ctx (c : Ctx) : Ctx := mkCtx (next c) (nodes c) (edges c) true.

(** ** Signals *)

(** The sum of what the connections into [n] carry. *)
Definition mix (out : nat -> Qc -> Qc) (es : list (nat * nat)) (n : nat) (t : Qc) : Qc :=
  foldr (fun e acc => (if decide (e.2 = n) then out e.1 t + acc else acc)%Qc) 0%Qc es.

(** [element] is the media element's sound and [buffers] what the buffer
    sources play. *)
Record web_audio (element : Qc -> Qc) (buffers : nat -> Qc -> Qc) (c : Ctx)
    (out : nat -> Qc -> Qc) : Prop := {
  law_gain : forall n g t, nodes c !! n = Some (Gain g) -> out n t = (val g * mix out (edges c) n t)%Qc;
  law_delay : forall n m d t, nodes c !! n = Some (Delay m d) -> out n t = mix out (edges c) n (t - val d)%Qc;
  law_element : forall n t, nodes c !! n = Some MediaElementSource -> out n t = element t;
  law_buffer : forall n t, nodes c !! n = Some BufferSource -> out n t = buffers n t;
  law_destination : forall n t, nodes c !! n = Some Destination -> out n t = mix out (edges c) n t;
}.

(** An evaluator, [fuel] connections deep. *)
Fixpoint render (fuel : nat) (element : Qc -> Qc) (buffers : nat -> Qc -> Qc) (c : Ctx)
    (n : nat) (t : Qc) : Qc :=
  match fuel with
  | O => 0%Qc
  | S f =>
      let out := render f element buffers c in
      match nodes c !! n with
      | Some (Gain g) => (val g * mix out (edges c) n t)%Qc
      | Some (Delay _ d) => mix out (edges c) n (t - val d)%Qc
      | Some MediaElementSource => element t
      | Some BufferSource => buffers n t
      | Some Destination => mix out (edges c) n t
      | None => 0%Qc
      end
  end.

(** ** Lemmas *)

Lemma mix_app out es es' n t :
  mix out (es ++ es') n t = (mix out es n t + mix out es' n t)%Qc.
Proof.
  induction es as [|e es IH]; cbn [app mix foldr]; [by ring_simplify|].
  fold (mix out (es ++ es') n t) (mix out es n t). rewrite IH. case_decide; ring.
Qed.

Lemma mix_perm out es es' n t : es ≡ₚ es' -> mix out es n t = mix out es' n t.
Proof.
  induction 1 as [|e es es' _ IH|e e' es|es es' es'' _ IH1 _ IH2]; [done| | |by rewrite IH1].
  - cbn. fold (mix out es n t) (mix out es' n t). by rewrite IH.
  - cbn. fold (mix out es n t). repeat case_decide; ring.
Qed.

Lemma mix_none out es n t : Forall (fun e => e.2 <> n) es -> mix out es n t = 0%Qc.
Proof.
  induction 1 as [|e es He _ IH]; [done|]. cbn. fold (mix out es n t).
  by rewrite decide_False.
Qed.

Lemma mix_ext out out' es n t :
  Forall (fun e => e.2 = n -> out e.1 t = out' e.1 t) es -> mix out es n t = mix out' es n t.
Proof.
  induction 1 as [|e es He _ IH]; [done|]. cbn. fold (mix out es n t) (mix out' es n t).
  rewrite IH. case_decide; [by rewrite He | done].
Qed.

(** A graph with a ranking has no cycle. *)
Definition ranked (rank : nat -> nat) (c : Ctx) : Prop :=
  Forall (fun e => (rank e.1 < rank e.2)%nat) (edges c).

Lemma render_stable rank c element buffers f f' n t :
  ranked rank c -> (rank n < f)%nat -> (f <= f')%nat ->
  render f' element buffers c n t = render f element buffers c n t.
Proof.
  intros Hr. revert f' n t. induction f as [|f IH]; intros f' n t Hn Hf; [lia|].
  destruct f' as [|f']; [lia|]. cbn [render].
  assert (Hm : forall t, mix (render f' element buffers c) (edges c) n t
                         = mix (render f element buffers c) (edges c) n t).
  { intros t'. apply mix_ext. eapply Forall_impl; [exact Hr|]. cbn. intros e He He2.
    apply IH; subst; lia. }
  destruct (nodes c !! n) as [[]|]; by rewrite ?Hm.
Qed.

Lemma render_laws rank c element buffers f :
  ranked rank c -> (forall n, is_Some (nodes c !! n) -> (rank n < f)%nat) ->
  web_audio element buffers c (render f element buffers c).
Proof.
  intros Hr Hf.
  assert (Hs : forall n t, is_Some (nodes c !! n) ->
            render f element buffers c n t = render (S f) element buffers c n t).
  { intros n t Hn. symmetry. apply (render_stable rank); [done|by apply Hf|lia]. }
  constructor; intros; rewrite Hs by (by eexists); cbn [render]; by rewrite H.
Qed.

Lemma elem_of_connect a b c e : e ∈ edges (connect a b c) <-> e ∈ edges c \/ e = (a, b).
Proof.
  unfold connect. case_decide as H; cbn; [naive_solver|].
  by rewrite elem_of_app, list_elem_of_singleton.
Qed.

Lemma connect_new a b c :
  (a, b) ∉ edges c -> connect a b c = mkCtx (next c) (nodes c) (edges c ++ [(a, b)]) (ctx_closed c).
Proof. intros H. unfold connect. by rewrite decide_False. Qed.
