(* ===== verification/Graph.v ===== *)
(** * The mixing and cancellation graph

    Models extension/src/audio/graph.ts over WebAudio.v.  A [MixerGraph] is
    mutable in the source and threaded here.  [graph_wf] is the wiring the
    module's diagram draws; [Desk] is the abstract specification of its calls. *)
From Stdlib Require Import SpecFloat QArith.Qcanon.
From S2P Require Import Prelude JsString JsNumber JsOrder WebAudio Prefs.
Open Scope Z_scope.

Record TrackNodes := mkTrackNodes { entry : nat; userGain : nat }.

Record MixerGraph := mkGraph {
  ctx : Ctx;
  master : nat;
  broadcastGain : nat;
  cancellationSum : nat;
  sharedDelay : nat;
  inverter : nat;
  source : nat;
  offsetMs : num;
  tracks : gmap jstr TrackNodes;
}.

Definition MAX_OFFSET_SECONDS : num := of_Z 30.
Definition MAX_OFFSET_MS : num := jmul MAX_OFFSET_SECONDS (of_Z 1000).

Definition with_ctx (c : Ctx) (g : MixerGraph) : MixerGraph :=
  mkGraph c (master g) (broadcastGain g) (cancellationSum g) (sharedDelay g) (inverter g)
    (source g) (offsetMs g) (tracks g).
Definition with_tracks (ts : gmap jstr TrackNodes) (g : MixerGraph) : MixerGraph :=
  mkGraph (ctx g) (master g) (broadcastGain g) (cancellationSum g) (sharedDelay g) (inverter g)
    (source g) (offsetMs g) ts.
Definition with_offset (ms : num) (g : MixerGraph) : MixerGraph :=
  mkGraph (ctx g) (master g) (broadcastGain g) (cancellationSum g) (sharedDelay g) (inverter g)
    (source g) ms (tracks g).

(** [createMediaElementSource] takes an element over for good: a second call
    for the same element, from any context, is an [InvalidStateError].
    [captured] are the elements already taken over. *)
Definition createMediaElementSource (captured : gset Z) (video : Z) (c : Ctx) :
    result (gset Z * nat * Ctx) :=
  if decide (video ∈ captured) then Throw InvalidStateError
  else let '(n, c) := create MediaElementSource c in Ok ({[video]} ∪ captured, n, c).

Definition buildGraph (captured : gset Z) (video : Z) : result (gset Z * MixerGraph) :=
  let c := newContext in
  '(captured, source, c) ← createMediaElementSource captured video c;
  let '(broadcastGain, c) := createGain c in
  c ← set_gain broadcastGain num1 c;
  let '(cancellationSum, c) := createGain c in
  c ← set_gain cancellationSum num1 c;
  let '(sharedDelay, c) := createDelay MAX_OFFSET_SECONDS c in
  c ← set_delay sharedDelay num0 c;
  let '(inverter, c) := createGain c in
  c ← set_gain inverter (of_Z (-1)) c;
  let '(master, c) := createGain c in
  c ← set_gain master num1 c;
  let c := connect source broadcastGain c in
  let c := connect broadcastGain master c in
  let c := connect cancellationSum sharedDelay c in
  let c := connect sharedDelay inverter c in
  let c := connect inverter master c in
  let c := connect master destination c in
  Ok (captured, mkGraph c master broadcastGain cancellationSum sharedDelay inverter source num0 ∅).

Definition addTrack (g : MixerGraph) (slug : jstr) : result (nat * MixerGraph) :=
  match tracks g !! slug with
  | Some existing => Ok (entry existing, g)
  | None =>
      let '(e, c) := createGain (ctx g) in
      c ← set_gain e num1 c;
      let '(u, c) := createGain c in
      c ← set_gain u half c;
      let c := connect e u c in
      let c := connect u (master g) c in
      let c := connect e (cancellationSum g) c in
      Ok (e, with_tracks (<[slug := mkTrackNodes e u]> (tracks g)) (with_ctx c g))
  end.

Definition removeTrack (g : MixerGraph) (slug : jstr) : MixerGraph :=
  match tracks g !! slug with
  | None => g
  | Some t =>
      let c := foldl (fun c n => disconnect n c) (ctx g) [entry t; userGain t] in
      with_tracks (delete slug (tracks g)) (with_ctx c g)
  end.

Definition entryNodeFor (g : MixerGraph) (slug : jstr) : option nat :=
  entry <$> tracks g !! slug.

(** [None] is [undefined]. *)
Definition clamp01 (v : option num) : num :=
  match v with
  | Some v =>
      if negb (isFinite v) then num0
      else if jlt v num0 then num0
      else if jlt num1 v then num1
      else v
  | None => num0
  end.

Definition setTrackGain (g : MixerGraph) (slug : jstr) (value : option num) : result MixerGraph :=
  match tracks g !! slug with
  | None => Ok g
  | Some t => c ← set_gain (userGain t) (clamp01 value) (ctx g); Ok (with_ctx c g)
  end.

Definition setBroadcastGain (g : MixerGraph) (value : num) : result MixerGraph :=
  c ← set_gain (broadcastGain g) (clamp01 (Some value)) (ctx g); Ok (with_ctx c g).

Definition clamp_offset (ms : num) : num :=
  if isFinite ms then jmax num0 (jmin MAX_OFFSET_MS ms) else num0.

Definition setOffsetMs (g : MixerGraph) (ms : num) : result MixerGraph :=
  let clamped := clamp_offset ms in
  let g := with_offset clamped g in
  c ← set_delay (sharedDelay g) (jdiv clamped (of_Z 1000)) (ctx g); Ok (with_ctx c g).

Definition destroy (g : MixerGraph) : MixerGraph :=
  with_ctx (close_ctx (disconnect (source g) (ctx g))) g.

(** ** Well-formed graphs *)

Definition fixed_nodes (g : MixerGraph) : list nat :=
  [destination; source g; broadcastGain g; cancellationSum g; sharedDelay g; inverter g; master g].

Definition nodes_of (t : TrackNodes) : list nat := [entry t; userGain t].

Definition track_nodes (ts : gmap jstr TrackNodes) : list nat :=
  (map_to_list ts).*2 ≫= nodes_of.

Definition fixed_edges (g : MixerGraph) : list (nat * nat) :=
  [(source g, broadcastGain g); (broadcastGain g, master g); (cancellationSum g, sharedDelay g);
   (sharedDelay g, inverter g); (inverter g, master g); (master g, destination)].

Definition edges_of (g : MixerGraph) (t : TrackNodes) : list (nat * nat) :=
  [(entry t, userGain t); (userGain t, master g); (entry t, cancellationSum g)].

Definition track_edges (g : MixerGraph) (ts : gmap jstr TrackNodes) : list (nat * nat) :=
  (map_to_list ts).*2 ≫= edges_of g.

(** A connection the graph did not make: a buffer source into a gain node that
    is neither one of the shared nodes nor a user gain. *)
Definition external (g : MixerGraph) (e : nat * nat) : Prop :=
  nodes (ctx g) !! e.1 = Some BufferSource
  /\ (exists v, nodes (ctx g) !! e.2 = Some (Gain v))
  /\ ~ (e.2 ∈ fixed_nodes g)
  /\ forall slug t, tracks g !! slug = Some t -> e.2 <> userGain t.

Record graph_wf (g : MixerGraph) (ext : list (nat * nat)) : Prop := {
  wf_fresh : forall n, is_Some (nodes (ctx g) !! n) -> (n < next (ctx g))%nat;
  wf_distinct : NoDup (fixed_nodes g ++ track_nodes (tracks g));
  wf_edges : edges (ctx g) ≡ₚ fixed_edges g ++ track_edges g (tracks g) ++ ext;
  wf_external : Forall (external g) ext;
  wf_destination : nodes (ctx g) !! destination = Some Destination;
  wf_source : nodes (ctx g) !! source g = Some MediaElementSource;
  wf_broadcast : exists b, nodes (ctx g) !! broadcastGain g = Some (Gain b);
  wf_cancellation : nodes (ctx g) !! cancellationSum g = Some (Gain num1);
  wf_delay : nodes (ctx g) !! sharedDelay g
             = Some (Delay MAX_OFFSET_SECONDS (fround (jdiv (offsetMs g) (of_Z 1000))));
  wf_inverter : nodes (ctx g) !! inverter g = Some (Gain (of_Z (-1)));
  wf_master : nodes (ctx g) !! master g = Some (Gain num1);
  wf_entry : forall slug t, tracks g !! slug = Some t -> nodes (ctx g) !! entry t = Some (Gain num1);
  wf_userGain : forall slug t, tracks g !! slug = Some t ->
                exists v, nodes (ctx g) !! userGain t = Some (Gain v);
}.

(** The gain a track is heard with. *)
Definition user_gain (c : Ctx) (t : TrackNodes) : option num :=
  match nodes c !! userGain t with Some (Gain v) => Some v | _ => None end.

Definition user_gains (g : MixerGraph) : gmap jstr num := omap (user_gain (ctx g)) (tracks g).

Definition broadcast_gain (g : MixerGraph) : option num :=
  match nodes (ctx g) !! broadcastGain g with Some (Gain v) => Some v | _ => None end.

(** ** Lemmas *)

Ltac in_list := first [apply list_elem_of_here | apply list_elem_of_further; in_list].
Ltac in_fixed := unfold fixed_nodes; in_list.

Lemma track_nodes_split ts slug t :
  ts !! slug = Some t -> track_nodes ts ≡ₚ nodes_of t ++ track_nodes (delete slug ts).
Proof. intros H. unfold track_nodes. by rewrite <- (map_to_list_delete _ _ _ H). Qed.

Lemma track_edges_split g ts slug t :
  ts !! slug = Some t -> track_edges g ts ≡ₚ edges_of g t ++ track_edges g (delete slug ts).
Proof. intros H. unfold track_edges. by rewrite <- (map_to_list_delete _ _ _ H). Qed.

Lemma track_nodes_insert ts slug t :
  ts !! slug = None -> track_nodes (<[slug := t]> ts) ≡ₚ nodes_of t ++ track_nodes ts.
Proof. intros H. unfold track_nodes. by rewrite map_to_list_insert. Qed.

Lemma track_edges_insert g ts slug t :
  ts !! slug = None -> track_edges g (<[slug := t]> ts) ≡ₚ edges_of g t ++ track_edges g ts.
Proof. intros H. unfold track_edges. by rewrite map_to_list_insert. Qed.

Lemma elem_of_track_nodes ts n :
  n ∈ track_nodes ts <-> exists slug t, ts !! slug = Some t /\ (n = entry t \/ n = userGain t).
Proof.
  unfold track_nodes. rewrite list_elem_of_bind. split.
  - intros (t & Hn & ([slug t'] & -> & Ht%elem_of_map_to_list)%list_elem_of_fmap).
    exists slug, t'. split; [done|]. unfold nodes_of in Hn. set_solver.
  - intros (slug & t & Ht & Hn). exists t. split; [unfold nodes_of; set_solver|].
    apply list_elem_of_fmap. exists (slug, t). by rewrite elem_of_map_to_list.
Qed.

Lemma elem_of_track_edges g ts e :
  e ∈ track_edges g ts <-> exists slug t, ts !! slug = Some t /\ e ∈ edges_of g t.
Proof.
  unfold track_edges. rewrite list_elem_of_bind. split.
  - intros (t & He & ([slug t'] & -> & Ht%elem_of_map_to_list)%list_elem_of_fmap). by exists slug, t'.
  - intros (slug & t & Ht & He). exists t. split; [done|].
    apply list_elem_of_fmap. exists (slug, t). by rewrite elem_of_map_to_list.
Qed.

Section Wf.
Context {g : MixerGraph} {ext : list (nat * nat)} (Hwf : graph_wf g ext).

Lemma wf_fixed_NoDup : NoDup (fixed_nodes g).
Proof. pose proof (wf_distinct _ _ Hwf) as (H & _)%NoDup_app. exact H. Qed.

Lemma wf_track_fixed slug t n :
  tracks g !! slug = Some t -> n = entry t \/ n = userGain t -> ~ (n ∈ fixed_nodes g).
Proof.
  intros Ht Hn Hf. pose proof (wf_distinct _ _ Hwf) as (_ & Hd & _)%NoDup_app.
  apply (Hd n Hf), elem_of_track_nodes. eauto.
Qed.

Lemma wf_split slug t :
  tracks g !! slug = Some t ->
  NoDup (fixed_nodes g ++ nodes_of t ++ track_nodes (delete slug (tracks g))).
Proof.
  intros Ht. rewrite <- (track_nodes_split _ _ _ Ht). apply (wf_distinct _ _ Hwf).
Qed.

Lemma wf_entry_userGain slug t slug' t' :
  tracks g !! slug = Some t -> tracks g !! slug' = Some t' -> entry t <> userGain t'.
Proof.
  intros Ht Ht'. pose proof (wf_split slug t Ht) as (_ & _ & Hnd)%NoDup_app.
  apply NoDup_app in Hnd as (Hself & Hd & _).
  destruct (decide (slug = slug')) as [<-|Hne].
  - assert (t = t') as <- by congruence. apply NoDup_cons in Hself. set_solver.
  - intros He. apply (Hd (entry t)); [unfold nodes_of; in_list|].
    apply elem_of_track_nodes. exists slug', t'. rewrite lookup_delete_ne by done. auto.
Qed.

Lemma wf_userGain_inj slug t slug' t' :
  tracks g !! slug = Some t -> tracks g !! slug' = Some t' ->
  userGain t = userGain t' \/ entry t = entry t' -> slug = slug'.
Proof.
  intros Ht Ht' Heq. destruct (decide (slug = slug')) as [|Hne]; [done|]. exfalso.
  pose proof (wf_split slug t Ht) as (_ & _ & (_ & Hd & _)%NoDup_app)%NoDup_app.
  assert (Hin : forall n, n = entry t' \/ n = userGain t' -> n ∈ track_nodes (delete slug (tracks g))).
  { intros n Hn. apply elem_of_track_nodes. exists slug', t'. by rewrite lookup_delete_ne. }
  destruct Heq as [Heq|Heq].
  - apply (Hd (userGain t)); [unfold nodes_of; set_solver | apply Hin; auto].
  - apply (Hd (entry t)); [unfold nodes_of; set_solver | apply Hin; auto].
Qed.
End Wf.

(** *** Construction *)

Lemma buildGraph_fresh captured video :
  video ∉ captured ->
  exists g, buildGraph captured video = Ok ({[video]} ∪ captured, g)
            /\ graph_wf g [] /\ tracks g = ∅ /\ broadcast_gain g = Some num1 /\ offsetMs g = num0.
Proof.
  intros Hv. unfold buildGraph, createMediaElementSource. rewrite decide_False by done.
  set (g := mkGraph
    (mkCtx 7 (list_to_map [(0%nat, Destination); (1%nat, MediaElementSource); (2%nat, Gain num1);
        (3%nat, Gain num1); (4%nat, Delay MAX_OFFSET_SECONDS num0); (5%nat, Gain (of_Z (-1)));
        (6%nat, Gain num1)])
      [(1, 2); (2, 6); (3, 4); (4, 5); (5, 6); (6, 0)]%nat false) 6 2 3 4 5 1 num0 ∅).
  exists g. split; [by vm_compute|]. split; [|done].
  constructor; try done; try (by eexists).
  - intros n Hn. assert (Hall : map_Forall (fun k _ => (k < 7)%nat) (nodes (ctx g)))
      by by apply (bool_decide_unpack _); vm_compute.
    destruct Hn as [x Hx]. apply (Hall _ _ Hx).
  - by apply (bool_decide_unpack _); vm_compute.
Qed.

Lemma buildGraph_captured captured video :
  video ∈ captured -> buildGraph captured video = Throw InvalidStateError.
Proof.
  intros Hv. unfold buildGraph, createMediaElementSource. by rewrite decide_True.
Qed.

(** *** Parameters *)

Lemma wf_fixed_node g ext n :
  graph_wf g ext -> n ∈ fixed_nodes g -> is_Some (nodes (ctx g) !! n).
Proof.
  intros [] Hn. unfold fixed_nodes in Hn. destruct wf_broadcast0.
  repeat (apply elem_of_cons in Hn as [->|Hn]; [by eexists|]). by apply not_elem_of_nil in Hn.
Qed.

(** Two nodes of different kinds or values are different. *)
Lemma node_ne (c : Ctx) a b x y :
  nodes c !! a = Some x -> nodes c !! b = Some y -> x <> y -> a <> b.
Proof. congruence. Qed.

(** Changing parameters of nodes outside the shared unit and sign nodes. *)
(** A gain that may be set is none of the fixed nodes, the broadcast's apart,
    and no track's entry. *)
Lemma wf_control_apart g ext a :
  graph_wf g ext -> (a = broadcastGain g \/ exists slug t, tracks g !! slug = Some t /\ a = userGain t) ->
  (forall n, n ∈ fixed_nodes g -> n <> broadcastGain g -> a <> n)
  /\ forall slug t, tracks g !! slug = Some t -> a <> entry t.
Proof.
  intros Hwf Hrole. split.
  - intros n Hn Hne ->. destruct Hrole as [?|(slug & t & Ht & ->)]; [done|].
    by apply (wf_track_fixed Hwf slug t (userGain t) Ht (or_intror eq_refl)).
  - intros slug t Ht ->. destruct Hrole as [Hb|(slug' & t' & Ht' & He)].
    + apply (wf_track_fixed Hwf slug t (entry t) Ht (or_introl eq_refl)). rewrite Hb. in_fixed.
    + exact (wf_entry_userGain Hwf _ _ _ _ Ht Ht' He).
Qed.

Lemma set_gain_gain c a w n :
  (exists x, nodes c !! n = Some (Gain x)) -> exists x, nodes (set_node a (Gain w) c) !! n = Some (Gain x).
Proof.
  intros [x Hx]. cbn. destruct (decide (a = n)) as [->|Hne].
  - rewrite lookup_insert_eq. by eexists.
  - rewrite lookup_insert_ne by done. by eexists.
Qed.

Lemma wf_set_gain_node g ext a v w :
  graph_wf g ext -> nodes (ctx g) !! a = Some (Gain v) ->
  (a = broadcastGain g \/ exists slug t, tracks g !! slug = Some t /\ a = userGain t) ->
  graph_wf (with_ctx (set_node a (Gain w) (ctx g)) g) ext.
Proof.
  intros Hwf Ha Hrole. pose proof (wf_fixed_NoDup Hwf) as Hnd.
  destruct (wf_control_apart g ext a Hwf Hrole) as [Hfix Hent].
  assert (Hb : destination <> broadcastGain g /\ source g <> broadcastGain g
               /\ cancellationSum g <> broadcastGain g /\ sharedDelay g <> broadcastGain g
               /\ inverter g <> broadcastGain g /\ master g <> broadcastGain g).
  { unfold fixed_nodes in Hnd. rewrite !NoDup_cons, !not_elem_of_cons in Hnd.
    repeat split; first [tauto | apply not_eq_sym; tauto]. }
  destruct Hb as (H1 & H2 & H3 & H4 & H5 & H6).
  unfold fixed_nodes in Hfix.
  assert (Hlook : forall n x, a <> n -> nodes (ctx g) !! n = Some x ->
            nodes (set_node a (Gain w) (ctx g)) !! n = Some x).
  { intros n x Hne Hx. cbn. by rewrite lookup_insert_ne. }
  destruct Hwf. constructor; cbn [ctx with_ctx source broadcastGain cancellationSum sharedDelay inverter master tracks offsetMs].
  - intros n [x Hx]. cbn in *. destruct (decide (a = n)) as [<-|Hne]; [by apply wf_fresh0; eexists|].
    rewrite lookup_insert_ne in Hx by done. apply wf_fresh0. by eexists.
  - done.
  - done.
  - eapply Forall_impl; [exact wf_external0|]. intros e (Hs & He & Hnf & Hnu).
    split; [apply Hlook; [congruence|done]|]. split; [by apply set_gain_gain|by split].
  - apply Hlook; [apply Hfix; [in_list|done]|done].
  - apply Hlook; [apply Hfix; [in_list|done]|done].
  - by apply set_gain_gain.
  - apply Hlook; [apply Hfix; [in_list|done]|done].
  - apply Hlook; [apply Hfix; [in_list|done]|done].
  - apply Hlook; [apply Hfix; [in_list|done]|done].
  - apply Hlook; [apply Hfix; [in_list|done]|done].
  - intros slug t Ht. apply Hlook; eauto.
  - intros slug t Ht. apply set_gain_gain. eauto.
Qed.

(** *** Clamping *)

Definition opt_num_ok (v : option num) : Prop := forall x, v = Some x -> num_ok x = true.

Lemma clamp01_cases v :
  clamp01 v = num0 \/ clamp01 v = num1
  \/ exists x, v = Some x /\ clamp01 v = x /\ isFinite x = true /\ jlt x num0 = false /\ jlt num1 x = false.
Proof.
  destruct v as [x|]; [|by left]. unfold clamp01.
  destruct (isFinite x) eqn:Hf; cbn [negb]; [|by left].
  destruct (jlt x num0) eqn:H0; [by left|]. destruct (jlt num1 x) eqn:H1; [by right; left|].
  right; right. eauto 10.
Qed.

Lemma clamp01_range v : jle num0 (clamp01 v) = true /\ jle (clamp01 v) num1 = true.
Proof.
  destruct (clamp01_cases v) as [-> | [-> | (x & -> & -> & Hf & H0 & H1)]]; [done|done|].
  apply isFinite_not_NaN in Hf. split; by apply jlt_false_jle.
Qed.

Lemma clamp01_below v : opt_num_ok v -> below 1 (clamp01 v).
Proof.
  intros Hok. destruct (clamp01_cases v) as [-> | [-> | (x & -> & -> & Hf & H0 & H1)]]; [done|done|].
  apply isFinite_not_NaN in Hf.
  apply (jle_below x 4503599627370496 (-52)); [by apply Hok|done|done|lia|].
  by apply (jlt_false_jle num1 x).
Qed.

Lemma clamp01_finite v : opt_num_ok v -> isFinite (fround (clamp01 v)) = true.
Proof.
  intros Hok. apply (below_finite 3), (fround_below 1); [lia|]. by apply clamp01_below.
Qed.

Lemma MAX_OFFSET_MS_value : MAX_OFFSET_MS = of_Z 30000.
Proof. by vm_compute. Qed.

Lemma clamp_offset_cases ms :
  clamp_offset ms = num0 \/ clamp_offset ms = MAX_OFFSET_MS
  \/ (clamp_offset ms = ms /\ jlt ms num0 = false /\ jlt MAX_OFFSET_MS ms = false /\ isFinite ms = true).
Proof.
  unfold clamp_offset. rewrite MAX_OFFSET_MS_value.
  destruct (isFinite ms) eqn:Hf; [|by left].
  destruct ms as [s|s| |s m e]; try done; [by left; destruct s|].
  unfold jmin. destruct (of_Z 30000) as [| | |s' m' e'] eqn:E; try done.
  destruct (jlt (S754_finite s m e) (S754_finite s' m' e')) eqn:H1.
  - unfold jmax, num0. destruct s.
    + left. done.
    + right; right. split; [done|]. split; [done|]. split; [|done].
      revert H1. unfold jlt, SFltb. rewrite (SFcompare_antisym (S754_finite false m e)).
      by destruct (SFcompare (S754_finite false m e) (S754_finite s' m' e')) as [[]|].
  - right; left. rewrite <- E. done.
Qed.

Lemma clamp_offset_range ms :
  jle num0 (clamp_offset ms) = true /\ jle (clamp_offset ms) MAX_OFFSET_MS = true.
Proof.
  destruct (clamp_offset_cases ms) as [-> | [-> | (-> & H0 & H1 & Hf)]];
    [by vm_compute | by vm_compute |]. apply isFinite_not_NaN in Hf.
  split; apply jlt_false_jle; done.
Qed.

Lemma clamp_offset_delay ms :
  num_ok ms = true -> isFinite (fround (jdiv (clamp_offset ms) (of_Z 1000))) = true.
Proof.
  intros Hok. assert (Hb : below 15 (clamp_offset ms)).
  { destruct (clamp_offset_cases ms) as [-> | [-> | (-> & H0 & H1 & Hf)]]; [done|by vm_compute|].
    apply (jle_below ms 8246337208320000 (-38)); [done|done|done|lia|].
    apply isFinite_not_NaN in Hf. apply (jlt_false_jle MAX_OFFSET_MS); [by vm_compute|done..]. }
  apply (below_finite 9), (fround_below 7); [lia|].
  by apply (jdiv_below 15 (clamp_offset ms) false 8796093022208000 (-43)).
Qed.

(** *** Adding and removing a track *)

(** What [addTrack] does to the context, spelled out. *)
Definition added (g : MixerGraph) : Ctx :=
  let e := next (ctx g) in
  let u := S e in
  mkCtx (S u) (<[u := Gain half]> (<[e := Gain num1]> (nodes (ctx g))))
    (edges (ctx g) ++ [(e, u); (u, master g); (e, cancellationSum g)]) (ctx_closed (ctx g)).

Lemma wf_edge_nodes g ext a b :
  graph_wf g ext -> (a, b) ∈ edges (ctx g) ->
  (a < next (ctx g))%nat /\ (b < next (ctx g))%nat.
Proof.
  intros Hwf He. rewrite (wf_edges _ _ Hwf), !elem_of_app in He.
  assert (Hs : forall n, is_Some (nodes (ctx g) !! n) -> (n < next (ctx g))%nat) by apply (wf_fresh _ _ Hwf).
  assert (Hfix : Forall (fun n => (n < next (ctx g))%nat) (fixed_nodes g)).
  { apply Forall_forall. intros n Hn. by apply Hs, (wf_fixed_node g ext). }
  unfold fixed_nodes in Hfix. rewrite !Forall_cons in Hfix.
  destruct Hfix as (?&?&?&?&?&?&?&_).
  destruct He as [He|[He|He]].
  - unfold fixed_edges in He.
    repeat (apply elem_of_cons in He as [[= -> ->]|He]; [done|]). by apply not_elem_of_nil in He.
  - apply elem_of_track_edges in He as (slug & t & Ht & He).
    pose proof (wf_entry _ _ Hwf slug t Ht). destruct (wf_userGain _ _ Hwf slug t Ht).
    assert (entry t < next (ctx g))%nat by (apply Hs; by eexists).
    assert (userGain t < next (ctx g))%nat by (apply Hs; by eexists).
    unfold edges_of in He.
    repeat (apply elem_of_cons in He as [[= -> ->]|He]; [done|]). by apply not_elem_of_nil in He.
  - pose proof (wf_external _ _ Hwf) as Hx. rewrite Forall_forall in Hx.
    destruct (Hx _ He) as (Ha & [v Hb] & _). cbn in *. split; apply Hs; by eexists.
Qed.

Lemma addTrack_existing g slug t :
  tracks g !! slug = Some t -> addTrack g slug = Ok (entry t, g).
Proof. intros H. unfold addTrack. by rewrite H. Qed.

Lemma addTrack_new g ext slug :
  graph_wf g ext -> tracks g !! slug = None ->
  addTrack g slug
  = Ok (next (ctx g), with_tracks (<[slug := mkTrackNodes (next (ctx g)) (S (next (ctx g)))]> (tracks g))
                        (with_ctx (added g) g)).
Proof.
  intros Hwf Hn. unfold addTrack. rewrite Hn. set (n := next (ctx g)).
  unfold createGain, create. cbn [next nodes edges ctx_closed set_node]. fold n.
  unfold set_gain. change (isFinite (fround num1)) with true. change (isFinite (fround half)) with true.
  cbn [mbind result_bind set_node next nodes edges ctx_closed].
  assert (Hlt : forall a b, (a, b) ∈ edges (ctx g) -> (a < n)%nat) by (intros a b Hin; by destruct (wf_edge_nodes g ext a b Hwf Hin)).
  rewrite (connect_new n (S n)); cbn [next nodes edges ctx_closed set_node].
  2:{ intros Hin%Hlt. lia. }
  assert (Hm : forall m, m ∈ fixed_nodes g -> (m < n)%nat).
  { intros m Hm. by apply (wf_fresh _ _ Hwf), (wf_fixed_node g ext). }
  assert (Hmn : (master g < n)%nat) by (apply Hm; in_fixed).
  assert (Hcn : (cancellationSum g < n)%nat) by (apply Hm; in_fixed).
  rewrite (connect_new (S n) (master g)); cbn [next nodes edges ctx_closed set_node].
  2:{ rewrite elem_of_app, list_elem_of_singleton. intros [Hin%Hlt|[=]]; lia. }
  rewrite (connect_new n (cancellationSum g)); cbn [next nodes edges ctx_closed set_node].
  2:{ rewrite !elem_of_app, !list_elem_of_singleton. intros [[Hin%Hlt|[=]]|[=]]; lia. }
  unfold added. fold n. rewrite <- !app_assoc. cbn [app].
  do 5 f_equal. apply map_eq. intros i.
  rewrite !lookup_insert. by repeat case_decide; subst; try lia.
Qed.

Lemma added_old g ext i x :
  graph_wf g ext -> nodes (ctx g) !! i = Some x -> nodes (added g) !! i = Some x.
Proof.
  intros Hwf Hi. assert (i < next (ctx g))%nat by (apply (wf_fresh _ _ Hwf); by eexists).
  cbn. rewrite !lookup_insert_ne by lia. done.
Qed.

(** The two new nodes are apart from the others, and so are the nodes again. *)
Lemma addTrack_distinct g ext slug :
  graph_wf g ext -> tracks g !! slug = None ->
  NoDup (fixed_nodes g ++ track_nodes (<[slug := mkTrackNodes (next (ctx g)) (S (next (ctx g)))]> (tracks g))).
Proof.
  intros Hwf Hn. set (n := next (ctx g)). rewrite track_nodes_insert by done.
  pose proof (wf_distinct _ _ Hwf) as Hd.
  assert (Hnew : forall i, i ∈ fixed_nodes g ++ track_nodes (tracks g) -> i <> n /\ i <> S n).
  { intros i Hi. assert (Hin : is_Some (nodes (ctx g) !! i)); [|apply (wf_fresh _ _ Hwf) in Hin; subst n; lia].
    apply elem_of_app in Hi as [Hi|Hi]; [by eapply wf_fixed_node|].
    apply elem_of_track_nodes in Hi as (s' & t' & Ht' & [-> | ->]).
    - rewrite (wf_entry _ _ Hwf s' t' Ht'). by eexists.
    - destruct (wf_userGain _ _ Hwf s' t' Ht') as [v ->]. by eexists. }
  rewrite (Permutation_app_swap_app (fixed_nodes g) (nodes_of _)). cbn [nodes_of entry userGain app].
  rewrite !NoDup_cons. split; [|split; [|done]].
  - rewrite elem_of_cons. intros [|Hi]; [lia|]. by destruct (Hnew _ Hi).
  - intros Hi. by destruct (Hnew _ Hi).
Qed.

Lemma addTrack_wf g ext slug :
  graph_wf g ext -> tracks g !! slug = None ->
  graph_wf (with_tracks (<[slug := mkTrackNodes (next (ctx g)) (S (next (ctx g)))]> (tracks g))
              (with_ctx (added g) g)) ext.
Proof.
  intros Hwf Hn. set (n := next (ctx g)). set (t := mkTrackNodes n (S n)).
  pose proof (fun i x => added_old g ext i x Hwf) as Hold.
  assert (Hfresh : forall i, is_Some (nodes (ctx g) !! i) -> i <> n /\ i <> S n).
  { intros i Hi%(wf_fresh _ _ Hwf). subst n. lia. }
  assert (Htr : forall slug' t', <[slug:=t]> (tracks g) !! slug' = Some t' ->
            t' = t \/ tracks g !! slug' = Some t').
  { intros slug' t'. rewrite lookup_insert. case_decide; [intros [= <-]; by left | by right]. }
  constructor; cbn [ctx with_ctx with_tracks source broadcastGain cancellationSum sharedDelay inverter master tracks offsetMs].
  - intros i [x Hx]. cbn in *. destruct (decide (i = S n)) as [->|H1]; [subst n; lia|].
    destruct (decide (i = n)) as [->|H2]; [subst n; lia|].
    rewrite !lookup_insert_ne in Hx by (subst n; done).
    pose proof (wf_fresh _ _ Hwf i ltac:(by eexists)). lia.
  - exact (addTrack_distinct g ext slug Hwf Hn).
  - rewrite track_edges_insert by done. cbn [added edges]. rewrite (wf_edges _ _ Hwf).
    change (track_edges (with_tracks _ _)) with (track_edges g).
    change (edges_of (with_tracks _ _) t) with [(n, S n); (S n, master g); (n, cancellationSum g)].
    change (fixed_edges (with_tracks _ _)) with (fixed_edges g). fold n.
    rewrite <- !app_assoc. apply Permutation_app_head.
    rewrite (app_assoc _ ext). apply Permutation_app_comm.
  - eapply Forall_impl; [apply (wf_external _ _ Hwf)|]. intros e (Hs & [v Hv] & Hnf & Hnu).
    split; [by apply Hold|]. split; [exists v; by apply Hold|]. split; [done|].
    intros s' t' [-> |Ht']%Htr; [|by eapply Hnu]. cbn. apply Hfresh. rewrite Hv. by eexists.
  - apply Hold, (wf_destination _ _ Hwf).
  - apply Hold, (wf_source _ _ Hwf).
  - destruct (wf_broadcast _ _ Hwf) as [b Hb]. exists b. by apply Hold.
  - apply Hold, (wf_cancellation _ _ Hwf).
  - apply Hold, (wf_delay _ _ Hwf).
  - apply Hold, (wf_inverter _ _ Hwf).
  - apply Hold, (wf_master _ _ Hwf).
  - intros s' t' [-> |Ht']%Htr; [|by apply Hold, (wf_entry _ _ Hwf s')].
    cbn. fold n. rewrite lookup_insert_ne, lookup_insert_eq by lia. done.
  - intros s' t' [-> |Ht']%Htr.
    + cbn. fold n. rewrite lookup_insert_eq. by eexists.
    + destruct (wf_userGain _ _ Hwf s' t' Ht') as [v Hv]. exists v. by apply Hold.
Qed.

Lemma filter_src_keep (a : nat) (es : list (nat * nat)) :
  Forall (fun e => e.1 <> a) es -> filter (fun e => e.1 <> a) es = es.
Proof. apply filter_all. Qed.

(** No connection that stays starts at a node of the removed track. *)
Lemma kept_sources g ext slug t a :
  graph_wf g ext -> tracks g !! slug = Some t -> a ∈ nodes_of t ->
  Forall (fun e => e.1 <> a) (fixed_edges g ++ track_edges g (delete slug (tracks g)) ++ ext).
Proof.
  intros Hwf Ht Ha.
  assert (Hsub : forall s' t', delete slug (tracks g) !! s' = Some t' -> tracks g !! s' = Some t' /\ s' <> slug).
  { intros s' t' [? ?]%lookup_delete_Some. split; [done|congruence]. }
  apply Forall_app; split; [|apply Forall_app; split].
  - assert (Hna : ~ (a ∈ fixed_nodes g)).
    { apply (wf_track_fixed Hwf slug t a Ht). unfold nodes_of in Ha. set_solver. }
    unfold fixed_nodes in Hna. unfold fixed_edges. repeat constructor; cbn; set_solver.
  - apply Forall_forall. intros e (s' & t' & [Ht' Hne]%Hsub & He)%elem_of_track_edges.
    assert (Ha' : a <> entry t' /\ a <> userGain t').
    { unfold nodes_of in Ha. apply elem_of_cons in Ha as [->|Ha]; [|apply list_elem_of_singleton in Ha as ->].
      - split; [intros Heq; apply Hne; symmetry; eapply (wf_userGain_inj Hwf); eauto|].
        by eapply (wf_entry_userGain Hwf).
      - split; [apply not_eq_sym; by eapply (wf_entry_userGain Hwf)|].
        intros Heq; apply Hne; symmetry; eapply (wf_userGain_inj Hwf); eauto. }
    unfold edges_of in He. repeat (apply elem_of_cons in He as [->|He]; [cbn; naive_solver|]).
    by apply not_elem_of_nil in He.
  - eapply Forall_impl; [apply (wf_external _ _ Hwf)|]. intros e (Hs & _ & _ & _) Heq. rewrite Heq in Hs.
    unfold nodes_of in Ha. apply elem_of_cons in Ha as [->|Ha]; [|apply list_elem_of_singleton in Ha as ->].
    + by rewrite (wf_entry _ _ Hwf slug t Ht) in Hs.
    + destruct (wf_userGain _ _ Hwf slug t Ht) as [v Hv]. congruence.
Qed.

Lemma removeTrack_wf g ext slug t :
  graph_wf g ext -> tracks g !! slug = Some t -> graph_wf (removeTrack g slug) ext.
Proof.
  intros Hwf Ht. unfold removeTrack. rewrite Ht. cbn [foldl].
  assert (Hsub : forall s' t', delete slug (tracks g) !! s' = Some t' -> tracks g !! s' = Some t' /\ s' <> slug).
  { intros s' t' [? ?]%lookup_delete_Some. split; [done|congruence]. }
  constructor; cbn [ctx with_ctx with_tracks source broadcastGain cancellationSum sharedDelay inverter
                    master tracks offsetMs nodes disconnect next]; try apply Hwf.
  - pose proof (wf_split Hwf slug t Ht) as Hd.
    rewrite (Permutation_app_swap_app (fixed_nodes g) (nodes_of t)) in Hd.
    by apply NoDup_app in Hd as (_ & _ & Hd).
  - cbn [edges disconnect]. rewrite (wf_edges _ _ Hwf).
    rewrite (track_edges_split g _ _ _ Ht).
    change (track_edges (with_tracks _ _)) with (track_edges g).
    change (fixed_edges (with_tracks _ _)) with (fixed_edges g).
    pose proof (kept_sources g ext slug t (entry t) Hwf Ht ltac:(unfold nodes_of; in_list)) as H1.
    pose proof (kept_sources g ext slug t (userGain t) Hwf Ht ltac:(unfold nodes_of; in_list)) as H2.
    rewrite <- app_assoc, (Permutation_app_swap_app (fixed_edges g) (edges_of g t)).
    rewrite !filter_app in *. rewrite Forall_app in H1, H2. rewrite Forall_app in H1, H2.
    destruct H1 as (F1 & T1 & X1), H2 as (F2 & T2 & X2).
    rewrite (filter_src_keep (entry t) (fixed_edges g)), (filter_src_keep (entry t) (track_edges g _)),
      (filter_src_keep (entry t) ext) by done.
    rewrite (filter_src_keep (userGain t) (fixed_edges g)), (filter_src_keep (userGain t) (track_edges g _)),
      (filter_src_keep (userGain t) ext) by done.
    assert (filter (fun e => e.1 <> userGain t) (filter (fun e => e.1 <> entry t) (edges_of g t)) = []) as ->; [|done].
    unfold edges_of. repeat (rewrite filter_cons; cbn [fst]; case_decide; try done).
  - eapply Forall_impl; [apply (wf_external _ _ Hwf)|]. intros e (Hs & Hv & Hnf & Hnu).
    split; [done|]. split; [done|]. split; [done|]. intros s' t' [Ht' _]%Hsub. by eapply Hnu.
  - intros s' t' [Ht' _]%Hsub. by eapply (wf_entry _ _ Hwf).
  - intros s' t' [Ht' _]%Hsub. by eapply (wf_userGain _ _ Hwf).
Qed.

(** *** The delay, and what others connect *)

Lemma setOffsetMs_wf g ext ms :
  graph_wf g ext -> num_ok ms = true ->
  exists g', setOffsetMs g ms = Ok g' /\ graph_wf g' ext
    /\ tracks g' = tracks g /\ offsetMs g' = clamp_offset ms
    /\ (forall i, i <> sharedDelay g -> nodes (ctx g') !! i = nodes (ctx g) !! i)
    /\ broadcastGain g' = broadcastGain g /\ sharedDelay g' = sharedDelay g.
Proof.
  intros Hwf Hok. unfold setOffsetMs, set_delay. rewrite clamp_offset_delay by done.
  cbn [sharedDelay ctx with_offset]. rewrite (wf_delay _ _ Hwf). cbn [mbind result_bind].
  set (d := Delay _ _). eexists. split; [done|].
  assert (Hother : forall i x, (forall m y, x <> Delay m y) -> nodes (ctx g) !! i = Some x ->
            <[sharedDelay g := d]> (nodes (ctx g)) !! i = Some x).
  { intros i x Hx Hi. rewrite lookup_insert_ne; [done|]. intros <-.
    rewrite (wf_delay _ _ Hwf) in Hi. injection Hi as <-. by eapply Hx. }
  split; [|split; [done|split; [done|split; [|done]]]].
  2:{ intros i Hi. cbn. by rewrite lookup_insert_ne. }
  constructor; cbn [ctx with_ctx with_offset source broadcastGain cancellationSum sharedDelay inverter
                    master tracks offsetMs nodes set_node next edges]; try apply Hwf.
  - intros i [x Hx]. destruct (decide (sharedDelay g = i)) as [<-|Hne].
    + apply (wf_fresh _ _ Hwf). rewrite (wf_delay _ _ Hwf). by eexists.
    + rewrite lookup_insert_ne in Hx by done. apply (wf_fresh _ _ Hwf). by eexists.
  - eapply Forall_impl; [apply (wf_external _ _ Hwf)|]. intros e (Hs & [v Hv] & Hnf & Hnu).
    split; [by apply Hother|]. split; [exists v; by apply Hother|]. by split.
  - apply Hother; [done|apply Hwf].
  - apply Hother; [done|apply Hwf].
  - destruct (wf_broadcast _ _ Hwf) as [b Hb]. exists b. by apply Hother.
  - apply Hother; [done|apply Hwf].
  - by rewrite lookup_insert_eq.
  - apply Hother; [done|apply Hwf].
  - apply Hother; [done|apply Hwf].
  - intros s t Ht. apply Hother; [done|]. by apply (wf_entry _ _ Hwf s).
  - intros s t Ht. destruct (wf_userGain _ _ Hwf s t Ht) as [v Hv]. exists v. by apply Hother.
Qed.

(** The scheduler creates a buffer source and connects it to a track's entry;
    later it disconnects it. *)
Definition play_into (e : nat) (g : MixerGraph) : nat * MixerGraph :=
  let '(n, c) := create BufferSource (ctx g) in (n, with_ctx (connect n e c) g).

Definition stop_playing (n : nat) (g : MixerGraph) : MixerGraph :=
  with_ctx (disconnect n (ctx g)) g.

Lemma play_into_wf g ext slug t :
  graph_wf g ext -> tracks g !! slug = Some t ->
  let '(n, g') := play_into (entry t) g in
  graph_wf g' (ext ++ [(n, entry t)]) /\ tracks g' = tracks g
  /\ (forall i, i <> n -> nodes (ctx g') !! i = nodes (ctx g) !! i) /\ n = next (ctx g)
  /\ nodes (ctx g') !! n = Some BufferSource.
Proof.
  intros Hwf Ht. unfold play_into, create. set (n := next (ctx g)).
  assert (Hlt : forall a b, (a, b) ∈ edges (ctx g) -> (a < n)%nat)
    by (intros a b Hin; by destruct (wf_edge_nodes g ext a b Hwf Hin)).
  rewrite connect_new by (cbn; intros Hin%Hlt; lia).
  cbn [next nodes edges ctx_closed].
  assert (Hold : forall i x, nodes (ctx g) !! i = Some x ->
            <[n := BufferSource]> (nodes (ctx g)) !! i = Some x).
  { intros i x Hi. rewrite lookup_insert_ne; [done|]. intros <-.
    pose proof (wf_fresh _ _ Hwf n ltac:(by eexists)). subst n. lia. }
  split; [|split; [done|split; [|split; [done|]]]].
  2:{ intros i Hi. cbn. by rewrite lookup_insert_ne. }
  2:{ cbn. by rewrite lookup_insert_eq. }
  constructor; cbn [ctx with_ctx source broadcastGain cancellationSum sharedDelay inverter
                    master tracks offsetMs nodes next edges]; try apply Hwf.
  - intros i [x Hx]. destruct (decide (i = n)) as [->|Hne]; [subst n; lia|].
    rewrite lookup_insert_ne in Hx by done.
    pose proof (wf_fresh _ _ Hwf i ltac:(by eexists)). lia.
  - change (track_edges (with_ctx _ g)) with (track_edges g).
    change (fixed_edges (with_ctx _ g)) with (fixed_edges g).
    rewrite (wf_edges _ _ Hwf), <- !app_assoc. done.
  - apply Forall_app. split.
    + eapply Forall_impl; [apply (wf_external _ _ Hwf)|]. intros e (Hs & [v Hv] & Hnf & Hnu).
      split; [by apply Hold|]. split; [exists v; by apply Hold|]. by split.
    + constructor; [|constructor]. split; [cbn; by rewrite lookup_insert_eq|].
      split; [exists num1; by apply Hold, (wf_entry _ _ Hwf slug)|].
      split; [by apply (wf_track_fixed Hwf slug t); [|left]|].
      intros s' t' Ht'. by eapply (wf_entry_userGain Hwf).
  - apply Hold, Hwf.
  - apply Hold, Hwf.
  - destruct (wf_broadcast _ _ Hwf) as [b Hb]. exists b. by apply Hold.
  - apply Hold, Hwf.
  - apply Hold, Hwf.
  - apply Hold, Hwf.
  - apply Hold, Hwf.
  - intros s t' Ht'. by apply Hold, (wf_entry _ _ Hwf s).
  - intros s t' Ht'. destruct (wf_userGain _ _ Hwf s t' Ht') as [v Hv]. exists v. by apply Hold.
Qed.

Lemma stop_playing_wf g ext n :
  graph_wf g ext -> nodes (ctx g) !! n = Some BufferSource ->
  graph_wf (stop_playing n g) (filter (fun e => e.1 <> n) ext).
Proof.
  intros Hwf Hn. constructor; cbn [ctx with_ctx stop_playing source broadcastGain cancellationSum sharedDelay
    inverter master tracks offsetMs nodes next edges disconnect]; try apply Hwf.
  - change (track_edges (with_ctx _ g)) with (track_edges g).
    change (fixed_edges (with_ctx _ g)) with (fixed_edges g).
    rewrite (wf_edges _ _ Hwf), !filter_app.
    rewrite (filter_src_keep n (fixed_edges g)), (filter_src_keep n (track_edges g _)); [done| |].
    + apply Forall_forall. intros e (s' & t' & Ht' & He)%elem_of_track_edges Heq.
      pose proof (wf_entry _ _ Hwf s' t' Ht'). destruct (wf_userGain _ _ Hwf s' t' Ht') as [v Hv].
      unfold edges_of in He. repeat (apply elem_of_cons in He as [->|He]; [cbn in Heq; congruence|]).
      by apply not_elem_of_nil in He.
    + destruct (wf_broadcast _ _ Hwf) as [b Hb]. destruct Hwf. unfold fixed_edges.
      repeat (constructor; [cbn; congruence|]). constructor.
  - pose proof (wf_external _ _ Hwf) as Hx. rewrite Forall_forall in Hx.
    apply Forall_forall. intros e [_ He]%list_elem_of_filter. exact (Hx e He).
Qed.

(** *** Signals *)

Section Sound.
Context {g : MixerGraph} {ext : list (nat * nat)} (Hwf : graph_wf g ext).
Context {element : Qc -> Qc} {buffers : nat -> Qc -> Qc} {out : nat -> Qc -> Qc}.
Context (Hout : web_audio element buffers (ctx g) out).
Local Open Scope Qc_scope.

(** What the graph itself connects to a node. *)
Definition inner_mix (n : nat) (t : Qc) : Qc :=
  mix out (fixed_edges g) n t + mix out (track_edges g (tracks g)) n t.

Lemma mix_wf n t : mix out (edges (ctx g)) n t = inner_mix n t + mix out ext n t.
Proof.
  rewrite (mix_perm _ _ _ _ _ (wf_edges _ _ Hwf)), !mix_app. unfold inner_mix. ring.
Qed.

(** Nothing outside the graph is connected to its shared nodes or user gains. *)
Lemma mix_ext_none n t :
  n ∈ fixed_nodes g \/ (exists slug tr, tracks g !! slug = Some tr /\ n = userGain tr) ->
  mix out ext n t = 0.
Proof.
  intros Hn. apply mix_none. eapply Forall_impl; [apply (wf_external _ _ Hwf)|].
  intros e (_ & _ & Hnf & Hnu) Heq. rewrite Heq in *.
  destruct Hn as [?|(slug & tr & Htr & ->)]; [done|]. by eapply Hnu.
Qed.

(** The sum of [f] over the tracks. *)
Definition over_tracks (f : TrackNodes -> Qc) : Qc :=
  foldr (fun tr acc => f tr + acc) 0 (map_to_list (tracks g)).*2.

Lemma mix_track_edges n t (f : TrackNodes -> Qc) :
  (forall slug tr, tracks g !! slug = Some tr -> mix out (edges_of g tr) n t = f tr) ->
  mix out (track_edges g (tracks g)) n t = over_tracks f.
Proof.
  intros Hf. unfold track_edges, over_tracks.
  assert (Hall : Forall (fun tr => mix out (edges_of g tr) n t = f tr) (map_to_list (tracks g)).*2).
  { apply Forall_fmap, Forall_forall. intros [slug tr] Hin%elem_of_map_to_list. by eapply Hf. }
  induction Hall as [|tr l Htr _ IH]; [done|]. cbn [mbind list_bind foldr].
  by rewrite mix_app, Htr, IH.
Qed.

Lemma track_ne_fixed slug tr n :
  tracks g !! slug = Some tr -> n ∈ fixed_nodes g -> entry tr <> n /\ userGain tr <> n.
Proof.
  intros Htr Hn. split; intros <-; by apply (wf_track_fixed Hwf slug tr _ Htr) in Hn; auto.
Qed.

(** Decide the equations between the nodes of a connection. *)
Ltac mix_edges :=
  cbn [mix foldr fst snd fixed_edges edges_of];
  repeat first [rewrite decide_True by done | rewrite decide_False by congruence].

Lemma fixed_ne :
  Forall (fun n => n <> destination) [source g; broadcastGain g; cancellationSum g; sharedDelay g; inverter g; master g]
  /\ Forall (fun n => n <> source g) [broadcastGain g; cancellationSum g; sharedDelay g; inverter g; master g]
  /\ Forall (fun n => n <> broadcastGain g) [cancellationSum g; sharedDelay g; inverter g; master g]
  /\ Forall (fun n => n <> cancellationSum g) [sharedDelay g; inverter g; master g]
  /\ Forall (fun n => n <> sharedDelay g) [inverter g; master g]
  /\ inverter g <> master g.
Proof.
  pose proof (wf_fixed_NoDup Hwf) as Hnd. unfold fixed_nodes in Hnd.
  rewrite !NoDup_cons in Hnd. rewrite !not_elem_of_cons in Hnd.
  destruct Hnd as ((?&?&?&?&?&?&_) & (?&?&?&?&?&_) & (?&?&?&?&_) & (?&?&?&_) & (?&?&_) & (?&_) & _).
  repeat split; repeat constructor; done.
Qed.

Ltac fixed_facts :=
  pose proof fixed_ne as (?Hn0 & ?Hn1 & ?Hn2 & ?Hn3 & ?Hn4 & ?Hn5);
  repeat match goal with H : Forall _ (_ :: _) |- _ => apply Forall_cons in H as [? H] end;
  cbv beta in *.

(** Every track's nodes differ from a shared node: its own connections into a
    shared node are the ones to the master and the cancellation sum. *)
Lemma no_track_edges n t :
  n ∈ fixed_nodes g -> n <> master g -> n <> cancellationSum g ->
  mix out (track_edges g (tracks g)) n t = 0.
Proof.
  intros Hn Hm Hc. rewrite (mix_track_edges _ _ (fun _ => 0)).
  - unfold over_tracks. induction ((map_to_list (tracks g)).*2) as [|x l IH]; [done|]. cbn. by rewrite IH.
  - intros slug tr Htr. destruct (track_ne_fixed slug tr n Htr Hn). by mix_edges.
Qed.

Lemma out_broadcast b t :
  nodes (ctx g) !! broadcastGain g = Some (Gain b) -> out (broadcastGain g) t = val b * element t.
Proof.
  intros Hb. rewrite (law_gain _ _ _ _ Hout _ _ _ Hb), mix_wf, mix_ext_none by (left; in_fixed).
  fixed_facts. unfold inner_mix. rewrite no_track_edges by (congruence || in_fixed). mix_edges.
  rewrite (law_element _ _ _ _ Hout _ _ (wf_source _ _ Hwf)). ring.
Qed.

Lemma out_delay t :
  out (sharedDelay g) t
  = out (cancellationSum g) (t - val (fround (jdiv (offsetMs g) (of_Z 1000)))).
Proof.
  fixed_facts. rewrite (law_delay _ _ _ _ Hout _ _ _ _ (wf_delay _ _ Hwf)), mix_wf, mix_ext_none by (left; in_fixed).
  unfold inner_mix. rewrite no_track_edges by (congruence || in_fixed). mix_edges. ring.
Qed.

Lemma val_one : val num1 = 1.
Proof. by apply Qc_is_canon. Qed.
Lemma val_minus_one : val (of_Z (-1)) = -(1).
Proof. by apply Qc_is_canon. Qed.

Lemma out_inverter t : out (inverter g) t = - out (sharedDelay g) t.
Proof.
  fixed_facts. rewrite (law_gain _ _ _ _ Hout _ _ _ (wf_inverter _ _ Hwf)), mix_wf, mix_ext_none by (left; in_fixed).
  unfold inner_mix. rewrite no_track_edges by (congruence || in_fixed). mix_edges.
  rewrite val_minus_one. ring.
Qed.

Lemma out_cancellation t :
  out (cancellationSum g) t = over_tracks (fun tr => out (entry tr) t).
Proof.
  fixed_facts. rewrite (law_gain _ _ _ _ Hout _ _ _ (wf_cancellation _ _ Hwf)), mix_wf, mix_ext_none by (left; in_fixed).
  unfold inner_mix. rewrite (mix_track_edges _ _ (fun tr => out (entry tr) t)).
  - mix_edges. rewrite val_one. ring.
  - intros slug tr Htr. destruct (track_ne_fixed slug tr (cancellationSum g) Htr ltac:(in_fixed)).
    mix_edges. ring.
Qed.

Lemma out_master t :
  out (master g) t
  = out (broadcastGain g) t + out (inverter g) t + over_tracks (fun tr => out (userGain tr) t).
Proof.
  fixed_facts. rewrite (law_gain _ _ _ _ Hout _ _ _ (wf_master _ _ Hwf)), mix_wf, mix_ext_none by (left; in_fixed).
  unfold inner_mix. rewrite (mix_track_edges _ _ (fun tr => out (userGain tr) t)).
  - mix_edges. rewrite val_one. ring.
  - intros slug tr Htr. destruct (track_ne_fixed slug tr (master g) Htr ltac:(in_fixed)).
    mix_edges. ring.
Qed.

(** What the buffer sources play into a track. *)
Definition played (tr : TrackNodes) (t : Qc) : Qc := mix buffers ext (entry tr) t.

Lemma out_entry slug tr t : tracks g !! slug = Some tr -> out (entry tr) t = played tr t.
Proof.
  intros Htr. rewrite (law_gain _ _ _ _ Hout _ _ _ (wf_entry _ _ Hwf _ _ Htr)), mix_wf, val_one.
  assert (Hi : inner_mix (entry tr) t = 0).
  { unfold inner_mix. rewrite (mix_none _ (fixed_edges g)), (mix_none _ (track_edges _ _)); [ring| |].
    - apply Forall_forall. intros e (s' & t' & Ht' & He)%elem_of_track_edges Heq.
      destruct (track_ne_fixed slug tr (master g) Htr ltac:(in_fixed)).
      destruct (track_ne_fixed slug tr (cancellationSum g) Htr ltac:(in_fixed)).
      pose proof (wf_entry_userGain Hwf _ _ _ _ Htr Ht').
      unfold edges_of in He. repeat (apply elem_of_cons in He as [->|He]; [cbn in Heq; congruence|]).
      by apply not_elem_of_nil in He.
    - assert (Hne : Forall (fun n => n <> entry tr) (fixed_nodes g)).
      { apply Forall_forall. intros n Hn. by destruct (track_ne_fixed slug tr n Htr Hn) as [?%not_eq_sym _]. }
      unfold fixed_nodes in Hne. rewrite !Forall_cons in Hne. unfold fixed_edges.
      repeat constructor; cbn; tauto. }
  rewrite Hi. unfold played. rewrite (mix_ext out buffers); [ring|].
  eapply Forall_impl; [apply (wf_external _ _ Hwf)|]. intros e (Hs & _) _.
  by apply (law_buffer _ _ _ _ Hout).
Qed.

Lemma out_userGain slug tr v t :
  tracks g !! slug = Some tr -> nodes (ctx g) !! userGain tr = Some (Gain v) ->
  out (userGain tr) t = val v * played tr t.
Proof.
  intros Htr Hv. rewrite (law_gain _ _ _ _ Hout _ _ _ Hv), mix_wf, mix_ext_none by (right; eauto).
  rewrite <- (out_entry _ _ _ Htr).
  assert (Hi : inner_mix (userGain tr) t = out (entry tr) t); [|rewrite Hi; ring].
  unfold inner_mix. rewrite (mix_none _ (fixed_edges g)).
  2:{ assert (Hne : Forall (fun n => n <> userGain tr) (fixed_nodes g)).
      { apply Forall_forall. intros n Hn. by destruct (track_ne_fixed slug tr n Htr Hn) as [_ ?%not_eq_sym]. }
      unfold fixed_nodes in Hne. rewrite !Forall_cons in Hne. unfold fixed_edges.
      repeat constructor; cbn; tauto. }
  destruct (track_ne_fixed slug tr (master g) Htr ltac:(in_fixed)).
  destruct (track_ne_fixed slug tr (cancellationSum g) Htr ltac:(in_fixed)).
  rewrite (mix_perm _ _ _ _ _ (track_edges_split g _ _ _ Htr)), mix_app.
  rewrite (mix_none _ (track_edges _ _)); [mix_edges; ring|].
  apply Forall_forall. intros e (s' & t' & [Hne Ht']%lookup_delete_Some & He)%elem_of_track_edges Heq.
  assert (userGain t' <> userGain tr) by (intros Hu; apply Hne; eapply (wf_userGain_inj Hwf); eauto).
  unfold edges_of in He. repeat (apply elem_of_cons in He as [->|He]; [cbn in Heq; congruence|]).
  by apply not_elem_of_nil in He.
Qed.

Lemma over_tracks_ext f f' :
  (forall slug tr, tracks g !! slug = Some tr -> f tr = f' tr) -> over_tracks f = over_tracks f'.
Proof.
  intros Hf. unfold over_tracks.
  assert (Hall : Forall (fun tr => f tr = f' tr) (map_to_list (tracks g)).*2).
  { apply Forall_fmap, Forall_forall. intros [slug tr] Hin%elem_of_map_to_list. by eapply Hf. }
  induction Hall as [|tr l Htr _ IH]; [done|]. cbn. by rewrite Htr, IH.
Qed.

Lemma over_tracks_sub f f' : over_tracks f - over_tracks f' = over_tracks (fun tr => f tr - f' tr).
Proof.
  unfold over_tracks. induction ((map_to_list (tracks g)).*2) as [|x l IH]; cbn; [ring|].
  rewrite <- IH. ring.
Qed.

Lemma over_tracks_scale c f : c * over_tracks f = over_tracks (fun tr => c * f tr).
Proof.
  unfold over_tracks. induction ((map_to_list (tracks g)).*2) as [|x l IH]; cbn; [ring|].
  rewrite <- IH. ring.
Qed.
End Sound.

(** ** The calls, by what they do to the controls *)

Lemma addTrack_entry g slug n g' s :
  addTrack g slug = Ok (n, g') ->
  entryNodeFor g' s = if decide (s = slug) then Some n else entryNodeFor g s.
Proof.
  unfold addTrack, entryNodeFor. destruct (tracks g !! slug) as [t|] eqn:Ht.
  - intros [= <- <-]. case_decide; [by subst; rewrite Ht | done].
  - cbn. intros H. injection H as <- <-. cbn. rewrite lookup_insert.
    repeat case_decide; by subst.
Qed.

Lemma removeTrack_entry g slug s : s <> slug -> entryNodeFor (removeTrack g slug) s = entryNodeFor g s.
Proof.
  intros Hs. unfold removeTrack, entryNodeFor. destruct (tracks g !! slug); [|done].
  cbn. by rewrite lookup_delete_ne.
Qed.

Lemma setters_tracks g g' :
  (exists slug v, setTrackGain g slug v = Ok g') \/ (exists v, setBroadcastGain g v = Ok g')
  \/ (exists ms, setOffsetMs g ms = Ok g') -> tracks g' = tracks g.
Proof.
  intros [(slug & v & H)|[(v & H)|(ms & H)]].
  - unfold setTrackGain in H. destruct (tracks g !! slug); [|by injection H as <-].
    apply bind_Ok_inv in H as (c & _ & [= <-]). done.
  - apply bind_Ok_inv in H as (c & _ & [= <-]). done.
  - apply bind_Ok_inv in H as (c & _ & [= <-]). done.
Qed.

Lemma user_gains_lookup g ext slug :
  graph_wf g ext -> is_Some (user_gains g !! slug) <-> is_Some (tracks g !! slug).
Proof.
  intros Hwf. unfold user_gains. rewrite lookup_omap.
  destruct (tracks g !! slug) as [t|] eqn:Ht; cbn; [|done].
  destruct (wf_userGain _ _ Hwf _ _ Ht) as [v Hv]. unfold user_gain. rewrite Hv. split; by eexists.
Qed.

Lemma addTrack_spec g ext slug :
  graph_wf g ext ->
  exists n g', addTrack g slug = Ok (n, g') /\ graph_wf g' ext /\ entryNodeFor g' slug = Some n
    /\ user_gains g' = match user_gains g !! slug with
                       | Some _ => user_gains g | None => <[slug := half]> (user_gains g) end
    /\ broadcast_gain g' = broadcast_gain g /\ offsetMs g' = offsetMs g.
Proof.
  intros Hwf. destruct (tracks g !! slug) as [t|] eqn:Ht.
  - exists (entry t), g. split; [by apply addTrack_existing|]. split; [done|].
    unfold entryNodeFor. rewrite Ht. split; [done|].
    destruct (proj2 (user_gains_lookup g ext slug Hwf) ltac:(by eexists)) as [v ->]. done.
  - rewrite (addTrack_new g ext slug Hwf Ht). eexists _, _. split; [done|].
    split; [by apply addTrack_wf|]. unfold entryNodeFor. cbn [tracks with_tracks].
    rewrite lookup_insert_eq. split; [done|]. split; [|split; [|done]].
    2:{ destruct (wf_broadcast _ _ Hwf) as [b Hb]. unfold broadcast_gain.
        cbn [broadcastGain with_tracks with_ctx ctx]. by rewrite Hb, (added_old g ext _ _ Hwf Hb). }
    assert (user_gains g !! slug = None) as ->.
    { unfold user_gains. by rewrite lookup_omap, Ht. }
    apply map_eq. intros s. unfold user_gains. cbn [tracks with_tracks ctx with_ctx].
    rewrite lookup_omap, !lookup_insert. case_decide as Hs.
    + cbn. unfold user_gain. cbn. by rewrite lookup_insert_eq.
    + rewrite lookup_omap. destruct (tracks g !! s) as [t|] eqn:Ht'; [|done]. cbn.
      destruct (wf_userGain _ _ Hwf s t Ht') as [v Hv]. unfold user_gain.
      by rewrite Hv, (added_old g ext _ _ Hwf Hv).
Qed.

Lemma removeTrack_spec g ext slug :
  graph_wf g ext ->
  graph_wf (removeTrack g slug) ext /\ user_gains (removeTrack g slug) = delete slug (user_gains g)
  /\ broadcast_gain (removeTrack g slug) = broadcast_gain g
  /\ offsetMs (removeTrack g slug) = offsetMs g.
Proof.
  intros Hwf. destruct (tracks g !! slug) as [t|] eqn:Ht.
  - split; [by eapply removeTrack_wf|]. unfold removeTrack. rewrite Ht. split; [|done].
    unfold user_gains. cbn. apply map_eq. intros s.
    rewrite lookup_omap, !lookup_delete. case_decide; [done|]. by rewrite lookup_omap.
  - assert (removeTrack g slug = g) as -> by (unfold removeTrack; by rewrite Ht). split; [done|].
    split; [|done]. rewrite delete_id; [done|]. unfold user_gains. by rewrite lookup_omap, Ht.
Qed.

Lemma setTrackGain_spec g ext slug v :
  graph_wf g ext -> opt_num_ok v ->
  exists g', setTrackGain g slug v = Ok g' /\ graph_wf g' ext
    /\ user_gains g' = alter (fun _ => fround (clamp01 v)) slug (user_gains g)
    /\ broadcast_gain g' = broadcast_gain g /\ offsetMs g' = offsetMs g.
Proof.
  intros Hwf Hv. unfold setTrackGain. destruct (tracks g !! slug) as [t|] eqn:Ht.
  - unfold set_gain. rewrite clamp01_finite by done. cbn [mbind result_bind].
    destruct (wf_userGain _ _ Hwf _ _ Ht) as [x Hx]. eexists. split; [done|].
    split; [by eapply wf_set_gain_node; eauto|]. split; [|split; [|done]].
    2:{ unfold broadcast_gain. cbn. rewrite lookup_insert_ne; [done|]. intros Hu.
        apply (wf_track_fixed Hwf slug t (userGain t)); [done|by right|]. rewrite Hu.
        in_fixed. }
    apply map_eq. intros s. unfold user_gains. rewrite lookup_omap. cbn [tracks with_ctx ctx].
    destruct (decide (s = slug)) as [->|Hne].
    + rewrite lookup_alter_eq, lookup_omap, Ht. cbn. unfold user_gain. cbn.
      by rewrite Hx, lookup_insert_eq.
    + rewrite lookup_alter_ne, lookup_omap by done.
      destruct (tracks g !! s) as [t'|] eqn:Ht'; [|done]. cbn. unfold user_gain. cbn.
      rewrite lookup_insert_ne; [done|]. intros Hu. apply Hne.
      eapply (wf_userGain_inj Hwf); eauto.
  - exists g. split; [done|]. split; [done|]. split; [|done]. apply map_eq. intros s.
    destruct (decide (s = slug)) as [->|Hne].
    + rewrite lookup_alter_eq. unfold user_gains. by rewrite lookup_omap, Ht.
    + by rewrite lookup_alter_ne.
Qed.

Lemma setBroadcastGain_spec g ext v :
  graph_wf g ext -> num_ok v = true ->
  exists g', setBroadcastGain g v = Ok g' /\ graph_wf g' ext /\ user_gains g' = user_gains g
    /\ broadcast_gain g' = Some (fround (clamp01 (Some v))) /\ offsetMs g' = offsetMs g.
Proof.
  intros Hwf Hv. unfold setBroadcastGain, set_gain.
  rewrite clamp01_finite by (by intros x [= <-]). cbn [mbind result_bind].
  destruct (wf_broadcast _ _ Hwf) as [b Hb]. eexists. split; [done|].
  split; [by eapply wf_set_gain_node; eauto|]. split.
  - unfold user_gains. cbn. apply map_eq. intros s. rewrite !lookup_omap.
    destruct (tracks g !! s) as [t|] eqn:Ht; [|done]. cbn. unfold user_gain. cbn.
    rewrite lookup_insert_ne; [done|]. intros Hu.
    apply (wf_track_fixed Hwf s t (userGain t)); [done|by right|]. rewrite <- Hu.
    in_fixed.
  - split; [|done]. unfold broadcast_gain. cbn. by rewrite lookup_insert_eq.
Qed.

Lemma setOffsetMs_spec g ext ms :
  graph_wf g ext -> num_ok ms = true ->
  exists g', setOffsetMs g ms = Ok g' /\ graph_wf g' ext /\ user_gains g' = user_gains g
    /\ broadcast_gain g' = broadcast_gain g /\ offsetMs g' = clamp_offset ms.
Proof.
  intros Hwf Hok. destruct (setOffsetMs_wf g ext ms Hwf Hok) as (g' & -> & Hwf' & Ht & Ho & Hn & Hb & Hd).
  exists g'. split; [done|]. split; [done|].
  assert (Hdel : forall i v, nodes (ctx g) !! i = Some (Gain v) -> i <> sharedDelay g).
  { intros i v Hi ->. by rewrite (wf_delay _ _ Hwf) in Hi. }
  split; [|split; [|done]].
  - unfold user_gains. rewrite Ht. apply map_eq. intros s. rewrite !lookup_omap.
    destruct (tracks g !! s) as [t|] eqn:Hts; [|done]. cbn. unfold user_gain.
    destruct (wf_userGain _ _ Hwf s t Hts) as [v Hv]. by rewrite Hn by by eapply Hdel.
  - unfold broadcast_gain. destruct (wf_broadcast _ _ Hwf) as [b Hbr]. rewrite Hb.
    by rewrite Hn by by eapply Hdel.
Qed.

(** ** The life of a graph *)

(** The calls the content script and the schedulers make between [buildGraph]
    and [destroy]. *)
Inductive op :=
  | OAdd (slug : jstr)
  | ORemove (slug : jstr)
  | OGain (slug : jstr) (v : option num)
  | OBroadcast (v : num)
  | OOffset (ms : num)
  | OPlay (slug : jstr)
  | OStop (n : nat).

(** Numbers are canonical, and only buffer sources are disconnected. *)
Definition op_ok (g : MixerGraph) (o : op) : Prop :=
  match o with
  | OGain _ v => opt_num_ok v
  | OBroadcast v => num_ok v = true
  | OOffset ms => num_ok ms = true
  | OStop n => nodes (ctx g) !! n = Some BufferSource
  | _ => True
  end.

Definition run_op (g : MixerGraph) (o : op) : result MixerGraph :=
  match o with
  | OAdd slug => snd <$> addTrack g slug
  | ORemove slug => Ok (removeTrack g slug)
  | OGain slug v => setTrackGain g slug v
  | OBroadcast v => setBroadcastGain g v
  | OOffset ms => setOffsetMs g ms
  | OPlay slug =>
      match entryNodeFor g slug with
      | Some e => Ok (play_into e g).2
      | None => Ok g
      end
  | OStop n => Ok (stop_playing n g)
  end.

Inductive graph_reachable (captured : gset Z) (video : Z) : MixerGraph -> Prop :=
  | reach_build captured' g :
      buildGraph captured video = Ok (captured', g) -> graph_reachable captured video g
  | reach_op g o g' :
      graph_reachable captured video g -> op_ok g o -> run_op g o = Ok g' ->
      graph_reachable captured video g'.

(** The specification: a map of gains, a broadcast gain, an offset. *)
Record Desk := mkDesk { d_gains : gmap jstr num; d_broadcast : num; d_offset : num }.

Definition spec_op (d : Desk) (o : op) : Desk :=
  match o with
  | OAdd slug =>
      mkDesk (match d_gains d !! slug with Some _ => d_gains d | None => <[slug := half]> (d_gains d) end)
        (d_broadcast d) (d_offset d)
  | ORemove slug => mkDesk (delete slug (d_gains d)) (d_broadcast d) (d_offset d)
  | OGain slug v =>
      mkDesk (alter (fun _ => fround (clamp01 v)) slug (d_gains d)) (d_broadcast d) (d_offset d)
  | OBroadcast v => mkDesk (d_gains d) (fround (clamp01 (Some v))) (d_offset d)
  | OOffset ms => mkDesk (d_gains d) (d_broadcast d) (clamp_offset ms)
  | OPlay _ | OStop _ => d
  end.

Definition desk_of (g : MixerGraph) : Desk :=
  mkDesk (user_gains g) (default num0 (broadcast_gain g)) (offsetMs g).

Lemma run_op_ok g o :
  (exists ext, graph_wf g ext) -> op_ok g o ->
  exists g', run_op g o = Ok g' /\ (exists ext, graph_wf g' ext) /\ desk_of g' = spec_op (desk_of g) o.
Proof.
  intros [ext Hwf] Hok.
  destruct o as [s|s|s v|v|ms|s|n]; cbn [run_op op_ok spec_op] in *; unfold desk_of; cbn [d_gains d_broadcast d_offset].
  - destruct (addTrack_spec g ext s Hwf) as (n & g' & Hr & Hwf' & _ & Hg & Hb & Ho).
    exists g'. rewrite Hr, Hg, Hb, Ho. eauto.
  - destruct (removeTrack_spec g ext s Hwf) as (Hwf' & Hg & Hb & Ho).
    eexists. split; [done|]. rewrite Hg, Hb, Ho. eauto.
  - destruct (setTrackGain_spec g ext s v Hwf Hok) as (g' & Hr &  Hwf' & Hg & Hb & Ho).
    exists g'. rewrite Hr, Hg, Hb, Ho. eauto.
  - destruct (setBroadcastGain_spec g ext v Hwf Hok) as (g' & Hr &  Hwf' & Hg & Hb & Ho).
    exists g'. rewrite Hr, Hg, Hb, Ho. eauto.
  - destruct (setOffsetMs_spec g ext ms Hwf Hok) as (g' & Hr &  Hwf' & Hg & Hb & Ho).
    exists g'. rewrite Hr, Hg, Hb, Ho. eauto.
  - unfold entryNodeFor. destruct (tracks g !! s) as [t|] eqn:Ht; [|exists g; eauto].
    cbn [fmap option_fmap option_map]. pose proof (play_into_wf g ext s t Hwf Ht) as H.
    destruct (play_into (entry t) g) as [n g'] eqn:Ep. destruct H as (Hwf' & Htr & Hn & Hnx & _).
    exists g'. split; [done|]. split; [eauto|].
    assert (Hold : forall i v, nodes (ctx g) !! i = Some (Gain v) -> nodes (ctx g') !! i = Some (Gain v)).
    { intros i v Hi. rewrite Hn; [done|]. intros ->. subst n.
      pose proof (wf_fresh _ _ Hwf (next (ctx g)) ltac:(by eexists)). lia. }
    assert (Hsame : broadcastGain g' = broadcastGain g /\ offsetMs g' = offsetMs g).
    { unfold play_into in Ep. cbn in Ep. by injection Ep as _ <-. }
    destruct Hsame as [Hb ->]. f_equal.
    + unfold user_gains. rewrite Htr. apply map_eq. intros s'. rewrite !lookup_omap.
      destruct (tracks g !! s') as [t'|] eqn:E; [|done]. cbn. unfold user_gain.
      destruct (wf_userGain _ _ Hwf s' t' E) as [v Hv]. by rewrite Hv, (Hold _ _ Hv).
    + unfold broadcast_gain. destruct (wf_broadcast _ _ Hwf) as [b Hbr].
      by rewrite Hb, Hbr, (Hold _ _ Hbr).
  - eexists. split; [done|]. split; [|done]. eexists. by apply stop_playing_wf.
Qed.

Lemma reachable_wf captured video g :
  graph_reachable captured video g -> exists ext, graph_wf g ext.
Proof.
  induction 1 as [captured' g Hb|g o g' _ IH Hok Hr].
  - destruct (decide (video ∈ captured)) as [Hin|Hin].
    + by rewrite (buildGraph_captured _ _ Hin) in Hb.
    + destruct (buildGraph_fresh captured video Hin) as (g0 & Hb0 & Hwf & _).
      rewrite Hb0 in Hb. injection Hb as _ <-. eauto.
  - destruct (run_op_ok g o IH Hok) as (g1 & Hr1 & Hwf & _). rewrite Hr1 in Hr. by injection Hr as <-.
Qed.

(** The gain a track is heard with, as an exact number. *)
Definition gain_value (g : MixerGraph) (tr : TrackNodes) : Qc :=
  match user_gain (ctx g) tr with Some v => val v | None => 0%Qc end.

(** What the buffer sources play into a track's entry. *)
Definition feed (buffers : nat -> Qc -> Qc) (g : MixerGraph) (tr : TrackNodes) (t : Qc) : Qc :=
  mix buffers (edges (ctx g)) (entry tr) t.

(** The shared delay in seconds. *)
Definition delay_of (g : MixerGraph) : Qc := val (fround (jdiv (offsetMs g) (of_Z 1000))).

Lemma feed_played g ext buffers slug tr t :
  graph_wf g ext -> tracks g !! slug = Some tr -> feed buffers g tr t = mix buffers ext (entry tr) t.
Proof.
  intros Hwf Htr. unfold feed. rewrite (mix_perm _ _ _ _ _ (wf_edges _ _ Hwf)), !mix_app.
  rewrite (mix_none _ (fixed_edges g)), (mix_none _ (track_edges _ _)); [by ring_simplify| |].
  - apply Forall_forall. intros e (s' & t' & Ht' & He)%elem_of_track_edges Heq.
    destruct (track_ne_fixed Hwf slug tr (master g) Htr ltac:(in_fixed)).
    destruct (track_ne_fixed Hwf slug tr (cancellationSum g) Htr ltac:(in_fixed)).
    pose proof (wf_entry_userGain Hwf _ _ _ _ Htr Ht').
    unfold edges_of in He. repeat (apply elem_of_cons in He as [->|He]; [cbn in Heq; congruence|]).
    by apply not_elem_of_nil in He.
  - assert (Hne : Forall (fun n => n <> entry tr) (fixed_nodes g)).
    { apply Forall_forall. intros n Hn. by destruct (track_ne_fixed Hwf slug tr n Htr Hn) as [?%not_eq_sym _]. }
    unfold fixed_nodes in Hne. rewrite !Forall_cons in Hne. unfold fixed_edges.
    repeat constructor; cbn; tauto.
Qed.

(** The sound the page hears, from the laws of the nodes. *)
Lemma out_destination g ext element buffers out b t :
  graph_wf g ext -> web_audio element buffers (ctx g) out -> broadcast_gain g = Some b ->
  out destination t
  = (val b * element t
     + over_tracks (g := g) (fun tr => gain_value g tr * feed buffers g tr t
                                       - feed buffers g tr (t - delay_of g)))%Qc.
Proof.
  intros Hwf Hout Hb.
  rewrite (law_destination _ _ _ _ Hout _ _ (wf_destination _ _ Hwf)).
  assert (Hd : mix out (edges (ctx g)) destination t = out (master g) t).
  { rewrite (mix_wf Hwf), (mix_ext_none Hwf) by (left; in_fixed).
    unfold inner_mix. pose proof (fixed_ne Hwf) as (H0 & _). rewrite !Forall_cons in H0.
    destruct H0 as (?&?&?&?&?&?&_).
    rewrite (no_track_edges Hwf) by (congruence || (in_fixed)).
    cbn [mix foldr fst snd fixed_edges].
    repeat first [rewrite decide_True by done | rewrite decide_False by congruence]. ring. }
  rewrite Hd, (out_master Hwf Hout), (out_inverter Hwf Hout), (out_delay Hwf Hout),
    (out_cancellation Hwf Hout).
  unfold broadcast_gain in Hb. destruct (wf_broadcast _ _ Hwf) as [b' Hb'].
  rewrite Hb' in Hb. injection Hb as ->. rewrite (out_broadcast Hwf Hout b) by done.
  fold (delay_of g).
  rewrite (over_tracks_ext (fun tr => out (entry tr) _) (fun tr => feed buffers g tr (t - delay_of g)%Qc)).
  2:{ intros slug tr Htr. by rewrite (out_entry Hwf Hout slug) , (feed_played g ext buffers slug). }
  rewrite (over_tracks_ext (fun tr => out (userGain tr) t) (fun tr => gain_value g tr * feed buffers g tr t)%Qc).
  2:{ intros slug tr Htr. destruct (wf_userGain _ _ Hwf slug tr Htr) as [v Hv].
      rewrite (out_userGain Hwf Hout slug tr v) by done. unfold gain_value, user_gain.
      by rewrite Hv, (feed_played g ext buffers slug). }
  rewrite <- over_tracks_sub. ring.
Qed.

(** *** The ranking of a well-formed graph *)

(** The place of a node that is not shared: buffer sources first, then the
    entries, then the user gains. *)
Definition leaf_rank (g : MixerGraph) (n : nat) : nat :=
  match nodes (ctx g) !! n with
  | Some BufferSource => 0
  | _ => if decide (Exists (fun tr => n = userGain tr) (map_to_list (tracks g)).*2) then 2 else 1
  end.

Definition rank_table (g : MixerGraph) : list (nat * nat) :=
  [(destination, 6); (master g, 5); (inverter g, 4); (sharedDelay g, 3); (cancellationSum g, 2);
   (broadcastGain g, 2); (source g, 0)]%nat.

Definition graph_rank (g : MixerGraph) (n : nat) : nat :=
  match list_find (fun p => p.1 = n) (rank_table g) with
  | Some (_, p) => p.2
  | None => leaf_rank g n
  end.

Lemma graph_rank_shared g ext n r :
  graph_wf g ext -> (n, r) ∈ rank_table g -> graph_rank g n = r.
Proof.
  intros Hwf Hin. assert (Hnd : NoDup (rank_table g).*1).
  { assert (Hp : fixed_nodes g ≡ₚ (rank_table g).*1); [|rewrite <- Hp; apply (wf_fixed_NoDup Hwf)].
    unfold fixed_nodes, rank_table. cbn [fmap list_fmap fst]. constructor.
    exact (Permutation_rev [source g; broadcastGain g; cancellationSum g; sharedDelay g; inverter g; master g]). }
  unfold graph_rank. destruct (list_find _ _) as [[i p]|] eqn:E.
  - apply list_find_Some in E as (Hi & <- & _). cbn. apply list_elem_of_lookup_2 in Hi.
    destruct p as [n r']. cbn in *. 
    apply list_elem_of_lookup in Hin as [j Hj]. apply list_elem_of_lookup in Hi as [k Hk].
    assert (j = k) as ->.
    { eapply (NoDup_lookup (rank_table g).*1 j k n); [done| |]; rewrite list_lookup_fmap; [by rewrite Hj|by rewrite Hk]. }
    congruence.
  - apply list_find_None in E. rewrite Forall_forall in E. by destruct (E _ Hin).
Qed.

Lemma graph_rank_leaf g n : ~ (n ∈ fixed_nodes g) -> graph_rank g n = leaf_rank g n.
Proof.
  intros Hn. unfold graph_rank. destruct (list_find _ _) as [[i p]|] eqn:E; [|done].
  apply list_find_Some in E as (Hi%list_elem_of_lookup_2 & <- & _). destruct Hn.
  unfold rank_table in Hi. unfold fixed_nodes.
  repeat (apply elem_of_cons in Hi as [->|Hi]; [cbn; in_list|]). by apply not_elem_of_nil in Hi.
Qed.

Lemma graph_ranked g ext : graph_wf g ext -> ranked (graph_rank g) (ctx g).
Proof.
  intros Hwf. unfold ranked. rewrite (wf_edges _ _ Hwf).
  assert (Hr : forall n r, (n, r) ∈ rank_table g -> graph_rank g n = r)
    by (intros n r; by apply (graph_rank_shared g ext)).
  unfold rank_table in Hr.
  pose proof (Hr destination 6%nat ltac:(in_list)). pose proof (Hr (master g) 5%nat ltac:(in_list)).
  pose proof (Hr (inverter g) 4%nat ltac:(in_list)). pose proof (Hr (sharedDelay g) 3%nat ltac:(in_list)).
  pose proof (Hr (cancellationSum g) 2%nat ltac:(in_list)).
  pose proof (Hr (broadcastGain g) 2%nat ltac:(in_list)). pose proof (Hr (source g) 0%nat ltac:(in_list)).
  apply Forall_app; split; [|apply Forall_app; split].
  - unfold fixed_edges. rewrite !Forall_cons, Forall_nil. cbn [fst snd]. lia.
  - apply Forall_forall. intros e (s & tr & Htr & He)%elem_of_track_edges.
    assert (He1 : graph_rank g (entry tr) = 1%nat).
    { rewrite graph_rank_leaf by (apply (wf_track_fixed Hwf s tr); auto). unfold leaf_rank.
      rewrite (wf_entry _ _ Hwf _ _ Htr). rewrite decide_False; [done|].
      intros Hex. apply Exists_exists in Hex as (t' & Ht' & Heq).
      apply list_elem_of_fmap in Ht' as ([s' t''] & -> & Ht''%elem_of_map_to_list).
      by apply (wf_entry_userGain Hwf _ _ _ _ Htr Ht''). }
    assert (Hu : graph_rank g (userGain tr) = 2%nat).
    { rewrite graph_rank_leaf by (apply (wf_track_fixed Hwf s tr); auto). unfold leaf_rank.
      destruct (wf_userGain _ _ Hwf _ _ Htr) as [v ->]. rewrite decide_True; [done|].
      apply Exists_exists. exists tr. split; [|done].
      apply list_elem_of_fmap. exists (s, tr). by rewrite elem_of_map_to_list. }
    unfold edges_of in He. repeat (apply elem_of_cons in He as [->|He]; [cbn; lia|]).
    by apply not_elem_of_nil in He.
  - eapply Forall_impl; [apply (wf_external _ _ Hwf)|]. intros e (Hs & [v Hv] & Hnf & Hnu).
    assert (Hns : ~ (e.1 ∈ fixed_nodes g)).
    { intros Hin. destruct (wf_broadcast _ _ Hwf) as [b Hb]. destruct Hwf. unfold fixed_nodes in Hin.
      repeat (apply elem_of_cons in Hin as [Hin|Hin]; [congruence|]). by apply not_elem_of_nil in Hin. }
    rewrite (graph_rank_leaf g (e.1)), (graph_rank_leaf g (e.2)) by done. unfold leaf_rank.
    rewrite Hs, Hv. case_decide; lia.
Qed.

Lemma graph_rank_bound g n : (graph_rank g n < 8)%nat.
Proof.
  unfold graph_rank. destruct (list_find _ _) as [[i p]|] eqn:E.
  - apply list_find_Some in E as (Hi%list_elem_of_lookup_2 & _ & _). unfold rank_table in Hi.
    repeat (apply elem_of_cons in Hi as [->|Hi]; [cbn; lia|]). by apply not_elem_of_nil in Hi.
  - unfold leaf_rank. repeat case_match; lia.
Qed.

(** ** A concrete graph for the witnesses *)

Fixpoint run_ops (os : list op) (g : MixerGraph) : result MixerGraph :=
  match os with
  | [] => Ok g
  | o :: os => g' ← run_op g o; run_ops os g'
  end.

Definition first_graph : MixerGraph :=
  match buildGraph ∅ 7 with Ok (_, g) => g | Throw _ => mkGraph newContext 0 0 0 0 0 0 num0 ∅ end.

(** One track, muted, with a buffer playing, the broadcast at its default and
    an offset of two seconds. *)
Definition demo_ops : list op :=
  [OBroadcast (of_dec false 2 (-1)); OAdd (js "mic"); OGain (js "mic") (Some num0); OPlay (js "mic");
   OOffset (of_Z 2000)].

Definition demo : MixerGraph :=
  match run_ops demo_ops first_graph with Ok g => g | Throw _ => first_graph end.

Lemma run_ops_reachable captured video os g g' :
  graph_reachable captured video g ->
  Forall (fun o => forall g, op_ok g o) os -> run_ops os g = Ok g' -> graph_reachable captured video g'.
Proof.
  intros Hg Hos. revert g Hg. induction Hos as [|o os Ho _ IH]; intros g Hg Hr; cbn in Hr.
  - by injection Hr as <-.
  - apply bind_Ok_inv in Hr as (g1 & H1 & H2). eapply IH; [|done]. by eapply reach_op.
Qed.

Lemma demo_reachable : graph_reachable ∅ 7 demo.
Proof.
  apply (run_ops_reachable ∅ 7 demo_ops first_graph).
  - apply (reach_build _ _ {[7]}). by vm_compute.
  - repeat constructor. intros g x [= <-]. done.
  - by vm_compute.
Qed.

Lemma reachable_laws captured video g element buffers :
  graph_reachable captured video g ->
  web_audio element buffers (ctx g) (render 8 element buffers (ctx g)).
Proof.
  intros [ext Hwf]%reachable_wf. apply (render_laws (graph_rank g)); [by eapply graph_ranked|].
  intros n _. apply graph_rank_bound.
Qed.

(** ** Properties *)

(** C6: the mix.  In every graph the extension can build, the sound that
    reaches the speakers is the broadcast at its gain, plus every track at its
    user gain, minus every track delayed by the shared offset: the "equivalent"
    reading of the module's diagram, whatever tracks were added, removed,
    played into or stopped before.  (The laws of the nodes are the hypothesis.) *)
Theorem mix_equation (captured : gset Z) (video : Z) (g : MixerGraph)
    (element : Qc -> Qc) (buffers : nat -> Qc -> Qc) (out : nat -> Qc -> Qc) (t : Qc) :
  graph_reachable captured video g -> web_audio element buffers (ctx g) out ->
  out destination t
  = (match broadcast_gain g with Some b => val b | None => 0 end * element t
     + over_tracks (g := g) (fun tr => gain_value g tr * feed buffers g tr t
                                       - feed buffers g tr (t - delay_of g)))%Qc.
Proof.
  intros [ext Hwf]%reachable_wf Hout. destruct (wf_broadcast _ _ Hwf) as [b Hb].
  assert (Hbg : broadcast_gain g = Some b) by (unfold broadcast_gain; by rewrite Hb).
  rewrite Hbg. by eapply out_destination.
Qed.

Lemma mix_equation_witness :
  render 8 (fun t => t) (fun _ t => t * t)%Qc (ctx demo) destination (qc 5)
  = (val (fround (of_dec false 2 (-1))) * qc 5 - qc 9)%Qc.
Proof.
  rewrite (mix_equation ∅ 7 demo (fun t => t) (fun _ t => t * t)%Qc); [|apply demo_reachable|].
  - by apply Qc_is_canon; vm_compute.
  - apply (reachable_laws ∅ 7), demo_reachable.
Defined.

(** C32: what cancellation leaves.  Suppose the broadcast is perfectly aligned:
    it carries every track, late by exactly the offset, over some remainder.
    Then a track is left in the mix with its user gain and, from the broadcast,
    with the broadcast gain minus one: it is cancelled when the broadcast gain
    is 1, and at any other gain a muted track remains audible. *)
Theorem cancellation_residue (captured : gset Z) (video : Z) (g : MixerGraph)
    (element rest : Qc -> Qc) (buffers : nat -> Qc -> Qc) (out : nat -> Qc -> Qc) (b : num) (t : Qc) :
  graph_reachable captured video g -> web_audio element buffers (ctx g) out ->
  broadcast_gain g = Some b ->
  element t = (rest t + over_tracks (g := g) (fun tr => feed buffers g tr (t - delay_of g)))%Qc ->
  out destination t
  = (val b * rest t
     + over_tracks (g := g) (fun tr => gain_value g tr * feed buffers g tr t
                                       - (1 - val b) * feed buffers g tr (t - delay_of g)))%Qc.
Proof.
  intros [ext Hwf]%reachable_wf Hout Hb He. rewrite (out_destination g ext element buffers out b) by done.
  rewrite He, <- !over_tracks_sub, <- over_tracks_scale. ring.
Qed.

(** The element of the witness: silence apart from the aligned track. *)
Definition aligned_element (t : Qc) : Qc := ((t - qc 2) * (t - qc 2))%Qc.

Lemma cancellation_residue_witness :
  render 8 aligned_element (fun _ t => t * t)%Qc (ctx demo) destination (qc 5)
  = (- (1 - val (fround (of_dec false 2 (-1)))) * qc 9)%Qc.
Proof.
  rewrite (cancellation_residue ∅ 7 demo aligned_element (fun _ => qc 0) (fun _ t => t * t)%Qc
             _ (fround (of_dec false 2 (-1)))).
  - by apply Qc_is_canon; vm_compute.
  - apply demo_reachable.
  - apply (reachable_laws ∅ 7), demo_reachable.
  - by vm_compute.
  - by apply Qc_is_canon; vm_compute.
Defined.

(** The graph has a sound.  The graph never gets a cycle: every reachable
    graph has a function from nodes to signals that obeys the laws of its
    nodes, computed eight connections deep. *)
Theorem graph_is_playable (captured : gset Z) (video : Z) (g : MixerGraph)
    (element : Qc -> Qc) (buffers : nat -> Qc -> Qc) :
  graph_reachable captured video g ->
  web_audio element buffers (ctx g) (render 8 element buffers (ctx g)).
Proof. apply reachable_laws. Qed.

Lemma graph_is_playable_witness :
  web_audio aligned_element (fun _ _ => qc 1) (ctx demo)
    (render 8 aligned_element (fun _ _ => qc 1) (ctx demo)).
Proof. apply (graph_is_playable ∅ 7), demo_reachable. Defined.

(** C9: the graph implements a desk.  Every call of the module on a reachable
    graph returns, gives a reachable graph, and does to the gains, the broadcast
    gain and the offset what the specification [spec_op] says: adding is
    idempotent and starts at one half, a gain is set on its own track only and
    clamped, removing forgets the track, playing changes nothing. *)
Theorem graph_refines_desk (captured : gset Z) (video : Z) (g : MixerGraph) (o : op) :
  graph_reachable captured video g -> op_ok g o ->
  exists g', run_op g o = Ok g' /\ graph_reachable captured video g'
             /\ desk_of g' = spec_op (desk_of g) o.
Proof.
  intros Hr Hok. destruct (run_op_ok g o (reachable_wf _ _ _ Hr) Hok) as (g' & Hg' & _ & Hd).
  exists g'. split; [done|]. split; [by eapply reach_op | done].
Qed.

Lemma graph_refines_desk_witness :
  exists g', run_op demo (OGain (js "mic") (Some (of_Z 3))) = Ok g'
             /\ d_gains (desk_of g') !! js "mic" = Some num1.
Proof.
  destruct (graph_refines_desk ∅ 7 demo (OGain (js "mic") (Some (of_Z 3)))) as (g' & H & _ & Hd).
  - apply demo_reachable.
  - by intros x [= <-].
  - exists g'. split; [exact H|]. rewrite Hd. by vm_compute.
Defined.

Definition in_unit (v : num) : Prop :=
  exists x, v = fround x /\ jle num0 x = true /\ jle x num1 = true.

Lemma in_unit_clamp v : in_unit (fround (clamp01 v)).
Proof. exists (clamp01 v). split; [done|]. apply clamp01_range. Qed.

Lemma in_unit_half : in_unit half.
Proof. exists half. by vm_compute. Qed.

(** C33: the controls stay in range, whatever values the callers pass
    (infinities and NaN included): every gain in a reachable graph is the
    binary32 rounding of a number between 0 and 1, and the offset lies between
    0 and 30 s and is the delay the graph applies. *)
Theorem controls_in_range (captured : gset Z) (video : Z) (g : MixerGraph) :
  graph_reachable captured video g ->
  map_Forall (fun _ v => in_unit v) (user_gains g)
  /\ in_unit (default num0 (broadcast_gain g))
  /\ jle num0 (offsetMs g) = true /\ jle (offsetMs g) MAX_OFFSET_MS = true
  /\ nodes (ctx g) !! sharedDelay g
     = Some (Delay MAX_OFFSET_SECONDS (fround (jdiv (offsetMs g) (of_Z 1000)))).
Proof.
  intros Hr. destruct (reachable_wf _ _ _ Hr) as [ext Hwf].
  assert (Hd : map_Forall (fun _ v => in_unit v) (d_gains (desk_of g)) /\ in_unit (d_broadcast (desk_of g))
               /\ jle num0 (d_offset (desk_of g)) = true /\ jle (d_offset (desk_of g)) MAX_OFFSET_MS = true).
  2:{ destruct Hd as (H1 & H2 & H3 & H4). repeat split; try done. by apply (wf_delay _ _ Hwf). }
  clear ext Hwf. induction Hr as [captured' g Hb|g o g' Hg IH Hok Hrun].
  - destruct (decide (video ∈ captured)) as [Hin|Hin].
    { by rewrite (buildGraph_captured _ _ Hin) in Hb. }
    destruct (buildGraph_fresh captured video Hin) as (g0 & Hb0 & _ & Ht & Hbr & Ho).
    rewrite Hb0 in Hb. injection Hb as _ <-. unfold desk_of. cbn [d_gains d_broadcast d_offset].
    rewrite Hbr, Ho. unfold user_gains. rewrite Ht. split; [done|].
    split; [by exists num1; vm_compute|]. by vm_compute.
  - destruct (run_op_ok g o (reachable_wf _ _ _ Hg) Hok) as (g1 & Hr1 & _ & Hd).
    rewrite Hr1 in Hrun. injection Hrun as <-. rewrite Hd.
    destruct IH as (H1 & H2 & H3 & H4). destruct (desk_of g) as [gains b ms]. cbn in H1, H2, H3, H4.
    destruct o as [s|s|s v|v|ms'|s|n]; cbn [spec_op d_gains d_broadcast d_offset]; try done.
    + split; [|done]. destruct (gains !! s) eqn:E; [done|].
      apply map_Forall_insert_2; [apply in_unit_half | done].
    + split; [|done]. by apply map_Forall_delete.
    + split; [|done]. intros k x. destruct (decide (k = s)) as [->|Hne].
      * rewrite lookup_alter_eq. intros (y & _ & ->)%fmap_Some. apply in_unit_clamp.
      * rewrite lookup_alter_ne by done. apply H1.
    + split; [done|]. split; [apply in_unit_clamp | done].
    + split; [done|]. split; [done|]. apply clamp_offset_range.
Qed.

Lemma controls_in_range_witness : in_unit (default num0 (broadcast_gain demo)) /\ delay_of demo = qc 2.
Proof.
  destruct (controls_in_range ∅ 7 demo demo_reachable) as (_ & H & _). split; [exact H|].
  by apply Qc_is_canon; vm_compute.
Defined.

(** An element is taken over for good.  [buildGraph] succeeds exactly on an
    element that no graph was built on before; [destroy] does not give it
    back, so building again on the same element throws. *)
Theorem element_taken_once (captured : gset Z) (video : Z) :
  (video ∉ captured ->
     exists g, buildGraph captured video = Ok ({[video]} ∪ captured, g)
               /\ user_gains g = ∅ /\ buildGraph ({[video]} ∪ captured) video = Throw InvalidStateError
               /\ (source g, broadcastGain g) ∈ edges (ctx g)
               /\ ~ ((source g, broadcastGain g) ∈ edges (ctx (destroy g))))
  /\ (video ∈ captured -> buildGraph captured video = Throw InvalidStateError).
Proof.
  split; [|apply buildGraph_captured].
  intros Hv. destruct (buildGraph_fresh captured video Hv) as (g & Hb & Hwf & Ht & _ & _).
  exists g. split; [done|]. split; [unfold user_gains; by rewrite Ht|].
  split; [apply buildGraph_captured; set_solver|]. split.
  - rewrite (wf_edges _ _ Hwf). apply elem_of_app. left. unfold fixed_edges. in_list.
  - unfold destroy. cbn. rewrite list_elem_of_filter. by intros [? _].
Qed.
