(* ===== verification/Scheduler.v ===== *)
(** * Playback scheduling

    Models extension/src/audio/scheduler.ts.  A lane keeps the play cursor and
    the live sources; its nodes live in the shared [Ctx].  What was handed to
    the engine ([src.start]) is the log [started]. *)
From Stdlib Require Import SpecFloat.
From stdpp Require Import relations.
From S2P Require Import Prelude JsNumber JsOrder WebAudio.

Section Lane.
(** The decoded audio, never looked into. *)
Context {AudioBuffer : Type}.

Definition FRAME_DURATION : num := of_dec false 2 (-2).

Record Start := mkStart { st_source : nat; st_when : num; st_buffer : AudioBuffer }.

Record ScheduledLane := mkLane {
  destination : nat;
  playCursor : num;
  liveSources : list nat;
  started : list Start;
}.

(** A lane and the context its nodes live in. *)
Definition State : Type := ScheduledLane * Ctx.

Definition createScheduler (dest : nat) : ScheduledLane := mkLane dest num0 [] [].

(** [src.start(when)] *)
Definition start_error (when : num) : option Exn :=
  if negb (isFinite when) then Some TypeError
  else if jlt when num0 then Some RangeError
  else None.

(** [enqueue(buf)] at [ctx.currentTime = now]; a throwing [start] leaves the
    source connected, and the cursor as rebased. *)
Definition enqueue (now : num) (buf : AudioBuffer) (s : State) : State * option Exn :=
  let '(lane, c) := s in
  let cursor := if jlt (playCursor lane) (jadd now FRAME_DURATION)
                then jadd now FRAME_DURATION else playCursor lane in
  let '(src, c) := create BufferSource c in
  let c := connect src (destination lane) c in
  match start_error cursor with
  | Some e => ((mkLane (destination lane) cursor (liveSources lane) (started lane), c), Some e)
  | None =>
      ((mkLane (destination lane) (jadd cursor FRAME_DURATION) (liveSources lane ++ [src])
          (started lane ++ [mkStart src cursor buf]), c), None)
  end.

(** [liveSources.splice(liveSources.indexOf(src), 1)] when it is there. *)
Fixpoint remove_first (n : nat) (l : list nat) : list nat :=
  match l with
  | [] => []
  | m :: l => if decide (m = n) then l else m :: remove_first n l
  end.

(** [src.onended] *)
Definition ended (src : nat) (s : State) : State :=
  let '(lane, c) := s in
  (mkLane (destination lane) (playCursor lane) (remove_first src (liveSources lane)) (started lane),
   disconnect src c).

(** [close()]: stopping a source that was started never throws. *)
Definition close (s : State) : State :=
  let '(lane, c) := s in
  (mkLane (destination lane) (playCursor lane) [] (started lane),
   foldl (fun c src => disconnect src c) c (liveSources lane)).

(** What can happen: a decoded buffer arrives, a started source ends, the lane
    is closed, and others change the context without touching the connections
    of existing buffer sources of the lane. *)
Inductive step : State -> State -> Prop :=
  | step_enqueue now buf s : step s (enqueue now buf s).1
  | step_ended src s : src ∈ st_source <$> started s.1 -> step s (ended src s)
  | step_close s : step s (close s)
  | step_other lane c c' :
      (next c <= next c')%nat ->
      (forall n d, n ∈ st_source <$> started lane -> (n, d) ∈ edges c' <-> (n, d) ∈ edges c) ->
      step (lane, c) (lane, c').

(** Adjacent entries of the log are a frame apart, and the cursor is a frame
    after the last. *)
Definition spaced (l : list Start) : Prop :=
  forall i a b, l !! i = Some a -> l !! S i = Some b ->
    jle (jadd (st_when a) FRAME_DURATION) (st_when b) = true.

Record lane_inv (s : State) : Prop := {
  inv_spaced : spaced (started s.1);
  inv_cursor : isNaN (playCursor s.1) = false;
  inv_nonneg : jle num0 (playCursor s.1) = true;
  inv_last : forall a, last (started s.1) = Some a ->
             jle (jadd (st_when a) FRAME_DURATION) (playCursor s.1) = true;
  inv_fresh : Forall (fun n => (n < next s.2)%nat) (st_source <$> started s.1);
  inv_distinct : NoDup (st_source <$> started s.1);
  inv_live : NoDup (liveSources s.1) /\ forall n, n ∈ liveSources s.1 -> n ∈ st_source <$> started s.1;
  inv_connected : forall n d, n ∈ st_source <$> started s.1 -> (n, d) ∈ edges s.2 ->
                  n ∈ liveSources s.1;
}.
End Lane.
Arguments Start : clear implicits.
Arguments ScheduledLane : clear implicits.
Arguments State : clear implicits.

(** ** Lemmas *)

Section Lemmas.
Context {AudioBuffer : Type}.
Implicit Types (s : State AudioBuffer).

Lemma remove_first_spec n (l : list nat) :
  NoDup l -> NoDup (remove_first n l) /\ forall m, m ∈ remove_first n l <-> m ∈ l /\ m <> n.
Proof.
  induction 1 as [|k l Hk Hl [IHn IHe]]; cbn; [split; [constructor|set_solver]|].
  case_decide as Heq; subst.
  - split; [done|]. set_solver.
  - split; [|set_solver]. constructor; [|done]. rewrite IHe. tauto.
Qed.

Lemma disconnect_all l c n d :
  (n, d) ∈ edges (foldl (fun c src => disconnect src c) c l) <-> (n, d) ∈ edges c /\ n ∉ l.
Proof.
  revert c. induction l as [|k l IH]; intros c; cbn [foldl]; [set_solver|].
  rewrite IH. cbn. rewrite list_elem_of_filter. cbn. set_solver.
Qed.

Lemma disconnect_all_next l c : next (foldl (fun c src => disconnect src c) c l) = next c.
Proof. revert c. induction l as [|k l IH]; intros c; cbn [foldl]; [done|]. by rewrite IH. Qed.

Lemma spaced_snoc (l : list (Start AudioBuffer)) b :
  spaced l -> (forall a, last l = Some a -> jle (jadd (st_when a) FRAME_DURATION) (st_when b) = true) ->
  spaced (l ++ [b]).
Proof.
  intros Hl Hlast i a b' Ha Hb. destruct (decide (S i < length l)%nat) as [Hi|Hi].
  - rewrite lookup_app_l in Ha by lia. rewrite lookup_app_l in Hb by lia. by apply (Hl i).
  - pose proof (lookup_lt_Some _ _ _ Hb) as Hlt. rewrite length_app in Hlt. cbn in Hlt.
    assert (Hlen : length l = S i) by lia.
    rewrite lookup_app_r in Hb by lia. rewrite Hlen, Nat.sub_diag in Hb. injection Hb as <-.
    rewrite lookup_app_l in Ha by lia. apply Hlast. rewrite last_lookup, Hlen. exact Ha.
Qed.

(** The rebased cursor: not before the old one, and a frame after now. *)
Lemma rebase_spec cursor now :
  isNaN cursor = false ->
  let c' := if jlt cursor (jadd now FRAME_DURATION) then jadd now FRAME_DURATION else cursor in
  isNaN c' = false /\ jle cursor c' = true
  /\ (isNaN now = false -> jle (jadd now FRAME_DURATION) c' = true).
Proof.
  intros Hc. destruct (jlt cursor (jadd now FRAME_DURATION)) eqn:E; cbn zeta.
  - apply jlt_jle in E. destruct (jle_not_NaN _ _ E) as [_ Hn].
    split; [done|]. split; [done|]. intros _. by apply jle_refl.
  - split; [done|]. split; [by apply jle_refl|]. intros Hn.
    apply jlt_false_jle; [done| |done]. by apply jadd_not_NaN.
Qed.

(** A start that does not throw. *)
Lemma enqueue_ok now buf (lane : ScheduledLane AudioBuffer) c :
  let when := if jlt (playCursor lane) (jadd now FRAME_DURATION) then jadd now FRAME_DURATION
              else playCursor lane in
  isFinite when = true -> jlt when num0 = false ->
  enqueue now buf (lane, c)
  = ((mkLane (destination lane) (jadd when FRAME_DURATION) (liveSources lane ++ [next c])
        (started lane ++ [mkStart (next c) when buf]),
      connect (next c) (destination lane) (create BufferSource c).2), None).
Proof. intros when Hf Hn. unfold enqueue. cbn [create snd]. fold when. unfold start_error. by rewrite Hf, Hn. Qed.

Lemma frame_reading x : reading x = true -> reading (jadd x FRAME_DURATION) = true.
Proof.
  assert (FRAME_DURATION = S754_finite false 5764607523034235 (-58)) as -> by by vm_compute.
  intros Hx. apply jadd_reading; [done|done|by vm_compute].
Qed.

(** While the clock is on its grid the cursor stays there: a buffer is started
    whenever it arrives, a frame from now at the earliest. *)
Lemma enqueue_reading now buf (lane : ScheduledLane AudioBuffer) c :
  reading now = true -> reading (playCursor lane) = true ->
  exists lane' when,
    enqueue now buf (lane, c) = ((lane', connect (next c) (destination lane) (create BufferSource c).2), None)
    /\ started lane' = started lane ++ [mkStart (next c) when buf]
    /\ jle (jadd now FRAME_DURATION) when = true /\ reading (playCursor lane') = true.
Proof.
  intros Hn Hc.
  set (when := if jlt (playCursor lane) (jadd now FRAME_DURATION) then jadd now FRAME_DURATION
               else playCursor lane).
  assert (Hw : reading when = true) by (unfold when; case_match; [by apply frame_reading|done]).
  rewrite enqueue_ok by by first [apply reading_finite | apply reading_not_negative].
  fold when. eexists _, when. split; [done|]. split; [done|]. split; [|by apply frame_reading].
  apply (rebase_spec (playCursor lane) now); by apply isFinite_not_NaN, reading_finite.
Qed.

Lemma create_inv lane dest : lane_inv (AudioBuffer := AudioBuffer) (createScheduler dest, lane).
Proof.
  constructor; cbn; try done; try constructor; try constructor.
  intros n Hn. by apply not_elem_of_nil in Hn.
Qed.

Lemma enqueue_inv now buf s : lane_inv s -> lane_inv (enqueue now buf s).1.
Proof.
  destruct s as [lane c]. intros [Hs Hc Hnn Hl Hf Hd [Hln Hls] Hcon]. unfold enqueue. cbn [create].
  destruct (rebase_spec (playCursor lane) now Hc) as (Hn & Hge & _).
  set (cursor := if jlt _ _ then _ else _) in *.
  set (c' := mkCtx (S (next c)) _ _ _).
  assert (Hnew : forall n, n ∈ st_source <$> started lane -> n <> next c).
  { intros n Hin. rewrite Forall_forall in Hf. specialize (Hf n Hin). cbn in Hf. lia. }
  assert (Hnext : next (connect (next c) (destination lane) c') = S (next c))
    by (unfold connect; by case_decide).
  cbn [fst snd] in *.
  assert (Hlast : forall a, last (started lane) = Some a -> jle (jadd (st_when a) FRAME_DURATION) cursor = true)
    by (intros a Ha; eapply jle_trans; [by apply Hl | done]).
  assert (Hf' : Forall (fun n => (n < S (next c))%nat) (st_source <$> started lane))
    by (eapply Forall_impl; [exact Hf|]; cbn; lia).
  destruct (start_error cursor) as [e|] eqn:Ee.
  - constructor; cbn [fst snd started playCursor liveSources]; rewrite ?Hnext; try done.
    1: by eapply jle_trans.
    intros n d Hin. rewrite elem_of_connect. intros [He|[= -> _]]; [by eapply Hcon|].
    by destruct (Hnew _ Hin).
  - unfold start_error in Ee. destruct (isFinite cursor) eqn:Ef; [|done].
    constructor; cbn [fst snd started playCursor liveSources]; rewrite ?Hnext, ?fmap_app; cbn [fmap list_fmap st_source].
    + by apply spaced_snoc.
    + by apply jadd_not_NaN.
    + apply jadd_nonneg; [by eapply jle_trans | done].
    + intros a. rewrite last_snoc. intros [= <-]. cbn. apply jle_refl. by apply jadd_not_NaN.
    + apply Forall_app. split; [done|]. constructor; [lia|constructor].
    + apply NoDup_app. split; [done|]. split; [|apply NoDup_singleton].
      intros n Hin Hx%list_elem_of_singleton. by apply (Hnew n).
    + split; [|set_solver]. apply NoDup_app. split; [done|]. split; [|apply NoDup_singleton].
      intros n Hin Hx%list_elem_of_singleton. apply (Hnew n); [by apply Hls|done].
    + intros n d Hin. rewrite elem_of_connect, elem_of_app. intros [He|[= -> _]]; [|right; set_solver].
      apply elem_of_app in Hin as [Hin|Hin]; [left; by eapply Hcon | by right].
Qed.

Lemma lane_step_inv s s' : lane_inv s -> step s s' -> lane_inv s'.
Proof.
  intros Hi Hs. destruct Hs as [now buf s|src s Hin|s|lane c c' Hn He]; [by apply enqueue_inv| | |].
  - destruct s as [lane c], Hi as [Hsp Hc Hnn Hl Hf Hd [Hln Hls] Hcon]. cbn in *.
    destruct (remove_first_spec src (liveSources lane) Hln) as [Hrn Hre].
    constructor; cbn [fst snd ended started playCursor liveSources]; try done.
    + split; [done|]. intros n [? _]%Hre. by apply Hls.
    + intros n d Hnin. cbn. rewrite list_elem_of_filter. intros [Hne He]. cbn in Hne.
      apply Hre. split; [by eapply Hcon | done].
  - destruct s as [lane c], Hi as [Hsp Hc Hnn Hl Hf Hd [Hln Hls] Hcon]. cbn in *.
    constructor; cbn [fst snd close started playCursor liveSources]; try done.
    + by rewrite disconnect_all_next.
    + split; [constructor|]. intros n Hnil. by apply not_elem_of_nil in Hnil.
    + intros n d Hnin. rewrite disconnect_all. intros [He Hno]. destruct Hno. by eapply Hcon.
  - destruct Hi as [Hsp Hc Hnn Hl Hf Hd [Hln Hls] Hcon]. cbn in *. constructor; cbn; try done.
    + eapply Forall_impl; [exact Hf|]. cbn. lia.
    + intros n d Hnin. rewrite He by done. by eapply Hcon.
Qed.

Lemma lane_reachable_inv dest c s : rtc step (createScheduler dest, c) s -> lane_inv s.
Proof.
  intros Hr. assert (H : lane_inv (createScheduler (AudioBuffer := AudioBuffer) dest, c)) by apply create_inv.
  revert H. induction Hr; [done|]. intros Hi. apply IHHr. by eapply lane_step_inv.
Qed.
End Lemmas.

(** ** Properties *)

Section Properties.
Context {AudioBuffer : Type}.

(** C17: no overlap, no reordering.  Whatever the arrival times, the sources of
    a lane are started once each, in the order their buffers arrived, and every
    start is at least a frame after the start before it. *)
Theorem starts_are_spaced (dest : nat) (c : Ctx) (s : State AudioBuffer) :
  rtc step (createScheduler dest, c) s ->
  NoDup (st_source <$> started s.1)
  /\ forall i a b, started s.1 !! i = Some a -> started s.1 !! S i = Some b ->
       jle (jadd (st_when a) FRAME_DURATION) (st_when b) = true.
Proof. intros Hr%lane_reachable_inv. split; apply Hr. Qed.

(** One call.  While the clock and the cursor are below 2^1000 seconds an
    arriving buffer is always started, never in the past: at the cursor when
    that leaves a frame of lead, exactly a frame after the previous buffer, and
    otherwise at now plus a frame (the lane has run dry). *)
Theorem enqueue_starts (dest : nat) (c0 : Ctx) (lane : ScheduledLane AudioBuffer) (c : Ctx)
    (now : num) (buf : AudioBuffer) :
  rtc step (createScheduler dest, c0) (lane, c) ->
  below 1000 now -> below 1000 (playCursor lane) ->
  let late := jlt (playCursor lane) (jadd now FRAME_DURATION) in
  let when := if late then jadd now FRAME_DURATION else playCursor lane in
  let '((lane', c'), e) := enqueue now buf (lane, c) in
  e = None
  /\ started lane' = started lane ++ [mkStart (next c) when buf]
  /\ jle (jadd now FRAME_DURATION) when = true
  /\ playCursor lane' = jadd when FRAME_DURATION
  /\ liveSources lane' = liveSources lane ++ [next c]
  /\ (next c, destination lane) ∈ edges c'.
Proof.
  intros Hr%lane_reachable_inv Hnow Hcur late when. destruct Hr as [_ Hc Hnn _ _ _ _ _]. cbn in Hc, Hnn.
  destruct (rebase_spec (playCursor lane) now Hc) as (Hn & Hge & Hle). fold late when in Hn, Hge, Hle.
  assert (Hw : below 1002 when).
  { unfold when. destruct late; [by apply (jadd_below 1000)|by apply (below_weaken 1000)]. }
  assert (Hpos : jle num0 when = true) by by eapply jle_trans.
  assert (Hlt : jlt when num0 = false).
  { revert Hpos. unfold jle, jlt, SFleb, SFltb. rewrite (SFcompare_antisym num0 when).
    by destruct (SFcompare num0 when) as [[]|]. }
  unfold when, late in *. rewrite enqueue_ok by by first [apply (below_finite _ _ Hw) | exact Hlt].
  split; [done|]. split; [done|]. split; [|split; [done|split; [done|]]].
  - apply Hle. by apply isFinite_not_NaN, (below_finite 1000).
  - apply elem_of_connect. by right.
Qed.

(** Only live sources are heard.  A started source that is still connected
    is one the lane knows as live, and after [close()] the lane has no live
    source and none of its sources is connected to anything. *)
Theorem close_silences (dest : nat) (c0 : Ctx) (s : State AudioBuffer) :
  rtc step (createScheduler dest, c0) s ->
  (forall n d, n ∈ st_source <$> started s.1 -> (n, d) ∈ edges s.2 -> n ∈ liveSources s.1)
  /\ liveSources (close s).1 = []
  /\ forall n d, n ∈ st_source <$> started (close s).1 -> ~ ((n, d) ∈ edges (close s).2).
Proof.
  intros Hr%lane_reachable_inv. split; [by apply Hr|].
  assert (Hi : lane_inv (close s)) by (eapply lane_step_inv; [exact Hr | apply step_close]).
  assert (Hl : liveSources (close s).1 = []) by by destruct s.
  split; [done|]. intros n d Hin He. pose proof (inv_connected _ Hi n d Hin He) as H.
  rewrite Hl in H. by apply not_elem_of_nil in H.
Qed.
End Properties.

(** Three buffers: two in a burst, one after the lane ran dry. *)
Definition arrivals : list num := [of_Z 1; of_Z 1; of_Z 2].
Definition empty_ctx : Ctx := mkCtx 8 ∅ [] false.
Definition after_arrivals : State nat :=
  foldl (fun s now => (enqueue now 0%nat s).1) (createScheduler 7, empty_ctx) arrivals.

Lemma after_arrivals_reachable : rtc step (createScheduler 7, empty_ctx) after_arrivals.
Proof. do 3 (eapply rtc_r; [|apply step_enqueue]). apply rtc_refl. Qed.

Lemma starts_are_spaced_witness :
  st_when <$> started after_arrivals.1
    = [jadd (of_Z 1) FRAME_DURATION; jadd (jadd (of_Z 1) FRAME_DURATION) FRAME_DURATION;
       jadd (of_Z 2) FRAME_DURATION]
  /\ NoDup (st_source <$> started after_arrivals.1).
Proof.
  split; [by vm_compute|]. apply (starts_are_spaced 7 empty_ctx _ after_arrivals_reachable).
Defined.

Lemma enqueue_starts_witness :
  exists s, enqueue (of_Z 2) 5%nat after_arrivals = (s, None)
            /\ last (st_when <$> started s.1) = Some (playCursor after_arrivals.1).
Proof.
  pose proof (enqueue_starts 7 empty_ctx after_arrivals.1 after_arrivals.2 (of_Z 2) 5%nat) as H.
  destruct (enqueue (of_Z 2) 5%nat (after_arrivals.1, after_arrivals.2)) as [[lane' c'] e] eqn:E.
  destruct H as (-> & Hs & _); [exact after_arrivals_reachable | by vm_compute | by vm_compute |].
  exists (lane', c'). split; [exact E|]. cbn. rewrite Hs. by vm_compute.
Defined.

Lemma close_silences_witness :
  length (liveSources after_arrivals.1) = 3%nat /\ liveSources (close after_arrivals).1 = []
  /\ ~ ((9%nat, 7%nat) ∈ edges (close after_arrivals).2).
Proof.
  destruct (close_silences 7 empty_ctx _ after_arrivals_reachable) as (_ & Hl & Hn).
  split; [by vm_compute|]. split; [exact Hl|]. apply Hn. by apply (bool_decide_unpack _); vm_compute.
Defined.
