(* ===== verification/OpusLane.v ===== *)
(** * The Opus decoder lane

    Models extension/src/audio/decoder.ts around WebCodecs: the timestamps given
    to the packets, the life of the codec (configured, closed by an error or by
    [close]) and the conversion of its output to an audio buffer. *)
From Stdlib Require Import SpecFloat.
From S2P Require Import Prelude JsNumber.

#[export] Instance num_inhabited : Inhabited num := populate num0.

Definition FRAME_DURATION_US : Z := 20000.
Definition SAMPLE_RATE : Z := 48000.
Definition CHANNELS : nat := 2.

(** ** decode *)

Inductive CodecState := configured | closed.

(** WebCodecs: an error reported through the error callback closes the codec;
    [decode] on a closed codec is an [InvalidStateError]; [close] on a closed
    codec is one too, which the lane's [close] catches. *)
Record Chunk := mkChunk { timestamp : Z; data : list Z }.

Record OpusDecoderLane := mkLane {
  baseSeq : option Z;
  lastSeq : option Z;
  codec : CodecState;
  submitted : list Chunk;
}.

(** [createOpusDecoder]: throws when WebCodecs is missing. *)
Definition createOpusDecoder (webcodecs : bool) : result OpusDecoderLane :=
  if negb webcodecs then Throw (JsError "WebCodecs AudioDecoder unavailable; browser too old")
  else Ok (mkLane None None configured []).

(** Sequence numbers are below 2^32, so the products are exact numbers
    ([timestamps_exact]). *)
Definition decode (packet : list Z) (seq : Z) (l : OpusDecoderLane) : OpusDecoderLane * option Exn :=
  let base := match baseSeq l with None => seq | Some b => b end in
  let rel := seq - base in
  let ts := rel * FRAME_DURATION_US in
  let base := match lastSeq l with
              | Some last => if seq <? last then seq else base
              | None => base
              end in
  match codec l with
  | closed => (mkLane (Some base) (Some seq) closed (submitted l), Some InvalidStateError)
  | configured => (mkLane (Some base) (Some seq) configured (submitted l ++ [mkChunk ts packet]), None)
  end.

(** The [error] callback logs; by then the codec is closed. *)
Definition codec_error (l : OpusDecoderLane) : OpusDecoderLane :=
  mkLane (baseSeq l) (lastSeq l) closed (submitted l).

Definition close (l : OpusDecoderLane) : OpusDecoderLane :=
  mkLane (baseSeq l) (lastSeq l) closed (submitted l).

(** A sequence of packets. *)
Definition decode_all (packets : list (list Z * Z)) (l : OpusDecoderLane) : OpusDecoderLane :=
  foldl (fun l p => (decode p.1 p.2 l).1) l packets.

(** ** The output callback *)

(** [AudioData]: [copyTo] with a plane index and a format, which may throw. *)
Inductive Format := f32_planar | f32.
Record AudioData := mkAudioData {
  numberOfFrames : nat;
  copyTo : nat -> Format -> result (list num);
}.

(** [buf.copyToChannel(src, ch)] *)
Definition copyToChannel (src : list num) (ch : nat) (buf : list (list num)) : list (list num) :=
  <[ch := src]> buf.

(** [data.copyTo(array, ...)]: a prefix of the array is overwritten. *)
Definition copy_into (array src : list num) : list num := src ++ drop (length src) array.

(** The planar loop, its one temporary array reused; the buffer as far as it
    was written, and whether it threw. *)
Fixpoint copy_planar (d : AudioData) (chs : list nat) (tmp : list num) (buf : list (list num)) :
    list (list num) * option Exn :=
  match chs with
  | [] => (buf, None)
  | ch :: chs =>
      match copyTo d ch f32_planar with
      | Throw e => (buf, Some e)
      | Ok src =>
          let tmp := copy_into tmp src in
          copy_planar d chs tmp (copyToChannel tmp ch buf)
      end
  end.

(** [chBuf[i] = interleaved[i * CHANNELS + ch]] *)
Definition channel_of (frames : nat) (interleaved : list num) (ch : nat) : list num :=
  (fun i => interleaved !!! (i * CHANNELS + ch)%nat) <$> seq 0 frames.

Definition copy_interleaved (d : AudioData) (buf : list (list num)) : result (list (list num)) :=
  src ← copyTo d 0 f32;
  let interleaved := copy_into (replicate (numberOfFrames d * CHANNELS) num0) src in
  Ok (foldl (fun buf ch => copyToChannel (channel_of (numberOfFrames d) interleaved ch) ch buf)
        buf (seq 0 CHANNELS)).

(** The buffer handed to [onDecoded]; [createBuffer] refuses a length of 0. *)
Definition output (d : AudioData) : result (list (list num)) :=
  if (numberOfFrames d =? 0)%nat then Throw (JsError "NotSupportedError") else
  let silence := replicate (numberOfFrames d) num0 in
  match copy_planar d (seq 0 CHANNELS) silence (replicate CHANNELS silence) with
  | (buf, None) => Ok buf
  | (buf, Some _) => copy_interleaved d buf
  end.

(** Frames interleaved: the reference the fallback inverts. *)
Fixpoint interleave (l r : list num) : list num :=
  match l, r with
  | x :: l, y :: r => x :: y :: interleave l r
  | _, _ => []
  end.

(** ** Lemmas *)

(** The timestamp a packet is given when nothing went back. *)
Definition stamped (base : Z) (p : list Z * Z) : Chunk := mkChunk ((p.2 - base) * FRAME_DURATION_US) p.1.

Lemma decode_forward base last packets sub :
  Forall (fun p : list Z * Z => last <= p.2) packets ->
  (forall i p q, packets !! i = Some p -> packets !! S i = Some q -> p.2 <= q.2) ->
  exists last', decode_all packets (mkLane (Some base) (Some last) configured sub)
    = mkLane (Some base) (Some last') configured (sub ++ (stamped base <$> packets)).
Proof.
  revert last sub. induction packets as [|p packets IH]; intros last sub Hall Hmono.
  { exists last. cbn. by rewrite app_nil_r. }
  apply Forall_cons in Hall as [Hp Hall]. unfold decode_all in *. cbn [foldl].
  unfold decode at 2. cbn [baseSeq lastSeq codec submitted].
  rewrite (proj2 (Z.ltb_ge (p.2) last)) by done. cbn [fst].
  destruct (IH (p.2) (sub ++ [stamped base p])) as [last' H].
  - apply Forall_lookup. intros i q Hq. clear IH Hall Hp. revert p q Hq Hmono.
    induction i as [|i IHi] in packets |- *; intros p q Hq Hmono.
    + by apply (Hmono 0%nat p q).
    + destruct packets as [|r packets]; [done|]. cbn in Hq.
      transitivity (r.2); [by apply (Hmono 0%nat p r)|].
      apply (IHi packets r q Hq). intros j a b Ha Hb. by apply (Hmono (S j) a b).
  - intros i a b Ha Hb. by apply (Hmono (S i) a b).
  - exists last'. unfold stamped in H at 1. rewrite H. by rewrite <- app_assoc.
Qed.

Lemma closed_stays l packets :
  codec l = closed ->
  codec (decode_all packets l) = closed /\ submitted (decode_all packets l) = submitted l.
Proof.
  revert l. induction packets as [|p packets IH]; intros l Hc; [done|].
  unfold decode_all in *. cbn [foldl].
  assert (Hs : codec (decode p.1 p.2 l).1 = closed /\ submitted (decode p.1 p.2 l).1 = submitted l)
    by (unfold decode; by rewrite Hc).
  destruct Hs as [H1 H2]. destruct (IH _ H1) as [H3 H4]. by rewrite H3, H4.
Qed.

Lemma interleave_lookup l r i :
  length l = length r -> (i < length l)%nat ->
  interleave l r !!! (i * 2)%nat = l !!! i /\ interleave l r !!! (i * 2 + 1)%nat = r !!! i.
Proof.
  revert r i. induction l as [|x l IH]; intros [|y r] i Hl Hi; cbn in *; try lia.
  destruct i as [|i]; [done|]. cbn. apply IH; lia.
Qed.

Lemma interleave_length l r : length l = length r -> length (interleave l r) = (length l * 2)%nat.
Proof. revert r. induction l as [|x l IH]; intros [|y r] Hl; cbn in *; try lia. rewrite IH; lia. Qed.

Lemma copy_into_full array src : length src = length array -> copy_into array src = src.
Proof. intros H. unfold copy_into. by rewrite H, drop_all, app_nil_r. Qed.

Lemma channel_of_interleave l r :
  length l = length r ->
  channel_of (length l) (interleave l r) 0 = l /\ channel_of (length l) (interleave l r) 1 = r.
Proof.
  intros Hl. unfold channel_of, CHANNELS. split; apply list_eq; intros i; rewrite list_lookup_fmap.
  - destruct (Nat.lt_ge_cases i (length l)) as [Hi|Hi].
    + rewrite lookup_seq_lt by done. cbn [fmap option_fmap option_map Nat.add]. rewrite Nat.add_0_r.
      destruct (interleave_lookup l r i Hl Hi) as [-> _]. symmetry. by apply list_lookup_lookup_total_lt.
    + rewrite lookup_seq_ge, lookup_ge_None_2 by done. done.
  - destruct (Nat.lt_ge_cases i (length l)) as [Hi|Hi].
    + rewrite lookup_seq_lt by done. cbn [fmap option_fmap option_map Nat.add].
      destruct (interleave_lookup l r i Hl Hi) as [_ ->]. symmetry. apply list_lookup_lookup_total_lt. lia.
    + rewrite lookup_seq_ge, lookup_ge_None_2 by lia. done.
Qed.

(** Sequence numbers as the frame header carries them. *)
Definition u32 (z : Z) : Prop := 0 <= z < 2 ^ 32.

Definition lane_bounded (l : OpusDecoderLane) : Prop :=
  (forall b, baseSeq l = Some b -> u32 b)
  /\ Forall (fun c => - 2 ^ 53 < timestamp c < 2 ^ 53) (submitted l).

Lemma decode_bounded packet seq l :
  u32 seq -> lane_bounded l -> lane_bounded (decode packet seq l).1.
Proof.
  intros Hs [Hb Hl]. unfold decode.
  set (base := match baseSeq l with None => seq | Some b => b end).
  assert (Hbase : u32 base) by (unfold base; destruct (baseSeq l); auto).
  set (base' := match lastSeq l with Some _ => _ | None => base end).
  assert (Hbase' : u32 base') by (unfold base'; repeat case_match; done).
  destruct (codec l); split; cbn [fst baseSeq submitted]; try (by intros b [= <-]); [|done].
  apply Forall_app. split; [done|]. constructor; [|constructor]. cbn [timestamp].
  unfold u32, FRAME_DURATION_US in *. lia.
Qed.

(** ** Properties *)

Definition fresh : OpusDecoderLane := mkLane None None configured [].

(** The timeline.  While sequence numbers do not go back, every packet is
    submitted, in order, with the number of microseconds since the first packet:
    20 ms per sequence number, gaps included. *)
Theorem timestamps_relative (first : list Z) (seq0 : Z) (packets : list (list Z * Z)) :
  (forall i p q, ((first, seq0) :: packets) !! i = Some p ->
     ((first, seq0) :: packets) !! S i = Some q -> p.2 <= q.2) ->
  submitted (decode_all ((first, seq0) :: packets) fresh)
  = (fun p => mkChunk ((p.2 - seq0) * FRAME_DURATION_US) p.1) <$> (first, seq0) :: packets.
Proof.
  intros Hmono. unfold decode_all. cbn [foldl]. unfold fresh, decode at 2. cbn [baseSeq lastSeq codec fst snd submitted app].
  destruct (decode_forward seq0 seq0 packets [mkChunk ((seq0 - seq0) * FRAME_DURATION_US) first]) as [last' H].
  - apply Forall_lookup. intros i. induction i as [|i IH]; intros q Hq; [by apply (Hmono 0%nat (first, seq0) q)|].
    destruct (packets !! i) as [p|] eqn:Ep.
    + transitivity (p.2); [by apply IH|]. by apply (Hmono (S i) p q).
    + apply lookup_ge_None in Ep. apply lookup_lt_Some in Hq. lia.
  - intros i p q Hp Hq. by apply (Hmono (S i) p q).
  - unfold decode_all in H. by rewrite H.
Qed.

Lemma timestamps_relative_witness :
  timestamp <$> submitted (decode_all [([1], 40); ([2], 41); ([3], 45)] fresh) = [0; 20000; 100000].
Proof.
  rewrite (timestamps_relative [1] 40 [([2], 41); ([3], 45)]); [done|].
  intros i p q. do 3 (destruct i as [|i]; [cbn; intros; simplify_eq; cbn; lia|]). done.
Defined.

(** Going back.  A packet whose number is below the last one becomes the
    base of those after it, but is itself still stamped from the old base: on a
    publisher's restart the timeline jumps back, below zero when the new
    numbers start under the old base, before it starts again. *)
Theorem restart_stamps_from_old_base (base last seq seq' : Z) (p p' : list Z) (sub : list Chunk) :
  seq < last -> seq <= seq' ->
  submitted (decode_all [(p, seq); (p', seq')] (mkLane (Some base) (Some last) configured sub))
    = sub ++ [mkChunk ((seq - base) * FRAME_DURATION_US) p; mkChunk ((seq' - seq) * FRAME_DURATION_US) p']
  /\ (seq < base -> (seq - base) * FRAME_DURATION_US < 0).
Proof.
  intros Hlt Hle. split; [|unfold FRAME_DURATION_US; lia].
  unfold decode_all. cbn [foldl]. unfold decode at 2. cbn [baseSeq lastSeq codec submitted fst snd].
  rewrite (proj2 (Z.ltb_lt seq last)) by done. unfold decode. cbn [baseSeq lastSeq codec submitted fst snd].
  by rewrite <- app_assoc.
Qed.

Lemma restart_stamps_from_old_base_witness :
  timestamp <$> submitted (decode_all [([7], 0); ([8], 1)] (mkLane (Some 100) (Some 250) configured []))
  = [-2000000; 20000].
Proof.
  destruct (restart_stamps_from_old_base 100 250 0 1 [7] [8] []) as [-> _]; [lia|lia|done].
Defined.

(** The arithmetic is exact.  For sequence numbers as the frame header
    carries them every timestamp is a whole number below 2^53 in absolute
    value, whatever the order of the packets. *)
Theorem timestamps_exact (packets : list (list Z * Z)) :
  Forall (fun p => u32 p.2) packets ->
  Forall (fun c => - 2 ^ 53 < timestamp c < 2 ^ 53) (submitted (decode_all packets fresh)).
Proof.
  intros Hp. assert (H : lane_bounded (decode_all packets fresh)); [|apply H].
  assert (Hf : lane_bounded fresh) by (split; [done|constructor]).
  revert Hf. generalize fresh. unfold decode_all. induction Hp as [|p packets Hp _ IH]; intros l Hl; [done|].
  cbn [foldl]. by apply IH, decode_bounded.
Qed.

Lemma timestamps_exact_witness :
  Forall (fun c => - 2 ^ 53 < timestamp c < 2 ^ 53)
    (submitted (decode_all [([1], 0); ([2], 4294967295); ([3], 0)] fresh)).
Proof. apply timestamps_exact. repeat constructor; cbn; lia. Defined.

(** An error is final.  After the codec reports an error (or [close]) no
    packet is ever submitted again: every call to [decode] throws, although the
    handler's comment expects the next packet to re-prime the decoder. *)
Theorem error_is_final (l : OpusDecoderLane) (packets : list (list Z * Z)) (packet : list Z) (seq : Z) :
  let l' := decode_all packets (codec_error l) in
  (decode packet seq l').2 = Some InvalidStateError
  /\ submitted (decode packet seq l').1 = submitted l.
Proof.
  intros l'. destruct (closed_stays (codec_error l) packets eq_refl) as [Hc Hs]. fold l' in Hc, Hs.
  unfold decode. rewrite Hc. split; [done|]. exact Hs.
Qed.

(** The decoded audio.  Whether the codec gives planes or only interleaved
    samples, the buffer handed on has the left channel first and the right
    channel second, complete and unmixed. *)
Theorem output_channels (d : AudioData) (l r : list num) :
  (0 < numberOfFrames d)%nat -> length l = numberOfFrames d -> length r = numberOfFrames d ->
  (copyTo d 0 f32_planar = Ok l /\ copyTo d 1 f32_planar = Ok r)
  \/ ((exists ch e, (ch < CHANNELS)%nat /\ copyTo d ch f32_planar = Throw e)
      /\ (forall ch src, copyTo d ch f32_planar = Ok src -> length src = numberOfFrames d)
      /\ copyTo d 0 f32 = Ok (interleave l r)) ->
  output d = Ok [l; r].
Proof.
  intros Hpos Hl Hr [[H0 H1]|((ch & e & Hch & He) & Hlen & Hi)].
  - unfold output. destruct (Nat.eqb_spec (numberOfFrames d) 0) as [|_]; [lia|]. cbn [seq copy_planar CHANNELS]. rewrite H0, H1.
    rewrite !copy_into_full; rewrite ?length_replicate, ?copy_into_full; rewrite ?length_replicate; try done; lia.
  - assert (Hf : forall buf, length buf = 2%nat -> copy_interleaved d buf = Ok [l; r]).
    { intros [|b0 [|b1 [|]]] Hb; try done. unfold copy_interleaved. rewrite Hi. cbn [mbind result_bind].
      assert (Hll : length l = length r) by lia.
      rewrite copy_into_full by (rewrite length_replicate, interleave_length by done; unfold CHANNELS; lia).
      destruct (channel_of_interleave l r Hll) as [E0 E1]. rewrite <- Hl. cbn [foldl seq CHANNELS].
      by rewrite E0, E1. }
    unfold output. destruct (Nat.eqb_spec (numberOfFrames d) 0) as [|_]; [lia|].
    cbn [seq copy_planar CHANNELS]. destruct (copyTo d 0 f32_planar) as [src|] eqn:E0; [|by apply Hf].
    destruct (copyTo d 1 f32_planar) as [src'|] eqn:E1; [|by apply Hf].
    exfalso. destruct ch as [|[|ch]]; [congruence|congruence|]. unfold CHANNELS in Hch. lia.
Qed.

Lemma output_channels_witness :
  output (mkAudioData 2 (fun ch fmt => match fmt with
            | f32 => Ok [of_Z 1; of_Z (-1); of_Z 2; of_Z (-2)]
            | f32_planar => Throw TypeError end))
  = Ok [[of_Z 1; of_Z 2]; [of_Z (-1); of_Z (-2)]].
Proof.
  apply output_channels; [cbn; lia|done|done|]. right. split; [|split; [|done]].
  - exists 0%nat, TypeError. split; [unfold CHANNELS; lia | done].
  - done.
Defined.
