(* ===== verification/Mixer.v ===== *)
(** * What the controller relies on

    The content script drives a graph (audio/graph.ts) and the schedulers that
    play into it (audio/scheduler.ts).  The class [Mixer] is that interface: a
    desk of controls (Graph.v), and for each slug the entry node of its track
    and whether a scheduler is attached.  Content.v is proved against it;
    Playback.v is its implementation. *)
From Stdlib Require Import SpecFloat.
From S2P Require Import Prelude JsString JsNumber JsOrder Prefs WebAudio Graph.
Open Scope Z_scope.

Record Slot := mkSlot { slot_entry : option nat; slot_open : bool }.

Class Mixer (G : Type) := {
  mx_ok : G -> Prop;
  mx_desk : G -> Desk;
  mx_slot : G -> jstr -> Slot;
  (** addTrack, removeTrack, setTrackGain, setBroadcastGain, setOffsetMs *)
  mx_add : G -> jstr -> result (nat * G);
  mx_remove : G -> jstr -> G;
  mx_set : G -> jstr -> option num -> result G;
  mx_broadcast : G -> num -> result G;
  mx_offset : G -> num -> result G;
  (** createScheduler into an entry node, and its close *)
  mx_lane : G -> jstr -> nat -> G;
  mx_close : G -> jstr -> G;
  (** what the decoders and the audio engine do meanwhile *)
  mx_audio : G -> G -> Prop;

  mx_slot_dom g slug :
    mx_ok g -> is_Some (slot_entry (mx_slot g slug)) <-> is_Some (d_gains (mx_desk g) !! slug);
  mx_open_law g slug :
    mx_ok g -> slot_open (mx_slot g slug) = true -> is_Some (slot_entry (mx_slot g slug));
  mx_add_law g slug :
    mx_ok g ->
    exists n g', mx_add g slug = Ok (n, g') /\ mx_ok g' /\ mx_desk g' = spec_op (mx_desk g) (OAdd slug)
      /\ forall s, mx_slot g' s = if decide (s = slug) then mkSlot (Some n) (slot_open (mx_slot g s))
                                  else mx_slot g s;
  mx_remove_law g slug :
    mx_ok g -> slot_open (mx_slot g slug) = false ->
    mx_ok (mx_remove g slug) /\ mx_desk (mx_remove g slug) = spec_op (mx_desk g) (ORemove slug)
    /\ forall s, mx_slot (mx_remove g slug) s = if decide (s = slug) then mkSlot None false else mx_slot g s;
  mx_set_law g slug v :
    mx_ok g -> opt_num_ok v ->
    exists g', mx_set g slug v = Ok g' /\ mx_ok g' /\ mx_desk g' = spec_op (mx_desk g) (OGain slug v)
      /\ forall s, mx_slot g' s = mx_slot g s;
  mx_broadcast_law g v :
    mx_ok g -> num_ok v = true ->
    exists g', mx_broadcast g v = Ok g' /\ mx_ok g' /\ mx_desk g' = spec_op (mx_desk g) (OBroadcast v)
      /\ forall s, mx_slot g' s = mx_slot g s;
  mx_offset_law g ms :
    mx_ok g -> num_ok ms = true ->
    exists g', mx_offset g ms = Ok g' /\ mx_ok g' /\ mx_desk g' = spec_op (mx_desk g) (OOffset ms)
      /\ forall s, mx_slot g' s = mx_slot g s;
  mx_lane_law g slug n :
    mx_ok g -> mx_slot g slug = mkSlot (Some n) false ->
    mx_ok (mx_lane g slug n) /\ mx_desk (mx_lane g slug n) = mx_desk g
    /\ forall s, mx_slot (mx_lane g slug n) s = if decide (s = slug) then mkSlot (Some n) true else mx_slot g s;
  mx_close_law g slug :
    mx_ok g ->
    mx_ok (mx_close g slug) /\ mx_desk (mx_close g slug) = mx_desk g
    /\ forall s, mx_slot (mx_close g slug) s
                = if decide (s = slug) then mkSlot (slot_entry (mx_slot g s)) false else mx_slot g s;
  mx_audio_law g g' :
    mx_ok g -> mx_audio g g' ->
    mx_ok g' /\ mx_desk g' = mx_desk g /\ forall s, mx_slot g' s = mx_slot g s;
}.

(** The parts of the interface by name. *)
Section Views.
Context {G : Type} `{Mixer G}.
Implicit Types g : G.

Definition mx_gains g : gmap jstr num := d_gains (mx_desk g).
Definition mx_levels g : num * num := (d_broadcast (mx_desk g), d_offset (mx_desk g)).
Definition mx_entry g (slug : jstr) : option nat := slot_entry (mx_slot g slug).

Lemma mx_add_spec g slug :
  mx_ok g ->
  exists n g', mx_add g slug = Ok (n, g') /\ mx_ok g'
    /\ (forall s, mx_slot g' s = if decide (s = slug) then mkSlot (Some n) (slot_open (mx_slot g s))
                                 else mx_slot g s)
    /\ mx_gains g' = match mx_gains g !! slug with
                     | Some _ => mx_gains g | None => <[slug := half]> (mx_gains g) end
    /\ mx_levels g' = mx_levels g.
Proof.
  intros Hg. destruct (mx_add_law g slug Hg) as (n & g' & H1 & H2 & H3 & H4). exists n, g'.
  unfold mx_gains, mx_levels. by rewrite H3.
Qed.

Lemma mx_remove_spec g slug :
  mx_ok g -> slot_open (mx_slot g slug) = false ->
  mx_ok (mx_remove g slug) /\ mx_gains (mx_remove g slug) = delete slug (mx_gains g)
  /\ (forall s, mx_slot (mx_remove g slug) s = if decide (s = slug) then mkSlot None false else mx_slot g s)
  /\ mx_levels (mx_remove g slug) = mx_levels g.
Proof.
  intros Hg Ho. destruct (mx_remove_law g slug Hg Ho) as (H1 & H2 & H3).
  unfold mx_gains, mx_levels. by rewrite H2.
Qed.

Lemma mx_set_spec g slug v :
  mx_ok g -> opt_num_ok v ->
  exists g', mx_set g slug v = Ok g' /\ mx_ok g' /\ (forall s, mx_slot g' s = mx_slot g s)
    /\ mx_gains g' = alter (fun _ => fround (clamp01 v)) slug (mx_gains g) /\ mx_levels g' = mx_levels g.
Proof.
  intros Hg Hv. destruct (mx_set_law g slug v Hg Hv) as (g' & H1 & H2 & H3 & H4). exists g'.
  unfold mx_gains, mx_levels. by rewrite H3.
Qed.

Lemma mx_broadcast_spec g v :
  mx_ok g -> num_ok v = true ->
  exists g', mx_broadcast g v = Ok g' /\ mx_ok g' /\ (forall s, mx_slot g' s = mx_slot g s)
    /\ mx_gains g' = mx_gains g /\ mx_levels g' = (fround (clamp01 (Some v)), (mx_levels g).2).
Proof.
  intros Hg Hv. destruct (mx_broadcast_law g v Hg Hv) as (g' & H1 & H2 & H3 & H4). exists g'.
  unfold mx_gains, mx_levels. by rewrite H3.
Qed.

Lemma mx_offset_spec g ms :
  mx_ok g -> num_ok ms = true ->
  exists g', mx_offset g ms = Ok g' /\ mx_ok g' /\ (forall s, mx_slot g' s = mx_slot g s)
    /\ mx_gains g' = mx_gains g /\ mx_levels g' = ((mx_levels g).1, clamp_offset ms).
Proof.
  intros Hg Hv. destruct (mx_offset_law g ms Hg Hv) as (g' & H1 & H2 & H3 & H4). exists g'.
  unfold mx_gains, mx_levels. by rewrite H3.
Qed.

Lemma mx_lane_spec g slug n :
  mx_ok g -> mx_slot g slug = mkSlot (Some n) false ->
  mx_ok (mx_lane g slug n) /\ mx_gains (mx_lane g slug n) = mx_gains g
  /\ (forall s, mx_slot (mx_lane g slug n) s = if decide (s = slug) then mkSlot (Some n) true else mx_slot g s)
  /\ mx_levels (mx_lane g slug n) = mx_levels g.
Proof.
  intros Hg Hs. destruct (mx_lane_law g slug n Hg Hs) as (H1 & H2 & H3).
  unfold mx_gains, mx_levels. by rewrite H2.
Qed.

Lemma mx_close_spec g slug :
  mx_ok g ->
  mx_ok (mx_close g slug) /\ mx_gains (mx_close g slug) = mx_gains g
  /\ (forall s, mx_slot (mx_close g slug) s
                = if decide (s = slug) then mkSlot (slot_entry (mx_slot g s)) false else mx_slot g s)
  /\ mx_levels (mx_close g slug) = mx_levels g.
Proof.
  intros Hg. destruct (mx_close_law g slug Hg) as (H1 & H2 & H3).
  unfold mx_gains, mx_levels. by rewrite H2.
Qed.

Lemma mx_audio_spec g g' :
  mx_ok g -> mx_audio g g' ->
  mx_ok g' /\ mx_gains g' = mx_gains g /\ (forall s, mx_slot g' s = mx_slot g s) /\ mx_levels g' = mx_levels g.
Proof.
  intros Hg Ha. destruct (mx_audio_law g g' Hg Ha) as (H1 & H2 & H3).
  unfold mx_gains, mx_levels. by rewrite H2.
Qed.

Lemma mx_entry_dom g slug : mx_ok g -> is_Some (mx_entry g slug) <-> is_Some (mx_gains g !! slug).
Proof. apply mx_slot_dom. Qed.

(** Without tracks nothing is attached. *)
Lemma mx_not_open g slug : mx_ok g -> mx_gains g !! slug = None -> slot_open (mx_slot g slug) = false.
Proof.
  intros Hg Hn. destruct (slot_open (mx_slot g slug)) eqn:E; [|done].
  apply (mx_open_law g slug Hg), (mx_slot_dom g slug Hg) in E. unfold mx_gains in Hn. rewrite Hn in E.
  by destruct E.
Qed.
End Views.
