(* ===== verification/Playback.v ===== *)
(** * Playback: the lanes of a page over one graph

    Composes Graph.v and Scheduler.v the way content/index.ts does: every track
    has a lane that plays into the track's entry node, all in the context of
    the one graph.  Scheduler.v takes the rest of the page as a step that leaves
    a lane's sources alone; here the rest is the code, and each lane is shown to
    be such a scheduler ([simulated]).  The sound of the page follows from
    the graph's, with the started buffers in place of the feeds. *)
From Stdlib Require Import SpecFloat QArith.Qcanon.
From stdpp Require Import relations.
From S2P Require Import Prelude JsString JsNumber JsOrder Prefs Scheduler OpusLane WebAudio Graph Mixer.
Open Scope Z_scope.

Section Playback.
(** The decoded audio. *)
Context {AudioBuffer : Type}.

(** The graph, the scheduler of each lane of [audioLanes], and the schedulers of
    the lanes that were closed: what these started can still report its end. *)
Record Playback := mkPlayback {
  mixer : MixerGraph;
  lanes : gmap jstr (ScheduledLane AudioBuffer);
  closedLanes : list (ScheduledLane AudioBuffer);
}.

Definition with_mixer (g : MixerGraph) (p : Playback) : Playback :=
  mkPlayback g (lanes p) (closedLanes p).

(** [createScheduler(graph.ctx, entry)], for the lane of a slug. *)
Definition attach (slug : jstr) (entry : nat) (p : Playback) : Playback :=
  mkPlayback (mixer p) (<[slug := createScheduler entry]> (lanes p)) (closedLanes p).

(** [ensureLane(slug)], the scheduler's part: no lane without an entry node, or
    when the decoder cannot be created. *)
Definition openLane (webcodecs : bool) (slug : jstr) (p : Playback) : Playback :=
  match lanes p !! slug with
  | Some _ => p
  | None =>
      match entryNodeFor (mixer p) slug with
      | None => p
      | Some entry =>
          match createOpusDecoder webcodecs with
          | Throw _ => p
          | Ok _ => attach slug entry p
          end
      end
  end.

(** A lane and the context after one of its calls. *)
Definition put_lane (slug : jstr) (s : State AudioBuffer) (p : Playback) : Playback :=
  mkPlayback (with_ctx s.2 (mixer p)) (<[slug := s.1]> (lanes p)) (closedLanes p).

(** [(buf) => scheduler.enqueue(buf)]; a closed decoder calls it no more. *)
Definition onDecoded (slug : jstr) (now : num) (buf : AudioBuffer) (p : Playback) :
    Playback * option Exn :=
  match lanes p !! slug with
  | None => (p, None)
  | Some lane =>
      let '(s, e) := enqueue now buf (lane, ctx (mixer p)) in (put_lane slug s p, e)
  end.

(** A source of an open lane ends. *)
Definition onEnded (slug : jstr) (src : nat) (p : Playback) : Playback :=
  match lanes p !! slug with
  | None => p
  | Some lane => put_lane slug (ended src (lane, ctx (mixer p))) p
  end.

(** A source of a closed lane ends. *)
Definition onEndedClosed (i : nat) (src : nat) (p : Playback) : Playback :=
  match closedLanes p !! i with
  | None => p
  | Some lane =>
      let '(lane, c) := ended src (lane, ctx (mixer p)) in
      mkPlayback (with_ctx c (mixer p)) (lanes p) (<[i := lane]> (closedLanes p))
  end.

(** [lane.scheduler.close(); audioLanes.delete(slug)] *)
Definition closeLane (slug : jstr) (p : Playback) : Playback :=
  match lanes p !! slug with
  | None => p
  | Some lane =>
      let '(lane, c) := Scheduler.close (lane, ctx (mixer p)) in
      mkPlayback (with_ctx c (mixer p)) (delete slug (lanes p)) (closedLanes p ++ [lane])
  end.

(** A track that is gone from the list. *)
Definition dropTrack (slug : jstr) (p : Playback) : Playback :=
  let p := closeLane slug p in
  with_mixer (removeTrack (mixer p) slug) p.

(** [destroy()]: every lane is closed, then the graph is destroyed. *)
Definition destroyPlayback (p : Playback) : Playback :=
  let p := foldl (fun p slug => closeLane slug p) p (map_to_list (lanes p)).*1 in
  with_mixer (Graph.destroy (mixer p)) p.

(** ** Events *)

Inductive playback_event :=
  | PGraph (o : op)
  | PLane (slug : jstr)
  | PDecoded (slug : jstr) (now : num) (buf : AudioBuffer)
  | PEnded (slug : jstr) (src : nat)
  | PEndedClosed (i src : nat)
  | PDrop (slug : jstr).

Definition handle_playback (webcodecs : bool) (e : playback_event) (p : Playback) : result Playback :=
  match e with
  | PGraph o => g ← run_op (mixer p) o; Ok (with_mixer g p)
  | PLane slug => Ok (openLane webcodecs slug p)
  | PDecoded slug now buf => Ok (onDecoded slug now buf p).1
  | PEnded slug src => Ok (onEnded slug src p)
  | PEndedClosed i src => Ok (onEndedClosed i src p)
  | PDrop slug => Ok (dropTrack slug p)
  end.

(** The calls on the graph that are not a lane's: adding a track and moving a
    control. *)
Definition graph_call (o : op) : bool :=
  match o with
  | OAdd _ | OGain _ _ | OBroadcast _ | OOffset _ => true
  | ORemove _ | OPlay _ | OStop _ => false
  end.

(** Only a source that was started ends. *)
Definition playback_ok (e : playback_event) (p : Playback) : Prop :=
  match e with
  | PGraph o => graph_call o = true /\ op_ok (mixer p) o
  | PEnded slug src => exists lane, lanes p !! slug = Some lane /\ src ∈ st_source <$> started lane
  | PEndedClosed i src =>
      exists lane, closedLanes p !! i = Some lane /\ src ∈ st_source <$> started lane
  | _ => True
  end.

Inductive playback_reachable (webcodecs : bool) (captured : gset Z) (video : Z) : Playback -> Prop :=
  | playback_mount captured' g :
      buildGraph captured video = Ok (captured', g) ->
      playback_reachable webcodecs captured video (mkPlayback g ∅ [])
  | playback_step p e p' :
      playback_reachable webcodecs captured video p -> playback_ok e p -> handle_playback webcodecs e p = Ok p' ->
      playback_reachable webcodecs captured video p'.

(** ** What is heard *)

Definition lanes_of (m : gmap jstr (ScheduledLane AudioBuffer)) : list (ScheduledLane AudioBuffer) :=
  (map_to_list m).*2.
Definition all_lanes (p : Playback) : list (ScheduledLane AudioBuffer) :=
  lanes_of (lanes p) ++ closedLanes p.
Definition starts_of (ls : list (ScheduledLane AudioBuffer)) : list (Start AudioBuffer) :=
  ls ≫= started.
Definition sources_of (ls : list (ScheduledLane AudioBuffer)) : list nat :=
  st_source <$> starts_of ls.

Section Sound.
(** What a buffer sounds like from its start. *)
Context (wave : AudioBuffer -> Qc -> Qc).

Definition start_sound (s : Start AudioBuffer) (t : Qc) : Qc :=
  wave (st_buffer s) (t - val (st_when s))%Qc.

(** A buffer source plays its buffer from the time it was started at; one that
    was never started is silent. *)
Definition plays (p : Playback) (n : nat) (t : Qc) : Qc :=
  match list_find (fun s => st_source s = n) (starts_of (all_lanes p)) with
  | Some (_, s) => start_sound s t
  | None => 0%Qc
  end.

(** The started buffers of a lane that have neither ended nor been stopped. *)
Definition lane_sound (lane : ScheduledLane AudioBuffer) (t : Qc) : Qc :=
  foldr (fun s acc => if decide (st_source s ∈ liveSources lane) then start_sound s t + acc else acc)%Qc
    0%Qc (started lane).

Definition track_sound (p : Playback) (slug : jstr) (t : Qc) : Qc :=
  match lanes p !! slug with Some lane => lane_sound lane t | None => 0%Qc end.

Definition sum_tracks (g : MixerGraph) (f : jstr -> TrackNodes -> Qc) : Qc :=
  foldr (fun x acc => f x.1 x.2 + acc)%Qc 0%Qc (map_to_list (tracks g)).
End Sound.

(** ** The invariant *)

Definition lane_edges (lane : ScheduledLane AudioBuffer) : list (nat * nat) :=
  (fun n => (n, Scheduler.destination lane)) <$> liveSources lane.
Definition live_edges (m : gmap jstr (ScheduledLane AudioBuffer)) : list (nat * nat) :=
  lanes_of m ≫= lane_edges.

(** The lane, in its context, is a state of a scheduler of Scheduler.v. *)
Definition simulated (c : Ctx) (lane : ScheduledLane AudioBuffer) : Prop :=
  exists dest c0, rtc step (createScheduler dest, c0) (lane, c).

Record lanes_inv (c : Ctx) (ls : list (ScheduledLane AudioBuffer)) : Prop := {
  li_distinct : NoDup (sources_of ls);
  li_nodes : Forall (fun n => nodes c !! n = Some BufferSource) (sources_of ls);
  li_simulated : Forall (simulated c) ls;
}.

(** [dead] are the connections of sources whose [start] threw. *)
Record playback_inv (p : Playback) : Prop := {
  pi_wf : exists dead, graph_wf (mixer p) (live_edges (lanes p) ++ dead)
          /\ Forall (fun e => e.1 ∉ sources_of (all_lanes p)) dead;
  pi_entry : forall slug lane, lanes p !! slug = Some lane ->
             entryNodeFor (mixer p) slug = Some (Scheduler.destination lane);
  pi_lanes : lanes_inv (ctx (mixer p)) (all_lanes p);
}.

(** A change of the context that leaves the sources [ns] alone. *)
Record keeps (ns : list nat) (c c' : Ctx) : Prop := {
  keeps_next : (next c <= next c')%nat;
  keeps_edges : forall n d, n ∈ ns -> (n, d) ∈ edges c' <-> (n, d) ∈ edges c;
  keeps_nodes : forall n, n ∈ ns -> nodes c !! n = Some BufferSource -> nodes c' !! n = Some BufferSource;
}.
End Playback.
Arguments Playback : clear implicits.
Arguments playback_event : clear implicits.

(** ** Lemmas *)

Section Lemmas.
Context {AudioBuffer : Type}.
Implicit Types (p : Playback AudioBuffer) (lane : ScheduledLane AudioBuffer).
Implicit Types (m : gmap jstr (ScheduledLane AudioBuffer)) (ls : list (ScheduledLane AudioBuffer)).

(** *** Lanes and their sources, up to order *)

Lemma lanes_of_split m slug lane :
  m !! slug = Some lane -> lanes_of m ≡ₚ lane :: lanes_of (delete slug m).
Proof. intros H. unfold lanes_of. by rewrite <- (map_to_list_delete _ _ _ H). Qed.

Lemma lanes_of_insert m slug lane :
  lanes_of (<[slug := lane]> m) ≡ₚ lane :: lanes_of (delete slug m).
Proof.
  rewrite (lanes_of_split _ slug lane) by apply lookup_insert_eq. by rewrite delete_insert_eq.
Qed.

Lemma elem_of_lanes m lane : lane ∈ lanes_of m <-> exists slug, m !! slug = Some lane.
Proof.
  unfold lanes_of. rewrite list_elem_of_fmap. split.
  - intros ([slug l] & -> & H%elem_of_map_to_list). by exists slug.
  - intros [slug H%elem_of_map_to_list]. by exists (slug, lane).
Qed.

Lemma live_edges_split m slug lane :
  m !! slug = Some lane -> live_edges m ≡ₚ lane_edges lane ++ live_edges (delete slug m).
Proof. intros H. unfold live_edges. by rewrite (lanes_of_split _ _ _ H). Qed.

Lemma live_edges_insert m slug lane :
  live_edges (<[slug := lane]> m) ≡ₚ lane_edges lane ++ live_edges (delete slug m).
Proof. unfold live_edges. by rewrite lanes_of_insert. Qed.

Lemma elem_of_live_edges m n d :
  (n, d) ∈ live_edges m
  <-> exists slug lane, m !! slug = Some lane /\ n ∈ liveSources lane /\ d = Scheduler.destination lane.
Proof.
  unfold live_edges. rewrite list_elem_of_bind. split.
  - intros (lane & He & [slug Hl]%elem_of_lanes). exists slug, lane. split; [done|].
    apply list_elem_of_fmap in He as (x & [= -> ->] & Hx). done.
  - intros (slug & lane & Hl & Hn & ->). exists lane. split; [|by apply elem_of_lanes; exists slug].
    apply list_elem_of_fmap. by exists n.
Qed.

Lemma sources_cons lane ls : sources_of (lane :: ls) = (st_source <$> started lane) ++ sources_of ls.
Proof. unfold sources_of, starts_of. by rewrite bind_cons, fmap_app. Qed.

#[global] Instance sources_perm : Proper (Permutation ==> Permutation) (@sources_of AudioBuffer).
Proof. intros ls ls' H. unfold sources_of, starts_of. by rewrite H. Qed.

Lemma elem_of_sources ls n :
  n ∈ sources_of ls <-> exists lane, lane ∈ ls /\ n ∈ st_source <$> started lane.
Proof.
  unfold sources_of, starts_of. split.
  - intros (s & -> & Hs)%list_elem_of_fmap. apply list_elem_of_bind in Hs as (lane & Hs & Hl).
    exists lane. split; [done|]. apply list_elem_of_fmap. by exists s.
  - intros (lane & Hl & (s & -> & Hs)%list_elem_of_fmap). apply list_elem_of_fmap. exists s.
    split; [done|]. apply list_elem_of_bind. by exists lane.
Qed.

#[global] Instance lanes_inv_perm c : Proper (Permutation ==> iff) (lanes_inv (AudioBuffer := AudioBuffer) c).
Proof.
  intros ls ls' H. split; intros [H1 H2 H3]; constructor; first [by rewrite <- H | by rewrite H].
Qed.

Lemma graph_wf_perm g ext ext' : ext ≡ₚ ext' -> graph_wf g ext -> graph_wf g ext'.
Proof.
  intros Hp [H1 H2 H3 H4 H5 H6 H7 H8 H9 H10 H11 H12 H13]. constructor; try assumption.
  - by rewrite <- Hp.
  - by rewrite <- Hp.
Qed.

(** *** What leaves the sources of a lane alone *)

Lemma keeps_refl ns c : keeps ns c c.
Proof. by constructor. Qed.

Lemma keeps_trans ns c1 c2 c3 : keeps ns c1 c2 -> keeps ns c2 c3 -> keeps ns c1 c3.
Proof.
  intros [A1 A2 A3] [B1 B2 B3]. constructor; [lia| |eauto].
  intros n d Hn. by rewrite B2, A2.
Qed.

Lemma keeps_sub ns ns' c c' : (forall n, n ∈ ns' -> n ∈ ns) -> keeps ns c c' -> keeps ns' c c'.
Proof. intros Hs [A1 A2 A3]. constructor; auto. Qed.

#[global] Instance keeps_perm : Proper (Permutation ==> eq ==> eq ==> iff) keeps.
Proof.
  intros ns ns' H c _ <- c' _ <-. split; apply keeps_sub; intros n; by rewrite H.
Qed.

Lemma keeps_simulated lane c c' :
  keeps (st_source <$> started lane) c c' -> simulated c lane -> simulated c' lane.
Proof.
  intros Hk (dest & c0 & Hr). exists dest, c0. eapply rtc_r; [exact Hr|].
  apply step_other; apply Hk.
Qed.

Lemma keeps_lanes ls c c' : keeps (sources_of ls) c c' -> lanes_inv c ls -> lanes_inv c' ls.
Proof.
  intros Hk [H1 H2 H3]. constructor; [done| |].
  - rewrite Forall_forall in *. intros n Hn. apply (keeps_nodes _ _ _ Hk); auto.
  - rewrite Forall_forall in *. intros lane Hl. apply (keeps_simulated lane c); [|auto].
    eapply keeps_sub; [|exact Hk]. intros n Hn. apply elem_of_sources. eauto.
Qed.

(** One lane takes a step of its own, and the others are left alone. *)
Lemma step_lanes ls lane lane' c c' :
  lanes_inv c (lane :: ls) -> keeps (sources_of ls) c c' -> Scheduler.step (lane, c) (lane', c') ->
  Forall (fun n => nodes c' !! n = Some BufferSource /\ n ∉ sources_of ls) (st_source <$> started lane') ->
  lanes_inv c' (lane' :: ls).
Proof.
  intros [H1 H2 H3] Hk Hs Hn. rewrite sources_cons in *.
  apply Forall_cons in H3 as [(dest & c0 & Hr) H3]. apply NoDup_app in H1 as (_ & _ & Hd).
  apply Forall_app in H2 as [_ H2].
  destruct (keeps_lanes ls c c' Hk) as [K1 K2 K3]; [by constructor|].
  assert (Hr' : rtc Scheduler.step (createScheduler dest, c0) (lane', c')) by by eapply rtc_r.
  rewrite Forall_forall in Hn. constructor.
  - rewrite sources_cons. apply NoDup_app.
    split; [exact (inv_distinct _ (lane_reachable_inv _ _ _ Hr'))|]. split; [|done]. intros n Hin. by apply Hn.
  - rewrite sources_cons. apply Forall_app. split; [|done]. apply Forall_forall. intros n Hin. by apply Hn.
  - constructor; [|done]. by exists dest, c0.
Qed.

(** *** The calls on the graph *)

Lemma set_gain_keeps ns a v x c c' :
  nodes c !! a = Some (Gain x) -> set_gain a v c = Ok c' -> keeps ns c c'.
Proof.
  intros Ha. unfold set_gain. destruct (isFinite (fround v)); [|done]. intros [= <-].
  constructor; [done|done|]. intros n _ Hn. cbn. rewrite lookup_insert_ne; [done|]. congruence.
Qed.

Lemma addTrack_keeps g ext ns slug e g' :
  graph_wf g ext -> Forall (fun n => nodes (ctx g) !! n = Some BufferSource) ns ->
  addTrack g slug = Ok (e, g') -> keeps ns (ctx g) (ctx g').
Proof.
  intros Hwf Hns. destruct (tracks g !! slug) as [t|] eqn:Ht.
  { rewrite (addTrack_existing _ _ _ Ht). intros [= _ <-]. apply keeps_refl. }
  rewrite (addTrack_new g ext slug Hwf Ht). intros [= _ <-]. cbn [ctx with_tracks with_ctx].
  rewrite Forall_forall in Hns. constructor; [cbn; lia| |].
  - intros n d Hn%Hns. pose proof (wf_fresh _ _ Hwf n ltac:(by eexists)) as Hlt.
    cbn [edges added]. rewrite elem_of_app. split; [|by left]. intros [?|Hin]; [done|].
    repeat (apply elem_of_cons in Hin as [[= -> _]|Hin]; [lia|]). by apply not_elem_of_nil in Hin.
  - intros n _ Hn. by apply (added_old g ext).
Qed.

Lemma graph_call_keeps g ext ns o g' :
  graph_wf g ext -> Forall (fun n => nodes (ctx g) !! n = Some BufferSource) ns ->
  graph_call o = true -> op_ok g o -> run_op g o = Ok g' ->
  graph_wf g' ext /\ keeps ns (ctx g) (ctx g')
  /\ forall s e, entryNodeFor g s = Some e -> entryNodeFor g' s = Some e.
Proof.
  intros Hwf Hns Hc Hok Hr. destruct o as [s|s|s v|v|ms|s|n]; try discriminate; cbn [run_op op_ok] in *.
  - destruct (addTrack_spec g ext s Hwf) as (n & g1 & Ha & Hwf' & _). rewrite Ha in Hr. injection Hr as <-.
    split; [done|]. split; [by apply (addTrack_keeps g ext ns s n)|].
    intros s' e He. rewrite (addTrack_entry g s n _ s' Ha). case_decide as Hs; [|done]. subst s'.
    unfold entryNodeFor in He. apply fmap_Some in He as (t & Ht & ->).
    rewrite (addTrack_existing _ _ _ Ht) in Ha. by injection Ha as <- _.
  - destruct (setTrackGain_spec g ext s v Hwf Hok) as (g1 & Ha & Hwf' & _). rewrite Ha in Hr. injection Hr as <-.
    split; [done|]. split.
    + unfold setTrackGain in Ha. destruct (tracks g !! s) as [t|] eqn:Ht; [|injection Ha as <-; apply keeps_refl].
      destruct (wf_userGain _ _ Hwf s t Ht) as [x Hx].
      apply bind_Ok_inv in Ha as (c & Hc' & [= <-]). by eapply set_gain_keeps.
    + intros s' e He. unfold entryNodeFor. rewrite (setters_tracks g g1); [done|]. left; eauto.
  - destruct (setBroadcastGain_spec g ext v Hwf Hok) as (g1 & Ha & Hwf' & _). rewrite Ha in Hr. injection Hr as <-.
    split; [done|]. split.
    + destruct (wf_broadcast _ _ Hwf) as [x Hx].
      apply bind_Ok_inv in Ha as (c & Hc' & [= <-]). by eapply set_gain_keeps.
    + intros s' e He. unfold entryNodeFor. rewrite (setters_tracks g g1); [done|]. right; left; eauto.
  - destruct (setOffsetMs_wf g ext ms Hwf Hok) as (g1 & Ha & Hwf' & Ht & _ & Hn & _).
    rewrite Ha in Hr. injection Hr as <-. split; [done|]. split.
    + apply bind_Ok_inv in Ha as (c & Hc' & Hg). injection Hg as <-. unfold set_delay in Hc'.
      destruct (isFinite _); [|done]. destruct (nodes _ !! _) as [[]|]; try done. injection Hc' as <-.
      constructor; [done|done|]. intros n _ Hb. rewrite Hn; [done|]. intros ->.
      by rewrite (wf_delay _ _ Hwf) in Hb.
    + intros s' e He. unfold entryNodeFor. by rewrite Ht.
Qed.

Lemma removeTrack_keeps g ext ns slug :
  graph_wf g ext -> Forall (fun n => nodes (ctx g) !! n = Some BufferSource) ns ->
  keeps ns (ctx g) (ctx (removeTrack g slug)).
Proof.
  intros Hwf Hns. unfold removeTrack. destruct (tracks g !! slug) as [t|] eqn:Ht; [|apply keeps_refl].
  rewrite Forall_forall in Hns. cbn. constructor; [done| |done].
  intros n d Hn%Hns. cbn. rewrite !list_elem_of_filter. cbn.
  pose proof (wf_entry _ _ Hwf slug t Ht). destruct (wf_userGain _ _ Hwf slug t Ht) as [v Hv].
  split; [by intros (_ & _ & ?)|]. intros He. split; [congruence|]. split; [congruence|done].
Qed.

(** *** The calls of a lane *)

Lemma disconnect_all_nodes l c : nodes (foldl (fun c src => disconnect src c) c l) = nodes c.
Proof. revert c. induction l as [|k l IH]; intros c; cbn [foldl]; [done|]. by rewrite IH. Qed.

Lemma disconnect_keeps ns l c :
  (forall n, n ∈ ns -> n ∉ l) -> keeps ns c (foldl (fun c src => disconnect src c) c l).
Proof.
  intros Hd. constructor.
  - by rewrite disconnect_all_next.
  - intros n d Hn. rewrite disconnect_all. split; [by intros [? _]|]. auto.
  - intros n _. by rewrite disconnect_all_nodes.
Qed.

(** The scheduler's [enqueue] is the graph's [play_into]. *)
Lemma enqueue_play now buf lane g :
  let '((lane', c'), e) := enqueue now buf (lane, ctx g) in
  with_ctx c' g = (play_into (Scheduler.destination lane) g).2
  /\ Scheduler.destination lane' = Scheduler.destination lane
  /\ match e with
     | None => liveSources lane' = liveSources lane ++ [next (ctx g)]
               /\ exists when, started lane' = started lane ++ [mkStart (next (ctx g)) when buf]
     | Some _ => liveSources lane' = liveSources lane /\ started lane' = started lane
     end.
Proof.
  unfold enqueue, play_into. cbn [create]. destruct (start_error _); cbn; eauto.
Qed.

Lemma play_into_keeps g ext ns slug t :
  graph_wf g ext -> tracks g !! slug = Some t ->
  Forall (fun n => nodes (ctx g) !! n = Some BufferSource) ns ->
  keeps ns (ctx g) (ctx (play_into (entry t) g).2).
Proof.
  intros Hwf Ht Hns. pose proof (play_into_wf g ext slug t Hwf Ht) as H.
  destruct (play_into (entry t) g) as [n g'] eqn:Ep. destruct H as (_ & _ & Hold & Hn & _).
  rewrite Forall_forall in Hns.
  assert (Hne : forall i, i ∈ ns -> i <> n).
  { intros i Hi%Hns. pose proof (wf_fresh _ _ Hwf i ltac:(by eexists)). lia. }
  unfold play_into, create in Ep. injection Ep as <- <-. cbn [snd ctx with_ctx] in *. constructor.
  - unfold connect. case_decide; cbn; lia.
  - intros i d Hi. rewrite elem_of_connect. split; [|by left]. intros [?|[= -> _]]; [done|].
    by destruct (Hne _ Hi).
  - intros i Hi Hb. rewrite Hold; auto.
Qed.

Lemma stop_all_wf g ext l :
  graph_wf g ext -> Forall (fun n => nodes (ctx g) !! n = Some BufferSource) l ->
  graph_wf (with_ctx (foldl (fun c src => disconnect src c) (ctx g) l) g) (filter (fun e => e.1 ∉ l) ext).
Proof.
  intros Hwf Hl. revert g ext Hwf Hl. induction l as [|n l IH]; intros g ext Hwf Hl; cbn [foldl].
  - rewrite filter_all; [by destruct g|]. apply Forall_forall. intros e _. apply not_elem_of_nil.
  - apply Forall_cons in Hl as [Hn Hl].
    pose proof (IH (stop_playing n g) _ (stop_playing_wf g ext n Hwf Hn) Hl) as H.
    rewrite list_filter_filter in H. eapply graph_wf_perm; [|exact H].
    erewrite list_filter_iff; [done|]. intros e. cbn. rewrite not_elem_of_cons. tauto.
Qed.

(** *** Every event keeps the invariant *)

Lemma simulated_inv c lane : simulated c lane -> lane_inv (lane, c).
Proof. intros (dest & c0 & Hr). by eapply lane_reachable_inv. Qed.

(** The lanes other than [slug]'s. *)
Definition others p (slug : jstr) : list (ScheduledLane AudioBuffer) :=
  lanes_of (delete slug (lanes p)) ++ closedLanes p.

Lemma all_lanes_split p slug lane :
  lanes p !! slug = Some lane -> all_lanes p ≡ₚ lane :: others p slug.
Proof. intros H. unfold all_lanes, others. by rewrite (lanes_of_split _ _ _ H). Qed.

Lemma all_lanes_put p slug s :
  all_lanes (put_lane slug s p) ≡ₚ s.1 :: others p slug.
Proof. unfold all_lanes, others, put_lane. cbn [lanes closedLanes]. by rewrite lanes_of_insert. Qed.

Section Invariant.
Context {p : Playback AudioBuffer} (Hi : playback_inv p).

Lemma inv_lane slug lane :
  lanes p !! slug = Some lane ->
  lanes_inv (ctx (mixer p)) (lane :: others p slug) /\ lane_inv (lane, ctx (mixer p))
  /\ exists t, tracks (mixer p) !! slug = Some t /\ Scheduler.destination lane = entry t.
Proof.
  intros Hl. pose proof (pi_lanes _ Hi) as H. rewrite (all_lanes_split p slug lane Hl) in H.
  split; [exact H|]. split.
  - apply li_simulated, Forall_cons in H as [Hs _]. by apply simulated_inv.
  - pose proof (pi_entry _ Hi slug lane Hl) as He. unfold entryNodeFor in He.
    apply fmap_Some in He as (t & Ht & ->). eauto.
Qed.

Lemma inv_source_fresh n : n ∈ sources_of (all_lanes p) -> (n < next (ctx (mixer p)))%nat.
Proof.
  intros Hn. destruct (pi_wf _ Hi) as (dead & Hwf & _). apply (wf_fresh _ _ Hwf).
  pose proof (li_nodes _ _ (pi_lanes _ Hi)) as H. rewrite Forall_forall in H. rewrite H by done. by eexists.
Qed.

Lemma inv_dead_fresh ext e :
  graph_wf (mixer p) ext -> e ∈ ext -> (e.1 < next (ctx (mixer p)))%nat.
Proof.
  intros Hwf He. pose proof (wf_external _ _ Hwf) as Hx. rewrite Forall_forall in Hx.
  destruct (Hx e He) as (Hn & _). apply (wf_fresh _ _ Hwf). rewrite Hn. by eexists.
Qed.

(** A source of one lane is not a source of another. *)
Lemma inv_other_source slug lane n :
  lanes p !! slug = Some lane -> n ∈ st_source <$> started lane -> n ∉ sources_of (others p slug).
Proof.
  intros Hl Hn. destruct (inv_lane slug lane Hl) as ([Hd _ _] & _).
  rewrite sources_cons in Hd. apply NoDup_app in Hd as (_ & Hd & _). by apply Hd.
Qed.

Lemma inv_graph_call o g :
  graph_call o = true -> op_ok (mixer p) o -> run_op (mixer p) o = Ok g ->
  playback_inv (with_mixer g p).
Proof.
  intros Hc Hok Hr. destruct (pi_wf _ Hi) as (dead & Hwf & Hd).
  destruct (graph_call_keeps _ _ (sources_of (all_lanes p)) o g Hwf) as (Hwf' & Hk & He); try done.
  { apply (pi_lanes _ Hi). }
  constructor; cbn [mixer lanes closedLanes].
  - exists dead. by split.
  - intros slug lane Hl. by apply He, (pi_entry _ Hi).
  - exact (keeps_lanes _ _ _ Hk (pi_lanes _ Hi)).
Qed.

Lemma inv_attach slug e :
  lanes p !! slug = None -> entryNodeFor (mixer p) slug = Some e -> playback_inv (attach slug e p).
Proof.
  intros Hl He. unfold attach. set (lane := createScheduler e).
  assert (Hp : lanes_of (<[slug := lane]> (lanes p)) ≡ₚ lane :: lanes_of (lanes p))
    by (rewrite lanes_of_insert; by rewrite delete_id).
  constructor; unfold all_lanes; cbn [mixer lanes closedLanes].
  - destruct (pi_wf _ Hi) as (dead & Hwf & Hd). exists dead. split.
    + eapply graph_wf_perm; [|exact Hwf]. unfold live_edges. by rewrite Hp.
    + eapply Forall_impl; [exact Hd|]. intros x. by rewrite Hp.
  - intros s l. rewrite lookup_insert. case_decide as Hs; [|apply (pi_entry _ Hi)].
    intros [= <-]. by subst s.
  - rewrite Hp. destruct (pi_lanes _ Hi) as [H1 H2 H3]. constructor; cbn [app]; rewrite ?sources_cons; try done.
    constructor; [|exact H3]. by exists e, (ctx (mixer p)).
Qed.

Lemma inv_openLane webcodecs slug : playback_inv (openLane webcodecs slug p).
Proof.
  unfold openLane. destruct (lanes p !! slug) as [|] eqn:Hl; [done|].
  destruct (entryNodeFor (mixer p) slug) as [e|] eqn:He; [|done].
  destruct (createOpusDecoder webcodecs); [|done]. by apply inv_attach.
Qed.

(** A lane takes a step: what is left to show is the graph's wiring. *)
Lemma inv_put slug lane s dead :
  lanes p !! slug = Some lane ->
  Scheduler.step (lane, ctx (mixer p)) s -> keeps (sources_of (others p slug)) (ctx (mixer p)) s.2 ->
  Scheduler.destination s.1 = Scheduler.destination lane ->
  Forall (fun n => nodes s.2 !! n = Some BufferSource /\ n ∉ sources_of (others p slug))
    (st_source <$> started s.1) ->
  graph_wf (with_ctx s.2 (mixer p)) (lane_edges s.1 ++ live_edges (delete slug (lanes p)) ++ dead) ->
  Forall (fun e => e.1 ∉ sources_of (s.1 :: others p slug)) dead ->
  playback_inv (put_lane slug s p).
Proof.
  intros Hl Hs Hk Hdest Hn Hwf Hd. constructor.
  - exists dead. split.
    + eapply graph_wf_perm; [|exact Hwf]. unfold put_lane. cbn [lanes].
      by rewrite live_edges_insert, app_assoc.
    + eapply Forall_impl; [exact Hd|]. intros x. by rewrite all_lanes_put.
  - unfold put_lane. cbn [mixer lanes]. intros s' l. rewrite lookup_insert. case_decide as Heq.
    + intros [= <-]. subst s'. rewrite Hdest. exact (pi_entry _ Hi slug lane Hl).
    + apply (pi_entry _ Hi).
  - rewrite all_lanes_put. destruct s as [lane' c']. cbn in *.
    destruct (inv_lane slug lane Hl) as (Hinv & _). by eapply step_lanes.
Qed.

(** The sources of the split lanes. *)
Lemma inv_source_split slug lane n :
  lanes p !! slug = Some lane ->
  (n ∈ sources_of (all_lanes p)) <-> (n ∈ st_source <$> started lane) \/ n ∈ sources_of (others p slug).
Proof. intros Hl. by rewrite (all_lanes_split p slug lane Hl), sources_cons, elem_of_app. Qed.

(** What [play_into] leaves of the sources known so far. *)
Lemma inv_play slug lane t n g' :
  lanes p !! slug = Some lane -> tracks (mixer p) !! slug = Some t ->
  play_into (entry t) (mixer p) = (n, g') ->
  n = next (ctx (mixer p)) /\ nodes (ctx g') !! n = Some BufferSource
  /\ (n ∉ sources_of (all_lanes p)) /\ keeps (sources_of (others p slug)) (ctx (mixer p)) (ctx g')
  /\ Forall (fun n => nodes (ctx g') !! n = Some BufferSource /\ n ∉ sources_of (others p slug))
       (st_source <$> started lane).
Proof.
  intros Hl Ht Ep. destruct (pi_wf _ Hi) as (dead & Hwf & _).
  pose proof (play_into_wf _ _ slug t Hwf Ht) as Hw. rewrite Ep in Hw.
  destruct Hw as (_ & _ & _ & Hn & Hbuf).
  pose proof (li_nodes _ _ (pi_lanes _ Hi)) as Hns.
  pose proof (play_into_keeps _ _ _ slug t Hwf Ht Hns) as Hk. rewrite Ep in Hk. cbn [snd] in Hk.
  split; [done|]. split; [done|]. split; [intros Hx%inv_source_fresh; lia|]. split.
  - eapply keeps_sub; [|exact Hk]. intros i Hin. apply (inv_source_split slug lane i Hl). by right.
  - apply Forall_forall. intros i Hin. split; [|by eapply inv_other_source].
    assert (Hall : i ∈ sources_of (all_lanes p)) by (apply (inv_source_split slug lane i Hl); by left).
    apply (keeps_nodes _ _ _ Hk i Hall). rewrite Forall_forall in Hns. by apply Hns.
Qed.

Lemma inv_onDecoded slug now buf : playback_inv (onDecoded slug now buf p).1.
Proof.
  unfold onDecoded. destruct (lanes p !! slug) as [lane|] eqn:Hl; [|done].
  destruct (inv_lane slug lane Hl) as (_ & _ & t & Ht & Hdest).
  destruct (pi_wf _ Hi) as (dead & Hwf & Hd).
  pose proof (enqueue_play now buf lane (mixer p)) as Hp.
  pose proof (step_enqueue now buf (lane, ctx (mixer p))) as Hs.
  destruct (enqueue now buf (lane, ctx (mixer p))) as [[lane' c'] e]. destruct Hp as (Hg & Hdest' & He).
  pose proof (play_into_wf _ _ slug t Hwf Ht) as Hw.
  rewrite Hdest in Hg. destruct (play_into (entry t) (mixer p)) as [n g'] eqn:Ep. cbn [fst snd] in *. subst g'.
  destruct Hw as (Hwf' & _).
  destruct (inv_play slug lane t n _ Hl Ht Ep) as (Hn & Hbuf & Hfresh & Hk & Hold). cbn [ctx with_ctx] in *.
  rewrite <- Hn in He. rewrite (inv_source_split slug lane n Hl) in Hfresh.
  assert (Hdead : forall y, y ∈ dead -> (y.1 ∉ st_source <$> started lane)
                                     /\ (y.1 ∉ sources_of (others p slug)) /\ y.1 <> n).
  { intros y Hy. rewrite Forall_forall in Hd. specialize (Hd y Hy).
    rewrite (inv_source_split slug lane _ Hl) in Hd. split; [tauto|]. split; [tauto|].
    pose proof (inv_dead_fresh _ y Hwf ltac:(apply elem_of_app; by right)). lia. }
  destruct e as [x|]; [destruct He as [Hlive Hst]|destruct He as [Hlive [when Hst]]].
  - apply (inv_put slug lane (lane', c') (dead ++ [(n, entry t)])); cbn [fst snd]; try done.
    + by rewrite Hst.
    + eapply graph_wf_perm; [|exact Hwf']. rewrite (live_edges_split _ _ _ Hl).
      unfold lane_edges. by rewrite Hlive, Hdest', <- !app_assoc.
    + rewrite sources_cons, Hst. apply Forall_forall. intros y. rewrite !elem_of_app, list_elem_of_singleton.
      intros [[? [? _]]%Hdead| ->]; tauto.
  - apply (inv_put slug lane (lane', c') dead); cbn [fst snd]; try done.
    + rewrite Hst, fmap_app. apply Forall_app. split; [exact Hold|].
      constructor; [|constructor]. tauto.
    + eapply graph_wf_perm; [|exact Hwf']. rewrite (live_edges_split _ _ _ Hl).
      unfold lane_edges. rewrite Hlive, Hdest', Hdest, fmap_app. solve_Permutation.
    + rewrite sources_cons, Hst, fmap_app. apply Forall_forall. intros y Hy. cbn [fmap list_fmap st_source].
      rewrite !elem_of_app, list_elem_of_singleton. destruct (Hdead y Hy) as (? & ? & ?). tauto.
Qed.
Lemma inv_rest slug s l n :
  delete slug (lanes p) !! s = Some l -> n ∈ liveSources l -> n ∈ sources_of (others p slug).
Proof.
  intros Hs Hn. apply elem_of_sources. exists l. split.
  - apply elem_of_app. left. apply elem_of_lanes. by exists s.
  - apply lookup_delete_Some in Hs as [_ Hs]. destruct (inv_lane s l Hs) as (_ & Hlane & _).
    by apply (inv_live _ Hlane).
Qed.

(** Stopping some of a lane's sources. *)
Lemma inv_stop slug lane l :
  lanes p !! slug = Some lane -> (forall n, n ∈ l -> n ∈ st_source <$> started lane) ->
  let c' := foldl (fun c src => disconnect src c) (ctx (mixer p)) l in
  keeps (sources_of (others p slug)) (ctx (mixer p)) c'
  /\ Forall (fun n => nodes c' !! n = Some BufferSource /\ n ∉ sources_of (others p slug))
       (st_source <$> started lane)
  /\ exists dead,
       graph_wf (with_ctx c' (mixer p))
         (filter (fun e => e.1 ∉ l) (lane_edges lane) ++ live_edges (delete slug (lanes p)) ++ dead)
       /\ Forall (fun e => e.1 ∉ sources_of (all_lanes p)) dead.
Proof.
  intros Hl Hsub c'. destruct (pi_wf _ Hi) as (dead & Hwf & Hd).
  pose proof (li_nodes _ _ (pi_lanes _ Hi)) as Hns. rewrite Forall_forall in Hns.
  assert (Hall : forall n, n ∈ st_source <$> started lane -> n ∈ sources_of (all_lanes p))
    by (intros n Hn; apply (inv_source_split slug lane n Hl); by left).
  assert (Hno : forall n, n ∈ sources_of (others p slug) -> n ∉ l).
  { intros n Hn Hnl%Hsub. exact (inv_other_source slug lane n Hl Hnl Hn). }
  split; [by apply disconnect_keeps|]. split.
  - apply Forall_forall. intros n Hn. split; [|by eapply inv_other_source].
    unfold c'. rewrite disconnect_all_nodes. auto.
  - exists dead. split; [|exact Hd].
    eapply graph_wf_perm; [|apply (stop_all_wf _ _ l Hwf); apply Forall_forall; auto].
    rewrite (live_edges_split _ _ _ Hl), !filter_app, <- app_assoc. apply Permutation_app_head.
    rewrite (filter_all _ (live_edges _)), (filter_all _ dead); [done| |].
    + eapply Forall_impl; [exact Hd|]. intros e He Hnl%Hsub%Hall. done.
    + apply Forall_forall. intros [n d] (s & l' & Hl' & Hn & _)%elem_of_live_edges.
      apply Hno, (inv_rest slug s l'); done.
Qed.

Lemma lane_edges_remove lane src :
  NoDup (liveSources lane) ->
  filter (fun e => e.1 ∉ [src]) (lane_edges lane)
  ≡ₚ (fun n => (n, Scheduler.destination lane)) <$> remove_first src (liveSources lane).
Proof.
  intros Hnd. destruct (remove_first_spec src _ Hnd) as [Hnd' Hr].
  assert (Hinj : forall l, NoDup l -> NoDup ((fun n : nat => (n, Scheduler.destination lane)) <$> l))
    by (intros l; apply (NoDup_fmap_2 _)).
  apply NoDup_Permutation; [by apply NoDup_filter, Hinj|by apply Hinj|].
  intros [n d]. unfold lane_edges. rewrite list_elem_of_filter, !list_elem_of_fmap. cbn.
  rewrite list_elem_of_singleton. split.
  - intros (Hne & m & [= -> ->] & Hm). exists m. by rewrite Hr.
  - intros (m & [= -> ->] & [Hm Hne]%Hr). eauto.
Qed.

Lemma inv_onEnded slug src :
  playback_ok (PEnded slug src) p -> playback_inv (onEnded slug src p).
Proof.
  intros (lane & Hl & Hsrc). unfold onEnded. rewrite Hl.
  destruct (inv_lane slug lane Hl) as (_ & Hlane & _).
  destruct (inv_stop slug lane [src] Hl) as (Hk & Hst & dead & Hwf & Hd).
  { by intros n ->%list_elem_of_singleton. }
  apply (inv_put slug lane _ dead); try done.
  - by apply step_ended.
  - eapply graph_wf_perm; [|exact Hwf]. by rewrite (lane_edges_remove lane src (proj1 (inv_live _ Hlane))).
  - eapply Forall_impl; [exact Hd|]. intros e. cbn beta. rewrite (inv_source_split slug lane _ Hl), sources_cons, elem_of_app.
    done.
Qed.

Lemma filter_tagged (l l' : list nat) (d : nat) :
  Forall (fun n => n ∈ l') l -> filter (fun e => e.1 ∉ l') ((fun n => (n, d)) <$> l) = [].
Proof.
  induction 1 as [|n l Hn _ IH]; [done|]. cbn [fmap list_fmap].
  rewrite filter_cons_False; [exact IH|]. cbn. tauto.
Qed.

(** A lane is closed: it is retired, and nothing of it stays connected. *)
Lemma inv_closeLane slug : playback_inv (closeLane slug p).
Proof.
  unfold closeLane. destruct (lanes p !! slug) as [lane|] eqn:Hl; [|done].
  destruct (inv_lane slug lane Hl) as (Hinv & Hlane & _).
  destruct (inv_stop slug lane (liveSources lane) Hl) as (Hk & Hst & dead & Hwf & Hd).
  { apply (inv_live _ Hlane). }
  pose proof (step_close (lane, ctx (mixer p))) as Hs.
  cbn [Scheduler.close] in *. set (lane' := Scheduler.mkLane _ _ _ _) in *. set (c' := foldl _ _ _) in *.
  assert (Hp : lanes_of (delete slug (lanes p)) ++ closedLanes p ++ [lane'] ≡ₚ lane' :: others p slug)
    by (unfold others; solve_Permutation).
  constructor; unfold all_lanes; cbn [mixer lanes closedLanes].
  - exists dead. split.
    + eapply graph_wf_perm; [|exact Hwf]. unfold lane_edges. rewrite filter_tagged; [done|]. by apply Forall_forall.
    + eapply Forall_impl; [exact Hd|]. intros e. cbn beta. rewrite Hp, (inv_source_split slug lane _ Hl), sources_cons, elem_of_app.
      done.
  - intros s l [_ Hs']%lookup_delete_Some. by apply (pi_entry _ Hi).
  - rewrite Hp. exact (step_lanes _ _ _ _ _ Hinv Hk Hs Hst).
Qed.

(** A late end of a closed lane's source changes nothing for the others. *)
Lemma inv_onEndedClosed i src :
  playback_ok (PEndedClosed i src) p -> playback_inv (onEndedClosed i src p).
Proof.
  intros (lane & Hl & Hsrc). unfold onEndedClosed. rewrite Hl. cbn [ended].
  pose proof (step_ended src (lane, ctx (mixer p)) Hsrc) as Hs. cbn [ended] in Hs.
  set (lane' := Scheduler.mkLane _ _ _ _) in *.
  set (oth := lanes_of (lanes p) ++ delete i (closedLanes p)).
  assert (Hp : all_lanes p ≡ₚ lane :: oth).
  { unfold all_lanes, oth. rewrite (delete_Permutation _ _ _ Hl) at 1. solve_Permutation. }
  assert (Hp' : lanes_of (lanes p) ++ <[i := lane']> (closedLanes p) ≡ₚ lane' :: oth).
  { unfold oth. rewrite insert_take_drop, delete_take_drop by by eapply lookup_lt_Some. solve_Permutation. }
  pose proof (pi_lanes _ Hi) as Hinv. rewrite Hp in Hinv. pose proof Hinv as [Hd Hns _].
  rewrite sources_cons in Hd, Hns. apply NoDup_app in Hd as (_ & Hd & _). rewrite Forall_forall in Hns.
  assert (Hno : forall n, n ∈ sources_of oth -> n ∉ [src]).
  { intros n Hn ->%list_elem_of_singleton. by apply (Hd src). }
  destruct (pi_wf _ Hi) as (dead & Hwf & Hdead).
  constructor; unfold all_lanes; cbn [mixer lanes closedLanes].
  - exists dead. split.
    + eapply graph_wf_perm; [|apply (stop_all_wf _ _ [src] Hwf); constructor; [|constructor]].
      2:{ apply Hns, elem_of_app. by left. }
      rewrite filter_app, (filter_all _ (live_edges _)), (filter_all _ dead); [done| |].
      * eapply Forall_impl; [exact Hdead|]. intros e. cbn beta. rewrite Hp, sources_cons, elem_of_app.
        intros Hn Hx%list_elem_of_singleton. rewrite Hx in Hn. tauto.
      * apply Forall_forall. intros [n d] (s & l & Hs' & Hn & _)%elem_of_live_edges. apply Hno.
        destruct (inv_lane s l Hs') as (_ & Hlane & _). apply elem_of_sources. exists l.
        split; [|by apply (inv_live _ Hlane)]. apply elem_of_app. left. apply elem_of_lanes. by exists s.
    + eapply Forall_impl; [exact Hdead|]. intros e. cbn beta. by rewrite Hp, Hp', !sources_cons.
  - apply (pi_entry _ Hi).
  - rewrite Hp'. apply (step_lanes _ _ _ _ _ Hinv (disconnect_keeps _ [src] _ Hno) Hs).
    apply Forall_forall. intros n Hn. split; [|by apply Hd]. apply Hns, elem_of_app. by left.
Qed.
End Invariant.

Lemma closeLane_lanes p slug : lanes (closeLane slug p) = delete slug (lanes p).
Proof.
  unfold closeLane. destruct (lanes p !! slug) eqn:Hl; [done|]. by rewrite delete_id.
Qed.

Lemma inv_removeTrack p slug :
  playback_inv p -> lanes p !! slug = None -> playback_inv (with_mixer (removeTrack (mixer p) slug) p).
Proof.
  intros [(dead & Hwf & Hd) He Hls] Hn. constructor; cbn [with_mixer mixer lanes closedLanes].
  - exists dead. split; [|done]. by apply removeTrack_spec.
  - intros s lane Hs. rewrite removeTrack_entry; [by apply He|]. congruence.
  - eapply keeps_lanes; [|exact Hls]. eapply removeTrack_keeps; [exact Hwf|]. apply Hls.
Qed.

Lemma inv_dropTrack p slug : playback_inv p -> playback_inv (dropTrack slug p).
Proof.
  intros Hi. apply inv_removeTrack; [by apply inv_closeLane|]. by rewrite closeLane_lanes, lookup_delete_eq.
Qed.

Lemma playback_mount_inv captured captured' video g :
  buildGraph captured video = Ok (captured', g) ->
  playback_inv (mkPlayback (AudioBuffer := AudioBuffer) g ∅ []).
Proof.
  intros Hb. destruct (decide (video ∈ captured)) as [Hin|Hin].
  { by rewrite (buildGraph_captured _ _ Hin) in Hb. }
  destruct (buildGraph_fresh captured video Hin) as (g0 & Hb0 & Hwf & _).
  rewrite Hb0 in Hb. injection Hb as _ <-. constructor; cbn [mixer lanes closedLanes].
  - exists []. split; [|constructor]. exact Hwf.
  - done.
  - constructor; constructor.
Qed.

Lemma handle_playback_inv webcodecs e p :
  playback_inv p -> playback_ok e p ->
  exists p', handle_playback webcodecs e p = Ok p' /\ playback_inv p'.
Proof.
  intros Hi Hok. destruct e as [o|slug|slug now buf|slug src|i src|slug]; cbn [handle_playback];
    try (eexists; split; [reflexivity|]).
  - destruct Hok as [Hc Hok]. destruct (pi_wf _ Hi) as (dead & Hwf & _).
    destruct (run_op_ok (mixer p) o ltac:(by eexists) Hok) as (g & Hr & _). rewrite Hr. cbn.
    eexists. split; [done|]. by eapply inv_graph_call.
  - by apply inv_openLane.
  - by apply inv_onDecoded.
  - by apply inv_onEnded.
  - by apply inv_onEndedClosed.
  - by apply inv_dropTrack.
Qed.

Lemma playback_reachable_inv webcodecs captured video p :
  playback_reachable webcodecs captured video p -> playback_inv p.
Proof.
  induction 1 as [captured' g Hb|p e p' _ IH Hok Hh]; [by eapply playback_mount_inv|].
  destruct (handle_playback_inv webcodecs e p IH Hok) as (p1 & H1 & Hp1). rewrite Hh in H1. by injection H1 as ->.
Qed.

(** *** What is connected *)

(** A buffer source is connected by nobody but the schedulers. *)
Lemma buffer_edge_external g ext n d :
  graph_wf g ext -> nodes (ctx g) !! n = Some BufferSource -> (n, d) ∈ edges (ctx g) -> (n, d) ∈ ext.
Proof.
  intros Hwf Hn. rewrite (wf_edges _ _ Hwf), !elem_of_app. intros [He|[He|He]]; [| |done].
  - exfalso. destruct (wf_broadcast _ _ Hwf) as [b Hb]. destruct Hwf. unfold fixed_edges in He.
    repeat (apply elem_of_cons in He as [[= -> ->]|He]; [congruence|]). by apply not_elem_of_nil in He.
  - exfalso. apply elem_of_track_edges in He as (s & t & Ht & He).
    pose proof (wf_entry _ _ Hwf s t Ht). destruct (wf_userGain _ _ Hwf s t Ht) as [v Hv].
    unfold edges_of in He.
    repeat (apply elem_of_cons in He as [[= -> ->]|He]; [congruence|]). by apply not_elem_of_nil in He.
Qed.

Lemma connected_is_live p n d :
  playback_inv p -> n ∈ sources_of (all_lanes p) -> (n, d) ∈ edges (ctx (mixer p)) ->
  exists slug lane, lanes p !! slug = Some lane /\ n ∈ liveSources lane
    /\ entryNodeFor (mixer p) slug = Some d.
Proof.
  intros Hi Hn He. destruct (pi_wf _ Hi) as (dead & Hwf & Hd).
  pose proof (li_nodes _ _ (pi_lanes _ Hi)) as Hns. rewrite Forall_forall in Hns. rewrite Forall_forall in Hd.
  pose proof (buffer_edge_external _ _ _ _ Hwf (Hns _ Hn) He) as [Hx|Hx]%elem_of_app.
  - apply elem_of_live_edges in Hx as (slug & lane & Hl & Hlive & ->).
    exists slug, lane. split; [done|]. split; [done|]. exact (pi_entry _ Hi slug lane Hl).
  - by destruct (Hd _ Hx).
Qed.

Lemma closeLane_sources p slug :
  sources_of (all_lanes (closeLane slug p)) ≡ₚ sources_of (all_lanes p).
Proof.
  unfold closeLane. destruct (lanes p !! slug) as [lane|] eqn:Hl; [|done].
  rewrite (all_lanes_split p slug lane Hl). unfold all_lanes. cbn [Scheduler.close lanes closedLanes].
  rewrite app_assoc, Permutation_app_comm. cbn [app]. by rewrite !sources_cons.
Qed.

Lemma closeLanes_inv p (l : list jstr) :
  playback_inv p ->
  let p' := foldl (fun p slug => closeLane slug p) p l in
  playback_inv p' /\ sources_of (all_lanes p') ≡ₚ sources_of (all_lanes p)
  /\ forall s lane, lanes p' !! s = Some lane -> lanes p !! s = Some lane /\ s ∉ l.
Proof.
  revert p. induction l as [|k l IH]; intros p Hi; cbn [foldl].
  - split; [done|]. split; [done|]. intros s lane Hs. split; [done|]. apply not_elem_of_nil.
  - destruct (IH (closeLane k p) (inv_closeLane Hi k)) as (H1 & H2 & H3).
    split; [done|]. split; [by rewrite H2, closeLane_sources|].
    intros s lane Hs. destruct (H3 s lane Hs) as [Hl Hn]. rewrite closeLane_lanes in Hl.
    apply lookup_delete_Some in Hl as [Hne Hl]. split; [done|]. rewrite not_elem_of_cons. auto.
Qed.

(** *** What is heard *)

Section Heard.
Context (wave : AudioBuffer -> Qc -> Qc).
Local Open Scope Qc_scope.

Lemma plays_start p s t :
  NoDup (sources_of (all_lanes p)) -> s ∈ starts_of (all_lanes p) ->
  plays wave p (st_source s) t = start_sound wave s t.
Proof.
  intros Hnd Hs. unfold plays. destruct (list_find _ _) as [[i s']|] eqn:E.
  - apply list_find_Some in E as (Hi & Heq & _). apply list_elem_of_lookup in Hs as [j Hj].
    assert (i = j) as ->; [|congruence].
    apply (NoDup_lookup _ i j (st_source s) Hnd); unfold sources_of; rewrite list_lookup_fmap.
    + rewrite Hi. cbn. by rewrite Heq.
    + by rewrite Hj.
  - apply list_find_None in E. rewrite Forall_forall in E. by destruct (E s Hs).
Qed.

Lemma plays_unstarted p n t : n ∉ sources_of (all_lanes p) -> plays wave p n t = 0.
Proof.
  intros Hn. unfold plays. destruct (list_find _ _) as [[i s]|] eqn:E; [|done].
  apply list_find_Some in E as (Hi & <- & _). destruct Hn. apply list_elem_of_fmap.
  exists s. split; [done|]. by eapply list_elem_of_lookup_2.
Qed.

(** The live sources of a lane are those of its starts that are live. *)
Lemma live_started c lane :
  lane_inv (lane, c) ->
  liveSources lane ≡ₚ st_source <$> filter (fun s => st_source s ∈ liveSources lane) (started lane).
Proof.
  intros Hi. destruct (inv_live _ Hi) as [Hnd Hsub]. pose proof (inv_distinct _ Hi) as Hd. cbn [fst] in *.
  apply NoDup_Permutation; [done| |].
  - eapply sublist_NoDup; [exact Hd|]. apply fmap_sublist, sublist_filter.
  - intros n. rewrite list_elem_of_fmap. setoid_rewrite list_elem_of_filter. split.
    + intros Hn. destruct (proj1 (list_elem_of_fmap _ _ _) (Hsub n Hn)) as (s & -> & Hs). eauto.
    + by intros (s & -> & ? & _).
Qed.

Lemma lane_feed p lane t :
  playback_inv p -> lane ∈ all_lanes p ->
  mix (plays wave p) (lane_edges lane) (Scheduler.destination lane) t = lane_sound wave lane t.
Proof.
  intros Hi Hl. pose proof (li_distinct _ _ (pi_lanes _ Hi)) as Hnd.
  pose proof (li_simulated _ _ (pi_lanes _ Hi)) as Hs. rewrite Forall_forall in Hs.
  pose proof (live_started _ lane (simulated_inv _ _ (Hs _ Hl))) as Hp.
  unfold lane_edges, lane_sound. rewrite (mix_perm _ _ _ _ _ (fmap_Permutation _ _ _ Hp)).
  assert (Hall : Forall (fun s => plays wave p (st_source s) t = start_sound wave s t) (started lane)).
  { apply Forall_forall. intros s Hin. apply plays_start; [done|]. apply list_elem_of_bind. by exists lane. }
  clear Hp. generalize (liveSources lane) as live. intros live. revert Hall.
  induction (started lane) as [|s l IH]; [done|]. intros [Hs' Hall]%Forall_cons. specialize (IH Hall).
  rewrite filter_cons. cbn [foldr]. case_decide as Hd; [|exact IH].
  cbn [fmap list_fmap mix foldr fst snd]. rewrite decide_True by done. rewrite Hs'. f_equal. exact IH.
Qed.

Lemma track_feed p slug tr t :
  playback_inv p -> tracks (mixer p) !! slug = Some tr ->
  feed (plays wave p) (mixer p) tr t = track_sound wave p slug t.
Proof.
  intros Hi Htr. destruct (pi_wf _ Hi) as (dead & Hwf & Hd).
  rewrite (feed_played _ _ _ slug tr t Hwf Htr), mix_app.
  assert (mix (plays wave p) dead (entry tr) t = 0) as ->.
  { rewrite (mix_ext _ (fun _ _ => 0)).
    - clear. induction dead as [|e l IH]; [done|]. cbn. fold (mix (fun _ _ => 0) l (entry tr) t). rewrite IH.
      by case_decide.
    - eapply Forall_impl; [exact Hd|]. intros e He _. by apply plays_unstarted. }
  assert (Hother : forall m, (forall s l, m !! s = Some l -> s <> slug /\ lanes p !! s = Some l) ->
            mix (plays wave p) (live_edges m) (entry tr) t = 0).
  { intros m Hm. apply mix_none, Forall_forall. intros [n d] (s & l & [Hs Hl]%Hm & _ & ->)%elem_of_live_edges.
    cbn. destruct (inv_lane Hi s l Hl) as (_ & _ & t' & Ht' & ->). intros Heq. apply Hs.
    by apply (wf_userGain_inj Hwf s t' slug tr Ht' Htr); right. }
  unfold track_sound. destruct (lanes p !! slug) as [lane|] eqn:Hl.
  - destruct (inv_lane Hi slug lane Hl) as (_ & _ & t' & Ht' & Hdest).
    rewrite Htr in Ht'. injection Ht' as <-.
    rewrite (mix_perm _ _ _ _ _ (live_edges_split _ _ _ Hl)), mix_app, Hother, <- Hdest.
    + rewrite lane_feed; [ring|done|]. apply elem_of_app. left. apply elem_of_lanes. by exists slug.
    + intros s l [? ?]%lookup_delete_Some. split; [congruence|done].
  - rewrite Hother; [ring|]. intros s l Hs. split; [congruence|done].
Qed.

Lemma over_tracks_slugs (g : MixerGraph) (f : TrackNodes -> Qc) (f' : jstr -> TrackNodes -> Qc) :
  (forall slug tr, tracks g !! slug = Some tr -> f tr = f' slug tr) ->
  over_tracks (g := g) f = sum_tracks g f'.
Proof.
  intros Hf. unfold over_tracks, sum_tracks.
  assert (Hall : Forall (fun x => f x.2 = f' x.1 x.2) (map_to_list (tracks g))).
  { apply Forall_forall. intros [slug tr] Hin%elem_of_map_to_list. by apply Hf. }
  induction Hall as [|x l Hx _ IH]; [done|]. cbn. by rewrite Hx, IH.
Qed.

(** The sound of a state with the invariant. *)
Lemma playback_sound p element out t :
  playback_inv p -> web_audio element (plays wave p) (ctx (mixer p)) out ->
  out destination t
  = match broadcast_gain (mixer p) with Some b => val b | None => 0 end * element t
    + sum_tracks (mixer p) (fun slug tr =>
        gain_value (mixer p) tr * track_sound wave p slug t
        - track_sound wave p slug (t - delay_of (mixer p))).
Proof.
  intros Hi Hout. destruct (pi_wf _ Hi) as (dead & Hwf & _).
  destruct (wf_broadcast _ _ Hwf) as [b Hb].
  assert (Hbg : broadcast_gain (mixer p) = Some b) by (unfold broadcast_gain; by rewrite Hb).
  rewrite (out_destination _ _ element _ out b t Hwf Hout Hbg), Hbg. f_equal.
  apply over_tracks_slugs. intros slug tr Htr. by rewrite !(track_feed p slug tr _ Hi Htr).
Qed.
End Heard.
End Lemmas.

(** ** The interface to the controller *)

(** Only the decoders and the audio engine. *)
Definition audio_event {A} (e : playback_event A) : bool :=
  match e with
  | PDecoded _ _ _ | PEnded _ _ | PEndedClosed _ _ => true
  | PGraph _ | PLane _ | PDrop _ => false
  end.

Section Interface.
Context {AudioBuffer : Type}.
Implicit Types (p : Playback AudioBuffer).

Definition slot_of p (s : jstr) : Slot :=
  mkSlot (entryNodeFor (mixer p) s) (bool_decide (is_Some (lanes p !! s))).

(** The controls are in the nodes, which no connection touches. *)
Lemma desk_nodes g c : nodes c = nodes (ctx g) -> desk_of (with_ctx c g) = desk_of g.
Proof.
  intros Hn. unfold desk_of. f_equal.
  - unfold user_gains, user_gain. cbn [with_ctx ctx tracks]. by rewrite Hn.
  - unfold broadcast_gain. cbn [with_ctx ctx broadcastGain]. by rewrite Hn.
Qed.

Lemma desk_play g slug t :
  (exists ext, graph_wf g ext) -> tracks g !! slug = Some t -> desk_of (play_into (entry t) g).2 = desk_of g.
Proof.
  intros Hwf Ht. destruct (run_op_ok g (OPlay slug) Hwf I) as (g' & Hr & _ & Hd).
  cbn [run_op spec_op] in *. unfold entryNodeFor in Hr. rewrite Ht in Hr. by injection Hr as <-.
Qed.

(** What an event of the decoders and the engine leaves alone. *)
Definition same_controls p p' : Prop :=
  desk_of (mixer p') = desk_of (mixer p) /\ forall s, slot_of p' s = slot_of p s.

Lemma put_controls p slug lane c :
  is_Some (lanes p !! slug) -> desk_of (with_ctx c (mixer p)) = desk_of (mixer p) ->
  same_controls p (put_lane slug (lane, c) p).
Proof.
  intros Hl Hd. split; [exact Hd|]. intros s. unfold slot_of, put_lane. cbn [mixer lanes].
  f_equal. apply bool_decide_ext. rewrite lookup_insert. case_decide as Hs; [|done]. subst s.
  split; [done|]. by eexists.
Qed.

Lemma close_controls p slug :
  desk_of (mixer (closeLane slug p)) = desk_of (mixer p)
  /\ forall s, slot_of (closeLane slug p) s
              = if decide (s = slug) then mkSlot (slot_entry (slot_of p s)) false else slot_of p s.
Proof.
  assert (Hm : desk_of (mixer (closeLane slug p)) = desk_of (mixer p)
               /\ tracks (mixer (closeLane slug p)) = tracks (mixer p)).
  { unfold closeLane. destruct (lanes p !! slug); [|done]. cbn. split; [|done].
    apply desk_nodes, disconnect_all_nodes. }
  split; [apply Hm|]. intros s. unfold slot_of, entryNodeFor. rewrite closeLane_lanes, (proj2 Hm), lookup_delete.
  repeat case_decide; by subst.
Qed.

Lemma audio_controls p e p' :
  playback_inv p -> audio_event e = true -> playback_ok e p -> handle_playback true e p = Ok p' ->
  same_controls p p'.
Proof.
  intros Hi Ha Hok Hh.
  destruct e as [o|slug|slug now buf|slug src|i src|slug]; try done; cbn [handle_playback] in Hh; injection Hh as <-.
  - unfold onDecoded. destruct (lanes p !! slug) as [lane|] eqn:Hl; [|done].
    destruct (inv_lane Hi slug lane Hl) as (_ & _ & t & Ht & Hdest).
    pose proof (enqueue_play now buf lane (mixer p)) as Hp.
    destruct (enqueue now buf (lane, ctx (mixer p))) as [[lane' c'] e]. destruct Hp as (Hg & _ & _).
    apply put_controls; [by rewrite Hl|]. rewrite Hg, Hdest.
    destruct (pi_wf _ Hi) as (dead & Hwf & _). by eapply desk_play; eauto.
  - unfold onEnded. destruct (lanes p !! slug) as [lane|] eqn:Hl; [|done].
    apply put_controls; [by rewrite Hl|]. by apply desk_nodes.
  - unfold onEndedClosed. destruct (closedLanes p !! i) as [lane|]; [|done]. cbn [ended].
    split; [by apply desk_nodes|done].
Qed.

(** A call on the controls, with what it does to the desk. *)
Lemma control_call p o :
  playback_inv p -> graph_call o = true -> op_ok (mixer p) o ->
  exists g, run_op (mixer p) o = Ok g /\ playback_inv (with_mixer g p)
    /\ desk_of g = spec_op (desk_of (mixer p)) o.
Proof.
  intros Hi Hc Hok. destruct (pi_wf _ Hi) as (dead & Hwf & _).
  destruct (run_op_ok (mixer p) o ltac:(by eexists) Hok) as (g & Hr & _ & Hd).
  exists g. split; [done|]. split; [by eapply inv_graph_call|done].
Qed.

Lemma with_mixer_slots p g s : tracks g = tracks (mixer p) -> slot_of (with_mixer g p) s = slot_of p s.
Proof. intros Ht. unfold slot_of, entryNodeFor. cbn. by rewrite Ht. Qed.

#[export] Program Instance playback_mixer : Mixer (Playback AudioBuffer) := {
  mx_ok := playback_inv;
  mx_desk p := desk_of (mixer p);
  mx_slot := slot_of;
  mx_add p slug := '(n, g) ← addTrack (mixer p) slug; Ok (n, with_mixer g p);
  mx_remove p slug := with_mixer (removeTrack (mixer p) slug) p;
  mx_set p slug v := g ← setTrackGain (mixer p) slug v; Ok (with_mixer g p);
  mx_broadcast p v := g ← setBroadcastGain (mixer p) v; Ok (with_mixer g p);
  mx_offset p ms := g ← setOffsetMs (mixer p) ms; Ok (with_mixer g p);
  mx_lane p slug entry := attach slug entry p;
  mx_close p slug := closeLane slug p;
  mx_audio p p' := exists e, audio_event e = true /\ playback_ok e p /\ handle_playback true e p = Ok p';
}.
Next Obligation.
  intros p slug Hi. destruct (pi_wf _ Hi) as (dead & Hwf & _). cbn.
  rewrite (user_gains_lookup _ _ slug Hwf). unfold entryNodeFor. by rewrite fmap_is_Some.
Qed.
Next Obligation.
  intros p slug Hi Ho%bool_decide_eq_true. destruct Ho as [lane Hl]. cbn. rewrite (pi_entry _ Hi slug lane Hl).
  by eexists.
Qed.
Next Obligation.
  intros p slug Hi. destruct (control_call p (OAdd slug) Hi eq_refl I) as (g & Hr & Hi' & Hd).
  cbn [run_op] in Hr. destruct (addTrack (mixer p) slug) as [[n g']|] eqn:Ha; [|done]. cbn in Hr. injection Hr as <-.
  exists n, (with_mixer g' p). do 3 (split; [done|]). intros s. unfold slot_of at 1. cbn.
  rewrite (addTrack_entry _ _ _ _ s Ha). by case_decide.
Qed.
Next Obligation.
  intros p slug Hi Ho%bool_decide_eq_false. rewrite <- eq_None_not_Some in Ho.
  destruct (pi_wf _ Hi) as (dead & Hwf & _). destruct (run_op_ok (mixer p) (ORemove slug) ltac:(by eexists) I) as (g & Hr & _ & Hd).
  injection Hr as <-. split; [by apply inv_removeTrack|]. split; [exact Hd|].
  intros s. unfold slot_of. cbn. case_decide as Hs; [|by rewrite removeTrack_entry]. subst s.
  rewrite Ho. f_equal. unfold removeTrack, entryNodeFor.
  destruct (tracks (mixer p) !! slug) eqn:Ht; cbn; by rewrite ?lookup_delete_eq, ?Ht.
Qed.
Next Obligation.
  intros p slug v Hi Hv. destruct (control_call p (OGain slug v) Hi eq_refl Hv) as (g & Hr & Hi' & Hd).
  cbn [run_op] in Hr. exists (with_mixer g p). rewrite Hr. do 3 (split; [done|]). intros s.
  apply with_mixer_slots, setters_tracks. left; eauto.
Qed.
Next Obligation.
  intros p v Hi Hv. destruct (control_call p (OBroadcast v) Hi eq_refl Hv) as (g & Hr & Hi' & Hd).
  cbn [run_op] in Hr. exists (with_mixer g p). rewrite Hr. do 3 (split; [done|]). intros s.
  apply with_mixer_slots, setters_tracks. right; left; eauto.
Qed.
Next Obligation.
  intros p ms Hi Hv. destruct (control_call p (OOffset ms) Hi eq_refl Hv) as (g & Hr & Hi' & Hd).
  cbn [run_op] in Hr. exists (with_mixer g p). rewrite Hr. do 3 (split; [done|]). intros s.
  apply with_mixer_slots, setters_tracks. right; right; eauto.
Qed.
Next Obligation.
  intros p slug n Hi [= He Hl%bool_decide_eq_false]. rewrite <- eq_None_not_Some in Hl.
  split; [by apply inv_attach|]. split; [done|]. intros s. unfold slot_of, attach. cbn.
  rewrite lookup_insert. case_decide as Hs; [|by rewrite decide_False by congruence]. subst s.
  rewrite decide_True by done. by rewrite He.
Qed.
Next Obligation.
  intros p slug Hi. split; [by apply inv_closeLane|]. apply close_controls.
Qed.
Next Obligation.
  intros p p' Hi (e & Ha & Hok & Hh). destruct (handle_playback_inv true e p Hi Hok) as (p1 & H1 & Hi1).
  rewrite Hh in H1. injection H1 as <-. split; [done|]. by apply (audio_controls p e p').
Qed.
End Interface.

(** The extension's mixer: buffers are the channels of samples the decoder puts
    out ([OpusLane.output]).  A graph just built has no lanes. *)
Abbreviation Deck := (Playback (list (list num))).
Definition new_deck (g : MixerGraph) : Deck := mkPlayback g ∅ [].

Lemma new_deck_ok captured captured' video g :
  buildGraph captured video = Ok (captured', g) -> mx_ok (new_deck g) /\ mx_gains (new_deck g) = ∅.
Proof.
  intros Hb. split; [by eapply playback_mount_inv|].
  destruct (decide (video ∈ captured)) as [Hin|Hin]; [by rewrite (buildGraph_captured _ _ Hin) in Hb|].
  destruct (buildGraph_fresh captured video Hin) as (g0 & Hb0 & _ & Ht & _). rewrite Hb0 in Hb.
  injection Hb as _ <-. unfold mx_gains. cbn. unfold user_gains. by rewrite Ht.
Qed.

(** ** Properties *)

Section Properties.
Context {AudioBuffer : Type}.
Implicit Types (p : Playback AudioBuffer).

(** What the viewer hears.  In every reachable state of the page the sound
    at the speakers is the broadcast at its gain, plus for every track its
    lane's started buffers, each from the time it was started at, at the track's
    gain, minus the same buffers later by the shared offset.  Buffers that have
    ended, or whose lane was closed, are not in the sum.  (The laws of the nodes
    are the hypothesis; [wave] is the sound of a decoded buffer.) *)
Theorem page_sound (webcodecs : bool) (captured : gset Z) (video : Z) p
    (wave : AudioBuffer -> Qc -> Qc) (element : Qc -> Qc) (out : nat -> Qc -> Qc) (t : Qc) :
  playback_reachable webcodecs captured video p ->
  web_audio element (plays wave p) (ctx (mixer p)) out ->
  out destination t
  = (match broadcast_gain (mixer p) with Some b => val b | None => 0 end * element t
     + sum_tracks (mixer p) (fun slug tr =>
         gain_value (mixer p) tr * track_sound wave p slug t
         - track_sound wave p slug (t - delay_of (mixer p))))%Qc.
Proof.
  intros Hi%playback_reachable_inv Hout. by apply playback_sound.
Qed.

(** C16: the lanes do not disturb each other.  Every event the page can see
    returns, and in every reachable state each lane, open or closed, is in a
    state its own scheduler reaches alone, so the starts of a lane are a frame
    apart; no source belongs to two lanes, and an open lane plays into the entry
    node of its own track. *)
Theorem lanes_are_schedulers (webcodecs : bool) (captured : gset Z) (video : Z) p :
  playback_reachable webcodecs captured video p ->
  (forall e, playback_ok e p -> exists p', handle_playback webcodecs e p = Ok p')
  /\ (forall lane, lane ∈ all_lanes p ->
        (exists dest c0, rtc Scheduler.step (createScheduler dest, c0) (lane, ctx (mixer p)))
        /\ spaced (started lane))
  /\ NoDup (sources_of (all_lanes p))
  /\ forall slug lane, lanes p !! slug = Some lane ->
       entryNodeFor (mixer p) slug = Some (Scheduler.destination lane).
Proof.
  intros Hi%playback_reachable_inv. split.
  - intros e Hok. destruct (handle_playback_inv webcodecs e p Hi Hok) as (p' & H & _). by exists p'.
  - destruct Hi as [_ He [Hd _ Hs]]. split; [|done]. intros lane Hl. rewrite Forall_forall in Hs.
    split; [exact (Hs lane Hl)|]. exact (inv_spaced _ (simulated_inv _ _ (Hs lane Hl))).
Qed.

(** C15: what stops is silent.  A started source that is connected is a live one
    of an open lane, connected to its track's entry.  After a track is dropped
    none of its lane's sources is connected to anything; after [destroy] no
    source of any lane is. *)
Theorem stopped_is_silent (webcodecs : bool) (captured : gset Z) (video : Z) p :
  playback_reachable webcodecs captured video p ->
  (forall n d, n ∈ sources_of (all_lanes p) -> (n, d) ∈ edges (ctx (mixer p)) ->
     exists slug lane, lanes p !! slug = Some lane /\ n ∈ liveSources lane
                       /\ entryNodeFor (mixer p) slug = Some d)
  /\ (forall slug lane n d, lanes p !! slug = Some lane -> n ∈ st_source <$> started lane ->
        ~ ((n, d) ∈ edges (ctx (mixer (dropTrack slug p)))))
  /\ forall n d, n ∈ sources_of (all_lanes p) ->
       ~ ((n, d) ∈ edges (ctx (mixer (destroyPlayback p)))).
Proof.
  intros Hi%playback_reachable_inv. split; [intros n d; by apply connected_is_live|]. split.
  - intros slug lane n d Hl Hn He. pose proof (inv_dropTrack p slug Hi) as Hi'.
    apply (connected_is_live _ n d Hi') in He as (s & l & Hs & Hlive & _).
    + unfold dropTrack in Hs. cbn [with_mixer lanes] in Hs. rewrite closeLane_lanes in Hs.
      by apply (inv_other_source Hi slug lane n Hl Hn), (inv_rest Hi slug s l).
    + unfold dropTrack, all_lanes. cbn [with_mixer lanes closedLanes]. fold (all_lanes (closeLane slug p)).
      rewrite closeLane_sources. by apply (inv_source_split slug lane n Hl); left.
  - intros n d Hn. unfold destroyPlayback. cbn [with_mixer mixer Graph.destroy with_ctx ctx close_ctx edges disconnect].
    rewrite list_elem_of_filter. intros [_ He].
    destruct (closeLanes_inv p (map_to_list (lanes p)).*1 Hi) as (Hi' & Hs & Hl).
    apply (connected_is_live _ n d Hi') in He as (s & l & [Hs' Hn']%Hl & _); [|by rewrite Hs].
    apply Hn', list_elem_of_fmap. exists (s, l). split; [done|]. by apply elem_of_map_to_list.
Qed.
End Properties.

(** ** A concrete page for the witnesses *)

Fixpoint run_playback (es : list (playback_event nat)) (p : Playback nat) : result (Playback nat) :=
  match es with
  | [] => Ok p
  | e :: es => p' ← handle_playback true e p; run_playback es p'
  end.

Lemma run_playback_reachable captured video es p p' :
  playback_reachable true captured video p ->
  Forall (fun e => forall p, playback_ok e p) es -> run_playback es p = Ok p' ->
  playback_reachable true captured video p'.
Proof.
  intros Hp Hes. revert p Hp. induction Hes as [|e es He _ IH]; intros p Hp Hr; cbn in Hr.
  - by injection Hr as <-.
  - apply bind_Ok_inv in Hr as (p1 & H1 & H2). eapply IH; [|done]. by eapply playback_step.
Qed.

(** Two tracks; the first is muted and has two buffers started, the second one;
    the offset is two seconds. *)
Definition demo_events : list (playback_event nat) :=
  [PGraph (OBroadcast (of_dec false 2 (-1))); PGraph (OAdd (js "mic")); PLane (js "mic");
   PGraph (OAdd (js "game")); PLane (js "game"); PDecoded (js "mic") (of_Z 1) 1%nat;
   PDecoded (js "mic") (of_Z 1) 2%nat; PDecoded (js "game") (of_Z 1) 3%nat;
   PGraph (OGain (js "mic") (Some num0)); PGraph (OOffset (of_Z 2000))].

Definition demo_playing : Playback nat :=
  match run_playback demo_events (mkPlayback first_graph ∅ []) with
  | Ok p => p
  | Throw _ => mkPlayback first_graph ∅ []
  end.

(** The first buffer ends. *)
Definition demo_playback : Playback nat := onEnded (js "mic") 11%nat demo_playing.

Lemma demo_playback_reachable : playback_reachable true ∅ 7 demo_playback.
Proof.
  apply (playback_step true ∅ 7 demo_playing (PEnded (js "mic") 11%nat)); [| |reflexivity].
  - apply (run_playback_reachable ∅ 7 demo_events (mkPlayback first_graph ∅ [])).
    + apply (playback_mount true ∅ 7 {[7]}). by vm_compute.
    + repeat constructor. by intros x [= <-].
    + by vm_compute.
  - assert (H : (match lanes demo_playing !! js "mic" with
                 | Some lane => bool_decide (11%nat ∈ st_source <$> started lane)
                 | None => false end) = true) by by vm_compute.
    cbn [playback_ok]. destruct (lanes demo_playing !! js "mic") as [lane|]; [|done].
    exists lane. split; [done|]. exact (bool_decide_eq_true_1 _ H).
Qed.

Lemma playback_laws {A : Type} (p : Playback A) element buffers :
  playback_inv p ->
  web_audio element buffers (ctx (mixer p)) (render 8 element buffers (ctx (mixer p))).
Proof.
  intros Hi. destruct (pi_wf _ Hi) as (dead & Hwf & _).
  apply (render_laws (graph_rank (mixer p))); [by eapply graph_ranked|].
  intros n _. apply graph_rank_bound.
Qed.

Definition demo_wave (buf : nat) (t : Qc) : Qc := (qc (Z.of_nat buf) * t)%Qc.

Lemma page_sound_witness :
  let first := jadd (of_Z 1) FRAME_DURATION in
  let second := jadd first FRAME_DURATION in
  render 8 (fun t => t) (plays demo_wave demo_playback) (ctx (mixer demo_playback)) destination (qc 5)
  = (val (fround (of_dec false 2 (-1))) * qc 5
     + (val half * demo_wave 3 (qc 5 - val first) - demo_wave 3 (qc 3 - val first))
     - demo_wave 2 (qc 3 - val second))%Qc.
Proof.
  cbv zeta. rewrite (page_sound true ∅ 7 demo_playback demo_wave (fun t => t)).
  - by apply Qc_is_canon; vm_compute.
  - apply demo_playback_reachable.
  - apply playback_laws, (playback_reachable_inv true ∅ 7), demo_playback_reachable.
Defined.

Lemma lanes_are_schedulers_witness :
  length (all_lanes demo_playback) = 2%nat
  /\ (exists p', handle_playback true (PDrop (js "mic")) demo_playback = Ok p')
  /\ entryNodeFor (mixer demo_playback) (js "game") = Some 9%nat.
Proof.
  destruct (lanes_are_schedulers true ∅ 7 demo_playback demo_playback_reachable) as (He & _ & _ & Hd).
  split; [by vm_compute|]. split; [by apply He|].
  assert (H : Scheduler.destination <$> lanes demo_playback !! js "game" = Some 9%nat) by by vm_compute.
  apply fmap_Some in H as (lane & Hl & ->). exact (Hd _ _ Hl).
Defined.

Lemma stopped_is_silent_witness :
  (12%nat, 7%nat) ∈ edges (ctx (mixer demo_playback))
  /\ ~ ((12%nat, 7%nat) ∈ edges (ctx (mixer (dropTrack (js "mic") demo_playback))))
  /\ ~ ((13%nat, 9%nat) ∈ edges (ctx (mixer (destroyPlayback demo_playback)))).
Proof.
  destruct (stopped_is_silent true ∅ 7 demo_playback demo_playback_reachable) as (_ & Hd & Hx).
  split; [by apply (bool_decide_unpack _); vm_compute|]. split.
  - assert (H : (match lanes demo_playback !! js "mic" with
                 | Some lane => bool_decide (12%nat ∈ st_source <$> started lane)
                 | None => false end) = true) by by vm_compute.
    destruct (lanes demo_playback !! js "mic") as [lane|] eqn:Hl; [|discriminate].
    apply (Hd (js "mic") lane 12%nat 7%nat Hl). exact (bool_decide_eq_true_1 _ H).
  - apply Hx. by apply (bool_decide_unpack _); vm_compute.
Defined.
