(* ===== verification/Content.v ===== *)
(** * The content script's controller

    Models the closures of [mount] in extension/src/content/index.ts: the state
    they share and one function per handler.  The graph and the schedulers are
    used through the interface [Mixer] (Mixer.v); the handlers are proved for
    every instance.
    Handlers of the relay client and of the panel are the events. *)
From Stdlib Require Import SpecFloat.
From stdpp Require Import relations.
From S2P Require Import Prelude Wire JsString JsNumber JsOrder Categories Messages JsObject Prefs.
From S2P Require Import WebAudio Graph OpusLane Mixer Playback.

(** ** State *)

(** A lane: its decoder, and its scheduler: the entry node it plays into and
    whether it was closed.  Its inside is the mixer's, where its nodes live. *)
Record AudioLane := mkAudioLane {
  decoder : OpusDecoderLane;
  sched_dest : nat;
  sched_closed : bool;
}.

(** [lane.decoder.close(); lane.scheduler.close()] *)
Definition close_lane (l : AudioLane) : AudioLane :=
  mkAudioLane (OpusLane.close (decoder l)) (sched_dest l) true.

(** The properties of the Svelte panel. *)
Record Panel := mkPanel {
  p_tracks : list TrackInfo;
  p_gains : gmap jstr (option num);
  p_muted : gmap jstr (option bool);
  p_broadcastGain : num;
  p_offsetMs : num;
}.

(** The variables of [mount]'s closure.  An own property of [gains] or [muted]
    may hold [undefined] ([None]).  [closedLanes] are the lanes that were
    created and closed, [saved] the requests made to the preference store. *)
Record Content (G : Type) := mkContent {
  graph : G;
  settings : gmap jstr ChannelSetting;
  audioLanes : gmap jstr AudioLane;
  closedLanes : list AudioLane;
  tracks : list TrackInfo;
  gains : gmap jstr (option num);
  muted : gmap jstr (option bool);
  broadcastGain : num;
  offsetMs : num;
  idToSlug : gmap Z jstr;
  panel : Panel;
  saved : list (jstr * Prefs);
}.
Arguments mkContent {G}.
Arguments graph {G}. Arguments settings {G}. Arguments audioLanes {G}. Arguments closedLanes {G}.
Arguments tracks {G}. Arguments gains {G}. Arguments muted {G}. Arguments broadcastGain {G}.
Arguments offsetMs {G}. Arguments idToSlug {G}. Arguments panel {G}. Arguments saved {G}.

Section Updates.
Context {G : Type}.
Implicit Types c : Content G.

Definition with_graph (g : G) c : Content G :=
  mkContent g (settings c) (audioLanes c) (closedLanes c) (tracks c) (gains c) (muted c)
    (broadcastGain c) (offsetMs c) (idToSlug c) (panel c) (saved c).
Definition with_settings (s : gmap jstr ChannelSetting) c : Content G :=
  mkContent (graph c) s (audioLanes c) (closedLanes c) (tracks c) (gains c) (muted c)
    (broadcastGain c) (offsetMs c) (idToSlug c) (panel c) (saved c).
Definition with_lanes (l : gmap jstr AudioLane) (closed : list AudioLane) c : Content G :=
  mkContent (graph c) (settings c) l closed (tracks c) (gains c) (muted c)
    (broadcastGain c) (offsetMs c) (idToSlug c) (panel c) (saved c).
Definition with_tracks (ts : list TrackInfo) c : Content G :=
  mkContent (graph c) (settings c) (audioLanes c) (closedLanes c) ts (gains c) (muted c)
    (broadcastGain c) (offsetMs c) (idToSlug c) (panel c) (saved c).
Definition with_mix (gs : gmap jstr (option num)) (ms : gmap jstr (option bool)) c : Content G :=
  mkContent (graph c) (settings c) (audioLanes c) (closedLanes c) (tracks c) gs ms
    (broadcastGain c) (offsetMs c) (idToSlug c) (panel c) (saved c).
Definition with_broadcast (v : num) c : Content G :=
  mkContent (graph c) (settings c) (audioLanes c) (closedLanes c) (tracks c) (gains c) (muted c)
    v (offsetMs c) (idToSlug c) (panel c) (saved c).
Definition with_offset (ms : num) c : Content G :=
  mkContent (graph c) (settings c) (audioLanes c) (closedLanes c) (tracks c) (gains c) (muted c)
    (broadcastGain c) ms (idToSlug c) (panel c) (saved c).
Definition with_ids (ids : gmap Z jstr) c : Content G :=
  mkContent (graph c) (settings c) (audioLanes c) (closedLanes c) (tracks c) (gains c) (muted c)
    (broadcastGain c) (offsetMs c) ids (panel c) (saved c).
Definition with_panel (p : Panel) c : Content G :=
  mkContent (graph c) (settings c) (audioLanes c) (closedLanes c) (tracks c) (gains c) (muted c)
    (broadcastGain c) (offsetMs c) (idToSlug c) p (saved c).
Definition with_saved (l : list (jstr * Prefs)) c : Content G :=
  mkContent (graph c) (settings c) (audioLanes c) (closedLanes c) (tracks c) (gains c) (muted c)
    (broadcastGain c) (offsetMs c) (idToSlug c) (panel c) l.

(** [mixer.$set({ ... })], by the properties that are set. *)
Definition set_gains c : Content G :=
  let p := panel c in
  with_panel (mkPanel (p_tracks p) (gains c) (p_muted p) (p_broadcastGain p) (p_offsetMs p)) c.
Definition set_muted c : Content G :=
  let p := panel c in
  with_panel (mkPanel (p_tracks p) (p_gains p) (muted c) (p_broadcastGain p) (p_offsetMs p)) c.
Definition set_tracks c : Content G :=
  let p := panel c in
  with_panel (mkPanel (tracks c) (p_gains p) (p_muted p) (p_broadcastGain p) (p_offsetMs p)) c.
Definition set_broadcast c : Content G :=
  let p := panel c in
  with_panel (mkPanel (p_tracks p) (p_gains p) (p_muted p) (broadcastGain c) (p_offsetMs p)) c.
Definition set_offset c : Content G :=
  let p := panel c in
  with_panel (mkPanel (p_tracks p) (p_gains p) (p_muted p) (p_broadcastGain p) (offsetMs c)) c.
End Updates.

(** ** Values read from the objects *)

(** [!!muted[slug]] *)
Definition truthy (p : property (option bool)) : bool :=
  match p with
  | Own (Some b) => b
  | Own None | Undefined => false
  | Builtin _ => true
  end.

(** [gains[slug] ?? 0.5]; a builtin is not a number ([None], which the graph
    clamps to 0). *)
Definition gain_or_half (p : property (option num)) : option num :=
  match p with
  | Own (Some v) => Some v
  | Own None | Undefined => Some half
  | Builtin _ => None
  end.

(** [eff.muted ? 0 : eff.gain] *)
Definition initial_gain (eff : ChannelSetting) : option num :=
  if default false (Prefs.muted eff) then Some num0 else Prefs.gain eff.

(** ** Handlers *)

Section Handlers.
Context {G : Type} `{Mixer G}.
(** Whether the browser has WebCodecs, the channel, and what the store held
    when the page was mounted. *)
Context (webcodecs : bool) (channelID : jstr) (globalPrefs streamerPrefs : Prefs).
Implicit Types c : Content G.

(** The state [mount] sets up on a fresh graph. *)
Definition mounted (g : G) : result (Content G) :=
  let broadcastGain := of_dec false 2 (-1) in
  let offsetMs := num0 in
  g ← mx_broadcast g broadcastGain;
  g ← mx_offset g offsetMs;
  Ok (mkContent g ∅ ∅ [] [] ∅ ∅ broadcastGain offsetMs ∅ (mkPanel [] ∅ ∅ broadcastGain offsetMs) []).

Definition onChange (slug : jstr) (v : num) c : result (Content G) :=
  let c := with_mix (<[slug := Some v]> (gains c)) (muted c) c in
  let c := match settings c !! slug with
           | Some s => with_settings (<[slug := mkSetting (Some v) (Prefs.muted s) (permanentlyOff s)]> (settings c)) c
           | None => c
           end in
  g ← mx_set (graph c) slug (if truthy (get_prop (muted c) slug) then Some num0 else Some v);
  Ok (set_gains (with_graph g c)).

Definition onMuteToggle (slug : jstr) c : result (Content G) :=
  let next := negb (truthy (get_prop (muted c) slug)) in
  let c := with_mix (gains c) (<[slug := Some next]> (muted c)) c in
  let c := match settings c !! slug with
           | Some s => with_settings (<[slug := mkSetting (Prefs.gain s) (Some next) (permanentlyOff s)]> (settings c)) c
           | None => c
           end in
  g ← mx_set (graph c) slug (if next then Some num0 else gain_or_half (get_prop (gains c) slug));
  Ok (set_muted (with_graph g c)).

(** The loop of [onSoloToggle]. *)
Fixpoint solo_loop (slug : jstr) (gs : gmap jstr (option num)) (ts : list TrackInfo)
    (nextMuted : gmap jstr (option bool)) (g : G) : result (gmap jstr (option bool) * G) :=
  match ts with
  | [] => Ok (nextMuted, g)
  | t :: ts =>
      let nextMuted := <[t_slug t := Some (negb (bool_decide (t_slug t = slug)))]> nextMuted in
      g ← mx_set g (t_slug t)
            (if truthy (get_prop nextMuted (t_slug t)) then Some num0
             else gain_or_half (get_prop gs (t_slug t)));
      solo_loop slug gs ts nextMuted g
  end.

Definition onSoloToggle (slug : jstr) c : result (Content G) :=
  '(nextMuted, g) ← solo_loop slug (gains c) (tracks c) ∅ (graph c);
  Ok (set_muted (with_mix (gains c) nextMuted (with_graph g c))).

Definition onBroadcastChange (v : num) c : result (Content G) :=
  let c := with_broadcast v c in
  g ← mx_broadcast (graph c) v;
  Ok (set_broadcast (with_graph g c)).

Definition onOffsetChange (ms : num) c : result (Content G) :=
  let c := with_offset ms c in
  g ← mx_offset (graph c) ms;
  Ok (set_offset (with_graph g c)).

(** The loop of [onReset]. *)
Fixpoint reset_loop (ts : list TrackInfo) (nextGains : gmap jstr (option num))
    (nextMuted : gmap jstr (option bool)) c :
    result (gmap jstr (option num) * gmap jstr (option bool) * Content G) :=
  match ts with
  | [] => Ok (nextGains, nextMuted, c)
  | t :: ts =>
      let eff := setting_of (effectiveSetting (t_slug t) (t_category t) ∅ globalPrefs) in
      let nextGains := <[t_slug t := Prefs.gain eff]> nextGains in
      let nextMuted := <[t_slug t := Prefs.muted eff]> nextMuted in
      let c := with_settings (<[t_slug t := eff]> (settings c)) c in
      g ← mx_set (graph c) (t_slug t) (initial_gain eff);
      reset_loop ts nextGains nextMuted (with_graph g c)
  end.

Definition onReset c : result (Content G) :=
  '(nextGains, nextMuted, c) ← reset_loop (tracks c) ∅ ∅ c;
  Ok (set_muted (set_gains (with_mix nextGains nextMuted c))).

Definition onSaveStreamer c : Content G :=
  with_saved (saved c ++ [(channelID, settings c)]) c.

(** [ensureLane]: [None] when the track is unknown or the decoder cannot be
    created. *)
Definition ensureLane (slug : jstr) c : option AudioLane * Content G :=
  match audioLanes c !! slug with
  | Some existing => (Some existing, c)
  | None =>
      match mx_entry (graph c) slug with
      | None => (None, c)
      | Some entry =>
          match createOpusDecoder webcodecs with
          | Throw _ => (None, c)
          | Ok d =>
              let c := with_graph (mx_lane (graph c) slug entry) c in
              let lane := mkAudioLane d entry false in
              (Some lane, with_lanes (<[slug := lane]> (audioLanes c)) (closedLanes c) c)
          end
      end
  end.

(** First loop of [applyTrackList]: tracks that are gone. *)
Fixpoint drop_tracks (incomingSlugs : list jstr) (ts : list TrackInfo)
    (nextGains : gmap jstr (option num)) (nextMuted : gmap jstr (option bool)) c :
    gmap jstr (option num) * gmap jstr (option bool) * Content G :=
  match ts with
  | [] => (nextGains, nextMuted, c)
  | t :: ts =>
      let slug := t_slug t in
      if includes incomingSlugs slug then drop_tracks incomingSlugs ts nextGains nextMuted c
      else
        let closed := match audioLanes c !! slug with
                      | Some lane => closedLanes c ++ [close_lane lane]
                      | None => closedLanes c
                      end in
        let g := match audioLanes c !! slug with
                 | Some _ => mx_close (graph c) slug
                 | None => graph c
                 end in
        let c := with_lanes (delete slug (audioLanes c)) closed c in
        let c := with_graph (mx_remove g slug) c in
        let c := with_settings (delete slug (settings c)) c in
        drop_tracks incomingSlugs ts (delete slug nextGains) (delete slug nextMuted) c
  end.

(** A new track with its setting: graph, gain and lane. *)
Definition add_track (t : TrackInfo) (eff : ChannelSetting) c : result (Content G) :=
  let slug := t_slug t in
  let c := with_settings (<[slug := eff]> (settings c)) c in
  '(_, g) ← mx_add (graph c) slug;
  g ← mx_set g slug (initial_gain eff);
  Ok (snd (ensureLane slug (with_graph g c))).

(** Second loop: tracks that are new. *)
Fixpoint add_tracks (ts : list TrackInfo) (nextGains : gmap jstr (option num))
    (nextMuted : gmap jstr (option bool)) c :
    result (gmap jstr (option num) * gmap jstr (option bool) * Content G) :=
  match ts with
  | [] => Ok (nextGains, nextMuted, c)
  | t :: ts =>
      let slug := t_slug t in
      match settings c !! slug with
      | Some _ => add_tracks ts nextGains nextMuted c
      | None =>
          let eff := setting_of (effectiveSetting slug (t_category t) streamerPrefs globalPrefs) in
          c ← add_track t eff c;
          add_tracks ts (<[slug := Prefs.gain eff]> nextGains) (<[slug := Prefs.muted eff]> nextMuted) c
      end
  end.

Definition applyTrackList (incoming : list TrackInfo) c : result (Content G) :=
  let incomingSlugs := t_slug <$> incoming in
  let '(nextGains, nextMuted, c) := drop_tracks incomingSlugs (tracks c) (gains c) (muted c) c in
  '(nextGains, nextMuted, c) ← add_tracks incoming nextGains nextMuted c;
  Ok (set_muted (set_gains (set_tracks (with_mix nextGains nextMuted (with_tracks incoming c))))).

Definition indexTracks (incoming : list TrackInfo) c : Content G :=
  with_ids (foldl (fun ids t => <[t_id t := t_slug t]> ids) ∅ incoming) c.

Definition onTrackList (incoming : list TrackInfo) c : result (Content G) :=
  applyTrackList incoming (indexTracks incoming c).

(** [onAudio]: what the decoder throws leaves the handler. *)
Definition onAudio (trackID : Z) (frame : Frame) c : Content G * option Exn :=
  match idToSlug c !! trackID with
  | None => (c, None)
  | Some slug =>
      if bool_decide (slug = []) then (c, None)
      else
        match ensureLane slug c with
        | (None, c) => (c, None)
        | (Some lane, c) =>
            let '(d, e) := decode (f_payload frame) (f_seq frame) (decoder lane) in
            (with_lanes (<[slug := mkAudioLane d (sched_dest lane) (sched_closed lane)]> (audioLanes c))
               (closedLanes c) c, e)
        end
  end.

(** The codec of a lane reports an error. *)
Definition onCodecError (slug : jstr) c : Content G :=
  match audioLanes c !! slug with
  | Some lane =>
      with_lanes (<[slug := mkAudioLane (codec_error (decoder lane)) (sched_dest lane) (sched_closed lane)]>
                    (audioLanes c)) (closedLanes c) c
  | None => c
  end.

(** The part of [destroy] that concerns the lanes. *)
Definition destroy_lanes c : Content G :=
  with_graph (foldl mx_close (graph c) (map_to_list (audioLanes c)).*1)
    (with_lanes ∅ (closedLanes c ++ (close_lane <$> (map_to_list (audioLanes c)).*2)) c).

(** ** Events *)

Inductive event :=
  | ETrackList (incoming : list TrackInfo)
  | EAudio (trackID : Z) (frame : Frame)
  | EChange (slug : jstr) (v : num)
  | EMute (slug : jstr)
  | ESolo (slug : jstr)
  | EReset
  | ESave
  | EBroadcast (v : num)
  | EOffset (ms : num)
  | ECodecError (slug : jstr).

Definition handle (e : event) c : result (Content G) :=
  match e with
  | ETrackList incoming => onTrackList incoming c
  | EAudio trackID frame => Ok (onAudio trackID frame c).1
  | EChange slug v => onChange slug v c
  | EMute slug => onMuteToggle slug c
  | ESolo slug => onSoloToggle slug c
  | EReset => onReset c
  | ESave => Ok (onSaveStreamer c)
  | EBroadcast v => onBroadcastChange v c
  | EOffset ms => onOffsetChange ms c
  | ECodecError slug => Ok (onCodecError slug c)
  end.

(** What can arrive: a track list the decoder accepted; slider values that are
    canonical numbers, for tracks on the panel. *)
Definition event_ok (e : event) c : Prop :=
  match e with
  | ETrackList incoming => NoDup (t_id <$> incoming) /\ Forall track_ok incoming
  | EChange slug v => slug ∈ t_slug <$> p_tracks (panel c) /\ num_ok v = true
  | EMute slug | ESolo slug => slug ∈ t_slug <$> p_tracks (panel c)
  | EBroadcast v | EOffset v => num_ok v = true
  | _ => True
  end.

(** The states reachable from a fresh graph by events of some kind, while
    decoders put out buffers and sources end. *)
Inductive reachable (allowed : event -> Prop) (g0 : G) : Content G -> Prop :=
  | reach_mounted c : mounted g0 = Ok c -> reachable allowed g0 c
  | reach_event c e c' :
      reachable allowed g0 c -> allowed e -> event_ok e c -> handle e c = Ok c' ->
      reachable allowed g0 c'
  | reach_audio c g :
      reachable allowed g0 c -> mx_audio (graph c) g -> reachable allowed g0 (with_graph g c).

(** The tracks a solo has touched since their mute flag was last chosen (by a
    toggle, by reset or by a new track list): [onSoloToggle] leaves the flags of
    [settings] as they were. *)
Definition soloed_after (e : event) c (soloed : gset jstr) : gset jstr :=
  match e with
  | ETrackList incoming => soloed ∩ list_to_set (t_slug <$> incoming)
  | EMute slug => soloed ∖ {[slug]}
  | ESolo _ => list_to_set (t_slug <$> tracks c)
  | EReset => ∅
  | _ => soloed
  end.

(** The reachable states, with those tracks. *)
Inductive history (g0 : G) : gset jstr -> Content G -> Prop :=
  | hist_mounted c : mounted g0 = Ok c -> history g0 ∅ c
  | hist_event soloed c e c' :
      history g0 soloed c -> event_ok e c -> handle e c = Ok c' ->
      history g0 (soloed_after e c soloed) c'
  | hist_audio soloed c g :
      history g0 soloed c -> mx_audio (graph c) g -> history g0 soloed (with_graph g c).
End Handlers.

(** ** Invariant *)

Section Invariant.
Context {G : Type} `{Mixer G}.
Context (webcodecs : bool).
Implicit Types c : Content G.

(** The gain the graph holds for a slider at [v] and a mute flag [b]. *)
Definition heard (v : num) (b : bool) : num := fround (clamp01 (Some (if b then num0 else v))).

(** The gain it holds for the values of [gains[slug]] and [muted[slug]], which
    may be [undefined] for the slug ["constructor"]: such a track is silent at
    first, and at 0.5 once it was muted and unmuted. *)
Definition heard_of (v : option num) (b : option bool) : num :=
  match v, b with
  | Some v, _ => heard v (default false b)
  | None, Some b => heard half b
  | None, None => fround (clamp01 None)
  end.

(** Everything the controller knows about one slug. *)
Record Row := mkRow {
  r_gain : option (option num);
  r_muted : option (option bool);
  r_setting : option ChannelSetting;
  r_user : option num;
  r_lane : option AudioLane;
  r_slot : Slot;
}.

Definition row (gs : gmap jstr (option num)) (ms : gmap jstr (option bool)) c (s : jstr) : Row :=
  mkRow (gs !! s) (ms !! s) (settings c !! s) (mx_gains (graph c) !! s) (audioLanes c !! s)
    (mx_slot (graph c) s).

Definition lane_ok (l : option AudioLane) (slot : Slot) : Prop :=
  match l with
  | Some l => webcodecs = true /\ slot = mkSlot (Some (sched_dest l)) true /\ sched_closed l = false
  | None => webcodecs = false /\ slot_open slot = false
  end.

(** A track of the list: the setting has the slider's gain, the graph the gain of
    slider and mute flag, and the lane is open.  Slider and flags are defined,
    unless the slug is ["constructor"]. *)
Definition present (s : jstr) (r : Row) : Prop :=
  exists v b st,
    r_gain r = Some v /\ r_muted r = Some b /\ r_setting r = Some st
    /\ Prefs.gain st = v /\ opt_num_ok v
    /\ r_user r = Some (heard_of v b) /\ lane_ok (r_lane r) (r_slot r)
    /\ (s <> js "constructor" -> is_Some v /\ is_Some b /\ is_Some (Prefs.muted st)).

Definition absent (r : Row) : Prop :=
  r_gain r = None /\ r_muted r = None /\ r_setting r = None /\ r_user r = None /\ r_lane r = None
  /\ slot_open (r_slot r) = false.

Definition consistent (gs : gmap jstr (option num)) (ms : gmap jstr (option bool)) c
    (slugs : list jstr) : Prop :=
  forall s, (s ∈ slugs -> present s (row gs ms c s)) /\ (~ (s ∈ slugs) -> absent (row gs ms c s)).

Definition lane_dead (l : AudioLane) : Prop := codec (decoder l) = closed /\ sched_closed l = true.

Definition indexed (ids : gmap Z jstr) (ts : list TrackInfo) : Prop :=
  forall id slug, ids !! id = Some slug <-> exists t, t ∈ ts /\ t_id t = id /\ t_slug t = slug.

Record content_inv c : Prop := {
  inv_graph : mx_ok (graph c);
  inv_tracks : Forall track_ok (tracks c);
  inv_rows : consistent (gains c) (muted c) c (t_slug <$> tracks c);
  inv_dead : Forall lane_dead (closedLanes c);
  inv_ids : indexed (idToSlug c) (tracks c);
  inv_levels : mx_levels (graph c) = (fround (clamp01 (Some (broadcastGain c))), clamp_offset (offsetMs c));
  inv_panel : panel c = mkPanel (tracks c) (gains c) (muted c) (broadcastGain c) (offsetMs c);
}.

(** What the store is assumed to hold: each setting has a numeric gain and a
    mute flag. *)
Definition prefs_fine (p : Prefs) : Prop :=
  forall k st, p !! k = Some st ->
    exists v b, Prefs.gain st = Some v /\ num_ok v = true /\ Prefs.muted st = Some b.
End Invariant.

(** ** Lemmas *)

Section Lemmas.
Context {G : Type} `{Mixer G}.
Context (webcodecs : bool) (channelID : jstr) (globalPrefs streamerPrefs : Prefs).
Implicit Types c : Content G.

Lemma num0_ok : opt_num_ok (Some num0).
Proof. by intros x [= <-]. Qed.

Lemma opt_ok v : num_ok v = true -> opt_num_ok (Some v).
Proof. by intros Hv x [= <-]. Qed.

(** What the handlers give [setTrackGain]. *)
Lemma mute_arg v (b : bool) :
  opt_num_ok v ->
  let x := if b then Some num0 else gain_or_half (Own v) in
  opt_num_ok x /\ fround (clamp01 x) = heard_of v (Some b).
Proof.
  intros Hv. destruct b; cbn.
  - split; [apply num0_ok|]. by destruct v.
  - destruct v as [v|]; (split; [|done]); [done|]. by apply opt_ok.
Qed.

Lemma change_arg v (b : option bool) :
  num_ok v = true ->
  let x := if truthy (Own b) then Some num0 else Some v in
  opt_num_ok x /\ fround (clamp01 x) = heard_of (Some v) b.
Proof. intros Hv. by destruct b as [[]|]; cbn; (split; [|done]); [apply num0_ok|apply opt_ok..]. Qed.

(** One [setTrackGain] on a track. *)
Lemma set_row gs ms gs' ms' c c' s x u :
  (forall s', s' <> s -> row gs' ms' c' s' = row gs ms c s') ->
  mx_ok (graph c) -> opt_num_ok x /\ fround (clamp01 x) = u ->
  graph c' = graph c ->
  exists g, mx_set (graph c') s x = Ok g /\ mx_ok g
    /\ (forall s', s' <> s -> row gs' ms' (with_graph g c') s' = row gs ms c s')
    /\ (is_Some (mx_gains (graph c) !! s) -> mx_gains g !! s = Some u)
    /\ mx_slot g s = mx_slot (graph c) s /\ mx_levels g = mx_levels (graph c).
Proof.
  intros Hrow Hok [Hx <-] Hg. rewrite Hg.
  destruct (mx_set_spec (graph c) s x Hok Hx) as (g & Hs & Hok' & Hent & Hgains & Hlev).
  exists g. split; [done|]. split; [done|]. split; [|split; [|split; [apply Hent|exact Hlev]]].
  - intros s' Hne. rewrite <- (Hrow s' Hne). unfold row. cbn. rewrite Hent, Hgains, Hg.
    by rewrite lookup_alter_ne by done.
  - intros [y Hy]. by rewrite Hgains, lookup_alter_eq, Hy.
Qed.

Lemma onChange_inv slug v c :
  content_inv webcodecs c -> event_ok (EChange slug v) c ->
  exists c', onChange slug v c = Ok c' /\ content_inv webcodecs c'.
Proof.
  intros [Hg Hts Hr Hd Hi Hlv Hp] [Hs Hv]. rewrite Hp in Hs. cbn in Hs.
  destruct (Hr slug) as [Hpr _]. destruct (Hpr Hs) as (v0 & b & st & H1 & H2 & H3 & H4 & H5 & H6 & H7 & H8).
  cbn in H1, H2, H3, H6, H7. unfold onChange. cbn [with_mix settings]. rewrite H3.
  unfold get_prop. cbn [with_settings with_mix muted]. rewrite H2.
  set (st' := mkSetting (Some v) (Prefs.muted st) (permanentlyOff st)).
  set (c1 := with_settings _ _).
  destruct (set_row (gains c) (muted c) (gains c1) (muted c1) c c1 slug _ _ ltac:(
    intros s' Hne; unfold row, c1; cbn; by rewrite !lookup_insert_ne by done) Hg (change_arg v b Hv) eq_refl)
    as (g & Hset & Hok & Hoth & Huser & Hent & Hlev).
  rewrite Hset. cbn [mbind result_bind]. eexists. split; [done|].
  constructor; cbn; try done; [|by rewrite Hlev|by rewrite Hp].
  intros s. destruct (decide (s = slug)) as [->|Hne].
  - split; [intros _|done]. exists (Some v), b, st'. cbn. rewrite !lookup_insert_eq, H2, Huser by by rewrite H6.
    rewrite Hent. split_and!; try done; [by apply opt_ok|]. intros Hc. destruct (H8 Hc) as (_ & ? & ?). by split_and!.
  - specialize (Hoth s Hne). unfold row in Hoth. cbn in Hoth. unfold row. cbn. rewrite Hoth. apply Hr.
Qed.

Lemma onMuteToggle_inv slug c :
  content_inv webcodecs c -> event_ok (EMute slug) c ->
  exists c', onMuteToggle slug c = Ok c' /\ content_inv webcodecs c'.
Proof.
  intros [Hg Hts Hr Hd Hi Hlv Hp] Hs. cbn in Hs. rewrite Hp in Hs. cbn in Hs.
  destruct (Hr slug) as [Hpr _]. destruct (Hpr Hs) as (v & b & st & H1 & H2 & H3 & H4 & H5 & H6 & H7 & H8).
  cbn in H1, H2, H3, H6, H7. unfold onMuteToggle. cbn [with_mix settings]. rewrite H3.
  unfold get_prop. rewrite H2. cbn [with_settings with_mix gains]. rewrite H1.
  set (next := negb (truthy (Own b))). set (c1 := with_settings _ _).
  destruct (set_row (gains c) (muted c) (gains c1) (muted c1) c c1 slug _ _ ltac:(
    intros s' Hne; unfold row, c1; cbn; by rewrite !lookup_insert_ne by done) Hg (mute_arg v next H5) eq_refl)
    as (g & Hset & Hok & Hoth & Huser & Hent & Hlev).
  rewrite Hset. cbn [mbind result_bind]. eexists. split; [done|].
  constructor; cbn; try done; [|by rewrite Hlev|by rewrite Hp].
  intros s. destruct (decide (s = slug)) as [->|Hne].
  - split; [intros _|done]. eexists v, (Some next), _. cbn.
    rewrite !lookup_insert_eq, H1, Huser by by rewrite H6. rewrite Hent. split_and!; try done.
    intros Hc. destruct (H8 Hc) as (? & _ & _). split_and!; [done|by eexists..].
  - specialize (Hoth s Hne). unfold row in Hoth. cbn in Hoth. unfold row. cbn. rewrite Hoth. apply Hr.
Qed.

(** A run of [setTrackGain]s over a list of tracks, with values that depend on
    the slug only. *)
Definition set_to (slugs : list jstr) (f : jstr -> option num) (g g' : G) : Prop :=
  mx_ok g' /\ (forall s, mx_slot g' s = mx_slot g s) /\ mx_levels g' = mx_levels g
  /\ forall s, mx_gains g' !! s
               = if decide (s ∈ slugs)
                 then (fun _ => fround (clamp01 (f s))) <$> mx_gains g !! s else mx_gains g !! s.

Lemma set_to_nil f g : mx_ok g -> set_to [] f g g.
Proof. intros Hg. split; [done|]. split; [done|]. split; [done|]. intros s. by rewrite decide_False by set_solver. Qed.

Lemma set_to_cons s slugs (f : jstr -> option num) g g1 g2 :
  mx_set g s (f s) = Ok g1 -> mx_ok g -> opt_num_ok (f s) ->
  set_to slugs f g1 g2 -> set_to (s :: slugs) f g g2.
Proof.
  intros Hs Hg Hv (Hok & He & Hlv & Hgs).
  destruct (mx_set_spec g s _ Hg Hv) as (g1' & Hs' & _ & He' & Hgs' & Hlv').
  assert (g1' = g1) as -> by congruence.
  split; [done|]. split; [intros s'; by rewrite He, He'|]. split; [by rewrite Hlv|].
  intros s'. rewrite Hgs, Hgs'. destruct (decide (s' = s)) as [->|Hne].
  - rewrite lookup_alter_eq, (decide_True (P := s ∈ s :: slugs)) by set_solver.
    case_decide; by destruct (mx_gains g !! s).
  - rewrite lookup_alter_ne by done.
    destruct (decide (s' ∈ slugs)); [by rewrite decide_True by set_solver|by rewrite decide_False by set_solver].
Qed.

(** The flag solo gives a track, and the gain it asks for. *)
Definition solo_flag (slug s : jstr) : bool := negb (bool_decide (s = slug)).
Definition solo_gain (slug : jstr) (gs : gmap jstr (option num)) (s : jstr) : option num :=
  if solo_flag slug s then Some num0 else gain_or_half (get_prop gs s).

Lemma solo_loop_spec slug gs ts nm g :
  mx_ok g -> (forall t, t ∈ ts -> exists v, gs !! t_slug t = Some v /\ opt_num_ok v) ->
  exists nm' g', solo_loop slug gs ts nm g = Ok (nm', g')
    /\ (forall s, nm' !! s = if decide (s ∈ t_slug <$> ts) then Some (Some (solo_flag slug s)) else nm !! s)
    /\ set_to (t_slug <$> ts) (solo_gain slug gs) g g'.
Proof.
  revert nm g. induction ts as [|t ts IH]; intros nm g Hg Hts.
  { exists nm, g. split; [done|]. split; [|by apply set_to_nil].
    intros s. by rewrite decide_False by set_solver. }
  destruct (Hts t ltac:(set_solver)) as (v & Hv & Hok).
  cbn [solo_loop]. fold (solo_flag slug (t_slug t)).
  unfold get_prop at 1. rewrite lookup_insert_eq. cbn [truthy]. fold (solo_gain slug gs (t_slug t)).
  assert (Hx : opt_num_ok (solo_gain slug gs (t_slug t)))
    by (unfold solo_gain; rewrite (get_prop_own _ _ _ Hv); by apply mute_arg).
  destruct (mx_set_spec g (t_slug t) _ Hg Hx) as (g1 & Hs1 & Hg1 & _). rewrite Hs1. cbn [mbind result_bind].
  destruct (IH (<[t_slug t := Some (solo_flag slug (t_slug t))]> nm) g1 Hg1) as (nm' & g' & Hl & Hnm & Hset).
  { intros t' Ht'. apply Hts. set_solver. }
  exists nm', g'. split; [done|]. split; [|by eapply set_to_cons].
  intros s. rewrite Hnm. cbn [fmap list_fmap]. destruct (decide (s = t_slug t)) as [->|Hne].
  - rewrite lookup_insert_eq, (decide_True (P := t_slug t ∈ t_slug t :: _)) by set_solver. by case_decide.
  - rewrite lookup_insert_ne by done. destruct (decide (s ∈ t_slug <$> ts)).
    + by rewrite decide_True by set_solver.
    + by rewrite decide_False by set_solver.
Qed.

Lemma slug_of_track c s : s ∈ t_slug <$> tracks c -> exists t, t ∈ tracks c /\ t_slug t = s.
Proof. intros (t & -> & Ht)%list_elem_of_fmap. by exists t. Qed.

(** The gain the graph holds is the one of the slider and the mute flag. *)
Lemma inv_heard c s v b :
  content_inv webcodecs c -> s ∈ t_slug <$> tracks c ->
  gains c !! s = Some v -> muted c !! s = Some b -> mx_gains (graph c) !! s = Some (heard_of v b).
Proof.
  intros [_ _ Hr _ _ _ _] Hs Hv Hb. destruct (Hr s) as [Hpr _].
  destruct (Hpr Hs) as (v' & b' & _ & H1 & H2 & _ & _ & _ & H6 & _). cbn in *. congruence.
Qed.

(** The slider of a track of the list. *)
Lemma inv_slider c s :
  content_inv webcodecs c -> s ∈ t_slug <$> tracks c -> exists v, gains c !! s = Some v.
Proof.
  intros [_ _ Hr _ _ _ _] Hs. destruct (Hr s) as [Hpr _].
  destruct (Hpr Hs) as (v & _ & _ & H1 & _). by exists v.
Qed.

Lemma onSoloToggle_inv slug c :
  content_inv webcodecs c ->
  exists c', onSoloToggle slug c = Ok c' /\ content_inv webcodecs c'
    /\ tracks c' = tracks c /\ gains c' = gains c /\ settings c' = settings c
    /\ audioLanes c' = audioLanes c /\ (forall s, mx_slot (graph c') s = mx_slot (graph c) s)
    /\ (forall s, s ∈ t_slug <$> tracks c -> muted c' !! s = Some (Some (solo_flag slug s))).
Proof.
  intros [Hg Hts Hr Hd Hi Hlv Hp]. unfold onSoloToggle.
  destruct (solo_loop_spec slug (gains c) (tracks c) ∅ (graph c) Hg) as (nm & g & -> & Hnm & (Hok & He & Hlv' & Hgs)).
  { intros t Ht. destruct (Hr (t_slug t)) as [Hpr _].
    destruct (Hpr ltac:(by apply list_elem_of_fmap_2)) as (v & _ & _ & H1 & _ & _ & _ & H5 & _). eauto. }
  cbn [mbind result_bind]. eexists. split; [done|].
  split; [|split; [done|split; [done|split; [done|split; [done|split; [exact He|]]]]]].
  2:{ intros s Hs. cbn. by rewrite Hnm, decide_True. }
  constructor; cbn; try done; [|by rewrite Hlv'|by rewrite Hp].
  intros s. destruct (Hr s) as [Hpr Hab]. unfold row. cbn. rewrite Hnm, He, Hgs. split; intros Hs.
  - destruct (Hpr Hs) as (v & b & st & H1 & H2 & H3 & H4 & H5 & H6 & H7 & H8). cbn in H1, H6, H7.
    rewrite !decide_True by done. exists v, (Some (solo_flag slug s)), st. cbn.
    rewrite H1, H6. cbn. unfold solo_gain. rewrite (get_prop_own _ _ _ H1).
    destruct (mute_arg v (solo_flag slug s) H5) as [_ ->]. split_and!; try done.
    intros Hc. destruct (H8 Hc) as (? & _ & ?). split_and!; [done|by eexists|done].
  - destruct (Hab Hs) as (H1 & H2 & H3 & H4 & H5 & H6). cbn in *. rewrite !decide_False by done. by repeat split.
Qed.

Lemma broadcast_offset_inv c f :
  content_inv webcodecs c ->
  (exists v, num_ok v = true /\ f = onBroadcastChange v) \/ (exists ms, num_ok ms = true /\ f = onOffsetChange ms) ->
  exists c', f c = Ok c' /\ content_inv webcodecs c' /\ gains c' = gains c /\ muted c' = muted c
             /\ settings c' = settings c /\ tracks c' = tracks c.
Proof.
  intros [Hg Hts Hr Hd Hi Hlv Hp] [(v & Hv & ->)|(ms & Hms & ->)].
  - unfold onBroadcastChange. cbn [graph with_broadcast]. destruct (mx_broadcast_spec (graph c) v Hg Hv) as (g & -> & Hok & He & Hgs & Hl).
    cbn [mbind result_bind]. eexists. split; [done|]. split; [|done].
    constructor; cbn; try done; [|by rewrite Hl, Hlv|by rewrite Hp].
    intros s. unfold row. cbn. rewrite He, Hgs. apply Hr.
  - unfold onOffsetChange. cbn [graph with_offset]. destruct (mx_offset_spec (graph c) ms Hg Hms) as (g & -> & Hok & He & Hgs & Hl).
    cbn [mbind result_bind]. eexists. split; [done|]. split; [|done].
    constructor; cbn; try done; [|by rewrite Hl, Hlv|by rewrite Hp].
    intros s. unfold row. cbn. rewrite He, Hgs. apply Hr.
Qed.

(** What the store holds is what the panel wrote there. *)
Context (Hglobal : prefs_fine globalPrefs) (Hstreamer : prefs_fine streamerPrefs).

(** What a setting gives a track: its slider, its mute flag and its gain. *)
Definition usable (s : jstr) (st : ChannelSetting) : Prop :=
  opt_num_ok (Prefs.gain st) /\ opt_num_ok (initial_gain st)
  /\ fround (clamp01 (initial_gain st)) = heard_of (Prefs.gain st) (Prefs.muted st)
  /\ (s <> js "constructor" -> is_Some (Prefs.gain st) /\ is_Some (Prefs.muted st)).

Lemma usable_fine s st v b :
  Prefs.gain st = Some v -> num_ok v = true -> Prefs.muted st = Some b -> usable s st.
Proof.
  intros Hg Hv Hm. unfold usable, initial_gain. rewrite Hg, Hm. cbn.
  split; [by apply opt_ok|]. split; [destruct b; [apply num0_ok|by apply opt_ok]|].
  split; [by destruct b|]. intros _. split; by eexists.
Qed.

Lemma effective_fine streamer t :
  prefs_fine streamer -> track_ok t ->
  let eff := effectiveSetting (t_slug t) (t_category t) streamer globalPrefs in
  usable (t_slug t) (setting_of eff) /\ (t_slug t <> js "constructor" -> eff = Own (setting_of eff)).
Proof.
  intros Hs (_ & Hslug & Hcat & _) eff. subst eff.
  destruct (streamer !! t_slug t) as [st|] eqn:E.
  { destruct (Hs _ _ E) as (v & b & Hg & Hok & Hm). unfold effectiveSetting.
    rewrite (get_prop_own _ _ _ E). split; [by eapply usable_fine|done]. }
  destruct (decide (t_slug t = js "constructor")) as [Hc|Hne].
  { split; [|done]. unfold effectiveSetting, get_prop. rewrite E, Hc.
    change (includes Object_prototype (js "constructor")) with true. by split_and!. }
  rewrite effectiveSetting_own; [|by apply isValidSlug_rule|done|done]. rewrite E. split; [|done]. cbn [setting_of].
  assert (Hd : usable (t_slug t) DEFAULT) by by eapply usable_fine.
  destruct (isPresetCategory _); [|done]. destruct (globalPrefs !! t_category t) as [st|] eqn:E'; [|done].
  destruct (Hglobal _ _ E') as (v & b & Hg & Hok & Hm). by eapply usable_fine.
Qed.

(** What a loop over tracks leaves alone. *)
Definition same_frame c c' : Prop :=
  closedLanes c' = closedLanes c /\ tracks c' = tracks c /\ gains c' = gains c /\ muted c' = muted c
  /\ broadcastGain c' = broadcastGain c /\ offsetMs c' = offsetMs c /\ idToSlug c' = idToSlug c
  /\ panel c' = panel c /\ saved c' = saved c /\ mx_levels (graph c') = mx_levels (graph c).

Lemma same_frame_trans c1 c2 c3 : same_frame c1 c2 -> same_frame c2 c3 -> same_frame c1 c3.
Proof. unfold same_frame. intuition congruence. Qed.

(** The setting a loop gives to a slug: that of some track with the slug. *)
Definition chosen (streamer : Prefs) (ts : list TrackInfo) (s : jstr) (st : ChannelSetting) : Prop :=
  usable s st
  /\ exists t, t ∈ ts /\ t_slug t = s
      /\ let eff := effectiveSetting s (t_category t) streamer globalPrefs in
         st = setting_of eff /\ (s <> js "constructor" -> eff = Own st).

Lemma chosen_cons streamer t ts s st : chosen streamer ts s st -> chosen streamer (t :: ts) s st.
Proof. intros (Hu & t' & Ht' & Hs). split; [done|]. exists t'. set_solver. Qed.

Lemma chosen_here streamer t ts :
  prefs_fine streamer -> track_ok t ->
  chosen streamer (t :: ts) (t_slug t) (setting_of (effectiveSetting (t_slug t) (t_category t) streamer globalPrefs)).
Proof.
  intros Hs Ht. destruct (effective_fine streamer t Hs Ht) as [Hu He]. split; [done|].
  exists t. split; [apply list_elem_of_here|done].
Qed.

Lemma reset_loop_spec ts gs ms c :
  mx_ok (graph c) -> Forall track_ok ts ->
  exists gs' ms' c', reset_loop globalPrefs ts gs ms c = Ok (gs', ms', c')
    /\ mx_ok (graph c') /\ same_frame c c' /\ audioLanes c' = audioLanes c
    /\ (forall s, mx_slot (graph c') s = mx_slot (graph c) s)
    /\ forall s,
        (s ∈ t_slug <$> ts -> exists st, chosen ∅ ts s st
           /\ gs' !! s = Some (Prefs.gain st) /\ ms' !! s = Some (Prefs.muted st) /\ settings c' !! s = Some st
           /\ mx_gains (graph c') !! s
              = (fun _ => heard_of (Prefs.gain st) (Prefs.muted st)) <$> mx_gains (graph c) !! s)
        /\ (~ (s ∈ t_slug <$> ts) ->
           gs' !! s = gs !! s /\ ms' !! s = ms !! s /\ settings c' !! s = settings c !! s
           /\ mx_gains (graph c') !! s = mx_gains (graph c) !! s).
Proof.
  intros Hok Hts. revert gs ms c Hok. induction Hts as [|t ts Ht Hts IH]; intros gs ms c Hok.
  { exists gs, ms, c. cbn. split; [done|]. split; [done|]. split; [by repeat split|]. split; [done|].
    split; [done|]. intros s. split; [by intros ?%not_elem_of_nil | done]. }
  assert (Hnil : prefs_fine ∅) by (intros k x; by rewrite lookup_empty).
  pose proof (chosen_here ∅ t ts Hnil Ht) as Hch. cbn [reset_loop].
  set (st := setting_of _) in *. destruct Hch as ((Hv & Hx & Hu & Hdef) & Hch). cbn [with_settings graph].
  destruct (mx_set_spec (graph c) (t_slug t) _ Hok Hx) as (g1 & -> & Hok1 & He1 & Hg1 & Hlv1).
  cbn [mbind result_bind]. rewrite Hu in Hg1.
  set (c1 := with_graph g1 _).
  destruct (IH (<[t_slug t := Prefs.gain st]> gs) (<[t_slug t := Prefs.muted st]> ms) c1 Hok1)
    as (gs' & ms' & c' & -> & Hok' & Hsame & Hl & Hent & Hrows).
  exists gs', ms', c'. split; [done|]. split; [done|].
  split; [unfold same_frame in *; cbn in Hsame; intuition congruence|]. split; [exact Hl|].
  split; [intros s; rewrite Hent; apply He1|].
  intros s. destruct (Hrows s) as [Hin Hout]. cbn [fmap list_fmap].
  assert (Hg1s : s <> t_slug t -> mx_gains g1 !! s = mx_gains (graph c) !! s)
    by (intros Hne; by rewrite Hg1, lookup_alter_ne).
  destruct (decide (s ∈ t_slug <$> ts)) as [Hs|Hs].
  - split; [intros _|intros []; by apply list_elem_of_further]. destruct (Hin Hs) as (st' & Hch' & H1 & H2 & H3 & H4).
    exists st'. split; [by apply chosen_cons|]. do 3 (split; [done|]). rewrite H4. cbn.
    destruct (decide (s = t_slug t)) as [->|Hne]; [|by rewrite Hg1s].
    rewrite Hg1, lookup_alter_eq. by destruct (mx_gains (graph c) !! t_slug t).
  - destruct (Hout Hs) as (H1 & H2 & H3 & H4).
    destruct (decide (s = t_slug t)) as [->|Hne].
    + split; [intros _|intros []; by apply list_elem_of_here]. exists st. split; [by split_and!|].
      rewrite H1, H2, H3, H4. cbn. rewrite !lookup_insert_eq, Hg1, lookup_alter_eq. done.
    + split; [by intros [?|?]%elem_of_cons|]. intros _. rewrite H1, H2, H3, H4. cbn.
      rewrite !lookup_insert_ne, Hg1s by done. done.
Qed.

Lemma onReset_inv c :
  content_inv webcodecs c ->
  exists c', onReset globalPrefs c = Ok c' /\ content_inv webcodecs c' /\ tracks c' = tracks c
    /\ audioLanes c' = audioLanes c
    /\ forall s, s ∈ t_slug <$> tracks c -> exists st, chosen ∅ (tracks c) s st
         /\ gains c' !! s = Some (Prefs.gain st) /\ muted c' !! s = Some (Prefs.muted st)
         /\ settings c' !! s = Some st
         /\ mx_gains (graph c') !! s = Some (heard_of (Prefs.gain st) (Prefs.muted st)).
Proof.
  intros [Hg Hts Hr Hd Hi Hlv Hp]. unfold onReset.
  destruct (reset_loop_spec (tracks c) ∅ ∅ c Hg Hts) as (gs & ms & c' & -> & Hok & Hsame & Hl & Hent & Hrows).
  cbn [mbind result_bind]. eexists. split; [done|].
  destruct Hsame as (S1 & S2 & S3 & S4 & S5 & S6 & S7 & S8 & S9 & S10).
  assert (Hall : forall s, s ∈ t_slug <$> tracks c -> exists st, chosen ∅ (tracks c) s st
         /\ gs !! s = Some (Prefs.gain st) /\ ms !! s = Some (Prefs.muted st) /\ settings c' !! s = Some st
         /\ mx_gains (graph c') !! s = Some (heard_of (Prefs.gain st) (Prefs.muted st))).
  { intros s Hs. destruct (Hrows s) as [Hin _]. destruct (Hin Hs) as (st & Hch & H1 & H2 & H3 & H4).
    destruct (Hr s) as [Hpr _]. destruct (Hpr Hs) as (v0 & b0 & st0 & _ & _ & _ & _ & _ & H6 & _).
    cbn in H6. rewrite H6 in H4. by exists st. }
  split; [|split; [done|split; [done|exact Hall]]].
  constructor; cbn; rewrite ?S1, ?S2, ?S7; try done; [|by rewrite S10, S5, S6|by rewrite S8, S5, S6, Hp].
  intros s. destruct (Hr s) as [Hpr Hab]. unfold row. cbn. rewrite Hl, Hent. split; intros Hs.
  - destruct (Hall s Hs) as (st & ((Hv & _ & _ & Hdef) & _) & H1 & H2 & H3 & H4).
    destruct (Hpr Hs) as (v0 & b0 & st0 & _ & _ & _ & _ & _ & _ & H7 & _). cbn in H7.
    exists (Prefs.gain st), (Prefs.muted st), st. split_and!; try done. intros Hc. by destruct (Hdef Hc).
  - destruct (Hrows s) as [_ Hout]. destruct (Hout Hs) as (H1 & H2 & H3 & H4).
    destruct (Hab Hs) as (A1 & A2 & A3 & A4 & A5 & A6). cbn in *. unfold absent. cbn. rewrite H1, H2, H3, H4.
    by rewrite !lookup_empty.
Qed.

Lemma close_lane_dead l : lane_dead (close_lane l).
Proof. by destruct l. Qed.

(** A scheduler is attached to the tracks that have a lane. *)
Definition lanes_attached c : Prop :=
  forall s, audioLanes c !! s = None -> slot_open (mx_slot (graph c) s) = false.

(** The graph after a lane, if there is one, was closed and its track removed. *)
Lemma drop_graph_spec c s :
  mx_ok (graph c) -> lanes_attached c ->
  let g := match audioLanes c !! s with Some _ => mx_close (graph c) s | None => graph c end in
  mx_ok (mx_remove g s) /\ mx_gains (mx_remove g s) = delete s (mx_gains (graph c))
  /\ (forall s', mx_slot (mx_remove g s) s' = if decide (s' = s) then mkSlot None false else mx_slot (graph c) s')
  /\ mx_levels (mx_remove g s) = mx_levels (graph c).
Proof.
  intros Hok Ha g.
  assert (Hg : mx_ok g /\ mx_gains g = mx_gains (graph c) /\ mx_levels g = mx_levels (graph c)
               /\ slot_open (mx_slot g s) = false
               /\ forall s', s' <> s -> mx_slot g s' = mx_slot (graph c) s').
  { subst g. destruct (audioLanes c !! s) eqn:E; [|by split_and!; auto].
    destruct (mx_close_spec (graph c) s Hok) as (H1 & H2 & H3 & H4). split_and!; try done.
    - by rewrite H3, decide_True.
    - intros s' Hne. by rewrite H3, decide_False. }
  destruct Hg as (G1 & G2 & G3 & G4 & G5). destruct (mx_remove_spec g s G1 G4) as (R1 & R2 & R3 & R4).
  split; [done|]. split; [by rewrite R2, G2|]. split; [|by rewrite R4].
  intros s'. rewrite R3. case_decide; [done|by apply G5].
Qed.

Lemma drop_tracks_spec inc ts gs ms c :
  mx_ok (graph c) -> lanes_attached c ->
  let '(gs', ms', c') := drop_tracks inc ts gs ms c in
  mx_ok (graph c') /\ tracks c' = tracks c /\ gains c' = gains c /\ muted c' = muted c
  /\ broadcastGain c' = broadcastGain c /\ offsetMs c' = offsetMs c /\ idToSlug c' = idToSlug c
  /\ panel c' = panel c /\ saved c' = saved c
  /\ (Forall lane_dead (closedLanes c) -> Forall lane_dead (closedLanes c'))
  /\ mx_levels (graph c') = mx_levels (graph c)
  /\ forall s,
      (s ∈ t_slug <$> ts -> ~ (s ∈ inc) -> absent (row gs' ms' c' s))
      /\ (~ (s ∈ t_slug <$> ts) \/ s ∈ inc -> row gs' ms' c' s = row gs ms c s).
Proof.
  revert gs ms c. induction ts as [|t ts IH]; intros gs ms c Hok Hatt; cbn [drop_tracks].
  { do 11 (split; [done|]). intros s. split; [by intros ?%not_elem_of_nil|done]. }
  unfold includes. case_bool_decide as Hin.
  - specialize (IH gs ms c Hok Hatt). destruct (drop_tracks inc ts gs ms c) as [[gs' ms'] c'].
    destruct IH as (H1 & H2 & H3 & H4 & H5 & H6 & H7 & H8 & H9 & H10 & H11 & Hrows).
    do 11 (split; [done|]). intros s. destruct (Hrows s) as [Ha Hk]. cbn [fmap list_fmap]. split.
    + intros [->|Hs]%elem_of_cons Hn; [done | by apply Ha].
    + intros [Hn|Hs]; apply Hk; [left; set_solver | by right].
  - destruct (drop_graph_spec c (t_slug t) Hok Hatt) as (Hok1 & Hg1 & He1 & Hlv1).
    match goal with |- context [drop_tracks inc ts ?g ?m ?x] => set (gs1 := g); set (ms1 := m); set (c1 := x) end.
    assert (Hdead : Forall lane_dead (closedLanes c) -> Forall lane_dead (closedLanes c1)).
    { intros Hd. cbn. destruct (audioLanes c !! t_slug t); [|done].
      apply Forall_app. split; [done|]. constructor; [apply close_lane_dead|constructor]. }
    assert (Hrow1 : absent (row gs1 ms1 c1 (t_slug t))).
    { unfold absent, row. cbn. rewrite Hg1, He1, decide_True by done. repeat split; apply lookup_delete_eq. }
    assert (Hkeep : forall s, s <> t_slug t -> row gs1 ms1 c1 s = row gs ms c s).
    { intros s Hs. unfold row, gs1, ms1. cbn. rewrite Hg1, He1, decide_False by done.
      by rewrite !lookup_delete_ne by done. }
    assert (Hatt1 : lanes_attached c1).
    { intros s Hs. cbn in *. rewrite He1. case_decide as Hne; [done|].
      apply Hatt. by rewrite lookup_delete_ne in Hs by congruence. }
    specialize (IH gs1 ms1 c1 Hok1 Hatt1). destruct (drop_tracks inc ts gs1 ms1 c1) as [[gs' ms'] c'].
    destruct IH as (H1 & H2 & H3 & H4 & H5 & H6 & H7 & H8 & H9 & H10 & H11 & Hrows).
    do 9 (split; [done|]). split; [auto|]. split; [by rewrite H11|].
    intros s. destruct (Hrows s) as [Ha Hk]. cbn [fmap list_fmap].
    destruct (decide (s ∈ t_slug <$> ts)) as [Hs|Hs].
    + split; [auto|]. intros [Hn|Hi]; [set_solver|]. rewrite Hk by by right. apply Hkeep. by intros ->.
    + rewrite Hk by by left. split.
      * intros [->|]%elem_of_cons _; [exact Hrow1|done].
      * intros [Hn|Hi]; apply Hkeep; [set_solver | by intros ->].
Qed.

(** The lane of a track that has received nothing. *)
Definition fresh_lane c (s : jstr) : Prop :=
  forall lane, audioLanes c !! s = Some lane -> decoder lane = OpusLane.fresh.

Lemma ensureLane_new slug n c :
  mx_ok (graph c) -> mx_slot (graph c) slug = mkSlot (Some n) false -> audioLanes c !! slug = None ->
  exists l g, (ensureLane webcodecs slug c).2 = with_lanes l (closedLanes c) (with_graph g c)
    /\ mx_ok g /\ mx_gains g = mx_gains (graph c) /\ mx_levels g = mx_levels (graph c)
    /\ lane_ok webcodecs (l !! slug) (mx_slot g slug)
    /\ (forall lane, l !! slug = Some lane -> decoder lane = OpusLane.fresh)
    /\ (forall s, s <> slug -> l !! s = audioLanes c !! s /\ mx_slot g s = mx_slot (graph c) s).
Proof.
  intros Hok He Hl. unfold ensureLane, mx_entry. rewrite Hl, He. cbn [slot_entry]. unfold createOpusDecoder.
  destruct webcodecs; cbn [negb].
  - destruct (mx_lane_spec (graph c) slug n Hok He) as (H1 & H2 & H3 & H4).
    eexists _, _. split; [done|]. do 3 (split; [done|]). rewrite lookup_insert_eq, H3, decide_True by done.
    split; [done|]. split; [by intros lane [= <-]|].
    intros s Hs. by rewrite lookup_insert_ne, H3, decide_False.
  - exists (audioLanes c), (graph c). split; [by destruct c|]. rewrite Hl, He. by split_and!.
Qed.

Lemma add_track_spec t st gs ms c :
  mx_ok (graph c) -> usable (t_slug t) st -> absent (row gs ms c (t_slug t)) ->
  exists c',
    add_track webcodecs t st c = Ok c' /\ mx_ok (graph c') /\ same_frame c c'
    /\ settings c' = <[t_slug t := st]> (settings c) /\ fresh_lane c' (t_slug t)
    /\ present webcodecs (t_slug t)
         (row (<[t_slug t := Prefs.gain st]> gs) (<[t_slug t := Prefs.muted st]> ms) c' (t_slug t))
    /\ forall s, s <> t_slug t ->
         row (<[t_slug t := Prefs.gain st]> gs) (<[t_slug t := Prefs.muted st]> ms) c' s = row gs ms c s.
Proof.
  intros Hok (Hv & Hx & Hu & Hdef) (A1 & A2 & A3 & A4 & A5 & A6). cbn in A1, A2, A3, A4, A5, A6.
  unfold add_track. cbn [with_settings graph].
  destruct (mx_add_spec (graph c) (t_slug t) Hok) as (n & g1 & -> & Hok1 & He1 & Hg1 & Hlv1).
  cbn [mbind result_bind].
  destruct (mx_set_spec g1 (t_slug t) _ Hok1 Hx) as (g2 & -> & Hok2 & He2 & Hg2 & Hlv2). rewrite Hu in Hg2.
  cbn [mbind result_bind].
  match goal with |- context [ensureLane webcodecs (t_slug t) ?x] => set (c1 := x) end.
  destruct (ensureLane_new (t_slug t) n c1) as (l & g3 & -> & Hok3 & Hg3 & Hlv3 & Hlane & Hfresh & Hothers).
  { done. }
  { cbn. by rewrite He2, He1, decide_True, A6. }
  { done. }
  cbn in Hg3, Hlv3. eexists. do 2 (split; [done|]).
  split; [split_and!; try done; cbn; by rewrite Hlv3, Hlv2, Hlv1|]. split; [done|]. split; [done|]. split.
  - exists (Prefs.gain st), (Prefs.muted st), st. cbn.
    rewrite !lookup_insert_eq, Hg3, Hg2, lookup_alter_eq, Hg1, A4, lookup_insert_eq.
    split_and!; try done. intros Hc. by destruct (Hdef Hc).
  - intros s Hs. destruct (Hothers s Hs) as [Ho1 Ho2]. unfold row. cbn. rewrite Ho1, Ho2. cbn.
    rewrite !lookup_insert_ne, Hg3, Hg2, lookup_alter_ne, Hg1, A4, lookup_insert_ne by done.
    by rewrite He2, He1, decide_False by done.
Qed.

(** A new track, by the setting it was given. *)
Definition started_at (gs : gmap jstr (option num)) (ms : gmap jstr (option bool)) c
    (ts : list TrackInfo) (s : jstr) : Prop :=
  exists st, chosen streamerPrefs ts s st /\ gs !! s = Some (Prefs.gain st)
    /\ ms !! s = Some (Prefs.muted st) /\ settings c !! s = Some st /\ fresh_lane c s.

Lemma add_tracks_spec ts gs ms c :
  mx_ok (graph c) -> Forall track_ok ts ->
  (forall s, settings c !! s = None -> absent (row gs ms c s)) ->
  exists gs' ms' c', add_tracks webcodecs globalPrefs streamerPrefs ts gs ms c = Ok (gs', ms', c')
    /\ mx_ok (graph c') /\ same_frame c c'
    /\ forall s,
        (~ (s ∈ t_slug <$> ts) \/ is_Some (settings c !! s) -> row gs' ms' c' s = row gs ms c s)
        /\ (s ∈ t_slug <$> ts -> settings c !! s = None ->
            present webcodecs s (row gs' ms' c' s) /\ started_at gs' ms' c' ts s).
Proof.
  intros Hok Hts. revert gs ms c Hok. induction Hts as [|t ts Ht Hts IH]; intros gs ms c Hok Habs; cbn [add_tracks].
  { exists gs, ms, c. split; [done|]. split; [done|]. split; [by repeat split|].
    intros s. split; [done|]. by intros ?%not_elem_of_nil. }
  destruct (settings c !! t_slug t) as [st0|] eqn:Est.
  - destruct (IH gs ms c Hok Habs) as (gs' & ms' & c' & Heq & Hok' & Hsame & Hrows).
    exists gs', ms', c'. split; [done|]. split; [done|]. split; [done|].
    intros s. destruct (Hrows s) as [Hk Hn]. cbn [fmap list_fmap]. split.
    + intros [Hs|Hs]; apply Hk; [left; set_solver | by right].
    + intros [->|Hs]%elem_of_cons Hnone; [congruence|].
      destruct (Hn Hs Hnone) as (Hp & st & Hch & Hrest). split; [done|].
      exists st. split; [by apply chosen_cons | done].
  - pose proof (chosen_here streamerPrefs t ts Hstreamer Ht) as Hch. set (st := setting_of _) in *.
    destruct (add_track_spec t st gs ms c Hok (proj1 Hch) (Habs _ Est))
      as (c2 & -> & Hok2 & Hsame2 & Hset & Hfresh & Hnew & Hkeep).
    cbn [mbind result_bind].
    set (gs1 := <[t_slug t := Prefs.gain st]> gs) in *. set (ms1 := <[t_slug t := Prefs.muted st]> ms) in *.
    destruct (IH gs1 ms1 c2 Hok2) as (gs' & ms' & c' & Heq & Hok' & Hsame & Hrows).
    { intros s. rewrite Hset. destruct (decide (s = t_slug t)) as [->|Hs]; [by rewrite lookup_insert_eq|].
      rewrite Hkeep, lookup_insert_ne by done. apply Habs. }
    exists gs', ms', c'. split; [done|]. split; [done|]. split; [by eapply same_frame_trans|].
    intros s. destruct (Hrows s) as [Hk Hn]. cbn [fmap list_fmap].
    destruct (decide (s = t_slug t)) as [->|Hs].
    + assert (Hrow : row gs' ms' c' (t_slug t) = row gs1 ms1 c2 (t_slug t)).
      { apply Hk. right. rewrite Hset, lookup_insert_eq. by eexists. }
      split; [intros [Hx|[x Hx]]; [by destruct Hx; apply list_elem_of_here|congruence]|]. intros _ _. rewrite Hrow. split; [done|].
      unfold row in Hrow. injection Hrow as E1 E2 E3 _ E5 _. exists st. split; [exact Hch|].
      unfold fresh_lane. rewrite E1, E2, E3, E5, Hset. unfold gs1, ms1. by rewrite !lookup_insert_eq.
    + split.
      * intros Hc. rewrite Hk, Hkeep; [done|done|]. destruct Hc as [Hc|Hc]; [left; intros ?; by apply Hc, list_elem_of_further|right].
        by rewrite Hset, lookup_insert_ne.
      * intros [->|Hin]%elem_of_cons Hnone; [done|]. destruct (Hn Hin) as (Hp & st' & Hch' & Hrest).
        { by rewrite Hset, lookup_insert_ne. }
        split; [done|]. exists st'. split; [by apply chosen_cons|done].
Qed.

Lemma indexTracks_spec ts : NoDup (t_id <$> ts) -> indexed (foldl (fun ids t => <[t_id t := t_slug t]> ids) ∅ ts) ts.
Proof.
  induction ts as [|t ts IH] using rev_ind; intros Hnd id slug.
  { cbn. rewrite lookup_empty. split; [done|]. intros (t & Ht & _). by apply not_elem_of_nil in Ht. }
  rewrite fmap_app in Hnd. apply NoDup_app in Hnd as (Hnd & Hd & _). cbn in Hd.
  rewrite foldl_app. cbn [foldl]. rewrite lookup_insert. case_decide as Hid.
  - split.
    + intros [= <-]. exists t. split; [set_solver|done].
    + intros (t' & [Ht'|Ht']%elem_of_app & Hi & <-).
      * exfalso. apply (Hd (t_id t')); [by apply list_elem_of_fmap_2|]. rewrite Hi, <- Hid. set_solver.
      * apply list_elem_of_singleton in Ht' as ->. done.
  - rewrite (IH Hnd id slug). split.
    + intros (t' & Ht' & Hr). exists t'. split; [set_solver|done].
    + intros (t' & [Ht'|Ht']%elem_of_app & Hi & Hs); [by exists t'|].
      apply list_elem_of_singleton in Ht' as ->. done.
Qed.

Lemma inv_attached c : content_inv webcodecs c -> lanes_attached c.
Proof.
  intros [_ _ Hr _ _ _ _] s Hs. destruct (Hr s) as [Hpr Hab].
  destruct (decide (s ∈ t_slug <$> tracks c)) as [Hin|Hin].
  - destruct (Hpr Hin) as (_ & _ & _ & _ & _ & _ & _ & _ & _ & H7 & _). cbn in H7. rewrite Hs in H7. apply H7.
  - apply (Hab Hin).
Qed.

(** The rows of the controller itself. *)
Definition row_of c (s : jstr) : Row := row (gains c) (muted c) c s.

(** Both loops of [applyTrackList]: afterwards the rows are those of the new list. *)
Lemma track_loops_spec incoming c :
  mx_ok (graph c) -> lanes_attached c -> consistent webcodecs (gains c) (muted c) c (t_slug <$> tracks c) ->
  Forall track_ok incoming ->
  exists gs ms c',
    (let '(gs1, ms1, c1) := drop_tracks (t_slug <$> incoming) (tracks c) (gains c) (muted c) c in
     add_tracks webcodecs globalPrefs streamerPrefs incoming gs1 ms1 c1) = Ok (gs, ms, c')
    /\ mx_ok (graph c') /\ (Forall lane_dead (closedLanes c) -> Forall lane_dead (closedLanes c'))
    /\ broadcastGain c' = broadcastGain c /\ offsetMs c' = offsetMs c /\ idToSlug c' = idToSlug c
    /\ panel c' = panel c /\ mx_levels (graph c') = mx_levels (graph c)
    /\ consistent webcodecs gs ms c' (t_slug <$> incoming)
    /\ forall s,
        (s ∈ t_slug <$> incoming -> s ∈ t_slug <$> tracks c -> row gs ms c' s = row_of c s)
        /\ (s ∈ t_slug <$> incoming -> ~ (s ∈ t_slug <$> tracks c) -> started_at gs ms c' incoming s).
Proof.
  intros Hg Hatt Hr Hfine.
  pose proof (drop_tracks_spec (t_slug <$> incoming) (tracks c) (gains c) (muted c) c Hg Hatt) as Hdrop.
  destruct (drop_tracks _ (tracks c) (gains c) (muted c) c) as [[gs1 ms1] c1].
  destruct Hdrop as (Hok1 & D2 & D3 & D4 & D5 & D6 & D7 & D8 & D9 & Hdead1 & D10 & Hrows1).
  (* the settings after the first loop are those of the tracks that stay *)
  assert (Hkept : forall s, s ∈ t_slug <$> incoming -> s ∈ t_slug <$> tracks c -> is_Some (settings c1 !! s)).
  { intros s Hin Hold. destruct (Hrows1 s) as [_ Hk]. specialize (Hk (or_intror Hin)).
    destruct (Hr s) as [Hpr _]. destruct (Hpr Hold) as (v & b & st & _ & _ & H3 & _).
    injection Hk as _ _ E3 _ _ _. cbn in H3. rewrite E3, H3. by eexists. }
  assert (Hgone : forall s, ~ (s ∈ t_slug <$> incoming) \/ ~ (s ∈ t_slug <$> tracks c) -> absent (row gs1 ms1 c1 s)).
  { intros s Hs. destruct (Hrows1 s) as [Ha Hk]. destruct (decide (s ∈ t_slug <$> tracks c)) as [Hold|Hold].
    - destruct Hs as [Hs|Hs]; [by apply Ha|done].
    - rewrite Hk by by left. by apply Hr. }
  destruct (add_tracks_spec incoming gs1 ms1 c1 Hok1 Hfine) as (gs2 & ms2 & c2 & -> & Hok2 & Hsame & Hrows2).
  { intros s Hnone. apply Hgone. destruct (decide (s ∈ t_slug <$> incoming)) as [Hin|Hin]; [right|by left].
    intros Hold. destruct (Hkept s Hin Hold) as [x Hx]. congruence. }
  destruct Hsame as (S1 & S2 & S3 & S4 & S5 & S6 & S7 & S8 & S9 & S10).
  assert (Hrow2 : forall s, s ∈ t_slug <$> incoming -> s ∈ t_slug <$> tracks c -> row gs2 ms2 c2 s = row_of c s).
  { intros s Hin Hold. destruct (Hrows2 s) as [Hk _]. rewrite Hk by (right; by apply Hkept).
    destruct (Hrows1 s) as [_ Hk1]. apply Hk1. by right. }
  assert (Hnew : forall s, s ∈ t_slug <$> incoming -> ~ (s ∈ t_slug <$> tracks c) -> settings c1 !! s = None)
    by (intros s _ Hold; apply (Hgone s (or_intror Hold))).
  exists gs2, ms2, c2. split; [done|]. split; [done|]. rewrite S1, S5, S6, S7, S8, S10.
  do 6 (split; [done|]). split.
  - intros s. destruct (Hrows2 s) as [Hk Hn]. split; intros Hin; [|rewrite Hk by (by left); apply Hgone; by left].
    destruct (decide (s ∈ t_slug <$> tracks c)) as [Hold|Hold]; [|by destruct (Hn Hin (Hnew s Hin Hold))].
    rewrite (Hrow2 s Hin Hold). by apply Hr.
  - intros s. split; [exact (Hrow2 s)|]. intros Hin Hold.
    destruct (Hrows2 s) as [_ Hn]. by destruct (Hn Hin (Hnew s Hin Hold)) as (_ & Hex).
Qed.

Lemma onTrackList_inv incoming c :
  content_inv webcodecs c -> event_ok (ETrackList incoming) c ->
  exists c', onTrackList webcodecs globalPrefs streamerPrefs incoming c = Ok c'
    /\ content_inv webcodecs c' /\ tracks c' = incoming
    /\ forall s,
        (s ∈ t_slug <$> incoming -> s ∈ t_slug <$> tracks c -> row_of c' s = row_of c s)
        /\ (s ∈ t_slug <$> incoming -> ~ (s ∈ t_slug <$> tracks c) ->
             started_at (gains c') (muted c') c' incoming s).
Proof.
  intros Hinv [Hnd Hfine]. pose proof (inv_attached c Hinv) as Hatt. destruct Hinv as [Hg Hts Hr Hd Hi Hlv Hp].
  unfold onTrackList, applyTrackList. set (c0 := indexTracks incoming c).
  destruct (track_loops_spec incoming c0 Hg Hatt Hr Hfine)
    as (gs & ms & c1 & Hrun & Hok & Hdead & Hb & Ho & Hids & Hpan & Hlev & Hcon & Hrows).
  destruct (drop_tracks _ (tracks c0) (gains c0) (muted c0) c0) as [[gs1 ms1] c2]. rewrite Hrun.
  cbn [mbind result_bind]. eexists. split; [done|]. split; [|split; [done|exact Hrows]].
  constructor; cbn; try done.
  - by apply Hdead.
  - rewrite Hids. by apply indexTracks_spec.
  - by rewrite Hlev, Hb, Ho.
  - rewrite Hpan, Hb, Ho. cbn. by rewrite Hp.
Qed.

(** Replacing the decoder of a lane. *)
Lemma update_lane_inv slug lane d c :
  content_inv webcodecs c -> audioLanes c !! slug = Some lane ->
  content_inv webcodecs (with_lanes (<[slug := mkAudioLane d (sched_dest lane) (sched_closed lane)]> (audioLanes c))
                           (closedLanes c) c).
Proof.
  intros [Hg Hts Hr Hd Hi Hlv Hp] Hl. constructor; cbn; try done.
  intros s. destruct (decide (s = slug)) as [->|Hne].
  - destruct (Hr slug) as [Hpr Hab]. split; intros Hs.
    + destruct (Hpr Hs) as (v & b & st & H1 & H2 & H3 & H4 & H5 & H6 & H7 & H8).
      exists v, b, st. cbn in *. rewrite Hl in H7. rewrite lookup_insert_eq. split_and!; try done; apply H7.
    + destruct (Hab Hs) as (_ & _ & _ & _ & A5 & _). cbn in A5. congruence.
  - unfold row. cbn. rewrite lookup_insert_ne by done. apply Hr.
Qed.

(** In a consistent state [ensureLane] changes nothing: it finds the lane of a
    track, or there is no WebCodecs, or no such track. *)
Lemma ensureLane_inv slug c :
  content_inv webcodecs c ->
  ensureLane webcodecs slug c = (audioLanes c !! slug, c).
Proof.
  intros [Hg Hts Hr Hd Hi Hlv Hp]. unfold ensureLane.
  destruct (audioLanes c !! slug) as [lane|] eqn:E; [done|].
  destruct (mx_entry (graph c) slug) as [n|] eqn:Ee; [|done].
  assert (Hdom : is_Some (mx_gains (graph c) !! slug)) by (apply mx_entry_dom; [done|by rewrite Ee]).
  destruct (Hr slug) as [Hpr Hab]. destruct (decide (slug ∈ t_slug <$> tracks c)) as [Hs|Hs].
  - destruct (Hpr Hs) as (v & b & st & _ & _ & _ & _ & _ & _ & H7 & _). cbn in H7. rewrite E in H7. cbn in H7.
    unfold createOpusDecoder. by rewrite (proj1 H7).
  - destruct (Hab Hs) as (_ & _ & _ & A4 & _). cbn in A4. rewrite A4 in Hdom. by destruct Hdom.
Qed.

(** Where a packet goes. *)
Lemma onAudio_known t frame c :
  content_inv webcodecs c -> webcodecs = true -> t ∈ tracks c ->
  exists lane, audioLanes c !! t_slug t = Some lane
    /\ mx_entry (graph c) (t_slug t) = Some (sched_dest lane)
    /\ onAudio webcodecs (t_id t) frame c
       = let '(d, e) := decode (f_payload frame) (f_seq frame) (decoder lane) in
         (with_lanes (<[t_slug t := mkAudioLane d (sched_dest lane) (sched_closed lane)]> (audioLanes c))
            (closedLanes c) c, e).
Proof.
  intros Hinv Hw Ht. pose proof Hinv as [_ Hts Hrows _ Hi _ _]. destruct (Hrows (t_slug t)) as [Hpr _].
  destruct (Hpr ltac:(by apply list_elem_of_fmap_2)) as (_ & _ & _ & _ & _ & _ & _ & _ & _ & H7 & _).
  unfold lane_ok in H7. cbn in H7. destruct (audioLanes c !! t_slug t) as [lane|] eqn:E; [|destruct H7; congruence].
  destruct H7 as (_ & Hslot & _). exists lane. split; [done|]. split; [unfold mx_entry; by rewrite Hslot|]. unfold onAudio.
  rewrite (proj2 (Hi (t_id t) (t_slug t)) (ex_intro _ t (conj Ht (conj eq_refl eq_refl)))).
  rewrite Forall_forall in Hts. destruct (Hts t Ht) as (_ & [Hlen _] & _).
  rewrite bool_decide_false by (intros Hnil; rewrite Hnil in Hlen; cbn in Hlen; lia).
  by rewrite (ensureLane_inv _ _ Hinv), E.
Qed.

Lemma onAudio_unknown trackID frame c :
  content_inv webcodecs c -> ~ (trackID ∈ t_id <$> tracks c) ->
  onAudio webcodecs trackID frame c = (c, None).
Proof.
  intros [_ _ _ _ Hi _ _] Hn. unfold onAudio. destruct (idToSlug c !! trackID) as [slug|] eqn:E; [|done].
  apply Hi in E as (t & Ht & Hid & _). destruct Hn. rewrite <- Hid. by apply list_elem_of_fmap_2.
Qed.

Lemma onAudio_inv trackID frame c :
  content_inv webcodecs c -> content_inv webcodecs (onAudio webcodecs trackID frame c).1.
Proof.
  intros Hinv. unfold onAudio. destruct (idToSlug c !! trackID) as [slug|]; [|done].
  case_bool_decide; [done|]. rewrite (ensureLane_inv slug c Hinv).
  destruct (audioLanes c !! slug) as [lane|] eqn:E; [|done].
  destruct (decode _ _ _) as [d e]. by apply update_lane_inv.
Qed.

Lemma onCodecError_inv slug c : content_inv webcodecs c -> content_inv webcodecs (onCodecError slug c).
Proof.
  intros Hinv. unfold onCodecError. destruct (audioLanes c !! slug) as [lane|] eqn:E; [|done].
  by apply update_lane_inv.
Qed.

Lemma mounted_inv g0 :
  mx_ok g0 -> mx_gains g0 = ∅ ->
  exists c, mounted g0 = Ok c /\ content_inv webcodecs c /\ tracks c = [] /\ closedLanes c = [].
Proof.
  intros Hok He. unfold mounted.
  destruct (mx_broadcast_spec g0 (of_dec false 2 (-1)) Hok) as (g1 & -> & Hok1 & Hs1 & Hg1 & Hl1); [by vm_compute|].
  cbn [mbind result_bind].
  destruct (mx_offset_spec g1 num0 Hok1) as (g2 & -> & Hok2 & Hs2 & Hg2 & Hl2); [done|].
  cbn [mbind result_bind]. eexists. split; [done|]. split; [|done].
  constructor; cbn; try done.
  - intros s. split; [by intros ?%not_elem_of_nil|]. intros _. unfold absent. cbn.
    rewrite Hg2, Hg1, He, Hs2, Hs1, !lookup_empty. split_and!; try done.
    apply mx_not_open; [done|]. by rewrite He.
  - intros id slug. rewrite lookup_empty. split; [done|]. by intros (t & ?%not_elem_of_nil & _).
  - by rewrite Hl2, Hl1.
Qed.

(** Decoded buffers and ended sources move no control and attach nothing. *)
Lemma audio_inv c g : content_inv webcodecs c -> mx_audio (graph c) g -> content_inv webcodecs (with_graph g c).
Proof.
  intros [Hg Hts Hr Hd Hi Hlv Hp] Ha. destruct (mx_audio_spec (graph c) g Hg Ha) as (Hok & Hgs & Hs & Hl).
  constructor; cbn; try done; [|by rewrite Hl].
  intros s. unfold row. cbn. rewrite Hgs, Hs. apply Hr.
Qed.

Lemma handle_inv e c :
  content_inv webcodecs c -> event_ok e c ->
  exists c', handle webcodecs channelID globalPrefs streamerPrefs e c = Ok c' /\ content_inv webcodecs c'.
Proof.
  intros Hinv Hok. destruct e as [l|id f|s v|s|s| | |v|ms|s]; cbn [handle].
  - destruct (onTrackList_inv l c Hinv Hok) as (c' & H1 & H2 & _). eauto.
  - eexists. split; [done|]. by apply onAudio_inv.
  - by apply onChange_inv.
  - by apply onMuteToggle_inv.
  - destruct (onSoloToggle_inv s c Hinv) as (c' & H1 & H2 & _). eauto.
  - destruct (onReset_inv c Hinv) as (c' & H1 & H2 & _). eauto.
  - eexists. split; [done|]. by destruct Hinv.
  - destruct (broadcast_offset_inv c (onBroadcastChange v) Hinv) as (c' & H1 & H2 & _); [by left; exists v|]. eauto.
  - destruct (broadcast_offset_inv c (onOffsetChange ms) Hinv) as (c' & H1 & H2 & _); [by right; exists ms|]. eauto.
  - eexists. split; [done|]. by apply onCodecError_inv.
Qed.

(** *** The stored mute flags *)

Definition not_solo (e : event) : Prop := match e with ESolo _ => False | _ => True end.

(** The flag in the settings is the panel's, solo apart. *)
Definition muted_synced (soloed : gset jstr) c : Prop :=
  forall s st, s ∉ soloed -> settings c !! s = Some st -> muted c !! s = Some (Prefs.muted st).

Lemma muted_synced_rows soloed c c' :
  (forall s, muted c' !! s = muted c !! s /\ settings c' !! s = settings c !! s) ->
  muted_synced soloed c -> muted_synced soloed c'.
Proof. intros Hs Hc s st. destruct (Hs s) as [-> ->]. apply Hc. Qed.

(** A setting is that of a track of the list. *)
Lemma settings_tracks c s st : content_inv webcodecs c -> settings c !! s = Some st -> s ∈ t_slug <$> tracks c.
Proof.
  intros [_ _ Hr _ _ _ _] Hst. destruct (decide (s ∈ t_slug <$> tracks c)) as [|Hn]; [done|].
  destruct (Hr s) as [_ Hab]. destruct (Hab Hn) as (_ & _ & A3 & _). cbn in A3. congruence.
Qed.

Lemma onTrackList_synced soloed l c c' :
  content_inv webcodecs c -> event_ok (ETrackList l) c ->
  onTrackList webcodecs globalPrefs streamerPrefs l c = Ok c' ->
  muted_synced soloed c -> muted_synced (soloed ∩ list_to_set (t_slug <$> l)) c'.
Proof.
  intros Hinv Hok Hh Hc. destruct (onTrackList_inv l c Hinv Hok) as (c1 & H1 & Hinv1 & Htr & Hrows).
  rewrite H1 in Hh. injection Hh as <-. intros s st Hs Hst. destruct (Hrows s) as [Hkeep Hnew].
  pose proof (settings_tracks c1 s st Hinv1 Hst) as Hin. rewrite Htr in Hin.
  destruct (decide (s ∈ t_slug <$> tracks c)) as [Hold|Hold].
  - specialize (Hkeep Hin Hold). unfold row_of, row in Hkeep. injection Hkeep as _ E2 E3 _ _ _.
    rewrite E2. apply Hc; [|congruence]. intros Hd. apply Hs, elem_of_intersection. split; [done|].
    by apply elem_of_list_to_set.
  - destruct (Hnew Hin Hold) as (st' & _ & _ & H2 & H3 & _). rewrite H2. congruence.
Qed.

Lemma onMuteToggle_synced soloed slug c c' :
  onMuteToggle slug c = Ok c' -> muted_synced soloed c -> muted_synced (soloed ∖ {[slug]}) c'.
Proof.
  unfold onMuteToggle. intros (g & _ & [= <-])%bind_Ok_inv Hc s st. cbn. intros Hs.
  destruct (decide (s = slug)) as [->|Hne].
  - destruct (settings c !! slug) as [st0|] eqn:E; cbn; [|congruence]. rewrite !lookup_insert_eq. by intros [= <-].
  - destruct (settings c !! slug) as [st0|]; cbn; rewrite !lookup_insert_ne by done; apply Hc; set_solver.
Qed.

Lemma onReset_synced soloed c c' :
  content_inv webcodecs c -> onReset globalPrefs c = Ok c' -> muted_synced soloed c'.
Proof.
  intros Hinv Hh. destruct (onReset_inv c Hinv) as (c1 & H1 & Hinv1 & Htr & _ & Hrows).
  rewrite H1 in Hh. injection Hh as <-. intros s st _ Hst.
  pose proof (settings_tracks c1 s st Hinv1 Hst) as Hin. rewrite Htr in Hin.
  destruct (Hrows s Hin) as (st' & _ & _ & H2 & H3 & _). rewrite H2. congruence.
Qed.

Lemma onChange_synced soloed slug v c c' :
  onChange slug v c = Ok c' -> muted_synced soloed c -> muted_synced soloed c'.
Proof.
  unfold onChange. intros (g & _ & [= <-])%bind_Ok_inv Hc s st Hs. cbn.
  destruct (settings c !! slug) as [st0|] eqn:E; cbn; [|by apply Hc].
  destruct (decide (s = slug)) as [->|Hne].
  - rewrite lookup_insert_eq. intros [= <-]. cbn. by apply Hc.
  - rewrite lookup_insert_ne by done. by apply Hc.
Qed.

Lemma handle_synced soloed e c c' :
  content_inv webcodecs c -> event_ok e c ->
  handle webcodecs channelID globalPrefs streamerPrefs e c = Ok c' ->
  muted_synced soloed c -> muted_synced (soloed_after e c soloed) c'.
Proof.
  intros Hinv Hok Hh Hc. destruct e as [l|id f|s v|s|s| | |v|ms|s]; cbn [handle soloed_after] in *.
  - by apply (onTrackList_synced soloed l c).
  - injection Hh as <-. revert Hc. apply muted_synced_rows. intros s. unfold onAudio.
    destruct (idToSlug c !! id) as [slug|]; [|done]. case_bool_decide; [done|].
    rewrite (ensureLane_inv slug c Hinv). destruct (audioLanes c !! slug); [|done].
    by destruct (decode _ _ _).
  - by eapply onChange_synced.
  - by eapply onMuteToggle_synced.
  - destruct (onSoloToggle_inv s c Hinv) as (c1 & H1 & Hinv1 & Htr & _).
    rewrite H1 in Hh. injection Hh as <-. intros s' st Hs' Hst. destruct Hs'.
    apply elem_of_list_to_set. rewrite <- Htr. by apply (settings_tracks c1 s' st).
  - by eapply onReset_synced.
  - by injection Hh as <-.
  - destruct (broadcast_offset_inv c (onBroadcastChange v) Hinv) as (c1 & H1 & _ & _ & Hm & Hs & _); [left; eauto|].
    rewrite H1 in Hh. injection Hh as <-. revert Hc. apply muted_synced_rows. by rewrite Hm, Hs.
  - destruct (broadcast_offset_inv c (onOffsetChange ms) Hinv) as (c1 & H1 & _ & _ & Hm & Hs & _); [right; eauto|].
    rewrite H1 in Hh. injection Hh as <-. revert Hc. apply muted_synced_rows. by rewrite Hm, Hs.
  - injection Hh as <-. revert Hc. apply muted_synced_rows. intros s'. unfold onCodecError.
    by destruct (audioLanes c !! s).
Qed.

Lemma mounted_synced g0 c soloed : mounted g0 = Ok c -> muted_synced soloed c.
Proof.
  unfold mounted. intros (g1 & _ & (g2 & _ & [= <-])%bind_Ok_inv)%bind_Ok_inv s st _. cbn. by rewrite lookup_empty.
Qed.

Lemma history_inv g0 soloed c :
  mx_ok g0 -> mx_gains g0 = ∅ ->
  history webcodecs channelID globalPrefs streamerPrefs g0 soloed c ->
  content_inv webcodecs c /\ muted_synced soloed c.
Proof.
  intros Hok He. induction 1 as [c Hm|soloed c e c' _ [IH Hs] Hev Hh|soloed c g _ [IH Hs] Ha].
  - split; [|by eapply mounted_synced].
    destruct (mounted_inv g0 Hok He) as (c1 & H1 & H2 & _). rewrite H1 in Hm. by injection Hm as <-.
  - split; [|by eapply handle_synced].
    destruct (handle_inv e c IH Hev) as (c1 & H1 & H2). rewrite H1 in Hh. by injection Hh as <-.
  - split; [by apply audio_inv|exact Hs].
Qed.

(** Every reachable state has a history, without solo an empty one. *)
Lemma reachable_history allowed g0 c :
  reachable webcodecs channelID globalPrefs streamerPrefs allowed g0 c ->
  exists soloed, history webcodecs channelID globalPrefs streamerPrefs g0 soloed c.
Proof.
  induction 1 as [c Hm|c e c' _ [d IH] _ Hev Hh|c g _ [d IH] Ha]; eexists;
    [by apply hist_mounted|by eapply hist_event|by apply hist_audio].
Qed.

Lemma not_solo_history g0 c :
  reachable webcodecs channelID globalPrefs streamerPrefs not_solo g0 c ->
  history webcodecs channelID globalPrefs streamerPrefs g0 ∅ c.
Proof.
  clear Hglobal Hstreamer.
  induction 1 as [c Hm|c e c' _ IH He Hev Hh|c g _ IH Ha]; [by apply hist_mounted| |by apply hist_audio].
  replace (∅ : gset jstr) with (soloed_after e c ∅); [by eapply hist_event|].
  destruct e; try done; cbn [soloed_after]; set_solver.
Qed.

Lemma controller_inv allowed g0 c :
  mx_ok g0 -> mx_gains g0 = ∅ ->
  reachable webcodecs channelID globalPrefs streamerPrefs allowed g0 c -> content_inv webcodecs c.
Proof. intros Hok He [d Hr]%reachable_history. by apply (history_inv g0 d c). Qed.

(** The settings of a consistent state are preferences, unless a track is
    called "constructor". *)
Lemma settings_fine c :
  content_inv webcodecs c -> ~ (js "constructor" ∈ t_slug <$> tracks c) -> prefs_fine (settings c).
Proof.
  intros Hinv Hne s st Hst. pose proof (settings_tracks c s st Hinv Hst) as Hin.
  destruct Hinv as [_ _ Hr _ _ _ _]. destruct (Hr s) as [Hpr _].
  destruct (Hpr Hin) as (v & b & st' & _ & _ & H3 & H4 & H5 & _ & _ & H8). cbn in H3.
  assert (st' = st) as -> by congruence. destruct H8 as ([x Hx] & _ & [b' Hb']); [congruence|].
  exists x, b'. split; [congruence|]. split; [by apply H5|done].
Qed.
End Lemmas.

(** ** A concrete session for the witnesses *)

Definition demo_tracks : list TrackInfo :=
  [mkTrack 1 (js "mic") (js "mic") (js "Mic"); mkTrack 3 (js "co-host") CUSTOM_CATEGORY (js "Co-host")].

Definition demo_events : list event :=
  [ETrackList demo_tracks; EChange (js "mic") (of_dec false 8 (-1)); EMute (js "co-host"); ESave].

Definition first_deck : Deck := new_deck first_graph.

Definition demo_handle : event -> Content Deck -> result (Content Deck) :=
  handle true (js "twitch:foo") ∅ ∅.

Fixpoint run_events (es : list event) (c : Content Deck) : result (Content Deck) :=
  match es with
  | [] => Ok c
  | e :: es => c' ← demo_handle e c; run_events es c'
  end.

Definition blank : Content Deck :=
  mkContent first_deck ∅ ∅ [] [] ∅ ∅ num0 num0 ∅ (mkPanel [] ∅ ∅ num0 num0) [].
Definition get_ok {A} (d : A) (r : result A) : A := match r with Ok a => a | Throw _ => d end.
Definition demo_start : Content Deck := get_ok blank (mounted first_deck).
Definition demo_content : Content Deck := get_ok blank (run_events demo_events demo_start).

Lemma first_deck_ok : mx_ok first_deck /\ mx_gains first_deck = ∅.
Proof. apply (new_deck_ok ∅ {[7]} 7). by vm_compute. Qed.

Lemma empty_fine : prefs_fine ∅.
Proof. intros k st. by rewrite lookup_empty. Qed.

Lemma demo_tracks_fine : NoDup (t_id <$> demo_tracks) /\ Forall track_ok demo_tracks.
Proof. split; by apply (bool_decide_unpack _); vm_compute. Qed.

(** A run of events that are all possible. *)
Fixpoint events_ok (es : list event) (c : Content Deck) : Prop :=
  match es with
  | [] => True
  | e :: es => event_ok e c /\ events_ok es (get_ok blank (demo_handle e c))
  end.

Lemma run_events_reachable allowed es c c' :
  reachable true (js "twitch:foo") ∅ ∅ allowed first_deck c ->
  Forall allowed es -> events_ok es c -> run_events es c = Ok c' ->
  reachable true (js "twitch:foo") ∅ ∅ allowed first_deck c'.
Proof.
  intros Hc Hall. revert c Hc. induction Hall as [|e es Ha _ IH]; intros c Hc Hok Hr; cbn in Hr.
  - by injection Hr as <-.
  - destruct Hok as [He Hok]. apply bind_Ok_inv in Hr as (c1 & H1 & H2).
    rewrite H1 in Hok. eapply IH; [|exact Hok|exact H2]. by eapply reach_event.
Qed.

Lemma demo_content_reachable : reachable true (js "twitch:foo") ∅ ∅ not_solo first_deck demo_content.
Proof.
  apply (run_events_reachable _ demo_events demo_start).
  - apply reach_mounted. by vm_compute.
  - repeat constructor.
  - cbn [events_ok demo_events]. split; [apply demo_tracks_fine|].
    split; [cbn [event_ok]; split; [by apply (bool_decide_unpack _); vm_compute | by vm_compute]|].
    split; [cbn [event_ok]; by apply (bool_decide_unpack _); vm_compute|]. done.
  - by vm_compute.
Qed.

Lemma reachable_weaken {G} `{Mixer G} wc ch gp sp (allowed allowed' : event -> Prop) g0 c :
  (forall e, allowed e -> allowed' e) ->
  reachable wc ch gp sp allowed g0 c -> reachable wc ch gp sp allowed' g0 c.
Proof. intros Hsub. induction 1; [by apply reach_mounted| |by apply reach_audio]. eapply reach_event; eauto. Qed.

(** ** Properties *)

Section Properties.
Context {G : Type} `{Mixer G}.
Context (webcodecs : bool) (channelID : jstr) (globalPrefs streamerPrefs : Prefs).

(** C8: panel, settings and graph agree.  In every state of the controller the
    graph has exactly the tracks of the last track list; each of them is heard
    with its slider's gain, or with 0 when its mute flag is set; its setting has
    the slider's gain, and the mute flag unless a solo changed the flag since it
    was last toggled, reset or loaded ([soloed]); the broadcast gain and the
    offset of the graph are the panel's, clamped; the panel displays the
    controller's state; and with WebCodecs each track has one open lane playing
    into its own entry node, all other lanes having been closed.  A track called
    "constructor" may have no slider value or flag; [heard_of] is its gain. *)
Theorem controller_consistent (g0 : G) (soloed : gset jstr) (c : Content G) :
  prefs_fine globalPrefs -> prefs_fine streamerPrefs -> mx_ok g0 -> mx_gains g0 = ∅ ->
  history webcodecs channelID globalPrefs streamerPrefs g0 soloed c ->
  panel c = mkPanel (tracks c) (gains c) (muted c) (broadcastGain c) (offsetMs c)
  /\ mx_levels (graph c) = (fround (clamp01 (Some (broadcastGain c))), clamp_offset (offsetMs c))
  /\ Forall lane_dead (closedLanes c)
  /\ forall s,
      (s ∈ t_slug <$> tracks c -> exists v b st,
         gains c !! s = Some v /\ muted c !! s = Some b /\ settings c !! s = Some st
         /\ Prefs.gain st = v /\ (s ∉ soloed -> Prefs.muted st = b)
         /\ mx_gains (graph c) !! s = Some (heard_of v b)
         /\ (s <> js "constructor" -> is_Some v /\ is_Some b)
         /\ (webcodecs = true -> exists lane, audioLanes c !! s = Some lane
               /\ mx_entry (graph c) s = Some (sched_dest lane) /\ sched_closed lane = false))
      /\ (~ (s ∈ t_slug <$> tracks c) ->
           settings c !! s = None /\ mx_gains (graph c) !! s = None /\ audioLanes c !! s = None).
Proof.
  intros Hgp Hsp Hok He Hr.
  destruct (history_inv webcodecs channelID globalPrefs streamerPrefs Hgp Hsp _ _ _ Hok He Hr)
    as [[_ _ Hrows Hd _ Hlv Hp] Hsync].
  split; [done|]. split; [done|]. split; [done|]. intros s. destruct (Hrows s) as [Hpr Hab]. split; intros Hs.
  - destruct (Hpr Hs) as (v & b & st & H1 & H2 & H3 & H4 & _ & H6 & H7 & H8). cbn in *.
    exists v, b, st. do 4 (split; [done|]). split.
    { intros Hn. pose proof (Hsync s st Hn H3). congruence. }
    split; [done|]. split; [intros Hc; by destruct (H8 Hc) as (? & ? & _)|]. intros Hw. unfold lane_ok in H7.
    destruct (audioLanes c !! s) as [lane|]; [|destruct H7; congruence]. destruct H7 as (_ & Hslot & Ho).
    exists lane. unfold mx_entry. by rewrite Hslot.
  - by destruct (Hab Hs) as (_ & _ & A3 & A4 & A5 & _).
Qed.

(** No handler throws.  In every reachable state every event that can
    happen is handled to the end. *)
Theorem handlers_total (allowed : event -> Prop) (g0 : G) (c : Content G) (e : event) :
  prefs_fine globalPrefs -> prefs_fine streamerPrefs -> mx_ok g0 -> mx_gains g0 = ∅ ->
  reachable webcodecs channelID globalPrefs streamerPrefs allowed g0 c -> event_ok e c ->
  exists c', handle webcodecs channelID globalPrefs streamerPrefs e c = Ok c'.
Proof.
  intros Hgp Hsp Hok He Hr Hev.
  destruct (handle_inv webcodecs channelID globalPrefs streamerPrefs Hgp Hsp e c) as (c' & Hc & _);
    [exact (controller_inv webcodecs channelID globalPrefs streamerPrefs Hgp Hsp _ _ _ Hok He Hr)|done|]. by exists c'.
Qed.

(** C13: a new track list.  Tracks that stay keep their slider, mute flag,
    setting, gain in the graph and lane; tracks that are new start from their
    effective setting with a decoder that has seen nothing; tracks that are gone leave nothing behind but closed
    lanes. *)
Theorem track_list_change (allowed : event -> Prop) (g0 : G) (c : Content G) (incoming : list TrackInfo) :
  prefs_fine globalPrefs -> prefs_fine streamerPrefs -> mx_ok g0 -> mx_gains g0 = ∅ ->
  reachable webcodecs channelID globalPrefs streamerPrefs allowed g0 c ->
  NoDup (t_id <$> incoming) -> Forall track_ok incoming ->
  exists c', onTrackList webcodecs globalPrefs streamerPrefs incoming c = Ok c'
    /\ tracks c' = incoming
    /\ Forall lane_dead (closedLanes c')
    /\ forall s,
      (s ∈ t_slug <$> incoming -> s ∈ t_slug <$> tracks c -> row_of c' s = row_of c s)
      /\ (s ∈ t_slug <$> incoming -> ~ (s ∈ t_slug <$> tracks c) ->
          exists t, t ∈ incoming /\ t_slug t = s
            /\ let eff := effectiveSetting s (t_category t) streamerPrefs globalPrefs in
               let st := setting_of eff in
               (s <> js "constructor" -> eff = Own st /\ is_Some (Prefs.gain st) /\ is_Some (Prefs.muted st))
               /\ gains c' !! s = Some (Prefs.gain st) /\ muted c' !! s = Some (Prefs.muted st)
               /\ settings c' !! s = Some st /\ fresh_lane c' s
               /\ mx_gains (graph c') !! s = Some (heard_of (Prefs.gain st) (Prefs.muted st)))
      /\ (~ (s ∈ t_slug <$> incoming) -> absent (row_of c' s)).
Proof.
  intros Hgp Hsp Hok He Hr Hnd Hfine.
  destruct (onTrackList_inv webcodecs globalPrefs streamerPrefs Hgp Hsp incoming c) as (c' & H1 & [_ _ Hrows' Hd _ _ _] & Htr & Hrows);
    [exact (controller_inv webcodecs channelID globalPrefs streamerPrefs Hgp Hsp _ _ _ Hok He Hr)|done|].
  exists c'. split; [done|]. split; [done|]. split; [done|]. intros s.
  destruct (Hrows s) as [Hkeep Hnew]. destruct (Hrows' s) as [Hpr Hab]. rewrite Htr in Hpr, Hab.
  split; [done|]. split; [|exact Hab]. intros Hin Hold.
  destruct (Hnew Hin Hold) as (st & ((_ & _ & _ & Hdef) & t & Ht & Hts & -> & Hown) & N1 & N2 & N3 & N4).
  exists t. do 2 (split; [done|]). split; [intros Hc; destruct (Hdef Hc); by rewrite <- Hown|].
  do 4 (split; [done|]).
  destruct (Hpr Hin) as (v & b & _ & P1 & P2 & _ & _ & _ & P6 & _). cbn in P1, P2, P6. congruence.
Qed.

(** C34: solo.  Soloing a track mutes every other track and unmutes it: it is
    heard at its slider and the others at 0.  Sliders stay; so do the settings,
    so a save afterwards stores the old mute flags; and soloing the same track
    again changes nothing (it does not revert). *)
Theorem solo_effect (allowed : event -> Prop) (g0 : G) (c : Content G) (slug : jstr) :
  prefs_fine globalPrefs -> prefs_fine streamerPrefs -> mx_ok g0 -> mx_gains g0 = ∅ ->
  reachable webcodecs channelID globalPrefs streamerPrefs allowed g0 c ->
  exists c1, onSoloToggle slug c = Ok c1
    /\ gains c1 = gains c
    /\ last (saved (onSaveStreamer channelID c1)) = Some (channelID, settings c)
    /\ (forall s v, s ∈ t_slug <$> tracks c -> gains c !! s = Some (Some v) ->
          muted c1 !! s = Some (Some (negb (bool_decide (s = slug))))
          /\ mx_gains (graph c1) !! s = Some (heard v (negb (bool_decide (s = slug)))))
    /\ exists c2, onSoloToggle slug c1 = Ok c2
        /\ forall s, s ∈ t_slug <$> tracks c -> row_of c2 s = row_of c1 s.
Proof.
  intros Hgp Hsp Hok He Hr.
  pose proof (controller_inv webcodecs channelID globalPrefs streamerPrefs Hgp Hsp _ _ _ Hok He Hr) as Hinv.
  destruct (onSoloToggle_inv webcodecs slug c Hinv) as (c1 & H1 & Hinv1 & T1 & G1 & S1 & _ & _ & M1).
  destruct (onSoloToggle_inv webcodecs slug c1 Hinv1) as (c2 & H2 & Hinv2 & T2 & G2 & S2 & A2 & E2 & M2).
  rewrite T1 in M2. exists c1. split; [done|]. split; [done|]. split; [cbn; by rewrite last_snoc, S1|]. split.
  - intros s v Hs Hv. split; [by apply M1|].
    apply (inv_heard webcodecs c1 s (Some v) (Some (solo_flag slug s))); [done|by rewrite T1|by rewrite G1|by apply M1].
  - exists c2. split; [done|]. intros s Hs.
    destruct (inv_slider webcodecs c1 s Hinv1) as [v Hv]; [by rewrite T1|].
    assert (Hg : mx_gains (graph c2) !! s = mx_gains (graph c1) !! s).
    { rewrite (inv_heard webcodecs c1 s v (Some (solo_flag slug s))), (inv_heard webcodecs c2 s v
        (Some (solo_flag slug s))); first [done | by rewrite ?T2, ?T1 | by rewrite ?G2 | auto]. }
    unfold row_of, row. by rewrite G2, S2, A2, E2, Hg, M2, M1.
Qed.

(** Reset.  [Reset] gives every track the slider and mute flag of the
    global preference of its category, or the default, as if the streamer had
    no preferences; the graph follows. *)
Theorem reset_effect (allowed : event -> Prop) (g0 : G) (c : Content G) :
  prefs_fine globalPrefs -> prefs_fine streamerPrefs -> mx_ok g0 -> mx_gains g0 = ∅ ->
  reachable webcodecs channelID globalPrefs streamerPrefs allowed g0 c ->
  exists c', onReset globalPrefs c = Ok c' /\ tracks c' = tracks c
    /\ forall s, s ∈ t_slug <$> tracks c ->
        exists t, t ∈ tracks c /\ t_slug t = s
          /\ let eff := effectiveSetting s (t_category t) ∅ globalPrefs in
             let st := setting_of eff in
             (s <> js "constructor" -> eff = Own st /\ is_Some (Prefs.gain st) /\ is_Some (Prefs.muted st))
             /\ settings c' !! s = Some st
             /\ gains c' !! s = Some (Prefs.gain st) /\ muted c' !! s = Some (Prefs.muted st)
             /\ mx_gains (graph c') !! s = Some (heard_of (Prefs.gain st) (Prefs.muted st)).
Proof.
  intros Hgp Hsp Hok He Hr.
  destruct (onReset_inv webcodecs globalPrefs streamerPrefs Hgp Hsp c) as (c' & H1 & _ & Ht & _ & Hrows); [exact (controller_inv webcodecs channelID globalPrefs streamerPrefs Hgp Hsp _ _ _ Hok He Hr)|].
  exists c'. split; [done|]. split; [done|]. intros s Hs.
  destruct (Hrows s Hs) as (st & ((_ & _ & _ & Hdef) & t & Ht' & Hts & -> & Hown) & R1 & R2 & R3 & R4).
  exists t. do 2 (split; [done|]). split; [intros Hc; destruct (Hdef Hc); by rewrite <- Hown|done].
Qed.

(** C19: "Save for this streamer" works.  As long as no track was soloed and none
    of the list is called "constructor", what is saved restores the mix:
    mounting again with the saved preferences and receiving the same tracks
    gives every track its slider, its mute flag and its gain in the graph. *)
Theorem save_and_return (g0 g1 : G) (c : Content G) :
  prefs_fine globalPrefs -> prefs_fine streamerPrefs ->
  mx_ok g0 -> mx_gains g0 = ∅ -> mx_ok g1 -> mx_gains g1 = ∅ ->
  reachable webcodecs channelID globalPrefs streamerPrefs not_solo g0 c ->
  NoDup (t_id <$> tracks c) -> ~ (js "constructor" ∈ t_slug <$> tracks c) ->
  exists prefs fresh c',
    last (saved (onSaveStreamer channelID c)) = Some (channelID, prefs)
    /\ mounted g1 = Ok fresh /\ onTrackList webcodecs globalPrefs prefs (tracks c) fresh = Ok c'
    /\ forall s, gains c' !! s = gains c !! s /\ muted c' !! s = muted c !! s
                 /\ mx_gains (graph c') !! s = mx_gains (graph c) !! s.
Proof.
  intros Hgp Hsp Hok He Hok1 He1 Hr Hnd Hne.
  destruct (history_inv webcodecs channelID globalPrefs streamerPrefs Hgp Hsp g0 ∅ c Hok He
    (not_solo_history _ _ _ _ _ _ Hr)) as [Hinv Hsync].
  destruct (mounted_inv webcodecs g1 Hok1 He1) as (fresh & Hf & Hfinv & Hft & _).
  pose proof (settings_fine webcodecs c Hinv Hne) as Hset. pose proof Hinv as [_ Hts Hrows _ _ _ _].
  destruct (onTrackList_inv webcodecs globalPrefs (settings c) Hgp Hset (tracks c) fresh Hfinv (conj Hnd Hts))
    as (c' & H1 & Hinv' & Htr & Hch).
  exists (settings c), fresh, c'. split; [cbn; by rewrite last_snoc|]. split; [done|]. split; [done|].
  intros s. destruct (Hrows s) as [Hpr Hab]. pose proof Hinv' as [_ _ Hrows' _ _ _ _].
  destruct (Hrows' s) as [_ Hab']. rewrite Htr in Hab'.
  destruct (decide (s ∈ t_slug <$> tracks c)) as [Hs|Hs].
  - destruct (Hpr Hs) as (v & b & st & P1 & P2 & P3 & P4 & _ & P6 & _). cbn in P1, P2, P3, P6.
    destruct (Hch s) as [_ Hnew]. destruct (Hnew Hs) as (st' & (_ & t & _ & _ & Hst & _) & N1 & N2 & _).
    { rewrite Hft. by intros ?%not_elem_of_nil. }
    unfold effectiveSetting in Hst. rewrite (get_prop_own _ _ _ P3) in Hst. cbn in Hst. subst st'.
    pose proof (Hsync s st ltac:(set_solver) P3) as Hm.
    rewrite (inv_heard webcodecs c' s (Prefs.gain st) (Prefs.muted st)); [|done|by rewrite Htr|done|done].
    rewrite P1, P6. split_and!; congruence.
  - destruct (Hab Hs) as (A1 & A2 & _ & A4 & _). destruct (Hab' Hs) as (B1 & B2 & _ & B4 & _).
    cbn in *. repeat split; congruence.
Qed.

(** Audio goes to its own track.  A packet whose track id is in the last
    track list is handed, with its sequence number, to the decoder of that
    track's lane, which plays into that track's entry node; any other packet is
    dropped.  Nothing else changes. *)
Theorem audio_routed (allowed : event -> Prop) (g0 : G) (c : Content G) (trackID : Z) (frame : Frame) :
  prefs_fine globalPrefs -> prefs_fine streamerPrefs -> mx_ok g0 -> mx_gains g0 = ∅ ->
  reachable webcodecs channelID globalPrefs streamerPrefs allowed g0 c -> webcodecs = true ->
  (forall t, t ∈ tracks c -> t_id t = trackID ->
     exists lane, audioLanes c !! t_slug t = Some lane
       /\ mx_entry (graph c) (t_slug t) = Some (sched_dest lane)
       /\ onAudio webcodecs trackID frame c
          = let '(d, e) := decode (f_payload frame) (f_seq frame) (decoder lane) in
            (with_lanes (<[t_slug t := mkAudioLane d (sched_dest lane) (sched_closed lane)]> (audioLanes c))
               (closedLanes c) c, e))
  /\ (~ (trackID ∈ t_id <$> tracks c) -> onAudio webcodecs trackID frame c = (c, None)).
Proof.
  intros Hgp Hsp Hok He Hr Hw.
  pose proof (controller_inv webcodecs channelID globalPrefs streamerPrefs Hgp Hsp _ _ _ Hok He Hr) as Hinv.
  split.
  - intros t Ht <-. by apply onAudio_known.
  - by apply onAudio_unknown.
Qed.
End Properties.

(** ** The properties on the concrete session *)

Lemma controller_consistent_witness :
  mx_gains (graph demo_content) !! js "mic" = Some (heard (of_dec false 8 (-1)) false)
  /\ Prefs.muted <$> settings demo_content !! js "co-host" = Some (Some true)
  /\ mx_gains (graph demo_content) !! js "music" = None.
Proof.
  destruct (controller_consistent true (js "twitch:foo") ∅ ∅ first_deck ∅ demo_content
              empty_fine empty_fine (proj1 first_deck_ok) (proj2 first_deck_ok)
              (not_solo_history _ _ _ _ _ _ demo_content_reachable)) as (_ & _ & _ & Hs).
  split; [|split].
  - destruct (Hs (js "mic")) as [Hp _].
    destruct Hp as (v & b & st & Hv & Hb & _ & _ & _ & Hg & _); [by apply (bool_decide_unpack _); vm_compute|].
    rewrite Hg. vm_compute in Hv, Hb. injection Hv as <-. injection Hb as <-. by vm_compute.
  - destruct (Hs (js "co-host")) as [Hp _].
    destruct Hp as (v & b & st & _ & Hb & Hst & _ & Hm & _); [by apply (bool_decide_unpack _); vm_compute|].
    assert (Eb : muted demo_content !! js "co-host" = Some (Some true)) by by vm_compute.
    pose proof (eq_trans (eq_sym Hb) Eb) as Hb'. apply (inj Some) in Hb'.
    refine (eq_trans (f_equal (fmap Prefs.muted) Hst) _).
    exact (f_equal Some (eq_trans (Hm (not_elem_of_empty _)) Hb')).
  - apply Hs. by apply (bool_decide_unpack _); vm_compute.
Defined.

Lemma handlers_total_witness :
  exists c', handle true (js "twitch:foo") ∅ ∅ (ESolo (js "mic")) demo_content = Ok c'.
Proof.
  apply (handlers_total true (js "twitch:foo") ∅ ∅ not_solo first_deck demo_content (ESolo (js "mic"))
           empty_fine empty_fine (proj1 first_deck_ok) (proj2 first_deck_ok) demo_content_reachable).
  cbn [event_ok]. by apply (bool_decide_unpack _); vm_compute.
Defined.

(** The second track leaves. *)
Lemma track_list_change_witness :
  exists c', onTrackList true ∅ ∅ (take 1 demo_tracks) demo_content = Ok c'
    /\ row_of c' (js "mic") = row_of demo_content (js "mic") /\ absent (row_of c' (js "co-host")).
Proof.
  destruct (track_list_change true (js "twitch:foo") ∅ ∅ not_solo first_deck demo_content (take 1 demo_tracks)
              empty_fine empty_fine (proj1 first_deck_ok) (proj2 first_deck_ok) demo_content_reachable)
    as (c' & Hc & _ & _ & Hs).
  { by apply (bool_decide_unpack _); vm_compute. }
  { apply Forall_take, demo_tracks_fine. }
  exists c'. split; [done|]. split.
  - apply Hs; by apply (bool_decide_unpack _); vm_compute.
  - apply Hs; by apply (bool_decide_unpack _); vm_compute.
Defined.

Lemma solo_effect_witness :
  exists c1, onSoloToggle (js "co-host") demo_content = Ok c1
    /\ muted c1 !! js "mic" = Some (Some true)
    /\ exists prefs, last (saved (onSaveStreamer (js "twitch:foo") c1)) = Some (js "twitch:foo", prefs)
         /\ Prefs.muted <$> prefs !! js "mic" = Some (Some false).
Proof.
  destruct (solo_effect true (js "twitch:foo") ∅ ∅ not_solo first_deck demo_content (js "co-host")
              empty_fine empty_fine (proj1 first_deck_ok) (proj2 first_deck_ok) demo_content_reachable)
    as (c1 & Hc & _ & Hsave & Hm & _).
  exists c1. split; [done|]. split.
  - apply (Hm (js "mic") (of_dec false 8 (-1))); [by apply (bool_decide_unpack _); vm_compute | by vm_compute].
  - exists (settings demo_content). split; [done|]. by vm_compute.
Defined.

Lemma reset_effect_witness :
  exists c', onReset ∅ demo_content = Ok c' /\ gains c' !! js "mic" = Some (Some half).
Proof.
  destruct (reset_effect true (js "twitch:foo") ∅ ∅ not_solo first_deck demo_content
              empty_fine empty_fine (proj1 first_deck_ok) (proj2 first_deck_ok) demo_content_reachable)
    as (c' & Hc & _ & Hs).
  exists c'. split; [done|].
  destruct (Hs (js "mic")) as (t & Ht & Hts & _ & _ & Hg & _);
    [by apply (bool_decide_unpack _); vm_compute|].
  rewrite Hg. assert (Hcat : t_category t = js "mic").
  { revert Ht Hts. change (tracks demo_content) with demo_tracks. by intros [->|[->|[]%not_elem_of_nil]%elem_of_cons]%elem_of_cons. }
  rewrite Hcat. by vm_compute.
Defined.

Lemma save_and_return_witness :
  exists prefs fresh c',
    last (saved (onSaveStreamer (js "twitch:foo") demo_content)) = Some (js "twitch:foo", prefs)
    /\ mounted first_deck = Ok fresh /\ onTrackList true ∅ prefs (tracks demo_content) fresh = Ok c'
    /\ forall s, gains c' !! s = gains demo_content !! s /\ muted c' !! s = muted demo_content !! s
                 /\ mx_gains (graph c') !! s = mx_gains (graph demo_content) !! s.
Proof.
  apply (save_and_return true (js "twitch:foo") ∅ ∅ first_deck first_deck demo_content
              empty_fine empty_fine (proj1 first_deck_ok) (proj2 first_deck_ok)
              (proj1 first_deck_ok) (proj2 first_deck_ok) demo_content_reachable);
    by apply (bool_decide_unpack _); vm_compute.
Defined.

Lemma audio_routed_witness :
  exists lane, audioLanes demo_content !! js "co-host" = Some lane
    /\ onAudio true 9 (mkFrame AudioOpus 9 0 1 480 [1; 2]) demo_content = (demo_content, None).
Proof.
  destruct (audio_routed true (js "twitch:foo") ∅ ∅ not_solo first_deck demo_content 3 (mkFrame AudioOpus 3 0 1 480 [1; 2])
              empty_fine empty_fine (proj1 first_deck_ok) (proj2 first_deck_ok) demo_content_reachable eq_refl) as [Hin _].
  destruct (audio_routed true (js "twitch:foo") ∅ ∅ not_solo first_deck demo_content 9 (mkFrame AudioOpus 9 0 1 480 [1; 2])
              empty_fine empty_fine (proj1 first_deck_ok) (proj2 first_deck_ok) demo_content_reachable eq_refl) as [_ Hout].
  destruct (Hin (mkTrack 3 (js "co-host") CUSTOM_CATEGORY (js "Co-host"))) as (lane & Hl & _);
    [by apply (bool_decide_unpack _); vm_compute|done|].
  exists lane. split; [exact Hl|]. apply Hout. by apply (bool_decide_unpack _); vm_compute.
Defined.
