(* ===== verification/Session.v ===== *)
(** * A viewer's session: the relay client driving the controller

    Models the calls of extension/src/content/index.ts that join the two: the
    callbacks given to [connect] and the panel's callbacks, over the world of
    RelayClient.v whose caller state is the controller of Content.v.  The
    theorems are about bytes: what arrives on the socket, and what it does to
    the panel, the graph and the decoders. *)
From stdpp Require Import relations.
From S2P Require Import Prelude JsString JsNumber Wire Messages RelayClient Prefs.
From S2P Require Import WebAudio Graph OpusLane Mixer Playback Content.

(** A handler as a callback.  In the states of a session no handler throws
    ([handlers_total]), so what a throw leaves behind does not matter. *)
Definition lift {G} (h : Content G -> result (Content G)) (c : Content G) : Content G * option Exn :=
  match h c with
  | Ok c' => (c', None)
  | Throw e => (c, Some e)
  end.

Section Session.
Context {G : Type} `{Mixer G}.
Context (webcodecs : bool) (channel : jstr) (globalPrefs streamerPrefs : Prefs).
Implicit Types (c : Content G) (w : World (Content G)).

(** The object passed to [connect]; three of its members only log. *)
Definition relay_events : RelayEvents (Content G) := {|
  RelayClient.onTrackList := Some (fun incoming => lift (Content.onTrackList webcodecs globalPrefs streamerPrefs incoming));
  RelayClient.onAudio := Some (fun trackID frame => Content.onAudio webcodecs trackID frame);
  onFingerprint := None;
  onTrackMeta := None;
  onError := Some (fun _ _ c => (c, None));
  onConnect := Some (fun c => (c, None));
  onDisconnect := Some (fun _ c => (c, None)) |}.

(** What the viewer and the browser's codecs do. *)
Definition panel_event (e : event) : Prop :=
  match e with ETrackList _ | EAudio _ _ => False | _ => True end.

(** Messages, the network and the viewer; in a session also decoded buffers and
    ended sources. *)
Inductive control_step : World (Content G) -> World (Content G) -> Prop :=
  | sess_message w n data :
      sockets w !! n = Some OPEN ->
      control_step w (handle_data relay_events (Some data) w).1
  | sess_network w w' :
      RelayClient.step relay_events w w' -> client w' = client w -> control_step w w'
  | sess_panel w e c :
      panel_event e -> event_ok e (client w) ->
      handle webcodecs channel globalPrefs streamerPrefs e (client w) = Ok c ->
      control_step w (set_client c w).

Inductive session_step : World (Content G) -> World (Content G) -> Prop :=
  | sess_control w w' : control_step w w' -> session_step w w'
  | sess_audio w g :
      mx_audio (graph (client w)) g -> session_step w (set_client (with_graph g (client w)) w).

(** From [mounted] on a fresh graph and [connect]. *)
Definition session_reachable (g0 : G) w : Prop :=
  exists c0, mounted g0 = Ok c0 /\ rtc session_step (RelayClient.connect c0) w.

(** The same with the tracks that a solo has touched ([soloed_after]); a message
    keeps those of them that are still listed. *)
Inductive session_history (g0 : G) : gset jstr -> World (Content G) -> Prop :=
  | sh_start c0 : mounted g0 = Ok c0 -> session_history g0 ∅ (RelayClient.connect c0)
  | sh_message soloed w n data :
      session_history g0 soloed w -> sockets w !! n = Some OPEN ->
      let w' := (handle_data relay_events (Some data) w).1 in
      session_history g0 (soloed ∩ list_to_set (t_slug <$> tracks (client w'))) w'
  | sh_network soloed w w' :
      session_history g0 soloed w -> RelayClient.step relay_events w w' -> client w' = client w ->
      session_history g0 soloed w'
  | sh_panel soloed w e c :
      session_history g0 soloed w -> panel_event e -> event_ok e (client w) ->
      handle webcodecs channel globalPrefs streamerPrefs e (client w) = Ok c ->
      session_history g0 (soloed_after e (client w) soloed) (set_client c w)
  | sh_audio soloed w g :
      session_history g0 soloed w -> mx_audio (graph (client w)) g ->
      session_history g0 soloed (set_client (with_graph g (client w)) w).

(** The messages of one socket, in order. *)
Definition receive (datas : list (list Z)) w : World (Content G) :=
  foldl (fun w data => (handle_data relay_events (Some data) w).1) w datas.

(** ** Lemmas *)

Lemma relay_quiet : quiet_disconnect relay_events.
Proof. intros f clean s Hf. cbn in Hf. by injection Hf as <-. Qed.

Lemma set_client_inv c w : conn_inv w -> conn_inv (set_client c w).
Proof. by intros []. Qed.

Context (Hglobal : prefs_fine globalPrefs) (Hstreamer : prefs_fine streamerPrefs).

(** A track list the decoder accepts is an event the controller handles. *)
Lemma legal_event ts c : track_list_ok ts -> event_ok (ETrackList ts) c.
Proof. by intros (_ & Hnd & Hok). Qed.

(** What a message does: nothing, a track list or an audio frame. *)
Lemma handleMessage_cases data c (Q : Content G -> Prop) :
  content_inv webcodecs c -> Q c ->
  (forall ts c', track_list_ok ts -> Content.onTrackList webcodecs globalPrefs streamerPrefs ts c = Ok c' -> Q c') ->
  (forall track frame, Q (Content.onAudio webcodecs track frame c).1) ->
  Q (handleMessage data relay_events c).1.
Proof.
  intros Hinv Hno Hlist Haudio. unfold handleMessage. destruct (decodeFrame data) as [frame|] eqn:Ef; [|done].
  destruct (f_type frame); try done.
  - unfold try_payload. destruct (decodeTrackList (f_payload frame)) as [ts|] eqn:Et; [|done].
    cbn [relay_events RelayClient.onTrackList fmap option_fmap option_map fire].
    unfold lift. pose proof (decodeTrackList_legal _ _ Et) as Hok.
    destruct (onTrackList_inv webcodecs globalPrefs streamerPrefs Hglobal Hstreamer ts c Hinv) as (c' & Hc & _);
      [by apply legal_event|]. rewrite Hc. by eapply Hlist.
  - apply Haudio.
  - unfold try_payload. by destruct (decodeFingerprint _).
  - unfold try_payload. by destruct (decodeTrackMeta _).
  - unfold try_payload. by destruct (decodeError _).
Qed.

Lemma handleMessage_inv data c :
  content_inv webcodecs c -> content_inv webcodecs (handleMessage data relay_events c).1.
Proof.
  intros Hinv. apply handleMessage_cases; [done|done| |intros; by apply onAudio_inv].
  intros ts c' Hok Hc.
  destruct (onTrackList_inv webcodecs globalPrefs streamerPrefs Hglobal Hstreamer ts c Hinv) as (c1 & Hc1 & Hi & _);
    [by apply legal_event|]. congruence.
Qed.

Lemma muted_synced_listed soloed c :
  content_inv webcodecs c -> muted_synced soloed c ->
  muted_synced (soloed ∩ list_to_set (t_slug <$> tracks c)) c.
Proof.
  intros Hinv Hs s st Hn Hst. apply Hs; [|done]. intros Hd. apply Hn, elem_of_intersection. split; [done|].
  apply elem_of_list_to_set. by eapply settings_tracks.
Qed.

Lemma handleMessage_synced data soloed c :
  content_inv webcodecs c -> muted_synced soloed c ->
  let c' := (handleMessage data relay_events c).1 in
  muted_synced (soloed ∩ list_to_set (t_slug <$> tracks c')) c'.
Proof.
  intros Hinv Hs.
  apply (handleMessage_cases data c (fun c' => muted_synced (soloed ∩ list_to_set (t_slug <$> tracks c')) c'));
    [done|by apply muted_synced_listed| |].
  - intros ts c' Hok Hc.
    destruct (onTrackList_inv webcodecs globalPrefs streamerPrefs Hglobal Hstreamer ts c Hinv) as (c1 & Hc1 & _ & Ht & _);
      [by apply legal_event|].
    assert (tracks c' = ts) as -> by congruence.
    by apply (onTrackList_synced webcodecs globalPrefs streamerPrefs Hglobal Hstreamer soloed ts c c' Hinv (legal_event _ _ Hok) Hc).
  - intros track frame. apply muted_synced_listed; [by apply onAudio_inv|].
    exact (handle_synced webcodecs channel globalPrefs streamerPrefs Hglobal Hstreamer soloed (EAudio track frame)
             c _ Hinv I eq_refl Hs).
Qed.

Lemma handle_data_client data w :
  client (handle_data relay_events (Some data) w).1 = (handleMessage data relay_events (client w)).1.
Proof. unfold handle_data. by destruct (handleMessage _ _ _). Qed.

Lemma session_step_inv w w' :
  conn_inv w /\ content_inv webcodecs (client w) -> session_step w w' ->
  conn_inv w' /\ content_inv webcodecs (client w').
Proof.
  intros [Hw Hc] Hs. destruct Hs as [w w' Hs|w g Ha]; [destruct Hs as [w n data Hn|w w' Hs Heq|w e c He Hok Hh]|].
  - split.
    + eapply (client_step_inv relay_events); [apply relay_quiet|exact Hw|]. by eapply step_message.
    + rewrite handle_data_client. by apply handleMessage_inv.
  - split; [|by rewrite Heq]. by eapply (client_step_inv relay_events); [apply relay_quiet| |].
  - split; [by apply set_client_inv|]. cbn.
    destruct (handle_inv webcodecs channel globalPrefs streamerPrefs Hglobal Hstreamer e (client w) Hc Hok)
      as (c' & H1 & H2). rewrite H1 in Hh. by injection Hh as <-.
  - split; [by apply set_client_inv|]. cbn. by apply audio_inv.
Qed.

Lemma session_inv g0 w :
  mx_ok g0 -> mx_gains g0 = ∅ -> session_reachable g0 w ->
  conn_inv w /\ content_inv webcodecs (client w).
Proof.
  intros Hok He (c0 & Hm & Hr). revert Hr.
  apply (rtc_ind_r (fun w => conn_inv w /\ content_inv webcodecs (client w))).
  - split; [apply connect_inv|]. destruct (mounted_inv webcodecs g0 Hok He) as (c & Hc & Hci & _).
    rewrite Hc in Hm. by injection Hm as <-.
  - intros y z _ Hs Hy. by eapply session_step_inv.
Qed.

(** The histories cover the reachable sessions, and keep the invariants. *)
Lemma session_step_history g0 soloed w w' :
  session_history g0 soloed w -> session_step w w' -> exists soloed', session_history g0 soloed' w'.
Proof.
  intros Hh Hs. destruct Hs as [w w' Hs|w g Ha]; [destruct Hs as [w n data Hn|w w' Hs Heq|w e c He Hok Hc]|].
  - eexists. by eapply sh_message.
  - eexists. by eapply sh_network.
  - eexists. by eapply sh_panel.
  - eexists. by eapply sh_audio.
Qed.

Lemma session_reachable_history g0 w :
  session_reachable g0 w -> exists soloed, session_history g0 soloed w.
Proof.
  intros (c0 & Hm & Hr). revert Hr. apply (rtc_ind_r (fun w => exists soloed, session_history g0 soloed w)).
  - eexists. by apply sh_start.
  - intros y z _ Hs [d Hd]. by eapply session_step_history.
Qed.

Lemma session_history_reachable g0 soloed w : session_history g0 soloed w -> session_reachable g0 w.
Proof.
  induction 1 as [c0 Hm|d w n data _ (c0 & Hm & IH) Hn w'|d w w' _ (c0 & Hm & IH) Hs Heq
                 |d w e c _ (c0 & Hm & IH) He Hok Hc|d w g _ (c0 & Hm & IH) Ha].
  - by exists c0.
  - exists c0. split; [done|]. eapply rtc_r; [exact IH|]. by eapply sess_control, sess_message.
  - exists c0. split; [done|]. eapply rtc_r; [exact IH|]. by apply sess_control, sess_network.
  - exists c0. split; [done|]. eapply rtc_r; [exact IH|]. by eapply sess_control, sess_panel.
  - exists c0. split; [done|]. eapply rtc_r; [exact IH|]. by apply sess_audio.
Qed.

Lemma session_history_synced g0 soloed w :
  mx_ok g0 -> mx_gains g0 = ∅ -> session_history g0 soloed w -> muted_synced soloed (client w).
Proof.
  intros Hok He. induction 1 as [c0 Hm|d w n data Hh IH Hn w'|d w w' Hh IH Hs Heq|d w e c Hh IH Hp Hev Hc|d w g Hh IH Ha].
  - by apply (mounted_synced g0 c0).
  - destruct (session_inv g0 w Hok He (session_history_reachable _ _ _ Hh)) as [_ Hinv].
    subst w'. rewrite handle_data_client. by apply handleMessage_synced.
  - by rewrite Heq.
  - destruct (session_inv g0 w Hok He (session_history_reachable _ _ _ Hh)) as [_ Hinv].
    exact (handle_synced webcodecs channel globalPrefs streamerPrefs Hglobal Hstreamer d e _ c Hinv Hev Hc IH).
  - exact IH.
Qed.

(** What the messages of a well-behaved peer do. *)

Lemma receive_track_list ts track flags seq time payload data w :
  content_inv webcodecs (client w) -> track_list_ok ts -> Forall (fun t => jstr_ok (t_label t)) ts ->
  encodeTrackList ts = Ok payload -> encodeFrame (mkFrame TrackList track flags seq time payload) = Ok data ->
  exists c', Content.onTrackList webcodecs globalPrefs streamerPrefs ts (client w) = Ok c'
    /\ content_inv webcodecs c'
    /\ (handle_data relay_events (Some data) w).1 = set_client c' w.
Proof.
  intros Hinv Hok Henc Hp [Hr ->]%encodeFrame_Ok_inv.
  destruct (onTrackList_inv webcodecs globalPrefs streamerPrefs Hglobal Hstreamer ts (client w) Hinv)
    as (c' & Hc & Hinv' & _); [by apply legal_event|].
  exists c'. split; [done|]. split; [done|]. unfold handle_data, handleMessage.
  rewrite decodeFrame_layout by done. cbn [f_type f_payload]. unfold try_payload.
  rewrite (encodeTrackList_roundtrip ts payload) by done.
  cbn [relay_events RelayClient.onTrackList fmap option_fmap option_map fire]. unfold lift. by rewrite Hc.
Qed.

Lemma receive_audio track flags seq time payload data w :
  encodeFrame (mkFrame AudioOpus track flags seq time payload) = Ok data ->
  (handle_data relay_events (Some data) w).1
  = set_client (Content.onAudio webcodecs track (mkFrame AudioOpus track flags seq time payload) (client w)).1 w.
Proof.
  intros [Hr ->]%encodeFrame_Ok_inv. unfold handle_data, handleMessage. rewrite decodeFrame_layout by done.
  cbn [f_type f_track relay_events RelayClient.onAudio fmap option_fmap option_map fire].
  by destruct (Content.onAudio _ _ _ _).
Qed.

(** A message of a type the session does not act on. *)
Lemma receive_ignored ty track flags seq time payload data w :
  ty <> TrackList -> ty <> AudioOpus ->
  encodeFrame (mkFrame ty track flags seq time payload) = Ok data ->
  (handle_data relay_events (Some data) w).1 = w.
Proof.
  intros Ht Ha [Hr ->]%encodeFrame_Ok_inv. unfold handle_data, handleMessage. rewrite decodeFrame_layout by done.
  cbn [f_type f_payload]. unfold try_payload.
  destruct w as [cl at' sk ss tm s]. cbn [client].
  destruct ty; try done;
    [destruct (decodeFingerprint payload)|destruct (decodeTrackMeta payload)|destruct (decodeError payload)]; done.
Qed.
End Session.

(** ** Properties *)

(** C3: whatever arrives on the wire.  Under every interleaving of socket
    events, reconnections, arbitrary messages (any bytes at all), gestures of
    the viewer, decoded buffers and ended sources, there is at most one
    connection or pending reconnection, and the controller is consistent: the
    panel shows its state; for the tracks of the last list, and no others, the
    setting has the slider's gain, the graph the gain of slider and mute flag,
    and the lane is open; and the setting has the panel's mute flag unless a
    solo changed the flag since it was last toggled, reset or loaded
    ([soloed]). *)
Theorem session_consistent {G : Type} `{Mixer G} (webcodecs : bool) (channel : jstr)
    (globalPrefs streamerPrefs : Prefs) (g0 : G) (soloed : gset jstr) (w : World (Content G)) :
  prefs_fine globalPrefs -> prefs_fine streamerPrefs -> mx_ok g0 -> mx_gains g0 = ∅ ->
  session_history webcodecs channel globalPrefs streamerPrefs g0 soloed w ->
  let c := client w in
  (live w + length (timers w) <= 1)%nat
  /\ panel c = mkPanel (tracks c) (gains c) (muted c) (broadcastGain c) (offsetMs c)
  /\ forall s,
      (s ∈ t_slug <$> tracks c -> present webcodecs s (row_of c s)
        /\ (s ∉ soloed -> Prefs.muted <$> settings c !! s = muted c !! s))
      /\ (~ (s ∈ t_slug <$> tracks c) -> absent (row_of c s)).
Proof.
  intros Hgp Hsp Hok He Hh.
  destruct (session_inv webcodecs channel globalPrefs streamerPrefs Hgp Hsp g0 w Hok He
    (session_history_reachable _ _ _ _ _ _ _ Hh)) as [[Hc _ _ _ _] [_ _ Hrows _ _ _ Hp]].
  pose proof (session_history_synced webcodecs channel globalPrefs streamerPrefs Hgp Hsp g0 soloed w Hok He Hh) as Hs.
  split; [exact Hc|]. split; [exact Hp|]. intros s. destruct (Hrows s) as [Hpr Hab]. split; [|exact Hab].
  intros Hin. split; [by apply Hpr|]. intros Hn. destruct (Hpr Hin) as (v & b & st & _ & _ & H3 & _).
  cbn in H3. rewrite H3, (Hs s st Hn H3). done.
Qed.

(** A session: the socket opens, junk arrives, then a track list; the viewer
    mutes a track. *)
Definition list_bytes : list Z :=
  match encodeTrackList demo_tracks with Ok b => b | Throw _ => [] end.
Definition list_message : list Z :=
  match encodeFrame (mkFrame TrackList 0 0 0 0 list_bytes) with Ok b => b | Throw _ => [] end.

Definition demo_session : World (Content Deck) :=
  let w := (handle_open (relay_events true ∅ ∅) (set_socket 0 OPEN (RelayClient.connect demo_start))).1 in
  let w := receive true ∅ ∅ [[1; 2; 3]; list_message] w in
  set_client (get_ok blank (demo_handle (EMute (js "co-host")) (client w))) w.

Lemma demo_session_control channel :
  rtc (control_step true channel ∅ ∅) (RelayClient.connect demo_start) demo_session.
Proof.
  set (E := relay_events (G := Deck) true ∅ ∅).
  set (w0 := RelayClient.connect demo_start).
  set (w1 := (handle_open E (set_socket 0 OPEN w0)).1).
  set (w2 := (handle_data E (Some [1; 2; 3]) w1).1).
  set (w3 := (handle_data E (Some list_message) w2).1).
  assert (S1 : sockets w1 !! 0%nat = Some OPEN) by by vm_compute.
  assert (S2 : sockets w2 !! 0%nat = Some OPEN) by by vm_compute.
  assert (P3 : event_ok (EMute (js "co-host")) (client w3))
    by (cbn [event_ok]; by apply (bool_decide_unpack _); vm_compute).
  apply (rtc_l _ w0 w1); [apply sess_network; [by apply step_open|done]|].
  apply (rtc_l _ w1 w2); [exact (sess_message _ _ _ _ w1 0 [1; 2; 3] S1)|].
  apply (rtc_l _ w2 w3); [exact (sess_message _ _ _ _ w2 0 list_message S2)|].
  apply rtc_once. apply (sess_panel _ _ _ _ w3 (EMute (js "co-host"))); [exact I|exact P3|].
  assert (Hok : forall r : result (Content Deck), (if r is Ok _ then true else false) = true -> r = Ok (get_ok blank r))
    by by intros [c|e].
  change (handle true channel ∅ ∅ (EMute (js "co-host")) (client w3)) with (demo_handle (EMute (js "co-host")) (client w3)).
  apply Hok. by vm_compute.
Qed.

Lemma demo_session_reachable : session_reachable true (js "twitch:foo") ∅ ∅ first_deck demo_session.
Proof.
  exists demo_start. split; [by vm_compute|]. eapply rtc_subrel; [|apply demo_session_control].
  intros w w'. apply sess_control.
Qed.

(** The viewer of that session solos a track. *)
Definition solo_session : World (Content Deck) :=
  set_client (get_ok blank (demo_handle (ESolo (js "mic")) (client demo_session))) demo_session.

Lemma solo_session_history :
  exists soloed, session_history true (js "twitch:foo") ∅ ∅ first_deck soloed solo_session
    /\ soloed = {[js "mic"; js "co-host"]}.
Proof.
  destruct (session_reachable_history _ _ _ _ _ _ demo_session_reachable) as [d Hd].
  eexists. split.
  - apply (sh_panel _ _ _ _ _ d demo_session (ESolo (js "mic"))); [exact Hd|exact I| |].
    + cbn [event_ok]. by apply (bool_decide_unpack _); vm_compute.
    + assert (Hok : forall r : result (Content Deck), (if r is Ok _ then true else false) = true -> r = Ok (get_ok blank r))
        by by intros [c|e].
      apply Hok. by vm_compute.
  - cbn [soloed_after]. by apply (bool_decide_unpack _); vm_compute.
Qed.

Lemma session_consistent_witness :
  mx_gains (graph (client solo_session)) !! js "co-host" = Some (heard half true)
  /\ present true (js "mic") (row_of (client solo_session) (js "mic")).
Proof.
  destruct solo_session_history as (soloed & Hh & _).
  destruct (session_consistent true (js "twitch:foo") ∅ ∅ first_deck soloed solo_session
    empty_fine empty_fine (proj1 first_deck_ok) (proj2 first_deck_ok) Hh) as (_ & _ & Hs).
  split; [by vm_compute|]. apply Hs. by apply (bool_decide_unpack _); vm_compute.
Defined.

(** C21: an audio frame, from bytes to decoder.  In every reachable session the
    bytes of an encoded audio frame whose track is in the list reach the
    decoder of that track, with the payload and sequence number that were
    encoded; sliders, mute flags, gains and the other lanes stay.  Bytes of a
    frame for any other track change nothing. *)
Theorem session_audio {G : Type} `{Mixer G} (channel : jstr) (globalPrefs streamerPrefs : Prefs)
    (g0 : G) (w : World (Content G)) (track flags seq time : Z) (payload data : list Z) :
  prefs_fine globalPrefs -> prefs_fine streamerPrefs -> mx_ok g0 -> mx_gains g0 = ∅ ->
  session_reachable true channel globalPrefs streamerPrefs g0 w ->
  encodeFrame (mkFrame AudioOpus track flags seq time payload) = Ok data ->
  let w' := receive true globalPrefs streamerPrefs [data] w in
  (forall t, t ∈ tracks (client w) -> t_id t = track ->
    exists lane, audioLanes (client w) !! t_slug t = Some lane
      /\ audioLanes (client w') = <[t_slug t :=
           mkAudioLane (decode payload seq (decoder lane)).1 (sched_dest lane) (sched_closed lane)]> (audioLanes (client w))
      /\ graph (client w') = graph (client w) /\ panel (client w') = panel (client w))
  /\ (~ (track ∈ t_id <$> tracks (client w)) -> w' = w).
Proof.
  intros Hgp Hsp Hok He Hr Henc. cbn zeta. unfold receive. cbn [foldl].
  rewrite (receive_audio true globalPrefs streamerPrefs _ _ _ _ _ _ w Henc).
  destruct (session_inv true channel globalPrefs streamerPrefs Hgp Hsp g0 w Hok He Hr) as [_ Hinv]. split.
  - intros t Ht <-. destruct (onAudio_known true t (mkFrame AudioOpus (t_id t) flags seq time payload) (client w)
      Hinv eq_refl Ht) as (lane & Hl & _ & Ha).
    exists lane. split; [exact Hl|]. rewrite Ha. cbn [f_payload f_seq].
    by destruct (decode payload seq (decoder lane)).
  - intros Hn. rewrite (onAudio_unknown true _ _ _ Hinv Hn). by destruct w.
Qed.

Lemma session_audio_witness :
  receive true ∅ ∅ [match encodeFrame (mkFrame AudioOpus 7 0 1 2 [9]) with Ok b => b | Throw _ => [] end] demo_session
  = demo_session.
Proof.
  apply (session_audio (js "twitch:foo") ∅ ∅ first_deck demo_session 7 0 1 2 [9] _
    empty_fine empty_fine (proj1 first_deck_ok) (proj2 first_deck_ok) demo_session_reachable);
    [by vm_compute|]. by apply (bool_decide_unpack _); vm_compute.
Defined.
