(* ===== verification/Viewer.v ===== *)
(** * What the viewer hears is what the panel shows

    Puts the controller of Content.v on the mixer of Playback.v: in every
    consistent state the sound at the speakers is a function of the panel and of
    the buffers that are playing ([viewer_sound]).  Page.v states it for the
    whole page. *)
From Stdlib Require Import SpecFloat QArith.Qcanon.
From stdpp Require Import relations.
From S2P Require Import Prelude JsString JsNumber JsOrder Wire Messages RelayClient Prefs.
From S2P Require Import WebAudio Graph OpusLane Mixer Playback Content Session.
Open Scope Z_scope.

(** ** The panel, read as a mix *)

(** The gain of a row: the slider's value as the graph stores it, or 0 when the
    row is muted ([heard_of] covers a row without a value). *)
Definition panel_gain (p : Panel) (slug : jstr) : Qc :=
  match p_gains p !! slug, p_muted p !! slug with
  | Some v, Some b => val (heard_of v b)
  | _, _ => 0%Qc
  end.

Definition panel_broadcast (p : Panel) : Qc := val (fround (clamp01 (Some (p_broadcastGain p)))).

(** The sync offset in seconds. *)
Definition panel_offset (p : Panel) : Qc := val (fround (jdiv (clamp_offset (p_offsetMs p)) (of_Z 1000))).

Definition sum_slugs (l : list jstr) (f : jstr -> Qc) : Qc := foldr (fun s acc => f s + acc)%Qc 0%Qc l.

(** The sum over the sliders of the panel. *)
Definition panel_sum (p : Panel) (f : jstr -> Qc) : Qc := sum_slugs (map_to_list (p_gains p)).*1 f.

(** ** Lemmas *)

Lemma sum_slugs_perm l l' f : l ≡ₚ l' -> sum_slugs l f = sum_slugs l' f.
Proof.
  unfold sum_slugs.
  induction 1 as [|s l l' _ IH|s s' l|l l' l'' _ IH1 _ IH2]; cbn; [done|by rewrite IH|ring|by rewrite IH1].
Qed.

Lemma sum_slugs_ext l f f' : Forall (fun s => f s = f' s) l -> sum_slugs l f = sum_slugs l f'.
Proof. unfold sum_slugs. induction 1 as [|s l Hs _ IH]; cbn; [done|]. by rewrite Hs, IH. Qed.

(** Maps with the same keys have the same sums over them. *)
Lemma keys_perm {A B : Type} (m : gmap jstr A) (m' : gmap jstr B) :
  (forall s, is_Some (m !! s) <-> is_Some (m' !! s)) -> (map_to_list m).*1 ≡ₚ (map_to_list m').*1.
Proof.
  intros Hd. apply NoDup_Permutation; [apply NoDup_fst_map_to_list..|]. intros s.
  assert (Hk : forall C (x : gmap jstr C), s ∈ (map_to_list x).*1 <-> is_Some (x !! s)).
  { intros C x. rewrite list_elem_of_fmap. split.
    - intros ([k v] & -> & H%elem_of_map_to_list). by exists v.
    - intros [v H]. exists (s, v). split; [done|]. by apply elem_of_map_to_list. }
  by rewrite !Hk.
Qed.

Lemma sum_tracks_slugs g f (f' : jstr -> Qc) :
  (forall s tr, Graph.tracks g !! s = Some tr -> f s tr = f' s) ->
  sum_tracks g f = sum_slugs (map_to_list (Graph.tracks g)).*1 f'.
Proof.
  intros Hf. unfold sum_tracks, sum_slugs.
  assert (Hall : Forall (fun x => f x.1 x.2 = f' x.1) (map_to_list (Graph.tracks g))).
  { apply Forall_forall. intros [s tr] H%elem_of_map_to_list. by apply Hf. }
  induction Hall as [|x l Hx _ IH]; [done|]. cbn. by rewrite Hx, IH.
Qed.

Section Viewer.
Context (webcodecs : bool).
Implicit Types (c : Content Deck).

(** The desk under a consistent controller. *)
Lemma viewer_desk c :
  content_inv webcodecs c ->
  broadcast_gain (mixer (graph c)) = Some (fround (clamp01 (Some (broadcastGain c))))
  /\ Graph.offsetMs (mixer (graph c)) = clamp_offset (Content.offsetMs c)
  /\ (forall s, is_Some (Graph.tracks (mixer (graph c)) !! s) <-> is_Some (gains c !! s))
  /\ forall s tr, Graph.tracks (mixer (graph c)) !! s = Some tr ->
       gain_value (mixer (graph c)) tr = panel_gain (panel c) s.
Proof.
  intros [Hg Hts Hr Hd Hi Hlv Hp]. destruct (pi_wf _ Hg) as (dead & Hwf & _).
  destruct (wf_broadcast _ _ Hwf) as [b Hb]. unfold mx_levels in Hlv. cbn in Hlv.
  assert (Hbg : broadcast_gain (mixer (graph c)) = Some b) by (unfold broadcast_gain; by rewrite Hb).
  rewrite Hbg in Hlv. cbn in Hlv. injection Hlv as -> Ho.
  split; [exact Hbg|]. split; [exact Ho|].
  assert (Hdom : forall s, is_Some (Graph.tracks (mixer (graph c)) !! s) <-> s ∈ t_slug <$> Content.tracks c).
  { intros s. rewrite <- (user_gains_lookup _ _ s Hwf). destruct (Hr s) as [Hpr Hab]. split.
    - intros Hs. destruct (decide (s ∈ t_slug <$> Content.tracks c)) as [|Hn]; [done|].
      destruct (Hab Hn) as (_ & _ & _ & A4 & _). unfold mx_gains in A4. cbn in A4. rewrite A4 in Hs. by destruct Hs.
    - intros Hs. destruct (Hpr Hs) as (v & m & _ & _ & _ & _ & _ & _ & H7 & _).
      unfold mx_gains in H7. cbn in H7. rewrite H7. by eexists. }
  split.
  - intros s. rewrite Hdom. destruct (Hr s) as [Hpr Hab]. split.
    + intros Hs. destruct (Hpr Hs) as (v & _ & _ & H1 & _). cbn in H1. rewrite H1. by eexists.
    + intros Hs. destruct (decide (s ∈ t_slug <$> Content.tracks c)) as [|Hn]; [done|].
      destruct (Hab Hn) as (A1 & _). cbn in A1. rewrite A1 in Hs. by destruct Hs.
  - intros s tr Htr. destruct (Hr s) as [Hpr _].
    destruct (Hpr (proj1 (Hdom s) ltac:(by eexists))) as (v & m & _ & H1 & H2 & _ & _ & _ & H7 & _).
    unfold mx_gains in H7. cbn in H1, H2, H7. unfold panel_gain. rewrite Hp. cbn. rewrite H1, H2.
    unfold user_gains in H7. rewrite lookup_omap, Htr in H7. cbn in H7. unfold gain_value. by rewrite H7.
Qed.

(** What is heard of a consistent controller. *)
Lemma viewer_sound c (wave : list (list num) -> Qc -> Qc) element out t :
  content_inv webcodecs c ->
  let p := panel c in
  let deck := graph c in
  web_audio element (plays wave deck) (ctx (mixer deck)) out ->
  out destination t
  = (panel_broadcast p * element t
     + panel_sum p (fun s => panel_gain p s * track_sound wave deck s t
                             - track_sound wave deck s (t - panel_offset p)))%Qc.
Proof.
  intros Hinv p deck Hout. destruct (viewer_desk c Hinv) as (Hbr & Hoff & Hdom & Hgain).
  assert (Hp : p_broadcastGain p = broadcastGain c /\ p_gains p = gains c /\ p_offsetMs p = Content.offsetMs c)
    by (unfold p; by rewrite (inv_panel _ _ Hinv)).
  destruct Hp as (Hp1 & Hp2 & Hp3).
  rewrite (playback_sound wave deck element out t (inv_graph _ _ Hinv) Hout). subst deck. rewrite Hbr.
  unfold panel_broadcast, panel_sum, panel_offset, delay_of. rewrite Hoff, Hp1, Hp2, Hp3. f_equal.
  rewrite <- (sum_slugs_perm _ _ _ (keys_perm _ _ Hdom)). apply sum_tracks_slugs.
  intros s tr Htr. by rewrite (Hgain s tr Htr).
Qed.
End Viewer.

(** ** A concrete session for the witnesses *)

(** The session of Session.v, in which a buffer was decoded for each track and
    the viewer set the offset to two seconds. *)
Definition play (slug : jstr) (buf : list (list num)) (w : World (Content Deck)) : World (Content Deck) :=
  set_client (with_graph (onDecoded slug (of_Z 1) buf (graph (client w))).1 (client w)) w.

Definition before_offset : World (Content Deck) :=
  play (js "co-host") [[num0; num0]; [num0; num0]] (play (js "mic") [[num0]; [num0]] demo_session).

Definition played_session : World (Content Deck) :=
  set_client (get_ok blank (demo_handle (EOffset (of_Z 2000)) (client before_offset))) before_offset.

Lemma play_step channel slug buf w : session_step true channel ∅ ∅ w (play slug buf w).
Proof. apply sess_audio. by exists (PDecoded slug (of_Z 1) buf). Qed.

Lemma played_session_steps channel :
  rtc (session_step true channel ∅ ∅) (RelayClient.connect demo_start) played_session.
Proof.
  assert (Hr : rtc (session_step true channel ∅ ∅) (RelayClient.connect demo_start) demo_session).
  { eapply rtc_subrel; [|apply demo_session_control]. intros x y. apply sess_control. }
  refine (rtc_r _ _ _ (rtc_r _ _ _ (rtc_r _ _ _ Hr (play_step _ _ _ _)) (play_step _ _ _ _)) _).
  assert (Hok : forall r : result (Content Deck), (if r is Ok _ then true else false) = true -> r = Ok (get_ok blank r))
    by by intros [x|e].
  set (c := get_ok blank (demo_handle (EOffset (of_Z 2000)) (client before_offset))).
  assert (Hh : forall ch (d : Content Deck), handle true ch ∅ ∅ (EOffset (of_Z 2000)) d
              = onOffsetChange (of_Z 2000) d) by done.
  assert (Hc : handle true channel ∅ ∅ (EOffset (of_Z 2000)) (client before_offset) = Ok c).
  { unfold c, demo_handle. rewrite !Hh. apply Hok. by vm_compute. }
  exact (sess_control _ _ _ _ _ _ (sess_panel true channel ∅ ∅ before_offset (EOffset (of_Z 2000)) c I eq_refl Hc)).
Qed.

Lemma played_session_reachable :
  session_reachable true (js "twitch:foo") ∅ ∅ (new_deck first_graph) played_session.
Proof. exists demo_start. split; [by vm_compute|apply played_session_steps]. Qed.

(** A buffer sounds like its length times the time since its start. *)
Definition ramp (buf : list (list num)) (t : Qc) : Qc := (qc (Z.of_nat (length (hd [] buf))) * t)%Qc.
