(* ===== verification/Uri.v ===== *)
(** * The URLs of the relay

    Models the template literals that build the relay's URLs
    (extension/src/relay/client.ts, tools/mock-publisher and
    tools/mock-subscriber) with [encodeURIComponent] of the language.  The
    query is read back by a reference reader: split at the delimiters, then
    percent-decode. *)
From S2P Require Import Prelude JsString Utf8.

(** ** encodeURIComponent *)

(** The characters that stand for themselves:
    [A-Z a-z 0-9 - _ . ! ~ * ' ( )]. *)
Definition is_unescaped (c : Z) : bool :=
  is_az09 c || in_range 65 90 c || bool_decide (c ∈ [45; 95; 46; 33; 126; 42; 39; 40; 41]).

Definition hex_upper (d : Z) : Z := if d <? 10 then 48 + d else 55 + d.

Definition pct_byte (b : Z) : jstr :=
  if is_unescaped b then [b] else [37; hex_upper (b / 16); hex_upper (b mod 16)].

(** A lone surrogate is a [URIError]. *)
Definition encodeURIComponent (s : jstr) : result jstr :=
  if well_formed s then Ok (utf8_encode s ≫= pct_byte) else Throw (JsError "URI malformed").

(** ** The URLs *)

Definition subscribe_url (relayURL channelID : jstr) : result jstr :=
  c ← encodeURIComponent channelID;
  Ok (relayURL ++ js "/subscribe?channel=" ++ c).

Definition publish_url (url channel token : jstr) : result jstr :=
  c ← encodeURIComponent channel;
  t ← encodeURIComponent token;
  Ok (url ++ js "/publish?channel=" ++ c ++ js "&token=" ++ t).

(** ** The reference reader *)

Definition unhex (c : Z) : option Z :=
  if in_range 48 57 c then Some (c - 48)
  else if in_range 65 70 c then Some (c - 55)
  else if in_range 97 102 c then Some (c - 87)
  else None.

Fixpoint pct_decode (s : jstr) : option (list Z) :=
  match s with
  | [] => Some []
  | c :: r =>
      if c =? 37 then
        match r with
        | h :: l :: r => h ← unhex h; l ← unhex l; cons (16 * h + l) <$> pct_decode r
        | _ => None
        end
      else cons c <$> pct_decode r
  end.

Definition decodeURIComponent (s : jstr) : option jstr :=
  bs ← pct_decode s;
  cs ← utf8_decode bs;
  Some (cs ≫= units_of).

(** The parameters of a query: ["k1=v1&k2=v2"]. *)
Definition parameter (p : jstr) : option (jstr * jstr) :=
  match split 61 p with
  | [k; v] => v ← decodeURIComponent v; Some (k, v)
  | _ => None
  end.

Definition query_parameters (q : jstr) : option (list (jstr * jstr)) := mapM parameter (split 38 q).

(** ** Lemmas *)

Lemma unhex_upper d : 0 <= d < 16 -> unhex (hex_upper d) = Some d.
Proof.
  intros Hd. unfold unhex, hex_upper, in_range. destruct (Z.ltb_spec d 10).
  - rewrite !(proj2 (Z.leb_le _ _)) by lia. cbn. f_equal. lia.
  - rewrite (proj2 (Z.leb_gt (55 + d) 57)), andb_false_r by lia. rewrite !(proj2 (Z.leb_le _ _)) by lia.
    cbn. f_equal. lia.
Qed.

Lemma pct_decode_byte b rest :
  is_byte b -> pct_decode (pct_byte b ++ rest) = cons b <$> pct_decode rest.
Proof.
  intros Hb. unfold pct_byte. destruct (is_unescaped b) eqn:Eu.
  - cbn [app pct_decode]. destruct (Z.eqb_spec b 37) as [->|]; [|done]. by vm_compute in Eu.
  - cbn [app pct_decode]. rewrite Z.eqb_refl. unfold is_byte in Hb.
    rewrite !unhex_upper by (first [apply Z.mod_pos_bound; lia | split; [apply Z.div_pos|apply Z.div_lt_upper_bound]; lia]).
    cbn [mbind option_bind]. by rewrite <- (Z.div_mod b 16) by lia.
Qed.

Lemma pct_decode_encode bs : bytes_ok bs -> pct_decode (bs ≫= pct_byte) = Some bs.
Proof.
  induction 1 as [|b bs Hb _ IH]; [done|]. cbn [mbind list_bind].
  by rewrite pct_decode_byte, IH.
Qed.

Lemma pct_byte_clean b : is_byte b -> Forall (fun c => is_unescaped c = true \/ c = 37) (pct_byte b).
Proof.
  intros Hb. unfold pct_byte. destruct (is_unescaped b) eqn:Eu; [constructor; [by left|constructor]|].
  unfold is_byte in Hb.
  assert (Hx : forall d, 0 <= d < 16 -> is_unescaped (hex_upper d) = true).
  { intros d Hd. unfold is_unescaped, is_az09, is_az, is_09, hex_upper, in_range.
    destruct (Z.ltb_spec d 10).
    - rewrite (proj2 (Z.leb_le 48 (48 + d))), (proj2 (Z.leb_le (48 + d) 57)) by lia. cbn. by rewrite orb_true_r.
    - rewrite (proj2 (Z.leb_le 65 (55 + d))), (proj2 (Z.leb_le (55 + d) 90)) by lia. cbn. by rewrite orb_true_r. }
  constructor; [by right|]. constructor; [left; apply Hx|constructor; [left; apply Hx|constructor]].
  - split; [apply Z.div_pos|apply Z.div_lt_upper_bound]; lia.
  - apply Z.mod_pos_bound. lia.
Qed.

Lemma encoded_clean bs :
  bytes_ok bs -> Forall (fun c => is_unescaped c = true \/ c = 37) (bs ≫= pct_byte).
Proof.
  induction 1 as [|b bs Hb _ IH]; [constructor|]. cbn. apply Forall_app. split; [by apply pct_byte_clean|done].
Qed.

(** Splitting at a character that does not occur. *)
Lemma split_none sep s : Forall (fun c => c <> sep) s -> split sep s = [s].
Proof.
  induction 1 as [|c s Hc _ IH]; [done|]. cbn. rewrite (proj2 (Z.eqb_neq c sep)) by done. by rewrite IH.
Qed.

Lemma split_app sep s t :
  Forall (fun c => c <> sep) s -> split sep (s ++ sep :: t) = s :: split sep t.
Proof.
  induction 1 as [|c s Hc _ IH]; cbn [app split]; [by rewrite Z.eqb_refl|].
  rewrite (proj2 (Z.eqb_neq c sep)) by done. by rewrite IH.
Qed.

Lemma clean_no_delimiter s :
  Forall (fun c => is_unescaped c = true \/ c = 37) s -> Forall (fun c => c <> 61) s /\ Forall (fun c => c <> 38) s.
Proof. intros Hs. split; eapply Forall_impl; eauto; intros c [Hc| ->]; try done; intros ->; by vm_compute in Hc. Qed.

Lemma encodeURIComponent_Ok s e :
  jstr_ok s -> encodeURIComponent s = Ok e ->
  Forall (fun c => c <> 61) e /\ Forall (fun c => c <> 38) e /\ decodeURIComponent e = Some s.
Proof.
  unfold encodeURIComponent. intros Hs. destruct (well_formed s) eqn:Ew; [|done]. intros [= <-].
  pose proof (utf8_encode_ok s Hs) as Hb. destruct (clean_no_delimiter _ (encoded_clean _ Hb)) as [H1 H2].
  split; [done|]. split; [done|]. unfold decodeURIComponent. rewrite pct_decode_encode by done.
  cbn [mbind option_bind]. rewrite utf8_decode_encode by done. cbn [mbind option_bind].
  by rewrite units_of_code_points.
Qed.

Lemma parameter_encoded key s e :
  jstr_ok s -> Forall (fun c => c <> 61) (js key) -> encodeURIComponent s = Ok e ->
  parameter (js key ++ js "=" ++ e) = Some (js key, s).
Proof.
  intros Hs Hk He. destruct (encodeURIComponent_Ok s e Hs He) as (H1 & _ & H2). unfold parameter.
  change (js "=" ++ e) with (61 :: e). rewrite split_app, split_none by done. by rewrite H2.
Qed.

(** ** Properties *)

(** The publisher's URL carries its channel and token.  For every channel
    and token without lone surrogates, whatever characters they contain, the
    query of the URL has exactly the two parameters, with their values; with a
    lone surrogate no URL is built. *)
Theorem publish_url_query (url channel token : jstr) :
  jstr_ok channel -> jstr_ok token ->
  match publish_url url channel token with
  | Ok u => exists q, u = url ++ js "/publish?" ++ q
                      /\ query_parameters q = Some [(js "channel", channel); (js "token", token)]
  | Throw e => well_formed channel = false \/ well_formed token = false
  end.
Proof.
  intros Hc Ht. unfold publish_url. destruct (encodeURIComponent channel) as [c|] eqn:Ec; cbn [mbind result_bind].
  2:{ left. unfold encodeURIComponent in Ec. by destruct (well_formed channel). }
  destruct (encodeURIComponent token) as [t|] eqn:Et; cbn [mbind result_bind].
  2:{ right. unfold encodeURIComponent in Et. by destruct (well_formed token). }
  exists ((js "channel" ++ js "=" ++ c) ++ 38 :: (js "token" ++ js "=" ++ t)). split; [done|].
  pose proof (encodeURIComponent_Ok _ _ Hc Ec) as (_ & Hc2 & _).
  pose proof (encodeURIComponent_Ok _ _ Ht Et) as (_ & Ht2 & _).
  assert (Hlit : forall key, bool_decide (Forall (fun c => c <> 38) (js key)) = true ->
            forall e, Forall (fun c => c <> 38) e -> Forall (fun c => c <> 38) (js key ++ js "=" ++ e)).
  { intros key Hk%bool_decide_eq_true e He. rewrite !Forall_app. split; [done|]. split; [|done].
    by apply (bool_decide_unpack _); vm_compute. }
  unfold query_parameters. rewrite split_app, split_none by by apply Hlit.
  cbn [mapM]. rewrite (parameter_encoded "channel" channel), (parameter_encoded "token" token); try done; by apply (bool_decide_unpack _); vm_compute.
Qed.

Lemma publish_url_query_witness :
  exists q, js "ws://h/publish?channel=a%26b&token=t%3D1" = js "ws://h" ++ js "/publish?" ++ q
            /\ query_parameters q = Some [(js "channel", js "a&b"); (js "token", js "t=1")].
Proof.
  pose proof (publish_url_query (js "ws://h") (js "a&b") (js "t=1")
    ltac:(by apply (bool_decide_unpack _); vm_compute) ltac:(by apply (bool_decide_unpack _); vm_compute)) as H.
  assert (Hu : publish_url (js "ws://h") (js "a&b") (js "t=1") = Ok (js "ws://h/publish?channel=a%26b&token=t%3D1"))
    by by vm_compute.
  rewrite Hu in H. exact H.
Defined.
