(* ===== verification/Publisher.v ===== *)
(** * The mock publisher

    Models tools/mock-publisher/src/main.ts: the command line, the frames sent
    when the socket opens and by the two interval timers, and the life of the
    process until the socket closes.  [Date.now()], [crypto.getRandomValues] and
    [Math.random()] are arguments of the steps. *)
From S2P Require Import Prelude JsString JsNumber Wire Messages Uri.

(** ** parseArgs *)

Record Args := mkArgs { url : jstr; channel : jstr; token : jstr }.
Record PartialArgs := mkPartial { p_url : option jstr; p_channel : option jstr; p_token : option jstr }.

(** The assignment a key asks for, [None] when it is not an option. *)
Definition set_option (key : jstr) (val : option jstr) (out : PartialArgs) : option PartialArgs :=
  if bool_decide (key = js "--url") then Some (mkPartial val (p_channel out) (p_token out))
  else if bool_decide (key = js "--channel") then Some (mkPartial (p_url out) val (p_token out))
  else if bool_decide (key = js "--token") then Some (mkPartial (p_url out) (p_channel out) val)
  else None.

Fixpoint parse_loop (argv : list jstr) (out : PartialArgs) : PartialArgs :=
  match argv with
  | [] => out
  | key :: rest =>
      match set_option key (head rest) out with
      | None => parse_loop rest out
      | Some out => match rest with [] => out | _ :: rest => parse_loop rest out end
      end
  end.

(** A string that is present and not empty. *)
Definition given (v : option jstr) : option jstr :=
  match v with Some (c :: s) => Some (c :: s) | _ => None end.

(** [None] is the usage message and exit code 2. *)
Definition parseArgs (argv : list jstr) : option Args :=
  let out := parse_loop argv (mkPartial None None None) in
  u ← given (p_url out);
  c ← given (p_channel out);
  t ← given (p_token out);
  Some (mkArgs u c t).

(** The URL the tool connects to. *)
Definition ws_url (args : Args) : result jstr := publish_url (url args) (channel args) (token args).

(** ** The stream *)

Definition TRACKS : list TrackInfo :=
  [mkTrack 1 (js "mic") (js "mic") (js "Microphone");
   mkTrack 2 (js "game") (js "game") (js "Game");
   mkTrack 3 (js "music") (js "music") (js "Spotify")].

Definition HELLO : HelloPayload :=
  mkHello 1 (js "mock-publisher/0.0.1") (mkAudio (js "opus") 48000 2 20).

(** The counters and what was handed to [ws.send]. *)
Record Publisher := mkPublisher { seq : gmap Z Z; sent : list (list Z) }.

Definition initial : Publisher := mkPublisher (list_to_map [(0, 0); (1, 0); (2, 0); (3, 0)]) [].

Definition send (frame : Frame) (p : Publisher) : result Publisher :=
  bytes ← encodeFrame frame;
  Ok (mkPublisher (seq p) (sent p ++ [bytes])).

(** [seq[id] = (seq[id] ?? 0) + 1]; a counter is at most 2^32 when it is sent,
    so the sum is exact. *)
Definition bump (id : Z) (p : Publisher) : Z * Publisher :=
  let n := default 0 (seq p !! id) + 1 in
  (n, mkPublisher (<[id := n]> (seq p)) (sent p)).

(** [ws.on("open")] up to the timers; the two readings of the clock. *)
Definition on_open (now1 now2 : Z) (p : Publisher) : result Publisher :=
  payload ← encodeHello HELLO;
  p ← send (mkFrame Hello CONTROL_TRACK 0 0 now1 payload) p;
  payload ← encodeTrackList TRACKS;
  send (mkFrame TrackList CONTROL_TRACK 0 1 now2 payload) p.

(** The 20 ms timer: one random buffer per track. *)
Fixpoint audio_tick (tsNow : Z) (getRandomValues : Z -> list Z) (ts : list TrackInfo) (p : Publisher) :
    result Publisher :=
  match ts with
  | [] => Ok p
  | t :: ts =>
      let '(n, p) := bump (t_id t) p in
      let buf := getRandomValues (t_id t) in
      p ← send (mkFrame AudioOpus (t_id t) 0 n tsNow buf) p;
      audio_tick tsNow getRandomValues ts p
  end.

(** [BigInt(floor(random * 2^31)) << 32n | BigInt(floor(random * 2^31))] *)
Definition random_hash (r : Z * Z) : Z := Z.lor (Z.shiftl r.1 32) r.2.

(** The 1 s timer: two random 31-bit integers per track. *)
Fixpoint fingerprint_tick (tsNow : Z) (random31 : Z -> Z * Z) (ts : list TrackInfo) (p : Publisher) :
    result Publisher :=
  match ts with
  | [] => Ok p
  | t :: ts =>
      let hash := random_hash (random31 (t_id t)) in
      let '(n, p) := bump (t_id t) p in
      payload ← encodeFingerprint (mkFingerprint hash 1000);
      p ← send (mkFrame Fingerprint (t_id t) 0 n tsNow payload) p;
      fingerprint_tick tsNow random31 ts p
  end.

Inductive Tick :=
  | Audio (tsNow : Z) (getRandomValues : Z -> list Z)
  | Prints (tsNow : Z) (random31 : Z -> Z * Z).

Definition run_tick (t : Tick) (p : Publisher) : result Publisher :=
  match t with
  | Audio now bufs => audio_tick now bufs TRACKS p
  | Prints now rnd => fingerprint_tick now rnd TRACKS p
  end.

Fixpoint run_ticks (ticks : list Tick) (p : Publisher) : result Publisher :=
  match ticks with
  | [] => Ok p
  | t :: ticks => p ← run_tick t p; run_ticks ticks p
  end.

(** The whole run: the socket opens, then the timers fire. *)
Definition publish (now1 now2 : Z) (ticks : list Tick) : result Publisher :=
  p ← on_open now1 now2 initial;
  run_ticks ticks p.

(** ** The process

    The socket is the environment's: it opens at most once, not after it was
    asked to close, and closes at most once.  An exception that leaves a handler
    ends the process. *)
Inductive Phase := connecting | opened | ended.

#[export] Instance Phase_eq_dec : EqDecision Phase.
Proof. solve_decision. Defined.

Record Process := mkProcess {
  phase : Phase;
  closing : bool;
  timer : bool;
  fpTimer : bool;
  pub : Publisher;
  exitCode : option Z;
}.

Definition start : Process := mkProcess connecting false false false initial None.

(** The end of a handler that sends; what it had sent when it threw is not kept,
    the process is gone. *)
Definition after (r : result Publisher) (p : Process) : Process :=
  match r with
  | Ok pub => mkProcess (phase p) (closing p) (timer p) (fpTimer p) pub (exitCode p)
  | Throw _ => mkProcess (phase p) (closing p) (timer p) (fpTimer p) (pub p) (Some 1)
  end.

(** [ws.on("open")]: the two frames, then the timers. *)
Definition handle_open (now1 now2 : Z) (p : Process) : Process :=
  match on_open now1 now2 (pub p) with
  | Ok pub => mkProcess opened (closing p) true true pub (exitCode p)
  | Throw e => after (Throw e) (mkProcess opened (closing p) (timer p) (fpTimer p) (pub p) (exitCode p))
  end.

Definition handle_tick (tick : Tick) (p : Process) : Process := after (run_tick tick (pub p)) p.

(** [ws.on("close")] *)
Definition handle_close (p : Process) : Process :=
  mkProcess ended (closing p) false false (pub p) (Some 0).

(** [process.on("SIGINT")]: [ws.close(1000, "shutdown")] *)
Definition handle_sigint (p : Process) : Process :=
  mkProcess (phase p) true (timer p) (fpTimer p) (pub p) (exitCode p).

Definition ticks_of (tick : Tick) (p : Process) : bool :=
  match tick with Audio _ _ => timer p | Prints _ _ => fpTimer p end.

(** ** What the run sends *)

Definition clock_ok (now : Z) : Prop := 0 <= now <= u64_max.

Definition tick_ok (t : Tick) : Prop :=
  match t with
  | Audio now bufs => clock_ok now /\ forall id, bytes_ok (bufs id) /\ length (bufs id) = 64%nat
  | Prints now rnd => clock_ok now /\ forall id, 0 <= (rnd id).1 < 2 ^ 31 /\ 0 <= (rnd id).2 < 2 ^ 31
  end.

(** What can happen to the process, with the ticks of the timers so far.  An
    "error" event only logs. *)
Inductive life : list Tick -> Process -> Prop :=
  | life_start : life [] start
  | life_open ticks p now1 now2 :
      life ticks p -> exitCode p = None -> phase p = connecting -> closing p = false ->
      clock_ok now1 -> clock_ok now2 -> life ticks (handle_open now1 now2 p)
  | life_tick ticks p tick :
      life ticks p -> exitCode p = None -> ticks_of tick p = true -> tick_ok tick ->
      life (ticks ++ [tick]) (handle_tick tick p)
  | life_sigint ticks p : life ticks p -> exitCode p = None -> life ticks (handle_sigint p)
  | life_close ticks p : life ticks p -> exitCode p = None -> life ticks (handle_close p).

Definition hello_bytes : list Z := match encodeHello HELLO with Ok b => b | Throw _ => [] end.
Definition tracks_bytes : list Z := match encodeTrackList TRACKS with Ok b => b | Throw _ => [] end.

(** The frame of a track in a tick; all counters are the number of the tick. *)
Definition tick_frame (n : Z) (tick : Tick) (t : TrackInfo) : Frame :=
  match tick with
  | Audio now bufs => mkFrame AudioOpus (t_id t) 0 n now (bufs (t_id t))
  | Prints now rnd =>
      mkFrame Fingerprint (t_id t) 0 n now
        (be_bytes 8 (random_hash (rnd (t_id t))) ++ be_bytes 2 1000)
  end.

Definition stream (now1 now2 : Z) (ticks : list Tick) : list Frame :=
  mkFrame Hello CONTROL_TRACK 0 0 now1 hello_bytes
  :: mkFrame TrackList CONTROL_TRACK 0 1 now2 tracks_bytes
  :: concat (imap (fun i tick => tick_frame (Z.of_nat i + 1) tick <$> TRACKS) ticks).

(** ** Lemmas *)

Lemma send_ok f p :
  frame_in_range f -> send f p = Ok (mkPublisher (seq p) (sent p ++ [frame_layout f])).
Proof. intros Hr. unfold send. by rewrite encodeFrame_in_range. Qed.

(** The counters of the tracks [ts] are at [n]; the others are those of [p0]. *)
Definition counters (ts : list TrackInfo) (n : Z) (p0 p : Publisher) : Prop :=
  forall id, seq p !! id = if decide (id ∈ t_id <$> ts) then Some n else seq p0 !! id.

Lemma track_frame_in_range ty t n now payload :
  1 <= t_id t <= MAX_TRACK_SLOT -> 0 <= n <= u32_max -> clock_ok now -> (length payload <= MAX_PAYLOAD_BYTES)%nat ->
  frame_in_range (mkFrame ty (t_id t) 0 n now payload).
Proof. unfold frame_in_range, clock_ok. cbn. lia. Qed.

(** Both loops: each track gets the next frame of its counter. *)
Lemma loop_spec (step : TrackInfo -> Z -> Publisher -> result Publisher) (frame : Z -> TrackInfo -> Frame)
    (loop : list TrackInfo -> Publisher -> result Publisher) n ts p :
  (forall p, loop [] p = Ok p) ->
  (forall t ts p, loop (t :: ts) p = let '(n, p) := bump (t_id t) p in p ← step t n p; loop ts p) ->
  (forall t p, t ∈ ts -> step t n p = send (frame n t) p /\ frame_in_range (frame n t)) ->
  NoDup (t_id <$> ts) -> (forall t, t ∈ ts -> seq p !! t_id t = Some (n - 1)) ->
  exists p', loop ts p = Ok p' /\ counters ts n p p'
    /\ sent p' = sent p ++ (frame_layout <$> (frame n <$> ts)).
Proof.
  intros Hnil Hcons. revert p. induction ts as [|t ts IH]; intros p Hstep Hnd Hseq.
  { exists p. rewrite Hnil. split; [done|]. split; [|by rewrite app_nil_r].
    intros id. by rewrite decide_False by by intros ?%not_elem_of_nil. }
  apply NoDup_cons in Hnd as [Hnew Hnd]. rewrite Hcons.
  assert (Hb : bump (t_id t) p = (n, mkPublisher (<[t_id t := n]> (seq p)) (sent p))).
  { unfold bump. rewrite (Hseq t) by by left. change (default 0 (Some (n - 1)) + 1) with (n - 1 + 1).
    by rewrite Z.sub_add. }
  rewrite Hb.
  destruct (Hstep t (mkPublisher (<[t_id t := n]> (seq p)) (sent p))) as [-> Hr]; [by left|].
  rewrite send_ok by done. cbn [mbind result_bind seq sent].
  set (p1 := mkPublisher (<[t_id t := n]> (seq p)) (sent p ++ [frame_layout (frame n t)])).
  destruct (IH p1) as (p' & Hl & Hc & Hs).
  - intros t' p0 Ht. apply Hstep. by right.
  - done.
  - intros t' Ht. cbn. rewrite lookup_insert_ne; [apply Hseq; by right|].
    intros Heq. apply Hnew. rewrite Heq. by apply list_elem_of_fmap_2.
  - exists p'. split; [done|]. split.
    + intros id. rewrite Hc. cbn [fmap list_fmap]. destruct (decide (id = t_id t)) as [->|Hne].
      * rewrite decide_False by done. rewrite decide_True by by left. cbn. by rewrite lookup_insert_eq.
      * cbn. rewrite lookup_insert_ne by done. apply decide_ext. rewrite elem_of_cons. tauto.
    + rewrite Hs. cbn. by rewrite <- app_assoc.
Qed.

Lemma TRACKS_ids : NoDup (t_id <$> TRACKS) /\ forall t, t ∈ TRACKS -> 1 <= t_id t <= MAX_TRACK_SLOT.
Proof.
  split; [by apply (bool_decide_unpack _); vm_compute|]. apply Forall_forall.
  by apply (bool_decide_unpack _); vm_compute.
Qed.

Lemma run_tick_spec tick n p :
  tick_ok tick -> 0 < n <= u32_max -> (forall t, t ∈ TRACKS -> seq p !! t_id t = Some (n - 1)) ->
  exists p', run_tick tick p = Ok p' /\ (forall t, t ∈ TRACKS -> seq p' !! t_id t = Some n)
    /\ sent p' = sent p ++ (frame_layout <$> (tick_frame n tick <$> TRACKS)).
Proof.
  intros Hok Hn Hseq. destruct TRACKS_ids as [Hnd Hids].
  assert (Hx : exists p', run_tick tick p = Ok p' /\ counters TRACKS n p p'
      /\ sent p' = sent p ++ (frame_layout <$> (tick_frame n tick <$> TRACKS))).
  { destruct tick as [now bufs|now rnd]; destruct Hok as [Hnow Hok]; cbn [run_tick].
    - apply (loop_spec (fun t n => send (mkFrame AudioOpus (t_id t) 0 n now (bufs (t_id t))))
               (fun n => tick_frame n (Audio now bufs)) (audio_tick now bufs)); try done.
      intros t p0 Ht. split; [done|]. apply track_frame_in_range; [by apply Hids|lia|done|].
      rewrite (proj2 (Hok (t_id t))). by apply Nat.leb_le.
    - apply (loop_spec (fun t n p => payload ← encodeFingerprint (mkFingerprint (random_hash (rnd (t_id t))) 1000);
                          send (mkFrame Fingerprint (t_id t) 0 n now payload) p)
               (fun n => tick_frame n (Prints now rnd)) (fingerprint_tick now rnd)); try done.
      intros t p0 Ht. rewrite encodeFingerprint_bytes. split; [done|].
      apply track_frame_in_range; [by apply Hids|lia|done|]. rewrite length_app, !be_bytes_length.
      by apply Nat.leb_le. }
  destruct Hx as (p' & Hr & Hc & Hs). exists p'. split; [done|]. split; [|done].
  intros t Ht. rewrite Hc, decide_True; [done|by apply list_elem_of_fmap_2].
Qed.

Lemma run_ticks_spec ticks n p :
  Forall tick_ok ticks -> 0 <= n -> n + Z.of_nat (length ticks) <= u32_max ->
  (forall t, t ∈ TRACKS -> seq p !! t_id t = Some n) ->
  exists p', run_ticks ticks p = Ok p'
    /\ sent p' = sent p ++ (frame_layout <$>
         concat (imap (fun i tick => tick_frame (n + Z.of_nat i + 1) tick <$> TRACKS) ticks)).
Proof.
  intros Hok. revert n p. induction Hok as [|tick ticks Ht _ IH]; intros n p Hn Hlen Hseq.
  { exists p. split; [done|]. cbn. by rewrite app_nil_r. }
  cbn [length] in Hlen. cbn [run_ticks].
  destruct (run_tick_spec tick (n + 1) p) as (p1 & -> & Hseq1 & Hs1); [done|lia| |].
  { intros t Hin. replace (n + 1 - 1) with n by lia. by apply Hseq. }
  cbn [mbind result_bind]. destruct (IH (n + 1) p1) as (p' & Hr & Hs); [lia|lia|done|].
  exists p'. split; [done|]. rewrite Hs, Hs1, <- app_assoc. f_equal. cbn [imap concat].
  rewrite fmap_app. replace (n + Z.of_nat 0 + 1) with (n + 1) by lia. do 3 f_equal.
  apply imap_ext. intros i x _. cbn. by replace (n + 1 + Z.of_nat i + 1) with (n + Z.of_nat (S i) + 1) by lia.
Qed.

Lemma on_open_spec now1 now2 :
  clock_ok now1 -> clock_ok now2 ->
  on_open now1 now2 initial
  = Ok (mkPublisher (seq initial)
          [frame_layout (mkFrame Hello CONTROL_TRACK 0 0 now1 hello_bytes);
           frame_layout (mkFrame TrackList CONTROL_TRACK 0 1 now2 tracks_bytes)]).
Proof.
  intros H1 H2. unfold on_open.
  assert (He : encodeHello HELLO = Ok hello_bytes) by by vm_compute.
  assert (Ht : encodeTrackList TRACKS = Ok tracks_bytes) by by vm_compute.
  assert (Lh : (length hello_bytes <= MAX_PAYLOAD_BYTES)%nat) by by apply Nat.leb_le; vm_compute.
  assert (Lt : (length tracks_bytes <= MAX_PAYLOAD_BYTES)%nat) by by apply Nat.leb_le; vm_compute.
  rewrite He. cbn [mbind result_bind].
  rewrite send_ok by (unfold frame_in_range, clock_ok in *; cbn; split; [done|]; by repeat split; try lia).
  cbn [mbind result_bind]. rewrite Ht. cbn [mbind result_bind].
  rewrite send_ok by (unfold frame_in_range, clock_ok in *; cbn; split; [done|]; by repeat split; try lia).
  done.
Qed.

Lemma publish_spec now1 now2 ticks :
  clock_ok now1 -> clock_ok now2 -> Forall tick_ok ticks -> Z.of_nat (length ticks) <= u32_max ->
  exists p, publish now1 now2 ticks = Ok p /\ sent p = frame_layout <$> stream now1 now2 ticks.
Proof.
  intros H1 H2 Hok Hlen. unfold publish. rewrite on_open_spec by done. cbn [mbind result_bind].
  destruct (run_ticks_spec ticks 0 (mkPublisher (seq initial)
    [frame_layout (mkFrame Hello CONTROL_TRACK 0 0 now1 hello_bytes);
     frame_layout (mkFrame TrackList CONTROL_TRACK 0 1 now2 tracks_bytes)])) as (p & Hr & Hs); [done|lia|lia| |].
  { intros t. apply (proj1 (Forall_forall (fun t => seq initial !! t_id t = Some 0) TRACKS)).
    by apply (bool_decide_unpack _); vm_compute. }
  exists p. split; [done|]. rewrite Hs. done.
Qed.

Lemma tick_frame_in_range n tick t :
  tick_ok tick -> 0 <= n <= u32_max -> t ∈ TRACKS -> frame_in_range (tick_frame n tick t).
Proof.
  intros Hok Hn Ht. apply (proj2 TRACKS_ids) in Ht.
  destruct tick as [now bufs|now rnd]; destruct Hok as [Hnow Hok]; apply track_frame_in_range; try done.
  - rewrite (proj2 (Hok (t_id t))). by apply Nat.leb_le.
  - rewrite length_app, !be_bytes_length. by apply Nat.leb_le.
Qed.

Lemma stream_in_range now1 now2 ticks f :
  clock_ok now1 -> clock_ok now2 -> Forall tick_ok ticks -> Z.of_nat (length ticks) <= u32_max ->
  f ∈ stream now1 now2 ticks -> frame_in_range f.
Proof.
  intros H1 H2 Hok Hlen. unfold stream. rewrite !elem_of_cons, list_elem_of_In, in_concat.
  assert (Lh : (length hello_bytes <= MAX_PAYLOAD_BYTES)%nat) by by apply Nat.leb_le; vm_compute.
  assert (Lt : (length tracks_bytes <= MAX_PAYLOAD_BYTES)%nat) by by apply Nat.leb_le; vm_compute.
  unfold clock_ok in *.
  intros [-> | [-> | (l & Hl%list_elem_of_In & Hf%list_elem_of_In)]].
  - unfold frame_in_range. cbn. by repeat split; try lia.
  - unfold frame_in_range. cbn. by repeat split; try lia.
  - apply list_elem_of_lookup_1 in Hl as [i Hi]. rewrite list_lookup_imap in Hi.
    apply fmap_Some in Hi as (tick & E & ->).
    apply list_elem_of_fmap in Hf as (t & -> & Ht). rewrite Forall_lookup in Hok.
    apply tick_frame_in_range; [by eapply Hok| |done]. apply lookup_lt_Some in E. lia.
Qed.

(** *** The process *)

Lemma stream_snoc now1 now2 ticks tick :
  stream now1 now2 (ticks ++ [tick])
  = stream now1 now2 ticks ++ (tick_frame (Z.of_nat (length ticks) + 1) tick <$> TRACKS).
Proof.
  unfold stream. rewrite imap_app, concat_app. cbn [imap concat app]. by rewrite Nat.add_0_r, app_nil_r.
Qed.

(** The stream up to the last tick. *)
Definition streaming (ticks : list Tick) (q : Publisher) : Prop :=
  exists now1 now2, clock_ok now1 /\ clock_ok now2 /\ Forall tick_ok ticks
    /\ (forall t, t ∈ TRACKS -> seq q !! t_id t = Some (Z.of_nat (length ticks)))
    /\ sent q = frame_layout <$> stream now1 now2 ticks.

Record life_inv (ticks : list Tick) (p : Process) : Prop := {
  lf_exit : exitCode p = if decide (phase p = ended) then Some 0 else None;
  lf_timers : timer p = bool_decide (phase p = opened) /\ fpTimer p = bool_decide (phase p = opened);
  lf_sent : match phase p with
            | connecting => ticks = [] /\ pub p = initial
            | opened => streaming ticks (pub p)
            | ended => ticks = [] /\ pub p = initial \/ streaming ticks (pub p)
            end;
}.

Lemma initial_seq t : t ∈ TRACKS -> seq initial !! t_id t = Some 0.
Proof.
  apply (proj1 (Forall_forall (fun t => seq initial !! t_id t = Some 0) TRACKS)).
  by apply (bool_decide_unpack _); vm_compute.
Qed.

Lemma open_streams now1 now2 :
  clock_ok now1 -> clock_ok now2 -> exists q, on_open now1 now2 initial = Ok q /\ streaming [] q.
Proof.
  intros H1 H2. eexists. split; [by apply on_open_spec|]. exists now1, now2. split_and!; try done.
  exact initial_seq.
Qed.

Lemma tick_streams ticks tick q :
  streaming ticks q -> tick_ok tick -> Z.of_nat (length ticks) < u32_max ->
  exists q', run_tick tick q = Ok q' /\ streaming (ticks ++ [tick]) q'.
Proof.
  intros (now1 & now2 & H1 & H2 & Hok & Hseq & Hs) Ht Hlen.
  destruct (run_tick_spec tick (Z.of_nat (length ticks) + 1) q) as (q' & Hr & Hseq' & Hs'); [done|lia| |].
  { intros t Hin. rewrite (Hseq t Hin). f_equal. lia. }
  exists q'. split; [done|]. exists now1, now2. split_and!; try done.
  - by apply Forall_app, conj, Forall_singleton.
  - intros t Hin. rewrite (Hseq' t Hin), length_app. cbn. f_equal. lia.
  - by rewrite Hs', Hs, stream_snoc, fmap_app.
Qed.

Lemma life_holds ticks p : life ticks p -> Z.of_nat (length ticks) <= u32_max -> life_inv ticks p.
Proof.
  induction 1 as [|ticks p now1 now2 _ IH He Hph Hcl H1 H2|ticks p tick _ IH He Htk Hok|ticks p _ IH He|ticks p _ IH He];
    intros Hlen.
  - by split.
  - destruct (IH Hlen) as [_ _ Hs]. rewrite Hph in Hs. destruct Hs as [-> Hp]. unfold handle_open. rewrite Hp.
    destruct (open_streams now1 now2 H1 H2) as (q & -> & Hq). by split.
  - rewrite length_app in Hlen. cbn in Hlen. destruct (IH ltac:(lia)) as [_ [Ha Hb] Hs].
    assert (Hph : phase p = opened).
    { destruct tick; cbn in Htk; [rewrite Ha in Htk | rewrite Hb in Htk]; by apply bool_decide_eq_true in Htk. }
    rewrite Hph in *. destruct (tick_streams ticks tick (pub p) Hs Hok ltac:(lia)) as (q & Hq & Hs').
    unfold handle_tick, after. rewrite Hq. split; cbn; rewrite ?Hph; by try split.
  - destruct (IH Hlen). by split.
  - destruct (IH Hlen) as [Hex _ Hs]. split; [done|done|]. cbn. rewrite Hex in He.
    destruct (phase p); [by left|by right|done].
Qed.

(** *** The command line *)

Inductive Flag := FUrl | FChannel | FToken.

#[export] Instance Flag_eq_dec : EqDecision Flag.
Proof. solve_decision. Defined.

Definition flag_name (f : Flag) : jstr :=
  match f with FUrl => js "--url" | FChannel => js "--channel" | FToken => js "--token" end.

(** A command line as it is meant: options with their values, and words the
    tool skips. *)
Definition item : Type := (Flag * jstr) + jstr.

Definition render (i : item) : list jstr :=
  match i with inl (f, v) => [flag_name f; v] | inr w => [w] end.

Definition skipped (i : item) : Prop :=
  match i with inl _ => True | inr w => forall f, w <> flag_name f end.

(** The value given last. *)
Definition last_value (f : Flag) (items : list item) (before : option jstr) : option jstr :=
  foldl (fun v i => match i with
                    | inl (f', v') => if decide (f' = f) then Some v' else v
                    | inr _ => v
                    end) before items.

Lemma set_option_flag f v out :
  set_option (flag_name f) v out = Some (match f with
    | FUrl => mkPartial v (p_channel out) (p_token out)
    | FChannel => mkPartial (p_url out) v (p_token out)
    | FToken => mkPartial (p_url out) (p_channel out) v end).
Proof. unfold set_option. by destruct f. Qed.

Lemma set_option_word w v out : (forall f, w <> flag_name f) -> set_option w v out = None.
Proof.
  intros Hw. unfold set_option.
  by rewrite !bool_decide_false by first [apply (Hw FUrl) | apply (Hw FChannel) | apply (Hw FToken)].
Qed.

Lemma parse_loop_items items out :
  Forall skipped items ->
  parse_loop (concat (render <$> items)) out
  = mkPartial (last_value FUrl items (p_url out)) (last_value FChannel items (p_channel out))
      (last_value FToken items (p_token out)).
Proof.
  intros Hs. revert out. induction Hs as [|i items Hi _ IH]; intros out; [by destruct out|].
  destruct i as [[f v]|w]; cbn [fmap list_fmap concat render app parse_loop head].
  - rewrite set_option_flag, IH. by destruct f.
  - rewrite set_option_word, IH by exact Hi. done.
Qed.

(** ** Properties *)

(** The command line.  Options may come in any order, between words that
    are skipped (such as the [--] of pnpm), and the last value of each counts;
    the tool runs exactly when all three are there and not empty. *)
Theorem parseArgs_items (items : list item) :
  Forall skipped items ->
  parseArgs (concat (render <$> items))
  = match last_value FUrl items None, last_value FChannel items None, last_value FToken items None with
    | Some u, Some c, Some t =>
        if decide (u <> [] /\ c <> [] /\ t <> []) then Some (mkArgs u c t) else None
    | _, _, _ => None
    end.
Proof.
  intros Hs. unfold parseArgs. rewrite parse_loop_items by done. cbn [p_url p_channel p_token].
  destruct (last_value FUrl items None) as [u|]; [|done].
  destruct (last_value FChannel items None) as [c|]; [|by destruct u].
  destruct (last_value FToken items None) as [t|]; [|by destruct u, c].
  case_decide as Hd; destruct u, c, t; try done; naive_solver.
Qed.

Lemma parseArgs_items_witness :
  parseArgs (js <$> ["--"; "--token"; "T"; "--url"; "ws://a"; "--channel"; "twitch:dev"; "--url"; "ws://b"]%string)
  = Some (mkArgs (js "ws://b") (js "twitch:dev") (js "T")).
Proof.
  transitivity (parseArgs (concat (render <$> [inr (js "--"); inl (FToken, js "T"); inl (FUrl, js "ws://a");
    inl (FChannel, js "twitch:dev"); inl (FUrl, js "ws://b")]))); [done|].
  rewrite parseArgs_items; [by vm_compute|].
  apply Forall_cons. split; [intros f; by destruct f|]. by repeat (apply Forall_cons; split; [done|]).
Defined.

(** C30: the mock stream.  Whatever the clock and the random sources give,
    however the timers interleave and whenever the process is interrupted, no
    handler throws (up to 2^32-1 timer ticks); the process ends, with code 0,
    exactly when its socket has closed, and then no timer is set.  What it has
    sent a receiver decodes as HELLO, TRACK_LIST and, for the n-th tick of either
    timer, one frame per track with sequence number n: audio and fingerprints of
    a track share one counter.  Before the socket opens nothing was sent. *)
Theorem publisher_stream (ticks : list Tick) (p : Process) :
  life ticks p -> Z.of_nat (length ticks) <= u32_max ->
  exitCode p = (if decide (phase p = ended) then Some 0 else None)
  /\ (phase p = ended -> timer p = false /\ fpTimer p = false)
  /\ (phase p = connecting -> ticks = [] /\ sent (pub p) = [])
  /\ (sent (pub p) = [] /\ phase p <> opened
      \/ exists now1 now2, decodeFrame <$> sent (pub p) = Ok <$> stream now1 now2 ticks).
Proof.
  intros Hl Hlen. destruct (life_holds ticks p Hl Hlen) as [He [Ht Hf] Hs]. split; [exact He|].
  split; [intros Hph; rewrite Ht, Hf, Hph; by split|].
  assert (Hdec : streaming ticks (pub p) ->
                 exists now1 now2, decodeFrame <$> sent (pub p) = Ok <$> stream now1 now2 ticks).
  { intros (now1 & now2 & H1 & H2 & Hok & _ & ->). exists now1, now2. rewrite <- list_fmap_compose.
    apply list_fmap_ext. intros i f Hi. cbn. apply decodeFrame_layout.
    by eapply stream_in_range; [..|by eapply list_elem_of_lookup_2]. }
  split.
  - intros Hph. rewrite Hph in Hs. destruct Hs as [H1 H2]. by rewrite H2.
  - destruct (phase p); [left|by right; apply Hdec|destruct Hs as [Hs|Hs]; [left|by right; apply Hdec]];
      destruct Hs as [_ ->]; by split.
Qed.

(** Two audio ticks around a fingerprint. *)
Definition demo_ticks : list Tick :=
  [Audio 10 (fun _ => replicate 64 7); Prints 20 (fun _ => (5, 6)); Audio 30 (fun _ => replicate 64 8)].

Lemma demo_ticks_ok : Forall tick_ok demo_ticks.
Proof.
  repeat (apply Forall_cons; split); [..|apply Forall_nil_2]; (split; [unfold clock_ok, u64_max; lia|intros id]).
  - split; [by apply (bool_decide_unpack _); vm_compute|done].
  - cbn. lia.
  - split; [by apply (bool_decide_unpack _); vm_compute|done].
Qed.

(** The process opens its socket, ticks, is interrupted and ends. *)
Definition running : Process := foldl (fun p tick => handle_tick tick p) (handle_open 1 2 start) demo_ticks.
Definition demo_process : Process := handle_close (handle_sigint running).

Lemma demo_process_life : life demo_ticks demo_process.
Proof.
  assert (H0 : life [] (handle_open 1 2 start)).
  { apply life_open; [apply life_start|done|done|done|..]; unfold clock_ok, u64_max; lia. }
  pose proof demo_ticks_ok as Hok. unfold demo_ticks in Hok.
  apply Forall_cons in Hok as [T1 Hok]. apply Forall_cons in Hok as [T2 Hok]. apply Forall_cons in Hok as [T3 _].
  refine (life_close _ _ (life_sigint _ _ (life_tick _ _ _ (life_tick _ _ _ (life_tick _ _ _ H0 _ _ T1) _ _ T2) _ _ T3) _) _);
    by vm_compute.
Qed.

Lemma publisher_stream_witness :
  exitCode demo_process = Some 0 /\ timer demo_process = false /\ length (sent (pub demo_process)) = 11%nat.
Proof.
  destruct (publisher_stream demo_ticks demo_process demo_process_life) as (He & Ht & _ & _);
    [by apply (bool_decide_unpack _); vm_compute|].
  split; [exact He|]. split; [by apply Ht|by vm_compute].
Defined.
