(* ===== verification/Subscriber.v ===== *)
(** * The mock subscriber

    Models tools/mock-subscriber/src/main.ts: the command line, the counts per
    message type, what is printed, and the life of the process until the socket
    closes. *)
From S2P Require Import Prelude JsString Wire Messages Uri.

(** ** parseArgs *)

Record Args := mkArgs { url : jstr; channel : jstr; summarize : bool }.
Record PartialArgs := mkPartial { p_url : option jstr; p_channel : option jstr; p_summarize : bool }.

(** [argv[++i]] takes the next word, whatever it is. *)
Fixpoint parse_loop (argv : list jstr) (out : PartialArgs) : PartialArgs :=
  match argv with
  | [] => out
  | a :: rest =>
      if bool_decide (a = js "--url") then
        let out := mkPartial (head rest) (p_channel out) (p_summarize out) in
        match rest with [] => out | _ :: rest => parse_loop rest out end
      else if bool_decide (a = js "--channel") then
        let out := mkPartial (p_url out) (head rest) (p_summarize out) in
        match rest with [] => out | _ :: rest => parse_loop rest out end
      else if bool_decide (a = js "--verbose") then
        parse_loop rest (mkPartial (p_url out) (p_channel out) false)
      else parse_loop rest out
  end.

(** [None] is the usage message and exit code 2. *)
Definition parseArgs (argv : list jstr) : option Args :=
  let out := parse_loop argv (mkPartial None None true) in
  match p_url out, p_channel out with
  | Some (u :: us), Some (c :: cs) => Some (mkArgs (u :: us) (c :: cs) (p_summarize out))
  | _, _ => None
  end.

Definition ws_url (args : Args) : result jstr := subscribe_url (url args) (channel args).

(** ** Messages *)

(** [MessageType[frame.type]]: a frame that decodes has a known type, so the
    hexadecimal fallback is never taken. *)
Definition type_name (t : MessageType) : jstr :=
  match t with
  | Hello => js "Hello"
  | TrackList => js "TrackList"
  | AudioOpus => js "AudioOpus"
  | Fingerprint => js "Fingerprint"
  | TrackMeta => js "TrackMeta"
  | Stats => js "Stats"
  | SubTracks => js "SubTracks"
  | Error => js "Error"
  end.

Inductive Line :=
  | LDecodeError (e : Exn)
  | LFrame (name : jstr) (track seq : Z) (len : nat)
  | LTrackList (tracks : list (Z * jstr))
  | LRelayError (code message : jstr)
  | LSubscribed
  | LSoFar (counts : gmap jstr Z)
  | LClosed
  | LCounts (counts : gmap jstr Z).

Record Subscriber := mkSubscriber { counts : gmap jstr Z; log : list Line }.

Definition on_message (summarize : bool) (data : list Z) (s : Subscriber) : Subscriber :=
  match decodeFrame data with
  | Throw e => mkSubscriber (counts s) (log s ++ [LDecodeError e])
  | Ok frame =>
      let name := type_name (f_type frame) in
      let counts := <[name := default 0 (counts s !! name) + 1]> (counts s) in
      let log := if negb summarize
                 then log s ++ [LFrame name (f_track frame) (f_seq frame) (length (f_payload frame))]
                 else log s in
      match f_type frame with
      | TrackList =>
          match decodeTrackList (f_payload frame) with
          | Ok tl => mkSubscriber counts (log ++ [LTrackList ((fun t => (t_id t, t_slug t)) <$> tl)])
          | Throw _ => mkSubscriber counts log
          end
      | Error =>
          match decodeError (f_payload frame) with
          | Ok err => mkSubscriber counts (log ++ [LRelayError (e_code err) (e_message err)])
          | Throw _ => mkSubscriber counts log
          end
      | _ => mkSubscriber counts log
      end
  end.

(** The messages of a connection. *)
Definition on_messages (summarize : bool) (datas : list (list Z)) (s : Subscriber) : Subscriber :=
  foldl (fun s data => on_message summarize data s) s datas.

(** The heartbeat: what it prints, when it prints. *)
Definition heartbeat (summarize : bool) (s : Subscriber) : option (gmap jstr Z) :=
  if summarize && negb (bool_decide (counts s = ∅)) then Some (counts s) else None.

(** ** The process

    As for the publisher (Publisher.v) the socket is the environment's. *)
Inductive Phase := connecting | opened | ended.

#[export] Instance Phase_eq_dec : EqDecision Phase.
Proof. solve_decision. Defined.

Record Process := mkProcess {
  phase : Phase;
  closing : bool;
  interval : bool;
  sub : Subscriber;
  exitCode : option Z;
}.

Definition start : Process := mkProcess connecting false true (mkSubscriber ∅ []) None.

Definition print (l : list Line) (s : Subscriber) : Subscriber := mkSubscriber (counts s) (log s ++ l).

Definition with_sub (s : Subscriber) (p : Process) : Process :=
  mkProcess (phase p) (closing p) (interval p) s (exitCode p).

(** [ws.on("open")] *)
Definition handle_open (p : Process) : Process :=
  mkProcess opened (closing p) (interval p) (print [LSubscribed] (sub p)) (exitCode p).

Definition handle_message (summarize : bool) (data : list Z) (p : Process) : Process :=
  with_sub (on_message summarize data (sub p)) p.

(** The 5 s interval. *)
Definition handle_interval (summarize : bool) (p : Process) : Process :=
  match heartbeat summarize (sub p) with
  | Some m => with_sub (print [LSoFar m] (sub p)) p
  | None => p
  end.

(** [ws.on("close")] *)
Definition handle_close (p : Process) : Process :=
  mkProcess ended (closing p) (interval p) (print [LClosed; LCounts (counts (sub p))] (sub p)) (Some 0).

(** [process.on("SIGINT")] *)
Definition handle_sigint (p : Process) : Process :=
  mkProcess (phase p) true false (sub p) (exitCode p).

(** What can happen to the process, with the messages it has received. *)
Inductive life (summarize : bool) : list (list Z) -> Process -> Prop :=
  | life_start : life summarize [] start
  | life_open datas p :
      life summarize datas p -> exitCode p = None -> phase p = connecting -> closing p = false ->
      life summarize datas (handle_open p)
  | life_message datas p data :
      life summarize datas p -> exitCode p = None -> phase p = opened ->
      life summarize (datas ++ [data]) (handle_message summarize data p)
  | life_interval datas p :
      life summarize datas p -> exitCode p = None -> interval p = true ->
      life summarize datas (handle_interval summarize p)
  | life_sigint datas p : life summarize datas p -> exitCode p = None -> life summarize datas (handle_sigint p)
  | life_close datas p : life summarize datas p -> exitCode p = None -> life summarize datas (handle_close p).

(** ** Lemmas *)

Definition has_type (t : MessageType) (data : list Z) : bool :=
  match decodeFrame data with Ok f => bool_decide (f_type f = t) | Throw _ => false end.

(** Well-formed messages of a type. *)
Definition occurrences (t : MessageType) (datas : list (list Z)) : Z :=
  Z.of_nat (length (filter (has_type t) datas)).

#[export] Instance type_name_inj : Inj (=) (=) type_name.
Proof. intros [] []; by vm_compute. Qed.

(** A message adds one to the count of its type. *)
Lemma on_message_counts summarize data s :
  counts (on_message summarize data s)
  = match decodeFrame data with
    | Ok f => <[type_name (f_type f) := default 0 (counts s !! type_name (f_type f)) + 1]> (counts s)
    | Throw _ => counts s
    end.
Proof.
  unfold on_message. destruct (decodeFrame data) as [frame|e]; [|done].
  by destruct (f_type frame); try destruct (decodeTrackList _); try destruct (decodeError _).
Qed.

Lemma on_message_count summarize data s t :
  default 0 (counts (on_message summarize data s) !! type_name t)
  = default 0 (counts s !! type_name t) + (if has_type t data then 1 else 0).
Proof.
  rewrite on_message_counts. unfold has_type. destruct (decodeFrame data) as [frame|e]; [|lia].
  case_bool_decide as Ht; [rewrite Ht|].
  - by rewrite lookup_insert_eq.
  - rewrite lookup_insert_ne by by intros ?%(inj type_name). lia.
Qed.

Lemma on_messages_count summarize datas s t :
  default 0 (counts (on_messages summarize datas s) !! type_name t)
  = default 0 (counts s !! type_name t) + occurrences t datas.
Proof.
  unfold on_messages, occurrences. revert s. induction datas as [|data datas IH]; intros s.
  { cbn. lia. }
  cbn [foldl]. rewrite IH, on_message_count, filter_cons.
  destruct (has_type t data); [rewrite decide_True by done|rewrite decide_False by (by intros [])]; cbn [length]; lia.
Qed.

(** Every count is of a type, and positive. *)
Definition counts_ok (s : Subscriber) : Prop :=
  forall name n, counts s !! name = Some n -> 0 < n /\ exists t, name = type_name t.

Lemma on_messages_ok summarize datas s : counts_ok s -> counts_ok (on_messages summarize datas s).
Proof.
  unfold on_messages. revert s. induction datas as [|data datas IH]; intros s Hs; [done|].
  apply IH. intros name n. rewrite on_message_counts. destruct (decodeFrame data) as [f|]; [|apply Hs].
  destruct (decide (name = type_name (f_type f))) as [->|Hne].
  - rewrite lookup_insert_eq. intros [= <-]. split; [|eauto].
    destruct (counts s !! type_name (f_type f)) as [m|] eqn:E; [|done]. apply Hs in E as [? _].
    change (0 < m + 1). lia.
  - rewrite lookup_insert_ne by done. apply Hs.
Qed.

(** *** The process *)

Lemma occurrences_snoc t datas data : occurrences t datas <= occurrences t (datas ++ [data]).
Proof. unfold occurrences. rewrite filter_app, length_app. lia. Qed.

(** A printed summary tells of messages that have arrived. *)
Definition summary_ok (summarize : bool) (datas : list (list Z)) (l : Line) : Prop :=
  match l with
  | LSoFar m => summarize = true /\ m <> ∅ /\ forall t, default 0 (m !! type_name t) <= occurrences t datas
  | _ => True
  end.

Lemma summary_snoc summarize datas data l :
  summary_ok summarize datas l -> summary_ok summarize (datas ++ [data]) l.
Proof.
  destruct l; try done. intros (H1 & H2 & H3). split_and!; [done|done|]. intros t.
  pose proof (H3 t). pose proof (occurrences_snoc t datas data). lia.
Qed.

(** A message prints no summary. *)
Lemma on_message_log summarize data s :
  exists ls, log (on_message summarize data s) = log s ++ ls
             /\ Forall (fun l => match l with LSoFar _ => False | _ => True end) ls.
Proof.
  unfold on_message. destruct (decodeFrame data) as [f|e]; [|by exists [LDecodeError e]; split; [|constructor]].
  set (first := if negb summarize then log s ++ _ else log s).
  assert (Hfirst : exists ls, first = log s ++ ls
                     /\ Forall (fun l => match l with LSoFar _ => False | _ => True end) ls).
  { unfold first. destruct (negb summarize); [|by exists []; rewrite app_nil_r]. eexists. split; [done|].
    by constructor. }
  destruct Hfirst as (ls & Hf & Hls). rewrite Hf.
  assert (Hmore : forall l, (match l with LSoFar _ => False | _ => True end) ->
            exists ls', (log s ++ ls) ++ [l] = log s ++ ls'
              /\ Forall (fun l => match l with LSoFar _ => False | _ => True end) ls').
  { intros l Hl. exists (ls ++ [l]). rewrite app_assoc. split; [done|]. apply Forall_app. split; [done|].
    by constructor. }
  destruct (f_type f); try by exists ls.
  - destruct (decodeTrackList (f_payload f)); [by apply Hmore|by exists ls].
  - destruct (decodeError (f_payload f)); [by apply Hmore|by exists ls].
Qed.

Record life_inv (summarize : bool) (datas : list (list Z)) (p : Process) : Prop := {
  lf_counts : counts (sub p) = counts (on_messages summarize datas (mkSubscriber ∅ []));
  lf_exit : exitCode p = if decide (phase p = ended) then Some 0 else None;
  lf_last : phase p = ended -> last (log (sub p)) = Some (LCounts (counts (sub p)));
  lf_summaries : Forall (summary_ok summarize datas) (log (sub p));
}.

Lemma report_holds summarize datas p : life summarize datas p -> life_inv summarize datas p.
Proof.
  induction 1 as [|datas p _ [Hc He Hl Hs] Hx Hp|datas p data _ [Hc He Hl Hs] Hx Hp|datas p _ [Hc He Hl Hs] Hx
    |datas p _ [Hc He Hl Hs] Hx|datas p _ [Hc He Hl Hs] Hx].
  - by split.
  - rewrite Hx, Hp in *. split; cbn; try done. apply Forall_app. split; [done|]. by constructor.
  - assert (Hne : phase p <> ended) by (rewrite Hp; done). split; cbn.
    + unfold on_messages in *. rewrite foldl_app. cbn [foldl]. by rewrite !on_message_counts, Hc.
    + exact He.
    + by intros.
    + destruct (on_message_log summarize data (sub p)) as (ls & -> & Hls). apply Forall_app. split.
      * eapply Forall_impl; [exact Hs|]. intros l. apply summary_snoc.
      * eapply Forall_impl; [exact Hls|]. by intros [].
  - unfold handle_interval, heartbeat. destruct summarize; cbn [andb]; [|done].
    case_bool_decide as Hn; cbn [negb]; [done|]. split; cbn; try done.
    + intros Hph. rewrite Hph in He. by rewrite Hx in He.
    + apply Forall_app. split; [done|]. constructor; [|done]. split; [done|]. split; [done|].
      intros t. rewrite Hc, on_messages_count. cbn. rewrite lookup_empty. cbn. lia.
  - by split.
  - split; cbn; try done.
    + intros _. change [LClosed; LCounts (counts (sub p))] with ([LClosed] ++ [LCounts (counts (sub p))]).
      by rewrite app_assoc, last_snoc.
    + apply Forall_app. split; [done|]. by repeat constructor.
Qed.

(** ** Properties *)

(** C31: the subscriber's report.  Whatever messages arrive, well-formed or not,
    the count of each type is the number of messages that decode to a frame of
    that type, and no other name is counted; a summary on the way is printed only
    when summarizing, has something to say, and counts no message before it has
    arrived.  The process ends, with code 0, exactly when its socket has closed,
    and the counts are the last it prints. *)
Theorem subscriber_report (summarize : bool) (datas : list (list Z)) (p : Process) :
  life summarize datas p ->
  (forall t, default 0 (counts (sub p) !! type_name t) = occurrences t datas)
  /\ (forall name, is_Some (counts (sub p) !! name) -> exists t, name = type_name t)
  /\ exitCode p = (if decide (phase p = ended) then Some 0 else None)
  /\ (phase p = ended -> last (log (sub p)) = Some (LCounts (counts (sub p))))
  /\ forall m, LSoFar m ∈ log (sub p) ->
       summarize = true /\ m <> ∅ /\ forall t, default 0 (m !! type_name t) <= occurrences t datas.
Proof.
  intros [Hc He Hl Hs]%report_holds. split; [intros t; rewrite Hc; apply on_messages_count|].
  split; [|split; [exact He|split; [exact Hl|]]].
  - intros name [n Hn]. rewrite Hc in Hn.
    assert (Hok : counts_ok (on_messages summarize datas (mkSubscriber ∅ []))) by by apply on_messages_ok.
    by apply Hok in Hn as [_ ?].
  - intros m Hm. rewrite Forall_forall in Hs. apply (Hs (LSoFar m) Hm).
Qed.

(** Junk and a frame arrive, the interval fires, the relay closes. *)
Definition demo_frame : list Z :=
  match encodeFrame (mkFrame Fingerprint 1 0 2 3 []) with Ok b => b | Throw _ => [] end.

Definition demo_process : Process :=
  handle_close (handle_interval true (handle_message true demo_frame (handle_message true [1; 2] (handle_open start)))).

Lemma demo_report_life : life true [[1; 2]; demo_frame] demo_process.
Proof.
  refine (life_close _ _ _ (life_interval _ _ _ (life_message _ _ _ _ (life_message _ _ _ _
    (life_open _ _ _ (life_start _) _ _ _) _ _) _ _) _ _) _); by vm_compute.
Qed.

Lemma subscriber_report_witness :
  exitCode demo_process = Some 0 /\ last (log (sub demo_process)) = Some (LCounts {[js "Fingerprint" := 1]}).
Proof.
  destruct (subscriber_report true _ demo_process demo_report_life) as (_ & _ & He & Hl & _).
  split; [exact He|]. rewrite Hl; [by vm_compute|done].
Defined.
