(* ===== verification/MixerView.v ===== *)
(** * The mixer panel

    Models extension/src/ui/Mixer.svelte: what the panel shows for given
    properties, and the callback each control calls.  A range input holds a
    number between its [min] and [max] (the browser enforces it); Svelte
    renders the markup from the properties each time [$set] is called. *)
From Stdlib Require Import SpecFloat.
From S2P Require Import Prelude Wire JsString JsNumber Categories Messages JsObject Display Prefs.
From S2P Require Import WebAudio Graph Mixer Playback Content.

(** ** Number formatting *)

(** [Math.round]: the nearest integer, halves up, the sign of a zero kept. *)
Definition jround (x : num) : num :=
  match x with
  | S754_finite s m e =>
      if 0 <=? e then x
      else
        let v := if s then - Zpos m else Zpos m in
        let n := (2 * v + 2 ^ (- e)) / 2 ^ (1 - e) in
        if n =? 0 then S754_zero s else of_Z n
  | _ => x
  end.

(** The two digits of [n], below 100. *)
Definition two_digits (n : Z) : jstr := [48 + n / 10; 48 + n mod 10].

(** [n / 100] with two decimals. *)
Definition hundredths (n : Z) : jstr := dec_string (n / 100) ++ js "." ++ two_digits (n mod 100).

(** [x.toFixed(2)], for numbers below 10^21: the hundredths nearest to the
    exact value, ties up; a negative number is the minus sign and its absolute
    value. *)
Definition toFixed2 (x : num) : jstr :=
  match x with
  | S754_zero _ => js "0.00"
  | S754_finite s m e =>
      let '(n, d) := frac_of m e in
      let digits := hundredths ((200 * n + d) / (2 * d)) in
      if s then 45 :: digits else digits
  | S754_infinity s => if s then js "-Infinity" else js "Infinity"
  | S754_nan => js "NaN"
  end.

(** ** What is shown *)

Record RowView := mkRowView {
  v_title : jstr;
  v_icon : property jstr;
  v_label : property jstr;
  v_value : num;
  v_muted : bool;
}.

Record View := mkView {
  v_rows : list RowView;
  v_broadcast : num;
  v_offset : option (num * jstr);
}.

(** [Math.round(v * 100)] *)
Definition percent (v : num) : num := jround (jmul v (of_Z 100)).

(** The value of a track's slider, which is also the number beside it; a
    builtin times 100 is NaN. *)
Definition slider_value (gains : gmap jstr (option num)) (slug : jstr) : num :=
  match gain_or_half (get_prop gains slug) with
  | Some v => percent v
  | None => NaN
  end.

Definition row_view (p : Panel) (t : TrackInfo) : RowView :=
  let m := truthy (get_prop (p_muted p) (t_slug t)) in
  mkRowView
    (if m then js "Unmute" else js "Mute (Shift+click to solo)")
    (categoryIcon (t_category t))
    (if bool_decide (t_label t = []) then categoryLabel (t_category t) else Own (t_label t))
    (slider_value (p_gains p) (t_slug t))
    m.

Definition offset_label (ms : num) : jstr := toFixed2 (jdiv ms (of_Z 1000)) ++ js "s".

(** The component: its properties and its own [showSettings]. *)
Definition view (p : Panel) (showSettings : bool) : View :=
  mkView (row_view p <$> p_tracks p) (percent (p_broadcastGain p))
    (if showSettings then Some (p_offsetMs p, offset_label (p_offsetMs p)) else None).

(** ** What the controls call *)

Definition handleSliderInput (slug : jstr) (value : num) : event := EChange slug (jdiv value (of_Z 100)).
Definition handleBroadcastInput (value : num) : event := EBroadcast (jdiv value (of_Z 100)).
Definition handleOffsetInput (value : num) : event := EOffset value.
Definition handleClick (slug : jstr) (shiftKey : bool) : event :=
  if shiftKey then ESolo slug else EMute slug.

(** The viewer's gestures: positions of the range inputs (0 to 100; 0 to
    30000 in steps of 10), clicks, the three buttons. *)
Inductive gesture :=
  | Slide (slug : jstr) (k : Z)
  | SlideBroadcast (k : Z)
  | SlideOffset (k : Z)
  | Click (slug : jstr) (shiftKey : bool)
  | ClickSettings
  | ClickReset
  | ClickSave.

Definition gesture_ok (p : Panel) (showSettings : bool) (g : gesture) : Prop :=
  match g with
  | Slide slug k => slug ∈ t_slug <$> p_tracks p /\ 0 <= k <= 100
  | SlideBroadcast k => 0 <= k <= 100
  | SlideOffset k => showSettings = true /\ 0 <= k <= 3000
  | Click slug _ => slug ∈ t_slug <$> p_tracks p
  | _ => True
  end.

(** The callback a gesture calls, if any. *)
Definition gesture_event (g : gesture) : option event :=
  match g with
  | Slide slug k => Some (handleSliderInput slug (of_Z k))
  | SlideBroadcast k => Some (handleBroadcastInput (of_Z k))
  | SlideOffset k => Some (handleOffsetInput (of_Z (10 * k)))
  | Click slug shiftKey => Some (handleClick slug shiftKey)
  | ClickSettings => None
  | ClickReset => Some EReset
  | ClickSave => Some ESave
  end.

Definition toggle_settings (g : gesture) (showSettings : bool) : bool :=
  match g with ClickSettings => negb showSettings | _ => showSettings end.

(** ** Lemmas *)

(** A property of the integers up to a bound, checked one by one. *)
Lemma up_to (f : Z -> bool) n k :
  forallb f (seqZ 0 n) = true -> 0 <= k < n -> f k = true.
Proof.
  rewrite forallb_forall. intros Hf Hk. apply Hf, list_elem_of_In, elem_of_seqZ. lia.
Qed.

(** The position survives the division by 100, the storage and the rounding
    of the product. *)
Definition position_kept (k : Z) : bool :=
  let v := jdiv (of_Z k) (of_Z 100) in num_ok v && bool_decide (percent v = of_Z k).

Lemma positions_kept : forallb position_kept (seqZ 0 101) = true.
Proof. by vm_compute. Qed.

Lemma position_spec k :
  0 <= k <= 100 ->
  num_ok (jdiv (of_Z k) (of_Z 100)) = true /\ percent (jdiv (of_Z k) (of_Z 100)) = of_Z k.
Proof.
  intros Hk. assert (H : position_kept k = true) by (apply (up_to _ 101); [exact positions_kept|lia]).
  apply andb_true_iff in H as [H1 H2]. apply bool_decide_eq_true in H2. by split.
Qed.

Definition offset_shown (k : Z) : bool :=
  num_ok (of_Z (10 * k)) && bool_decide (toFixed2 (jdiv (of_Z (10 * k)) (of_Z 1000)) = hundredths k).

Lemma offsets_shown : forallb offset_shown (seqZ 0 3001) = true.
Proof. by vm_compute. Qed.

Lemma offset_spec k :
  0 <= k <= 3000 ->
  num_ok (of_Z (10 * k)) = true /\ toFixed2 (jdiv (of_Z (10 * k)) (of_Z 1000)) = hundredths k.
Proof.
  intros Hk. assert (H : offset_shown k = true) by (apply (up_to _ 3001); [exact offsets_shown|lia]).
  apply andb_true_iff in H as [H1 H2]. apply bool_decide_eq_true in H2. by split.
Qed.

Lemma gesture_event_ok {G} (c : Content G) showSettings g e :
  gesture_ok (panel c) showSettings g -> gesture_event g = Some e -> event_ok e c.
Proof.
  intros Hg. destruct g as [s k|k|k|s []| | |]; intros [= <-]; cbn in Hg |- *; try tauto.
  - destruct Hg. split; [done|]. by apply position_spec.
  - by apply position_spec.
  - destruct Hg. by apply offset_spec.
Qed.

(** ** The panel as a specification *)

Definition set_value (n : num) (r : RowView) : RowView :=
  mkRowView (v_title r) (v_icon r) (v_label r) n (v_muted r).
Definition set_fade (b : bool) (r : RowView) : RowView :=
  mkRowView (if b then js "Unmute" else js "Mute (Shift+click to solo)") (v_icon r) (v_label r) (v_value r) b.

Definition with_rows (f : jstr -> RowView -> RowView) (slugs : list jstr) (v : View) : View :=
  mkView (zip_with f slugs (v_rows v)) (v_broadcast v) (v_offset v).

(** What the viewer sees after a gesture, from what was seen before: a slider
    stands where it was left, a click flips one row, a shift-click leaves one
    row alone unfaded. *)
Definition view_after (slugs : list jstr) (g : gesture) (v : View) : View :=
  match g with
  | Slide slug k => with_rows (fun s r => if decide (s = slug) then set_value (of_Z k) r else r) slugs v
  | SlideBroadcast k => mkView (v_rows v) (of_Z k) (v_offset v)
  | SlideOffset k => mkView (v_rows v) (v_broadcast v) (Some (of_Z (10 * k), hundredths k ++ js "s"))
  | Click slug false =>
      with_rows (fun s r => if decide (s = slug) then set_fade (negb (v_muted r)) r else r) slugs v
  | Click slug true => with_rows (fun s r => set_fade (negb (bool_decide (s = slug))) r) slugs v
  | ClickSettings | ClickReset | ClickSave => v
  end.

(** Gestures that act on the controls the viewer touched. *)
Definition direct (g : gesture) : Prop :=
  match g with ClickSettings | ClickReset => False | _ => True end.

Lemma rows_after (f : jstr -> RowView -> RowView) (p p' : Panel) :
  p_tracks p' = p_tracks p ->
  (forall t, t ∈ p_tracks p -> row_view p' t = f (t_slug t) (row_view p t)) ->
  row_view p' <$> p_tracks p' = zip_with f (t_slug <$> p_tracks p) (row_view p <$> p_tracks p).
Proof.
  intros -> Hrow. induction (p_tracks p) as [|t ts IH]; [done|]. cbn. f_equal.
  - apply Hrow. by left.
  - apply IH. intros u Hu. apply Hrow. by right.
Qed.

Lemma slider_value_ne gains slug v s :
  s <> slug -> slider_value (<[slug := v]> gains) s = slider_value gains s.
Proof. intros Hne. unfold slider_value, get_prop. by rewrite lookup_insert_ne. Qed.

Lemma truthy_insert_ne (ms : gmap jstr (option bool)) slug b s :
  s <> slug -> truthy (get_prop (<[slug := b]> ms) s) = truthy (get_prop ms s).
Proof. intros Hne. unfold get_prop. by rewrite lookup_insert_ne. Qed.

Lemma row_slide p slug k t :
  0 <= k <= 100 ->
  row_view (mkPanel (p_tracks p) (<[slug := Some (jdiv (of_Z k) (of_Z 100))]> (p_gains p)) (p_muted p)
              (p_broadcastGain p) (p_offsetMs p)) t
  = (if decide (t_slug t = slug) then set_value (of_Z k) (row_view p t) else row_view p t).
Proof.
  intros Hk. unfold row_view. cbn [p_muted p_gains]. case_decide as Hs.
  - subst. unfold set_value. cbn [v_title v_icon v_label v_muted]. f_equal.
    unfold slider_value. unfold get_prop at 1. rewrite lookup_insert_eq. cbn [gain_or_half]. by apply position_spec.
  - by rewrite slider_value_ne.
Qed.

Lemma row_fade p ms t b :
  truthy (get_prop ms (t_slug t)) = b ->
  row_view (mkPanel (p_tracks p) (p_gains p) ms (p_broadcastGain p) (p_offsetMs p)) t
  = set_fade b (row_view p t).
Proof. intros <-. done. Qed.

Lemma set_fade_same p t : set_fade (v_muted (row_view p t)) (row_view p t) = row_view p t.
Proof. done. Qed.

(** The properties each handler sets. *)
Section Panels.
Context {G : Type} `{Mixer G}.
Implicit Types c : Content G.

Ltac shape H := repeat (apply bind_Ok_inv in H as (? & _ & H)); by injection H as <-.

Lemma onChange_panel slug v c c' :
  onChange slug v c = Ok c' ->
  panel c' = mkPanel (p_tracks (panel c)) (<[slug := Some v]> (gains c)) (p_muted (panel c))
               (p_broadcastGain (panel c)) (p_offsetMs (panel c)).
Proof. unfold onChange. cbn. intros Hc. destruct (settings c !! slug); shape Hc. Qed.

Lemma onMuteToggle_panel slug c c' :
  onMuteToggle slug c = Ok c' ->
  panel c' = mkPanel (p_tracks (panel c)) (p_gains (panel c))
               (<[slug := Some (negb (truthy (get_prop (muted c) slug)))]> (muted c))
               (p_broadcastGain (panel c)) (p_offsetMs (panel c)).
Proof. unfold onMuteToggle. cbn. intros Hc. destruct (settings c !! slug); shape Hc. Qed.

Lemma onSoloToggle_panel slug c c' :
  onSoloToggle slug c = Ok c' ->
  panel c' = mkPanel (p_tracks (panel c)) (p_gains (panel c)) (muted c')
               (p_broadcastGain (panel c)) (p_offsetMs (panel c)).
Proof. unfold onSoloToggle. intros Hc. apply bind_Ok_inv in Hc as ([nm g] & _ & Hc). by injection Hc as <-. Qed.

Lemma onBroadcastChange_panel v c c' :
  onBroadcastChange v c = Ok c' ->
  panel c' = mkPanel (p_tracks (panel c)) (p_gains (panel c)) (p_muted (panel c)) v (p_offsetMs (panel c)).
Proof. unfold onBroadcastChange. intros Hc. shape Hc. Qed.

Lemma onOffsetChange_panel ms c c' :
  onOffsetChange ms c = Ok c' ->
  panel c' = mkPanel (p_tracks (panel c)) (p_gains (panel c)) (p_muted (panel c)) (p_broadcastGain (panel c)) ms.
Proof. unfold onOffsetChange. intros Hc. shape Hc. Qed.
End Panels.

(** ** Properties *)

Section Properties.
Context {G : Type} `{Mixer G}.
Context (webcodecs : bool) (channelID : jstr) (globalPrefs streamerPrefs : Prefs).

(** C18: the panel shows what the viewer does.  In every reachable state each
    gesture on a control is handled, and the panel then differs from before by
    just that gesture: the slider of the track stands at the position it was
    dragged to (the division by 100 and the product that undoes it are rounded,
    but every position comes back), the others stay; a click flips one row;
    a shift-click fades all rows but one; the broadcast slider and the offset,
    with its label in seconds, show their positions. *)
Theorem panel_follows (allowed : event -> Prop) (g0 : G) (c : Content G) (showSettings : bool)
    (g : gesture) (e : event) :
  prefs_fine globalPrefs -> prefs_fine streamerPrefs -> mx_ok g0 -> mx_gains g0 = ∅ ->
  reachable webcodecs channelID globalPrefs streamerPrefs allowed g0 c ->
  gesture_ok (panel c) showSettings g -> direct g -> gesture_event g = Some e ->
  exists c', handle webcodecs channelID globalPrefs streamerPrefs e c = Ok c'
    /\ view (panel c') (toggle_settings g showSettings)
       = view_after (t_slug <$> p_tracks (panel c)) g (view (panel c) showSettings).
Proof.
  intros Hgp Hsp Hok He Hr Hg Hd Hev.
  pose proof (controller_inv webcodecs channelID globalPrefs streamerPrefs Hgp Hsp _ _ _ Hok He Hr) as Hinv.
  destruct (handle_inv webcodecs channelID globalPrefs streamerPrefs Hgp Hsp e c Hinv) as (c' & Hh & Hinv').
  { by eapply gesture_event_ok. }
  exists c'. split; [done|].
  pose proof (inv_panel _ _ Hinv) as Hp.
  assert (Hgm : gains c = p_gains (panel c) /\ muted c = p_muted (panel c) /\ tracks c = p_tracks (panel c)) by (rewrite Hp; by split_and!).
  destruct Hgm as (Hgs & Hms & Hts). unfold view_after, with_rows, view. cbn [v_rows v_broadcast v_offset].
  destruct g as [s k|k|k|s [|]| | |]; try done; injection Hev as <-; cbn [handle toggle_settings handleSliderInput
    handleBroadcastInput handleOffsetInput handleClick] in *.
  - destruct Hg as [_ Hk]. apply onChange_panel in Hh. rewrite Hh, Hgs. cbn [p_broadcastGain p_offsetMs]. f_equal.
    apply (rows_after _ (panel c)); [done|]. intros t _. by apply row_slide.
  - apply onBroadcastChange_panel in Hh. rewrite Hh. cbn. f_equal. by apply position_spec.
  - destruct Hg as [-> Hk]. apply onOffsetChange_panel in Hh. rewrite Hh. cbn. unfold offset_label.
    by rewrite (proj2 (offset_spec k Hk)).
  - destruct (onSoloToggle_inv webcodecs s c Hinv) as (c1 & H1 & _ & _ & _ & _ & _ & _ & Hm).
    rewrite Hh in H1. injection H1 as <-. apply onSoloToggle_panel in Hh. rewrite Hh. cbn [p_broadcastGain p_offsetMs].
    f_equal. apply (rows_after _ (panel c)); [done|]. intros t Ht. apply row_fade. rewrite <- Hts in Ht.
    unfold get_prop. by rewrite (Hm (t_slug t)) by by apply list_elem_of_fmap_2.
  - apply onMuteToggle_panel in Hh. rewrite Hh, Hms. cbn [p_broadcastGain p_offsetMs].
    f_equal. apply (rows_after _ (panel c)); [done|]. intros t Ht. case_decide as Hs.
    + apply row_fade. subst s. unfold get_prop at 1. by rewrite lookup_insert_eq.
    + rewrite <- (set_fade_same (panel c) t) at 1. apply row_fade. by rewrite truthy_insert_ne.
  - unfold onSaveStreamer in Hh. by injection Hh as <-.
Qed.
End Properties.

Lemma panel_follows_witness :
  exists c', demo_handle (handleSliderInput (js "mic") (of_Z 29)) demo_content = Ok c'
    /\ v_value <$> v_rows (view (panel c') false) = [of_Z 29; of_Z 50]
    /\ v_muted <$> v_rows (view (panel c') false) = [false; true].
Proof.
  destruct (panel_follows true (js "twitch:foo") ∅ ∅ not_solo first_deck demo_content false
    (Slide (js "mic") 29) (handleSliderInput (js "mic") (of_Z 29))
    empty_fine empty_fine (proj1 first_deck_ok) (proj2 first_deck_ok) demo_content_reachable) as (c' & Hc & Hv);
    [split; [by apply (bool_decide_unpack _); vm_compute|done]|done|done|].
  exists c'. split; [done|]. cbn [toggle_settings] in Hv. rewrite Hv. split; by vm_compute.
Defined.
