(* ===== verification/EndToEnd.v ===== *)
(** * From the publisher to the viewer's decoders

    Composes Publisher.v, Wire.v, Messages.v, RelayClient.v, Content.v and
    OpusLane.v: the bytes the mock publisher sends, received in order on the
    viewer's socket. *)
From stdpp Require Import relations.
From S2P Require Import Prelude JsString JsNumber Categories Wire Messages RelayClient JsObject Prefs.
From S2P Require Import WebAudio Graph OpusLane Mixer Playback Content Session Publisher.

Section EndToEnd.
Context {G : Type} `{Mixer G}.
Context (globalPrefs streamerPrefs : Prefs).
Context (Hglobal : prefs_fine globalPrefs) (Hstreamer : prefs_fine streamerPrefs).
Implicit Types (w : World (Content G)).

Abbreviation events := (relay_events true globalPrefs streamerPrefs).
Abbreviation deliver_all := (receive true globalPrefs streamerPrefs).

(** What the decoder of a track is given in a tick, and the base of its
    timestamps afterwards. *)
Definition next_base (tick : Tick) (n : Z) (base : option Z) : option Z :=
  match tick with Audio _ _ => Some (default n base) | Prints _ _ => base end.

Definition tick_chunk (base : option Z) (n : Z) (tick : Tick) (t : TrackInfo) : list Chunk :=
  match tick with
  | Audio _ bufs => [mkChunk ((n - default n base) * FRAME_DURATION_US) (bufs (t_id t))]
  | Prints _ _ => []
  end.

Fixpoint chunks (base : option Z) (n : Z) (t : TrackInfo) (ticks : list Tick) : list Chunk :=
  match ticks with
  | [] => []
  | tick :: ticks => tick_chunk base n tick t ++ chunks (next_base tick n base) (n + 1) t ticks
  end.

(** The number of the first audio tick. *)
Fixpoint first_audio (n : Z) (ticks : list Tick) : Z :=
  match ticks with
  | [] => n
  | Audio _ _ :: _ => n
  | Prints _ _ :: ticks => first_audio (n + 1) ticks
  end.

(** A decoder that has seen the frames below number [n]. *)
Definition lane_at (n : Z) (base : option Z) (sub : list Chunk) (d : OpusDecoderLane) : Prop :=
  codec d = configured /\ baseSeq d = base /\ submitted d = sub
  /\ forall last, lastSeq d = Some last -> last < n.

Definition lane_of (c : Content G) (t : TrackInfo) (n : Z) (base : option Z) (sub : list Chunk) : Prop :=
  exists lane, audioLanes c !! t_slug t = Some lane /\ lane_at n base sub (decoder lane).

(** What deliveries leave alone. *)
Definition same_mix (c c' : Content G) : Prop :=
  tracks c' = tracks c /\ mx_gains (graph c') = mx_gains (graph c) /\ gains c' = gains c /\ muted c' = muted c.

(** ** Lemmas *)

Lemma decode_at n base sub d payload :
  lane_at n base sub d ->
  exists d', decode payload n d = (d', None)
    /\ lane_at (n + 1) (Some (default n base))
         (sub ++ [mkChunk ((n - default n base) * FRAME_DURATION_US) payload]) d'.
Proof.
  intros (Hc & Hb & Hs & Hl). unfold decode. rewrite Hc, Hb, Hs.
  assert (Hbase : match lastSeq d with
                  | Some last => if n <? last then n else match base with Some b => b | None => n end
                  | None => match base with Some b => b | None => n end
                  end = default n base).
  { destruct (lastSeq d) as [l|]; [|by destruct base].
    rewrite (proj2 (Z.ltb_ge n l)); [by destruct base|]. pose proof (Hl l eq_refl). lia. }
  rewrite Hbase. eexists. split; [done|]. split; [done|]. split; [done|]. split; [by destruct base|].
  intros last. cbn. intros [= <-]. lia.
Qed.

Lemma deliver_audio t n now payload base sub w :
  let f := mkFrame AudioOpus (t_id t) 0 n now payload in
  content_inv true (client w) -> t ∈ tracks (client w) -> frame_in_range f -> lane_of (client w) t n base sub ->
  exists c', (handle_data events (Some (frame_layout f)) w).1 = set_client c' w
    /\ content_inv true c' /\ same_mix (client w) c'
    /\ lane_of c' t (n + 1) (Some (default n base))
         (sub ++ [mkChunk ((n - default n base) * FRAME_DURATION_US) payload])
    /\ forall s, s <> t_slug t -> audioLanes c' !! s = audioLanes (client w) !! s.
Proof.
  intros f Hinv Ht Hr (lane & Hl & Hat).
  destruct (onAudio_known true t f (client w) Hinv eq_refl Ht) as (lane' & Hl' & _ & Ha).
  rewrite Hl in Hl'. injection Hl' as <-. cbn [f f_payload f_seq] in Ha.
  destruct (decode_at n base sub (decoder lane) payload Hat) as (d' & Hd & Hat'). rewrite Hd in Ha.
  eexists. split; [apply (receive_audio true globalPrefs streamerPrefs (t_id t)); by apply encodeFrame_in_range|].
  fold f. rewrite Ha. cbn [fst]. split; [by apply update_lane_inv|]. split; [by split_and!|]. split.
  - exists (mkAudioLane d' (sched_dest lane) (sched_closed lane)). cbn. by rewrite lookup_insert_eq.
  - intros s Hs. cbn. by rewrite lookup_insert_ne.
Qed.

Lemma lane_at_later n base sub d : lane_at n base sub d -> lane_at (n + 1) base sub d.
Proof. intros (H1 & H2 & H3 & H4). split_and!; try done. intros l Hl. apply H4 in Hl. lia. Qed.

(** One frame of a tick. *)
Lemma deliver_frame tick n t base0 sub0 w :
  tick_ok tick -> 0 <= n <= u32_max -> content_inv true (client w) -> t ∈ tracks (client w) -> t ∈ TRACKS ->
  lane_of (client w) t n base0 sub0 ->
  exists c1, (handle_data events (Some (frame_layout (tick_frame n tick t))) w).1 = set_client c1 w
    /\ content_inv true c1 /\ same_mix (client w) c1
    /\ (forall base sub, lane_of (client w) t n base sub ->
          lane_of c1 t (n + 1) (next_base tick n base) (sub ++ tick_chunk base n tick t))
    /\ forall s, s <> t_slug t -> audioLanes c1 !! s = audioLanes (client w) !! s.
Proof.
  intros Hok Hn Hinv Htr HtT Hl0. pose proof (tick_frame_in_range n tick t Hok Hn HtT) as Hr.
  destruct tick as [now bufs|now rnd].
  - destruct (deliver_audio t n now (bufs (t_id t)) base0 sub0 w Hinv Htr Hr Hl0) as (c1 & H1 & H2 & H3 & H4 & H5).
    exists c1. split_and!; try done; [..|intros base sub Hl].
    all: try exact (proj1 H3).
    destruct Hl as (lane & Hl & Hat). destruct Hl0 as (lane0 & Hl0 & Hat0).
    rewrite Hl in Hl0. injection Hl0 as <-. destruct Hat as (A1 & A2 & A3 & A4), Hat0 as (B1 & B2 & B3 & B4).
    cbn [next_base tick_chunk]. congruence.
  - exists (client w). split_and!; try done.
    + rewrite (receive_ignored true globalPrefs streamerPrefs Fingerprint (t_id t) 0 n now
        (f_payload (tick_frame n (Prints now rnd) t))); [by destruct w|done|done|by apply encodeFrame_in_range].
    + intros base sub (lane & Hl & Hat). exists lane. split; [done|]. cbn. rewrite app_nil_r.
      by apply lane_at_later.
Qed.

Lemma deliver_tick tick n ts w :
  tick_ok tick -> 0 <= n <= u32_max -> content_inv true (client w) ->
  (forall t, t ∈ ts -> t ∈ tracks (client w) /\ t ∈ TRACKS) -> NoDup (t_slug <$> ts) ->
  (forall t, t ∈ ts -> exists base sub, lane_of (client w) t n base sub) ->
  exists c', deliver_all (frame_layout <$> (tick_frame n tick <$> ts)) w = set_client c' w
    /\ content_inv true c' /\ same_mix (client w) c'
    /\ (forall t base sub, t ∈ ts -> lane_of (client w) t n base sub ->
          lane_of c' t (n + 1) (next_base tick n base) (sub ++ tick_chunk base n tick t))
    /\ forall s, ~ (s ∈ t_slug <$> ts) -> audioLanes c' !! s = audioLanes (client w) !! s.
Proof.
  intros Hok Hn. revert w. induction ts as [|t ts IH]; intros w Hinv Hin Hnd Hlanes.
  { exists (client w). split; [by destruct w|]. split; [done|]. split; [by split_and!|]. split; [|done].
    by intros t base sub ?%not_elem_of_nil. }
  apply NoDup_cons in Hnd as [Hnew Hnd]. destruct (Hin t) as [Htr HtT]; [by left|].
  destruct (Hlanes t) as (base0 & sub0 & Hl0); [by left|].
  destruct (deliver_frame tick n t base0 sub0 w Hok Hn Hinv Htr HtT Hl0)
    as (c1 & H1 & Hinv1 & (S1 & S2 & S3 & S4) & Hl1 & Ho1).
  assert (Hother : forall u, u ∈ ts -> t_slug u <> t_slug t).
  { intros u Hu Heq. apply Hnew. rewrite <- Heq. by apply list_elem_of_fmap_2. }
  destruct (IH (set_client c1 w)) as (c' & H' & Hinv' & (T1 & T2 & T3 & T4) & Hl' & Ho').
  - done.
  - intros u Hu. cbn. rewrite S1. apply Hin. by right.
  - done.
  - intros u Hu. destruct (Hlanes u) as (b & sb & (lane & Hl & Hat)); [by right|].
    exists b, sb, lane. cbn. rewrite Ho1; [done|by apply Hother].
  - exists c'. cbn [client set_client] in *. split.
    { cbn [fmap list_fmap]. unfold receive in *. cbn [foldl]. rewrite H1. exact H'. }
    split; [done|]. split; [split_and!; congruence|]. split.
    + intros u b sb [->|Hu]%elem_of_cons Hl.
      * destruct (Hl1 b sb Hl) as (lane & Hla & Hat). exists lane. split; [|done].
        rewrite Ho'; [done|]. exact Hnew.
      * apply Hl'; [done|]. destruct Hl as (lane & Hl & Hat). exists lane. rewrite Ho1; [done|by apply Hother].
    + intros s Hs. rewrite Ho', Ho1; [done| |]; intros Hx; apply Hs; [by rewrite Hx; left | by right].
Qed.

Lemma TRACKS_slugs : NoDup (t_slug <$> TRACKS).
Proof. by apply (bool_decide_unpack _); vm_compute. Qed.

Lemma TRACKS_slug_inj t u : t ∈ TRACKS -> u ∈ TRACKS -> t_slug t = t_slug u -> t = u.
Proof.
  assert (Hall : Forall (fun t => Forall (fun u => t_slug t = t_slug u -> t = u) TRACKS) TRACKS)
    by by apply (bool_decide_unpack _); vm_compute.
  intros Ht Hu. rewrite Forall_forall in Hall. specialize (Hall t Ht). rewrite Forall_forall in Hall. auto.
Qed.

Lemma deliver_ticks ticks n base subs w :
  Forall tick_ok ticks -> 0 <= n -> n + Z.of_nat (length ticks) <= u32_max + 1 ->
  content_inv true (client w) -> tracks (client w) = TRACKS ->
  (forall t, t ∈ TRACKS -> lane_of (client w) t n base (subs t)) ->
  exists c', deliver_all (frame_layout <$> concat (imap (fun i tick => tick_frame (n + Z.of_nat i) tick <$> TRACKS) ticks)) w
             = set_client c' w
    /\ content_inv true c' /\ same_mix (client w) c'
    /\ forall t, t ∈ TRACKS -> exists base',
         lane_of c' t (n + Z.of_nat (length ticks)) base' (subs t ++ chunks base n t ticks).
Proof.
  intros Hok. revert n base subs w. induction Hok as [|tick ticks Ht _ IH]; intros n base subs w Hn Hlen Hinv Htr Hl.
  { exists (client w). split; [by destruct w|]. split; [done|]. split; [by split_and!|].
    intros t Hin. exists base. cbn. rewrite app_nil_r, Z.add_0_r. by apply Hl. }
  cbn [length] in Hlen. cbn [imap concat]. rewrite Z.add_0_r, fmap_app. unfold receive. rewrite foldl_app.
  destruct (deliver_tick tick n TRACKS w) as (c1 & H1 & Hinv1 & (S1 & S2 & S3 & S4) & Hl1 & _); try done; [lia| | | |].
  { intros t Hin. by rewrite Htr. }
  { apply TRACKS_slugs. }
  { intros t Hin. eauto. }
  unfold receive in H1. rewrite H1.
  destruct (IH (n + 1) (next_base tick n base) (fun t => subs t ++ tick_chunk base n tick t) (set_client c1 w))
    as (c' & H' & Hinv' & (T1 & T2 & T3 & T4) & Hl'); [lia|lia|done|cbn; congruence| |].
  { intros t Hin. by apply Hl1, Hl. }
  exists c'. cbn [client set_client] in *. split; [|split; [done|split; [split_and!; congruence|]]].
  - etransitivity; [|exact H']. unfold receive. do 3 f_equal. apply imap_ext. intros i x _. cbn.
    by replace (n + Z.of_nat (S i)) with (n + 1 + Z.of_nat i) by lia.
  - intros t Hin. destruct (Hl' t Hin) as [base' Hb]. exists base'. cbn [chunks length]. rewrite app_assoc.
    by replace (n + Z.of_nat (S (length ticks))) with (n + 1 + Z.of_nat (length ticks)) by lia.
Qed.

(** The chunks, in closed form. *)
Lemma chunks_from b n t ticks :
  chunks (Some b) n t ticks
  = concat (imap (fun i tick => match tick with
                                | Audio _ bufs => [mkChunk ((n + Z.of_nat i - b) * FRAME_DURATION_US) (bufs (t_id t))]
                                | Prints _ _ => []
                                end) ticks).
Proof.
  revert n. induction ticks as [|tick ticks IH]; intros n; [done|]. cbn [chunks imap concat].
  assert (Hb : next_base tick n (Some b) = Some b) by by destruct tick.
  rewrite Hb, IH. f_equal; [destruct tick; cbn; by rewrite ?Z.add_0_r|].
  f_equal. apply imap_ext. intros i x _. cbn. destruct x; [|done].
  by replace (n + 1 + Z.of_nat i) with (n + Z.of_nat (S i)) by lia.
Qed.

Lemma chunks_none n t ticks :
  chunks None n t ticks
  = concat (imap (fun i tick => match tick with
                                | Audio _ bufs =>
                                    [mkChunk ((n + Z.of_nat i - first_audio n ticks) * FRAME_DURATION_US) (bufs (t_id t))]
                                | Prints _ _ => []
                                end) ticks).
Proof.
  revert n. induction ticks as [|[now bufs|now rnd] ticks IH]; intros n; [done| |].
  - cbn [chunks next_base tick_chunk first_audio]. rewrite chunks_from. cbn [imap concat].
    change (default n None) with n. rewrite Z.add_0_r. f_equal. f_equal. apply imap_ext. intros i x _. cbn.
    destruct x; [|done]. by replace (n + 1 + Z.of_nat i) with (n + Z.of_nat (S i)) by lia.
  - cbn [chunks next_base tick_chunk first_audio imap concat app]. rewrite IH. f_equal. apply imap_ext.
    intros i x _. cbn. destruct x; [|done]. by replace (n + 1 + Z.of_nat i) with (n + Z.of_nat (S i)) by lia.
Qed.

Lemma TRACKS_fine :
  track_list_ok TRACKS /\ Forall (fun t => jstr_ok (t_label t)) TRACKS
  /\ Forall (fun t => t_slug t <> js "constructor") TRACKS.
Proof. split_and!; by apply (bool_decide_unpack _); vm_compute. Qed.

Lemma TRACKS_event_ok (c : Content G) : event_ok (ETrackList TRACKS) c.
Proof. apply legal_event, TRACKS_fine. Qed.

Lemma hello_ok : encodeHello HELLO = Ok hello_bytes.
Proof. by vm_compute. Qed.
Lemma tracks_ok : encodeTrackList TRACKS = Ok tracks_bytes.
Proof. by vm_compute. Qed.

(** The frames HELLO and TRACK_LIST, as they are sent. *)
Definition hello_frame (now : Z) : Frame := mkFrame Hello CONTROL_TRACK 0 0 now hello_bytes.
Definition list_frame (now : Z) : Frame := mkFrame TrackList CONTROL_TRACK 0 1 now tracks_bytes.

Lemma encode_prefix now1 now2 :
  clock_ok now1 -> clock_ok now2 ->
  encodeFrame (hello_frame now1) = Ok (frame_layout (hello_frame now1))
  /\ encodeFrame (list_frame now2) = Ok (frame_layout (list_frame now2)).
Proof.
  intros H1 H2.
  assert (Lh : (length hello_bytes <= MAX_PAYLOAD_BYTES)%nat) by by apply Nat.leb_le; vm_compute.
  assert (Lt : (length tracks_bytes <= MAX_PAYLOAD_BYTES)%nat) by by apply Nat.leb_le; vm_compute.
  split; apply encodeFrame_in_range; unfold frame_in_range, clock_ok in *; cbn; by split_and!; try lia.
Qed.

Lemma fresh_at n : lane_at n None [] OpusLane.fresh.
Proof. by split_and!. Qed.

(** The state after the two frames. *)
Lemma deliver_prefix g0 w now1 now2 :
  mx_ok g0 -> mx_gains g0 = ∅ -> mounted g0 = Ok (client w) -> clock_ok now1 -> clock_ok now2 ->
  exists c, deliver_all [frame_layout (hello_frame now1); frame_layout (list_frame now2)] w = set_client c w
    /\ content_inv true c /\ tracks c = TRACKS
    /\ forall t, t ∈ TRACKS ->
         lane_of c t 1 None []
         /\ exists st v b, effectiveSetting (t_slug t) (t_category t) streamerPrefs globalPrefs = Own st
              /\ Prefs.gain st = Some v /\ Prefs.muted st = Some b
              /\ mx_gains (graph c) !! t_slug t = Some (heard v b).
Proof.
  intros Hok0 He0 Hm H1 H2. destruct (encode_prefix now1 now2 H1 H2) as [Eh El].
  destruct (mounted_inv true g0 Hok0 He0) as (c0 & Hm' & Hinv0 & Ht0 & _).
  assert (c0 = client w) as -> by congruence. clear Hm Hm'.
  destruct TRACKS_fine as (Hlist & Hlabels & Hslugs).
  unfold receive. cbn [foldl]. rewrite (receive_ignored true globalPrefs streamerPrefs Hello _ _ _ _ _ _ w
    ltac:(discriminate) ltac:(discriminate) Eh).
  destruct (receive_track_list true globalPrefs streamerPrefs Hglobal Hstreamer TRACKS _ _ _ _ _ _ w
    Hinv0 Hlist Hlabels tracks_ok El) as (c1 & Hc1 & Hinv1 & ->). clear Eh El Hlist Hlabels.
  destruct (onTrackList_inv true globalPrefs streamerPrefs Hglobal Hstreamer TRACKS (client w) Hinv0
    (TRACKS_event_ok _)) as (c1' & Hc1' & _ & Htr1 & Hrows).
  rewrite Hc1 in Hc1'. injection Hc1' as <-. clear Hc1. exists c1.
  split; [reflexivity|]. split; [exact Hinv1|]. split; [exact Htr1|]. intros t Ht.
  assert (Hin : t_slug t ∈ t_slug <$> TRACKS) by by apply list_elem_of_fmap_2.
  destruct (Hrows (t_slug t)) as [_ Hnew]. rewrite Ht0 in Hnew.
  destruct (Hnew Hin (not_elem_of_nil _)) as (st & ((_ & _ & _ & Hdef) & u & Hu & Hus & _ & Hst) & N1 & N2 & _ & Hfr).
  assert (u = t) as -> by by apply TRACKS_slug_inj.
  assert (Hne : t_slug t <> js "constructor") by by apply (proj1 (Forall_forall _ _) Hslugs).
  destruct (Hdef Hne) as [[v C1] [b C2]]. rewrite C1 in N1. rewrite C2 in N2. split.
  - destruct (onAudio_known true t (mkFrame AudioOpus 0 0 0 0 []) c1 Hinv1 eq_refl) as (lane & Hla & _);
      [by rewrite Htr1|].
    exists lane. split; [exact Hla|]. rewrite (Hfr lane Hla). apply fresh_at.
  - exists st, v, b. split; [exact (Hst Hne)|]. split; [exact C1|]. split; [exact C2|].
    apply (inv_heard true c1 _ (Some v) (Some b)); [exact Hinv1|by rewrite Htr1|exact N1|exact N2].
Qed.

(** What the decoder of a track is given of the stream. *)
Definition track_chunks (ticks : list Tick) (t : TrackInfo) : list Chunk :=
  concat (imap (fun i tick => match tick with
                              | Audio _ bufs =>
                                  [mkChunk ((1 + Z.of_nat i - first_audio 1 ticks) * FRAME_DURATION_US) (bufs (t_id t))]
                              | Prints _ _ => []
                              end) ticks).

(** The whole stream arrives. *)
Lemma deliver_stream g0 w now1 now2 ticks :
  mx_ok g0 -> mx_gains g0 = ∅ -> mounted g0 = Ok (client w) ->
  clock_ok now1 -> clock_ok now2 -> Forall tick_ok ticks -> Z.of_nat (length ticks) <= u32_max ->
  exists p c, publish now1 now2 ticks = Ok p /\ deliver_all (sent p) w = set_client c w
    /\ content_inv true c /\ tracks c = TRACKS
    /\ forall t, t ∈ TRACKS ->
         (exists st v b, effectiveSetting (t_slug t) (t_category t) streamerPrefs globalPrefs = Own st
            /\ Prefs.gain st = Some v /\ Prefs.muted st = Some b
            /\ mx_gains (graph c) !! t_slug t = Some (heard v b))
         /\ exists lane, audioLanes c !! t_slug t = Some lane
            /\ codec (decoder lane) = configured /\ submitted (decoder lane) = track_chunks ticks t.
Proof.
  intros Hok0 He0 Hm H1 H2 Hticks Hlen.
  destruct (publish_spec now1 now2 ticks H1 H2 Hticks Hlen) as (p & Hp & Hsent).
  destruct (deliver_prefix g0 w now1 now2 Hok0 He0 Hm H1 H2) as (c1 & Hpre & Hinv1 & Htr1 & Hall).
  destruct (deliver_ticks ticks 1 None (fun _ => []) (set_client c1 w)) as (c' & H' & Hinv' & (S1 & S2 & _) & Hl');
    [done|lia|lia|exact Hinv1|exact Htr1|intros t Ht; by apply Hall|].
  exists p, c'. split; [exact Hp|]. cbn [client set_client] in *. split; [|split; [exact Hinv'|split; [congruence|]]].
  - rewrite Hsent. unfold stream. rewrite !fmap_cons. unfold receive in *.
    etransitivity; [|exact H']. cbn [foldl] in *. fold (hello_frame now1) (list_frame now2). rewrite Hpre.
    do 3 f_equal. apply imap_ext. intros i x _. by replace (Z.of_nat i + 1) with (1 + Z.of_nat i) by lia.
  - intros t Ht. split; [rewrite S2; by apply Hall|].
    destruct (Hl' t Ht) as (base' & lane & Hla & (Hc & _ & Hsub & _)). exists lane. split; [exact Hla|].
    split; [exact Hc|]. rewrite Hsub. apply chunks_none.
Qed.

(** ** Properties *)

(** C2: the whole path.  A viewer whose page was just mounted receives what the
    publisher sent, byte for byte, over its socket: the panel lists the
    publisher's tracks, each is heard at its effective setting, and the decoder
    of each track was given exactly that track's packets, in order, the packet
    of tick [i] stamped 20 ms per tick since the first audio tick (so a
    fingerprint in between leaves a gap of 20 ms). *)
Theorem publisher_to_viewer (g0 : G) (c0 : Content G) (w : World (Content G)) (now1 now2 : Z) (ticks : list Tick) :
  mx_ok g0 -> mx_gains g0 = ∅ -> mounted g0 = Ok c0 -> client w = c0 ->
  clock_ok now1 -> clock_ok now2 -> Forall tick_ok ticks -> Z.of_nat (length ticks) <= u32_max ->
  exists p, publish now1 now2 ticks = Ok p
    /\ let c := client (deliver_all (sent p) w) in
       p_tracks (panel c) = TRACKS
       /\ forall t, t ∈ TRACKS ->
            (exists st v b, effectiveSetting (t_slug t) (t_category t) streamerPrefs globalPrefs = Own st
               /\ Prefs.gain st = Some v /\ Prefs.muted st = Some b
               /\ mx_gains (graph c) !! t_slug t = Some (heard v b))
            /\ exists lane, audioLanes c !! t_slug t = Some lane
               /\ submitted (decoder lane) = track_chunks ticks t.
Proof.
  intros Hok0 He0 Hm <- H1 H2 Hticks Hlen.
  destruct (deliver_stream g0 w now1 now2 ticks Hok0 He0 Hm H1 H2 Hticks Hlen)
    as (p & c & Hp & Hrun & Hinv & Htr & Hall).
  exists p. split; [exact Hp|]. rewrite Hrun. cbn. split; [by rewrite (inv_panel _ _ Hinv), <- Htr|].
  intros t Ht. destruct (Hall t Ht) as (Hset & lane & Hl & _ & Hsub). eauto.
Qed.
End EndToEnd.

Lemma publisher_to_viewer_witness :
  exists p, publish 1 2 demo_ticks = Ok p
    /\ exists lane, audioLanes (client (receive true ∅ ∅ (sent p) (RelayClient.connect demo_start))) !! js "game" = Some lane
         /\ timestamp <$> submitted (decoder lane) = [0; 40000].
Proof.
  destruct (publisher_to_viewer ∅ ∅ empty_fine empty_fine first_deck demo_start (RelayClient.connect demo_start)
    1 2 demo_ticks (proj1 first_deck_ok) (proj2 first_deck_ok)) as (p & Hp & _ & Ht);
    [by vm_compute|done|done|done|apply demo_ticks_ok|done|].
  exists p. split; [exact Hp|].
  destruct (Ht (mkTrack 2 (js "game") (js "game") (js "Game"))) as (_ & lane & Hl & Hs);
    [right; left; reflexivity|].
  exists lane. split; [exact Hl|]. rewrite Hs. by vm_compute.
Defined.
