(* ===== verification/Hearing.v ===== *)
(** * Every packet is played once, in order

    Joins the two ends of a lane in a session: its decoder (OpusLane.v), which
    Session.v feeds from the wire, and its scheduler (Scheduler.v), which
    Playback.v runs in the page's graph.  Between them is the codec of the
    browser.  It is a parameter: what it has put out for the chunks it was
    given. *)
From Stdlib Require Import SpecFloat.
From stdpp Require Import relations.
From S2P Require Import Prelude JsString JsNumber JsOrder Wire Messages RelayClient Prefs.
From S2P Require Import WebAudio Graph Scheduler OpusLane Mixer Playback Content Session Publisher EndToEnd.

Section Hearing.
(** WebCodecs: a decoder puts out the data of its chunks in the order of the
    chunks, and takes nothing back. *)
Context (opus : list Chunk -> list AudioData).
Context (Honline : forall cs c, opus cs `prefix_of` opus (cs ++ [c])).

(** The buffers that reach the scheduler: data the output callback cannot copy
    ends in that callback. *)
Definition buffers (cs : list Chunk) : list (list (list num)) :=
  omap (fun d => match output d with Ok buf => Some buf | Throw _ => None end) (opus cs).

Section Steps.
Context (channel : jstr) (globalPrefs streamerPrefs : Prefs).
Implicit Types (c : Content Deck) (w : World (Content Deck)) (p : Deck).

(** A session whose decoded buffers are those of the codec: the next buffer of a
    lane is the one after those it has started. *)
Inductive hearing_step : World (Content Deck) -> World (Content Deck) -> Prop :=
  | hear_control w w' :
      control_step true channel globalPrefs streamerPrefs w w' -> hearing_step w w'
  | hear_decoded w slug lane sl now buf :
      audioLanes (client w) !! slug = Some lane -> codec (decoder lane) = configured ->
      lanes (graph (client w)) !! slug = Some sl -> reading now = true ->
      buffers (submitted (decoder lane)) !! length (started sl) = Some buf ->
      hearing_step w (set_client (with_graph (onDecoded slug now buf (graph (client w))).1 (client w)) w)
  | hear_ended w e g :
      match e with PEnded _ _ | PEndedClosed _ _ => True | _ => False end ->
      playback_ok e (graph (client w)) -> handle_playback true e (graph (client w)) = Ok g ->
      hearing_step w (set_client (with_graph g (client w)) w).

Definition hearing_reachable (g0 : Deck) w : Prop :=
  exists c0, mounted g0 = Ok c0 /\ rtc hearing_step (RelayClient.connect c0) w.

(** ** The invariant *)

Definition lane_in_order (lane : AudioLane) (sl : ScheduledLane (list (list num))) : Prop :=
  (st_buffer <$> started sl) `prefix_of` buffers (submitted (decoder lane))
  /\ reading (playCursor sl) = true.

Definition in_order c : Prop :=
  forall s lane sl, audioLanes c !! s = Some lane -> lanes (graph c) !! s = Some sl -> lane_in_order lane sl.

(** What the handlers do to the lanes: each lane afterwards is new, or was
    there, its scheduler untouched and its decoder given more. *)
Definition grown c c' : Prop :=
  forall s lane' sl, audioLanes c' !! s = Some lane' -> lanes (graph c') !! s = Some sl ->
    (started sl = [] /\ playCursor sl = num0)
    \/ exists lane, audioLanes c !! s = Some lane /\ lanes (graph c) !! s = Some sl
         /\ submitted (decoder lane) `prefix_of` submitted (decoder lane').

(** No buffer was started yet. *)
Definition unstarted c : Prop :=
  forall s lane sl, audioLanes c !! s = Some lane -> lanes (graph c) !! s = Some sl -> started sl = [].

(** ** Lemmas *)

Lemma prefix_omap {A B} (f : A -> option B) (l l' : list A) : l `prefix_of` l' -> omap f l `prefix_of` omap f l'.
Proof. intros [k ->]. rewrite omap_app. by apply prefix_app_r. Qed.

Lemma buffers_prefix cs cs' : cs `prefix_of` cs' -> buffers cs `prefix_of` buffers cs'.
Proof.
  intros [k ->]. apply prefix_omap. induction k as [|c k IH] using rev_ind; [by rewrite app_nil_r|].
  etransitivity; [exact IH|]. rewrite app_assoc. apply Honline.
Qed.

Lemma grown_refl c : grown c c.
Proof. intros s lane sl Hl Hs. right. exists lane. by split_and!. Qed.

Lemma grown_trans c1 c2 c3 : grown c1 c2 -> grown c2 c3 -> grown c1 c3.
Proof.
  intros H12 H23 s lane sl Hl Hs. destruct (H23 s lane sl Hl Hs) as [|(lane2 & Hl2 & Hs2 & Hp2)]; [by left|].
  destruct (H12 s lane2 sl Hl2 Hs2) as [|(lane1 & Hl1 & Hs1 & Hp1)]; [by left|].
  right. exists lane1. split_and!; [done|done|]. by etransitivity.
Qed.

Lemma same_lanes_grown c c' :
  audioLanes c' = audioLanes c -> lanes (graph c') = lanes (graph c) -> grown c c'.
Proof. intros Ha Hl s lane sl. rewrite Ha, Hl. apply grown_refl. Qed.

Lemma grown_in_order c c' : in_order c -> grown c c' -> in_order c'.
Proof.
  intros Hc Hg s lane sl Hl Hs. destruct (Hg s lane sl Hl Hs) as [[Hn Hz]|(lane0 & Hl0 & Hs0 & Hp)].
  - split; [rewrite Hn; apply prefix_nil|by rewrite Hz].
  - destruct (Hc s lane0 sl Hl0 Hs0) as [H1 H2]. split; [|done]. etransitivity; [exact H1|].
    by apply buffers_prefix.
Qed.

Lemma grown_unstarted c c' : unstarted c -> grown c c' -> unstarted c'.
Proof.
  intros Hc Hg s lane sl Hl Hs. destruct (Hg s lane sl Hl Hs) as [[Hn _]|(lane0 & Hl0 & Hs0 & _)]; [done|].
  by apply (Hc s lane0).
Qed.

(** *** The calls on the graph *)

Lemma bind_mixer_lanes p r p' : (g ← r; Ok (with_mixer g p)) = Ok p' -> lanes p' = lanes p.
Proof. destruct r; cbn; [|done]. by intros [= <-]. Qed.

Lemma mx_set_lanes p slug v p' : mx_set p slug v = Ok p' -> lanes p' = lanes p.
Proof. apply bind_mixer_lanes. Qed.
Lemma mx_broadcast_lanes p v p' : mx_broadcast p v = Ok p' -> lanes p' = lanes p.
Proof. apply bind_mixer_lanes. Qed.
Lemma mx_offset_lanes p ms p' : mx_offset p ms = Ok p' -> lanes p' = lanes p.
Proof. apply bind_mixer_lanes. Qed.
Lemma mx_add_lanes p slug n p' : mx_add p slug = Ok (n, p') -> lanes p' = lanes p.
Proof. cbn. destruct (addTrack (mixer p) slug) as [[m g]|]; cbn; [|done]. by intros [= _ <-]. Qed.

(** *** The handlers *)

Lemma solo_loop_lanes slug gs ts nm p nm' p' : solo_loop slug gs ts nm p = Ok (nm', p') -> lanes p' = lanes p.
Proof.
  revert nm p. induction ts as [|t ts IH]; intros nm p; cbn [solo_loop]; [by intros [= _ <-]|].
  intros (p1 & H1 & H2)%bind_Ok_inv. apply mx_set_lanes in H1. rewrite <- H1. by eapply IH.
Qed.

Lemma reset_loop_lanes ts gs ms c gs' ms' c' :
  reset_loop globalPrefs ts gs ms c = Ok (gs', ms', c') ->
  audioLanes c' = audioLanes c /\ lanes (graph c') = lanes (graph c).
Proof.
  revert gs ms c. induction ts as [|t ts IH]; intros gs ms c; cbn [reset_loop]; [by intros [= _ _ <-]|].
  intros (g1 & H1 & H2)%bind_Ok_inv. apply mx_set_lanes in H1. apply IH in H2 as [-> ->]. by split.
Qed.

Lemma ensureLane_grown slug c : grown c (ensureLane true slug c).2.
Proof.
  unfold ensureLane. destruct (audioLanes c !! slug) as [lane|] eqn:El; [apply grown_refl|].
  destruct (mx_entry (graph c) slug) as [entry|]; [|apply grown_refl].
  cbn. intros s lane' sl. cbn. destruct (decide (s = slug)) as [->|Hs].
  - rewrite !lookup_insert_eq. intros _ [= <-]. by left.
  - rewrite !lookup_insert_ne by done. apply grown_refl.
Qed.

Lemma drop_tracks_grown inc ts gs ms c : grown c (drop_tracks inc ts gs ms c).2.
Proof.
  revert gs ms c. induction ts as [|t ts IH]; intros gs ms c; cbn [drop_tracks]; [apply grown_refl|].
  destruct (includes inc (t_slug t)); [apply IH|]. eapply grown_trans; [|apply IH].
  intros s lane sl. cbn. destruct (decide (s = t_slug t)) as [->|Hs]; [by rewrite lookup_delete_eq|].
  rewrite lookup_delete_ne by done. intros Hl Hsl. right. exists lane. split_and!; [done| |done].
  revert Hsl. destruct (audioLanes c !! t_slug t); [|done]. cbn. by rewrite closeLane_lanes, lookup_delete_ne.
Qed.

Lemma add_track_grown t eff c c' : add_track true t eff c = Ok c' -> grown c c'.
Proof.
  unfold add_track. intros ([n g1] & H1 & H2)%bind_Ok_inv. apply bind_Ok_inv in H2 as (g2 & H2 & H3).
  injection H3 as <-. eapply grown_trans; [|apply ensureLane_grown]. apply same_lanes_grown; [done|].
  cbn. apply mx_set_lanes in H2. rewrite H2. by apply mx_add_lanes in H1.
Qed.

Lemma add_tracks_grown ts gs ms c gs' ms' c' :
  add_tracks true globalPrefs streamerPrefs ts gs ms c = Ok (gs', ms', c') -> grown c c'.
Proof.
  revert gs ms c. induction ts as [|t ts IH]; intros gs ms c; cbn [add_tracks].
  { intros [= _ _ <-]. apply grown_refl. }
  destruct (settings c !! t_slug t); [apply IH|]. intros (c1 & H1 & H2)%bind_Ok_inv.
  eapply grown_trans; [by eapply add_track_grown|by eapply IH].
Qed.

Lemma onTrackList_grown incoming c c' :
  Content.onTrackList true globalPrefs streamerPrefs incoming c = Ok c' -> grown c c'.
Proof.
  unfold Content.onTrackList, applyTrackList. set (c0 := indexTracks incoming c).
  pose proof (drop_tracks_grown (t_slug <$> incoming) (tracks c0) (gains c0) (muted c0) c0) as Hd.
  destruct (drop_tracks _ _ _ _ c0) as [[gs ms] c1]. intros ([[gs' ms'] c2] & H1 & H2)%bind_Ok_inv.
  injection H2 as <-. apply (grown_trans c c0); [by apply same_lanes_grown|].
  apply (grown_trans c0 c1); [exact Hd|]. apply (grown_trans c1 c2); [by eapply add_tracks_grown|].
  by apply same_lanes_grown.
Qed.

Lemma decode_submitted payload n d : submitted d `prefix_of` submitted (decode payload n d).1.
Proof. unfold decode. destruct (codec d); cbn; [by apply prefix_app_r|done]. Qed.

Lemma update_lane_grown slug lane d c :
  audioLanes c !! slug = Some lane -> submitted (decoder lane) `prefix_of` submitted d ->
  grown c (with_lanes (<[slug := mkAudioLane d (sched_dest lane) (sched_closed lane)]> (audioLanes c))
             (Content.closedLanes c) c).
Proof.
  intros Hl Hp s lane' sl. cbn. destruct (decide (s = slug)) as [->|Hs].
  - rewrite lookup_insert_eq. intros [= <-] Hsl. right. by exists lane.
  - rewrite lookup_insert_ne by done. apply grown_refl.
Qed.

Lemma onAudio_grown trackID frame c : grown c (Content.onAudio true trackID frame c).1.
Proof.
  unfold Content.onAudio. destruct (idToSlug c !! trackID) as [slug|]; [|apply grown_refl].
  case_bool_decide; [apply grown_refl|]. pose proof (ensureLane_grown slug c) as He.
  assert (Hfound : forall lane c1, ensureLane true slug c = (Some lane, c1) -> audioLanes c1 !! slug = Some lane).
  { intros lane c1. unfold ensureLane. destruct (audioLanes c !! slug) as [l|] eqn:E; [by intros [= <- <-]|].
    destruct (mx_entry (graph c) slug); [|done]. intros [= <- <-]. cbn. by rewrite lookup_insert_eq. }
  destruct (ensureLane true slug c) as [[lane|] c1]; [|exact He].
  pose proof (decode_submitted (f_payload frame) (f_seq frame) (decoder lane)) as Hd.
  destruct (decode _ _ _) as [d e]. eapply grown_trans; [exact He|]. by apply update_lane_grown; [apply Hfound|].
Qed.

Lemma onCodecError_grown slug c : grown c (onCodecError slug c).
Proof.
  unfold onCodecError. destruct (audioLanes c !! slug) as [lane|] eqn:El; [|apply grown_refl].
  by apply update_lane_grown.
Qed.

Lemma handle_grown e c c' :
  handle true channel globalPrefs streamerPrefs e c = Ok c' -> grown c c'.
Proof.
  destruct e as [l|id f|s v|s|s| | |v|ms|s]; cbn [handle].
  - apply onTrackList_grown.
  - intros [= <-]. apply onAudio_grown.
  - unfold onChange. intros (g & Hg & [= <-])%bind_Ok_inv. apply mx_set_lanes in Hg. revert Hg. cbn.
    intros Hg. apply same_lanes_grown; cbn; [by destruct (settings c !! s)|]. rewrite Hg. by destruct (settings c !! s).
  - unfold onMuteToggle. intros (g & Hg & [= <-])%bind_Ok_inv. apply mx_set_lanes in Hg. revert Hg. cbn.
    intros Hg. apply same_lanes_grown; cbn; [by destruct (settings c !! s)|]. rewrite Hg. by destruct (settings c !! s).
  - unfold onSoloToggle. intros ([nm g] & Hg & [= <-])%bind_Ok_inv. apply solo_loop_lanes in Hg.
    by apply same_lanes_grown.
  - unfold onReset. intros ([[gs ms] c1] & Hg & [= <-])%bind_Ok_inv. apply reset_loop_lanes in Hg as [H1 H2].
    by apply same_lanes_grown.
  - intros [= <-]. by apply same_lanes_grown.
  - unfold onBroadcastChange. intros (g & Hg & [= <-])%bind_Ok_inv. apply mx_broadcast_lanes in Hg.
    by apply same_lanes_grown.
  - unfold onOffsetChange. intros (g & Hg & [= <-])%bind_Ok_inv. apply mx_offset_lanes in Hg.
    by apply same_lanes_grown.
  - intros [= <-]. apply onCodecError_grown.
Qed.

Lemma message_grown data c :
  grown c (handleMessage data (relay_events true globalPrefs streamerPrefs) c).1.
Proof.
  unfold handleMessage. destruct (decodeFrame data) as [frame|]; [|apply grown_refl].
  destruct (f_type frame); try apply grown_refl.
  - unfold try_payload. destruct (decodeTrackList (f_payload frame)) as [ts|]; [|apply grown_refl].
    cbn [relay_events RelayClient.onTrackList fmap option_fmap option_map fire]. unfold lift.
    destruct (Content.onTrackList _ _ _ ts c) as [c'|] eqn:E; [|apply grown_refl]. by apply onTrackList_grown in E.
  - apply onAudio_grown.
  - unfold try_payload. destruct (decodeFingerprint _); apply grown_refl.
  - unfold try_payload. destruct (decodeTrackMeta _); apply grown_refl.
  - unfold try_payload. destruct (decodeError _); apply grown_refl.
Qed.

Lemma control_grown w w' :
  control_step true channel globalPrefs streamerPrefs w w' -> grown (client w) (client w').
Proof.
  intros [w0 n data _|w0 w1 _ Heq|w0 e c _ _ Hh].
  - rewrite handle_data_client. apply message_grown.
  - rewrite Heq. apply grown_refl.
  - by apply handle_grown in Hh.
Qed.

Lemma receive_grown datas w :
  grown (client w) (client (receive true globalPrefs streamerPrefs datas w)).
Proof.
  unfold receive. revert w. induction datas as [|data datas IH]; intros w; cbn [foldl]; [apply grown_refl|].
  eapply grown_trans; [|apply IH]. rewrite handle_data_client. apply message_grown.
Qed.

(** *** Buffers and sources *)

(** A buffer that arrives is started. *)
Lemma onDecoded_next p slug sl now buf :
  lanes p !! slug = Some sl -> reading now = true -> reading (playCursor sl) = true ->
  exists p' sl' src when, onDecoded slug now buf p = (p', None)
    /\ lanes p' = <[slug := sl']> (lanes p) /\ started sl' = started sl ++ [mkStart src when buf]
    /\ jle (jadd now Scheduler.FRAME_DURATION) when = true /\ reading (playCursor sl') = true.
Proof.
  intros Hl Hn Hc. unfold onDecoded. rewrite Hl.
  destruct (enqueue_reading now buf sl (ctx (mixer p)) Hn Hc) as (sl' & when & -> & Hs & Hw & Hr).
  eexists _, sl', _, when. split; [done|]. split; [done|]. done.
Qed.

(** A source that ends takes no start back. *)
Lemma ended_lanes e p p' s :
  match e with PEnded _ _ | PEndedClosed _ _ => True | _ => False end -> handle_playback true e p = Ok p' ->
  forall sl', lanes p' !! s = Some sl' ->
  exists sl, lanes p !! s = Some sl /\ started sl' = started sl /\ playCursor sl' = playCursor sl.
Proof.
  destruct e as [| | |slug src|i src|]; try done; intros _ [= <-] sl'.
  - unfold onEnded. destruct (lanes p !! slug) as [sl|] eqn:E; [|by eauto]. cbn.
    destruct (decide (s = slug)) as [->|Hs].
    + rewrite lookup_insert_eq. intros [= <-]. by exists sl.
    + rewrite lookup_insert_ne by done. eauto.
  - unfold onEndedClosed. destruct (Playback.closedLanes p !! i); [|by eauto]. cbn. eauto.
Qed.

Lemma next_in_order c slug lane sl now buf :
  in_order c -> audioLanes c !! slug = Some lane -> lanes (graph c) !! slug = Some sl -> reading now = true ->
  buffers (submitted (decoder lane)) !! length (started sl) = Some buf ->
  in_order (with_graph (onDecoded slug now buf (graph c)).1 c).
Proof.
  intros Hc Hl Hs Hn Hb. destruct (Hc slug lane sl Hl Hs) as [Hp Hr].
  destruct (onDecoded_next (graph c) slug sl now buf Hs Hn Hr) as (p' & sl' & src & when & -> & Hls & Hst & _ & Hr').
  intros s lane1 sl1. cbn. rewrite Hls. destruct (decide (s = slug)) as [->|Hne].
  - rewrite lookup_insert_eq, Hl. intros [= <-] [= <-]. split; [|done]. rewrite Hst, fmap_app.
    destruct Hp as [k Hk]. rewrite Hk in Hb |- *. rewrite lookup_app_r in Hb by (by rewrite length_fmap).
    rewrite length_fmap, Nat.sub_diag in Hb. destruct k as [|b k]; [done|]. injection Hb as ->.
    apply prefix_app. cbn. by exists k.
  - rewrite lookup_insert_ne by done. apply Hc.
Qed.

Lemma hearing_session w w' :
  hearing_step w w' -> session_step true channel globalPrefs streamerPrefs w w'.
Proof.
  intros [w0 w1 Hs|w0 slug lane sl now buf _ _ _ _ _|w0 e g He Hok Hh]; [by apply sess_control| |].
  - apply sess_audio. by exists (PDecoded slug now buf).
  - apply sess_audio. exists e. split_and!; [by destruct e|done|done].
Qed.

Lemma hearing_in_order w w' : hearing_step w w' -> in_order (client w) -> in_order (client w').
Proof.
  intros [w0 w1 Hs|w0 slug lane sl now buf Hl _ Hsl Hn Hb|w0 e g He Hok Hh] Hc.
  - eapply grown_in_order; [done|]. by apply control_grown.
  - by eapply next_in_order.
  - intros s lane sl Hl Hs. destruct (ended_lanes e _ g s He Hh sl Hs) as (sl0 & Hs0 & H1 & H2).
    unfold lane_in_order. rewrite H1, H2. by apply (Hc s).
Qed.

Lemma mounted_unstarted p c : mounted p = Ok c -> unstarted c /\ in_order c.
Proof.
  unfold mounted. intros (p1 & _ & H)%bind_Ok_inv. apply bind_Ok_inv in H as (p2 & _ & [= <-]).
  by split; intros s lane sl; cbn; rewrite lookup_empty.
Qed.

Lemma hearing_inv p0 w :
  hearing_reachable p0 w -> session_reachable true channel globalPrefs streamerPrefs p0 w /\ in_order (client w).
Proof.
  intros (c0 & Hm & Hr). split.
  - exists c0. split; [done|]. eapply rtc_subrel; [|exact Hr]. apply hearing_session.
  - revert Hr. apply (rtc_ind_r (fun w => in_order (client w))).
    + by apply mounted_unstarted in Hm as [_ ?].
    + intros y z _ Hs Hy. by eapply hearing_in_order.
Qed.

(** The two ends of the lane of a track. *)
Lemma lane_ends c t :
  content_inv true c -> t ∈ tracks c ->
  exists lane sl, audioLanes c !! t_slug t = Some lane /\ lanes (graph c) !! t_slug t = Some sl.
Proof.
  intros Hinv Ht. destruct (inv_rows _ _ Hinv (t_slug t)) as [Hpr _].
  destruct (Hpr ltac:(by apply list_elem_of_fmap_2)) as (_ & _ & _ & _ & _ & _ & _ & _ & _ & H7 & _).
  unfold lane_ok in H7. cbn in H7. destruct (audioLanes c !! t_slug t) as [lane|]; [|by destruct H7].
  destruct H7 as (_ & Hslot & _). injection Hslot as _ Ho%bool_decide_eq_true. destruct Ho as [sl Hsl]. eauto.
Qed.

(** *** Catching up *)

(** What a lane does until it has started all its buffers. *)
Definition caught_up c c' (t : TrackInfo) : Prop :=
  exists lane sl, audioLanes c !! t_slug t = Some lane /\ lanes (graph c') !! t_slug t = Some sl
    /\ st_buffer <$> started sl = buffers (submitted (decoder lane)).

Definition only_started c c' : Prop :=
  content_inv true c' /\ in_order c' /\ tracks c' = tracks c /\ audioLanes c' = audioLanes c.

Lemma drain_lane now t w :
  reading now = true -> content_inv true (client w) -> in_order (client w) -> t ∈ tracks (client w) ->
  (forall lane, audioLanes (client w) !! t_slug t = Some lane -> codec (decoder lane) = configured) ->
  exists c', rtc hearing_step w (set_client c' w) /\ only_started (client w) c' /\ caught_up (client w) c' t
    /\ forall s, s <> t_slug t -> lanes (graph c') !! s = lanes (graph (client w)) !! s.
Proof.
  intros Hn Hinv Hord Ht Hcod. destruct (lane_ends _ _ Hinv Ht) as (lane & sl & Hl & Hs).
  destruct (Hord _ _ _ Hl Hs) as [[k Hk] _].
  revert w sl Hinv Hord Ht Hcod Hl Hs Hk. induction k as [|buf k IH]; intros w sl Hinv Hord Ht Hcod Hl Hs Hk.
  { exists (client w). split; [by destruct w|]. split; [by split_and!|]. split; [|done].
    exists lane, sl. by rewrite Hk, app_nil_r. }
  assert (Hb : buffers (submitted (decoder lane)) !! length (started sl) = Some buf).
  { rewrite Hk, lookup_app_r by (by rewrite length_fmap). by rewrite length_fmap, Nat.sub_diag. }
  pose proof (hear_decoded w _ lane sl now buf Hl (Hcod lane Hl) Hs Hn Hb) as Hstep.
  pose proof (hearing_in_order _ _ Hstep Hord) as Hord'.
  destruct (Hord _ _ _ Hl Hs) as [_ Hr].
  assert (Hinv' : content_inv true (with_graph (onDecoded (t_slug t) now buf (graph (client w))).1 (client w)))
    by (apply audio_inv; [done|]; by exists (PDecoded (t_slug t) now buf)).
  destruct (onDecoded_next (graph (client w)) (t_slug t) sl now buf Hs Hn Hr)
    as (p' & sl' & src & when & Hp' & Hls & Hst & _). rewrite Hp' in *. cbn [fst] in *.
  destruct (IH (set_client (with_graph p' (client w)) w) sl') as (c' & Hrun & (I1 & I2 & I3 & I4) & Hup & Hoth);
    try done.
  { cbn. by rewrite Hls, lookup_insert_eq. }
  { rewrite Hst, fmap_app, Hk, <- app_assoc. done. }
  exists c'. split; [by eapply rtc_l|]. split; [done|]. split; [exact Hup|].
  intros s Hne. rewrite (Hoth s Hne). cbn. by rewrite Hls, lookup_insert_ne.
Qed.

Lemma drain_lanes now ts w :
  reading now = true -> content_inv true (client w) -> in_order (client w) ->
  (forall t, t ∈ ts -> t ∈ tracks (client w)) -> NoDup (t_slug <$> ts) ->
  (forall t lane, t ∈ ts -> audioLanes (client w) !! t_slug t = Some lane -> codec (decoder lane) = configured) ->
  exists c', rtc hearing_step w (set_client c' w) /\ only_started (client w) c'
    /\ (forall t, t ∈ ts -> caught_up (client w) c' t)
    /\ forall s, s ∉ t_slug <$> ts -> lanes (graph c') !! s = lanes (graph (client w)) !! s.
Proof.
  intros Hn. revert w. induction ts as [|t ts IH]; intros w Hinv Hord Hin Hnd Hcod.
  { exists (client w). split; [by destruct w|]. split; [by split_and!|]. split; [|done].
    by intros t ?%not_elem_of_nil. }
  apply NoDup_cons in Hnd as [Hnew Hnd].
  destruct (drain_lane now t w Hn Hinv Hord) as (c1 & R1 & (I1 & I2 & I3 & I4) & U1 & O1);
    [by apply Hin; left|intros lane; by apply Hcod; left|].
  destruct (IH (set_client c1 w)) as (c2 & R2 & (J1 & J2 & J3 & J4) & U2 & O2); cbn [client set_client] in *.
  { done. }
  { done. }
  { intros u Hu. rewrite I3. by apply Hin; right. }
  { done. }
  { intros u lane Hu. rewrite I4. by apply Hcod; right. }
  exists c2. split; [by etransitivity|].
  split; [split; [done|]; split; [done|]; split; congruence|]. split.
  - intros u [->|Hu]%elem_of_cons.
    + destruct U1 as (lane & sl & H1 & H2 & H3). exists lane, sl. by rewrite O2.
    + destruct (U2 u Hu) as (lane & sl & H1 & H2 & H3). exists lane, sl. by rewrite <- I4.
  - intros s Hs. rewrite O2, O1; [done| |]; intros Hx; apply Hs; [by rewrite Hx; left | by right].
Qed.
(** *** The lanes of a session *)

(** The decoded packets of a track, once each and in order, at least a frame
    apart; and what a buffer that comes now does. *)
Definition plays_in_order c (t : TrackInfo) : Prop :=
  exists lane sl, audioLanes c !! t_slug t = Some lane /\ lanes (graph c) !! t_slug t = Some sl
    /\ (st_buffer <$> started sl) `prefix_of` buffers (submitted (decoder lane))
    /\ (forall i a b, started sl !! i = Some a -> started sl !! S i = Some b ->
          jle (jadd (st_when a) Scheduler.FRAME_DURATION) (st_when b) = true)
    /\ forall now buf, reading now = true ->
         exists p sl' src when, onDecoded (t_slug t) now buf (graph c) = (p, None)
           /\ lanes p = <[t_slug t := sl']> (lanes (graph c))
           /\ started sl' = started sl ++ [mkStart src when buf]
           /\ jle (jadd now Scheduler.FRAME_DURATION) when = true.

Lemma hearing_plays captured captured' video g w t :
  prefs_fine globalPrefs -> prefs_fine streamerPrefs -> buildGraph captured video = Ok (captured', g) ->
  hearing_reachable (new_deck g) w -> t ∈ tracks (client w) -> plays_in_order (client w) t.
Proof.
  intros Hgp Hsp Hb Hr Ht. destruct (new_deck_ok _ _ _ _ Hb) as [Hok He].
  destruct (hearing_inv _ _ Hr) as [Hsess Hord].
  destruct (session_inv true channel globalPrefs streamerPrefs Hgp Hsp _ w Hok He Hsess) as [_ Hinv].
  destruct (lane_ends _ _ Hinv Ht) as (lane & sl & Hl & Hs). destruct (Hord _ _ _ Hl Hs) as [Hp Hc].
  exists lane, sl. split; [exact Hl|]. split; [exact Hs|]. split; [exact Hp|]. split.
  - destruct (inv_lane (inv_graph _ _ Hinv) _ _ Hs) as (_ & Hlane & _). apply (inv_spaced _ Hlane).
  - intros now buf Hn.
    destruct (onDecoded_next _ _ sl now buf Hs Hn Hc) as (p & sl' & src & when & H1 & H2 & H3 & H4 & _).
    exists p, sl', src, when. split_and!; assumption.
Qed.
End Steps.
End Hearing.

(** ** Properties *)

(** C14: the publisher is heard.  After a fresh viewer has received the whole
    stream of the mock publisher, byte for byte, its lanes can catch up, and then
    each track's scheduler has started exactly the buffers decoded from that
    track's packets, in order, each packet stamped 20 ms per tick since the first
    audio tick. *)
Theorem publisher_is_played (opus : list Chunk -> list AudioData) (channel : jstr)
    (globalPrefs streamerPrefs : Prefs) (captured captured' : gset Z) (video : Z) (g : MixerGraph)
    (w : World (Content Deck)) (now1 now2 : Z) (ticks : list Tick) (now : num) :
  (forall cs c, opus cs `prefix_of` opus (cs ++ [c])) ->
  prefs_fine globalPrefs -> prefs_fine streamerPrefs -> buildGraph captured video = Ok (captured', g) ->
  mounted (new_deck g) = Ok (client w) ->
  clock_ok now1 -> clock_ok now2 -> Forall tick_ok ticks -> Z.of_nat (length ticks) <= u32_max ->
  reading now = true ->
  exists p c, publish now1 now2 ticks = Ok p
    /\ rtc (hearing_step opus channel globalPrefs streamerPrefs)
         (receive true globalPrefs streamerPrefs (sent p) w) (set_client c w)
    /\ forall t, t ∈ TRACKS -> exists sl, lanes (graph c) !! t_slug t = Some sl
         /\ st_buffer <$> started sl = buffers opus (track_chunks ticks t).
Proof.
  intros Hopus Hgp Hsp Hb Hm H1 H2 Hticks Hlen Hn. destruct (new_deck_ok _ _ _ _ Hb) as [Hok He].
  destruct (deliver_stream globalPrefs streamerPrefs Hgp Hsp _ w now1 now2 ticks Hok He Hm H1 H2 Hticks Hlen)
    as (p & c & Hp & Hrun & Hinv & Htr & Hall).
  assert (Hord : in_order opus c).
  { destruct (mounted_unstarted opus _ _ Hm) as [_ H0].
    pose proof (receive_grown globalPrefs streamerPrefs (sent p) w) as Hg. rewrite Hrun in Hg.
    by eapply grown_in_order. }
  destruct (drain_lanes opus Hopus channel globalPrefs streamerPrefs now TRACKS (set_client c w) Hn Hinv Hord)
    as (c' & Hd & _ & Hup & _).
  { intros t Ht. cbn. rewrite Htr. exact Ht. }
  { apply TRACKS_slugs. }
  { intros t lane Ht Hl. destruct (Hall t Ht) as (_ & lane' & Hl' & Hc & _). cbn in Hl. congruence. }
  exists p, c'. split; [exact Hp|]. split; [rewrite Hrun; exact Hd|]. intros t Ht.
  destruct (Hup t Ht) as (lane & sl & Hl & Hs & Heq). exists sl. split; [exact Hs|]. rewrite Heq.
  destruct (Hall t Ht) as (_ & lane' & Hl' & _ & Hsub). cbn in Hl. congruence.
Qed.

(** A codec that decodes a packet to one frame, its length. *)
Definition demo_opus (cs : list Chunk) : list AudioData :=
  (fun ch => mkAudioData 1 (fun _ _ => Ok [of_Z (Z.of_nat (length (data ch)))])) <$> cs.

Lemma demo_opus_online cs c : demo_opus cs `prefix_of` demo_opus (cs ++ [c]).
Proof. unfold demo_opus. rewrite fmap_app. by apply prefix_app_r. Qed.

(** The session of Session.v; two packets of the first track arrive and the
    first one is decoded. *)
Definition packet (n : Z) (payload : list Z) : list Z :=
  match encodeFrame (mkFrame AudioOpus 1 0 n 0 payload) with Ok b => b | Throw _ => [] end.

Definition two_packets : World (Content Deck) := receive true ∅ ∅ [packet 4 [9]; packet 5 [9; 9]] demo_session.

Definition hearing_session_demo : World (Content Deck) :=
  set_client (with_graph (onDecoded (js "mic") (of_Z 1) [[of_Z 1]; [of_Z 1]] (graph (client two_packets))).1
    (client two_packets)) two_packets.

Lemma hearing_demo_steps channel :
  rtc (hearing_step demo_opus channel ∅ ∅) (RelayClient.connect demo_start) hearing_session_demo.
Proof.
  set (w1 := (handle_data (relay_events (G := Deck) true ∅ ∅) (Some (packet 4 [9])) demo_session).1).
  assert (S0 : sockets demo_session !! 0%nat = Some OPEN) by by vm_compute.
  assert (S1 : sockets w1 !! 0%nat = Some OPEN) by by vm_compute.
  assert (H0 : rtc (hearing_step demo_opus channel ∅ ∅) (RelayClient.connect demo_start) demo_session).
  { eapply rtc_subrel; [|apply demo_session_control]. intros x y. apply hear_control. }
  refine (rtc_r _ _ _ (rtc_r _ _ _ (rtc_r _ _ w1 H0 _) (_ : hearing_step _ _ _ _ w1 two_packets)) _).
  - apply hear_control. exact (sess_message true channel ∅ ∅ demo_session 0 (packet 4 [9]) S0).
  - apply hear_control. exact (sess_message true channel ∅ ∅ w1 0 (packet 5 [9; 9]) S1).
  - refine (hear_decoded _ _ _ _ two_packets (js "mic") _ _ (of_Z 1) [[of_Z 1]; [of_Z 1]] _ _ _ _ _);
      [by vm_compute|by vm_compute|by vm_compute|by vm_compute|by vm_compute].
Qed.

Lemma publisher_is_played_witness :
  exists p c, publish 1 2 demo_ticks = Ok p
    /\ rtc (hearing_step demo_opus (js "twitch:foo") ∅ ∅)
         (receive true ∅ ∅ (sent p) (RelayClient.connect demo_start)) (set_client c (RelayClient.connect demo_start))
    /\ exists sl, lanes (graph c) !! js "game" = Some sl
         /\ st_buffer <$> started sl = replicate 2 [[of_Z 64]; [of_Z 64]].
Proof.
  assert (Hb : buildGraph ∅ 7 = Ok ({[7]}, first_graph)) by by vm_compute.
  assert (Hm : mounted (new_deck first_graph) = Ok (client (RelayClient.connect demo_start))) by by vm_compute.
  assert (H12 : clock_ok 1 /\ clock_ok 2) by (unfold clock_ok, u64_max; lia). destruct H12 as [H1 H2].
  destruct (publisher_is_played demo_opus (js "twitch:foo") ∅ ∅ ∅ {[7]} 7 first_graph (RelayClient.connect demo_start)
    1 2 demo_ticks (of_Z 3) demo_opus_online empty_fine empty_fine Hb Hm H1 H2 demo_ticks_ok)
    as (p & c & Hp & Hr & Hall); [by vm_compute|by vm_compute|].
  exists p, c. split; [exact Hp|]. split; [exact Hr|].
  destruct (Hall (mkTrack 2 (js "game") (js "game") (js "Game"))) as (sl & Hs & Heq);
    [right; left; reflexivity|].
  exists sl. split; [exact Hs|]. rewrite Heq. by vm_compute.
Defined.
