(* ===== verification/Page.v ===== *)
(** * The life of a page

    Models the rest of extension/src/content/index.ts: [mount] across its two
    awaits, [unmount], the navigation observer and [destroy].  A mount that is
    waiting is an entry of [pending]; a mount that finished is an instance,
    with its session (Session.v).  [active] is the instance the module's
    variable refers to. *)
From Stdlib Require Import SpecFloat QArith.Qcanon.
From stdpp Require Import relations.
From S2P Require Import Prelude JsString JsNumber JsOrder Messages RelayClient Prefs Platform.
From S2P Require Import WebAudio Graph OpusLane Mixer Playback Content Session Viewer.
Open Scope Z_scope.

(** ** State *)

Inductive AudioState := suspended | running | closed.

(** What a finished mount holds: its session, the state of its context, and
    whether its listeners and its panel are in the document. *)
Record Instance := mkInstance {
  i_location : ChannelLocation;
  i_video : Z;
  i_global : Prefs;
  i_streamer : Prefs;
  i_world : World (Content Deck);
  i_audio : AudioState;
  i_listeners : bool;
  i_panel : bool;
}.

Definition with_world (w : World (Content Deck)) (x : Instance) : Instance :=
  mkInstance (i_location x) (i_video x) (i_global x) (i_streamer x) w (i_audio x) (i_listeners x) (i_panel x).
Definition with_audio (a : AudioState) (x : Instance) : Instance :=
  mkInstance (i_location x) (i_video x) (i_global x) (i_streamer x) (i_world x) a (i_listeners x) (i_panel x).

(** A mount at its first or second await. *)
Inductive Pending :=
  | AwaitPlayer (loc : ChannelLocation) (waiting : Waiting)
  | AwaitPrefs (loc : ChannelLocation) (video : Z) (graph : MixerGraph).

(** [captured] are the media elements some context took over; the document
    keeps them. *)
Record Page := mkPage {
  active : option nat;
  instances : list Instance;
  pending : list Pending;
  captured : gset Z;
  lastHref : jstr;
}.

Definition with_pending (l : list Pending) (p : Page) : Page :=
  mkPage (active p) (instances p) l (captured p) (lastHref p).
Definition with_instance (n : nat) (x : Instance) (p : Page) : Page :=
  mkPage (active p) (<[n := x]> (instances p)) (pending p) (captured p) (lastHref p).

(** ** Operations *)

Section Page.
(** The URL parser, lower-casing, and whether the browser has WebCodecs. *)
Context (parse_url : jstr -> option (jstr * jstr)) (toLowerCase : jstr -> jstr) (webcodecs : bool).

(** [mount] up to its first await, on a document at a time. *)
Definition mount (d : Document) (now : Z) (p : Page) : Page :=
  match detectChannel parse_url toLowerCase (lastHref p) with
  | None => p
  | Some loc => with_pending (pending p ++ [AwaitPlayer loc (waitForPlayer d (platform loc) now)]) p
  end.

(** A batch of mutations, as the observer of a waiting mount sees it. *)
Definition mutate (ev : Z * Document) (m : Pending) : Pending :=
  match m with
  | AwaitPlayer loc w => AwaitPlayer loc (on_mutation (platform loc) DEFAULT_TIMEOUT_MS w ev)
  | AwaitPrefs _ _ _ => m
  end.

(** The first await returned: null ends the mount, and so does the exception
    of [buildGraph]. *)
Definition resume_player (i : nat) (loc : ChannelLocation) (hooks : option PlayerHooks) (p : Page) : Page :=
  match hooks with
  | None => with_pending (delete i (pending p)) p
  | Some hooks =>
      match buildGraph (captured p) (video hooks) with
      | Throw _ => with_pending (delete i (pending p)) p
      | Ok (captured, graph) =>
          mkPage (active p) (instances p) (<[i := AwaitPrefs loc (video hooks) graph]> (pending p)) captured (lastHref p)
      end
  end.

(** The second await returned: the rest of [mount]. *)
Definition resume_prefs (i : nat) (loc : ChannelLocation) (video : Z) (graph : MixerGraph)
    (globalPrefs streamerPrefs : Prefs) (audio : AudioState) (p : Page) : Page :=
  match mounted (new_deck graph) with
  | Throw _ => with_pending (delete i (pending p)) p
  | Ok c =>
      mkPage (Some (length (instances p)))
        (instances p ++ [mkInstance loc video globalPrefs streamerPrefs (RelayClient.connect c) audio true true])
        (delete i (pending p)) (captured p) (lastHref p)
  end.

(** [destroy] of an instance. *)
Definition destroy_instance (x : Instance) : Instance :=
  let w := close_ (i_world x) in
  let c := destroy_lanes (client w) in
  let c := with_graph (with_mixer (Graph.destroy (mixer (graph c))) (graph c)) c in
  mkInstance (i_location x) (i_video x) (i_global x) (i_streamer x) (set_client c w) closed false false.

Definition unmount (p : Page) : Page :=
  match active p with
  | Some n =>
      match instances p !! n with
      | Some x => mkPage None (<[n := destroy_instance x]> (instances p)) (pending p) (captured p) (lastHref p)
      | None => mkPage None (instances p) (pending p) (captured p) (lastHref p)
      end
  | None => p
  end.

(** The observer's callback. *)
Definition on_page_mutation (href : jstr) (d : Document) (now : Z) (p : Page) : Page :=
  if bool_decide (href = lastHref p) then p
  else
    let p := unmount (mkPage (active p) (instances p) (pending p) (captured p) href) in
    mount d now p.

(** [resumeAudio], on a click or when the player starts. *)
Definition resumeAudio (x : Instance) : Instance :=
  match i_audio x with suspended => with_audio running x | _ => x end.

(** The script's first run. *)
Definition start (href : jstr) (d : Document) (now : Z) : Page :=
  mount d now (mkPage None [] [] ∅ href).

(** ** Steps *)

(** [may_navigate] tells which navigations happen: all of them, or only those
    of a page in a certain state. *)
Inductive page_step (may_navigate : Page -> Prop) : Page -> Page -> Prop :=
  | page_navigate p href d now :
      may_navigate p -> page_step may_navigate p (on_page_mutation href d now p)
  | page_mutation p ev :
      page_step may_navigate p (with_pending (mutate ev <$> pending p) p)
  | page_player p i loc hooks :
      pending p !! i = Some (AwaitPlayer loc (Resolved hooks)) ->
      page_step may_navigate p (resume_player i loc hooks p)
  | page_prefs p i loc video graph gp sp audio :
      pending p !! i = Some (AwaitPrefs loc video graph) -> prefs_fine gp -> prefs_fine sp ->
      page_step may_navigate p (resume_prefs i loc video graph gp sp audio p)
  | page_session p n x w :
      instances p !! n = Some x -> i_panel x = true ->
      session_step webcodecs (channelID (i_location x)) (i_global x) (i_streamer x) (i_world x) w ->
      page_step may_navigate p (with_instance n (with_world w x) p)
  | page_network p n x w :
      instances p !! n = Some x -> i_panel x = false ->
      RelayClient.step (relay_events webcodecs (i_global x) (i_streamer x)) (i_world x) w ->
      page_step may_navigate p (with_instance n (with_world w x) p)
  | page_audio p n x g :
      instances p !! n = Some x -> i_panel x = false -> mx_audio (graph (client (i_world x))) g ->
      page_step may_navigate p
        (with_instance n (with_world (set_client (with_graph g (client (i_world x))) (i_world x)) x) p)
  | page_gesture p n x :
      instances p !! n = Some x -> i_listeners x = true ->
      page_step may_navigate p (with_instance n (resumeAudio x) p).

Definition page_reachable (may_navigate : Page -> Prop) (p : Page) : Prop :=
  exists href d now, rtc (page_step may_navigate) (start href d now) p.

(** ** Invariant *)

(** An instance is a session on a graph that was built for its player. *)
Definition in_session (x : Instance) : Prop :=
  exists captured captured' g, buildGraph captured (i_video x) = Ok (captured', g)
    /\ session_reachable webcodecs (channelID (i_location x)) (i_global x) (i_streamer x) (new_deck g) (i_world x).

Definition alive (x : Instance) : Prop :=
  in_session x /\ i_listeners x = true /\ prefs_fine (i_global x) /\ prefs_fine (i_streamer x).

(** A destroyed mixer: its context is closed, and neither the player nor any
    source it ever started is connected. *)
Definition silent (p : Deck) : Prop :=
  lanes p = ∅ /\ ctx_closed (ctx (mixer p)) = true
  /\ (forall e, e ∈ edges (ctx (mixer p)) -> e.1 <> source (mixer p))
  /\ forall n d, n ∈ sources_of (all_lanes p) -> ~ ((n, d) ∈ edges (ctx (mixer p))).

(** Everything [destroy] releases. *)
Definition released (x : Instance) : Prop :=
  RelayClient.closed (i_world x) = true /\ isOpen (i_world x) = false
  /\ audioLanes (client (i_world x)) = ∅ /\ Forall lane_dead (closedLanes (client (i_world x)))
  /\ silent (graph (client (i_world x))) /\ i_audio x = closed /\ i_listeners x = false.

Definition instance_inv (x : Instance) : Prop :=
  if i_panel x then alive x else conn_inv (i_world x) /\ released x.

Definition pending_inv (m : Pending) : Prop :=
  match m with
  | AwaitPlayer _ _ => True
  | AwaitPrefs _ v g => exists captured captured', buildGraph captured v = Ok (captured', g)
  end.

Record page_inv (p : Page) : Prop := {
  inv_instances : Forall instance_inv (instances p);
  inv_pending : Forall pending_inv (pending p);
  inv_active : forall n, active p = Some n -> exists x, instances p !! n = Some x /\ i_panel x = true;
}.

(** ** Lemmas *)

Lemma closed_not_open {St} (w : World St) : conn_inv w -> RelayClient.closed w = true -> isOpen w = false.
Proof.
  intros [_ _ Hcl _ _] Hc. specialize (Hcl Hc). rewrite Forall_lookup in Hcl. unfold isOpen.
  destruct (ws w) as [n|]; [|done]. destruct (sockets w !! n) as [st|] eqn:E; [|done].
  by destruct (Hcl n st E) as [-> | ->].
Qed.

Lemma close_shape {St} (w : World St) :
  RelayClient.closed (close_ w) = true /\ client (close_ w) = client w.
Proof. unfold close_. cbn. repeat case_match; done. Qed.

Lemma alive_inv x : alive x -> conn_inv (i_world x) /\ content_inv webcodecs (client (i_world x)).
Proof.
  intros ((captured & captured' & g & Hb & Hr) & _ & Hgp & Hsp). destruct (new_deck_ok _ _ _ _ Hb) as [Hok He].
  exact (session_inv webcodecs _ _ _ Hgp Hsp _ _ Hok He Hr).
Qed.

(** The lanes of the mixer are those of the controller, so [destroy] closes
    them all. *)
Lemma destroy_lanes_silent (c : Content Deck) :
  content_inv webcodecs c ->
  let p := graph (destroy_lanes c) in silent (with_mixer (Graph.destroy (mixer p)) p).
Proof.
  intros Hinv p. pose proof (inv_graph _ _ Hinv) as Hok.
  destruct (closeLanes_inv (graph c) (map_to_list (audioLanes c)).*1 Hok) as (Hi & Hs & Hl).
  assert (Hp : p = foldl (fun p slug => closeLane slug p) (graph c) (map_to_list (audioLanes c)).*1) by done.
  rewrite <- Hp in Hi, Hl. assert (Hempty : lanes p = ∅).
  { apply map_eq. intros s. rewrite lookup_empty. destruct (lanes p !! s) as [lane|] eqn:E; [|done].
    destruct (Hl s lane E) as [Hg Hn]. exfalso. apply Hn.
    destruct (audioLanes c !! s) as [l|] eqn:Ea.
    - apply list_elem_of_fmap. exists (s, l). split; [done|]. by apply elem_of_map_to_list.
    - pose proof (inv_attached webcodecs c Hinv s Ea) as Ho. cbn in Ho. rewrite Hg in Ho. done. }
  split; [exact Hempty|]. split; [done|]. cbn. split.
  - intros e. rewrite list_elem_of_filter. by intros [? _].
  - intros n d Hn. rewrite list_elem_of_filter. intros [_ He].
    destruct (connected_is_live p n d Hi Hn He) as (s & lane & Hlane & _). by rewrite Hempty, lookup_empty in Hlane.
Qed.

(** Sources may still report their end to a destroyed mixer. *)
Lemma silent_audio (p p' : Deck) : silent p -> mx_audio p p' -> silent p'.
Proof.
  intros (Hl & Hc & He & Hs) (e & Ha & Hok & Hh).
  destruct e as [o|slug|slug now buf|slug src|i src|slug]; try done; cbn [handle_playback] in Hh; injection Hh as <-.
  - unfold onDecoded. rewrite Hl, lookup_empty. by split_and!.
  - unfold onEnded. rewrite Hl, lookup_empty. by split_and!.
  - unfold onEndedClosed. destruct (Playback.closedLanes p !! i) as [lane|] eqn:E; [|by split_and!].
    split; [exact Hl|]. split; [exact Hc|]. cbn. split.
    + intros x. rewrite list_elem_of_filter. intros [_ Hx]. by apply He.
    + intros n d Hn. rewrite list_elem_of_filter. intros [_ Hx]. apply (Hs n d); [|done].
      apply elem_of_sources in Hn as (l & Hin & Hsrc). apply elem_of_sources.
      unfold all_lanes in *. cbn in Hin. apply elem_of_app in Hin as [Hin|Hin].
      { exists l. split; [|done]. apply elem_of_app. by left. }
      apply list_elem_of_lookup in Hin as [j [(-> & <- & _)|(_ & Hj)]%list_lookup_insert_Some].
      * exists lane. split; [|done]. apply elem_of_app. right. by eapply list_elem_of_lookup_2.
      * exists l. split; [|done]. apply elem_of_app. right. by eapply list_elem_of_lookup_2.
Qed.

Lemma destroy_released x : alive x -> conn_inv (i_world (destroy_instance x)) /\ released (destroy_instance x).
Proof.
  intros [Hc Hinv]%alive_inv. unfold destroy_instance. cbn [i_world].
  assert (Hc' : conn_inv (close_ (i_world x))) by by apply user_close_inv.
  destruct (close_shape (i_world x)) as [Hcl Hcli]. split; [by apply set_client_inv|].
  unfold released. cbn [i_world i_audio i_listeners]. split; [exact Hcl|].
  split; [by apply (closed_not_open (close_ (i_world x)))|]. rewrite Hcli. cbn. split; [done|]. split.
  - apply Forall_app. split; [by apply inv_dead in Hinv|]. apply Forall_fmap, Forall_forall.
    intros l _. apply close_lane_dead.
  - split; [|done]. by apply destroy_lanes_silent.
Qed.

Lemma released_network x w gp sp :
  conn_inv (i_world x) -> released x -> RelayClient.step (relay_events webcodecs gp sp) (i_world x) w ->
  conn_inv w /\ released (with_world w x).
Proof.
  intros Hc (Hcl & _ & Hrest) Hs.
  assert (Hw : conn_inv w) by (eapply (client_step_inv (relay_events webcodecs gp sp)); [apply relay_quiet|exact Hc|exact Hs]).
  destruct (closed_step _ _ _ Hc Hcl Hs) as (Hcl' & _ & Hd).
  assert (Heq : client w = client (i_world x)).
  { clear -Hd. induction Hd as [|s1 s2 s3 [clean Hs] _ IH]; [done|]. rewrite IH, Hs. done. }
  split; [done|]. unfold released, with_world. cbn [i_world i_audio i_listeners]. rewrite Heq.
  split; [done|]. split; [by apply closed_not_open|done].
Qed.

Lemma mount_inv d now p : page_inv p -> page_inv (mount d now p).
Proof.
  intros [Hi Hp Ha]. unfold mount. destruct (detectChannel _ _ _) as [loc|]; [|done].
  constructor; [exact Hi| |exact Ha]. cbn. apply Forall_app. split; [exact Hp|]. by constructor.
Qed.

Lemma unmount_inv p : page_inv p -> page_inv (unmount p) /\ active (unmount p) = None.
Proof.
  intros Hpi. pose proof Hpi as [Hi Hp Ha]. unfold unmount. destruct (active p) as [n|] eqn:En; [|done].
  destruct (Ha n eq_refl) as (x & Hx & Hpanel). rewrite Hx. split; [|done].
  constructor; cbn; [|exact Hp|done].
  apply Forall_insert; [exact Hi|]. unfold instance_inv. cbn [destroy_instance i_panel].
  apply destroy_released. rewrite Forall_lookup in Hi. specialize (Hi n x Hx). unfold instance_inv in Hi.
  by rewrite Hpanel in Hi.
Qed.

Lemma pending_delete i p : page_inv p -> page_inv (with_pending (delete i (pending p)) p).
Proof. intros [Hi Hp Ha]. constructor; [exact Hi|by apply Forall_delete|exact Ha]. Qed.

Lemma resume_player_inv i loc hooks p : page_inv p -> page_inv (resume_player i loc hooks p).
Proof.
  intros Hinv. pose proof Hinv as [Hi Hp Ha]. unfold resume_player.
  destruct hooks as [hooks|]; [|by apply pending_delete].
  destruct (decide (video hooks ∈ captured p)) as [Hc|Hc].
  - rewrite buildGraph_captured by done. by apply pending_delete.
  - destruct (buildGraph_fresh _ _ Hc) as (g & Hb & _). rewrite Hb.
    constructor; [exact Hi| |exact Ha]. cbn. apply Forall_insert; [exact Hp|]. cbn. eauto.
Qed.

Lemma resume_prefs_inv i loc v g gp sp audio p :
  page_inv p -> pending p !! i = Some (AwaitPrefs loc v g) -> prefs_fine gp -> prefs_fine sp ->
  page_inv (resume_prefs i loc v g gp sp audio p).
Proof.
  intros Hinv Hpi Hgp Hsp. pose proof Hinv as [Hi Hp Ha]. unfold resume_prefs.
  rewrite Forall_lookup in Hp. destruct (Hp i _ Hpi) as (cap & cap' & Hb). destruct (new_deck_ok _ _ _ _ Hb) as [Hok He].
  destruct (mounted_inv webcodecs (new_deck g) Hok He) as (c & Hm & _). rewrite Hm.
  constructor; cbn.
  - apply Forall_app. split; [exact Hi|]. constructor; [|constructor]. unfold instance_inv. cbn [i_panel].
    split; [|by split_and!]. exists cap, cap', g. split; [exact Hb|]. exists c. by split.
  - apply Forall_delete. by apply Forall_lookup.
  - intros n [= <-]. eexists. split; [by apply list_lookup_middle|done].
Qed.

Lemma with_instance_inv n x y p :
  page_inv p -> instances p !! n = Some x -> i_panel y = i_panel x -> instance_inv y ->
  page_inv (with_instance n y p).
Proof.
  intros [Hi Hp Ha] Hx Hpan Hy. constructor; cbn; [by apply Forall_insert|exact Hp|].
  intros m Hm. destruct (Ha m Hm) as (z & Hz & Hzp). destruct (decide (m = n)) as [->|Hne].
  - exists y. rewrite list_lookup_insert_eq by by eapply lookup_lt_Some. split; [done|].
    rewrite Hx in Hz. injection Hz as <-. congruence.
  - exists z. by rewrite list_lookup_insert_ne.
Qed.

Lemma page_step_inv may_navigate p p' : page_inv p -> page_step may_navigate p p' -> page_inv p'.
Proof.
  intros Hinv Hs. destruct Hs as [p href d now _|p ev|p i loc hooks _|p i loc v g gp sp audio Hi Hgp Hsp
    |p n x w Hx Hpan Hw|p n x w Hx Hpan Hw|p n x g Hx Hpan Hg|p n x Hx Hl].
  - unfold on_page_mutation. case_bool_decide; [done|]. apply mount_inv, unmount_inv. by destruct Hinv.
  - destruct Hinv as [Hi Hp Ha]. constructor; [exact Hi| |exact Ha]. cbn. apply Forall_fmap.
    eapply Forall_impl; [exact Hp|]. by intros [] Hm.
  - by apply resume_player_inv.
  - by apply resume_prefs_inv.
  - apply (with_instance_inv n x); [done|done|done|]. pose proof (inv_instances _ Hinv) as Hall.
    rewrite Forall_lookup in Hall. specialize (Hall n x Hx). unfold instance_inv in *.
    cbn [with_world i_panel]. rewrite Hpan in *. destruct Hall as ((cap & cap' & g & Hb & c0 & Hm & Hr) & Hrest).
    split; [|exact Hrest]. exists cap, cap', g. split; [exact Hb|]. exists c0. split; [exact Hm|]. by eapply rtc_r.
  - apply (with_instance_inv n x); [done|done|done|]. pose proof (inv_instances _ Hinv) as Hall.
    rewrite Forall_lookup in Hall. specialize (Hall n x Hx). unfold instance_inv in *.
    cbn [with_world i_panel]. rewrite Hpan in *. destruct Hall as [Hc Hr].
    by apply (released_network x w (i_global x) (i_streamer x)).
  - apply (with_instance_inv n x); [done|done|done|]. pose proof (inv_instances _ Hinv) as Hall.
    rewrite Forall_lookup in Hall. specialize (Hall n x Hx). unfold instance_inv in *.
    cbn [with_world i_panel i_world]. rewrite Hpan in *. destruct Hall as [Hc (R1 & R2 & R3 & R4 & R5 & R6)].
    split; [by apply set_client_inv|]. split_and!; try done; [by eapply silent_audio|apply R6|apply R6].
  - apply (with_instance_inv n x); [done|done|by unfold resumeAudio; destruct (i_audio x)|].
    pose proof (inv_instances _ Hinv) as Hall. rewrite Forall_lookup in Hall. specialize (Hall n x Hx).
    unfold instance_inv, resumeAudio in *. destruct (i_audio x) eqn:E; [|done|done]. cbn [with_audio i_panel].
    destruct (i_panel x); [exact Hall|]. destruct Hall as (_ & _ & _ & _ & _ & _ & Ha & _). congruence.
Qed.

Lemma page_reachable_inv may_navigate p : page_reachable may_navigate p -> page_inv p.
Proof.
  intros (href & d & now & Hr). revert Hr. apply (rtc_ind_r page_inv).
  - apply mount_inv. by constructor.
  - intros y z _ Hs Hy. by eapply page_step_inv.
Qed.

(** What a session does, its page does. *)
Lemma page_sessions may_navigate p n x w :
  instances p !! n = Some x -> i_panel x = true ->
  rtc (session_step webcodecs (channelID (i_location x)) (i_global x) (i_streamer x)) (i_world x) w ->
  rtc (page_step may_navigate) p (with_instance n (with_world w x) p).
Proof.
  intros Hx Hp. apply (rtc_ind_r (fun w => rtc (page_step may_navigate) p (with_instance n (with_world w x) p))).
  - assert (Hsame : with_instance n (with_world (i_world x) x) p = p); [|by rewrite Hsame].
    unfold with_instance. rewrite list_insert_id; [by destruct p|]. rewrite Hx. by destruct x.
  - intros w1 w2 _ Hs IH. eapply rtc_r; [exact IH|].
    assert (Hstep : page_step may_navigate (with_instance n (with_world w1 x) p)
              (with_instance n (with_world w2 (with_world w1 x)) (with_instance n (with_world w1 x) p))).
    { apply page_session; [|done|done]. cbn. by rewrite list_lookup_insert_eq by by eapply lookup_lt_Some. }
    unfold with_instance in *. cbn in *. by rewrite list_insert_insert_eq in Hstep.
Qed.

(** *** Elements stay captured *)

Definition videos_captured (p : Page) : Prop :=
  Forall (fun x => i_video x ∈ captured p) (instances p)
  /\ Forall (fun m => match m with AwaitPrefs _ v _ => v ∈ captured p | AwaitPlayer _ _ => True end) (pending p).

Lemma mount_same d now p :
  instances (mount d now p) = instances p /\ captured (mount d now p) = captured p
  /\ active (mount d now p) = active p /\ lastHref (mount d now p) = lastHref p
  /\ (pending (mount d now p) = pending p
      \/ exists loc w, detectChannel parse_url toLowerCase (lastHref p) = Some loc
                      /\ pending (mount d now p) = pending p ++ [AwaitPlayer loc w]).
Proof. unfold mount. destruct (detectChannel _ _ _) as [loc|]; split_and!; eauto 6. Qed.

Lemma unmount_same p :
  captured (unmount p) = captured p /\ pending (unmount p) = pending p /\ lastHref (unmount p) = lastHref p
  /\ forall n, instances (unmount p) !! n
               = (if decide (active p = Some n) then destroy_instance else id) <$> instances p !! n.
Proof.
  unfold unmount. destruct (active p) as [a|] eqn:Ea; [destruct (instances p !! a) as [x|] eqn:Ex|]; cbn; split_and!; try done.
  - intros n. destruct (decide (Some a = Some n)) as [[= ->]|Hne].
    + by rewrite list_lookup_insert_eq, Ex by by eapply lookup_lt_Some.
    + rewrite list_lookup_insert_ne by congruence. by destruct (instances p !! n).
  - intros n. destruct (decide (Some a = Some n)) as [[= ->]|Hne]; [by rewrite Ex|by destruct (instances p !! n)].
  - intros n. by destruct (instances p !! n).
Qed.

(** The same mount: what it was given never changes. *)
Definition same_mount (x' x : Instance) : Prop :=
  i_location x' = i_location x /\ i_video x' = i_video x
  /\ i_global x' = i_global x /\ i_streamer x' = i_streamer x.

Lemma same_mount_refl x : same_mount x x.
Proof. by split_and!. Qed.

Lemma same_mount_trans x y z : same_mount x y -> same_mount y z -> same_mount x z.
Proof. unfold same_mount. intros (? & ? & ? & ?) (? & ? & ? & ?). split_and!; congruence. Qed.

Lemma resume_same_mount x : same_mount (resumeAudio x) x /\ i_panel (resumeAudio x) = i_panel x.
Proof. unfold resumeAudio. by destruct (i_audio x). Qed.

(** Instances are destroyed, never removed or replaced by another mount's. *)
Lemma page_step_instance may_navigate p p' n x :
  page_step may_navigate p p' -> instances p !! n = Some x ->
  exists x', instances p' !! n = Some x' /\ same_mount x' x
    /\ (i_panel x' = true -> i_panel x = true)
    /\ (active p <> Some n -> i_panel x' = i_panel x /\ active p' <> Some n).
Proof.
  intros Hs Hx. pose proof (lookup_lt_Some _ _ _ Hx) as Hlt.
  assert (Hset : forall m y z, instances p !! m = Some y -> same_mount z y ->
            i_panel z = i_panel y -> exists x', instances (with_instance m z p) !! n = Some x'
              /\ same_mount x' x /\ (i_panel x' = true -> i_panel x = true)
              /\ (active p <> Some n -> i_panel x' = i_panel x /\ active (with_instance m z p) <> Some n)).
  { intros m y z Hm H1 H3. cbn. destruct (decide (n = m)) as [->|Hne].
    - exists z. rewrite list_lookup_insert_eq by done. rewrite Hx in Hm. injection Hm as <-. by rewrite H3.
    - exists x. rewrite list_lookup_insert_ne by done. by pose proof (same_mount_refl x). }
  pose proof (same_mount_refl x) as Hsame.
  destruct Hs as [p href d now _|p ev|p i loc hooks _|p i loc v g gp sp audio _ _ _|p m y w Hy _ _|p m y w Hy _ _|p m y g Hy _ _|p m y Hy _].
  - unfold on_page_mutation. case_bool_decide; [by exists x|].
    set (p0 := mkPage _ _ _ _ href). destruct (mount_same d now (unmount p0)) as (-> & _ & -> & _).
    destruct (unmount_same p0) as (_ & _ & _ & Hn). rewrite Hn. cbn [active instances p0]. rewrite Hx. cbn.
    eexists. split; [done|]. destruct (decide (active p = Some n)) as [Ha|Ha]; [by split|].
    split; [done|]. split; [done|]. intros _. split; [done|]. unfold unmount. cbn. by repeat case_match.
  - by exists x.
  - exists x. unfold resume_player. destruct hooks as [hooks|]; [|done].
    by destruct (buildGraph _ _) as [[cap g]|].
  - exists x. unfold resume_prefs. destruct (mounted (new_deck g)) as [c|]; [|done]. cbn.
    rewrite lookup_app_l by done. split; [done|]. split; [done|]. split; [done|].
    intros _. split; [done|]. intros [= <-]. lia.
  - by apply (Hset m y).
  - by apply (Hset m y).
  - by apply (Hset m y).
  - by apply (Hset m y); [|apply resume_same_mount..].
Qed.

Lemma page_steps_instance may_navigate p p' n x :
  rtc (page_step may_navigate) p p' -> instances p !! n = Some x ->
  exists x', instances p' !! n = Some x' /\ same_mount x' x
    /\ (active p <> Some n -> i_panel x' = i_panel x /\ active p' <> Some n).
Proof.
  intros Hr. revert x. induction Hr as [p|p p1 p' Hs _ IH]; intros x Hx.
  { exists x. by pose proof (same_mount_refl x). }
  destruct (page_step_instance _ _ _ _ _ Hs Hx) as (x1 & H1 & H2 & _ & H4).
  destruct (IH x1 H1) as (x' & H5 & H6 & H8). exists x'. split; [done|].
  split; [by eapply same_mount_trans|].
  intros Ha. destruct (H4 Ha) as [H9 H10]. destruct (H8 H10) as [H11 H12]. split; [congruence|done].
Qed.

(** A new instance is a mount that has just finished. *)
Lemma page_step_new may_navigate p p' n x' :
  page_inv p -> page_step may_navigate p p' -> instances p !! n = None -> instances p' !! n = Some x' ->
  exists captured captured' g c, buildGraph captured (i_video x') = Ok (captured', g)
    /\ mounted (new_deck g) = Ok c /\ i_world x' = RelayClient.connect c.
Proof.
  intros Hinv Hs Hn Hx'.
  assert (Hset : forall m y z, instances p !! m = Some y -> instances (with_instance m z p) !! n = None).
  { intros m y z Hy. cbn. rewrite list_lookup_insert_ne; [done|]. intros ->. congruence. }
  destruct Hs as [p href d now _|p ev|p i loc hooks _|p i loc v g gp sp audio Hl _ _|p m y w Hy _ _|p m y w Hy _ _|p m y g Hy _ _|p m y Hy _];
    try (by erewrite Hset in Hx'); try (cbn in Hx'; congruence).
  - unfold on_page_mutation in Hx'. case_bool_decide; [congruence|]. revert Hx'. set (p0 := mkPage _ _ _ _ href).
    destruct (mount_same d now (unmount p0)) as (-> & _). destruct (unmount_same p0) as (_ & _ & _ & ->).
    cbn. by rewrite Hn.
  - unfold resume_player in Hx'. destruct hooks as [hooks|]; [|cbn in Hx'; congruence].
    destruct (buildGraph _ _) as [[cap g]|]; cbn in Hx'; congruence.
  - pose proof (inv_pending _ Hinv) as Hp. rewrite Forall_lookup in Hp. destruct (Hp i _ Hl) as (cap & cap' & Hb).
    unfold resume_prefs in Hx'. destruct (mounted (new_deck g)) as [c|] eqn:Hm; [|cbn in Hx'; congruence].
    cbn in Hx'. apply lookup_app_Some in Hx' as [Hx'|[_ Hx']]; [congruence|].
    apply list_lookup_singleton_Some in Hx' as [_ <-]. by exists cap, cap', g, c.
Qed.

Lemma captured_step may_navigate p p' :
  page_step may_navigate p p' -> videos_captured p -> captured p ⊆ captured p' /\ videos_captured p'.
Proof.
  intros Hs [Hi Hp].
  assert (Hset : forall m y z, instances p !! m = Some y -> i_video z = i_video y -> videos_captured (with_instance m z p)).
  { intros m y z Hy Hv. split; [|exact Hp]. cbn. apply Forall_insert; [exact Hi|]. rewrite Hv.
    rewrite Forall_lookup in Hi. by apply (Hi m). }
  assert (Hdel : forall i, videos_captured (with_pending (delete i (pending p)) p))
    by (intros i; split; [exact Hi|by apply Forall_delete]).
  destruct Hs as [p href d now _|p ev|p i loc hooks _|p i loc v g gp sp audio Hl _ _|p m y w Hy _ _|p m y w Hy _ _|p m y g Hy _ _|p m y Hy _].
  - unfold on_page_mutation. case_bool_decide; [done|].
    set (p0 := mkPage _ _ _ _ href). destruct (mount_same d now (unmount p0)) as (Hm1 & Hm2 & _ & _ & Hm3).
    destruct (unmount_same p0) as (Hu1 & Hu2 & _ & Hu3). unfold videos_captured. rewrite Hm1, Hm2, Hu1. cbn [captured p0].
    split; [done|]. split.
    + apply Forall_lookup. intros n z Hz. rewrite Hu3 in Hz. apply fmap_Some in Hz as (x & Hx & ->).
      rewrite Forall_lookup in Hi. specialize (Hi n x Hx). by destruct (decide _).
    + rewrite Hu2 in Hm3. destruct Hm3 as [-> | (loc & w & _ & ->)]; [exact Hp|].
      apply Forall_app. split; [exact Hp|]. by constructor.
  - split; [done|]. split; [exact Hi|]. cbn. apply Forall_fmap. eapply Forall_impl; [exact Hp|]. by intros [].
  - unfold resume_player. destruct hooks as [hooks|]; [|done].
    destruct (decide (video hooks ∈ captured p)) as [Hc|Hc]; [by rewrite buildGraph_captured|].
    destruct (buildGraph_fresh _ _ Hc) as (g & -> & _). cbn. split; [set_solver|]. split; cbn.
    + eapply Forall_impl; [exact Hi|]. set_solver.
    + apply Forall_insert; [|set_solver]. eapply Forall_impl; [exact Hp|]. intros []; [done|]. set_solver.
  - unfold resume_prefs. destruct (mounted (new_deck g)) as [c|]; [|done]. cbn. split; [done|]. split; cbn.
    + apply Forall_app. split; [exact Hi|]. constructor; [|constructor]. rewrite Forall_lookup in Hp. apply (Hp i _ Hl).
    + by apply Forall_delete.
  - split; [done|]. by apply (Hset m y).
  - split; [done|]. by apply (Hset m y).
  - split; [done|]. by apply (Hset m y).
  - split; [done|]. apply (Hset m y); [done|]. unfold resumeAudio. by destruct (i_audio y).
Qed.

Lemma captured_steps may_navigate p p' :
  rtc (page_step may_navigate) p p' -> videos_captured p -> captured p ⊆ captured p' /\ videos_captured p'.
Proof.
  induction 1 as [p|p p1 p' Hs _ IH]; intros Hv; [done|].
  destruct (captured_step _ _ _ Hs Hv) as [Hsub Hv1]. destruct (IH Hv1) as [Hsub' Hv']. split; [set_solver|done].
Qed.

Lemma start_captured href d now : videos_captured (start href d now).
Proof.
  unfold start. set (p0 := mkPage _ _ _ _ _). destruct (mount_same d now p0) as (H1 & H2 & _ & _ & H3).
  unfold videos_captured. rewrite H1, H2. split; [constructor|].
  destruct H3 as [-> | (loc & w & _ & ->)]; by repeat constructor.
Qed.

(** *** Undisturbed pages *)

(** Navigation only while no mount is waiting. *)
Definition calm (p : Page) : Prop := pending p = [].

Definition pending_loc (m : Pending) : ChannelLocation :=
  match m with AwaitPlayer loc _ => loc | AwaitPrefs loc _ _ => loc end.

Definition on_page (p : Page) (loc : ChannelLocation) : Prop :=
  detectChannel parse_url toLowerCase (lastHref p) = Some loc.

Record calm_inv (p : Page) : Prop := {
  calm_pending : (length (pending p) <= 1)%nat;
  calm_locs : Forall (fun m => on_page p (pending_loc m)) (pending p);
  calm_live : forall n x, instances p !! n = Some x -> i_panel x = true ->
                active p = Some n /\ pending p = [] /\ on_page p (i_location x);
}.

Lemma calm_with_instance m y z p :
  calm_inv p -> instances p !! m = Some y -> i_panel z = i_panel y -> i_location z = i_location y ->
  calm_inv (with_instance m z p).
Proof.
  intros [H1 H2 H3] Hy Hp Hl. constructor; [exact H1|exact H2|]. cbn. intros n x Hx Hpx.
  destruct (decide (n = m)) as [->|Hne].
  - rewrite list_lookup_insert_eq in Hx by by eapply lookup_lt_Some. injection Hx as <-.
    destruct (H3 m y Hy ltac:(congruence)) as (? & ? & ?). unfold on_page in *. rewrite Hl. by split_and!.
  - rewrite list_lookup_insert_ne in Hx by done. by apply H3.
Qed.

Lemma calm_delete i m p :
  calm_inv p -> pending p !! i = Some m -> calm_inv (with_pending (delete i (pending p)) p).
Proof.
  intros [H1 H2 H3] Hm. assert (Hd : delete i (pending p) = []).
  { apply length_zero_iff_nil. rewrite length_delete by by eexists. apply lookup_lt_Some in Hm. lia. }
  rewrite Hd. constructor; [cbn; lia|constructor|]. intros n x Hx Hp. destruct (H3 n x Hx Hp) as (_ & Hn & _).
  by rewrite Hn in Hm.
Qed.

Lemma calm_mount d now p :
  pending p = [] -> (forall n x, instances p !! n = Some x -> i_panel x = false) -> calm_inv (mount d now p).
Proof.
  intros Hp Hx. destruct (mount_same d now p) as (H1 & _ & _ & H4 & H5). rewrite Hp in H5.
  assert (Hnone : forall n x, instances (mount d now p) !! n = Some x -> i_panel x = false) by by rewrite H1.
  destruct H5 as [H5|(loc & w & Hl & H5)]; constructor; rewrite ?H5; cbn; try lia.
  - constructor.
  - intros n x Hn Ht. apply Hnone in Hn. congruence.
  - constructor; [|constructor]. unfold on_page. by rewrite H4.
  - intros n x Hn Ht. apply Hnone in Hn. congruence.
Qed.

Lemma calm_step p p' : page_inv p -> page_step calm p p' -> calm_inv p -> calm_inv p'.
Proof.
  intros Hpi Hs Hinv. pose proof Hinv as [H1 H2 H3].
  destruct Hs as [p href d now Hcalm|p ev|p i loc hooks Hl|p i loc v g gp sp audio Hl _ _
    |p m y w Hy _ _|p m y w Hy _ _|p m y g Hy _ _|p m y Hy _].
  - unfold on_page_mutation. case_bool_decide; [done|]. set (p0 := mkPage _ _ _ _ href).
    destruct (unmount_same p0) as (_ & Hu2 & _ & Hu). apply calm_mount; [by rewrite Hu2|].
    intros n z. rewrite Hu. cbn [instances active p0]. intros (x & Hx & ->)%fmap_Some.
    destruct (decide (active p = Some n)) as [Ha|Ha]; [done|]. cbn. destruct (i_panel x) eqn:Ep; [|done].
    destruct (H3 n x Hx Ep) as [Hc _]. congruence.
  - constructor; cbn; [by rewrite length_fmap| |].
    + apply Forall_fmap. eapply Forall_impl; [exact H2|]. by intros [].
    + intros n x Hx Hp. destruct (H3 n x Hx Hp) as (Ha & -> & Hl). by split_and!.
  - unfold resume_player. destruct hooks as [hooks|]; [|by eapply calm_delete].
    destruct (buildGraph _ _) as [[cap g]|]; [|by eapply calm_delete].
    constructor; cbn; [by rewrite length_insert| |].
    + apply Forall_insert; [exact H2|]. rewrite Forall_lookup in H2. by apply (H2 i _ Hl).
    + intros n x Hx Hp. destruct (H3 n x Hx Hp) as (_ & Hn & _). by rewrite Hn in Hl.
  - unfold resume_prefs. destruct (mounted (new_deck g)) as [c|]; [|by eapply calm_delete].
    destruct (calm_delete i _ p Hinv Hl) as [D1 D2 _]. cbn in D1, D2.
    assert (Hd : delete i (pending p) = []).
    { apply length_zero_iff_nil. rewrite length_delete by by eexists. apply lookup_lt_Some in Hl. lia. }
    constructor; cbn; [exact D1|exact D2|]. intros n x Hx Hp.
    apply lookup_app_Some in Hx as [Hx|[Hlen Hx]].
    + destruct (H3 n x Hx Hp) as (_ & Hn & _). by rewrite Hn in Hl.
    + apply list_lookup_singleton_Some in Hx as [Hn <-]. cbn. split; [f_equal; lia|]. split; [exact Hd|].
      rewrite Forall_lookup in H2. by apply (H2 i _ Hl).
  - by apply (calm_with_instance m y).
  - by apply (calm_with_instance m y).
  - by apply (calm_with_instance m y).
  - apply (calm_with_instance m y); [done|done|..]; unfold resumeAudio; by destruct (i_audio y).
Qed.

Lemma calm_reachable p : page_reachable calm p -> calm_inv p.
Proof.
  intros (href & d & now & Hr).
  assert (Hboth : page_inv p /\ calm_inv p); [|by destruct Hboth].
  revert Hr. apply (rtc_ind_r (fun p => page_inv p /\ calm_inv p)).
  - split; [apply mount_inv; by constructor|]. by apply calm_mount.
  - intros y z _ Hs [Hy Hc]. split; [by eapply page_step_inv|by eapply calm_step].
Qed.
End Page.

(** ** A concrete page for the witnesses *)

Definition href_a : jstr := js "https://www.twitch.tv/alice".
Definition href_b : jstr := js "https://www.twitch.tv/bob".
Definition no_player : Document := fun _ => None.
Definition player (v : Z) : Document := fun sel => Some (if bool_decide (sel = sel_video TWITCH_SELECTORS) then v else 0).

Abbreviation step_any := (page_step simple_url lower_ascii true (fun _ => True)).
Abbreviation step_calm := (page_step simple_url lower_ascii true (calm)).

(** The player of a channel was there, and its mount finished. *)
Definition alice : Page :=
  let p := start simple_url lower_ascii href_a (player 1) 0 in
  let p := resume_player 0 (mkLocation twitch (js "alice") (js "twitch:alice")) (Some (mkHooks 1 0)) p in
  resume_prefs 0 (mkLocation twitch (js "alice") (js "twitch:alice")) 1 first_graph ∅ ∅ suspended p.

(** The viewer moves on while the preferences of the first channel are being
    read; both mounts finish. *)
Definition overlapped : Page :=
  let p := start simple_url lower_ascii href_a (player 1) 0 in
  let p := resume_player 0 (mkLocation twitch (js "alice") (js "twitch:alice")) (Some (mkHooks 1 0)) p in
  let p := on_page_mutation simple_url lower_ascii href_b (player 2) 1 p in
  let p := resume_prefs 0 (mkLocation twitch (js "alice") (js "twitch:alice")) 1 first_graph ∅ ∅ running p in
  let p := resume_player 0 (mkLocation twitch (js "bob") (js "twitch:bob")) (Some (mkHooks 2 0)) p in
  match pending p with
  | AwaitPrefs loc v g :: _ => resume_prefs 0 loc v g ∅ ∅ running p
  | _ => p
  end.

Lemma first_graph_built : buildGraph ∅ 1 = Ok ({[1]} ∪ ∅, first_graph).
Proof. by vm_compute. Qed.

Lemma alice_steps : page_reachable simple_url lower_ascii true calm alice.
Proof.
  exists href_a, (player 1), 0. unfold alice.
  set (p0 := start simple_url lower_ascii href_a (player 1) 0).
  eapply rtc_l; [apply (page_player _ _ _ _ p0 0); by vm_compute|].
  apply rtc_once. apply page_prefs; [by vm_compute|apply empty_fine|apply empty_fine].
Qed.

Lemma overlapped_steps :
  page_reachable simple_url lower_ascii true (fun _ => True) overlapped
  /\ exists x, instances overlapped !! 0%nat = Some x /\ i_panel x = true
               /\ active overlapped = Some 1%nat /\ i_location x = mkLocation twitch (js "alice") (js "twitch:alice").
Proof.
  split.
  - exists href_a, (player 1), 0. unfold overlapped.
    set (p0 := start simple_url lower_ascii href_a (player 1) 0).
    set (p1 := resume_player 0 _ _ p0).
    set (p2 := on_page_mutation simple_url lower_ascii href_b (player 2) 1 p1).
    set (p3 := resume_prefs 0 _ 1 first_graph ∅ ∅ running p2).
    set (p4 := resume_player 0 _ _ p3).
    apply (rtc_l _ p0 p1); [apply page_player; by vm_compute|].
    apply (rtc_l _ p1 p2); [by apply page_navigate|].
    apply (rtc_l _ p2 p3); [apply page_prefs; [by vm_compute|apply empty_fine|apply empty_fine]|].
    apply (rtc_l _ p3 p4); [apply page_player; by vm_compute|].
    destruct (pending p4) as [|[|loc v g] rest] eqn:E; [apply rtc_refl|apply rtc_refl|].
    apply rtc_once. apply page_prefs; [by rewrite E|apply empty_fine|apply empty_fine].
  - assert (Hc : match instances overlapped !! 0%nat with
                 | Some x => bool_decide (i_panel x = true /\ active overlapped = Some 1%nat
                     /\ platform (i_location x) = twitch /\ channelName (i_location x) = js "alice"
                     /\ channelID (i_location x) = js "twitch:alice")
                 | None => false end = true) by by vm_compute.
    destruct (instances overlapped !! 0%nat) as [x|]; [|done]. apply bool_decide_eq_true in Hc as (H1 & H2 & H3 & H4 & H5).
    exists x. split; [reflexivity|]. split; [exact H1|]. split; [exact H2|].
    destruct (i_location x) as [pl nm id]. cbn in H3, H4, H5. by rewrite H3, H4, H5.
Qed.

(** ** Properties *)

Section Properties.
Context (parse_url : jstr -> option (jstr * jstr)) (toLowerCase : jstr -> jstr) (webcodecs : bool).

(** C11: one mixer at a time.  On a page where the viewer never navigates while
    a mount is waiting, at most one mount is waiting and at most one instance
    is alive, never both; the one alive is the active one and belongs to the
    channel of the current URL. *)
Theorem one_mixer (p : Page) :
  page_reachable parse_url toLowerCase webcodecs calm p ->
  (length (pending p) <= 1)%nat
  /\ forall n x, instances p !! n = Some x -> i_panel x = true ->
       active p = Some n /\ pending p = []
       /\ detectChannel parse_url toLowerCase (lastHref p) = Some (i_location x).
Proof. intros Hr. destruct (calm_reachable parse_url toLowerCase webcodecs p Hr) as [H1 _ H3]. by split. Qed.

(** C4: what you see is what you hear, on the whole page.  However the page
    was navigated, every mixer whose panel is in the document is a session on a
    graph that was built for its player; and the sound of its context is, at
    every moment, the player's at the panel's broadcast gain, plus for every row
    of the panel the live buffers of its lane at the row's gain (0 when muted),
    minus the same buffers later by the panel's sync offset.  (The laws of the
    audio nodes are the hypothesis of the second part; [wave] is the sound of a
    decoded buffer.) *)
Theorem page_hears (may_navigate : Page -> Prop) (p : Page) (n : nat) (x : Instance) :
  page_reachable parse_url toLowerCase webcodecs may_navigate p -> instances p !! n = Some x ->
  i_panel x = true ->
  in_session webcodecs x
  /\ forall (wave : list (list num) -> Qc -> Qc) (element : Qc -> Qc) (out : nat -> Qc -> Qc) (t : Qc),
       let panel := panel (client (i_world x)) in
       let deck := graph (client (i_world x)) in
       web_audio element (plays wave deck) (ctx (mixer deck)) out ->
       out destination t
       = (panel_broadcast panel * element t
          + panel_sum panel (fun s => panel_gain panel s * track_sound wave deck s t
                                      - track_sound wave deck s (t - panel_offset panel)))%Qc.
Proof.
  intros Hr Hx Hp. pose proof (inv_instances _ _ (page_reachable_inv _ _ _ _ _ Hr)) as Hi.
  rewrite Forall_lookup in Hi. specialize (Hi n x Hx). unfold instance_inv in Hi. rewrite Hp in Hi.
  split; [apply Hi|]. intros wave element out t panel deck. apply (viewer_sound webcodecs).
  by apply alive_inv.
Qed.

(** C20: leaving a channel releases everything.  In every reachable page, however
    it was navigated, an instance that was destroyed stays released: its relay
    client is closed with no socket open, its lanes and their decoders are
    closed, its context is closed with the player and every source it ever
    started disconnected, its listeners are gone.  Navigation to another URL does
    this to the active instance. *)
Theorem unmount_releases (may_navigate : Page -> Prop) (p : Page) (n : nat) (x : Instance) :
  page_reachable parse_url toLowerCase webcodecs may_navigate p -> instances p !! n = Some x ->
  (i_panel x = false -> released x)
  /\ forall href d now, href <> lastHref p -> active p = Some n ->
       exists y, instances (on_page_mutation parse_url toLowerCase href d now p) !! n = Some y
         /\ i_location y = i_location x /\ i_panel y = false /\ released y.
Proof.
  intros Hr Hx. pose proof (page_reachable_inv _ _ _ _ _ Hr) as Hinv.
  assert (Hrel : forall q m y, page_inv webcodecs q -> instances q !! m = Some y -> i_panel y = false -> released y).
  { intros q m y [Hi _ _] Hy Hp. rewrite Forall_lookup in Hi. specialize (Hi m y Hy). unfold instance_inv in Hi.
    rewrite Hp in Hi. apply Hi. }
  split; [by eapply Hrel|]. intros href d now Hne Ha.
  assert (Hinv' : page_inv webcodecs (on_page_mutation parse_url toLowerCase href d now p)).
  { eapply (page_step_inv _ _ _ (fun _ => True)); [exact Hinv|by apply page_navigate]. }
  assert (Hy : instances (on_page_mutation parse_url toLowerCase href d now p) !! n = Some (destroy_instance x)).
  { unfold on_page_mutation. rewrite bool_decide_false by done.
    destruct (mount_same parse_url toLowerCase d now (unmount (mkPage (active p) (instances p) (pending p) (captured p) href)))
      as (-> & _).
    destruct (unmount_same (mkPage (active p) (instances p) (pending p) (captured p) href)) as (_ & _ & _ & ->).
    cbn. by rewrite decide_True, Hx. }
  exists (destroy_instance x). split_and!; try done. by eapply Hrel.
Qed.

(** C35: a mount overtaken by navigation leaks.  An instance that is alive but
    not active stays alive on every continuation of the page: nothing destroys
    it any more, so its panel, its context and its relay client remain.  (The
    example shows such a page: navigation while the preferences are read.) *)
Theorem leak_is_permanent (may_navigate : Page -> Prop) (p p' : Page) (n : nat) (x : Instance) :
  instances p !! n = Some x -> i_panel x = true -> active p <> Some n ->
  rtc (page_step parse_url toLowerCase webcodecs may_navigate) p p' ->
  exists x', instances p' !! n = Some x' /\ i_location x' = i_location x /\ i_panel x' = true
             /\ active p' <> Some n.
Proof.
  intros Hx Hp Ha Hr. destruct (page_steps_instance _ _ _ _ _ _ _ _ Hr Hx) as (x' & H1 & H2 & H4).
  destruct (H4 Ha) as [H5 H6]. exists x'. rewrite H5. split_and!; [done|apply H2|done|done].
Qed.

(** C36: a player that is kept gets no second mixer.  Once a mount finished on a
    video element, every later mount that finds the same element ends without
    an instance: the element stays captured by the first context, even after
    that context was closed. *)
Theorem kept_player_no_mixer (may_navigate : Page -> Prop) (p p' : Page) (n i : nat) (x : Instance)
    (loc : ChannelLocation) (hooks : PlayerHooks) :
  page_reachable parse_url toLowerCase webcodecs may_navigate p -> instances p !! n = Some x ->
  rtc (page_step parse_url toLowerCase webcodecs may_navigate) p p' -> video hooks = i_video x ->
  resume_player i loc (Some hooks) p' = with_pending (delete i (pending p')) p'.
Proof.
  intros (href & d & now & Hr) Hx Hr' Hv.
  destruct (captured_steps _ _ _ _ _ _ Hr (start_captured _ _ href d now)) as [_ [Hi Hp]].
  destruct (captured_steps _ _ _ _ _ _ Hr' (conj Hi Hp)) as [Hsub _].
  rewrite Forall_lookup in Hi. pose proof (Hsub _ (Hi n x Hx)) as Hc. rewrite <- Hv in Hc.
  unfold resume_player. by rewrite buildGraph_captured.
Qed.
End Properties.

Lemma one_mixer_witness : active alice = Some 0%nat /\ pending alice = [].
Proof.
  destruct (one_mixer simple_url lower_ascii true alice alice_steps) as [_ Hl].
  destruct (instances alice !! 0%nat) as [x|] eqn:E; [|by vm_compute in E].
  destruct (Hl 0%nat x E) as (H1 & H2 & _); [|by split].
  assert (Hp : i_panel <$> instances alice !! 0%nat = Some true) by by vm_compute.
  rewrite E in Hp. by injection Hp.
Defined.

(** The mixer of the page plays the session of Viewer.v: the first row at its
    default gain, the second one muted. *)
Definition alice_mixer : Instance :=
  mkInstance (mkLocation twitch (js "alice") (js "twitch:alice")) 1 ∅ ∅ (RelayClient.connect demo_start)
    suspended true true.

Lemma alice_instance : instances alice !! 0%nat = Some alice_mixer.
Proof. by vm_compute. Qed.

Definition alice_playing : Page := with_instance 0 (with_world played_session alice_mixer) alice.

Lemma alice_playing_steps : page_reachable simple_url lower_ascii true calm alice_playing.
Proof.
  destruct alice_steps as (href & d & now & Hr). exists href, d, now. etransitivity; [exact Hr|].
  apply (page_sessions _ _ _ _ _ _ _ _ alice_instance eq_refl). apply played_session_steps.
Qed.

Lemma page_hears_witness :
  let first := val (jadd (of_Z 1) Scheduler.FRAME_DURATION) in
  let deck := graph (client played_session) in
  render 8 (fun t => t) (plays ramp deck) (ctx (mixer deck)) destination (qc 5)
  = (val (fround (of_dec false 2 (-1))) * qc 5
     + (val half * (qc 5 - first) - (qc 3 - first)) - qc 2 * (qc 3 - first))%Qc.
Proof.
  assert (Hx : instances alice_playing !! 0%nat = Some (with_world played_session alice_mixer)) by done.
  destruct (page_hears simple_url lower_ascii true calm alice_playing 0 _ alice_playing_steps Hx eq_refl)
    as ((cap & cap' & g & Hb & Hr) & Hsound).
  cbv zeta. rewrite (Hsound ramp (fun t => t) _ (qc 5)).
  - by apply Qc_is_canon; vm_compute.
  - apply playback_laws. destruct (new_deck_ok _ _ _ _ Hb) as [Hok He].
    destruct (session_inv true _ ∅ ∅ empty_fine empty_fine _ _ Hok He Hr) as [_ Hinv]. exact (inv_graph _ _ Hinv).
Defined.

Lemma unmount_releases_witness :
  exists y, instances (on_page_mutation simple_url lower_ascii href_b (player 1) 5 alice) !! 0%nat = Some y
            /\ released y.
Proof.
  destruct (instances alice !! 0%nat) as [x|] eqn:E; [|by vm_compute in E].
  destruct (unmount_releases simple_url lower_ascii true calm alice 0 x alice_steps E) as [_ Hnav].
  destruct (Hnav href_b (player 1) 5) as (y & H1 & _ & _ & H2).
  - assert (Hb : bool_decide (href_b = lastHref alice) = false) by by vm_compute.
    by apply bool_decide_eq_false in Hb.
  - by vm_compute.
  - exists y. split; [exact H1|exact H2].
Defined.

Lemma leak_is_permanent_witness :
  exists x', instances (on_page_mutation simple_url lower_ascii href_a (player 3) 9 overlapped) !! 0%nat = Some x'
             /\ i_location x' = mkLocation twitch (js "alice") (js "twitch:alice") /\ i_panel x' = true.
Proof.
  destruct overlapped_steps as (_ & x & Hx & Hp & Ha & Hl).
  destruct (leak_is_permanent simple_url lower_ascii true (fun _ => True) overlapped
    (on_page_mutation simple_url lower_ascii href_a (player 3) 9 overlapped) 0 x Hx Hp) as (x' & H1 & H2 & H3 & _).
  - rewrite Ha. discriminate.
  - apply rtc_once. by apply page_navigate.
  - exists x'. split; [exact H1|]. split; [exact (eq_trans H2 Hl)|exact H3].
Defined.

Lemma alice_calm : calm alice.
Proof. by vm_compute. Qed.

Lemma kept_player_no_mixer_witness :
  let p := on_page_mutation simple_url lower_ascii href_b (player 1) 5 alice in
  active (resume_player 0 (mkLocation twitch (js "bob") (js "twitch:bob")) (Some (mkHooks 1 0)) p) = None.
Proof.
  intros p. destruct (instances alice !! 0%nat) as [x|] eqn:E; [|by vm_compute in E].
  assert (Hv : i_video <$> instances alice !! 0%nat = Some 1) by by vm_compute.
  rewrite E in Hv. injection Hv as Hv.
  rewrite (kept_player_no_mixer simple_url lower_ascii true calm alice p 0 0 x
    (mkLocation twitch (js "bob") (js "twitch:bob")) (mkHooks 1 0) alice_steps E).
  - vm_compute. reflexivity.
  - apply rtc_once. apply page_navigate. exact alice_calm.
  - exact (eq_sym Hv).
Defined.
