(* ===== verification/Listening.v ===== *)
(** * The codec on the whole page

    Joins Hearing.v to the life of the page (Page.v): the page's steps, with the
    buffers of every mixer in the document coming from the codec.  A mixer that
    was destroyed decodes nothing; its sources may still end. *)
From Stdlib Require Import SpecFloat.
From stdpp Require Import relations.
From S2P Require Import Prelude JsString JsNumber JsOrder Messages RelayClient Prefs Platform.
From S2P Require Import WebAudio Graph Scheduler OpusLane Mixer Playback Content Session Viewer Hearing Page.
Open Scope Z_scope.

Section Listening.
Context (parse_url : jstr -> option (jstr * jstr)) (toLowerCase : jstr -> jstr).
Context (opus : list Chunk -> list AudioData).

(** What a mixer in the document does in a step of the page, if anything, is a
    step of Hearing.v. *)
Definition codec_driven (p p' : Page) : Prop :=
  forall n x x', instances p !! n = Some x -> instances p' !! n = Some x' -> i_panel x' = true ->
    i_world x' = i_world x
    \/ hearing_step opus (channelID (i_location x)) (i_global x) (i_streamer x) (i_world x) (i_world x').

Definition listening_step (may_navigate : Page -> Prop) (p p' : Page) : Prop :=
  page_step parse_url toLowerCase true may_navigate p p' /\ codec_driven p p'.

Definition listening_reachable (may_navigate : Page -> Prop) (p : Page) : Prop :=
  exists href d now, rtc (listening_step may_navigate) (start parse_url toLowerCase href d now) p.

(** ** Lemmas *)

(** The instance is a session of Hearing.v on a graph built for its player. *)
Definition in_hearing (x : Instance) : Prop :=
  exists captured captured' g, buildGraph captured (i_video x) = Ok (captured', g)
    /\ hearing_reachable opus (channelID (i_location x)) (i_global x) (i_streamer x) (new_deck g) (i_world x).

Definition all_hearing (p : Page) : Prop :=
  forall n x, instances p !! n = Some x -> i_panel x = true -> in_hearing x.

Lemma listening_page may_navigate p :
  listening_reachable may_navigate p -> page_reachable parse_url toLowerCase true may_navigate p.
Proof.
  intros (href & d & now & Hr). exists href, d, now. eapply rtc_subrel; [|exact Hr]. by intros x y [].
Qed.

Lemma listening_step_hearing may_navigate p p' :
  page_inv true p -> all_hearing p -> listening_step may_navigate p p' -> all_hearing p'.
Proof.
  intros Hinv Hall [Hs Hc] n x' Hx' Hp'. destruct (instances p !! n) as [x|] eqn:Hx.
  - destruct (page_step_instance _ _ _ _ _ _ _ _ Hs Hx) as (y & Hy & (S1 & S2 & S3 & S4) & Hpan & _).
    assert (y = x') as -> by congruence.
    destruct (Hall n x Hx (Hpan Hp')) as (cap & cap' & g & Hb & c0 & Hm & Hr).
    exists cap, cap', g. rewrite S1, S2, S3, S4. split; [exact Hb|]. exists c0. split; [exact Hm|].
    destruct (Hc n x x' Hx Hx' Hp') as [->|Hstep]; [exact Hr|]. by eapply rtc_r.
  - destruct (page_step_new _ _ _ _ _ _ _ _ Hinv Hs Hx Hx') as (cap & cap' & g & c & Hb & Hm & Hw).
    exists cap, cap', g. split; [exact Hb|]. exists c. split; [exact Hm|]. by rewrite Hw.
Qed.

Lemma start_empty href d now : instances (start parse_url toLowerCase href d now) = [].
Proof. unfold start, mount. cbn. by destruct (detectChannel _ _ _). Qed.

Lemma listening_hearing may_navigate p : listening_reachable may_navigate p -> all_hearing p.
Proof.
  intros (href & d & now & Hr).
  assert (Hboth : page_inv true p /\ all_hearing p); [|apply Hboth].
  revert Hr. apply (rtc_ind_r (fun p => page_inv true p /\ all_hearing p)).
  - split; [apply mount_inv; by constructor|]. intros n x. by rewrite start_empty.
  - intros y z _ Hs [Hy Ha]. split; [by eapply page_step_inv, Hs|by eapply listening_step_hearing].
Qed.

(** What a session of Hearing.v does, its page does. *)
Lemma page_hearings may_navigate p n x w :
  instances p !! n = Some x -> i_panel x = true ->
  rtc (hearing_step opus (channelID (i_location x)) (i_global x) (i_streamer x)) (i_world x) w ->
  rtc (listening_step may_navigate) p (with_instance n (with_world w x) p).
Proof.
  intros Hx Hp. pose proof (lookup_lt_Some _ _ _ Hx) as Hlt.
  apply (rtc_ind_r (fun w => rtc (listening_step may_navigate) p (with_instance n (with_world w x) p))).
  - assert (Hsame : with_instance n (with_world (i_world x) x) p = p); [|by rewrite Hsame].
    unfold with_instance. rewrite list_insert_id; [by destruct p|]. rewrite Hx. by destruct x.
  - intros w1 w2 _ Hs IH. eapply rtc_r; [exact IH|]. set (p1 := with_instance n (with_world w1 x) p).
    assert (H1 : instances p1 !! n = Some (with_world w1 x)) by (cbn; by rewrite list_lookup_insert_eq).
    assert (Heq : with_instance n (with_world w2 x) p = with_instance n (with_world w2 (with_world w1 x)) p1).
    { unfold with_instance, p1. cbn. by rewrite list_insert_insert_eq. }
    rewrite Heq. split.
    + apply page_session; [exact H1|exact Hp|]. by eapply hearing_session.
    + intros m y y' Hy Hy' _. cbn in Hy'. destruct (decide (m = n)) as [->|Hne].
      * rewrite H1 in Hy. injection Hy as <-. unfold p1 in Hy'. cbn in Hy'.
        rewrite list_lookup_insert_eq in Hy' by by rewrite length_insert. injection Hy' as <-. by right.
      * rewrite list_lookup_insert_ne in Hy' by done. left. unfold p1 in *. cbn in Hy, Hy'. congruence.
Qed.
End Listening.

(** ** Properties *)

(** C5: every packet once, in order, on the whole page.  However the page was
    navigated, whatever arrived on the wire and whatever the viewer did, what a
    track's scheduler has started in a mixer of the document are the first of
    the buffers decoded from the packets its decoder was given: none is
    repeated, skipped or moved, and no two overlap.  A buffer that comes is
    always started, a frame after now at the earliest.  (The codec puts out its
    data in order; clocks read 0 to 2^60 seconds.) *)
Theorem packets_played_in_order (parse_url : jstr -> option (jstr * jstr)) (toLowerCase : jstr -> jstr)
    (opus : list Chunk -> list AudioData) (may_navigate : Page -> Prop) (p : Page) (n : nat) (x : Instance)
    (t : TrackInfo) :
  (forall cs c, opus cs `prefix_of` opus (cs ++ [c])) ->
  listening_reachable parse_url toLowerCase opus may_navigate p ->
  instances p !! n = Some x -> i_panel x = true ->
  t ∈ tracks (client (i_world x)) -> plays_in_order opus (client (i_world x)) t.
Proof.
  intros Hopus Hr Hx Hp Ht.
  destruct (listening_hearing _ _ _ _ _ Hr n x Hx Hp) as (cap & cap' & g & Hb & Hreach).
  pose proof (inv_instances _ _ (page_reachable_inv _ _ _ _ _ (listening_page _ _ _ _ _ Hr))) as Hi.
  rewrite Forall_lookup in Hi. specialize (Hi n x Hx). unfold instance_inv in Hi. rewrite Hp in Hi.
  destruct Hi as (_ & _ & Hgp & Hsp).
  by apply (hearing_plays opus Hopus (channelID (i_location x)) (i_global x) (i_streamer x) cap cap' (i_video x) g).
Qed.

(** The page of Page.v, its mixer playing the session of Hearing.v. *)
Definition alice_listening : Page := with_instance 0 (with_world hearing_session_demo alice_mixer) alice.

Lemma alice_listening_steps : listening_reachable simple_url lower_ascii demo_opus calm alice_listening.
Proof.
  exists href_a, (player 1), 0.
  set (p0 := Page.start simple_url lower_ascii href_a (player 1) 0).
  set (loc := mkLocation twitch (js "alice") (js "twitch:alice")).
  set (p1 := resume_player 0 loc (Some (mkHooks 1 0)) p0).
  assert (E0 : instances p0 = []) by by vm_compute. assert (E1 : instances p1 = []) by by vm_compute.
  eapply (rtc_l _ p0 p1).
  { split; [apply page_player; by vm_compute|]. intros m y y'. rewrite E0. intros H. discriminate H. }
  apply (rtc_l _ p1 alice).
  { split; [apply page_prefs; [by vm_compute|apply empty_fine|apply empty_fine]|].
    intros m y y'. rewrite E1. intros H. discriminate H. }
  apply (page_hearings _ _ _ _ _ _ _ _ alice_instance eq_refl). apply hearing_demo_steps.
Qed.

Lemma packets_played_in_order_witness :
  exists lane sl, audioLanes (client hearing_session_demo) !! js "mic" = Some lane
    /\ lanes (graph (client hearing_session_demo)) !! js "mic" = Some sl
    /\ (st_buffer <$> started sl) `prefix_of` [[[of_Z 1]; [of_Z 1]]; [[of_Z 2]; [of_Z 2]]].
Proof.
  assert (Hx : instances alice_listening !! 0%nat = Some (with_world hearing_session_demo alice_mixer)) by done.
  destruct (packets_played_in_order simple_url lower_ascii demo_opus calm alice_listening 0 _
    (mkTrack 1 (js "mic") (js "mic") (js "Mic")) demo_opus_online alice_listening_steps Hx eq_refl)
    as (lane & sl & Hl & Hs & Hp & _).
  { by apply (bool_decide_unpack _); vm_compute. }
  exists lane, sl. split; [exact Hl|]. split; [exact Hs|].
  set (bufs := fun l : AudioLane => buffers demo_opus (submitted (decoder l))).
  assert (Hsub : bufs <$> audioLanes (client hearing_session_demo) !! js "mic"
                 = Some [[[of_Z 1]; [of_Z 1]]; [[of_Z 2]; [of_Z 2]]]) by by vm_compute.
  pose proof (eq_trans (eq_sym (f_equal (fmap bufs) Hl)) Hsub) as Heq. apply (inj Some) in Heq.
  rewrite <- Heq. exact Hp.
Defined.
